(* ===== verification/_CoqProject ===== *)
-Q . S2P
Prelude.v
CString.v
Common.v
ParseRegex.v
PatternFacts.v
PatternTokens.v
TokenCounts.v
Bitset.v
QmTokens.v
TokenKinds.v
PatternSpec.v
PatternBounds.v
Preorder.v
PreorderFacts.v
Runs.v
Ynode.v
YnodeFacts.v
YnodeSpec.v
YnodeTheorems.v
YnodeMove.v
YnodeOrder.v
Lnode.v
LnodeFacts.v
LnodeTheorems.v
Forest.v
ForestSpec.v
ForestTree.v
ForestTheorems.v
YnodeQuery.v
YnodeRules.v
YnodeMandatory.v
QueryFacts.v
TypeTheorems.v
MandatoryTheorems.v
QueryTheorems.v
RuleTheorems.v
Dnode.v
DnodeTheorems.v
TransBase.v
TransChoice.v
TransCase.v
TransMerge.v
TransForm.v
TransGroup.v
Pnode.v
PnodeTheorems.v
Ident.v
IdentTheorems.v
Names.v
Idents.v
NamesTheorems.v
TransIdent.v
Regex.v
RegexTheorems.v
PrintTypes.v
Printer.v
PrintTheorems.v
Debug.v
DebugTheorems.v
Augyang.v
Edits.v
Shape.v
TreeEdits.v
PassTheorems.v
CasePasses.v
PipelineTheorems.v
SrdsCommon.v
SrdsTheorems.v
SrdsLoad.v
SrdsLoadTheorems.v
SrdsInit.v
SrdsInitTheorems.v
SrdsStore.v
SrdsStoreTheorems.v
SrdsAugeas.v
SrdsAugeasTheorems.v
Srplgd.v
SrplgdTheorems.v
Main.v
MainTheorems.v
