(* ===== verification/Prelude.v ===== *)
(** * Augyang: from Augeas lenses to YANG modules

    ** The program

    [augyang] reads a lense of Augeas (libaugeas gives it as a graph of [struct
    lens]) and prints a YANG module.  The path of the data is:

    - [src/common.c], [src/parse_regex.c]: the patterns of [key] lenses are split
      into the identifiers that they stand for; the result is the translation table
      ([struct ay_transl]).
    - [src/augyang.c], first part: the lenses are copied into an array in preorder,
      the tree of lnodes; the tree of ynodes is created from it.
    - [src/augyang.c], second part: about forty transformations turn the tree of
      ynodes into the tree of a YANG module.  They share the edits of the array, the
      queries, the dictionaries of [src/common.c] and the rules that say how many
      nodes a transformation inserts.
    - [src/print_yang.c]: names the nodes and prints the module.
    - [src/main.c]: finds the modules of Augeas, translates and writes each of them;
      [src/debug.c]: prints the trees for the developer.
    - [srds_augeas/]: a datastore plug-in of sysrepo.  From a printed module it makes
      augnodes, which say what each schema node is in Augeas; following them, the
      content of configuration files is converted into data of YANG, and changes of
      the data into changes of the files.
    - [srplgd_augeas/]: a daemon plug-in that restarts services whose files changed.

    ** How C is modelled

    A C function is a function to [res]: [Ok] is a returned value, [Err] a returned
    error code, [Fault] a step outside of defined C or a failed assertion.  Objects
    that are changed in place are passed in and returned.  An array is a list and a
    pointer into it an index ([None] is NULL); the access of an element that is not
    allocated is [Fault OutOfBounds].  The trees of lnodes and ynodes and of pnodes
    are arrays with indices for the pointers ([Preorder]), because the code moves
    elements with [memmove] and repairs the pointers afterwards; the model does the
    same, and so an index that is held over a move is as stale as the pointer.  When
    [realloc] moves the array of ynodes itself, the pointers that the copied nodes hold
    become arbitrary indices ([reserve]), until the tree is corrected.
    [struct ay_ynode_root] lies over the first ynode: the root's [snode] is the first
    lnode, its [label] and [value] are the dictionaries, which are no lnodes
    ([with_dictionaries], [with_ltree]); the counter and the size of the array, which
    take the place of [id] and [when_val], are members of [ytree], and nothing that the
    theorems speak of moves or copies the root.
    Characters are bytes, strings end before the first NUL ([CString]); fixed
    buffers are lists with the terminator.  32-bit and 64-bit counters wrap with
    [u32] and [u64]; shifts of a 64-bit word by 64 or more are [Fault BadShift].

    Loops that are structural recursions in the source (over a string, over an array)
    are structural here.  The others have fuel and give [Fault OutOfFuel] without it;
    each is started with a bound computed from its input, mostly the number of
    elements of the array, or one more, since the pointers of a tree move strictly
    forward or strictly backward ([Runs]).  A theorem of the form [runs Q r] includes that
    the fuel is enough.  The plug-ins work on data of libyang and Augeas, whose size the
    code does not know: their fuel is a parameter, and a theorem holds for all fuel
    (when it is about what cannot happen) or states that enough fuel exists, or how
    much it is.  A loop of the code that can run forever is a model that runs
    out of fuel, and is listed with the departures below.

    Assumptions: [malloc], [realloc] and [strdup] succeed; the "C" locale; sizes of
    the LP64 model with [int] of 32 bits and little-endian bytes; trees with fewer
    than 2^32 nodes; NDEBUG is not set, so that [assert] is checked.

    ** The files

    - [Prelude] (this file): outcomes, the result monad, checked access, wrapping.
      [CString]: strings, [ctype.h], buffers.  [Common]: error codes, data and small
      functions of [src/common.c] and [src/common.h].
    - [ParseRegex] is [src/parse_regex.c].  [PatternFacts], [Bitset], [TokenCounts],
      [PatternTokens], [QmTokens] and [TokenKinds] prove a contract for tokens and its
      instances; [PatternSpec] and [PatternBounds] hold the theorems: the identifiers
      of a pattern, the selected alternative, the limits at which the code overflows
      its buffers or its counters, the end of the loops.
    - [Preorder], [PreorderFacts], [Runs]: trees in arrays, for lnodes, ynodes and
      pnodes.
    - [Ynode]: the edits of the tree of ynodes ([ay_ynode_insert_*], [ay_ynode_copy_*],
      [ay_ynode_move_subtree*], [ay_ynode_delete_*], [ay_ynode_trans_insert] of
      [src/augyang.c]).  [YnodeFacts] and [YnodeSpec] give each a contract on rose
      trees, [YnodeTheorems] relates sequences of edits to a transition system on
      trees (a refinement) and keeps the identifiers unique, [YnodeMove] and
      [YnodeOrder] treat moves, the reversal of siblings and the repair of pointers.
    - [Lnode], [LnodeFacts], [LnodeTheorems]: lenses, lnodes, labels and values.
    - [Forest], [ForestSpec], [ForestTree], [ForestTheorems]: [ay_ynode_create_tree].
    - [YnodeQuery], [YnodeRules], [YnodeMandatory]: comparisons, rules, mandatory
      statements and conditions; [QueryFacts], [QueryTheorems], [RuleTheorems],
      [TypeTheorems], [MandatoryTheorems]: they end on every tree, what equality of
      subtrees means, that a transformation gets the space it asks for, wherever
      [realloc] moves the array, and which tree is left of one with nodes of unknown
      type ([types_known]).
    - [Dnode], [DnodeTheorems]: the dictionaries, down to the bytes that [memmove]
      moves.
    - [TransBase], [TransChoice], [TransCase], [TransMerge], [TransForm], [TransGroup]:
      the transformations, in the order of [ay_ynode_transformations].  [Edits] is the
      logic for a pass that edits at many places: what it knows of the array is that it
      represents a tree, and of how many nodes.  [Shape] looks at the array as nested
      intervals, without the data, and gives the moves and copies a contract there;
      [TreeEdits] has the contracts of all edits in this form and the rules for loops
      that go on while nodes come and go.
    - [PassTheorems], [CasePasses]: 19 of the 29 transformations end on every tree, and
      if they return, it is a tree again; [PipelineTheorems] composes them with the space
      that their rules reserve ([transformations_keep_tree]), which need not be enough:
      assertions may fail.  The other ten rely on what
      the transformations before them leave (the label of the root, identifiers, the
      nodes behind a branch) or may not end on every tree; the theorem does not speak of
      them.  The insertion of keys and values needs no more space than its rule counts
      ([keys_and_values_fit]).
    - [Ident], [IdentTheorems], [Regex], [RegexTheorems]: [src/print_yang.c] as far as
      identifiers and regular expressions are concerned: the buffers hold, the
      conversion equals a function on strings, a pattern is printed as the quoted
      pattern of YANG.
    - [Pnode], [PnodeTheorems]: [src/terms.c].  The terms of the syntax tree of
      libaugeas are put in preorder into an array of pnodes, each with the binding
      that it belongs to ([term_tree_created]); then lnodes and snodes are connected
      with them, and subtractions and references are resolved.
    - [Names]: the identifier of a node from its lenses, its terms and its
      descendants ([ay_get_yang_ident]); [Idents]: all nodes in turn, and the numbers
      behind equal identifiers; [NamesTheorems]: which siblings count as nodes with
      one parent, the room for the number.  [TransIdent]: the transformations that
      need identifiers, and all transformations in their order
      ([ay_ynode_transformations]) on the record [pipeline].
    - [PrintTypes], [Printer]: the printing of types and of statements.  A printing
      function is a computation with the printer as state (text, indentation, flags of
      the terms) that is also known after an error ([coded]), because the code goes on
      printing with some errors kept for the end and others ignored.
      [PrintTheorems]: a printed node leaves the indentation as it was, with the
      blocks of choices closed ([children_nested]).
    - [Debug], [DebugTheorems]: [src/debug.c].  The callbacks of a printer are fields of
      a record, and the functions that reach the next nodes have the height of the tree
      as fuel.  Following the links of the lnodes prints the same text as following the
      lenses, so that the comparison in [ay_test_lnode_tree] agrees ([lnode_tree_agrees]).
    - [Augyang]: [augyang_print_yang], from the module to the text.  Lenses, the syntax
      tree, the loaded modules and the text of a regular expression (libaugeas) are
      arguments, and so is what [realloc] gives: whether the array moved, what
      old pointers then are, and the content of new elements.
    - [Main], [MainTheorems]: [src/main.c].  The search path is memory with a recorded
      length; the iterators, the options and the loop over the modules are functions to
      the list of what is written to files and streams.  Directories, libaugeas, libyang
      and the translation are members of the class [System].  From the third directory
      on a path is lost ([later_paths_lost]); the names of files fit into the buffer
      that is computed for them ([file_names_fit]; the fuel of the loop is the number of
      arguments).
    - [SrdsCommon], [SrdsTheorems]: [srds_augeas/srdsa_common.c], the functions shared
      by the parts of the datastore plug-in.  System calls and libaugeas are
      parameters.  A label is decoded, or never ([label_node_decoded]); a copied file
      is complete in the end when the system makes progress ([cp_path_completes]).
    - [SrdsInit], [SrdsInitTheorems]: [srds_augeas/srdsa_init.c], the augnodes that are
      made of a module, in an array with indices for the pointers.  They are the tree of
      its schema nodes without those that Augeas does not have
      ([augnodes_are_schema_tree]).
    - [SrdsLoad], [SrdsLoadTheorems]: [srds_augeas/srdsa_load.c].  The labels of Augeas are
      an array whose entries are taken: which ones is described by a relation that follows
      the augnodes ([labels_converted]); a node with a data path takes them in the order
      of the file ([values_in_order]).  The recursion over augnodes has fuel for its depth.
    - [SrdsStore], [SrdsStoreTheorems]: [srds_augeas/srdsa_store.c].  A difference is
      applied to Augeas; a change of one instance whose paths need no preparation makes
      the calls of its abstract plan ([changes_applied]); the paths that are prepared,
      and those that are not ([prepared_paths]).
    - [SrdsAugeas], [SrdsAugeasTheorems]: [srds_augeas/srds_augeas.c], the callbacks on the
      record [plugin] of augnodes, indices and files, and [ay_startup.c].  The recovery
      restores every backup if the file system works ([recover_restores]); the time of
      the last change is never found ([last_modif_fails]).
    - [Srplgd], [SrplgdTheorems]: [srplgd_augeas/], the daemon plug-in: the table of
      services, the callbacks that restart or signal a service, the subscriptions.

    ** Departures of the code from its intention

    Several theorems state what the code does where that is not what it means to do:
    [PatternSpec.last_nocase_overflows], [PatternBounds.question_mark_limits],
    [PatternBounds.qm_identifier_of_64_overflows], [PatternBounds.vbar_qm_overflows],
    [ForestTheorems.recursion_at_the_end_fails],
    [MandatoryTheorems.node_behind_choice_skipped],
    [DnodeTheorems.later_key_lost], [RegexTheorems.escaped_parenthesis_lost],
    [NamesTheorems.number_ident_bounds],
    [PipelineTheorems.ordered_entries_lack_a_place],
    [PipelineTheorems.dictionary_read_as_lnode], [MainTheorems.later_paths_lost],
    [SrdsStoreTheorems.prepared_paths], [SrdsAugeasTheorems.last_modif_fails],
    [SrplgdTheorems.never_subscribed]; [PrintTheorems.children_nested] has the
    exception [error_lost].

    ** Not modelled

    - What happens in [augyang_print_yang] after an error of the creation of the tree of
      ynodes, whose code is not looked at: the dictionaries are then not allocated.
    - The freeing of memory, the wrappers without code of their own, and failures of
      [malloc] and [realloc].
    - The inputs of [augds_init] and [main] that only the tests of the repository use.
    - The installed modules, the scripts and the tests: data and glue.
 *)
From stdpp Require Export base list strings numbers option sets.
From Stdlib Require Export ZArith Lia Ascii.
From Stdlib Require String.

#[export] Set Warnings "-clear-no-such-hyp".

(** ** Outcomes of C code *)

(** What can go wrong in a C function besides returning an error code. *)
Inductive fault :=
| OutOfBounds
| AssertFailed
| NullDeref
| Uninitialised
| BadShift
| OutOfFuel.

#[export] Instance fault_eq_dec : EqDecision fault.
Proof. solve_decision. Defined.

(** A call returns a value, returns a non-zero code, or leaves defined C. *)
Inductive res (A : Type) : Type :=
| Ok (a : A)
| Err (code : Z)
| Fault (f : fault).
Arguments Ok {_} _.
Arguments Err {_} _.
Arguments Fault {_} _.

#[export] Instance res_eq_dec `{EqDecision A} : EqDecision (res A).
Proof. solve_decision. Defined.

#[export] Instance res_ret : MRet res := @Ok.
#[export] Instance res_bind : MBind res := λ A B k m,
  match m with
  | Ok a => k a
  | Err e => Err e
  | Fault f => Fault f
  end.
#[export] Instance res_fmap : FMap res := λ A B k m,
  match m with
  | Ok a => Ok (k a)
  | Err e => Err e
  | Fault f => Fault f
  end.

(** A computation that changes an object of type [S] and returns a code: the object
    is kept when the code is not zero. *)
Definition coded (S A : Type) : Type := S → res (S * (Z + A)).

#[export] Instance coded_ret {S} : MRet (coded S) := λ A a s, Ok (s, inr a).
#[export] Instance coded_bind {S} : MBind (coded S) := λ A B k m s,
  match m s with
  | Ok (s', inr a) => k a s'
  | Ok (s', inl e) => Ok (s', inl e)
  | Err e => Err e
  | Fault f => Fault f
  end.

(** A function that does not touch the object, one that only reads it, one that
    leaves it as it is when it fails. *)
Definition lift {S A} (r : res A) : coded S A := λ s,
  match r with Ok a => Ok (s, inr a) | Err e => Ok (s, inl e) | Fault f => Fault f end.
Definition look {S A} (f : S → res A) : coded S A := λ s, lift (f s) s.
Definition change {S} (f : S → res S) : coded S unit := λ s,
  match f s with Ok s' => Ok (s', inr tt) | Err e => Ok (s, inl e) | Fault f => Fault f end.

(** The code instead of leaving; the code kept for the end, where it is returned. *)
Definition attempt {S A} (m : coded S A) : coded S (Z + A) := λ s,
  match m s with
  | Ok (s', r) => Ok (s', inr r)
  | Err e => Err e
  | Fault f => Fault f
  end.
Definition return_code {S} (r : Z + unit) : coded S unit := λ s, Ok (s, r).
Definition status {S} (m : coded S unit) : coded S Z := λ s,
  match m s with
  | Ok (s', inl e) => Ok (s', inr e)
  | Ok (s', inr _) => Ok (s', inr 0%Z)
  | Err e => Err e
  | Fault f => Fault f
  end.

(** [assert(b)] of the C library. *)
Definition c_assert (b : bool) : res unit :=
  if b then Ok tt else Fault AssertFailed.

(** A pointer that the code dereferences. *)
Definition deref {A} (p : option A) : res A :=
  match p with Some a => Ok a | None => Fault NullDeref end.

(** An array element that the code reads. *)
Definition fetch {A} (l : list A) (i : nat) : res A :=
  match l !! i with Some a => Ok a | None => Fault OutOfBounds end.

(** An array element that the code writes. *)
Definition store {A} (l : list A) (i : nat) (a : A) : res (list A) :=
  if decide (i < length l)%nat then Ok (<[i := a]> l) else Fault OutOfBounds.

(** The number of elements between two indices, as the size of a block. *)
Definition nat_sub (a b : nat) : res nat :=
  if (b <=? a)%nat then Ok (a - b)%nat else Fault OutOfBounds.

(** ** Fixed-width unsigned integers *)

Definition u32 (z : Z) : Z := z mod 2 ^ 32.
Definition u64 (z : Z) : Z := z mod 2 ^ 64.

Lemma u32_small z : (0 ≤ z < 2 ^ 32)%Z → u32 z = z.
Proof. apply Z.mod_small. Qed.

Lemma u64_small z : (0 ≤ z < 2 ^ 64)%Z → u64 z = z.
Proof. apply Z.mod_small. Qed.

(** ** The result monad *)

Section res_lemmas.
Context {A B : Type}.
Implicit Types (m : res A) (k : A → res B).

Lemma bind_Ok_inv m k b : (m ≫= k) = Ok b → ∃ a, m = Ok a ∧ k a = Ok b.
Proof. destruct m; [eauto | done | done]. Qed.

Lemma bind_Ok a k : (Ok a ≫= k) = k a.
Proof. done. Qed.

Lemma bind_Err_inv m k e :
  (m ≫= k) = Err e → m = Err e ∨ ∃ a, m = Ok a ∧ k a = Err e.
Proof. destruct m; cbn; naive_solver. Qed.

Lemma bind_Fault_inv m k f :
  (m ≫= k) = Fault f → m = Fault f ∨ ∃ a, m = Ok a ∧ k a = Fault f.
Proof. destruct m; cbn; naive_solver. Qed.

Lemma bind_ext m k k' : (∀ a, m = Ok a → k a = k' a) → (m ≫= k) = (m ≫= k').
Proof. destruct m; cbn; auto. Qed.
End res_lemmas.

(** A computation with an object that has a value. *)
Lemma coded_bind_inv {S A B} (p : coded S A) (k : A → coded S B) s s' b :
  (p ≫= k) s = Ok (s', inr b) → ∃ s1 a, p s = Ok (s1, inr a) ∧ k a s1 = Ok (s', inr b).
Proof. unfold mbind, coded_bind. destruct (p s) as [[s1 [e|a]]| |]; try done. eauto. Qed.

Lemma lift_inv {S A} (r : res A) (s s' : S) a : lift r s = Ok (s', inr a) → r = Ok a ∧ s' = s.
Proof. unfold lift. destruct r; intros [=]. by subst. Qed.

Lemma change_inv {S} (f : S → res S) s s' a : change f s = Ok (s', inr a) → f s = Ok s'.
Proof. unfold change. destruct (f s); intros [=]. by subst. Qed.

Lemma mret_inv {S A} (a b : A) (s s' : S) : mret (M:=coded S) a s = Ok (s', inr b) → b = a ∧ s' = s.
Proof. by intros [= <- <-]. Qed.

Lemma c_assert_true b : b = true → c_assert b = Ok tt.
Proof. by intros ->. Qed.

Lemma c_assert_inv b u : c_assert b = Ok u → b = true.
Proof. by destruct b. Qed.

Lemma fetch_Some {A} (l : list A) i a : l !! i = Some a → fetch l i = Ok a.
Proof. unfold fetch. by intros ->. Qed.

Lemma fetch_Ok {A} (l : list A) i a : fetch l i = Ok a ↔ l !! i = Some a.
Proof. unfold fetch. destruct (l !! i); naive_solver. Qed.

Lemma fetch_lt {A} (l : list A) i : (i < length l)%nat → ∃ a, fetch l i = Ok a.
Proof. intros [a Ha]%lookup_lt_is_Some. exists a. by apply fetch_Ok. Qed.

Lemma store_Ok {A} (l : list A) i a :
  (i < length l)%nat → store l i a = Ok (<[i := a]> l).
Proof. intros. unfold store. by rewrite decide_True. Qed.

Lemma store_out {A} (l : list A) i a :
  ¬ (i < length l)%nat → store l i a = Fault OutOfBounds.
Proof. intros. unfold store. by rewrite decide_False. Qed.

Lemma store_inv {A} (l l' : list A) i a :
  store l i a = Ok l' → (i < length l)%nat ∧ l' = <[i := a]> l.
Proof. unfold store. case_decide; naive_solver. Qed.

Lemma nat_sub_Ok a b : (b <= a)%nat → nat_sub a b = Ok (a - b)%nat.
Proof. intros. unfold nat_sub. by rewrite (proj2 (Nat.leb_le _ _)). Qed.

(** [inv_res] takes apart every successful [bind] among the hypotheses. *)
Ltac inv_res :=
  repeat match goal with
  | H : (_ ≫= _) = Ok _ |- _ =>
      let a := fresh "a" in let Ha := fresh "Ha" in
      apply bind_Ok_inv in H as (a & Ha & H)
  | H : c_assert _ = Ok _ |- _ => apply c_assert_inv in H
  | H : store _ _ _ = Ok _ |- _ =>
      let Hl := fresh "Hl" in apply store_inv in H as [Hl ->]
  | H : fetch _ _ = Ok _ |- _ => apply fetch_Ok in H
  | H : Ok _ = Ok _ |- _ => injection H as H; subst
  | H : Err _ = Ok _ |- _ => discriminate H
  | H : Fault _ = Ok _ |- _ => discriminate H
  end.

(** ** Lists *)

Lemma insert_app_mid {A} (pre post : list A) (a b : A) i :
  i = length pre → <[i := b]> (pre ++ a :: post) = pre ++ b :: post.
Proof. intros ->. by rewrite insert_app_r_alt, Nat.sub_diag by lia. Qed.

Lemma lookup_app_mid {A} (pre post : list A) (a : A) i :
  i = length pre → (pre ++ a :: post) !! i = Some a.
Proof. intros ->. by rewrite lookup_app_r, Nat.sub_diag by lia. Qed.

Lemma Forall_sublist {A} (Q : A → Prop) (l k : list A) : sublist l k → Forall Q k → Forall Q l.
Proof.
  induction 1 as [|x l k _ IH|x l k _ IH]; intros Hk; [done|..];
    inversion_clear Hk; [constructor|]; auto.
Qed.

Create HintDb augyang.
Create Rewrite HintDb augyang_rw.
#[export] Hint Resolve c_assert_true fetch_Some store_Ok : augyang.
#[export] Hint Rewrite @bind_Ok @length_app @length_insert @length_cons : augyang_rw.
