(* ===== verification/CString.v ===== *)
(** C strings, character classes and fixed-size character buffers: the part of
    the C standard library that the sources use.  A [cstr] is the text before
    the terminator, a pointer into it is an index or a suffix, and reading the
    terminator gives [NUL].  A [buf] is the whole array, terminator included,
    so that a write outside it is a [Fault]. *)
From S2P Require Import Prelude.

Declare Scope cstr_scope.
Delimit Scope cstr_scope with cs.

Abbreviation cstr := (list ascii) (only parsing).
Abbreviation buf := (list ascii) (only parsing).

Definition NUL : ascii := "000"%char.
Definition LF : ascii := "010"%char.
Definition CR : ascii := "013"%char.
Definition TAB : ascii := "009"%char.
Definition DQUOTE : ascii := "034"%char.
Definition BSLASH : ascii := "092"%char.

(** A string literal. *)
Definition lit (s : string) : cstr := String.list_ascii_of_string s.

(** [s[i]], the terminator included. *)
Definition at_ (s : cstr) (i : nat) : ascii := default NUL (s !! i).

Notation "a =c b" := (Ascii.eqb a b) (at level 70) : cstr_scope.
Notation "a <>c b" := (negb (Ascii.eqb a b)) (at level 70) : cstr_scope.
Open Scope cstr_scope.

(** ** Character classes (the C locale) *)

Definition code (c : ascii) : Z := Z.of_N (N_of_ascii c).
Definition isupper (c : ascii) : bool := (65 <=? code c)%Z && (code c <=? 90)%Z.
Definition islower (c : ascii) : bool := (97 <=? code c)%Z && (code c <=? 122)%Z.
Definition isdigit (c : ascii) : bool := (48 <=? code c)%Z && (code c <=? 57)%Z.
Definition isalpha (c : ascii) : bool := isupper c || islower c.
Definition toupper (c : ascii) : ascii :=
  if islower c then ascii_of_N (N_of_ascii c - 32) else c.
Definition tolower (c : ascii) : ascii :=
  if isupper c then ascii_of_N (N_of_ascii c + 32) else c.

(** A property of all characters is decided by evaluation. *)
Ltac all_ascii c :=
  destruct c as [[] [] [] [] [] [] [] []]; vm_compute; try done; try (by intros).

Lemma isupper_tolower c : isupper (tolower c) = false.
Proof. all_ascii c. Qed.

Lemma tolower_id c : isupper c = false → tolower c = c.
Proof. unfold tolower. by intros ->. Qed.

Lemma tolower_idemp c : tolower (tolower c) = tolower c.
Proof. apply tolower_id, isupper_tolower. Qed.

Lemma tolower_alpha c : isalpha c = true → islower (tolower c) = true.
Proof. all_ascii c. Qed.

Lemma tolower_dash c : (tolower c =c "-") = (c =c "-").
Proof. all_ascii c. Qed.

Lemma tolower_NUL c : (tolower c =c NUL) = (c =c NUL).
Proof. all_ascii c. Qed.

(** ** Searching *)

Fixpoint strchr (s : cstr) (c : ascii) : option nat :=
  match s with
  | [] => None
  | d :: s' => if d =c c then Some 0 else S <$> strchr s' c
  end.

Fixpoint strrchr (s : cstr) (c : ascii) : option nat :=
  match s with
  | [] => None
  | d :: s' =>
      match strrchr s' c with
      | Some i => Some (S i)
      | None => if d =c c then Some 0 else None
      end
  end.

Definition memchr (s : cstr) (c : ascii) (n : nat) : option nat := strchr (take n s) c.

(** [strncmp(s, p, n) == 0] and [strcmp(s, p) == 0]. *)
Definition strneq (s p : cstr) (n : nat) : bool := bool_decide (take n s = take n p).
Definition streq (s p : cstr) : bool := bool_decide (s = p).

(** ** Numbers in strings *)

(** [strtoul] with base 10: blanks, a sign, digits up to a limit; with the rest of the
    string, which is all of it without a digit. *)
Definition ULONG_MAX : Z := 2 ^ 64 - 1.
Fixpoint digits (s : cstr) (acc : Z) : Z * cstr :=
  match s with
  | c :: s' => if isdigit c then digits s' (acc * 10 + (code c - 48))%Z else (acc, s)
  | [] => (acc, s)
  end.
Definition is_blank (c : ascii) : bool := (c =c " ") || (9 <=? code c)%Z && (code c <=? 13)%Z.
Fixpoint skip_blanks (s : cstr) : cstr :=
  match s with c :: s' => if is_blank c then skip_blanks s' else s | [] => [] end.
Definition strtoul (s : cstr) : Z * cstr :=
  let t := skip_blanks s in
  let negative := at_ t 0 =c "-" in
  let t := if negative || (at_ t 0 =c "+") then drop 1 t else t in
  if isdigit (at_ t 0) then
    let '(z, rest) := digits t 0 in
    (if (ULONG_MAX <? z)%Z then ULONG_MAX else if negative then u64 (- z) else z, rest)
  else (0%Z, s).

(** [strtol] with base 10: the value, whether it was out of the range of [long], and the
    rest of the string. *)
Definition strtol (s : cstr) : Z * bool * cstr :=
  let t := skip_blanks s in
  let negative := at_ t 0 =c "-" in
  let t := if negative || (at_ t 0 =c "+") then drop 1 t else t in
  if isdigit (at_ t 0) then
    let '(z, rest) := digits t 0 in
    let v := if negative then (- z)%Z else z in
    let limited := Z.max (- 2 ^ 63) (Z.min (2 ^ 63 - 1) v) in
    (limited, negb (v =? limited)%Z, rest)
  else (0%Z, false, s).

Lemma strchr_None s c : strchr s c = None ↔ c ∉ s.
Proof.
  induction s as [|d s IH]; cbn; [set_solver|].
  destruct (Ascii.eqb_spec d c) as [->|Hne]; [set_solver|].
  rewrite fmap_None, IH. set_solver.
Qed.

Lemma strchr_Some s c i :
  strchr s c = Some i ↔ ∃ s1 s2, s = s1 ++ c :: s2 ∧ length s1 = i ∧ c ∉ s1.
Proof.
  revert i. induction s as [|d s IH]; intros i; cbn.
  - split; [done|]. intros (s1 & s2 & ? & _). by destruct s1.
  - destruct (Ascii.eqb_spec d c) as [->|Hne].
    + split.
      * intros [= <-]. exists [], s. split_and!; [done..|set_solver].
      * intros (s1 & s2 & Heq & <- & Hn). destruct s1; [done|].
        simplify_eq/=. set_solver.
    + rewrite fmap_Some. split.
      * intros (j & (s1 & s2 & -> & <- & Hn)%IH & ->).
        exists (d :: s1), s2. split_and!; [done..|set_solver].
      * intros (s1 & s2 & Heq & <- & Hn). destruct s1 as [|e s1]; simplify_eq/=.
        exists (length s1). split; [|done]. apply IH. exists s1, s2.
        split_and!; [done..|set_solver].
Qed.

Lemma strchr_app_l s1 c s2 : c ∉ s1 → strchr (s1 ++ c :: s2) c = Some (length s1).
Proof. intros. apply strchr_Some. eauto 10. Qed.

Lemma strrchr_None s c : strrchr s c = None ↔ c ∉ s.
Proof.
  induction s as [|d s IH]; cbn; [set_solver|].
  destruct (strrchr s c) eqn:E.
  - split; [done|]. intros Hn. exfalso. destruct IH as [_ IH].
    discriminate IH. set_solver.
  - destruct (Ascii.eqb_spec d c) as [->|Hne]; [set_solver|].
    destruct IH as [IH _]. set_solver.
Qed.

Lemma strrchr_app_r s1 c s2 : c ∉ s2 → strrchr (s1 ++ c :: s2) c = Some (length s1).
Proof.
  intros Hn. induction s1 as [|d s1 IH]; cbn; [|by rewrite IH].
  rewrite (proj2 (strrchr_None s2 c) Hn). by rewrite Ascii.eqb_refl.
Qed.

Lemma strrchr_Some s c i :
  strrchr s c = Some i → ∃ s1 s2, s = s1 ++ c :: s2 ∧ length s1 = i ∧ c ∉ s2.
Proof.
  revert i. induction s as [|d s IH]; intros i; cbn; [done|].
  destruct (strrchr s c) as [j|] eqn:E.
  - intros [= <-]. destruct (IH j) as (s1 & s2 & -> & <- & Hn); [done|].
    by exists (d :: s1), s2.
  - destruct (Ascii.eqb_spec d c) as [->|Hne]; [|done]. intros [= <-].
    exists [], s. split_and!; [done..|]. by apply strrchr_None.
Qed.

(** ** Buffers *)

Definition is_cstr (s : cstr) : Prop := Forall (λ c, c ≠ NUL) s.

#[export] Instance is_cstr_dec s : Decision (is_cstr s).
Proof. unfold is_cstr. apply _. Defined.

Lemma at_app_r s t i : (length s <= i)%nat → at_ (s ++ t) i = at_ t (i - length s).
Proof. intros. unfold at_ in *. by rewrite lookup_app_r. Qed.

Lemma at_app_l s t i : (i < length s)%nat → at_ (s ++ t) i = at_ s i.
Proof. intros. unfold at_ in *. by rewrite lookup_app_l. Qed.

Lemma at_0_app s r : s ≠ [] → at_ (s ++ r) 0 = at_ s 0.
Proof. by destruct s. Qed.

Lemma at_ge s i : (length s <= i)%nat → at_ s i = NUL.
Proof. intros. unfold at_ in *. by rewrite lookup_ge_None_2. Qed.

Lemma is_cstr_at s i : is_cstr s → (i < length s)%nat → at_ s i ≠ NUL.
Proof.
  intros Hs Hi. unfold at_, is_cstr in *.
  apply lookup_lt_is_Some in Hi as [c Hc]. rewrite Hc. cbn.
  by eapply (Forall_lookup_1 _ _ _ _ Hs).
Qed.

(** The string stored at the start of a buffer. *)
Fixpoint cstr_of (b : buf) : res cstr :=
  match b with
  | [] => Fault OutOfBounds
  | c :: b' => if c =c NUL then Ok [] else s ← cstr_of b'; Ok (c :: s)
  end.

(** Writing the characters [s] from index [i] on. *)
Definition bwrite (b : buf) (i : nat) (s : list ascii) : res buf :=
  if decide (i + length s <= length b)%nat
  then Ok (take i b ++ s ++ drop (i + length s) b)
  else Fault OutOfBounds.

Definition strcpy (b : buf) (i : nat) (s : cstr) : res buf := bwrite b i (s ++ [NUL]).

Definition strncat (b : buf) (s : cstr) (n : nat) : res buf :=
  d ← cstr_of b; strcpy b (length d) (take n s).

(** [strcat]. *)
Definition strcat (b : buf) (s : cstr) : res buf := t ← cstr_of b; strcpy b (length t) s.

(** [memmove(b + dst, b + src, n)] inside one array. *)
Definition bmove (b : buf) (dst src n : nat) : res buf :=
  if decide (src + n <= length b)%nat
  then bwrite b dst (take n (drop src b))
  else Fault OutOfBounds.

(** Memory from [malloc]: a byte is [None] until it is written. *)
Abbreviation memory := (list (option ascii)).
Definition malloc (n : nat) : memory := replicate n None.
Definition realloc (m : memory) (n : nat) : memory := take n m ++ replicate (n - length m) None.
Definition write_char (m : memory) (i : nat) (c : ascii) : res memory := store m i (Some c).
Fixpoint write_chars (m : memory) (i : nat) (s : cstr) : res memory :=
  match s with [] => Ok m | c :: s' => m' ← write_char m i c; write_chars m' (S i) s' end.
(** The string at the start. *)
Fixpoint read_string (m : memory) : res cstr :=
  match m with
  | [] => Fault OutOfBounds
  | None :: _ => Fault Uninitialised
  | Some c :: m' => if c =c NUL then Ok [] else s ← read_string m'; Ok (c :: s)
  end.

Lemma cstr_of_app s r : is_cstr s → cstr_of (s ++ NUL :: r) = Ok s.
Proof.
  induction 1 as [|c s Hc Hs IH]; [done|]. cbn.
  destruct (Ascii.eqb_spec c NUL) as [->|_]; [done|]. by rewrite IH.
Qed.

Lemma cstr_of_Ok b s : cstr_of b = Ok s → is_cstr s ∧ ∃ r, b = s ++ NUL :: r.
Proof.
  revert s. induction b as [|c b IH]; intros s; cbn; [done|].
  destruct (Ascii.eqb_spec c NUL) as [->|Hne].
  - intros [= <-]. split; [constructor|]. by exists b.
  - intros (s' & Hs & [= <-])%bind_Ok_inv. destruct (IH s') as (? & r & ->); [done|].
    split; [by constructor|]. by exists r.
Qed.

Lemma bwrite_app pre mid post s i :
  i = length pre → length s = length mid →
  bwrite (pre ++ mid ++ post) i s = Ok (pre ++ s ++ post).
Proof.
  intros -> Hl. unfold bwrite. rewrite decide_True; [|rewrite !length_app; lia].
  f_equal. rewrite take_app_length. do 2 f_equal.
  rewrite drop_app_ge, drop_app_ge by lia.
  by replace (_ + _ - _ - _)%nat with 0%nat by lia.
Qed.

Lemma bwrite_length b i s b' : bwrite b i s = Ok b' → length b' = length b.
Proof.
  unfold bwrite. case_decide; [|done]. intros [= <-].
  rewrite !length_app, length_take, length_drop. lia.
Qed.

Lemma strncat_length b s n b' : strncat b s n = Ok b' → length b' = length b.
Proof. unfold strncat, strcpy. intros (d & _ & H)%bind_Ok_inv. by eapply bwrite_length. Qed.

(** Appending succeeds exactly when the result and its terminator fit. *)
Lemma strncat_fits s r t n :
  is_cstr s → (length (take n t) <= length r)%nat →
  strncat (s ++ NUL :: r) t n = Ok (s ++ take n t ++ NUL :: drop (length (take n t)) r).
Proof.
  intros Hs Hl. unfold strncat. rewrite cstr_of_app by done. cbn.
  set (u := take n t) in *. unfold strcpy.
  replace (s ++ NUL :: r)
    with (s ++ (NUL :: take (length u) r) ++ drop (length u) r)
    by (cbn; by rewrite take_drop).
  rewrite bwrite_app; [by rewrite <- app_assoc | done |].
  rewrite length_app; cbn. rewrite length_take. lia.
Qed.

Lemma strncat_overflows s r t n :
  is_cstr s → (length r < length (take n t))%nat →
  strncat (s ++ NUL :: r) t n = Fault OutOfBounds.
Proof.
  intros Hs Hl. unfold strncat. rewrite cstr_of_app by done. cbn.
  unfold strcpy, bwrite. rewrite decide_False; [done|].
  rewrite !length_app. cbn. lia.
Qed.

#[export] Hint Resolve strncat_length bwrite_length : augyang.
