(* ===== verification/Common.v ===== *)
(** Data and helpers shared by the components of augyang: the error codes of
    [src/augyang.h], the Augeas lense as the sources read it, the translation
    table record of [src/common.h], and the small functions of [src/common.c]
    that look at lense patterns and file names. *)
From S2P Require Import Prelude CString.

(** ** Error codes *)

Definition AYE_MEMORY : Z := 1.
Definition AYE_LENSE_NOT_FOUND : Z := 2.
Definition AYE_L_REC : Z := 3.
Definition AYE_DEBUG_FAILED : Z := 4.
Definition AYE_IDENT_NOT_FOUND : Z := 5.
Definition AYE_IDENT_LIMIT : Z := 6.
Definition AYE_LTREE_NO_ROOT : Z := 7.
Definition AYE_IDENT_BAD_CHAR : Z := 8.
Definition AYE_PARSE_FAILED : Z := 9.
Definition AYE_INTERNAL_ERROR : Z := 10.

Definition augyang_get_error_message (err_code : Z) : cstr :=
  let text s := lit "[augyang] ERROR: " ++ lit s ++ [LF] in
  if (err_code =? AYE_MEMORY)%Z then text "memory allocation failed."
  else if (err_code =? AYE_LENSE_NOT_FOUND)%Z then text "Augyang does not know which lense is the root."
  else if (err_code =? AYE_L_REC)%Z then text "lense with tag 'L_REC' is not supported."
  else if (err_code =? AYE_DEBUG_FAILED)%Z then text "debug test failed."
  else if (err_code =? AYE_IDENT_NOT_FOUND)%Z then text "identifier not found. Output YANG is not valid."
  else if (err_code =? AYE_IDENT_LIMIT)%Z then text "identifier is too long. Output YANG is not valid."
  else if (err_code =? AYE_LTREE_NO_ROOT)%Z then text "Augyang does not know which lense is the root."
  else if (err_code =? AYE_IDENT_BAD_CHAR)%Z then text "Invalid character in identifier."
  else if (err_code =? AYE_PARSE_FAILED)%Z then text "Augeas failed to parse."
  else if (err_code =? AYE_INTERNAL_ERROR)%Z then text "Augyang got into an unexpected state."
  else lit "[augyang] INTERNAL ERROR: error message not defined." ++ [LF].

(** [AY_MAX_IDENT_SIZE], the size of every identifier buffer. *)
Definition AY_MAX_IDENT_SIZE : nat := 64.

(** ** Lenses *)

Inductive lens_tag :=
| L_DEL | L_STORE | L_VALUE | L_KEY | L_LABEL | L_SEQ | L_COUNTER
| L_CONCAT | L_UNION | L_SUBTREE | L_STAR | L_MAYBE | L_REC | L_SQUARE.

#[export] Instance lens_tag_eq_dec : EqDecision lens_tag.
Proof. solve_decision. Defined.

(** A string that the code compares by address as well as by text. *)
Record cptr := CPtr { addr : nat; text : cstr }.

#[export] Instance cptr_eq_dec : EqDecision cptr.
Proof. solve_decision. Defined.

(** The fields of [struct lens] that the sources read, besides its children:
    [string] is meaningful for L_VALUE, L_LABEL, L_SEQ and L_COUNTER, the
    pattern and [nocase] of the regexp for L_DEL, L_STORE and L_KEY, and
    [rec_internal] for L_REC.  [lens_id] is the address of the structure. *)
Record lens := Lens {
  lens_id : nat;
  tag : lens_tag;
  lens_string : cstr;
  pattern : cptr;
  nocase : bool;
  rec_internal : bool
}.

#[export] Instance lens_eq_dec : EqDecision lens.
Proof. solve_decision. Defined.

Definition AY_TAG_IS_LABEL (t : lens_tag) : bool :=
  bool_decide (t = L_LABEL) || bool_decide (t = L_KEY) || bool_decide (t = L_SEQ).

Definition AY_TAG_IS_VALUE (t : lens_tag) : bool :=
  bool_decide (t = L_STORE) || bool_decide (t = L_VALUE).

(** ** Translation table *)

(** [struct ay_transl]: [substr] is a sized array, [substr_cap] the number of
    elements allocated for it. *)
Record ay_transl := AyTransl {
  origin : cptr;
  substr : list cstr;
  substr_cap : Z
}.

Fixpoint ay_transl_find (table : list ay_transl) (orig : cptr) : option ay_transl :=
  match table with
  | [] => None
  | e :: table' =>
      if decide (addr (origin e) = addr orig) then Some e
      else ay_transl_find table' orig
  end.

(** ** Characters of an identifier *)

(** The result and the [shift] output parameter. *)
Definition ay_ident_character_is_valid (ch : cstr) : bool * nat :=
  let c := at_ ch 0 in
  if ((65 <=? code c) && (code c <=? 90) || (97 <=? code c) && (code c <=? 122)
      || (48 <=? code c) && (code c <=? 57))%Z
  then (true, 0)
  else if ((c =c BSLASH) && (at_ ch 1 =c ".")) || ((c =c BSLASH) && (at_ ch 1 =c "-"))
          || ((c =c BSLASH) && (at_ ch 1 =c "+"))
  then (true, 1)
  else ((c =c " ") || (c =c "-") || (c =c "_"), 0).

(** The loop of [ay_lense_pattern_is_label]: it reaches the terminator. *)
Fixpoint pattern_is_label_loop (ch : cstr) : bool :=
  match ch with
  | [] => true
  | _ :: rest =>
      match ay_ident_character_is_valid ch with
      | (false, _) => false
      | (true, 0) => pattern_is_label_loop rest
      | (true, _) =>
          match rest with
          | [] => true
          | _ :: rest' => pattern_is_label_loop rest'
          end
      end
  end.

Definition ay_lense_pattern_is_label (l : option lens) : bool :=
  match l with
  | None => false
  | Some l =>
      if bool_decide (tag l ≠ L_STORE) && bool_decide (tag l ≠ L_KEY) then false
      else pattern_is_label_loop (text (pattern l))
  end.

(** The characters that [ay_lense_pattern_in_datapath] rejects. *)
Definition datapath_special (c : ascii) : bool :=
  existsb (Ascii.eqb c) (lit "[]*+()|?^").

Definition ay_lense_pattern_in_datapath (l : option lens) : bool :=
  match l with
  | None => false
  | Some l =>
      if bool_decide (tag l ≠ L_STORE) && bool_decide (tag l ≠ L_KEY) then false
      else forallb (λ c, negb (datapath_special c)) (text (pattern l))
  end.

(** ** File names *)

(** The loop that measures the name up to its first dot; without a dot it
    leaves the string. *)
Fixpoint filename_len (name : cstr) : res nat :=
  match name with
  | [] => Fault OutOfBounds
  | c :: name' => if c =c "." then Ok 0 else n ← filename_len name'; Ok (S n)
  end.

(** The index of the name in [path] and its length. *)
Definition ay_get_filename (path : cstr) : res (nat * nat) :=
  let name := match strrchr path "/" with Some i => S i | None => 0 end in
  len ← filename_len (drop name path);
  Ok (name, len).

(** ** Lemmas *)

Lemma pattern_is_label_no_shift s :
  Forall (λ c, isalpha c || isdigit c || (c =c "-") || (c =c "_") || (c =c " ") = true) s →
  pattern_is_label_loop s = true.
Proof.
  induction 1 as [|c s Hc Hs IH]; [done|].
  assert (ay_ident_character_is_valid (c :: s) = (true, 0)) as E.
  { clear IH Hs. unfold ay_ident_character_is_valid. cbn [at_ lookup list_lookup default].
    revert Hc. generalize (at_ (c :: s) 1). intros d. cbn. all_ascii c. }
  cbn [pattern_is_label_loop]. by rewrite E.
Qed.

Lemma filename_len_dot s1 s2 :
  ("."%char : ascii) ∉ s1 → filename_len (s1 ++ "."%char :: s2) = Ok (length s1).
Proof.
  induction s1 as [|c s1 IH]; intros Hn; cbn; [done|].
  destruct (Ascii.eqb_spec c ".") as [->|Hc]; [set_solver|].
  rewrite IH by set_solver. done.
Qed.

Lemma filename_len_no_dot s : ("."%char : ascii) ∉ s → filename_len s = Fault OutOfBounds.
Proof.
  induction s as [|c s IH]; intros Hn; cbn; [done|].
  destruct (Ascii.eqb_spec c ".") as [->|Hc]; [set_solver|].
  rewrite IH by set_solver. done.
Qed.
