(* ===== verification/ParseRegex.v ===== *)
(** [src/parse_regex.c]: splitting the pattern of a [key] lense into the
    identifiers it stands for.  A pattern is a [cstr], a token of it is the
    suffix that starts at the token together with the token's length (so reads
    past the end of the token see what the code sees), an identifier buffer is
    a [buf] of [AY_MAX_IDENT_SIZE] characters with arbitrary initial contents.
    A function with an [int] result and a buffer to fill returns both, because
    callers use the buffer after an error.  [malloc] and [strdup] succeed. *)
From S2P Require Import Prelude CString Common.

(** ** Single characters and sub-patterns *)

Definition ay_ident_character_nocase (str : cstr) : bool :=
  let ch1 := at_ str 1 in
  let ch2 := at_ str 2 in
  (at_ str 0 =c "[") && (ch1 <>c NUL) && isupper ch1 && (ch2 <>c NUL) && islower ch2
  && (ch1 =c toupper ch2) && (at_ str 3 =c "]").

Definition ay_ident_pattern_is_valid (str : cstr) : bool * nat :=
  if strneq str (lit "[ ]+") 4 || ay_ident_character_nocase str then (true, 3)
  else (false, 0).

(** The [for] loop of [ay_lense_pattern_has_idents]; [skip] counts the
    characters that an [iter++] inside the body already passed. *)
Fixpoint has_idents_loop (iter : cstr) (skip : nat) : bool :=
  match iter with
  | [] => true
  | c :: rest =>
      match skip with
      | S k => has_idents_loop rest k
      | 0 =>
          if (c =c "#") || (c =c "(") || (c =c "?") then has_idents_loop rest 0
          else if c =c ")" then has_idents_loop rest (if at_ iter 1 =c "?" then 1 else 0)
          else if (c =c "|") || (c =c LF) then has_idents_loop rest 0
          else
            match ay_ident_character_is_valid iter with
            | (true, shift) => has_idents_loop rest shift
            | (false, _) =>
                match ay_ident_pattern_is_valid iter with
                | (true, shift) => has_idents_loop rest shift
                | (false, _) => false
                end
            end
      end
  end.

(** [None] is the NULL result, [Some None] the non-NULL address returned when
    there is no tree, [Some (Some t)] a record of the tree's table. *)
Definition ay_lense_pattern_has_idents (patt_table : option (list ay_transl))
    (l : option lens) : option (option ay_transl) :=
  match l with
  | None => None
  | Some l =>
      if bool_decide (tag l ≠ L_KEY) then None
      else
        match patt_table with
        | Some table =>
            match ay_transl_find table (pattern l) with
            | Some t => Some (Some t)
            | None => None
            end
        | None => if has_idents_loop (text (pattern l)) 0 then Some None else None
        end
  end.

(** ** Bitsets *)

Definition ay_bitset_is_zero (bitset : list bool) (size : nat) : bool :=
  forallb negb (take size bitset).

Fixpoint ay_bitset_msb (bitset : list bool) (size : nat) : nat :=
  match size with
  | 0 => 0
  | S i => if default false (bitset !! i) then S i else ay_bitset_msb bitset i
  end.

Definition ay_bitset_clear (bitset : list bool) (size : nat) : list bool :=
  replicate size false ++ drop size bitset.

Definition ay_bitset_clear_msb (bitset : list bool) (size : nat) : res (list bool) :=
  let msb := ay_bitset_msb bitset size in
  _ ← c_assert (negb (msb =? 0));
  store bitset (msb - 1) false.

(** [1 << i] with an [int] 1, converted to [uint64_t]. *)
Definition int_shl1 (i : nat) : res Z :=
  if (i <? 31)%nat then Ok (2 ^ Z.of_nat i)%Z
  else if (i =? 31)%nat then Ok (2 ^ 64 - 2 ^ 31)%Z
  else Fault BadShift.

Fixpoint bitset_create_loop (n i : nat) (number : Z) (bitset : list bool) : res (list bool) :=
  match n with
  | 0 => Ok bitset
  | S n' =>
      mask ← int_shl1 i;
      b ← store bitset i (negb (Z.land number mask =? 0)%Z);
      bitset_create_loop n' (S i) number b
  end.

Definition ay_bitset_create_from_uint64 (bitset : list bool) (size : nat) (number : Z)
  : res (list bool) :=
  _ ← c_assert (size <=? 63)%nat;
  bitset_create_loop size 0 number bitset.

(** ** Counting identifiers *)

Definition ay_string_remove_character (str : cstr) (idx : nat) : res cstr :=
  _ ← c_assert (idx <? length str)%nat;
  Ok (take idx str ++ drop (S idx) str).

(** How many '(' a token starts with. *)
Fixpoint open_parens (ptoken : cstr) (len : nat) : nat :=
  match len, ptoken with
  | S len', c :: ptoken' => if c =c "(" then S (open_parens ptoken' len') else 0
  | _, _ => 0
  end.

Definition ay_pattern_identifier_nocase_variations (ptoken : cstr) (ptoken_len : nat) : Z :=
  let i := open_parens ptoken ptoken_len in
  if negb (i <? ptoken_len)%nat then 0%Z
  else if (4 <=? ptoken_len - i)%nat && ay_ident_character_nocase (drop i ptoken) then 2%Z
  else 0%Z.

Definition ay_pattern_identifier_qm_count (ptoken : cstr) (ptoken_len : nat) : nat :=
  length (filter (λ c, c = "?"%char) (take ptoken_len ptoken)).

Definition ay_pattern_identifier_qm_variations (ptoken : cstr) (ptoken_len : nat) : Z :=
  Nat.iter (ay_pattern_identifier_qm_count ptoken ptoken_len) (λ ret, u64 (ret * 2)) 1%Z.

(** [vbar] and [prev_vbar] are equal at the head of the loop. *)
Fixpoint idents_count_loop (fuel : nat) (vbar : cstr) (ret : Z) : res Z :=
  match fuel with
  | 0 => Fault OutOfFuel
  | S fuel' =>
      match strchr vbar "|" with
      | None => Ok (u64 (ret + ay_pattern_identifier_qm_variations vbar (length vbar)))
      | Some i =>
          let next := drop (S i) vbar in
          _ ← c_assert (at_ next 0 <>c NUL);
          let len := S i in
          let ret1 := u64 (ret + ay_pattern_identifier_nocase_variations vbar len) in
          let ret2 := u64 (ret1 + ay_pattern_identifier_qm_variations vbar len) in
          idents_count_loop fuel' next ret2
      end
  end.

Definition ay_pattern_idents_count (patt : cstr) : res Z :=
  idents_count_loop (S (length patt)) patt 0.

(** ** Union tokens *)

(** The scan of [ay_pattern_union_token]: [pos] is the index of the head of
    [iter].  It returns [start], [stop] and [cnt]. *)
Fixpoint union_token_scan (iter : cstr) (pos start par cnt idx : nat) : nat * nat * nat :=
  match iter with
  | [] => (start, pos, cnt)
  | c :: rest =>
      if c =c "(" then union_token_scan rest (S pos) start (S par) cnt idx
      else if c =c ")" then
        match par with
        | 0 => (start, pos, cnt)
        | S par' => union_token_scan rest (S pos) start par' cnt idx
        end
      else if c =c "|" then
        match par with
        | S _ => union_token_scan rest (S pos) start par cnt idx
        | 0 =>
            if (cnt =? idx)%nat then (start, pos, cnt)
            else if (S cnt =? idx)%nat
            then union_token_scan rest (S pos) (S pos) par (S cnt) idx
            else union_token_scan rest (S pos) start par (S cnt) idx
        end
      else union_token_scan rest (S pos) start par cnt idx
  end.

(** The index of the token from [patt] on and its length. *)
Definition ay_pattern_union_token (patt : cstr) (idx : nat) : res (option (nat * nat)) :=
  if at_ patt 0 =c NUL then Ok None
  else
    let off := if at_ patt 0 =c "|" then 1 else 0 in
    let patt' := drop off patt in
    let '(start, stop, cnt) := union_token_scan patt' 0 0 0 0 idx in
    _ ← c_assert (at_ patt' start <>c NUL);
    if negb (cnt =? idx)%nat then Ok None
    else
      _ ← c_assert (start <? stop)%nat;
      if (start =? 0)%nat && negb (idx =? 0)%nat then Ok None
      else Ok (Some (off + start, stop - start)%nat).

(** The loop that looks for the parenthesis closing the first one; [rest] is
    the token after its first character. *)
Fixpoint closing_scan (rest : cstr) (i par : nat) : nat :=
  match par with
  | 0 => i
  | S par' =>
      match rest with
      | [] => i
      | c :: rest' =>
          closing_scan rest' (S i)
            (if c =c "(" then S par else if c =c ")" then par' else par)
      end
  end.

Fixpoint remove_parentheses_loop (fuel : nat) (buffer : cstr) (buf : nat) : res cstr :=
  match fuel with
  | 0 => Fault OutOfFuel
  | S fuel' =>
      tok ← ay_pattern_union_token (drop buf buffer) 0;
      match tok with
      | None => Ok buffer
      | Some (off, len) =>
          let p := (buf + off)%nat in
          if (at_ buffer p =c "(") && (at_ buffer (p + len - 1) =c ")")
             && (closing_scan (drop 1 (take len (drop p buffer))) 1 1 =? len)%nat
          then
            b1 ← ay_string_remove_character buffer (p + len - 1);
            b2 ← ay_string_remove_character b1 p;
            remove_parentheses_loop fuel' b2 buf
          else remove_parentheses_loop fuel' buffer (p + len)%nat
      end
  end.

Definition ay_pattern_remove_parentheses (patt : cstr) : res cstr :=
  remove_parentheses_loop (S (length patt)) patt 0.

(** The counters [qm], [vbar] and [opbr] of a token. *)
Fixpoint token_counters (n : nat) (s : cstr) (qm vbar opbr : nat) : nat * nat * nat :=
  match n with
  | 0 => (qm, vbar, opbr)
  | S n' =>
      let c := at_ s 0 in
      let rest := drop 1 s in
      if c =c "(" then token_counters n' rest qm vbar (S opbr)
      else if c =c ")" then
        token_counters n' rest (if at_ s 1 =c "?" then S qm else qm) vbar opbr
      else if c =c "|" then token_counters n' rest qm (S vbar) opbr
      else token_counters n' rest qm vbar opbr
  end.

Definition ay_pattern_union_token_is_valid (ptoken : cstr) (ptoken_len : nat) : bool :=
  if ay_ident_character_nocase ptoken then
    forallb (λ k, ay_ident_character_nocase (drop (4 * k) ptoken))
      (seq 1 ((ptoken_len - 1) / 4))
  else
    let '(qm, vbar, opbr) := token_counters ptoken_len ptoken 0 0 0 in
    negb ((negb (qm =? 0) && negb (qm =? opbr))
          || (negb (qm =? 0) && negb (vbar =? 0) && negb (qm =? 1)))%nat.

(** ** Identifiers separated by vertical bars *)

(** One identifier of a token, by its index.  The result is the returned code
    and the buffer. *)
Definition ay_pattern_identifier_vbar_ (ptoken : cstr) (ptoken_len idx : nat) (buffer : buf)
  : res (Z * buf) :=
  let stop := at_ ptoken ptoken_len in
  _ ← c_assert ((stop =c NUL) || (stop =c "|"));
  b0 ← store buffer 0 NUL;
  let prefix_end := memchr ptoken "(" ptoken_len in
  let postfix_start :=
    match memchr ptoken ")" ptoken_len with
    | None => None
    | Some p =>
        let q := if at_ ptoken (S p) =c "?" then S p else p in
        if (S q <? ptoken_len)%nat then Some (S q) else None
    end in
  match prefix_end, postfix_start with
  | None, None =>
      if (idx =? 0)%nat then
        if (AY_MAX_IDENT_SIZE <=? ptoken_len)%nat then Ok (AYE_IDENT_LIMIT, b0)
        else b1 ← strncat b0 ptoken ptoken_len; Ok (0%Z, b1)
      else Ok (AYE_IDENT_NOT_FOUND, b0)
  | _, _ =>
      let prefix_len := default 0 prefix_end in
      if bool_decide (is_Some prefix_end) && (AY_MAX_IDENT_SIZE <=? prefix_len)%nat
      then Ok (AYE_IDENT_LIMIT, b0)
      else
        b1 ← (match prefix_end with
              | Some _ => strncat b0 ptoken prefix_len
              | None => Ok b0
              end);
        let alternatives := drop (S prefix_len) ptoken in
        variation ← ay_pattern_union_token alternatives idx;
        match variation with
        | None => b2 ← store b1 0 NUL; Ok (AYE_IDENT_NOT_FOUND, b2)
        | Some (off, vari_len) =>
            if (AY_MAX_IDENT_SIZE <=? prefix_len + vari_len)%nat
            then Ok (AYE_IDENT_LIMIT, b1)
            else
              b2 ← strncat b1 (drop off alternatives) vari_len;
              match postfix_start with
              | None => Ok (0%Z, b2)
              | Some p =>
                  let postfix_len := (ptoken_len - p)%nat in
                  if (AY_MAX_IDENT_SIZE <=? prefix_len + vari_len + postfix_len)%nat
                  then Ok (AYE_IDENT_LIMIT, b2)
                  else b3 ← strncat b2 (drop p ptoken) postfix_len; Ok (0%Z, b3)
              end
        end
  end.

(** The conversion of an allocated string of initial length [len]: removing
    characters moves the terminator, the bytes behind it stay zero. *)
Fixpoint substr_conversion_loop (n i : nat) (s : cstr) : cstr :=
  match n with
  | 0 => s
  | S n' =>
      match ay_ident_pattern_is_valid (drop i s) with
      | (true, shift) =>
          substr_conversion_loop n' (S i) (take i s ++ " "%char :: drop (i + shift + 1) s)
      | (false, _) => substr_conversion_loop n' (S i) s
      end
  end.

Definition ay_trans_substr_conversion (substr : cstr) : cstr :=
  substr_conversion_loop (length substr) 0 substr.

(** Writing past the allocated elements of the array is a fault. *)
Definition ay_pattern_identifier_add (tran : ay_transl) (buffer : buf) : res ay_transl :=
  ident ← cstr_of buffer;
  if bool_decide (ident = []) then Ok tran
  else if (Z.of_nat (length (substr tran)) <? substr_cap tran)%Z
  then Ok (AyTransl (origin tran) (substr tran ++ [ay_trans_substr_conversion ident])
             (substr_cap tran))
  else Fault OutOfBounds.

Fixpoint identifier_vbar_loop (fuel i : nat) (ptoken : cstr) (ptoken_len : nat)
    (buffer : buf) (tran : ay_transl) : res (Z * buf * ay_transl) :=
  match fuel with
  | 0 => Fault OutOfFuel
  | S fuel' =>
      '(ret, buffer') ← ay_pattern_identifier_vbar_ ptoken ptoken_len i buffer;
      if negb (ret =? 0)%Z then
        Ok ((if (ret =? AYE_IDENT_NOT_FOUND)%Z then 0%Z else ret), buffer', tran)
      else
        tran' ← ay_pattern_identifier_add tran buffer';
        identifier_vbar_loop fuel' (S i) ptoken ptoken_len buffer' tran'
  end.

Definition ay_pattern_identifier_vbar (ptoken : cstr) (ptoken_len : nat) (buffer : buf)
    (tran : ay_transl) : res (Z * buf * ay_transl) :=
  identifier_vbar_loop (length ptoken + 2) 0 ptoken ptoken_len buffer tran.

(** ** Case-insensitive identifiers *)

(** [for (i = first, j = 0; i < len; i += 4, j++) buffer[j] = ptoken[i]]. *)
Fixpoint copy_every_4th (n i j : nat) (ptoken : cstr) (buffer : buf) : res (nat * buf) :=
  match n with
  | 0 => Ok (j, buffer)
  | S n' =>
      b ← store buffer j (at_ ptoken i);
      copy_every_4th n' (i + 4) (S j) ptoken b
  end.

Definition copy_case (first : nat) (ptoken : cstr) (ptoken_len : nat) (buffer : buf)
  : res buf :=
  '(j, b) ← copy_every_4th ((ptoken_len - first + 3) / 4) first 0 ptoken buffer;
  store b j NUL.

Definition ay_pattern_identifier_nocase (ptoken : cstr) (ptoken_len : nat) (buffer : buf)
    (tran : ay_transl) : res (Z * buf * ay_transl) :=
  b1 ← copy_case 1 ptoken ptoken_len buffer;
  tran1 ← ay_pattern_identifier_add tran b1;
  b2 ← copy_case 2 ptoken ptoken_len b1;
  tran2 ← ay_pattern_identifier_add tran1 b2;
  Ok (0%Z, b2, tran2).

(** ** Identifiers with question marks *)

(** Some question mark that depends on another one is set without it. *)
Definition qm_dependence_broken (flag vari : list bool) (msb : nat) : bool :=
  existsb (λ j, default false (flag !! j) && negb (default false (vari !! j))) (seq 0 msb).

(** The loop of [ay_pattern_identifier_qm_] over [ptoken[i .. i + n)]; [skip]
    is the [i++] of the body.  A break out of the loop returns the code and the
    buffer directly. *)
Fixpoint identifier_qm_loop (n i : nat) (skip : bool) (ptoken : cstr)
    (flag vari : list bool) (total_vari group bufidx : nat) (buffer : buf) : res (Z * buf) :=
  match n with
  | 0 => b ← store buffer bufidx NUL; Ok (0%Z, b)
  | S n' =>
      let c := at_ ptoken i in
      let next_qm := at_ ptoken (S i) =c "?" in
      if skip then
        identifier_qm_loop n' (S i) false ptoken flag vari total_vari group bufidx buffer
      else if c =c "(" then
        flag' ← store flag group true;
        _ ← c_assert (S group <? total_vari)%nat;
        identifier_qm_loop n' (S i) false ptoken flag' vari total_vari (S group) bufidx buffer
      else if (c =c ")") && next_qm then
        flag' ← ay_bitset_clear_msb flag total_vari;
        identifier_qm_loop n' (S i) true ptoken flag' vari total_vari group bufidx buffer
      else if ay_bitset_is_zero flag total_vari && negb next_qm then
        if (AY_MAX_IDENT_SIZE <=? bufidx)%nat then Ok (AYE_IDENT_LIMIT, buffer)
        else
          b ← store buffer bufidx c;
          identifier_qm_loop n' (S i) false ptoken flag vari total_vari group (S bufidx) b
      else
        vg ← (if next_qm then fetch vari group else Ok false);
        let msb := ay_bitset_msb flag total_vari in
        if next_qm && negb vg then
          _ ← c_assert (S group <? total_vari)%nat;
          identifier_qm_loop n' (S i) true ptoken flag vari total_vari (S group) bufidx buffer
        else if negb (msb =? 0)%nat && negb (default false (vari !! (msb - 1)%nat)) then
          identifier_qm_loop n' (S i) false ptoken flag vari total_vari group bufidx buffer
        else
          flag' ← (if next_qm then store flag group true else Ok flag);
          let msb' := if next_qm then group else msb in
          if qm_dependence_broken flag' vari msb' then
            b ← store buffer 0 NUL; Ok (0%Z, b)
          else if (AY_MAX_IDENT_SIZE <=? bufidx)%nat then Ok (AYE_IDENT_LIMIT, buffer)
          else
            b ← store buffer bufidx c;
            if next_qm then
              flag'' ← store flag' group false;
              identifier_qm_loop n' (S i) true ptoken flag'' vari total_vari (S group)
                (S bufidx) b
            else
              identifier_qm_loop n' (S i) false ptoken flag' vari total_vari group (S bufidx) b
  end.

Definition ay_pattern_identifier_qm_ (ptoken : cstr) (ptoken_len : nat)
    (flag vari : list bool) (total_vari : nat) (buffer : buf) : res (Z * buf) :=
  identifier_qm_loop ptoken_len 0 false ptoken flag vari total_vari 0 0 buffer.

Fixpoint variations_loop (n : nat) (i : nat) (ptoken : cstr) (ptoken_len total_vari : nat)
    (buffer : buf) (tran : ay_transl) : res (Z * buf * ay_transl) :=
  match n with
  | 0 => Ok (0%Z, buffer, tran)
  | S n' =>
      let flag := ay_bitset_clear (replicate total_vari false) total_vari in
      vari ← ay_bitset_create_from_uint64 (replicate total_vari false) total_vari (Z.of_nat i);
      '(ret, b) ← ay_pattern_identifier_qm_ ptoken ptoken_len flag vari total_vari buffer;
      if negb (ret =? 0)%Z then Ok (ret, b, tran)
      else
        tran' ← ay_pattern_identifier_add tran b;
        variations_loop n' (S i) ptoken ptoken_len total_vari b tran'
  end.

Definition ay_pattern_identifier_qm (ptoken : cstr) (ptoken_len : nat) (buffer : buf)
    (tran : ay_transl) : res (Z * buf * ay_transl) :=
  let total_vari := ay_pattern_identifier_qm_variations ptoken ptoken_len in
  _ ← c_assert (negb (total_vari =? 0)%Z);
  if (63 <? total_vari)%Z then Ok (AYE_INTERNAL_ERROR, buffer, tran)
  else
    variations_loop (Z.to_nat total_vari) 0 ptoken ptoken_len (Z.to_nat total_vari) buffer tran.

(** ** One question mark and vertical bars *)

(** The code of [ay_pattern_identifier_vbar] is ignored. *)
Definition ay_pattern_identifier_vbar_qm (ptoken : cstr) (ptoken_len : nat) (buffer : buf)
    (tran : ay_transl) : res (Z * buf * ay_transl) :=
  match memchr ptoken "?" ptoken_len with
  | None => Fault AssertFailed
  | Some qm =>
      '(_, b1, tran1) ← ay_pattern_identifier_vbar ptoken ptoken_len buffer tran;
      '(from, len) ←
        (if (S qm =? ptoken_len)%nat
         then par ← deref (memchr ptoken "(" ptoken_len); Ok (0, par)
         else Ok (S qm, ptoken_len - S qm)%nat);
      if (AY_MAX_IDENT_SIZE <=? len)%nat then Ok (AYE_IDENT_LIMIT, b1, tran1)
      else
        b2 ← strncat b1 (drop from ptoken) len;
        tran2 ← ay_pattern_identifier_add tran1 b2;
        Ok (0%Z, b2, tran2)
  end.

(** ** The whole pattern *)

Definition identifier_of_token (ptoken : cstr) (len : nat) (buffer : buf) (tran : ay_transl)
  : res (Z * buf * ay_transl) :=
  let has_qm := bool_decide (is_Some (memchr ptoken "?" len)) in
  let has_vbar := bool_decide (is_Some (memchr ptoken "|" len)) in
  if has_qm && has_vbar then ay_pattern_identifier_vbar_qm ptoken len buffer tran
  else if has_qm then ay_pattern_identifier_qm ptoken len buffer tran
  else if ay_ident_character_nocase ptoken then
    ay_pattern_identifier_nocase ptoken len buffer tran
  else ay_pattern_identifier_vbar ptoken len buffer tran.

(** Leaving with the label [fail] frees the identifiers and returns -1. *)
Fixpoint create_substr_loop (fuel : nat) (patt : cstr) (buffer : buf) (tran : ay_transl)
  : res (Z * ay_transl) :=
  match fuel with
  | 0 => Fault OutOfFuel
  | S fuel' =>
      tok ← ay_pattern_union_token patt 0;
      match tok with
      | None => Ok (0%Z, tran)
      | Some (off, len) =>
          let ptoken := drop off patt in
          if negb (ay_pattern_union_token_is_valid ptoken len)
          then Ok ((-1)%Z, AyTransl (origin tran) [] 0)
          else
            '(ret, b, tran') ← identifier_of_token ptoken len buffer tran;
            if negb (ret =? 0)%Z then Ok (ret, tran')
            else create_substr_loop fuel' (drop len ptoken) b tran'
      end
  end.

(** [buffer] is the uninitialised local array. *)
Definition ay_transl_create_substr (buffer : buf) (tran : ay_transl) : res (Z * ay_transl) :=
  cnt ← ay_pattern_idents_count (text (origin tran));
  let tran0 := AyTransl (origin tran) [] cnt in
  pattern ← ay_pattern_remove_parentheses (text (origin tran));
  create_substr_loop (S (length pattern)) pattern buffer tran0.
