(* ===== verification/PatternFacts.v ===== *)
(** Facts about the scanning functions of [ParseRegex]: union tokens, the
    removal of parentheses, bitsets and the counting of variations. *)
From S2P Require Import Prelude CString Common ParseRegex.

(** ** Plain characters *)

(** A character that none of the scanners treats specially. *)
Definition plain (c : ascii) : bool :=
  negb (existsb (Ascii.eqb c) (NUL :: lit "()|?[")).
Definition plain_word (s : cstr) : Prop := Forall (λ c, plain c = true) s.

#[export] Instance plain_word_dec s : Decision (plain_word s).
Proof. unfold plain_word. apply _. Defined.

Lemma plain_eqb c :
  plain c = true →
  (c =c NUL) = false ∧ (c =c "(") = false ∧ (c =c ")") = false ∧ (c =c "|") = false
  ∧ (c =c "?") = false ∧ (c =c "[") = false.
Proof. all_ascii c. Qed.

Ltac plain_case H :=
  let H' := fresh in
  pose proof (plain_eqb _ H) as H';
  destruct H' as (?&?&?&?&?&?).

Lemma plain_not_in s c :
  plain_word s → plain c = false → c ∉ s.
Proof.
  intros Hs Hc Hin. unfold plain_word in Hs. rewrite Forall_forall in Hs.
  apply Hs in Hin. congruence.
Qed.

Lemma plain_word_is_cstr s : plain_word s → is_cstr s.
Proof. intros H. eapply Forall_impl; [exact H|]. intros c. all_ascii c. Qed.

#[export] Hint Resolve plain_word_is_cstr : augyang.

Ltac not_in_plain := apply plain_not_in; [assumption | reflexivity].

(** ** Scanning for union tokens *)

(** Text that the scan passes without changing its counters: at every depth
    ([opaque]), or inside parentheses ([inner]). *)
Definition opaque (s : cstr) : Prop := ∀ r pos start par cnt idx,
  union_token_scan (s ++ r) pos start par cnt idx
  = union_token_scan r (pos + length s) start par cnt idx.

Definition inner (s : cstr) : Prop := ∀ r pos start par cnt idx,
  union_token_scan (s ++ r) pos start (S par) cnt idx
  = union_token_scan r (pos + length s) start (S par) cnt idx.

Lemma opaque_inner s : opaque s → inner s.
Proof. intros H ? *. apply H. Qed.

Lemma opaque_nil : opaque [].
Proof. intros r pos *. by rewrite Nat.add_0_r. Qed.

Lemma opaque_app s t : opaque s → opaque t → opaque (s ++ t).
Proof.
  intros Hs Ht r pos *. rewrite <- app_assoc, Hs, Ht, length_app. f_equal; lia.
Qed.

Lemma inner_app s t : inner s → inner t → inner (s ++ t).
Proof.
  intros Hs Ht r pos *. rewrite <- app_assoc, Hs, Ht, length_app. f_equal; lia.
Qed.

Lemma opaque_char c :
  (c =c "(") = false → (c =c ")") = false → (c =c "|") = false → opaque [c].
Proof.
  intros H1 H2 H3 r pos *. cbn [union_token_scan app length]. rewrite H1, H2, H3.
  f_equal; lia.
Qed.

Lemma opaque_plain s : plain_word s → opaque s.
Proof.
  induction 1 as [|c s Hc Hs IH]; [apply opaque_nil|].
  plain_case Hc. apply (opaque_app [c]); [by apply opaque_char | done].
Qed.

Lemma opaque_paren s : inner s → opaque ("("%char :: s ++ [")"%char]).
Proof.
  intros Hs r pos start par cnt idx. cbn [app union_token_scan].
  rewrite <- app_assoc, Hs. cbn. rewrite length_app. cbn. f_equal; lia.
Qed.

Lemma inner_bar : inner ["|"%char].
Proof. intros r pos *. cbn. f_equal; lia. Qed.

(** The tokens [ay_pattern_union_token] finds at index 0. *)
Definition token_end (r : cstr) : Prop := r = [] ∨ ∃ r', r = "|"%char :: r'.

Lemma at_0_cons c s : at_ (c :: s) 0 = c.
Proof. done. Qed.

Lemma union_token_0_scan s r :
  opaque s → token_end r → union_token_scan (s ++ r) 0 0 0 0 0 = (0, length s, 0).
Proof. intros Hs [->|[r' ->]]; by rewrite Hs. Qed.

Lemma union_token_0 s r :
  opaque s → token_end r → s ≠ [] → is_cstr s → (at_ s 0 =c "|") = false →
  ay_pattern_union_token (s ++ r) 0 = Ok (Some (0, length s)).
Proof.
  intros Ho Hr Hne Hc Hb. unfold ay_pattern_union_token.
  destruct s as [|c s]; [done|]. inversion_clear Hc.
  rewrite <- app_comm_cons, at_0_cons in *. rewrite (proj2 (Ascii.eqb_neq _ _)) by done.
  rewrite Hb. change (drop 0 ?l) with l. rewrite app_comm_cons, union_token_0_scan by done.
  rewrite <- app_comm_cons, at_0_cons. rewrite (proj2 (Ascii.eqb_neq _ _)) by done. done.
Qed.

Lemma union_token_0_bar s r :
  opaque s → token_end r → s ≠ [] → is_cstr s →
  ay_pattern_union_token ("|"%char :: s ++ r) 0 = Ok (Some (1, length s)).
Proof.
  intros Ho Hr Hne Hc. unfold ay_pattern_union_token. rewrite !at_0_cons.
  change ("|"%char =c NUL) with false. change ("|"%char =c "|"%char) with true. cbn iota zeta.
  change (drop 1 (?c :: ?l)) with l. rewrite union_token_0_scan by done.
  destruct s as [|c s]; [done|]. inversion_clear Hc.
  rewrite <- app_comm_cons, at_0_cons. rewrite (proj2 (Ascii.eqb_neq _ _)) by done. done.
Qed.

(** ** Alternatives inside parentheses *)

Fixpoint join_bar (vs : list cstr) : cstr :=
  match vs with
  | [] => []
  | [v] => v
  | v :: vs' => v ++ "|"%char :: join_bar vs'
  end.

Lemma join_bar_cons v w vs : join_bar (v :: w :: vs) = v ++ "|"%char :: join_bar (w :: vs).
Proof. done. Qed.

(** Where the alternative [k] starts in [join_bar vs]. *)
Fixpoint bar_offset (vs : list cstr) (k : nat) : nat :=
  match vs, k with
  | v :: vs', S k' => S (length v + bar_offset vs' k')
  | _, _ => 0
  end.

Lemma bar_offset_cons v vs k :
  bar_offset (v :: vs) (S k) = S (length v + bar_offset vs k).
Proof. done. Qed.

Lemma triple_eq {A B C} (a a' : A) (b b' : B) (c c' : C) :
  a = a' → b = b' → c = c' → (a, b, c) = (a', b', c').
Proof. congruence. Qed.

Lemma inner_join_bar vs : Forall plain_word vs → inner (join_bar vs).
Proof.
  induction 1 as [|v [|w vs] Hv Hvs IH]; [by apply opaque_inner, opaque_nil | |].
  - by apply opaque_inner, opaque_plain.
  - rewrite join_bar_cons. apply inner_app; [by apply opaque_inner, opaque_plain|].
    apply (inner_app ["|"%char]); [apply inner_bar | done].
Qed.

Lemma join_bar_drop vs k v r :
  vs !! k = Some v →
  ∃ r', drop (bar_offset vs k) (join_bar vs ++ r) = v ++ r'.
Proof.
  revert k. induction vs as [|w vs IH]; intros k Hk; [done|].
  destruct k as [|k]; cbn in Hk.
  - injection Hk as ->. cbn [bar_offset drop].
    destruct vs as [|x vs]; [by exists r|]. rewrite join_bar_cons.
    exists ("|"%char :: join_bar (x :: vs) ++ r). by rewrite <- app_assoc.
  - destruct vs as [|x vs]; [done|].
    destruct (IH k Hk) as [r' Hr']. exists r'. rewrite <- Hr', join_bar_cons.
    rewrite <- app_assoc, <- app_comm_cons. cbn [bar_offset].
    set (o := match k with 0 => _ | _ => _ end). rewrite drop_app_ge by lia.
    replace (S (length w + o) - length w)%nat with (S o) by lia. done.
Qed.

(** The scan over the alternatives, started before alternative [idx - cnt]. *)
Lemma scan_alternatives vs r pos start cnt idx :
  Forall plain_word vs → vs ≠ [] → cnt ≤ idx →
  let res := union_token_scan (join_bar vs ++ ")"%char :: r) pos start 0 cnt idx in
  match vs !! (idx - cnt) with
  | Some v =>
      res = ((if decide (idx = cnt) then start else pos + bar_offset vs (idx - cnt)),
             pos + bar_offset vs (idx - cnt) + length v, idx)%nat
  | None => res.1.1 = start ∧ res.2 ≠ idx
  end.
Proof.
  intros Hvs. revert pos start cnt. induction Hvs as [|v vs Hv Hvs IH]; [done|].
  intros pos start cnt _ Hle. cbn zeta.
  destruct vs as [|w vs].
  - cbn [join_bar]. rewrite (opaque_plain v Hv). cbn [union_token_scan Ascii.eqb].
    change (")"%char =c "("%char) with false. change (")"%char =c ")"%char) with true. cbn iota.
    destruct (decide (idx = cnt)) as [->|Hne].
    + rewrite Nat.sub_diag. cbn. do 2 f_equal. lia.
    + destruct (idx - cnt)%nat as [|k] eqn:E; [lia|]. cbn. split; [done|lia].
  - rewrite join_bar_cons, <- app_assoc, (opaque_plain v Hv).
    rewrite <- app_comm_cons. cbn [union_token_scan].
    change ("|"%char =c "("%char) with false. change ("|"%char =c ")"%char) with false.
    change ("|"%char =c "|"%char) with true. cbn iota.
    destruct (Nat.eqb_spec cnt idx) as [->|Hne].
    + rewrite Nat.sub_diag. cbn [lookup list_lookup]. rewrite decide_True by done.
      cbn. do 2 f_equal. lia.
    + assert (S cnt ≤ idx) as Hle' by lia.
      destruct (idx - cnt)%nat as [|k] eqn:E; [lia|].
      cbn [lookup list_lookup]. replace k with (idx - S cnt)%nat by lia.
      rewrite (decide_False (P := idx = cnt)) by lia.
      destruct (Nat.eqb_spec (S cnt) idx) as [Heq|Hne'].
      * specialize (IH (S (pos + length v)) (S (pos + length v)) (S cnt) ltac:(done) Hle').
        cbn zeta in IH. rewrite <- Heq, Nat.sub_diag in IH |- *.
        cbn [lookup list_lookup] in IH |- *. rewrite IH, decide_True by done.
        cbn. repeat f_equal; lia.
      * specialize (IH (S (pos + length v)) start (S cnt) ltac:(done) Hle').
        cbn zeta in IH. destruct ((w :: vs) !! (idx - S cnt)%nat) as [x|] eqn:Ex; [|exact IH].
        rewrite IH, decide_False, bar_offset_cons by lia.
        set (o := bar_offset _ _). apply triple_eq; lia.
Qed.
