(* ===== verification/PatternTokens.v ===== *)
(** The tokens of a pattern as a contract: [GoodToken s ids w wl] says that the
    text [s] is one union token that the functions of [ParseRegex] translate to
    the identifiers [ids], and how many identifiers [ay_pattern_idents_count]
    allows for it in the middle ([w]) and at the end ([wl]) of a pattern.  The
    loop over the tokens is proved against the contract, and the kinds of tokens
    of [TokenKinds] are its instances. *)
From S2P Require Import Prelude CString Common ParseRegex PatternFacts.

(** ** Identifier buffers *)

Definition holds (b : buf) (s : cstr) : Prop :=
  is_cstr s ∧ length b = AY_MAX_IDENT_SIZE ∧ ∃ r, b = s ++ NUL :: r.

Definition add_idents (tran : ay_transl) (ids : list cstr) : ay_transl :=
  AyTransl (origin tran) (substr tran ++ ids) (substr_cap tran).

Definition room (tran : ay_transl) (n : nat) : Prop :=
  (Z.of_nat (length (substr tran) + n) ≤ substr_cap tran)%Z.

(** ** The contract of a token *)

Class GoodToken (s : cstr) (ids : list cstr) (w wl : Z) : Prop := {
  gt_opaque : opaque s;
  gt_nonempty : s ≠ [];
  gt_cstr : is_cstr s;
  gt_no_bar : (at_ s 0 =c "|") = false;
  gt_closed : (at_ s 0 =c "(") && (at_ s (length s - 1) =c ")") = false;
  gt_valid r : token_end r → ay_pattern_union_token_is_valid (s ++ r) (length s) = true;
  gt_run r b tran :
    token_end r → length b = AY_MAX_IDENT_SIZE → room tran (length ids) →
    ∃ b', length b' = AY_MAX_IDENT_SIZE ∧
      identifier_of_token (s ++ r) (length s) b tran = Ok (0%Z, b', add_idents tran ids);
  gt_count_mid r fuel ret :
    (length (s ++ "|"%char :: r) < fuel)%nat → at_ r 0 ≠ NUL →
    ∃ fuel', (length r < fuel')%nat ∧
      idents_count_loop fuel (s ++ "|"%char :: r) ret
      = idents_count_loop fuel' r (u64 (ret + w));
  gt_count_last fuel ret :
    (length s < fuel)%nat → idents_count_loop fuel s ret = Ok (u64 (ret + wl))
}.

(** A token with its identifiers and weights. *)
Record tok := Tok { tok_text : cstr; tok_ids : list cstr; tok_w : Z; tok_wl : Z }.
Definition good (t : tok) : Prop :=
  GoodToken (tok_text t) (tok_ids t) (tok_w t) (tok_wl t).

(** The pattern made of tokens, and what is expected of it. *)
Definition render (ts : list tok) : cstr := join_bar (tok_text <$> ts).
Definition idents (ts : list tok) : list cstr := ts ≫= tok_ids.
Fixpoint weight (ts : list tok) : Z :=
  match ts with
  | [] => 0
  | [t] => tok_wl t
  | t :: ts' => tok_w t + weight ts'
  end.

(** ** Lemmas on buffers *)

Lemma store_0_holds b : length b = AY_MAX_IDENT_SIZE → ∃ b', store b 0 NUL = Ok b' ∧ holds b' [].
Proof.
  intros Hb. destruct b as [|c b]; [done|]. exists (NUL :: b). split; [done|].
  split; [constructor|]. split; [done|]. by exists b.
Qed.

Lemma strncat_holds b s t n :
  holds b s → is_cstr (take n t) → (length s + length (take n t) < AY_MAX_IDENT_SIZE)%nat →
  ∃ b', strncat b t n = Ok b' ∧ holds b' (s ++ take n t).
Proof.
  intros (Hs & Hb & r & ->) Ht Hl.
  rewrite length_app in Hb. cbn [length] in Hb.
  eexists. split; [apply strncat_fits; [done|lia]|].
  split; [by apply Forall_app|]. split.
  - rewrite !length_app. cbn [length]. rewrite length_drop. lia.
  - eexists. by rewrite <- app_assoc.
Qed.

Lemma holds_length b s : holds b s → length b = AY_MAX_IDENT_SIZE.
Proof. by intros (?&?&?). Qed.

Lemma cstr_of_holds b s : holds b s → cstr_of b = Ok s.
Proof. intros (?&?&?&->). by apply cstr_of_app. Qed.

#[export] Hint Resolve holds_length : augyang.

(** ** Plain identifiers are not converted *)

Lemma plain_not_pattern s i : plain_word s → ay_ident_pattern_is_valid (drop i s) = (false, 0).
Proof.
  intros Hs. assert (plain_word (drop i s)) as Hd by (by apply Forall_drop).
  unfold ay_ident_pattern_is_valid, ay_ident_character_nocase, strneq.
  destruct (drop i s) as [|c d]; [done|]. inversion_clear Hd. plain_case H.
  rewrite at_0_cons, H6. cbn [andb orb].
  rewrite bool_decide_eq_false_2; [done|]. cbn. intros [= -> _]. done.
Qed.

Lemma conversion_plain n i s : plain_word s → substr_conversion_loop n i s = s.
Proof.
  intros Hs. revert i. induction n as [|n IH]; intros i; [done|]. cbn [substr_conversion_loop].
  rewrite plain_not_pattern by done. apply IH.
Qed.

(** The identifier that a buffer contributes. *)
Definition nonempty (s : cstr) : list cstr := match s with [] => [] | _ => [s] end.

Lemma identifier_add_plain tran b s :
  holds b s → plain_word s → room tran (length (nonempty s)) →
  ay_pattern_identifier_add tran b = Ok (add_idents tran (nonempty s)).
Proof.
  intros Hb Hs Hr. unfold ay_pattern_identifier_add. rewrite (cstr_of_holds _ _ Hb).
  rewrite bind_Ok. destruct s as [|c s].
  - rewrite bool_decide_true by done. destruct tran. unfold add_idents. cbn.
    by rewrite app_nil_r.
  - rewrite bool_decide_false by done. unfold room in Hr. cbn [nonempty length] in Hr.
    rewrite (proj2 (Z.ltb_lt _ _)) by lia. unfold add_idents, ay_trans_substr_conversion.
    by rewrite conversion_plain.
Qed.

Lemma add_idents_app tran i1 i2 :
  add_idents (add_idents tran i1) i2 = add_idents tran (i1 ++ i2).
Proof. unfold add_idents. cbn. by rewrite app_assoc. Qed.

Lemma room_add tran i n : room (add_idents tran i) n ↔ room tran (length i + n).
Proof. unfold room, add_idents. cbn. rewrite length_app. lia. Qed.

Lemma room_le tran n m : room tran n → (m <= n)%nat → room tran m.
Proof. unfold room. lia. Qed.

(** ** The pattern as a sequence of tokens *)

Lemma render_cons t u ts :
  render (t :: u :: ts) = tok_text t ++ "|"%char :: render (u :: ts).
Proof. done. Qed.

(** What follows a token in a pattern: nothing, or a bar and the rest. *)
Definition render_tail (ts : list tok) : cstr :=
  match ts with [] => [] | _ => "|"%char :: render ts end.

Lemma render_tail_cons t ts : render (t :: ts) = tok_text t ++ render_tail ts.
Proof. destruct ts; cbn; [by rewrite app_nil_r | done]. Qed.

Lemma token_end_tail ts : token_end (render_tail ts).
Proof. destruct ts; [by left | right; eauto]. Qed.

Lemma render_first_not_NUL t ts : good t → at_ (render (t :: ts)) 0 ≠ NUL.
Proof.
  intros Ht. rewrite render_tail_cons, at_0_app by apply Ht.
  apply is_cstr_at; [apply Ht|]. pose proof (@gt_nonempty _ _ _ _ Ht).
  destruct (tok_text t); [done|cbn;lia].
Qed.

Lemma render_first_not_bar t ts : good t → (at_ (render (t :: ts)) 0 =c "|") = false.
Proof. intros Ht. rewrite render_tail_cons, at_0_app by apply Ht. apply Ht. Qed.

(** ** The token at the head of a pattern *)

Lemma union_token_first t ts :
  good t → ay_pattern_union_token (render (t :: ts)) 0 = Ok (Some (0, length (tok_text t))).
Proof.
  intros Ht. rewrite render_tail_cons. apply union_token_0; try apply Ht. apply token_end_tail.
Qed.

Lemma union_token_next t ts :
  good t →
  ay_pattern_union_token (render_tail (t :: ts)) 0 = Ok (Some (1, length (tok_text t))).
Proof.
  intros Ht. cbn [render_tail]. rewrite render_tail_cons.
  apply union_token_0_bar; try apply Ht. apply token_end_tail.
Qed.

(** The position of the next token, from the start or after a token. *)
Lemma union_token_head t ts (first : bool) :
  good t →
  let patt := if first then render (t :: ts) else render_tail (t :: ts) in
  ∃ off, ay_pattern_union_token patt 0 = Ok (Some (off, length (tok_text t))) ∧
    drop off patt = tok_text t ++ render_tail ts.
Proof.
  intros Ht. destruct first; cbn zeta.
  - exists 0. split; [by apply union_token_first|]. by rewrite <- render_tail_cons.
  - exists 1. split; [by apply union_token_next|]. cbn. by rewrite <- render_tail_cons.
Qed.

(** ** The loop over the tokens *)

Lemma create_substr_prefix ts us fuel b tran (first : bool) :
  Forall good ts → length b = AY_MAX_IDENT_SIZE → room tran (length (idents ts)) →
  ∃ b' first', length b' = AY_MAX_IDENT_SIZE ∧
    create_substr_loop (length ts + fuel)
      (if first then render (ts ++ us) else render_tail (ts ++ us)) b tran
    = create_substr_loop fuel (if first' : bool then render us else render_tail us) b'
        (add_idents tran (idents ts)).
Proof.
  intros Hts. revert b tran first.
  induction Hts as [|t ts Ht Hts IH]; intros b tran first Hb Hr.
  - exists b, first. split; [done|]. unfold add_idents. destruct tran. cbn. by rewrite app_nil_r.
  - cbn [length Nat.add app create_substr_loop].
    destruct (union_token_head t (ts ++ us) first Ht) as (off & -> & Hoff).
    rewrite bind_Ok, Hoff. unfold idents in *. cbn [mbind list_bind] in *.
    rewrite length_app in Hr.
    rewrite (@gt_valid _ _ _ _ Ht) by apply token_end_tail. cbn [negb].
    destruct (@gt_run _ _ _ _ Ht (render_tail (ts ++ us)) b tran) as (b1 & Hb1 & ->);
      [apply token_end_tail | done | eapply room_le; [done|lia] |].
    rewrite bind_Ok. cbn [Z.eqb negb]. rewrite drop_app_length.
    destruct (IH b1 (add_idents tran (tok_ids t)) false) as (b2 & first2 & Hb2 & Heq);
      [done|by apply room_add|].
    cbn iota in Heq. rewrite Heq. exists b2, first2. by rewrite add_idents_app.
Qed.

Lemma create_substr_all ts fuel b tran :
  Forall good ts → (length ts < fuel)%nat → length b = AY_MAX_IDENT_SIZE →
  room tran (length (idents ts)) →
  create_substr_loop fuel (render ts) b tran = Ok (0%Z, add_idents tran (idents ts)).
Proof.
  intros Hts Hf Hb Hr.
  destruct (create_substr_prefix ts [] (fuel - length ts) b tran true) as (b' & f' & _ & Heq);
    [done..|].
  rewrite app_nil_r in Heq. replace (length ts + (fuel - length ts))%nat with fuel in Heq by lia.
  rewrite Heq. destruct (fuel - length ts)%nat eqn:E; [lia|]. by destruct f'.
Qed.

(** Parentheses around a whole token only are removed, so a pattern of good
    tokens stays as it is. *)
Lemma remove_parentheses_tokens pre ts fuel (first : bool) :
  Forall good ts → (length ts < fuel)%nat →
  let patt := if first then render ts else render_tail ts in
  remove_parentheses_loop fuel (pre ++ patt) (length pre) = Ok (pre ++ patt).
Proof.
  intros Hts. revert pre fuel first.
  induction Hts as [|t ts Ht Hts IH]; intros pre [|fuel] first Hf;
    cbn [length] in Hf; [lia| |lia|]; cbn zeta.
  - cbn [remove_parentheses_loop]. rewrite drop_app_length. by destruct first.
  - cbn [remove_parentheses_loop]. rewrite drop_app_length.
    destruct (union_token_head t ts first Ht) as (off & -> & Hoff). rewrite bind_Ok.
    set (patt := if first then _ else _) in *.
    assert (∃ u, length u = off ∧ patt = u ++ tok_text t ++ render_tail ts) as (u & <- & Hu).
    { exists (take off patt). rewrite <- Hoff, take_drop. split; [|done].
      rewrite length_take. pose proof (@gt_nonempty _ _ _ _ Ht).
      apply (f_equal length) in Hoff. rewrite length_drop, length_app in Hoff.
      destruct (tok_text t); [done|]. cbn in Hoff. lia. }
    rewrite Hu. clearbody patt.
    set (s := tok_text t) in *. assert (s ≠ []) as Hne by apply Ht.
    assert (∀ j, (j < length s)%nat →
      at_ (pre ++ u ++ s ++ render_tail ts) (length pre + length u + j) = at_ s j) as Hat.
    { intros j Hj. rewrite app_assoc, at_app_r by (rewrite length_app; lia).
      rewrite length_app, at_app_l by lia. f_equal. lia. }
    assert (0 < length s)%nat as Hpos by (destruct s; [done|cbn; lia]).
    pose proof (Hat 0 Hpos) as Hat0. rewrite Nat.add_0_r in Hat0. rewrite Hat0.
    rewrite <- Nat.add_sub_assoc, Hat by lia. change s with (tok_text t). rewrite (@gt_closed _ _ _ _ Ht).
    cbn [andb]. fold s. specialize (IH (pre ++ u ++ s) fuel false ltac:(lia)). cbn zeta in IH.
    rewrite <- !app_assoc, !length_app in IH.
    by rewrite Nat.add_assoc in IH.
Qed.

(** ** The count and the whole translation *)

Lemma u64_add_l a b : u64 (u64 a + b) = u64 (a + b).
Proof. unfold u64. apply Zplus_mod_idemp_l. Qed.

Lemma idents_count_tokens ts fuel ret :
  Forall good ts → ts ≠ [] → (length (render ts) < fuel)%nat →
  idents_count_loop fuel (render ts) ret = Ok (u64 (ret + weight ts)).
Proof.
  intros Hts. revert fuel ret. induction Hts as [|t [|u ts] Ht Hts IH]; [done| |];
    intros fuel ret _ Hf.
  - by apply (@gt_count_last _ _ _ _ Ht).
  - rewrite render_cons in *. inversion_clear Hts as [|? ? Hu].
    destruct (@gt_count_mid _ _ _ _ Ht (render (u :: ts)) fuel ret)
      as (fuel' & Hf' & ->); [done | by apply render_first_not_NUL |].
    rewrite IH by done. rewrite u64_add_l. do 2 f_equal.
    change (weight (t :: u :: ts)) with (tok_w t + weight (u :: ts))%Z. lia.
Qed.

Lemma render_length ts : Forall good ts → (length ts <= length (render ts))%nat.
Proof.
  induction 1 as [|t ts Ht Hts IH]; [done|].
  rewrite render_tail_cons, length_app. cbn [length].
  pose proof (@gt_nonempty _ _ _ _ Ht). destruct (tok_text t); [done|].
  destruct ts; cbn [render_tail length] in *; lia.
Qed.

(** The functions before the loop over the tokens. *)
Lemma create_substr_prepared ts b tran :
  Forall good ts → ts ≠ [] → text (origin tran) = render ts →
  ay_transl_create_substr b tran
  = create_substr_loop (S (length (render ts))) (render ts) b
      (AyTransl (origin tran) [] (u64 (weight ts))).
Proof.
  intros Hts Hne Ho. unfold ay_transl_create_substr, ay_pattern_idents_count.
  rewrite Ho, idents_count_tokens by (done || lia). rewrite bind_Ok, Z.add_0_l.
  pose proof (render_length ts Hts) as Hlen.
  pose proof (remove_parentheses_tokens [] ts (S (length (render ts))) true Hts ltac:(lia))
    as Hrp. cbn [app length] in Hrp. unfold ay_pattern_remove_parentheses.
  by rewrite Hrp, bind_Ok.
Qed.

(** The translation of a pattern of good tokens, when the counted number of
    identifiers is enough. *)
Lemma create_substr_good ts b tran :
  Forall good ts → ts ≠ [] → length b = AY_MAX_IDENT_SIZE →
  text (origin tran) = render ts →
  (Z.of_nat (length (idents ts)) ≤ u64 (weight ts))%Z →
  ay_transl_create_substr b tran
  = Ok (0%Z, AyTransl (origin tran) (idents ts) (u64 (weight ts))).
Proof.
  intros Hts Hne Hb Ho Hw. rewrite (create_substr_prepared ts) by done.
  pose proof (render_length ts Hts).
  by rewrite create_substr_all by (done || lia).
Qed.
