(* ===== verification/TokenCounts.v ===== *)
(** What [ay_pattern_idents_count] adds for a piece of a pattern between two
    bars: the variations of its question marks and of its case. *)
From S2P Require Import Prelude CString Common ParseRegex PatternFacts PatternTokens.

(** Text without the characters that the count looks at; parentheses are
    allowed. *)
Definition simple_char (c : ascii) : bool :=
  negb (existsb (Ascii.eqb c) (NUL :: lit "|?[")).
Definition simple (s : cstr) : Prop := Forall (λ c, simple_char c = true) s.

(** As [simple], with question marks. *)
Definition qm_char (c : ascii) : bool := (c =c "?") || simple_char c.
Definition qm_text (s : cstr) : Prop := Forall (λ c, qm_char c = true) s.

Definition qms (s : cstr) : nat := length (filter (λ c, c = "?"%char) s).

(** ** Characters *)

Lemma plain_simple s : plain_word s → simple s.
Proof. intros H. eapply Forall_impl; [exact H|]. intros c. all_ascii c. Qed.

Lemma simple_qm_text s : simple s → qm_text s.
Proof. intros H. eapply Forall_impl; [exact H|]. intros c. all_ascii c. Qed.

Lemma simple_not_in s c : simple s → simple_char c = false → c ∉ s.
Proof.
  intros Hs Hc Hin. unfold simple in Hs. rewrite Forall_forall in Hs.
  apply Hs in Hin. congruence.
Qed.

Lemma qm_text_not_in s c : qm_text s → qm_char c = false → c ∉ s.
Proof.
  intros Hs Hc Hin. unfold qm_text in Hs. rewrite Forall_forall in Hs.
  apply Hs in Hin. congruence.
Qed.

Lemma qms_app s t : qms (s ++ t) = (qms s + qms t)%nat.
Proof. unfold qms. by rewrite filter_app, length_app. Qed.

Lemma qms_none s : "?"%char ∉ s → qms s = 0.
Proof.
  induction s as [|c s IH]; intros Hn; [done|]. unfold qms in *.
  apply not_elem_of_cons in Hn as [Hc Hn]. rewrite filter_cons, decide_False by congruence.
  by apply IH.
Qed.

Lemma qms_simple s : simple s → qms s = 0.
Proof. intros Hs. by apply qms_none, simple_not_in. Qed.

Lemma simple_app s t : simple s → simple t → simple (s ++ t).
Proof. intros. by apply Forall_app. Qed.

#[export] Hint Resolve plain_simple simple_app simple_qm_text : augyang.

(** ** Question marks *)

Lemma qm_iter n :
  Nat.iter n (λ ret, u64 (ret * 2)) 1%Z = if (n <? 64)%nat then (2 ^ Z.of_nat n)%Z else 0%Z.
Proof.
  induction n as [|n IH]; [done|].
  change (Nat.iter (S n) ?f ?x) with (f (Nat.iter n f x)). cbn beta. rewrite IH.
  destruct (Nat.ltb_spec n 64) as [Hn|Hn], (Nat.ltb_spec (S n) 64) as [Hn'|Hn']; try lia.
  - rewrite Nat2Z.inj_succ, Z.pow_succ_r, Z.mul_comm by lia. apply u64_small.
    rewrite <- Z.pow_succ_r by lia. split; [lia|]. apply Z.pow_lt_mono_r; lia.
  - assert (n = 63) as -> by lia. done.
  - done.
Qed.

Lemma qm_variations_spec s r :
  ay_pattern_identifier_qm_variations (s ++ r) (length s)
  = if (qms s <? 64)%nat then (2 ^ Z.of_nat (qms s))%Z else 0%Z.
Proof.
  unfold ay_pattern_identifier_qm_variations, ay_pattern_identifier_qm_count.
  rewrite take_app_length. apply qm_iter.
Qed.

(** ** Case *)

Lemma open_parens_lt s n :
  (open_parens s n < n)%nat → (open_parens s n < length s)%nat ∧
  at_ (drop (open_parens s n) s) 0 ∈ take n s ∨ open_parens s n = length s.
Proof.
  revert n. induction s as [|c s IH]; intros [|n]; cbn; try lia.
  destruct (c =c "("); cbn.
  - intros Hl. destruct (IH n ltac:(lia)) as [[? ?]|]; [left; split; [lia|set_solver]|right; lia].
  - intros _. left. split; [lia|]. set_solver.
Qed.

Lemma nocase_variations_none s n :
  "["%char ∉ take n s → ay_pattern_identifier_nocase_variations s n = 0%Z.
Proof.
  intros Hn. unfold ay_pattern_identifier_nocase_variations. cbn zeta.
  destruct (Nat.ltb_spec (open_parens s n) n) as [Hl|]; [|done]. cbn [negb].
  destruct (ay_ident_character_nocase (drop (open_parens s n) s)) eqn:E;
    [|by rewrite andb_false_r].
  exfalso. unfold ay_ident_character_nocase in E.
  repeat (apply andb_prop in E as [E _]). apply Ascii.eqb_eq in E.
  destruct (open_parens_lt s n Hl) as [[_ Hin]|Heq]; [by rewrite E in Hin|].
  rewrite Heq, drop_all in E. done.
Qed.

(** ** Pieces *)

Lemma count_piece_mid s r fuel ret :
  qm_text s → (length (s ++ "|"%char :: r) < fuel)%nat → at_ r 0 ≠ NUL → (qms s < 64)%nat →
  ∃ fuel', (length r < fuel')%nat ∧
    idents_count_loop fuel (s ++ "|"%char :: r) ret
    = idents_count_loop fuel' r (u64 (ret + 2 ^ Z.of_nat (qms s))).
Proof.
  intros Hs Hf Hr Hq. destruct fuel as [|fuel]; [lia|]. exists fuel.
  rewrite length_app in Hf. cbn [length] in Hf. split; [lia|]. cbn [idents_count_loop].
  rewrite strchr_app_l by (by apply qm_text_not_in). cbn zeta.
  rewrite drop_app_ge by lia. replace (S (length s) - length s)%nat with 1%nat by lia.
  cbn [drop]. rewrite (proj2 (Ascii.eqb_neq _ _)) by done. cbn [negb c_assert].
  rewrite bind_Ok. replace (s ++ "|"%char :: r) with ((s ++ ["|"%char]) ++ r)
    by (by rewrite <- app_assoc).
  replace (S (length s)) with (length (s ++ ["|"%char]))
    by (rewrite length_app; cbn; lia).
  rewrite qm_variations_spec, nocase_variations_none.
  - rewrite qms_app. change (qms ["|"%char]) with 0. rewrite Nat.add_0_r.
    rewrite (proj2 (Nat.ltb_lt _ _)) by done. by rewrite u64_add_l, Z.add_0_r.
  - rewrite take_app_length, not_elem_of_app. split; [by apply qm_text_not_in|].
    by intros ?%list_elem_of_singleton.
Qed.

Lemma count_piece_last s fuel ret :
  "|"%char ∉ s → (length s < fuel)%nat → (qms s < 64)%nat →
  idents_count_loop fuel s ret = Ok (u64 (ret + 2 ^ Z.of_nat (qms s))).
Proof.
  intros Hs Hf Hq. destruct fuel as [|fuel]; [lia|]. cbn [idents_count_loop].
  rewrite (proj2 (strchr_None s "|") Hs).
  pose proof (qm_variations_spec s []) as H. rewrite app_nil_r in H. rewrite H.
  by rewrite (proj2 (Nat.ltb_lt _ _)).
Qed.

(** Alternatives: every bar but the last piece is counted once. *)
Lemma count_alternatives vs p q fuel ret :
  Forall (λ v, plain_word v ∧ v ≠ []) vs → vs ≠ [] → simple p →
  (length (p ++ join_bar vs ++ q) < fuel)%nat →
  ∃ p' fuel' ret', simple p' ∧ (length (p' ++ q) < fuel')%nat ∧
    u64 ret' = u64 (ret + Z.of_nat (length vs - 1)) ∧
    idents_count_loop fuel (p ++ join_bar vs ++ q) ret
    = idents_count_loop fuel' (p' ++ q) ret'.
Proof.
  intros Hvs. revert p fuel ret.
  induction Hvs as [|v [|w vs] [Hv Hvn] Hvs IH]; intros p fuel ret Hne Hp Hf; [done| |].
  - cbn [join_bar] in *. exists (p ++ v), fuel, ret. rewrite <- app_assoc.
    split_and!; [eauto with augyang|done| |done].
    f_equal. change (length [v] - 1)%nat with 0%nat. lia.
  - rewrite join_bar_cons in *. rewrite <- app_assoc, <- app_comm_cons in *.
    rewrite app_assoc in *. inversion_clear Hvs as [|? ? [Hw Hwn] _].
    assert (at_ (join_bar (w :: vs) ++ q) 0 ≠ NUL) as Hat.
    { destruct w as [|c w]; [done|]. inversion_clear Hw. plain_case H.
      destruct vs; cbn; by apply Ascii.eqb_neq. }
    assert (simple (p ++ v)) as Hpv by eauto with augyang.
    destruct (count_piece_mid (p ++ v) (join_bar (w :: vs) ++ q) fuel ret)
      as (fuel' & Hf' & ->); [eauto with augyang|done|done|by rewrite qms_simple; [lia|]|].
    destruct (IH [] fuel' (u64 (ret + 2 ^ Z.of_nat (qms (p ++ v)))) ltac:(done))
      as (p' & fuel'' & ret' & ? & ? & Hret & Heq); [constructor|done|].
    exists p', fuel'', ret'. split_and!; [done|done| |done].
    rewrite Hret, u64_add_l, qms_simple by done. f_equal. cbn [length]. lia.
Qed.
