(* ===== verification/Bitset.v ===== *)
(** The bitsets of [ParseRegex]: one flag set at most, and the bits of a
    number. *)
From S2P Require Import Prelude CString Common ParseRegex.

Definition zeros (size : nat) : list bool := replicate size false.
Definition bits (number : Z) (size : nat) : list bool :=
  (λ j, Z.testbit number (Z.of_nat j)) <$> seq 0 size.

(** ** The most significant bit *)

(** [ay_bitset_msb] is one more than the index of the last set bit. *)
Lemma msb_spec b size :
  (size <= length b)%nat →
  let m := ay_bitset_msb b size in
  (m <= size)%nat ∧ (m ≠ 0 → b !! (m - 1)%nat = Some true) ∧
  ∀ j, (m <= j < size)%nat → b !! j = Some false.
Proof.
  cbn zeta. induction size as [|i IH]; cbn; intros Hl; [split_and!; [lia|done|lia]|].
  destruct (lookup_lt_is_Some_2 b i) as [x Hx]; [lia|]. rewrite Hx. cbn.
  destruct x.
  - split_and!; [lia| |lia]. intros _. by replace (S i - 1)%nat with i by lia.
  - destruct IH as (H1 & H2 & H3); [lia|]. split_and!; [lia|done|].
    intros j Hj. destruct (decide (j = i)) as [->|]; [done|]. apply H3. lia.
Qed.

Lemma msb_zeros size n : ay_bitset_msb (zeros size) n = 0.
Proof.
  induction n as [|n IH]; [done|]. cbn. unfold zeros in *.
  destruct (replicate size false !! n) as [x|] eqn:E; cbn; [|done].
  apply lookup_replicate in E as [-> _]. done.
Qed.

Lemma msb_one size g n :
  (g < size)%nat → ay_bitset_msb (<[g := true]> (zeros size)) n = if (g <? n)%nat then S g else 0.
Proof.
  intros Hg. induction n as [|n IH]; [done|]. cbn [ay_bitset_msb].
  destruct (decide (n = g)) as [->|Hne].
  - rewrite list_lookup_insert_eq by (unfold zeros; by rewrite length_replicate).
    destruct (Nat.ltb_spec g (S g)); [done|lia].
  - rewrite list_lookup_insert_ne by done. rewrite IH. unfold zeros.
    destruct (replicate size false !! n) as [x|] eqn:E; [apply lookup_replicate in E as [-> _]|];
      destruct (Nat.ltb_spec g n), (Nat.ltb_spec g (S n)); lia || done.
Qed.

Lemma is_zero_zeros size : ay_bitset_is_zero (zeros size) size = true.
Proof.
  unfold ay_bitset_is_zero, zeros. rewrite take_ge by (by rewrite length_replicate).
  by induction size.
Qed.

Lemma is_zero_one size g :
  (g < size)%nat → ay_bitset_is_zero (<[g := true]> (zeros size)) size = false.
Proof.
  intros Hg. unfold ay_bitset_is_zero.
  rewrite take_ge by (rewrite length_insert; unfold zeros; by rewrite length_replicate).
  apply not_true_is_false. rewrite forallb_forall. intros H.
  specialize (H true). cbn in H. discriminate H. apply list_elem_of_In.
  apply list_elem_of_lookup_2 with g.
  apply list_lookup_insert_eq. unfold zeros. by rewrite length_replicate.
Qed.

Lemma unset_one size g : <[g := false]> (<[g := true]> (zeros size)) = zeros size.
Proof.
  rewrite list_insert_insert_eq. destruct (decide (g < size)%nat).
  - apply list_insert_id. unfold zeros. by rewrite lookup_replicate_2.
  - apply list_insert_ge. unfold zeros. rewrite length_replicate. lia.
Qed.

Lemma zeros_length size : length (zeros size) = size.
Proof. apply length_replicate. Qed.

Lemma store_zeros size g :
  (g < size)%nat → store (zeros size) g true = Ok (<[g := true]> (zeros size)).
Proof. intros. apply store_Ok. by rewrite zeros_length. Qed.

Lemma store_one size g :
  (g < size)%nat → store (<[g := true]> (zeros size)) g false = Ok (zeros size).
Proof. intros. rewrite store_Ok, unset_one; [done|]. by rewrite length_insert, zeros_length. Qed.

Lemma clear_msb_one size g :
  (g < size)%nat → ay_bitset_clear_msb (<[g := true]> (zeros size)) size = Ok (zeros size).
Proof.
  intros Hg. unfold ay_bitset_clear_msb. rewrite msb_one by done.
  rewrite (proj2 (Nat.ltb_lt _ _)) by done. cbn [Nat.eqb negb c_assert]. rewrite bind_Ok.
  replace (S g - 1)%nat with g by lia. by apply store_one.
Qed.

Lemma clear_zeros size : ay_bitset_clear (zeros size) size = zeros size.
Proof.
  unfold ay_bitset_clear, zeros. rewrite drop_ge by (by rewrite length_replicate).
  by rewrite app_nil_r.
Qed.

(** ** The bits of a number *)

Lemma bits_lookup number size j :
  (j < size)%nat → bits number size !! j = Some (Z.testbit number (Z.of_nat j)).
Proof. intros. unfold bits. by rewrite list_lookup_fmap, lookup_seq_lt. Qed.

Lemma land_pow2 number i :
  (0 ≤ i)%Z → negb (Z.land number (2 ^ i) =? 0)%Z = Z.testbit number i.
Proof.
  intros Hi. destruct (Z.testbit number i) eqn:E.
  - apply negb_true_iff, Z.eqb_neq. intros H0. apply (f_equal (λ z, Z.testbit z i)) in H0.
    rewrite Z.land_spec, E, Z.pow2_bits_true, Z.bits_0 in H0 by done. done.
  - apply negb_false_iff, Z.eqb_eq. apply Z.bits_inj'. intros n Hn.
    rewrite Z.land_spec, Z.pow2_bits_eqb, Z.bits_0 by done.
    destruct (Z.eqb_spec i n) as [->|]; [by rewrite E|apply andb_false_r].
Qed.

Lemma land_sign number :
  (0 ≤ number < 2 ^ 31)%Z → Z.land number (2 ^ 64 - 2 ^ 31) = 0%Z.
Proof.
  intros Hn. apply Z.bits_inj'. intros n Hn0. rewrite Z.land_spec, Z.bits_0.
  destruct (decide (n < 31)%Z) as [Hlt|Hge].
  - change (2 ^ 64 - 2 ^ 31)%Z with ((2 ^ 33 - 1) * 2 ^ 31)%Z.
    rewrite Z.mul_pow2_bits_low by lia. apply andb_false_r.
  - destruct (decide (number = 0)%Z) as [->|]; [by rewrite Z.bits_0|].
    rewrite Z.bits_above_log2; [done|lia|].
    enough (Z.log2 number < 31)%Z by lia. apply Z.log2_lt_pow2; lia.
Qed.

(** The mask of every position below 32 selects that bit of a small number;
    position 31 is the sign bit of the [int] that is shifted. *)
Lemma shl1_mask number i :
  (0 ≤ number < 2 ^ 31)%Z → (i < 32)%nat →
  ∃ mask, int_shl1 i = Ok mask ∧
    negb (Z.land number mask =? 0)%Z = Z.testbit number (Z.of_nat i).
Proof.
  intros Hn Hi. unfold int_shl1. destruct (Nat.ltb_spec i 31).
  - eexists; split; [done|]. apply land_pow2. lia.
  - assert (i = 31) as -> by lia. eexists. split; [done|]. rewrite land_sign by done.
    cbn. destruct (decide (number = 0)%Z) as [->|]; [done|].
    rewrite Z.bits_above_log2; [done|lia|]. apply Z.log2_lt_pow2; lia.
Qed.

Lemma bitset_create_loop_spec n i number done_ rest :
  (0 ≤ number < 2 ^ 31)%Z → (i + n <= 32)%nat → length done_ = i → length rest = n →
  bitset_create_loop n i number (done_ ++ rest)
  = Ok (done_ ++ ((λ j, Z.testbit number (Z.of_nat j)) <$> seq i n)).
Proof.
  intros Hn. revert i done_ rest. induction n as [|n IH]; intros i done_ rest Hi Hd Hr.
  - destruct rest; [|done]. done.
  - destruct rest as [|x rest]; [done|]. cbn in Hr. cbn [bitset_create_loop].
    destruct (shl1_mask number i) as (mask & -> & Hm); [done|lia|].
    rewrite bind_Ok, Hm, store_Ok by (rewrite length_app; cbn; lia).
    rewrite bind_Ok, insert_app_mid by done.
    rewrite cons_middle, app_assoc, IH by (rewrite ?length_app; cbn; lia).
    by rewrite <- app_assoc.
Qed.

Lemma bitset_create_spec number size b :
  (0 ≤ number < 2 ^ 31)%Z → (size <= 32)%nat → length b = size →
  ay_bitset_create_from_uint64 b size number = Ok (bits number size).
Proof.
  intros Hn Hs Hb. unfold ay_bitset_create_from_uint64.
  rewrite (proj2 (Nat.leb_le _ _)) by lia. cbn [c_assert]. rewrite bind_Ok.
  by apply (bitset_create_loop_spec size 0 number []).
Qed.
