(* ===== verification/QmTokens.v ===== *)
(** Tokens with question marks: a sequence of items, each a character, an
    optional character [c?] or an optional group [(s)?].  The loops of
    [ParseRegex] over such a token produce one identifier for every subset of
    the optional items, in the order of the numbers that encode the subsets. *)
From S2P Require Import Prelude CString Common ParseRegex PatternFacts PatternTokens TokenCounts Bitset.

Inductive item :=
| Lit (c : ascii)
| OptChar (c : ascii)
| OptGroup (s : cstr).

Definition item_text (it : item) : cstr :=
  match it with
  | Lit c => [c]
  | OptChar c => [c; "?"%char]
  | OptGroup s => "("%char :: s ++ lit ")?"
  end.

Definition item_ok (it : item) : Prop :=
  match it with
  | Lit c | OptChar c => plain c = true
  | OptGroup s => plain_word s
  end.

#[export] Instance item_ok_dec it : Decision (item_ok it).
Proof. destruct it; cbn; apply _. Defined.

Definition items_text (its : list item) : cstr := its ≫= item_text.

(** The number of optional items and the longest identifier. *)
Fixpoint optionals (its : list item) : nat :=
  match its with
  | [] => 0
  | Lit _ :: its' => optionals its'
  | _ :: its' => S (optionals its')
  end.

Fixpoint longest (its : list item) : nat :=
  match its with
  | [] => 0
  | OptGroup s :: its' => length s + longest its'
  | _ :: its' => S (longest its')
  end.

(** The identifier of the subset [m]; [g] is the index of the next optional
    item. *)
Fixpoint emit (its : list item) (m : Z) (g : nat) : cstr :=
  match its with
  | [] => []
  | Lit c :: its' => c :: emit its' m g
  | OptChar c :: its' => (if Z.testbit m (Z.of_nat g) then [c] else []) ++ emit its' m (S g)
  | OptGroup s :: its' => (if Z.testbit m (Z.of_nat g) then s else []) ++ emit its' m (S g)
  end.

(** All identifiers of the items; the empty one is not an identifier. *)
Definition subsets (its : list item) (n : nat) : list cstr :=
  seq 0 n ≫= λ m, nonempty (emit its (Z.of_nat m) 0).

(** ** Text of items *)

Lemma items_text_cons it its : items_text (it :: its) = item_text it ++ items_text its.
Proof. done. Qed.

Lemma emit_length its m g : (length (emit its m g) <= longest its)%nat.
Proof.
  revert g. induction its as [|[c|c|s] its IH]; intros g; cbn; [lia|specialize (IH g)|
    specialize (IH (S g))..]; [lia|destruct (Z.testbit _ _); cbn; lia|].
  rewrite length_app. destruct (Z.testbit _ _); cbn; lia.
Qed.

Lemma emit_plain its m g : Forall item_ok its → plain_word (emit its m g).
Proof.
  unfold plain_word. intros H. revert g.
  induction H as [|[c|c|s] its Hi _ IH]; intros g; cbn in *.
  - apply Forall_nil_2.
  - apply Forall_cons_2; auto.
  - destruct (Z.testbit _ _); cbn; [apply Forall_cons_2|]; auto.
  - destruct (Z.testbit _ _); cbn; [apply Forall_app_2|]; auto.
Qed.

Lemma items_first its r :
  Forall item_ok its → (at_ r 0 =c "?") = false → (at_ (items_text its ++ r) 0 =c "?") = false.
Proof.
  intros [|[c|c|s] its' Hi _] Hr; [done|..]; cbn in *; try plain_case Hi; done.
Qed.

(** ** Reading a text in the middle *)

Lemma at_mid p t i : i = length p → at_ (p ++ t) i = at_ t 0.
Proof. intros ->. rewrite at_app_r by lia. by rewrite Nat.sub_diag. Qed.

Lemma at_mid_S p c t i : i = length p → at_ (p ++ c :: t) (S i) = at_ t 0.
Proof. intros ->. rewrite at_app_r by lia. by rewrite Nat.sub_succ_l, Nat.sub_diag. Qed.

(** ** The loop over the characters *)

(** The buffer after writing [out] from its start. *)
Definition wrote (b : buf) (out : cstr) : Prop :=
  length b = AY_MAX_IDENT_SIZE ∧ ∃ r, b = out ++ r.

Lemma wrote_store b out c :
  wrote b out → (length out < AY_MAX_IDENT_SIZE)%nat →
  ∃ b', store b (length out) c = Ok b' ∧ wrote b' (out ++ [c]).
Proof.
  intros [Hb [r ->]] Hl. rewrite length_app in Hb.
  destruct r as [|x r]; [cbn in Hb; lia|]. eexists.
  rewrite store_Ok by (rewrite length_app; cbn; lia). split; [done|].
  rewrite insert_app_mid by done. split.
  - rewrite length_app in *. cbn in *. lia.
  - exists r. by rewrite <- app_assoc.
Qed.

Lemma wrote_holds b out : wrote b (out ++ [NUL]) → is_cstr out → holds b out.
Proof. intros [Hb [r ->]] Hc. split_and!; [done..|]. exists r. by rewrite <- app_assoc. Qed.

Section loop.
Context (ptoken : cstr) (m : Z) (tv : nat).
Local Abbreviation vari := (bits m tv).

(** One step of the loop on a character outside groups that is kept. *)
Lemma qm_loop_lit n p c t g out b :
  ptoken = p ++ c :: t → plain c = true → (at_ t 0 =c "?") = false →
  wrote b out → (length out < AY_MAX_IDENT_SIZE)%nat →
  ∃ b', wrote b' (out ++ [c]) ∧
    identifier_qm_loop (S n) (length p) false ptoken (zeros tv) vari tv g (length out) b
    = identifier_qm_loop n (S (length p)) false ptoken (zeros tv) vari tv g
        (length (out ++ [c])) b'.
Proof.
  intros Hp Hc Ht Hb Hl. destruct (wrote_store b out c) as (b' & Hst & Hb'); [done..|].
  exists b'. split; [done|]. cbn [identifier_qm_loop].
  assert (at_ ptoken (length p) = c) as -> by (by rewrite Hp, at_mid).
  assert (at_ ptoken (S (length p)) = at_ t 0) as -> by (by rewrite Hp, at_mid_S).
  plain_case Hc. rewrite Ht. rewrite H0, H1, is_zero_zeros. cbn [andb negb].
  rewrite (proj2 (Nat.leb_gt _ _)) by done. rewrite Hst, bind_Ok.
  rewrite length_app. by rewrite Nat.add_comm.
Qed.

Lemma dependence_single g k :
  (k <= S g)%nat → (g < k → default false (vari !! g) = true)%nat → (g < tv)%nat →
  qm_dependence_broken (<[g := true]> (zeros tv)) vari k = false.
Proof.
  intros Hk Hv Hg. unfold qm_dependence_broken. apply not_true_is_false.
  rewrite existsb_exists. intros (j & Hj%in_seq & Hb).
  destruct (decide (j = g)) as [->|Hne].
  - rewrite Hv in Hb by lia. by rewrite andb_false_r in Hb.
  - rewrite list_lookup_insert_ne in Hb by done. unfold zeros in Hb.
    destruct (replicate tv false !! j) as [x|] eqn:E; [|done].
    apply lookup_replicate in E as [-> _]. done.
Qed.

(** One optional character, in one or two steps. *)
Lemma qm_loop_optchar n p c t g out b :
  ptoken = p ++ c :: "?"%char :: t → plain c = true → (S g < tv)%nat →
  wrote b out → (length out < AY_MAX_IDENT_SIZE)%nat →
  let out' := out ++ if Z.testbit m (Z.of_nat g) then [c] else [] in
  ∃ b', wrote b' out' ∧
    identifier_qm_loop (S (S n)) (length p) false ptoken (zeros tv) vari tv g (length out) b
    = identifier_qm_loop n (S (S (length p))) false ptoken (zeros tv) vari tv (S g)
        (length out') b'.
Proof.
  intros Hp Hc Hg Hb Hl. cbn zeta.
  destruct (wrote_store b out c) as (b' & Hst & Hb'); [done..|].
  plain_case Hc. cbn [identifier_qm_loop].
  assert (at_ ptoken (length p) = c) as -> by (by rewrite Hp, at_mid).
  assert (at_ ptoken (S (length p)) = "?"%char) as -> by (by rewrite Hp, at_mid_S).
  rewrite H0, H1, Ascii.eqb_refl. cbn [andb negb]. rewrite andb_false_r.
  unfold fetch. rewrite (bits_lookup m tv g) by lia. rewrite bind_Ok, msb_zeros.
  destruct (Z.testbit m (Z.of_nat g)) eqn:E; cbn [negb].
  - exists b'. split; [done|]. cbn [Nat.eqb negb andb].
    rewrite store_zeros by lia. rewrite bind_Ok, dependence_single by lia. rewrite (proj2 (Nat.leb_gt _ _)) by done.
    rewrite Hst, bind_Ok, store_one, bind_Ok, length_app by lia. by rewrite Nat.add_comm.
  - exists b. rewrite app_nil_r. split; [done|].
    by rewrite (proj2 (Nat.ltb_lt _ _)) by done.
Qed.

(** The characters inside a group; the flag of the group is set. *)
Lemma qm_loop_inside n p s t g out b :
  ptoken = p ++ s ++ ")"%char :: t → plain_word s → (g < tv)%nat →
  wrote b out → (length out + length s < AY_MAX_IDENT_SIZE)%nat →
  let out' := out ++ if Z.testbit m (Z.of_nat g) then s else [] in
  ∃ b', wrote b' out' ∧
    identifier_qm_loop (length s + n) (length p) false ptoken
      (<[g := true]> (zeros tv)) vari tv (S g) (length out) b
    = identifier_qm_loop n (length p + length s) false ptoken
        (<[g := true]> (zeros tv)) vari tv (S g) (length out') b'.
Proof.
  intros Hp Hs Hg. cbn zeta. revert p out b Hp.
  induction Hs as [|c s Hc Hs IH]; intros p out b Hp Hb Hl.
  { exists b. replace (if Z.testbit _ _ then [] else []) with (@nil ascii) by (by case_match).
    by rewrite app_nil_r, Nat.add_0_r. }
  cbn [length] in *.
  assert (∃ b1, wrote b1 (out ++ if Z.testbit m (Z.of_nat g) then [c] else []) ∧
    identifier_qm_loop (S (length s + n)) (length p) false ptoken
      (<[g := true]> (zeros tv)) vari tv (S g) (length out) b
    = identifier_qm_loop (length s + n) (S (length p)) false ptoken
        (<[g := true]> (zeros tv)) vari tv (S g)
        (length (out ++ if Z.testbit m (Z.of_nat g) then [c] else [])) b1)
    as (b1 & Hb1 & Heq).
  { destruct (wrote_store b out c) as (b1 & Hst & Hb1); [done|lia|].
    plain_case Hc. cbn [identifier_qm_loop].
    assert (at_ ptoken (length p) = c) as -> by (by rewrite Hp, at_mid).
    assert ((at_ ptoken (S (length p)) =c "?") = false) as ->.
    { rewrite Hp, <- app_comm_cons, at_mid_S by done.
      destruct Hs as [|d s' Hd _]; [done|]. by plain_case Hd. }
    rewrite H0, H1, is_zero_one by done. cbn [andb negb]. rewrite bind_Ok.
    rewrite msb_one by done. rewrite (proj2 (Nat.ltb_lt _ _)) by done.
    replace (S g - 1)%nat with g by lia. rewrite bits_lookup by done.
    cbn [default Nat.eqb negb andb from_option id].
    destruct (Z.testbit m (Z.of_nat g)) eqn:E; cbn [negb].
    - exists b1. split; [done|]. rewrite bind_Ok, dependence_single; [|lia| |done].
      + rewrite (proj2 (Nat.leb_gt _ _)) by lia. rewrite Hst, bind_Ok, length_app.
        f_equal. cbn. lia.
      + intros _. rewrite bits_lookup by done. exact E.
    - exists b. by rewrite app_nil_r. }
  cbn [Nat.add]. rewrite Heq. clear Heq.
  destruct (IH (p ++ [c]) (out ++ if Z.testbit m (Z.of_nat g) then [c] else []) b1)
    as (b' & Hb' & Heq).
  - by rewrite Hp, <- app_assoc.
  - done.
  - rewrite length_app. case_match; cbn; lia.
  - exists b'. rewrite <- app_assoc in Hb', Heq.
    replace ((if Z.testbit _ _ then [c] else []) ++ if Z.testbit _ _ then s else [])
      with (if Z.testbit m (Z.of_nat g) then c :: s else []) in Hb', Heq by (by case_match).
    split; [done|]. rewrite (length_app p), Nat.add_1_r in Heq.
    rewrite Heq. f_equal. lia.
Qed.

Lemma qm_loop_optgroup n p s t g out b :
  ptoken = p ++ "("%char :: s ++ ")"%char :: "?"%char :: t → plain_word s →
  (S g < tv)%nat → wrote b out → (length out + length s < AY_MAX_IDENT_SIZE)%nat →
  let out' := out ++ if Z.testbit m (Z.of_nat g) then s else [] in
  ∃ b', wrote b' out' ∧
    identifier_qm_loop (S (length s + S (S n))) (length p) false ptoken (zeros tv) vari tv g
      (length out) b
    = identifier_qm_loop n (length p + (3 + length s)) false ptoken (zeros tv) vari tv (S g)
        (length out') b'.
Proof.
  intros Hp Hs Hg Hb Hl. cbn zeta.
  cbn [identifier_qm_loop].
  assert (at_ ptoken (length p) = "("%char) as -> by (by rewrite Hp, at_mid).
  rewrite Ascii.eqb_refl, store_zeros, bind_Ok by lia.
  rewrite (proj2 (Nat.ltb_lt _ _)) by done. cbn [c_assert]. rewrite bind_Ok.
  destruct (qm_loop_inside (S (S n)) (p ++ ["("%char]) s ("?"%char :: t) g out b)
    as (b' & Hb' & Heq); [by rewrite Hp, <- app_assoc|done|lia|done|done|].
  exists b'. split; [done|].
  rewrite length_app, Nat.add_1_r in Heq. rewrite Heq. cbn [identifier_qm_loop].
  assert (at_ ptoken (S (length p) + length s) = ")"%char) as ->.
  { rewrite Hp, cons_middle, !app_assoc, at_mid; [done|]. rewrite !length_app. cbn. lia. }
  assert (at_ ptoken (S (S (length p) + length s)) = "?"%char) as ->.
  { rewrite Hp, cons_middle, !app_assoc, at_mid_S; [done|]. rewrite !length_app. cbn. lia. }
  change (")"%char =c "("%char) with false. rewrite !Ascii.eqb_refl. cbn [andb].
  rewrite clear_msb_one, bind_Ok by lia. f_equal. lia.
Qed.

(** The loop over all the items. *)
Lemma qm_loop_items its p r g out b :
  ptoken = p ++ items_text its ++ r → (at_ r 0 =c "?") = false → Forall item_ok its →
  (g + optionals its < tv)%nat → wrote b out → plain_word out →
  (length out + longest its < AY_MAX_IDENT_SIZE)%nat →
  ∃ b', holds b' (out ++ emit its m g) ∧
    identifier_qm_loop (length (items_text its)) (length p) false ptoken (zeros tv) vari tv g
      (length out) b = Ok (0%Z, b').
Proof.
  intros Hp Hr Hi. revert p g out b Hp.
  induction Hi as [|it its Hit Hi IH]; intros p g out b Hp Hg Hb Ho Hl.
  { destruct (wrote_store b out NUL) as (b' & Hst & Hb'); [done|cbn in Hl; lia|].
    exists b'. rewrite app_nil_r. split; [apply wrote_holds; eauto with augyang|].
    cbn. by rewrite Hst. }
  rewrite items_text_cons, <- app_assoc in Hp. rewrite items_text_cons, length_app.
  pose proof (items_first its r Hi Hr) as Hf.
  assert (∃ b1 g1 o, wrote b1 (out ++ o) ∧ plain_word o ∧
    (length o + longest its <= longest (it :: its))%nat ∧
    (g1 + optionals its = g + optionals (it :: its))%nat ∧
    emit (it :: its) m g = o ++ emit its m g1 ∧
    identifier_qm_loop (length (item_text it) + length (items_text its)) (length p) false
      ptoken (zeros tv) vari tv g (length out) b
    = identifier_qm_loop (length (items_text its)) (length p + length (item_text it)) false
        ptoken (zeros tv) vari tv g1 (length (out ++ o)) b1)
    as (b1 & g1 & o & Hb1 & Hpo & Hlo & Hg1 & He & Heq).
  { destruct it as [c|c|s]; cbn in Hit, Hg, Hl.
    - destruct (qm_loop_lit (length (items_text its)) p c (items_text its ++ r) g out b)
        as (b1 & Hb1 & Heq); [done..|lia|].
      exists b1, g, [c]. split_and!; [done|by constructor|cbn; lia|done|done|].
      cbn [item_text length Nat.add]. rewrite Heq. f_equal. lia.
    - destruct (qm_loop_optchar (length (items_text its)) p c (items_text its ++ r) g out b)
        as (b1 & Hb1 & Heq); [done|done|lia|done|lia|].
      exists b1, (S g), (if Z.testbit m (Z.of_nat g) then [c] else []).
      split_and!; [done|case_match; by repeat constructor|case_match; cbn; lia|cbn; lia|
        done|]. cbn [item_text length Nat.add]. rewrite Heq. f_equal. lia.
    - destruct (qm_loop_optgroup (length (items_text its)) p s (items_text its ++ r) g out b)
        as (b1 & Hb1 & Heq); [by rewrite Hp; cbn; rewrite <- app_assoc|done|lia|done|lia|].
      exists b1, (S g), (if Z.testbit m (Z.of_nat g) then s else []).
      split_and!; [done|case_match; [done|by constructor]|case_match; cbn; lia|cbn; lia|
        done|].
      assert (length (item_text (OptGroup s)) = 3 + length s)%nat as ->
        by (cbn; rewrite length_app; cbn; lia).
      rewrite <- Heq. f_equal. lia. }
  rewrite Heq.
  destruct (IH (p ++ item_text it) g1 (out ++ o) b1) as (b' & Hb' & Heq').
  - by rewrite <- app_assoc.
  - lia.
  - done.
  - by apply Forall_app.
  - rewrite length_app. lia.
  - exists b'. rewrite He, app_assoc. split; [done|]. by rewrite length_app in Heq'.
Qed.
End loop.
