(* ===== verification/TokenKinds.v ===== *)
(** The kinds of tokens that satisfy the contract [GoodToken]: a word, a word
    with alternatives, a word with optional parts, a case-insensitive word. *)
From S2P Require Import Prelude CString Common ParseRegex PatternFacts PatternTokens TokenCounts Bitset QmTokens.

Definition nocase_text (l : cstr) : cstr :=
  l ≫= λ c, ["["%char; toupper c; c; "]"%char].

Definition alt_text (pre : cstr) (vs : list cstr) (post : cstr) : cstr :=
  pre ++ "("%char :: join_bar vs ++ ")"%char :: post.

(** ** Shared lemmas *)

Lemma token_end_cases r : token_end r → (at_ r 0 =c NUL) || (at_ r 0 =c "|") = true.
Proof. by intros [->|[r' ->]]. Qed.

Lemma token_end_not r c :
  token_end r → c ≠ NUL → c ≠ "|"%char → (at_ r 0 =c c) = false.
Proof. intros [->|[r' ->]] H1 H2; apply Ascii.eqb_neq; naive_solver. Qed.

Lemma memchr_app s r c : memchr (s ++ r) c (length s) = strchr s c.
Proof. unfold memchr. by rewrite take_app_length. Qed.

Lemma nocase_first s : (at_ s 0 =c "[") = false → ay_ident_character_nocase s = false.
Proof. unfold ay_ident_character_nocase. by intros ->. Qed.

Lemma token_counters_plain s t n qm vbar opbr :
  plain_word s →
  token_counters (length s + n) (s ++ t) qm vbar opbr = token_counters n t qm vbar opbr.
Proof.
  induction 1 as [|c s Hc Hs IH]; [done|]. plain_case Hc.
  cbn [length Nat.add token_counters app]. rewrite at_0_cons, H0, H1, H2. exact IH.
Qed.

Lemma bind_holds b s (t : cstr) :
  holds b s → is_cstr t → (length s + length t < AY_MAX_IDENT_SIZE)%nat →
  ∀ r, ∃ b', strncat b (t ++ r) (length t) = Ok b' ∧ holds b' (s ++ t).
Proof.
  intros Hb Ht Hl r. pose proof (strncat_holds b s (t ++ r) (length t)) as H.
  rewrite take_app_length in H. auto.
Qed.

Lemma nonempty_cons s : s ≠ [] → nonempty s = [s].
Proof. by destruct s. Qed.

(** ** Words *)

Section word.
Context (w : cstr) (Hw : plain_word w) (Hne : w ≠ []).
Context (Hl : (length w < AY_MAX_IDENT_SIZE)%nat).

Lemma word_first c : plain c = false → (at_ w 0 =c c) = false.
Proof.
  intros Hc. destruct w as [|d w']; [done|]. inversion_clear Hw.
  rewrite at_0_cons. apply Ascii.eqb_neq. congruence.
Qed.

Lemma vbar_word_0 r b :
  token_end r → length b = AY_MAX_IDENT_SIZE →
  ∃ b', holds b' w ∧ ay_pattern_identifier_vbar_ (w ++ r) (length w) 0 b = Ok (0%Z, b').
Proof.
  intros Hr Hb. unfold ay_pattern_identifier_vbar_.
  rewrite at_mid, token_end_cases by done. cbn [c_assert]. rewrite bind_Ok.
  destruct (store_0_holds b Hb) as (b0 & -> & Hb0). rewrite bind_Ok, !memchr_app.
  rewrite !(proj2 (strchr_None w _)) by not_in_plain. cbn [Nat.eqb].
  rewrite (proj2 (Nat.leb_gt _ _)) by done.
  destruct (bind_holds b0 [] w Hb0 ltac:(eauto with augyang) Hl r) as (b' & -> & Hb').
  exists b'. done.
Qed.

Lemma vbar_word_S r b i :
  token_end r → length b = AY_MAX_IDENT_SIZE →
  ∃ b', length b' = AY_MAX_IDENT_SIZE ∧
    ay_pattern_identifier_vbar_ (w ++ r) (length w) (S i) b = Ok (AYE_IDENT_NOT_FOUND, b').
Proof.
  intros Hr Hb. unfold ay_pattern_identifier_vbar_.
  rewrite at_mid, token_end_cases by done. cbn [c_assert]. rewrite bind_Ok.
  destruct (store_0_holds b Hb) as (b0 & -> & Hb0). rewrite bind_Ok, !memchr_app.
  rewrite !(proj2 (strchr_None w _)) by not_in_plain. eauto with augyang.
Qed.

#[local] Instance good_word : GoodToken w [w] 1 1.
Proof.
  constructor.
  - by apply opaque_plain.
  - done.
  - eauto with augyang.
  - by apply word_first.
  - by rewrite word_first.
  - intros r Hr. unfold ay_pattern_union_token_is_valid.
    rewrite nocase_first by (rewrite at_0_app by done; by apply word_first).
    rewrite <- (Nat.add_0_r (length w)), token_counters_plain by done. done.
  - intros r b tran Hr Hb Hroom. unfold identifier_of_token. rewrite !memchr_app.
    rewrite !(proj2 (strchr_None w _)) by not_in_plain.
    rewrite !bool_decide_eq_false_2 by (intros [? ?]; done). cbn [andb].
    rewrite nocase_first by (rewrite at_0_app by done; by apply word_first).
    unfold ay_pattern_identifier_vbar.
    destruct (length (w ++ r) + 2)%nat as [|[|f]] eqn:Ef; [lia..|].
    cbn [identifier_vbar_loop].
    destruct (vbar_word_0 r b Hr Hb) as (b1 & Hb1 & ->). rewrite bind_Ok. cbn [Z.eqb negb].
    rewrite (identifier_add_plain tran b1 w) by (rewrite ?nonempty_cons; done).
    rewrite bind_Ok.
    destruct (vbar_word_S r b1 0 Hr ltac:(eauto with augyang)) as (b2 & Hb2 & ->).
    exists b2. by rewrite nonempty_cons.
  - intros r fuel ret Hf Hr. rewrite <- (Z.pow_0_r 2), <- (Nat2Z.inj_0).
    rewrite <- (qms_simple w) by eauto with augyang.
    apply count_piece_mid; [eauto with augyang|done|done|].
    rewrite qms_simple by eauto with augyang. lia.
  - intros fuel ret Hf. rewrite count_piece_last; [|not_in_plain|done|];
      rewrite qms_simple by eauto with augyang; [done|lia].
Qed.
End word.

(** ** Words with alternatives *)

Section alternatives.
Context (pre post : cstr) (vs : list cstr).
Context (Hpre : plain_word pre) (Hpost : plain_word post).
Context (Hvs : Forall (λ v, plain_word v ∧ v ≠ []) vs) (Hvsn : vs ≠ []).
Context (Hout : pre ≠ [] ∨ post ≠ []).
Context (Hl : Forall (λ v, length pre + length v + length post < AY_MAX_IDENT_SIZE)%nat vs).

Local Abbreviation T := (alt_text pre vs post).
Local Abbreviation J := (join_bar vs).

Lemma alt_plain : Forall plain_word vs.
Proof. eapply Forall_impl; [exact Hvs|]. by intros v [? _]. Qed.

Lemma join_first q : ∃ c t, J ++ q = c :: t ∧ plain c = true.
Proof.
  clear Hl. destruct vs as [|v vs']; [done|]. inversion_clear Hvs as [|? ? [Hv Hn] _].
  destruct v as [|c v]; [done|]. inversion_clear Hv.
  destruct vs'; cbn; eauto.
Qed.

Lemma join_not_in c : plain c = false → c ≠ "|"%char → c ∉ J.
Proof.
  intros Hc Hb. pose proof alt_plain as H. clear Hvsn Hl Hpre Hpost Hout.
  induction H as [|v [|w ws] Hv Hws IH]; [set_solver| |].
  - cbn. by apply plain_not_in.
  - rewrite join_bar_cons, not_elem_of_app, not_elem_of_cons.
    inversion_clear Hvs. split_and!; [by apply plain_not_in|done|by apply IH].
Qed.

Lemma union_token_alt idx q :
  ay_pattern_union_token (J ++ ")"%char :: q) idx
  = Ok (match vs !! idx with
        | Some v => Some (bar_offset vs idx, length v)
        | None => None
        end).
Proof.
  clear Hl. destruct (join_first (")"%char :: q)) as (c & t & Hct & Hc).
  unfold ay_pattern_union_token. plain_case Hc.
  assert (at_ (J ++ ")"%char :: q) 0 = c) as -> by (by rewrite Hct).
  rewrite H, H2. change (drop 0 ?l) with l. cbn zeta.
  pose proof (scan_alternatives vs q 0 0 0 idx alt_plain Hvsn ltac:(lia)) as Hs.
  cbn zeta in Hs. rewrite Nat.sub_0_r in Hs.
  destruct (vs !! idx) as [v|] eqn:Hv.
  - assert (v ≠ [] ∧ plain_word v) as [Hvn Hvp].
    { eapply Forall_lookup_1 in Hvs; [|exact Hv]. naive_solver. }
    rewrite Hs. cbn [Nat.add].
    assert ((if decide (idx = 0) then 0 else bar_offset vs idx) = bar_offset vs idx) as ->.
    { case_decide as Hd; [|done]. rewrite Hd. by destruct vs. }
    destruct (join_bar_drop vs idx v (")"%char :: q) Hv) as [r' Hr'].
    assert (at_ (J ++ ")"%char :: q) (bar_offset vs idx) ≠ NUL) as Hat.
    { rewrite <- (Nat.add_0_r (bar_offset vs idx)). unfold at_.
      rewrite <- lookup_drop, Hr'. fold (at_ (v ++ r') 0). rewrite at_0_app by done.
      destruct v as [|d v]; [done|]. inversion_clear Hvp as [|? ? Hd].
      plain_case Hd. by apply Ascii.eqb_neq. }
    rewrite (proj2 (Ascii.eqb_neq _ _)) by done. cbn [negb c_assert]. rewrite bind_Ok.
    rewrite Nat.eqb_refl. cbn [negb].
    assert (0 < length v)%nat by (destruct v; [done|cbn; lia]).
    rewrite (proj2 (Nat.ltb_lt _ _)) by lia. cbn [c_assert]. rewrite bind_Ok.
    replace (bar_offset vs idx + length v - bar_offset vs idx)%nat with (length v) by lia.
    destruct (Nat.eqb_spec (bar_offset vs idx) 0) as [Hz|]; [|done].
    destruct idx as [|k]; [done|]. destruct vs; [done|]. cbn in Hz. lia.
  - destruct (union_token_scan _ _ _ _ _ _) as [[start stop] cnt]. cbn in Hs.
    destruct Hs as [-> Hne]. rewrite Hct, at_0_cons, H. cbn [negb c_assert].
    rewrite bind_Ok, (proj2 (Nat.eqb_neq _ _)) by done. done.
Qed.

Lemma alt_length : length T = (length pre + 2 + length J + length post)%nat.
Proof. unfold alt_text. rewrite length_app. cbn. rewrite length_app. cbn. lia. Qed.

Lemma alt_open r : memchr (T ++ r) "(" (length T) = Some (length pre).
Proof. rewrite memchr_app. apply strchr_app_l. not_in_plain. Qed.

Lemma alt_close r : memchr (T ++ r) ")" (length T) = Some (length pre + 1 + length J)%nat.
Proof.
  rewrite memchr_app. unfold alt_text. rewrite cons_middle, !app_assoc.
  rewrite strchr_app_l; [rewrite !length_app; cbn; f_equal; lia|].
  rewrite !not_elem_of_app. split_and!; [not_in_plain|by intros ?%list_elem_of_singleton|].
  by apply join_not_in.
Qed.

Lemma post_first r : token_end r → (at_ (post ++ r) 0 =c "?") = false.
Proof.
  intros Hr. destruct post as [|c p]; [by apply token_end_not|].
  inversion_clear Hpost as [|? ? Hc]. by plain_case Hc.
Qed.

(** One alternative, with the prefix and the postfix. *)
Lemma vbar_alt r b idx :
  token_end r → length b = AY_MAX_IDENT_SIZE →
  ∃ b', match vs !! idx with
  | Some v =>
      holds b' (pre ++ v ++ post) ∧
      ay_pattern_identifier_vbar_ (T ++ r) (length T) idx b = Ok (0%Z, b')
  | None =>
      length b' = AY_MAX_IDENT_SIZE ∧
      ay_pattern_identifier_vbar_ (T ++ r) (length T) idx b = Ok (AYE_IDENT_NOT_FOUND, b')
  end.
Proof.
  intros Hr Hb. unfold ay_pattern_identifier_vbar_.
  rewrite at_mid, token_end_cases by done. cbn [c_assert]. rewrite bind_Ok.
  destruct (store_0_holds b Hb) as (b0 & -> & Hb0). rewrite bind_Ok, alt_open, alt_close.
  assert (drop (S (length pre)) (T ++ r) = J ++ ")"%char :: post ++ r) as Hd.
  { unfold alt_text. rewrite cons_middle, !app_assoc, <- !(app_assoc _ J), <- app_assoc.
    rewrite drop_app_ge by (rewrite length_app; cbn; lia).
    rewrite length_app. cbn. rewrite Nat.add_1_r, Nat.sub_diag. cbn.
    by rewrite <- app_assoc. }
  assert (drop (length pre + 2 + length J) (T ++ r) = post ++ r) as Hdp.
  { replace (length pre + 2 + length J)%nat with (S (length pre) + (length J + 1))%nat by lia.
    rewrite <- drop_drop, Hd, cons_middle, app_assoc, drop_app_ge
      by (rewrite length_app; cbn; lia).
    rewrite length_app. cbn. by rewrite Nat.sub_diag. }
  assert ((at_ (T ++ r) (S (length pre + 1 + length J)) =c "?") = false) as ->.
  { pose proof (post_first r Hr) as Hp. rewrite <- Hdp in Hp. unfold at_ in *.
    rewrite lookup_drop, Nat.add_0_r in Hp.
    by replace (S (length pre + 1 + length J)) with (length pre + 2 + length J)%nat by lia. }
  cbn [default from_option id]. rewrite bool_decide_true by done. cbn [andb].
  assert (length pre < AY_MAX_IDENT_SIZE)%nat as Hlp.
  { destruct vs; [done|]. inversion_clear Hl. lia. }
  rewrite (proj2 (Nat.leb_gt _ _)) by done.
  assert (T ++ r = pre ++ "("%char :: J ++ ")"%char :: post ++ r) as HT.
  { unfold alt_text. rewrite <- app_assoc. cbn. by rewrite <- app_assoc. }
  destruct (bind_holds b0 [] pre Hb0 ltac:(eauto with augyang) ltac:(cbn; lia)
    ("("%char :: J ++ ")"%char :: post ++ r)) as (b1 & Hst1 & Hb1).
  rewrite <- HT in Hst1. rewrite Hst1, bind_Ok. cbn [app] in Hb1.
  rewrite Hd, union_token_alt, bind_Ok.
  set (S' := S (length pre + 1 + length J)).
  destruct (vs !! idx) as [v|] eqn:Hv.
  - assert (plain_word v ∧ length pre + length v + length post < AY_MAX_IDENT_SIZE)%nat
      as [Hvp Hvl].
    { split; [eapply Forall_lookup_1 in Hvs; naive_solver|].
      by eapply (Forall_lookup_1 _ _ _ _ Hl). }
    destruct (join_bar_drop vs idx v (")"%char :: post ++ r) Hv) as [r' Hr'].
    destruct (bind_holds b1 pre v Hb1 ltac:(eauto with augyang) ltac:(lia) r')
      as (b2 & Hst2 & Hb2).
    rewrite <- Hr' in Hst2. rewrite alt_length.
    destruct (Nat.ltb_spec S' (length pre + 2 + length J + length post)) as [Hlt|Hge].
    + destruct (bind_holds b2 (pre ++ v) post Hb2 ltac:(eauto with augyang)
        ltac:(rewrite length_app; lia) r) as (b3 & Hst3 & Hb3).
      exists b3. rewrite <- app_assoc in Hb3. split; [done|].
      rewrite (proj2 (Nat.leb_gt _ _)) by lia. rewrite Hst2, bind_Ok.
      replace (length pre + 2 + length J + length post - S')%nat with (length post) by lia.
      rewrite (proj2 (Nat.leb_gt _ _)) by lia.
      replace S' with (length pre + 2 + length J)%nat by lia.
      by rewrite Hdp, Hst3.
    + exists b2. assert (post = []) as -> by (apply length_zero_iff_nil; lia).
      rewrite app_nil_r. split; [done|].
      rewrite (proj2 (Nat.leb_gt _ _)) by lia. by rewrite Hst2.
  - destruct (store_0_holds b1) as (b2 & Hst & Hb2); [eauto with augyang|].
    exists b2. split; [eauto with augyang|].
    destruct (S' <? length T)%nat; rewrite Hst; done.
Qed.

Definition alt_idents : list cstr := (λ v, pre ++ v ++ post) <$> vs.

Lemma alt_ident_plain idx v : vs !! idx = Some v → plain_word (pre ++ v ++ post).
Proof.
  intros Hv. eapply Forall_lookup_1 in Hvs as [? _]; [|done].
  by apply Forall_app_2; [|apply Forall_app_2].
Qed.

Lemma vbar_loop_alt r fuel i b tran :
  token_end r → length b = AY_MAX_IDENT_SIZE → (length vs < i + fuel)%nat →
  (i <= length vs)%nat → room tran (length vs - i) →
  ∃ b', length b' = AY_MAX_IDENT_SIZE ∧
    identifier_vbar_loop fuel i (T ++ r) (length T) b tran
    = Ok (0%Z, b', add_idents tran (drop i alt_idents)).
Proof.
  intros Hr. revert i b tran. induction fuel as [|fuel IH]; intros i b tran Hb Hf Hi Hroom.
  { lia. }
  cbn [identifier_vbar_loop].
  destruct (vbar_alt r b i Hr Hb) as (b1 & Hb1). destruct (vs !! i) as [v|] eqn:Hv.
  - destruct Hb1 as [Hb1 ->]. rewrite bind_Ok. cbn [Z.eqb negb].
    assert (pre ++ v ++ post ≠ []) as Hn.
    { intros [-> [_ ->]%app_nil]%app_nil. naive_solver. }
    pose proof (lookup_lt_Some _ _ _ Hv) as Hlt.
    rewrite (identifier_add_plain tran b1 (pre ++ v ++ post));
      [|done|by eapply alt_ident_plain|rewrite nonempty_cons by done; eapply room_le;
        [done|cbn; lia]].
    rewrite bind_Ok, nonempty_cons by done.
    destruct (IH (S i) b1 (add_idents tran [pre ++ v ++ post])) as (b2 & Hb2 & ->);
      [eauto with augyang|lia|lia|apply room_add; cbn; eapply room_le; [done|lia]|].
    exists b2. split; [done|]. rewrite add_idents_app.
    unfold alt_idents. rewrite (drop_S _ (pre ++ v ++ post) i); [done|].
    by rewrite list_lookup_fmap, Hv.
  - destruct Hb1 as [Hb1 ->]. rewrite bind_Ok. exists b1. split; [done|].
    apply lookup_ge_None_1 in Hv. unfold alt_idents.
    rewrite drop_ge by (by rewrite length_fmap). unfold add_idents. destruct tran. cbn.
    by rewrite app_nil_r.
Qed.

Lemma token_counters_join n t qm vbar opbr :
  token_counters (length J + n) (J ++ t) qm vbar opbr
  = token_counters n t qm (vbar + (length vs - 1)) opbr.
Proof.
  clear Hvsn Hl. revert vbar. pose proof alt_plain as H. clear Hvs.
  induction H as [|v [|w ws] Hv Hws IH]; intros vbar.
  - cbn. by rewrite Nat.add_0_r.
  - cbn [join_bar length Nat.sub]. rewrite token_counters_plain by done.
    by rewrite Nat.add_0_r.
  - rewrite join_bar_cons, length_app, <- app_assoc, <- Nat.add_assoc.
    rewrite token_counters_plain by done. cbn [length Nat.add token_counters app].
    rewrite at_0_cons. change (drop 1 (?x :: ?l)) with l. rewrite IH. cbn.
    f_equal. lia.
Qed.

Lemma alt_counters r :
  token_end r →
  token_counters (length T) (T ++ r) 0 0 0 = (0, length vs - 1, 1)%nat.
Proof.
  intros Hr. rewrite alt_length.
  replace (length pre + 2 + length J + length post)%nat
    with (length pre + S (length J + S (length post + 0)))%nat by lia.
  unfold alt_text. rewrite <- app_assoc, token_counters_plain by done.
  cbn [token_counters app]. rewrite at_0_cons. change (drop 1 (?x :: ?l)) with l.
  cbn [Ascii.eqb Bool.eqb]. rewrite <- app_assoc, token_counters_join.
  cbn [token_counters app]. rewrite at_0_cons. change (drop 1 (?x :: ?l)) with l.
  change (at_ (?x :: ?l) 1) with (at_ l 0). rewrite post_first by done.
  cbn [Ascii.eqb Bool.eqb]. by rewrite token_counters_plain by done.
Qed.

Lemma alt_first c : plain c = false → c ≠ "("%char → (at_ T 0 =c c) = false.
Proof.
  intros Hc Hp. apply Ascii.eqb_neq. unfold alt_text. destruct pre as [|d p].
  - cbn. congruence.
  - inversion_clear Hpre. cbn. congruence.
Qed.

Lemma alt_last : pre = [] → (at_ T (length T - 1) =c ")") = false.
Proof.
  intros Hp. destruct Hout as [|Hn]; [done|]. apply Ascii.eqb_neq. rewrite alt_length.
  unfold alt_text. rewrite cons_middle, app_assoc, (cons_middle ")"%char), app_assoc.
  destruct post as [|c p] using rev_ind; [done|]. clear IHp.
  rewrite !app_assoc, at_mid by (rewrite !length_app; cbn; lia). cbn.
  apply Forall_app in Hpost as [_ Hc]. inversion_clear Hc as [|? ? Hcc]. intros ->. by vm_compute in Hcc.
Qed.

Lemma alt_not_in c : plain c = false → c ∉ lit "|()" → c ∉ T.
Proof.
  intros Hc Hn. unfold alt_text. cbn in Hn.
  rewrite not_elem_of_app, not_elem_of_cons, not_elem_of_app, not_elem_of_cons.
  split_and!; [by apply plain_not_in|set_solver|apply join_not_in; set_solver|set_solver|
    by apply plain_not_in].
Qed.

Lemma alt_simple_open : simple (pre ++ ["("%char]).
Proof. apply simple_app; [eauto with augyang|by repeat constructor]. Qed.

Lemma alt_simple_close p : simple p → simple (p ++ ")"%char :: post).
Proof.
  intros. apply simple_app; [done|]. constructor; [done|]. by apply plain_simple.
Qed.

Lemma alt_split q : T ++ q = (pre ++ ["("%char]) ++ J ++ ")"%char :: post ++ q.
Proof. unfold alt_text. rewrite <- !app_assoc. cbn. by rewrite <- app_assoc. Qed.

Lemma vs_pos : (0 < length vs)%nat.
Proof. destruct vs; [done|cbn; lia]. Qed.

Lemma vs_le_join : (length vs <= length J)%nat.
Proof.
  clear Hvsn Hl. induction Hvs as [|v [|w ws] [_ Hv] Hws IH]; [done| |].
  - cbn. destruct v; [done|cbn; lia].
  - rewrite join_bar_cons, length_app. cbn [length] in *. specialize (IH Hws). lia.
Qed.

#[local] Instance good_alt :
  GoodToken T alt_idents (Z.of_nat (length vs)) (Z.of_nat (length vs)).
Proof.
  pose proof vs_pos as Hpos. constructor.
  - apply opaque_app; [by apply opaque_plain|].
    replace (J ++ ")"%char :: post) with ((J ++ [")"%char]) ++ post)
      by (by rewrite <- app_assoc).
    rewrite app_comm_cons. apply opaque_app; [|by apply opaque_plain].
    apply opaque_paren, inner_join_bar, alt_plain.
  - unfold alt_text. by destruct pre.
  - apply Forall_forall. intros c Hc ->. revert Hc. apply alt_not_in; [done|].
    cbn. set_solver.
  - by apply alt_first.
  - destruct (decide (pre = [])) as [Hp|Hp].
    + rewrite alt_last by done. apply andb_false_r.
    + unfold alt_text. rewrite at_0_app by done. destruct pre; [done|].
      inversion_clear Hpre as [|? ? Hc]. destruct (plain_eqb _ Hc) as (_ & E & _). by rewrite at_0_cons, E.
  - intros r Hr. unfold ay_pattern_union_token_is_valid.
    rewrite nocase_first
      by (rewrite at_0_app by (unfold alt_text; by destruct pre); by apply alt_first).
    by rewrite alt_counters.
  - intros r b tran Hr Hb Hroom. unfold identifier_of_token. rewrite !memchr_app.
    rewrite (proj2 (strchr_None T "?")) by (apply alt_not_in; [done|cbn; set_solver]).
    rewrite bool_decide_eq_false_2 by (intros [? ?]; done). cbn [andb].
    rewrite nocase_first
      by (rewrite at_0_app by (unfold alt_text; by destruct pre); by apply alt_first).
    pose proof vs_le_join. unfold alt_idents in Hroom. rewrite length_fmap in Hroom.
    apply vbar_loop_alt; [done|done|rewrite length_app, alt_length; lia|lia|].
    by rewrite Nat.sub_0_r.
  - intros r fuel ret Hf Hr. rewrite alt_split in Hf |- *.
    destruct (count_alternatives vs _ _ fuel ret Hvs Hvsn alt_simple_open Hf)
      as (p' & f' & ret' & Hp' & Hf' & Hret & ->).
    rewrite app_comm_cons, app_assoc in Hf' |- *.
    destruct (count_piece_mid (p' ++ ")"%char :: post) r f' ret') as (f'' & Hf'' & ->);
      [|done|done| |].
    + apply simple_qm_text. by apply alt_simple_close.
    + rewrite qms_simple by (by apply alt_simple_close). lia.
    + exists f''. split; [done|]. rewrite qms_simple by (by apply alt_simple_close).
      f_equal. rewrite <- u64_add_l, Hret, u64_add_l. f_equal. lia.
  - intros fuel ret Hf. pose proof (alt_split []) as Hs. rewrite !app_nil_r in Hs.
    rewrite Hs in Hf |- *.
    destruct (count_alternatives vs _ _ fuel ret Hvs Hvsn alt_simple_open Hf)
      as (p' & f' & ret' & Hp' & Hf' & Hret & ->).
    assert (simple (p' ++ ")"%char :: post)) as Hsp by (by apply alt_simple_close).
    rewrite count_piece_last; [|by apply simple_not_in|done|rewrite qms_simple; [lia|done]].
    rewrite qms_simple by done. f_equal. rewrite <- u64_add_l, Hret, u64_add_l.
    f_equal. lia.
Qed.
End alternatives.

(** ** Case-insensitive words *)

Section nocase.
Context (l : cstr) (Hlow : Forall (λ c, islower c = true) l) (Hne : l ≠ []).
Context (Hl : (length l < AY_MAX_IDENT_SIZE)%nat).

Lemma lower_nocase c t : islower c = true →
  ay_ident_character_nocase ("["%char :: toupper c :: c :: "]"%char :: t) = true.
Proof. all_ascii c. Qed.

Lemma lower_plain c : islower c = true → plain c = true ∧ plain (toupper c) = true.
Proof. all_ascii c. Qed.

Lemma lower_not c d : islower c = true → d ∈ lit "|()?" → c ≠ d ∧ toupper c ≠ d.
Proof.
  intros Hc Hd. cbn in Hd. repeat setoid_rewrite elem_of_cons in Hd.
  destruct Hd as [->|[->|[->|[->|Hd]]]]; [revert Hc; all_ascii c..|by apply not_elem_of_nil in Hd].
Qed.

Lemma nocase_length m : length (nocase_text m) = (4 * length m)%nat.
Proof.
  induction m as [|c m IH]; [done|].
  change (nocase_text (c :: m)) with ("["%char :: toupper c :: c :: "]"%char :: nocase_text m).
  cbn [length]. rewrite IH. lia.
Qed.

Lemma nocase_drop k r :
  (k <= length l)%nat → drop (4 * k) (nocase_text l ++ r) = nocase_text (drop k l) ++ r.
Proof.
  clear. revert k. induction l as [|c m IH]; intros k Hk.
  - cbn in Hk. by replace k with 0 by lia.
  - destruct k as [|k]; [done|]. cbn in Hk. replace (4 * S k)%nat with (4 + 4 * k)%nat by lia.
    rewrite <- drop_drop. cbn. apply IH. lia.
Qed.

Lemma nocase_is_nocase m r :
  Forall (λ c, islower c = true) m → m ≠ [] → ay_ident_character_nocase (nocase_text m ++ r) = true.
Proof.
  intros Hm Hn. destruct Hm as [|c m Hc _]; [done|]. by apply lower_nocase.
Qed.

Lemma nocase_not_in d m :
  Forall (λ c, islower c = true) m → d ∈ lit "|()?" → d ∉ nocase_text m.
Proof.
  clear Hlow Hne Hl. intros Hm Hd. induction Hm as [|c m Hc _ IH]; [set_solver|].
  destruct (lower_not c d Hc Hd) as [H1 H2].
  change (nocase_text (c :: m))
    with ("["%char :: toupper c :: c :: "]"%char :: nocase_text m).
  assert (d ≠ "["%char ∧ d ≠ "]"%char) as [? ?] by (clear -Hd; cbn in Hd; set_solver).
  rewrite !not_elem_of_cons. naive_solver.
Qed.

Lemma nocase_at k j c r :
  l !! k = Some c →
  at_ (nocase_text l ++ r) (4 * k + j) = at_ (["["%char; toupper c; c; "]"%char] ++
    nocase_text (drop (S k) l) ++ r) j.
Proof.
  intros Hk. unfold at_. rewrite <- lookup_drop, nocase_drop
    by (apply lookup_lt_Some in Hk; lia).
  by rewrite (drop_S _ _ _ Hk).
Qed.

Lemma nocase_text_cons c m :
  nocase_text (c :: m) = ["["%char] ++ [toupper c] ++ [c] ++ ["]"%char] ++ nocase_text m.
Proof. done. Qed.

Lemma nocase_opaque m : Forall (λ c, islower c = true) m → opaque (nocase_text m).
Proof.
  induction 1 as [|c m Hc Hm IH]; [apply opaque_nil|]. rewrite nocase_text_cons.
  destruct (lower_plain c Hc) as [H1 H2]. apply plain_eqb in H1, H2.
  repeat apply opaque_app; try apply IH; try (by apply opaque_char).
  - destruct H2 as (?&?&?&?&_). by apply opaque_char.
  - destruct H1 as (?&?&?&?&_). by apply opaque_char.
Qed.

Lemma nocase_cstr m : Forall (λ c, islower c = true) m → is_cstr (nocase_text m).
Proof.
  induction 1 as [|c m Hc Hm IH]; [constructor|]. rewrite nocase_text_cons.
  destruct (lower_plain c Hc) as [[H1 _]%plain_eqb [H2 _]%plain_eqb].
  unfold is_cstr in *. repeat apply Forall_cons_2; [done|..|done|done];
    by apply Ascii.eqb_neq.
Qed.

(** The identifier made of the characters at offset [first] of every
    bracket. *)
Lemma copy_every_4th_spec first f r n k b out :
  (first = 1 ∧ f = toupper ∨ first = 2 ∧ f = id) →
  (k + n = length l)%nat → out = f <$> take k l → wrote b out →
  ∃ b', wrote b' (f <$> l) ∧
    copy_every_4th n (4 * k + first) k (nocase_text l ++ r) b = Ok (length l, b').
Proof.
  intros Hf. revert k b out. induction n as [|n IH]; intros k b out Hk -> Hb.
  - rewrite Nat.add_0_r in Hk. subst k. rewrite firstn_all in Hb. by exists b.
  - destruct (lookup_lt_is_Some_2 l k) as [c Hc]; [lia|].
    assert (length (f <$> take k l) = k) as Hlk by (rewrite length_fmap, length_take; lia).
    destruct (wrote_store b (f <$> take k l) (f c)) as (b1 & Hst & Hb1);
      [done|rewrite Hlk; lia|]. rewrite Hlk in Hst. cbn [copy_every_4th].
    assert (at_ (nocase_text l ++ r) (4 * k + first) = f c) as ->.
    { rewrite (nocase_at k first c) by done. by destruct Hf as [[-> ->]|[-> ->]]. }
    rewrite Hst, bind_Ok. replace (4 * k + first + 4)%nat with (4 * S k + first)%nat by lia.
    apply (IH (S k) b1 (f <$> take (S k) l)); [lia|done|].
    by rewrite (take_S_r _ _ _ Hc), fmap_app.
Qed.

Lemma copy_case_spec first f r b :
  (first = 1 ∧ f = toupper ∨ first = 2 ∧ f = id) → length b = AY_MAX_IDENT_SIZE →
  is_cstr (f <$> l) →
  ∃ b', holds b' (f <$> l) ∧
    copy_case first (nocase_text l ++ r) (length (nocase_text l)) b = Ok b'.
Proof.
  intros Hf Hb Hc. unfold copy_case. rewrite nocase_length.
  assert ((4 * length l - first + 3) / 4 = length l)%nat as ->.
  { assert (0 < length l)%nat by (destruct l; [done|cbn; lia]).
    symmetry. apply Nat.div_unique with (3 - first)%nat; destruct Hf as [[-> _]|[-> _]]; lia. }
  destruct (copy_every_4th_spec first f r (length l) 0 b []) as (b1 & Hb1 & Heq);
    [done..|by split; [|exists b]|].
  cbn [Nat.mul Nat.add] in Heq. rewrite Heq, bind_Ok.
  destruct (wrote_store b1 (f <$> l) NUL) as (b2 & Hst & Hb2);
    [done|by rewrite length_fmap|]. rewrite length_fmap in Hst.
  exists b2. split; [by apply wrote_holds|done].
Qed.

Lemma lower_words : plain_word l ∧ plain_word (toupper <$> l).
Proof.
  clear -Hlow. induction Hlow as [|c m Hc Hm IH]; [split; constructor|].
  destruct (lower_plain c Hc), (IH Hm). split; by constructor.
Qed.

Definition nocase_idents : list cstr := [toupper <$> l; l].

#[local] Instance good_nocase : GoodToken (nocase_text l) nocase_idents 3 1.
Proof.
  destruct lower_words as [Hp1 Hp2].
  assert (0 < length l)%nat as Hpos by (destruct l; [done|cbn; lia]).
  assert (∃ t, nocase_text l = "["%char :: t) as [t Ht] by (destruct l; [done|cbn; eauto]).
  assert (nocase_text l ≠ []) as Htn by (by rewrite Ht).
  assert (qms (nocase_text l) = 0) as Hq.
  { apply qms_none, nocase_not_in; [done|cbn; set_solver]. }
  constructor.
  - by apply nocase_opaque.
  - done.
  - by apply nocase_cstr.
  - by rewrite Ht.
  - by rewrite Ht.
  - intros r Hr. unfold ay_pattern_union_token_is_valid. rewrite nocase_is_nocase by done.
    apply forallb_forall. intros k Hk%in_seq. rewrite nocase_length in Hk.
    assert ((4 * length l - 1) / 4 = length l - 1)%nat as Hd.
    { symmetry. apply Nat.div_unique with 3; lia. }
    rewrite Hd in Hk. rewrite nocase_drop by lia. apply nocase_is_nocase.
    + by apply Forall_drop.
    + intros Hn. apply (f_equal length) in Hn. rewrite length_drop in Hn. cbn in Hn. lia.
  - intros r b tran Hr Hb Hroom. unfold identifier_of_token. rewrite !memchr_app.
    rewrite !(proj2 (strchr_None (nocase_text l) _))
      by (apply nocase_not_in; [done|cbn; set_solver]).
    rewrite !bool_decide_eq_false_2 by (intros [? ?]; done). cbn [andb].
    rewrite nocase_is_nocase by done. unfold ay_pattern_identifier_nocase.
    destruct (copy_case_spec 1 toupper r b) as (b1 & Hb1 & ->); [by left|done|
      eauto with augyang|]. rewrite bind_Ok.
    assert (toupper <$> l ≠ []) by (by destruct l).
    rewrite (identifier_add_plain tran b1 (toupper <$> l));
      [|done|done|rewrite nonempty_cons by done; eapply room_le; [done|cbn; lia]].
    rewrite bind_Ok.
    destruct (copy_case_spec 2 id r b1) as (b2 & Hb2 & ->); [by right|eauto with augyang|
      rewrite list_fmap_id; eauto with augyang|].
    rewrite list_fmap_id in Hb2. rewrite bind_Ok, !nonempty_cons by done.
    rewrite (identifier_add_plain _ b2 l);
      [|done|done|rewrite nonempty_cons by done; by apply room_add].
    exists b2. rewrite nonempty_cons, add_idents_app by done. eauto with augyang.
  - intros r [|fuel] ret Hf Hr; [lia|]. exists fuel.
    rewrite length_app in Hf. cbn [length] in Hf. split; [lia|]. cbn [idents_count_loop].
    rewrite strchr_app_l by (apply nocase_not_in; [done|cbn; set_solver]). cbn zeta.
    rewrite drop_app_ge by lia.
    replace (S (length (nocase_text l)) - length (nocase_text l))%nat with 1%nat by lia.
    cbn [drop]. rewrite (proj2 (Ascii.eqb_neq _ _)) by done. cbn [negb c_assert].
    rewrite bind_Ok. replace (nocase_text l ++ "|"%char :: r)
      with ((nocase_text l ++ ["|"%char]) ++ r) by (by rewrite <- app_assoc).
    replace (S (length (nocase_text l))) with (length (nocase_text l ++ ["|"%char]))
      by (rewrite length_app; cbn; lia).
    rewrite qm_variations_spec.
    assert (qms (nocase_text l ++ ["|"%char]) = 0) as ->.
    { by rewrite qms_app, Hq. }
    assert (ay_pattern_identifier_nocase_variations
      ((nocase_text l ++ ["|"%char]) ++ r) (length (nocase_text l ++ ["|"%char])) = 2%Z) as ->.
    { unfold ay_pattern_identifier_nocase_variations.
      assert (open_parens ((nocase_text l ++ ["|"%char]) ++ r)
        (length (nocase_text l ++ ["|"%char])) = 0) as -> by (by rewrite Ht).
      rewrite length_app, nocase_length. cbn [length drop].
      rewrite (proj2 (Nat.ltb_lt _ _)) by lia. cbn [negb].
      rewrite (proj2 (Nat.leb_le _ _)) by lia.
      change (drop 0 ?x) with x. by rewrite <- app_assoc, nocase_is_nocase. }
    cbn [Nat.ltb Nat.leb Z.of_nat]. rewrite u64_add_l. do 2 f_equal. lia.
  - intros fuel ret Hf.
    rewrite count_piece_last, Hq; [done| |done|rewrite Hq; lia].
    apply nocase_not_in; [done|cbn; set_solver].
Qed.
End nocase.

(** ** Words with optional parts *)

Fixpoint groups (its : list item) : nat :=
  match its with
  | [] => 0
  | OptGroup _ :: its' => S (groups its')
  | _ :: its' => groups its'
  end.

Section optional.
Context (its : list item) (Hok : Forall item_ok its).
Context (Hn : (0 < optionals its <= 5)%nat) (Hl : (longest its < AY_MAX_IDENT_SIZE)%nat).

Local Abbreviation T := (items_text its).
Local Abbreviation N := (2 ^ optionals its)%nat.

Lemma item_opaque it : item_ok it → opaque (item_text it).
Proof.
  destruct it as [c|c|s]; cbn; intros H.
  - by apply opaque_plain, Forall_singleton.
  - apply (opaque_app [c] ["?"%char]); [by apply opaque_plain, Forall_singleton|].
    by apply opaque_char.
  - assert (item_text (OptGroup s) = ("("%char :: s ++ [")"%char]) ++ ["?"%char]) as Heq
      by (cbn; by rewrite <- app_assoc). cbn in Heq. rewrite Heq.
    apply (opaque_app ("("%char :: s ++ [")"%char]) ["?"%char]); [|by apply opaque_char].
    by apply opaque_paren, opaque_inner, opaque_plain.
Qed.

Lemma item_qm_text it :
  item_ok it → qm_text (item_text it) ∧ qms (item_text it) = optionals [it].
Proof.
  assert (∀ s, plain_word s → qm_text s) as Hp by eauto with augyang.
  destruct it as [c|c|s]; cbn [item_text item_ok optionals]; intros H.
  - split; [by apply Hp, Forall_singleton|]. apply qms_simple, plain_simple.
    by apply Forall_singleton.
  - split; [constructor; [|by repeat constructor]|].
    + assert (qm_text [c]) as Hc by (by apply Hp, Forall_singleton). by inversion Hc.
    + change [c; "?"%char] with ([c] ++ ["?"%char]).
      rewrite qms_app, (qms_simple [c]); [done|].
      by apply plain_simple, Forall_singleton.
  - split.
    + constructor; [done|]. apply Forall_app_2; [by apply Hp|by repeat constructor].
    + change ("("%char :: s ++ lit ")?") with (["("%char] ++ s ++ lit ")?").
      rewrite !qms_app, (qms_simple s); [done|eauto with augyang].
Qed.

Lemma items_qm_text is_ :
  Forall item_ok is_ → qm_text (items_text is_) ∧ qms (items_text is_) = optionals is_.
Proof.
  induction 1 as [|it is_ Hi _ [IH1 IH2]]; [split; [constructor|done]|].
  rewrite items_text_cons, qms_app, IH2.
  destruct (item_qm_text it Hi) as [H1 ->].
  split; [by apply Forall_app_2|]. by destruct it.
Qed.

Lemma items_opaque is_ : Forall item_ok is_ → opaque (items_text is_).
Proof.
  induction 1 as [|it is_ Hi _ IH]; [apply opaque_nil|].
  rewrite items_text_cons. apply opaque_app; [by apply item_opaque|done].
Qed.

Lemma items_counters r qm opbr :
  token_end r →
  token_counters (length T) (T ++ r) qm 0 opbr = (qm + groups its, 0, opbr + groups its)%nat.
Proof.
  intros Hr. clear Hn Hl. revert qm opbr.
  induction Hok as [|it is_ Hi His IH]; intros qm opbr; [cbn; by rewrite !Nat.add_0_r|].
  specialize (IH His). rewrite items_text_cons, length_app, <- app_assoc.
  destruct it as [c|c|s]; cbn [item_ok] in Hi; cbn [groups].
  - rewrite (token_counters_plain [c]) by (by apply Forall_singleton). apply IH.
  - change (item_text (OptChar c)) with ([c] ++ ["?"%char]).
    rewrite length_app, <- app_assoc, <- Nat.add_assoc.
    rewrite (token_counters_plain [c]) by (by apply Forall_singleton).
    cbn [length Nat.add token_counters app]. rewrite at_0_cons.
    change (drop 1 (?x :: ?l)) with l. cbn [Ascii.eqb Bool.eqb]. apply IH.
  - change (item_text (OptGroup s)) with (["("%char] ++ s ++ lit ")?").
    rewrite !length_app, <- !app_assoc, <- !Nat.add_assoc.
    cbn [length Nat.add token_counters app]. rewrite at_0_cons.
    change (drop 1 (?x :: ?l)) with l. cbn [Ascii.eqb Bool.eqb].
    rewrite token_counters_plain by done. cbn. change (drop 0 ?l) with l.
    rewrite IH. apply triple_eq; lia.
Qed.

Lemma items_last is_ :
  Forall item_ok is_ → is_ ≠ [] →
  (at_ (items_text is_) (length (items_text is_) - 1) =c ")") = false.
Proof.
  intros His Hne. destruct is_ as [|it is_ _] using rev_ind; [done|].
  apply Forall_app in His as [_ Hi]. inversion_clear Hi as [|? ? Hit].
  assert (∃ t c, item_text it = t ++ [c] ∧ c ≠ ")"%char) as (t & c & Ht & Hc).
  { destruct it as [c|c|s]; cbn in Hit.
    - exists [], c. split; [done|]. intros ->. by vm_compute in Hit.
    - by exists [c], "?"%char.
    - exists ("("%char :: s ++ [")"%char]), "?"%char. cbn. by rewrite <- app_assoc. }
  unfold items_text. rewrite bind_app. cbn. rewrite app_nil_r, Ht, app_assoc.
  rewrite at_mid by (rewrite !length_app; cbn; lia). by apply Ascii.eqb_neq.
Qed.

Lemma items_nonempty : its ≠ [] ∧ T ≠ [].
Proof.
  destruct its as [|it is_]; [cbn in Hn; lia|]. split; [done|]. by destruct it.
Qed.

Lemma items_first_not c :
  plain c = false → c ≠ "("%char → (at_ T 0 =c c) = false.
Proof.
  intros Hc Hp. apply Ascii.eqb_neq. destruct Hok as [|it is_ Hi _]; [cbn in Hn; lia|].
  destruct it; cbn in Hi; cbn; congruence.
Qed.

Local Abbreviation from i k := (seq i k ≫= λ m, nonempty (emit its (Z.of_nat m) 0)).

Lemma variations_loop_spec r k i b tran :
  token_end r → length b = AY_MAX_IDENT_SIZE → (i + k <= N)%nat → room tran (length (from i k)) →
  ∃ b', length b' = AY_MAX_IDENT_SIZE ∧
    variations_loop k i (T ++ r) (length T) N b tran
    = Ok (0%Z, b', add_idents tran (from i k)).
Proof.
  intros Hr. revert i b tran. induction k as [|k IH]; intros i b tran Hb Hi Hroom.
  { exists b. split; [done|]. unfold add_idents. destruct tran. cbn. by rewrite app_nil_r. }
  assert (N <= 32)%nat as HN by (apply (Nat.pow_le_mono_r 2 _ 5); lia).
  cbn [variations_loop]. change (replicate N false) with (zeros N). rewrite clear_zeros.
  rewrite bitset_create_spec by (rewrite ?zeros_length; lia). rewrite bind_Ok.
  unfold ay_pattern_identifier_qm_.
  destruct (qm_loop_items (T ++ r) (Z.of_nat i) N its [] r 0 [] b) as (b1 & Hb1 & Heq);
    [done|by apply token_end_not|done|apply Nat.pow_gt_lin_r; lia|by split; [|exists b]|
     constructor|done|].
  cbn [length app] in Heq, Hb1. rewrite Heq, bind_Ok. cbn [Z.eqb negb].
  cbn [seq mbind list_bind] in Hroom. rewrite length_app in Hroom.
  rewrite (identifier_add_plain tran b1 (emit its (Z.of_nat i) 0));
    [|done|by apply emit_plain|eapply room_le; [done|lia]].
  rewrite bind_Ok.
  destruct (IH (S i) b1 (add_idents tran (nonempty (emit its (Z.of_nat i) 0))))
    as (b2 & Hb2 & ->); [eauto with augyang|lia|by apply room_add|].
  exists b2. split; [done|]. by rewrite add_idents_app.
Qed.

Lemma pow_N : Z.of_nat N = (2 ^ Z.of_nat (optionals its))%Z.
Proof. by rewrite Nat2Z.inj_pow. Qed.

Lemma has_qm : is_Some (strchr T "?").
Proof.
  destruct (strchr T "?") as [k|] eqn:E; [by exists k|]. exfalso.
  apply strchr_None, qms_none in E. rewrite (proj2 (items_qm_text its Hok)) in E. lia.
Qed.

(** The pattern may produce an identifier for every subset. *)
#[local] Instance good_optional :
  GoodToken T (subsets its N) (Z.of_nat N) (Z.of_nat N).
Proof.
  destruct items_nonempty as [Hne HTne]. destruct (items_qm_text its Hok) as [Hqm Hq].
  constructor.
  - by apply items_opaque.
  - done.
  - apply Forall_forall. intros c Hc ->. revert Hc. by apply qm_text_not_in.
  - by apply items_first_not.
  - rewrite (items_last its) by done. apply andb_false_r.
  - intros r Hr. unfold ay_pattern_union_token_is_valid.
    rewrite nocase_first by (rewrite at_0_app by done; by apply items_first_not).
    rewrite items_counters by done. cbn [Nat.add].
    rewrite Nat.eqb_refl. cbn. by rewrite andb_false_r.
  - intros r b tran Hr Hb Hroom. unfold identifier_of_token. rewrite !memchr_app.
    rewrite (bool_decide_eq_true_2 _ has_qm).
    rewrite (proj2 (strchr_None T "|")) by (by apply qm_text_not_in).
    rewrite (bool_decide_eq_false_2 (is_Some None)) by (intros [? ?]; done). cbn [andb].
    unfold ay_pattern_identifier_qm. rewrite qm_variations_spec, Hq.
    rewrite (proj2 (Nat.ltb_lt _ _)) by lia. rewrite <- pow_N.
    assert (N <= 32)%nat as HN by (apply (Nat.pow_le_mono_r 2 _ 5); lia).
    assert (0 < N)%nat by (apply Nat.neq_0_lt_0, Nat.pow_nonzero; lia).
    rewrite (proj2 (Z.eqb_neq _ _)) by lia. cbn [negb c_assert]. rewrite bind_Ok.
    rewrite (proj2 (Z.ltb_ge _ _)) by lia. rewrite Nat2Z.id.
    apply (variations_loop_spec r N 0 b tran Hr Hb); [lia|done].
  - intros r fuel ret Hf Hr. rewrite pow_N, <- Hq. apply count_piece_mid; [done..|lia].
  - intros fuel ret Hf. rewrite pow_N, <- Hq. apply count_piece_last; [|done|lia].
    by apply qm_text_not_in.
Qed.
End optional.
