(* ===== verification/PatternSpec.v ===== *)
(** What [src/parse_regex.c] promises about patterns: the identifiers of a
    pattern built from the four kinds of tokens, the bounds of the counting
    functions, the removal of parentheses, and the inputs on which the code
    leaves its buffers. *)
From S2P Require Import Prelude CString Common ParseRegex PatternFacts PatternTokens TokenCounts Bitset QmTokens TokenKinds.

(** ** Patterns *)

Inductive token :=
| Word (w : cstr)
| Alternatives (pre : cstr) (vs : list cstr) (post : cstr)
| Nocase (l : cstr)
| Optional (its : list item).

Definition token_ok (t : token) : Prop :=
  match t with
  | Word w => plain_word w ∧ w ≠ [] ∧ (length w < AY_MAX_IDENT_SIZE)%nat
  | Alternatives pre vs post =>
      plain_word pre ∧ plain_word post ∧ Forall (λ v, plain_word v ∧ v ≠ []) vs ∧ vs ≠ [] ∧
      (pre ≠ [] ∨ post ≠ []) ∧
      Forall (λ v, length pre + length v + length post < AY_MAX_IDENT_SIZE)%nat vs
  | Nocase l =>
      Forall (λ c, islower c = true) l ∧ l ≠ [] ∧ (length l < AY_MAX_IDENT_SIZE)%nat
  | Optional its =>
      Forall item_ok its ∧ (0 < optionals its <= 5)%nat ∧
      (longest its < AY_MAX_IDENT_SIZE)%nat
  end.

#[export] Instance token_ok_dec t : Decision (token_ok t).
Proof. destruct t; cbn; apply _. Defined.

(** The text of a token, the identifiers it stands for, and what the code counts
    for it in the middle and at the end of a pattern. *)
Definition token_tok (t : token) : tok :=
  match t with
  | Word w => Tok w [w] 1 1
  | Alternatives pre vs post =>
      Tok (alt_text pre vs post) ((λ v, pre ++ v ++ post) <$> vs)
        (Z.of_nat (length vs)) (Z.of_nat (length vs))
  | Nocase l => Tok (nocase_text l) [toupper <$> l; l] 3 1
  | Optional its =>
      Tok (items_text its) (subsets its (2 ^ optionals its))
        (Z.of_nat (2 ^ optionals its)) (Z.of_nat (2 ^ optionals its))
  end.

Definition pattern_text (ts : list token) : cstr := render (token_tok <$> ts).
Definition pattern_idents (ts : list token) : list cstr := idents (token_tok <$> ts).
Definition pattern_weight (ts : list token) : Z := weight (token_tok <$> ts).

Definition is_nocase (t : token) : bool := match t with Nocase _ => true | _ => false end.

(** ** Lemmas *)

Lemma token_good t : token_ok t → good (token_tok t).
Proof.
  destruct t as [w|pre vs post|l|its]; cbn; unfold good; cbn; intros H.
  - destruct H as (?&?&?). by apply good_word.
  - destruct H as (?&?&?&?&?&?). by apply (good_alt pre post vs).
  - destruct H as (?&?&?). by apply good_nocase.
  - destruct H as (?&?&?). by apply good_optional.
Qed.

Lemma tokens_good ts : Forall token_ok ts → Forall good (token_tok <$> ts).
Proof. intros H. apply Forall_fmap. eapply Forall_impl; [exact H|]. apply token_good. Qed.

Lemma nonempty_length s : (length (nonempty s) <= 1)%nat.
Proof. destruct s; cbn; lia. Qed.

Lemma subsets_length its n : (length (subsets its n) <= n)%nat.
Proof.
  unfold subsets. generalize 0 at 2. induction n as [|n IH]; intros i; [done|].
  cbn. rewrite length_app. specialize (IH (S i)).
  pose proof (nonempty_length (emit its (Z.of_nat i) 0)). cbn in *. lia.
Qed.

Lemma token_weight t :
  (Z.of_nat (length (tok_ids (token_tok t))) ≤ tok_w (token_tok t))%Z ∧
  (is_nocase t = false →
   Z.of_nat (length (tok_ids (token_tok t))) ≤ tok_wl (token_tok t))%Z.
Proof.
  destruct t as [w|pre vs post|l|its]; cbn [token_tok tok_ids tok_w tok_wl is_nocase].
  - done.
  - rewrite length_fmap. lia.
  - done.
  - pose proof (subsets_length its (2 ^ optionals its)). lia.
Qed.

(** What is counted is enough unless the last token is case-insensitive. *)
Lemma weight_enough ts :
  (∀ t, last ts = Some t → is_nocase t = false) →
  (Z.of_nat (length (pattern_idents ts)) ≤ pattern_weight ts)%Z.
Proof.
  unfold pattern_idents, pattern_weight, idents.
  induction ts as [|t [|u ts] IH]; intros Hlast; [done| |].
  - cbn. rewrite app_nil_r. apply token_weight. by apply Hlast.
  - specialize (IH Hlast). cbn in *. rewrite length_app.
    destruct (token_weight t) as [H _]. lia.
Qed.

Lemma u64_nonneg z : (0 ≤ u64 z)%Z.
Proof. apply Z.mod_pos_bound. lia. Qed.

(** ** Theorems *)

(** C1: a pattern of tokens that satisfy [token_ok] is translated to exactly the
    identifiers it stands for, in order, whatever the uninitialised buffer holds,
    and neither the allocated array nor the identifier buffer is left.  The tokens
    are non-empty words, words with alternatives in parentheses, words with at least one
    and at most five optional characters or groups, and case-insensitive words,
    the latter not at the end; no identifier that a token stands for has 64
    characters or more, nor has a token with all its optional parts, and the number
    of identifiers is below 2^64.  For longer optional tokens the code writes behind
    the buffer ([PatternBounds.qm_identifier_of_64_overflows]).  The documentation
    of [ay_pattern_identifier_qm_] says that an optional character without
    parentheses is not supported; here it is translated like a group. *)
Theorem create_substr_tokens ts o b tran :
  ts ≠ [] → Forall token_ok ts → (∀ t, last ts = Some t → is_nocase t = false) →
  (pattern_weight ts < 2 ^ 64)%Z →
  length b = AY_MAX_IDENT_SIZE → origin tran = o → text o = pattern_text ts →
  ay_transl_create_substr b tran
  = Ok (0%Z, AyTransl o (pattern_idents ts) (pattern_weight ts)).
Proof.
  intros Hne Hok Hlast Hw Hb Ho Ht. pose proof (weight_enough ts Hlast) as Hle.
  rewrite <- (u64_small (pattern_weight ts)) by lia. rewrite <- Ho.
  apply create_substr_good; [by apply tokens_good|by destruct ts|done|by rewrite Ho|].
  fold (pattern_weight ts) (pattern_idents ts). by rewrite u64_small by lia.
Qed.

Definition example_pattern : list token :=
  [Word (lit "alias"); Nocase (lit "on");
   Alternatives (lit "x-") [lit "a"; lit "bc"] (lit "y");
   Optional [Lit "a"; OptChar "b"; OptGroup (lit "cd")]].

Theorem create_substr_tokens_witness :
  ay_transl_create_substr (replicate 64 "z"%char)
    (AyTransl (CPtr 1 (lit "alias|[Oo][Nn]|x-(a|bc)y|ab?(cd)?")) [] 0)
  = Ok (0%Z, AyTransl (CPtr 1 (lit "alias|[Oo][Nn]|x-(a|bc)y|ab?(cd)?"))
      [lit "alias"; lit "ON"; lit "on"; lit "x-ay"; lit "x-bcy"; lit "a"; lit "ab";
       lit "acd"; lit "abcd"] 10).
Proof.
  apply (create_substr_tokens example_pattern); try done.
  - apply (bool_decide_unpack _). vm_compute. exact I.
  - intros t [= <-]. done.
Defined.

(** *** The last token is case-insensitive *)

Section last_nocase.
Context (l : cstr) (Hlow : Forall (λ c, islower c = true) l) (Hne : l ≠ []).
Context (Hl : (length l < AY_MAX_IDENT_SIZE)%nat).

(** With room for one identifier only, the second one is written outside. *)
Lemma nocase_overflow b tran :
  length b = AY_MAX_IDENT_SIZE →
  (substr_cap tran = Z.of_nat (length (substr tran)) + 1)%Z →
  identifier_of_token (nocase_text l) (length (nocase_text l)) b tran = Fault OutOfBounds.
Proof.
  intros Hb Hcap. destruct (lower_words l Hlow) as [Hp1 Hp2].
  unfold identifier_of_token, memchr. rewrite firstn_all.
  rewrite !(proj2 (strchr_None (nocase_text l) _))
    by (apply nocase_not_in; [done|cbn; set_solver]).
  rewrite !bool_decide_eq_false_2 by (intros [? ?]; done). cbn [andb].
  pose proof (nocase_is_nocase l [] Hlow Hne) as Hnc. rewrite app_nil_r in Hnc. rewrite Hnc.
  unfold ay_pattern_identifier_nocase.
  destruct (copy_case_spec l Hlow Hne Hl 1 toupper [] b) as (b1 & Hb1 & Heq1); [by left|done|
    eauto with augyang|].
  rewrite app_nil_r in Heq1. rewrite Heq1, bind_Ok.
  assert (toupper <$> l ≠ []) by (by destruct l).
  rewrite (identifier_add_plain tran b1 (toupper <$> l));
    [|done|done|rewrite nonempty_cons by done; unfold room; cbn; lia].
  rewrite bind_Ok.
  destruct (copy_case_spec l Hlow Hne Hl 2 id [] b1) as (b2 & Hb2 & Heq2); [by right|
    eauto with augyang|rewrite list_fmap_id; eauto with augyang|].
  rewrite app_nil_r in Heq2. rewrite Heq2, bind_Ok. rewrite list_fmap_id in Hb2.
  unfold ay_pattern_identifier_add. rewrite (cstr_of_holds _ _ Hb2), bind_Ok.
  rewrite bool_decide_eq_false_2 by done. rewrite nonempty_cons by done.
  cbn [add_idents substr substr_cap]. rewrite length_app. cbn [length].
  rewrite (proj2 (Z.ltb_ge _ _)) by lia. done.
Qed.
End last_nocase.

Lemma words_weight ws l :
  pattern_weight ((Word <$> ws) ++ [Nocase l]) = (Z.of_nat (length ws) + 1)%Z.
Proof.
  unfold pattern_weight. induction ws as [|w ws IH]; [done|].
  rewrite fmap_cons, <- app_comm_cons, fmap_cons. cbn [length].
  assert (weight (token_tok (Word w) :: (token_tok <$> (Word <$> ws) ++ [Nocase l]))
    = 1 + weight (token_tok <$> (Word <$> ws) ++ [Nocase l]))%Z as ->; [|lia].
  by destruct ws.
Qed.

Lemma words_idents ws : idents (token_tok <$> (Word <$> ws)) = ws.
Proof. induction ws as [|w ws IH]; [done|]. exact (f_equal (cons w) IH). Qed.

(** C2: a pattern of words that ends with a case-insensitive word makes the
    code write behind the array of identifiers, because the count ignores the
    case variations of the last token. *)
Theorem last_nocase_overflows ws l b tran :
  Forall (λ w, token_ok (Word w)) ws → token_ok (Nocase l) →
  (Z.of_nat (length ws) < 2 ^ 63)%Z → length b = AY_MAX_IDENT_SIZE →
  text (origin tran) = pattern_text ((Word <$> ws) ++ [Nocase l]) →
  ay_transl_create_substr b tran = Fault OutOfBounds.
Proof.
  intros Hws Hnl Hlen Hb Ho.
  assert (Forall good (token_tok <$> (Word <$> ws) ++ [Nocase l])) as Hg.
  { apply tokens_good, Forall_app_2; [by apply Forall_fmap|by apply Forall_singleton]. }
  rewrite (create_substr_prepared (token_tok <$> (Word <$> ws) ++ [Nocase l])); [|done| |done].
  2:{ by destruct ws. }
  fold (pattern_weight ((Word <$> ws) ++ [Nocase l])). rewrite words_weight.
  rewrite u64_small by lia. rewrite fmap_app in Hg |- *.
  apply Forall_app in Hg as [Hg _]. pose proof (render_length _ Hg) as Hrl.
  set (ts := token_tok <$> (Word <$> ws)) in *.
  assert (length ts = length ws) as Hlts by (unfold ts; by rewrite !length_fmap).
  assert (length ts < length (render (ts ++ (token_tok <$> [Nocase l]))))%nat as Hlt.
  { assert (Forall good (ts ++ (token_tok <$> [Nocase l]))) as Hall.
    { apply Forall_app_2; [done|]. apply Forall_singleton. by apply token_good. }
    pose proof (render_length _ Hall) as H. rewrite length_app, (length_fmap token_tok [Nocase l]) in H. cbn [length] in H. lia. }
  destruct (create_substr_prefix ts (token_tok <$> [Nocase l])
    (S (length (render (ts ++ (token_tok <$> [Nocase l])))) - length ts) b
    (AyTransl (origin tran) [] (Z.of_nat (length ws) + 1)) true) as (b' & f' & Hb' & Heq);
    [done|done|unfold room, ts; rewrite words_idents; cbn [substr substr_cap length Nat.add]; lia|].
  rewrite Nat.add_sub_assoc, Nat.add_comm, Nat.add_sub in Heq by lia. cbn iota in Heq.
  rewrite Heq. destruct (S _ - length ts)%nat as [|fuel] eqn:Ef; [lia|].
  cbn [create_substr_loop]. destruct Hnl as (Hlow & Hne & Hll).
  assert (good (token_tok (Nocase l))) as Hgl by (by apply token_good).
  destruct (union_token_head (token_tok (Nocase l)) [] f' Hgl) as (off & Htok & Hoff).
  change (token_tok <$> [Nocase l]) with [token_tok (Nocase l)].
  rewrite Htok, bind_Ok, Hoff. cbn [render_tail].
  rewrite (@gt_valid _ _ _ _ Hgl) by (by left). cbn [negb].
  rewrite app_nil_r. cbn [token_tok tok_text].
  rewrite nocase_overflow; [done|done|done|done|done|].
  cbn [add_idents substr substr_cap]. unfold ts. by rewrite words_idents.
Qed.

Theorem last_nocase_overflows_witness :
  ay_transl_create_substr (replicate 64 "z"%char)
    (AyTransl (CPtr 1 (lit "ab|c|[Oo][Nn]")) [] 0) = Fault OutOfBounds.
Proof.
  apply (last_nocase_overflows [lit "ab"; lit "c"] (lit "on")); try done;
    apply (bool_decide_unpack _); vm_compute; exact I.
Defined.
