(* ===== verification/PatternBounds.v ===== *)
(** The limits of [src/parse_regex.c]: how many question marks a token may
    have, where an identifier is too long for its buffer, which alternative an
    index selects, and that removing parentheses ends. *)
From S2P Require Import Prelude CString Common ParseRegex PatternFacts PatternTokens TokenCounts Bitset QmTokens TokenKinds PatternSpec.

(** ** Removing parentheses *)

Definition not_paren (c : ascii) : bool := negb ((c =c "(") || (c =c ")")).

(** The text without its parentheses. *)
Definition letters (s : cstr) : cstr := List.filter not_paren s.

Lemma scan_bounds s pos start par cnt idx :
  (start <= pos)%nat →
  let '(start', stop, _) := union_token_scan s pos start par cnt idx in
  (start' <= stop)%nat ∧ (stop <= pos + length s)%nat.
Proof.
  revert pos start par cnt. induction s as [|c s IH]; intros pos start par cnt Hs.
  { cbn. lia. }
  assert (∀ start' par' cnt', (start' <= S pos)%nat →
    let '(st, stop, _) := union_token_scan s (S pos) start' par' cnt' idx in
    (st <= stop)%nat ∧ (stop <= pos + length (c :: s))%nat) as H.
  { intros start' par' cnt' Hs'. specialize (IH (S pos) start' par' cnt' Hs').
    destruct (union_token_scan _ _ _ _ _ _) as [[st stop] ?]. cbn [length]. lia. }
  cbn [union_token_scan].
  repeat match goal with |- context [if ?b then _ else _] => destruct b end;
    try destruct par; try (apply H; lia); cbn [length]; try (split; lia);
    repeat match goal with |- context [if ?b then _ else _] => destruct b end;
    try (apply H; lia); cbn [length]; split; lia.
Qed.

Lemma union_token_bounds s idx off len :
  ay_pattern_union_token s idx = Ok (Some (off, len)) →
  (0 < len)%nat ∧ (off + len <= length s)%nat.
Proof.
  unfold ay_pattern_union_token. destruct (at_ s 0 =c NUL) eqn:E0; [done|].
  assert (0 < length s)%nat as Hpos by (destruct s; [done|cbn; lia]).
  set (o := if at_ s 0 =c "|" then 1 else 0).
  assert (o <= 1)%nat as Ho by (unfold o; case_match; lia).
  pose proof (scan_bounds (drop o s) 0 0 0 0 idx ltac:(lia)) as Hb.
  destruct (union_token_scan _ _ _ _ _ _) as [[st stop] cnt]. rewrite length_drop in Hb.
  intros H. inv_res. destruct (negb (cnt =? idx)%nat); [done|]. inv_res.
  apply Nat.ltb_lt in Ha0. destruct (_ && _); [done|]. inv_res. lia.
Qed.

Lemma remove_character_letters s i s' :
  ay_string_remove_character s i = Ok s' → not_paren (at_ s i) = false →
  letters s' = letters s ∧ length s = S (length s') ∧ (i < length s)%nat.
Proof.
  unfold ay_string_remove_character. intros H Hp. inv_res. apply Nat.ltb_lt in Ha.
  destruct (lookup_lt_is_Some_2 s i Ha) as [c Hc].
  unfold at_ in Hp. rewrite Hc in Hp. cbn in Hp.
  pose proof (take_drop_middle s i c Hc) as E.
  generalize dependent (take i s). generalize dependent (drop (S i) s). intros l2 l1 <-.
  unfold letters in *. rewrite !List.filter_app, !length_app. cbn. rewrite Hp.
  split_and!; [done|lia|]. by rewrite length_app in Ha.
Qed.

(** One turn of the loop shortens the text that is left by one at least. *)
Lemma remove_parentheses_loop_spec fuel s i :
  (length s - i < fuel)%nat →
  match remove_parentheses_loop fuel s i with
  | Ok s' => letters s' = letters s ∧ (length s' <= length s)%nat
  | Err _ => False
  | Fault f => f = AssertFailed
  end.
Proof.
  revert s i. induction fuel as [|fuel IH]; intros s i Hf; [lia|].
  cbn [remove_parentheses_loop].
  destruct (ay_pattern_union_token (drop i s) 0) as [[[off len]|]|e|f] eqn:Htok.
  4:{ cbn. revert Htok. unfold ay_pattern_union_token.
      repeat case_match; unfold c_assert; repeat case_match; naive_solver. }
  3:{ exfalso. revert Htok. unfold ay_pattern_union_token.
      repeat case_match; unfold c_assert; repeat case_match; naive_solver. }
  2:{ cbn. split; [done|lia]. }
  rewrite bind_Ok. apply union_token_bounds in Htok as [Hlen Hoff].
  rewrite length_drop in Hoff.
  destruct (_ && _ && _) eqn:E; [|apply IH; lia].
  apply andb_prop in E as [E Hcl]. apply andb_prop in E as [Ho Hc].
  apply Ascii.eqb_eq in Ho, Hc. set (p := (i + off)%nat) in *.
  destruct (ay_string_remove_character s (p + len - 1)) as [b1| |] eqn:H1.
  2:{ exfalso. revert H1. unfold ay_string_remove_character, c_assert. by destruct (_ <? _)%nat. }
  2:{ revert H1. unfold ay_string_remove_character, c_assert.
      rewrite (proj2 (Nat.ltb_lt _ _)) by lia. done. }
  rewrite bind_Ok.
  destruct (remove_character_letters _ _ _ H1) as (Hl1 & Hs1 & _); [by rewrite Hc|].
  assert (len ≠ 1) as Hlen1.
  { intros ->. rewrite Nat.add_sub in Hc. congruence. }
  assert (at_ b1 p = "("%char) as Ho1.
  { revert H1. unfold ay_string_remove_character. intros H1. inv_res.
    rewrite at_app_l by (rewrite length_take; lia). rewrite <- Ho. unfold at_.
    by rewrite lookup_take_lt by lia. }
  destruct (ay_string_remove_character b1 p) as [b2| |] eqn:H2.
  2:{ exfalso. revert H2. unfold ay_string_remove_character, c_assert. by destruct (_ <? _)%nat. }
  2:{ revert H2. unfold ay_string_remove_character, c_assert.
      rewrite (proj2 (Nat.ltb_lt _ _)) by lia. done. }
  rewrite bind_Ok.
  destruct (remove_character_letters _ _ _ H2) as (Hl2 & Hs2 & _); [by rewrite Ho1|].
  specialize (IH b2 i ltac:(lia)). rewrite Hl2, Hl1 in IH.
  destruct (remove_parentheses_loop fuel b2 i); [|done..].
  destruct IH. split; [done|lia].
Qed.

(** C3: the loop of [ay_pattern_remove_parentheses] ends for every pattern
    (the fuel is never used up); unless an assertion of the token scan fails it
    keeps all characters but parentheses, in order. *)
Theorem remove_parentheses_terminates patt :
  match ay_pattern_remove_parentheses patt with
  | Ok s => letters s = letters patt ∧ (length s <= length patt)%nat
  | Err _ => False
  | Fault f => f = AssertFailed
  end.
Proof. apply remove_parentheses_loop_spec. lia. Qed.

(** ** Selecting an alternative *)

(** C4: inside the parentheses of a token, [ay_pattern_union_token] with index
    [idx] gives exactly the text of the alternative [idx], and nothing when
    there are not so many. *)
Theorem union_token_selects vs q idx :
  Forall (λ v, plain_word v ∧ v ≠ []) vs → vs ≠ [] →
  match ay_pattern_union_token (join_bar vs ++ ")"%char :: q) idx with
  | Ok (Some (off, len)) =>
      vs !! idx = Some (take len (drop off (join_bar vs ++ ")"%char :: q)))
  | Ok None => vs !! idx = None
  | _ => False
  end.
Proof.
  intros Hvs Hne. rewrite (union_token_alt vs) by done.
  destruct (vs !! idx) as [v|] eqn:Hv; [|done].
  destruct (join_bar_drop vs idx v (")"%char :: q) Hv) as [r' ->].
  by rewrite take_app_length.
Qed.

Theorem union_token_selects_witness :
  ay_pattern_union_token (lit "ab|c|def)x") 2 = Ok (Some (5, 3)) ∧
  [lit "ab"; lit "c"; lit "def"] !! 2 = Some (take 3 (drop 5 (lit "ab|c|def)x"))).
Proof.
  split; [reflexivity|].
  pose proof (union_token_selects [lit "ab"; lit "c"; lit "def"] (lit "x") 2) as H.
  vm_compute in H. apply H; [|done]. repeat constructor; done.
Defined.

(** ** Question marks *)

(** The number of identifiers of a token with question marks is 2 to their
    number in 64-bit arithmetic, so it becomes 0 from 64 question marks on; six
    or more question marks give the internal error, 64 or more a failed
    assertion. *)
Theorem question_mark_limits s r b tran :
  ay_pattern_identifier_qm_variations (s ++ r) (length s)
  = (if (qms s <? 64)%nat then 2 ^ Z.of_nat (qms s) else 0)%Z ∧
  ((6 <= qms s < 64)%nat →
   ay_pattern_identifier_qm (s ++ r) (length s) b tran = Ok (AYE_INTERNAL_ERROR, b, tran)) ∧
  ((64 <= qms s)%nat →
   ay_pattern_identifier_qm (s ++ r) (length s) b tran = Fault AssertFailed).
Proof.
  split; [apply qm_variations_spec|]. unfold ay_pattern_identifier_qm.
  rewrite qm_variations_spec. split; intros Hq.
  - rewrite (proj2 (Nat.ltb_lt _ _)) by lia.
    assert (2 ^ 6 ≤ 2 ^ Z.of_nat (qms s))%Z by (apply Z.pow_le_mono_r; lia).
    rewrite (proj2 (Z.eqb_neq _ _)) by lia. cbn [negb c_assert]. rewrite bind_Ok.
    by rewrite (proj2 (Z.ltb_lt _ _)) by lia.
  - by rewrite (proj2 (Nat.ltb_ge _ _)) by lia.
Qed.

Theorem question_mark_limits_witness :
  ay_pattern_identifier_qm (lit "a?b?c?d?e?f?") 12 [] (AyTransl (CPtr 1 []) [] 0)
  = Ok (AYE_INTERNAL_ERROR, [], AyTransl (CPtr 1 []) [] 0).
Proof.
  apply (question_mark_limits (lit "a?b?c?d?e?f?") [] [] (AyTransl (CPtr 1 []) [] 0)).
  vm_compute. lia.
Defined.

(** ** Long identifiers *)

Lemma qm_loop_lits m tv n p w t g out b :
  plain_word w → (at_ t 0 =c "?") = false → wrote b out →
  (length out + length w <= AY_MAX_IDENT_SIZE)%nat →
  ∃ b', wrote b' (out ++ w) ∧
    identifier_qm_loop (length w + n) (length p) false (p ++ w ++ t) (zeros tv) (bits m tv)
      tv g (length out) b
    = identifier_qm_loop n (length p + length w) false (p ++ w ++ t) (zeros tv) (bits m tv)
        tv g (length out + length w) b'.
Proof.
  intros Hw Ht. revert p out b. induction Hw as [|c w Hc Hw IH]; intros p out b Hb Hl.
  { exists b. rewrite app_nil_r, !Nat.add_0_r. done. }
  cbn [length] in *. cbn [Nat.add app].
  destruct (qm_loop_lit (p ++ c :: w ++ t) m tv (length w + n) p c (w ++ t) g out b)
    as (b1 & Hb1 & ->); [done|done| |done|lia|].
  { destruct Hw as [|d w' Hd _]; [done|]. by plain_case Hd. }
  destruct (IH (p ++ [c]) (out ++ [c]) b1) as (b2 & Hb2 & Heq);
    [done|rewrite length_app; cbn; lia|].
  rewrite <- !app_assoc, !length_app in Heq. cbn [length app] in Heq.
  rewrite (Nat.add_1_r (length p)) in Heq. rewrite length_app. cbn [length].
  rewrite Heq. exists b2. rewrite <- app_assoc in Hb2. split; [done|]. f_equal; lia.
Qed.

(** 64 plain characters and an optional one pass the check of the identifier
    length, and the terminator is written behind the buffer. *)
Theorem qm_identifier_of_64_overflows w c r b tran :
  plain_word w → length w = AY_MAX_IDENT_SIZE → plain c = true →
  length b = AY_MAX_IDENT_SIZE →
  ay_pattern_identifier_qm (w ++ c :: "?"%char :: r) (length w + 2) b tran = Fault OutOfBounds.
Proof.
  intros Hw Hl Hc Hb. plain_case Hc.
  replace (w ++ c :: "?"%char :: r) with ((w ++ [c; "?"%char]) ++ r)
    by (by rewrite <- app_assoc).
  replace (length w + 2)%nat with (length (w ++ [c; "?"%char])) by (by rewrite length_app).
  unfold ay_pattern_identifier_qm. rewrite qm_variations_spec.
  assert (qms (w ++ [c; "?"%char]) = 1) as ->.
  { rewrite qms_app, (qms_simple w) by eauto with augyang. unfold qms.
    rewrite filter_cons, decide_False; [done|]. intros ->. done. }
  change (if (1 <? 64)%nat then _ else _) with 2%Z. cbn [Z.eqb negb c_assert].
  rewrite bind_Ok. rewrite (proj2 (Z.ltb_ge _ _)) by lia. change (Z.to_nat 2) with 2%nat.
  cbn [variations_loop]. change (replicate 2 false) with (zeros 2).
  rewrite clear_zeros, (bitset_create_spec (Z.of_nat 0)) by (done || lia). rewrite bind_Ok.
  unfold ay_pattern_identifier_qm_.
  destruct (qm_loop_lits (Z.of_nat 0) 2 2 [] w (c :: "?"%char :: r) 0 [] b) as (b1 & Hb1 & Heq);
    [done|done|by split; [|exists b]|by rewrite Hl|].
  cbn [length app Nat.add] in Heq.
  replace ((w ++ [c; "?"%char]) ++ r) with (w ++ c :: "?"%char :: r)
    by (by rewrite <- app_assoc).
  rewrite length_app. cbn [length]. rewrite Heq. clear Heq. cbn [identifier_qm_loop].
  rewrite at_mid, at_mid_S, !at_0_cons by done. rewrite H0, H1.
  change ("?"%char =c "?"%char) with true. cbn [andb negb]. rewrite andb_false_r.
  rewrite Hl. destruct Hb1 as [Hb1 _]. rewrite store_out by (rewrite Hb1; lia). done.
Qed.

Theorem qm_identifier_of_64_overflows_witness :
  ay_pattern_identifier_qm (replicate 64 "a"%char ++ lit "b?") 66 (replicate 64 "z"%char)
    (AyTransl (CPtr 1 []) [] 2) = Fault OutOfBounds.
Proof.
  apply (qm_identifier_of_64_overflows (replicate 64 "a"%char) "b" []); try done.
  apply (bool_decide_unpack _). vm_compute. exact I.
Defined.

Section vbar_qm.
Context (pre v : cstr) (vs : list cstr) (r : cstr).
Context (Hpre : plain_word pre) (Hvs : Forall (λ v, plain_word v ∧ v ≠ []) (v :: vs)).
Context (Hr : token_end r).

Local Abbreviation J := (join_bar (v :: vs)).
Local Abbreviation T := (pre ++ "("%char :: J ++ lit ")?").

Lemma join_not c : plain c = false → c ≠ "|"%char → c ∉ J.
Proof. intros. by apply (join_not_in (v :: vs)). Qed.

Lemma vbar_qm_length : length T = (length pre + length J + 3)%nat.
Proof. rewrite length_app. cbn [length]. rewrite length_app. cbn. lia. Qed.

Lemma vbar_qm_memchr c s t : T = s ++ c :: t → c ∉ s → memchr (T ++ r) c (length T) = Some (length s).
Proof. intros -> Hc. rewrite memchr_app. by apply strchr_app_l. Qed.

Lemma vbar_qm_open : memchr (T ++ r) "(" (length T) = Some (length pre).
Proof. apply (vbar_qm_memchr _ _ (J ++ lit ")?")); [done|]. not_in_plain. Qed.

Lemma vbar_qm_close : memchr (T ++ r) ")" (length T) = Some (length pre + 1 + length J)%nat.
Proof.
  rewrite (vbar_qm_memchr ")" (pre ++ "("%char :: J) ["?"%char]).
  - rewrite length_app. cbn [length]. f_equal. lia.
  - by rewrite <- app_assoc.
  - rewrite not_elem_of_app, not_elem_of_cons. split_and!; [not_in_plain|done|by apply join_not].
Qed.

Lemma vbar_qm_mark : memchr (T ++ r) "?" (length T) = Some (length pre + 2 + length J)%nat.
Proof.
  rewrite (vbar_qm_memchr "?" (pre ++ "("%char :: J ++ [")"%char]) []).
  - rewrite length_app. cbn [length]. rewrite length_app. cbn [length]. f_equal. lia.
  - by rewrite <- app_assoc, <- app_comm_cons, <- app_assoc.
  - rewrite not_elem_of_app, not_elem_of_cons, not_elem_of_app.
    split_and!; [not_in_plain|done|by apply join_not|by intros ?%list_elem_of_singleton].
Qed.

(** The first alternative does not fit behind the prefix. *)
Lemma vbar_qm_limit b :
  length b = AY_MAX_IDENT_SIZE → (length pre < AY_MAX_IDENT_SIZE)%nat →
  (AY_MAX_IDENT_SIZE <= length pre + length v)%nat →
  ∃ b', holds b' pre ∧
    ay_pattern_identifier_vbar_ (T ++ r) (length T) 0 b = Ok (AYE_IDENT_LIMIT, b').
Proof.
  intros Hb Hp Hv. unfold ay_pattern_identifier_vbar_.
  rewrite at_mid, token_end_cases by done. cbn [c_assert]. rewrite bind_Ok.
  destruct (store_0_holds b Hb) as (b0 & -> & Hb0).
  rewrite bind_Ok, vbar_qm_open, vbar_qm_close.
  assert (at_ (T ++ r) (S (length pre + 1 + length J)) = "?"%char) as ->.
  { rewrite (app_comm_cons _ _ "("%char).
    replace ((pre ++ ("("%char :: J) ++ lit ")?") ++ r)
      with ((pre ++ ("("%char :: J)) ++ ")"%char :: "?"%char :: r)
      by (by rewrite <- !app_assoc).
    rewrite at_mid_S; [done|]. rewrite length_app. cbn [length]. lia. }
  rewrite Ascii.eqb_refl, vbar_qm_length. rewrite (proj2 (Nat.ltb_ge _ _)) by lia.
  cbn [default from_option id]. rewrite bool_decide_true by done. cbn [andb].
  rewrite (proj2 (Nat.leb_gt _ _)) by done.
  assert (T ++ r = pre ++ "("%char :: J ++ ")"%char :: "?"%char :: r) as HT
    by (rewrite <- app_assoc, <- app_comm_cons, <- app_assoc; done).
  destruct (bind_holds b0 [] pre Hb0 ltac:(eauto with augyang) ltac:(cbn; lia)
    ("("%char :: J ++ ")"%char :: "?"%char :: r)) as (b1 & Hst1 & Hb1).
  exists b1. split; [done|]. rewrite HT, Hst1, bind_Ok.
  assert (drop (S (length pre)) (pre ++ "("%char :: J ++ ")"%char :: "?"%char :: r)
    = J ++ ")"%char :: "?"%char :: r) as ->.
  { rewrite drop_app_ge by lia. by replace (S (length pre) - length pre)%nat with 1%nat by lia. }
  rewrite (union_token_alt (v :: vs)) by done. rewrite bind_Ok. cbn [lookup list_lookup].
  by rewrite (proj2 (Nat.leb_le _ _)).
Qed.
End vbar_qm.

(** A token "pre(v|...)?" with a prefix of 32 to 63 characters whose first
    alternative makes the identifier too long: the code of the inner function
    is ignored, and the prefix is appended to itself past the buffer. *)
Theorem vbar_qm_overflows pre v vs r b tran :
  plain_word pre → Forall (λ v, plain_word v ∧ v ≠ []) (v :: vs) → token_end r →
  (32 <= length pre < AY_MAX_IDENT_SIZE)%nat →
  (AY_MAX_IDENT_SIZE <= length pre + length v)%nat → length b = AY_MAX_IDENT_SIZE →
  let T := pre ++ "("%char :: join_bar (v :: vs) ++ lit ")?" in
  ay_pattern_identifier_vbar_qm (T ++ r) (length T) b tran = Fault OutOfBounds.
Proof.
  intros Hpre Hvs Hr Hp Hv Hb T. unfold ay_pattern_identifier_vbar_qm. unfold T.
  rewrite vbar_qm_mark, vbar_qm_open by done.
  unfold ay_pattern_identifier_vbar.
  destruct (length (_ ++ r) + 2)%nat as [|fuel] eqn:Ef; [lia|]. cbn [identifier_vbar_loop].
  destruct (vbar_qm_limit pre v vs r Hpre Hvs Hr b Hb) as (b1 & Hb1 & ->); [lia|done|].
  rewrite bind_Ok. cbn [Z.eqb AYE_IDENT_LIMIT AYE_IDENT_NOT_FOUND Pos.eqb negb].
  rewrite bind_Ok, vbar_qm_length, (proj2 (Nat.eqb_eq _ _)) by lia. cbn [deref].
  rewrite !bind_Ok. rewrite (proj2 (Nat.leb_gt _ _)) by lia.
  destruct Hb1 as (Hc & Hl & r' & ->). rewrite length_app in Hl. cbn [length] in Hl.
  rewrite strncat_overflows; [done|done|].
  rewrite <- app_assoc, drop_0, take_app_length. unfold AY_MAX_IDENT_SIZE in *. lia.
Qed.

Theorem vbar_qm_overflows_witness :
  ay_pattern_identifier_vbar_qm (replicate 40 "p"%char ++ lit "(" ++ replicate 30 "v"%char
    ++ lit "|x)?") 75 (replicate 64 "z"%char) (AyTransl (CPtr 1 []) [] 2) = Fault OutOfBounds.
Proof.
  pose proof (vbar_qm_overflows (replicate 40 "p"%char) (replicate 30 "v"%char) [lit "x"] []
    (replicate 64 "z"%char) (AyTransl (CPtr 1 []) [] 2)) as H.
  cbn zeta in H. rewrite app_nil_r in H.
  apply H; [apply (bool_decide_unpack _); vm_compute; exact I
           |apply (bool_decide_unpack _); vm_compute; exact I|by left|vm_compute; lia|vm_compute; lia|done].
Defined.
