(* ===== verification/Preorder.v ===== *)
(** Trees stored in an array in preorder.  [struct ay_ynode], [struct ay_lnode]
    and [struct ay_pnode] of [src/common.h] and [src/terms.h] begin with the
    same four members, [parent], [next], [child] and [descendants]; a [node] has
    them and the rest of the structure as [data].  Pointers between elements of
    the array are indices.  [tree_correction] is [ay_ynode_tree_correction] of
    [src/augyang.c] and [ay_pnode_tree_correction] of [src/terms.c], which have
    the same body.  [encf] is the array that represents a forest of rose trees,
    [plug] puts a forest into a context of ancestors. *)
From S2P Require Import Prelude.

(** ** Nodes and blocks of memory *)

Record node (P : Type) := Node {
  parent : option nat;
  next : option nat;
  child : option nat;
  descendants : Z;
  data : P
}.
Arguments Node {_} _ _ _ _ _.
Arguments parent {_} _.
Arguments next {_} _.
Arguments child {_} _.
Arguments descendants {_} _.
Arguments data {_} _.

#[export] Instance node_eq_dec `{EqDecision P} : EqDecision (node P).
Proof. solve_decision. Defined.

(** [memcpy] of the elements [s] to index [i], and [memmove] of [n] elements. *)
Definition mwrite {A} (m : list A) (i : nat) (s : list A) : res (list A) :=
  if decide (i + length s <= length m)%nat
  then Ok (take i m ++ s ++ drop (i + length s) m)
  else Fault OutOfBounds.

Definition mread {A} (m : list A) (i n : nat) : res (list A) :=
  if decide (i + n <= length m)%nat then Ok (take n (drop i m)) else Fault OutOfBounds.

Definition memmove {A} (m : list A) (dst src n : nat) : res (list A) :=
  s ← mread m src n; mwrite m dst s.

Section node.
Context {P : Type}.
Implicit Types (n : node P) (a : list (node P)).

Definition set_parent (x : option nat) n : node P :=
  Node x (next n) (child n) (descendants n) (data n).
Definition set_next (x : option nat) n : node P :=
  Node (parent n) x (child n) (descendants n) (data n).
Definition set_child (x : option nat) n : node P :=
  Node (parent n) (next n) x (descendants n) (data n).
Definition set_descendants (x : Z) n : node P :=
  Node (parent n) (next n) (child n) x (data n).
Definition set_data (x : P) n : node P :=
  Node (parent n) (next n) (child n) (descendants n) x.

(** An assignment to a member of the element [i]. *)
Definition modify a (i : nat) (f : node P → node P) : res (list (node P)) :=
  n ← fetch a i; store a i (f n).

(** The number of elements of a subtree below its root, as an offset. *)
Definition below n : nat := Z.to_nat (descendants n).

(** ** Correction of the pointers *)

(** The [while] loop over the children of [p], which has [desc] descendants. *)
Fixpoint correct_children (fuel : nat) a (p : nat) (desc : Z) (iter : option nat) (sum : Z)
  : res (list (node P)) :=
  match iter with
  | None => Ok a
  | Some i =>
      match fuel with
      | 0 => Fault OutOfFuel
      | S fuel' =>
          n ← fetch a i;
          let sum' := u32 (sum + u32 (descendants n + 1)) in
          let nx := if (sum' =? desc)%Z then None else Some (i + below n + 1)%nat in
          a' ← store a i
            (Node (Some p) nx (if (descendants n =? 0)%Z then None else Some (S i))
               (descendants n) (data n));
          correct_children fuel' a' p desc nx sum'
      end
  end.

(** The [LY_ARRAY_FOR] loop over [n] elements from [p] on. *)
Fixpoint correct_from (n p : nat) a : res (list (node P)) :=
  match n with
  | 0 => Ok a
  | S n' =>
      nd ← fetch a p;
      let first := if (descendants nd =? 0)%Z then None else Some (S p) in
      a1 ← store a p (set_child first nd);
      a2 ← correct_children (length a) a1 p (descendants nd) first 0;
      correct_from n' (S p) a2
  end.

(** The array has [count] elements in use. *)
Definition tree_correction (count : nat) a : res (list (node P)) := correct_from count 0 a.

(** ** Following the pointers *)

(** [for (iter = p; iter; iter = iter->parent) iter->descendants += k]. *)
Fixpoint add_descendants (fuel : nat) a (p : option nat) (k : Z) : res (list (node P)) :=
  match p with
  | None => Ok a
  | Some i =>
      match fuel with
      | 0 => Fault OutOfFuel
      | S fuel' =>
          n ← fetch a i;
          a' ← store a i (set_descendants (u32 (descendants n + k)) n);
          add_descendants fuel' a' (parent n) k
      end
  end.

(** [for (iter = iter; iter; iter = iter->parent)]: the first result of [body]. *)
Fixpoint climb {A} (fuel : nat) a (iter : option nat) (body : nat → node P → option A)
  : res (option A) :=
  match iter with
  | None => Ok None
  | Some i =>
      match fuel with
      | 0 => Fault OutOfFuel
      | S fuel' =>
          n ← fetch a i;
          match body i n with
          | Some r => Ok (Some r)
          | None => climb fuel' a (parent n) body
          end
      end
  end.

(** [for (last = i; last->next; last = last->next)]. *)
Fixpoint last_from (fuel : nat) a (i : nat) : res nat :=
  match fuel with
  | 0 => Fault OutOfFuel
  | S fuel' =>
      n ← fetch a i;
      match next n with
      | None => Ok i
      | Some j => last_from fuel' a j
      end
  end.

(** The indices of the siblings from [i] on. *)
Fixpoint siblings_from (fuel : nat) a (i : option nat) : res (list nat) :=
  match i with
  | None => Ok []
  | Some i =>
      match fuel with
      | 0 => Fault OutOfFuel
      | S fuel' => n ← fetch a i; l ← siblings_from fuel' a (next n); Ok (i :: l)
      end
  end.
End node.

(** ** Rose trees *)

#[warnings="-register-all"]
Inductive tree (P : Type) := T (d : P) (ts : list (tree P)).
Arguments T {_} _ _.

Section tree_ind.
Context {P : Type} (Q : tree P → Prop).
Context (H : ∀ d ts, Forall Q ts → Q (T d ts)).

Fixpoint tree_nested_ind (t : tree P) : Q t :=
  match t with
  | T d ts => H d ts ((fix go l : Forall Q l :=
      match l with
      | [] => Forall_nil_2 Q
      | t' :: l' => Forall_cons_2 Q t' l' (tree_nested_ind t') (go l')
      end) ts)
  end.
End tree_ind.

Section tree.
Context {P : Type}.
Implicit Types (t : tree P) (ts us f : list (tree P)).

Definition root_data t : P := match t with T d _ => d end.
Definition subtrees t : list (tree P) := match t with T _ ts => ts end.

Fixpoint size t : nat :=
  match t with
  | T _ ts => S ((fix go l := match l with [] => 0 | t' :: l' => (size t' + go l')%nat end) ts)
  end.
Fixpoint sizes ts : nat := match ts with [] => 0 | t :: ts' => (size t + sizes ts')%nat end.

Fixpoint tmap {A B} (f : A → B) (t : tree A) : tree B :=
  match t with T d ts => T (f d) (map (tmap f) ts) end.

(** Preorder without pointers: the number of descendants and the data. *)
Fixpoint flat t : list (Z * P) :=
  match t with
  | T d ts =>
      (Z.of_nat (sizes ts), d)
      :: (fix go l := match l with [] => [] | t' :: l' => flat t' ++ go l' end) ts
  end.
Fixpoint flats ts : list (Z * P) := match ts with [] => [] | t :: ts' => flat t ++ flats ts' end.

(** The array of a forest: [b] is the index of its first node, [p] the parent
    of its roots, [nx] what follows the last root. *)
Definition first_index (b : nat) ts : option nat := match ts with [] => None | _ => Some b end.
Definition after ts (b : nat) (nx : option nat) : option nat :=
  match ts with [] => nx | _ => Some b end.

Fixpoint enc (b : nat) (p nx : option nat) t : list (node P) :=
  match t with
  | T d ts =>
      Node p nx (first_index (S b) ts) (Z.of_nat (sizes ts)) d
      :: (fix go b' l := match l with
          | [] => []
          | t' :: l' =>
              enc b' (Some b) (after l' (b' + size t') None) t' ++ go (b' + size t')%nat l'
          end) (S b) ts
  end.
Fixpoint encf (b : nat) (p nx : option nat) ts : list (node P) :=
  match ts with
  | [] => []
  | t :: ts' => enc b p (after ts' (b + size t) nx) t ++ encf (b + size t) p nx ts'
  end.

(** A context: for every ancestor of the hole, the innermost first, its data and
    the subtrees before and behind the hole. *)
Record frame := Frame { fdata : P; before : list (tree P); behind : list (tree P) }.

Fixpoint plug (c : list frame) f : list (tree P) :=
  match c with
  | [] => f
  | Frame d ls rs :: c' => plug c' [T d (ls ++ f ++ rs)]
  end.

(** The index of the hole and of its parent. *)
Fixpoint hole (c : list frame) : nat :=
  match c with
  | [] => 0
  | Frame _ ls _ :: c' => (S (hole c') + sizes ls)%nat
  end.
Definition hole_parent (c : list frame) : option nat :=
  match c with [] => None | _ :: c' => Some (hole c') end.

(** What is before the hole, filled with [n] nodes, and behind it. *)
Fixpoint cpre (c : list frame) (n : nat) : list (Z * P) :=
  match c with
  | [] => []
  | Frame d ls rs :: c' =>
      cpre c' (S (sizes ls + n + sizes rs))
      ++ (Z.of_nat (sizes ls + n + sizes rs), d) :: flats ls
  end.
Fixpoint cpost (c : list frame) : list (Z * P) :=
  match c with [] => [] | Frame _ _ rs :: c' => flats rs ++ cpost c' end.
End tree.
Arguments frame : clear implicits.
Arguments Frame {_} _ _ _.

Definition strip {P} (n : node P) : Z * P := (descendants n, data n).
