(* ===== verification/PreorderFacts.v ===== *)
(** Facts about [Preorder]: the array of a forest, the correction of the
    pointers, contexts, and following the pointers to the ancestors. *)
From S2P Require Import Prelude Preorder.

Section facts.
Context {P : Type}.
Implicit Types (t : tree P) (ts us f : list (tree P)) (a : list (node P)) (c : list (frame P)).

(** ** Sizes and preorder *)

Lemma size_T (d : P) ts : size (T d ts) = S (sizes ts).
Proof. done. Qed.

Lemma flat_T (d : P) ts : flat (T d ts) = (Z.of_nat (sizes ts), d) :: flats ts.
Proof. done. Qed.

Lemma enc_T b p nx (d : P) ts :
  enc b p nx (T d ts)
  = Node p nx (first_index (S b) ts) (Z.of_nat (sizes ts)) d :: encf (S b) (Some b) None ts.
Proof.
  cbn [enc]. f_equal. generalize (S b). induction ts as [|t ts IH]; intros b'; [done|].
  cbn [encf]. by rewrite IH.
Qed.

Lemma sizes_app ts us : sizes (ts ++ us) = (sizes ts + sizes us)%nat.
Proof. induction ts as [|t ts IH]; cbn; [done|]. rewrite IH. lia. Qed.

Lemma flats_app ts us : flats (ts ++ us) = flats ts ++ flats us.
Proof. induction ts as [|t ts IH]; cbn; [done|]. by rewrite IH, app_assoc. Qed.

Lemma size_pos t : (0 < size t)%nat.
Proof. destruct t. rewrite size_T. lia. Qed.

Lemma length_le_sizes ts : (length ts <= sizes ts)%nat.
Proof. induction ts as [|t ts IH]; cbn; [lia|]. pose proof (size_pos t). lia. Qed.

Lemma sizes_0 ts : sizes ts = 0 → ts = [].
Proof. destruct ts as [|t ts]; [done|]. cbn. pose proof (size_pos t). lia. Qed.

Lemma after_app ts us b nx : after (ts ++ us) b nx = after ts b (after us b nx).
Proof. by destruct ts. Qed.

Lemma encf_app b p nx ts us :
  encf b p nx (ts ++ us)
  = encf b p (after us (b + sizes ts) nx) ts ++ encf (b + sizes ts) p nx us.
Proof.
  revert b. induction ts as [|t ts IH]; intros b; cbn.
  - by rewrite Nat.add_0_r.
  - rewrite IH, <- app_assoc, Nat.add_assoc. do 2 f_equal.
    destruct ts as [|u ts]; [|done]. cbn. by rewrite Nat.add_0_r.
Qed.

Lemma strip_encf b p nx ts : strip <$> encf b p nx ts = flats ts.
Proof.
  enough (∀ n, (sizes ts < n)%nat → ∀ b p nx, strip <$> encf b p nx ts = flats ts) by eauto.
  intros n. revert ts. induction n as [|n IH]; intros ts Hn b' p' nx'; [lia|].
  destruct ts as [|[d cs] ts]; [done|]. cbn [encf flats sizes] in *. rewrite size_T in *.
  rewrite fmap_app, enc_T, fmap_cons, flat_T, (IH ts) by lia.
  by rewrite (IH cs) by lia.
Qed.

Lemma length_flats ts : length (flats ts) = sizes ts.
Proof.
  enough (∀ n, (sizes ts < n)%nat → length (flats ts) = sizes ts) by eauto.
  intros n. revert ts. induction n as [|n IH]; intros ts Hn; [lia|].
  destruct ts as [|[d cs] ts]; [done|]. cbn [flats sizes] in *. rewrite size_T, flat_T in *.
  rewrite length_app, (IH ts) by lia. cbn [length]. rewrite (IH cs) by lia. lia.
Qed.

Lemma length_encf b p nx ts : length (encf b p nx ts) = sizes ts.
Proof. by rewrite <- (length_fmap strip), strip_encf, length_flats. Qed.

Lemma encf_cons b p nx (d : P) cs ts :
  encf b p nx (T d cs :: ts)
  = Node p (after ts (b + S (sizes cs)) nx) (first_index (S b) cs) (Z.of_nat (sizes cs)) d
    :: encf (S b) (Some b) None cs ++ encf (b + S (sizes cs)) p nx ts.
Proof. cbn [encf]. by rewrite enc_T, size_T. Qed.

Lemma modify_mid pre n post i (f : node P → node P) :
  i = length pre → modify (pre ++ n :: post) i f = Ok (pre ++ f n :: post).
Proof.
  intros ->. unfold modify. rewrite (fetch_Some _ _ n) by (by apply lookup_app_mid).
  rewrite bind_Ok, store_Ok by (rewrite length_app; cbn; lia). by rewrite insert_app_mid.
Qed.

Lemma set_last_next (pre : list (node P)) b p nx y ls u post :
  modify (pre ++ encf b p nx (ls ++ [u]) ++ post) (length pre + sizes ls) (set_next y)
  = Ok (pre ++ encf b p y (ls ++ [u]) ++ post).
Proof.
  rewrite !encf_app. cbn [after encf]. rewrite !app_nil_r. destruct u as [d us]. rewrite !enc_T.
  rewrite <- !app_assoc, <- !app_comm_cons, !(app_assoc pre).
  by rewrite modify_mid by (rewrite length_app, length_encf; done).
Qed.

(** ** Correction of the pointers *)

(** An array segment that starts at [b]: the roots of the forest are complete,
    with parent [p], and below them only the preorder is right. *)
Inductive half (p : nat) : nat → list (tree P) → list (node P) → Prop :=
| half_nil b : half p b [] []
| half_cons b d cs ts raw rest :
    strip <$> raw = flats cs → half p (b + S (sizes cs)) ts rest →
    half p b (T d cs :: ts)
      (Node (Some p) (after ts (b + S (sizes cs)) None) (first_index (S b) cs)
         (Z.of_nat (sizes cs)) d :: raw ++ rest).

Lemma half_length p b ts a : half p b ts a → length a = sizes ts.
Proof.
  induction 1 as [|b d cs ts raw rest Hraw Hh IH]; [done|]. cbn [length sizes].
  rewrite length_app, IH, size_T, <- (length_flats cs), <- Hraw, length_fmap. lia.
Qed.

Lemma split_raw raw d cs ts :
  strip <$> raw = flats (T d cs :: ts) →
  ∃ x y z rc rest, raw = Node x y z (Z.of_nat (sizes cs)) d :: rc ++ rest ∧
    strip <$> rc = flats cs ∧ strip <$> rest = flats ts.
Proof.
  cbn [flats]. rewrite flat_T. intros H. destruct raw as [|[x y z n d'] raw]; [done|].
  cbn in H. injection H as -> -> H. change (fmap strip raw) with (strip <$> raw) in H.
  apply fmap_app_inv in H as (rc & rest & -> & -> & ->). by exists x, y, z, rc, rest.
Qed.

Lemma zero_first_index b ts :
  (if (Z.of_nat (sizes ts) =? 0)%Z then None else Some b) = first_index b ts.
Proof.
  destruct ts as [|t ts]; [done|]. cbn [sizes first_index]. pose proof (size_pos t).
  destruct (Z.eqb_spec (Z.of_nat (size t + sizes ts)) 0); [lia|done].
Qed.

Lemma correct_children_spec ts raw pre post p b desc sum fuel :
  strip <$> raw = flats ts → length pre = b → (p < b)%nat →
  (sum + Z.of_nat (sizes ts) = desc)%Z → (0 ≤ sum)%Z → (desc < 2 ^ 32)%Z →
  (sizes ts <= fuel)%nat →
  ∃ a, half p b ts a ∧
    correct_children fuel (pre ++ raw ++ post) p desc (first_index b ts) sum
    = Ok (pre ++ a ++ post).
Proof.
  revert raw pre b sum fuel. induction ts as [|[d cs] ts IH];
    intros raw pre b sum fuel Hraw Hpre Hp Hsum H0 Hd Hf.
  - destruct raw; [|done]. exists []. split; [constructor|]. by destruct fuel.
  - apply split_raw in Hraw as (x & y & z & rc & rest & -> & Hrc & Hrest).
    cbn [sizes] in Hf, Hsum. rewrite size_T in Hf, Hsum.
    destruct fuel as [|fuel]; [lia|]. cbn [first_index correct_children].
    rewrite <- app_comm_cons, (fetch_Some _ _ _ (lookup_app_mid pre _ _ b (eq_sym Hpre))).
    rewrite bind_Ok. cbn [descendants data]. unfold below. cbn [descendants].
    rewrite Nat2Z.id, (u32_small (Z.of_nat (sizes cs) + 1)) by lia.
    rewrite u32_small by lia. rewrite zero_first_index.
    rewrite store_Ok by (rewrite length_app; cbn; lia).
    rewrite bind_Ok, insert_app_mid by done.
    assert ((if (sum + (Z.of_nat (sizes cs) + 1) =? desc)%Z then None
             else Some (b + sizes cs + 1)%nat)
      = first_index (b + S (sizes cs)) ts) as ->.
    { replace (b + S (sizes cs))%nat with (b + sizes cs + 1)%nat by lia.
      rewrite <- zero_first_index.
      destruct (Z.eqb_spec (sum + (Z.of_nat (sizes cs) + 1)) desc),
        (Z.eqb_spec (Z.of_nat (sizes ts)) 0); lia || done. }
    set (r := Node (Some p) _ _ _ _).
    assert (length (pre ++ r :: rc) = b + S (sizes cs))%nat as Hl.
    { rewrite length_app. cbn [length]. rewrite <- (length_flats cs), <- Hrc, length_fmap. lia. }
    destruct (IH rest (pre ++ r :: rc) (b + S (sizes cs))%nat (sum + (Z.of_nat (sizes cs) + 1))%Z
      fuel) as (a & Ha & Heq); [done|done|lia|lia|lia|done|lia|].
    exists (r :: rc ++ a). split; [by apply half_cons|].
    rewrite <- !app_assoc, <- !app_comm_cons in Heq.
    rewrite <- app_assoc, Heq. by rewrite <- app_comm_cons, <- app_assoc.
Qed.

(** The loop over one node whose children are only in preorder. *)
Lemma correct_from_root ts raw pre post n r :
  strip <$> raw = flats ts → descendants r = Z.of_nat (sizes ts) →
  (Z.of_nat (length (pre ++ r :: raw ++ post)) < 2 ^ 32)%Z →
  ∃ a, half (length pre) (S (length pre)) ts a ∧
    correct_from (S n) (length pre) (pre ++ r :: raw ++ post)
    = correct_from n (S (length pre))
        (pre ++ set_child (first_index (S (length pre)) ts) r :: a ++ post).
Proof.
  intros Hraw Hr Hlen. cbn [correct_from].
  rewrite (fetch_Some _ _ _ (lookup_app_mid pre _ _ _ eq_refl)), bind_Ok, Hr.
  rewrite zero_first_index, store_Ok by (rewrite length_app; cbn; lia).
  rewrite bind_Ok, insert_app_mid by done. set (r' := set_child _ r).
  assert (sizes ts = length raw) as Hs by (by rewrite <- length_flats, <- Hraw, length_fmap).
  rewrite length_app in Hlen. cbn [length] in Hlen. rewrite length_app in Hlen.
  destruct (correct_children_spec ts raw (pre ++ [r']) post (length pre) (S (length pre))
    (Z.of_nat (sizes ts)) 0 (length (pre ++ r :: raw ++ post))) as (a & Ha & Heq);
    [done|rewrite length_app; cbn; lia|lia|lia|lia|lia| |].
  { rewrite length_app. cbn [length]. rewrite length_app. lia. }
  exists a. split; [done|]. rewrite <- !app_assoc in Heq. cbn [app] in Heq.
  by rewrite Heq, bind_Ok.
Qed.

Lemma correct_from_half ts a p b pre post m :
  half p b ts a → length pre = b →
  (Z.of_nat (length (pre ++ a ++ post)) < 2 ^ 32)%Z →
  correct_from (sizes ts + m) b (pre ++ a ++ post)
  = correct_from m (b + sizes ts) (pre ++ encf b (Some p) None ts ++ post).
Proof.
  enough (∀ n, (sizes ts < n)%nat → ∀ a p b pre post m,
    half p b ts a → length pre = b → (Z.of_nat (length (pre ++ a ++ post)) < 2 ^ 32)%Z →
    correct_from (sizes ts + m) b (pre ++ a ++ post)
    = correct_from m (b + sizes ts) (pre ++ encf b (Some p) None ts ++ post)) by eauto.
  clear. intros n. revert ts. induction n as [|n IH];
    intros ts Hn a p b pre post m Hh Hpre Hlen; [lia|].
  destruct Hh as [b|b d cs ts raw rest Hraw Hh].
  { cbn. by rewrite Nat.add_0_r. }
  cbn [sizes] in Hn |- *. rewrite size_T in Hn |- *.
  set (r := Node _ _ _ _ _) in *. rewrite <- app_comm_cons, <- app_assoc in Hlen |- *.
  replace (S (sizes cs) + sizes ts + m)%nat with (S (sizes cs + (sizes ts + m)))%nat by lia.
  subst b.
  destruct (correct_from_root cs raw pre (rest ++ post) (sizes cs + (sizes ts + m)) r)
    as (a' & Ha' & ->); [done|done|done|].
  pose proof (half_length _ _ _ _ Ha') as Hla'.
  assert (length raw = sizes cs) as Hlr by (by rewrite <- length_flats, <- Hraw, length_fmap).
  change (set_child (first_index (S (length pre)) cs) r) with r.
  rewrite cons_middle, app_assoc.
  rewrite (IH cs ltac:(lia) a' (length pre)); [|done|rewrite length_app; cbn; lia|].
  2:{ revert Hlen. rewrite !length_app. cbn [length]. rewrite !length_app. cbn [length].
      rewrite Hla', Hlr. lia. }
  rewrite <- (app_assoc pre [r]).
  change ([r] ++ encf (S (length pre)) (Some (length pre)) None cs ++ rest ++ post)
    with ((r :: encf (S (length pre)) (Some (length pre)) None cs) ++ rest ++ post).
  unfold r. rewrite <- enc_T. set (e := enc _ _ _ _).
  assert (length e = S (sizes cs)) as Hle by (unfold e; rewrite enc_T; cbn; by rewrite length_encf).
  rewrite (app_assoc pre e).
  replace (S (length pre) + sizes cs)%nat with (length pre + S (sizes cs))%nat by lia.
  rewrite (IH ts ltac:(lia) rest p); [|done|rewrite length_app; lia|].
  2:{ revert Hlen. rewrite !length_app. cbn [length]. rewrite !length_app. lia. }
  cbn [encf]. rewrite size_T. fold e. rewrite <- !app_assoc.
  by rewrite Nat.add_assoc.
Qed.

(** ** The correction of one tree *)

(** Only the pointers of the root to the outside are kept; the memory behind the
    tree is not touched. *)
Lemma tree_correction_tree t r raw spare :
  strip r :: (strip <$> raw) = flat t →
  (Z.of_nat (length (r :: raw ++ spare)) < 2 ^ 32)%Z →
  tree_correction (size t) (r :: raw ++ spare) = Ok (enc 0 (parent r) (next r) t ++ spare).
Proof.
  destruct t as [d ts]. rewrite flat_T, size_T. intros Hs Hlen.
  injection Hs as Hr Hd Hraw. unfold tree_correction.
  destruct (correct_from_root ts raw [] spare (sizes ts) r) as (a & Ha & Heq); [done..|].
  cbn [length app] in Heq. rewrite Heq. clear Heq.
  pose proof (correct_from_half ts a 0 1 [set_child (first_index 1 ts) r] spare 0 Ha eq_refl) as H.
  rewrite Nat.add_0_r in H. cbn [app] in H. rewrite H.
  - cbn [correct_from app]. rewrite enc_T. destruct r. cbn in Hr, Hd |- *. by subst.
  - revert Hlen. cbn [length]. rewrite !length_app, (half_length _ _ _ _ Ha).
    rewrite <- (length_flats ts), <- Hraw, length_fmap. lia.
Qed.

(** ** Contexts *)

Definition hole_next c (n : nat) : option nat :=
  match c with [] => None | Frame _ _ rs :: _ => after rs (hole c + n) None end.

Lemma flats_plug c f : flats (plug c f) = cpre c (sizes f) ++ flats f ++ cpost c.
Proof.
  revert f. induction c as [|[d ls rs] c IH]; intros f; cbn [plug cpre cpost].
  - by rewrite app_nil_r.
  - rewrite IH. cbn [sizes flats]. rewrite size_T, flat_T, !sizes_app, !flats_app, app_nil_r.
    rewrite Nat.add_0_r, Nat.add_assoc. rewrite <- !app_assoc. cbn [app].
    by rewrite <- !app_assoc.
Qed.

Lemma length_cpre c n : length (cpre c n) = hole c.
Proof.
  revert n. induction c as [|[d ls rs] c IH]; intros n; [done|]. cbn [cpre hole].
  rewrite length_app, IH. cbn [length]. rewrite length_flats. lia.
Qed.

Lemma encf_plug c f :
  ∃ A B, encf 0 None None (plug c f)
    = A ++ encf (hole c) (hole_parent c) (hole_next c (sizes f)) f ++ B ∧ length A = hole c.
Proof.
  revert f. induction c as [|[d ls rs] c IH]; intros f; cbn [plug].
  - exists [], []. by rewrite app_nil_r.
  - destruct (IH [T d (ls ++ f ++ rs)]) as (A & B & Heq & HA). rewrite Heq.
    cbn [encf]. rewrite enc_T, !encf_app, app_nil_r. cbn [hole hole_parent hole_next].
    set (r := Node _ _ _ _ _).
    set (L := encf _ _ _ ls). set (F := encf _ _ _ f). set (R := encf _ _ _ rs).
    exists (A ++ r :: L), (R ++ B). split.
    + rewrite <- !app_assoc. cbn [app]. by rewrite <- !app_assoc.
    + rewrite length_app. cbn [length]. unfold L. rewrite length_encf. lia.
Qed.

(** The array around the hole only depends on the size of what is in it. *)
Lemma encf_plug_same c f f' :
  sizes f' = sizes f →
  ∃ A B, length A = hole c ∧
    encf 0 None None (plug c f)
    = A ++ encf (hole c) (hole_parent c) (hole_next c (sizes f)) f ++ B ∧
    encf 0 None None (plug c f')
    = A ++ encf (hole c) (hole_parent c) (hole_next c (sizes f)) f' ++ B.
Proof.
  revert f f'. induction c as [|[d ls rs] c IH]; intros f f' Hsz; cbn [plug].
  - exists [], []. by rewrite !app_nil_r.
  - assert (∀ b nx, after f' b nx = after f b nx) as Haf.
    { intros b nx. destruct f as [|u f]; [by rewrite (sizes_0 f' Hsz)|].
      destruct f'; [|done]. cbn in Hsz. pose proof (size_pos u). lia. }
    destruct (IH [T d (ls ++ f ++ rs)] [T d (ls ++ f' ++ rs)]) as (A & B & HA & -> & ->).
    { cbn [sizes]. rewrite !size_T, !sizes_app. lia. }
    assert (∀ b, first_index b (ls ++ f' ++ rs) = first_index b (ls ++ f ++ rs)) as Hfi.
    { intros b. specialize (Haf b (first_index b rs)).
      destruct ls; [|done]. by destruct f, f'. }
    cbn [encf]. rewrite !enc_T, !encf_app, !app_nil_r. cbn [hole hole_parent hole_next].
    rewrite Hfi, !sizes_app, Hsz, !after_app, Haf.
    set (r := Node _ _ _ _ _).
    set (L := encf _ _ _ ls). set (R := encf _ _ _ rs).
    exists (A ++ r :: L), (R ++ B). split_and!.
    + rewrite length_app. cbn [length]. unfold L. rewrite length_encf. lia.
    + rewrite <- !app_assoc. cbn [app]. by rewrite <- !app_assoc.
    + rewrite <- !app_assoc. cbn [app]. by rewrite <- !app_assoc.
Qed.

(** The node of the first root in the hole. *)
Lemma lookup_hole c t us :
  encf 0 None None (plug c (t :: us)) !! hole c
  = Some (Node (hole_parent c) (after us (hole c + size t) (hole_next c (sizes (t :: us))))
      (first_index (S (hole c)) (subtrees t)) (Z.of_nat (sizes (subtrees t))) (root_data t)).
Proof.
  destruct (encf_plug c (t :: us)) as (A & B & -> & HA). destruct t as [d ts].
  cbn [encf]. rewrite enc_T, <- app_assoc, <- app_comm_cons. by apply lookup_app_mid.
Qed.

Lemma sizes_plug c f : sizes (plug c f) = (hole c + sizes f + length (cpost c))%nat.
Proof.
  rewrite <- length_flats, flats_plug, !length_app, length_cpre, length_flats. lia.
Qed.

(** Every node of a forest below another node has a context. *)
Lemma locate f i d ls rs c :
  (i < sizes f)%nat →
  ∃ c' t, plug c' [t] = plug (Frame d ls rs :: c) f ∧
    hole c' = (hole (Frame d ls rs :: c) + i)%nat ∧ c' ≠ [].
Proof.
  enough (∀ n, (sizes f < n)%nat → ∀ i d ls rs c, (i < sizes f)%nat →
    ∃ c' t, plug c' [t] = plug (Frame d ls rs :: c) f ∧
      hole c' = (hole (Frame d ls rs :: c) + i)%nat ∧ c' ≠ []) by eauto.
  clear i d ls rs c. intros n. revert f.
  induction n as [|n IH]; intros [|[e cs] ts] Hn i d ls rs c Hi; [cbn in *; lia..|].
  cbn [sizes] in Hn, Hi. rewrite size_T in Hn, Hi.
  destruct i as [|i].
  - exists (Frame d ls (ts ++ rs) :: c), (T e cs). split_and!; [done|cbn; lia|done].
  - destruct (decide (i < sizes cs)%nat) as [Hc|Hc].
    + destruct (IH cs ltac:(lia) i e [] [] (Frame d ls (ts ++ rs) :: c) Hc) as (c' & t & Hp & Hh & Hne).
      exists c', t. split_and!; [|cbn [hole sizes] in *; lia|done].
      rewrite Hp. cbn [plug app]. by rewrite app_nil_r.
    + destruct (IH ts ltac:(lia) (i - sizes cs)%nat d (ls ++ [T e cs]) rs c ltac:(lia))
        as (c' & t & Hp & Hh & Hne).
      exists c', t. split_and!; [| |done].
      * rewrite Hp. cbn [plug]. by rewrite <- app_assoc.
      * rewrite Hh. cbn [hole]. rewrite sizes_app. cbn [sizes]. rewrite size_T. lia.
Qed.

(** ** Climbing *)

(** The first result of [g] on the ancestors of the hole, with their indices. *)
Fixpoint on_ancestors {A} (c : list (frame P)) (g : nat → P → option A) : option A :=
  match c with
  | [] => None
  | Frame d _ _ :: c' =>
      match g (hole c') d with Some r => Some r | None => on_ancestors c' g end
  end.

Lemma climb_spec {A} c f Sp fuel (body : nat → node P → option A) g :
  (∀ i n, body i n = g i (data n)) → (length c <= fuel)%nat →
  climb fuel (encf 0 None None (plug c f) ++ Sp) (hole_parent c) body = Ok (on_ancestors c g).
Proof.
  intros Hg. revert f fuel. induction c as [|[d ls rs] c IH]; intros f fuel Hf; [by destruct fuel|].
  destruct fuel as [|fuel]; [cbn in Hf; lia|]. cbn [climb hole_parent on_ancestors plug].
  pose proof (lookup_hole c (T d (ls ++ f ++ rs)) []) as Hl.
  rewrite (fetch_Some _ _ _ (lookup_app_l_Some _ _ _ _ Hl)), bind_Ok, Hg. cbn [data root_data].
  destruct (g (hole c) d); [done|]. apply IH. cbn in Hf. lia.
Qed.

(** ** Changing the number of descendants of the ancestors *)

Definition links (n : node P) : option nat * option nat * option nat :=
  (parent n, next n, child n).

(** The array has the pointers of [E], with any memory behind it. *)
Definition linked a (E : list (node P)) : Prop := ∃ Sp, links <$> a = (links <$> E) ++ Sp.

Lemma linked_lookup a E i m :
  linked a E → E !! i = Some m →
  ∃ n, a !! i = Some n ∧ parent n = parent m ∧ next n = next m ∧ child n = child m.
Proof.
  intros [Sp H] Hi. apply (f_equal (λ l, l !! i)) in H.
  rewrite lookup_app_l, !list_lookup_fmap, Hi in H
    by (rewrite length_fmap; by eapply lookup_lt_Some).
  destruct (a !! i) as [n|]; [|done]. exists n. cbn in H. injection H. auto.
Qed.

Lemma linked_same a a' E : links <$> a' = links <$> a → linked a E → linked a' E.
Proof. intros H [Sp HE]. exists Sp. by rewrite H. Qed.

Lemma linked_app E Sp : linked (E ++ Sp) E.
Proof. exists (links <$> Sp). apply fmap_app. Qed.

Lemma strip_lookup a i x d :
  (strip <$> a) !! i = Some (x, d) → ∃ n, a !! i = Some n ∧ descendants n = x ∧ data n = d.
Proof.
  rewrite list_lookup_fmap. destruct (a !! i) as [n|]; [|done]. intros [= <- <-]. eauto.
Qed.

Lemma hole_le c f : (length c <= sizes (plug c f))%nat.
Proof.
  rewrite sizes_plug. enough (length c <= hole c)%nat by lia.
  induction c as [|[d ls rs] c IH]; cbn; lia.
Qed.

Lemma add_descendants_spec c f a S_ n k fuel :
  linked a (encf 0 None None (plug c f)) →
  strip <$> a = cpre c n ++ S_ →
  (length c <= fuel)%nat → (0 ≤ Z.of_nat n + k)%Z →
  (Z.of_nat (length a) < 2 ^ 32)%Z → (Z.of_nat (hole c + n + length (cpost c)) + k < 2 ^ 32)%Z →
  ∃ a', add_descendants fuel a (hole_parent c) k = Ok a' ∧ links <$> a' = links <$> a ∧
    strip <$> a' = cpre c (Z.to_nat (Z.of_nat n + k)) ++ S_.
Proof.
  revert f a S_ n fuel. induction c as [|[d ls rs] c IH];
    intros f a S_ n fuel Hlinks Hs Hf Hn Hlen Hmax.
  - exists a. by destruct fuel.
  - destruct fuel as [|fuel]; [cbn in Hf; lia|]. cbn [hole_parent add_descendants].
    cbn [plug] in Hlinks. cbn [cpre hole cpost] in Hs, Hmax. rewrite <- app_assoc in Hs. cbn [app] in Hs.
    rewrite length_app, length_flats in Hmax.
    destruct (strip_lookup a (hole c) (Z.of_nat (sizes ls + n + sizes rs)) d)
      as (nd & Hnd & Hdesc & Hdata).
    { rewrite Hs. apply lookup_app_mid. by rewrite length_cpre. }
    rewrite (fetch_Some _ _ _ Hnd), bind_Ok.
    destruct (linked_lookup _ _ _ _ Hlinks (lookup_hole c _ _)) as (m & Hm & Hpar & _).
    rewrite Hnd in Hm. injection Hm as <-. cbn [parent] in Hpar.
    rewrite store_Ok by (by eapply lookup_lt_Some). rewrite bind_Ok, Hpar, Hdesc.
    rewrite u32_small by lia. set (nd' := set_descendants _ nd).
    assert (links <$> <[hole c:=nd']> a = links <$> a) as Hl'.
    { rewrite list_fmap_insert. apply list_insert_id. by rewrite list_lookup_fmap, Hnd. }
    destruct (IH [T d (ls ++ f ++ rs)] (<[hole c:=nd']> a)
      ((Z.of_nat (sizes ls + n + sizes rs) + k, d)%Z :: flats ls ++ S_)
      (S (sizes ls + n + sizes rs)) fuel) as (a' & -> & Hla & Hsa).
    + by apply (linked_same a).
    + rewrite list_fmap_insert, Hs.
      rewrite (insert_app_mid _ _ _ (strip nd')) by (by rewrite length_cpre).
      unfold nd', strip. cbn. by rewrite Hdata.
    + cbn in Hf. lia.
    + lia.
    + by rewrite length_insert.
    + lia.
    + exists a'. split; [done|]. split; [by rewrite Hla|]. rewrite Hsa. cbn [cpre].
      rewrite <- app_assoc. cbn [app].
      replace (Z.to_nat (Z.of_nat (S (sizes ls + n + sizes rs)) + k))
        with (S (sizes ls + Z.to_nat (Z.of_nat n + k) + sizes rs)) by lia.
      do 3 f_equal. lia.
Qed.
End facts.

(** ** Mapping the data *)

Lemma tmap_T {A B : Type} (f : A → B) d ts : tmap f (T d ts) = T (f d) (map (tmap f) ts).
Proof. done. Qed.

Lemma size_tmap {A B} (f : A → B) t : size (tmap f t) = size t.
Proof.
  induction t as [d ts IH] using tree_nested_ind. rewrite tmap_T, !size_T. f_equal.
  induction IH as [|t ts Ht Hts IH]; [done|]. cbn. by rewrite Ht, IH.
Qed.

Lemma sizes_tmap {A B} (f : A → B) ts : sizes (map (tmap f) ts) = sizes ts.
Proof. induction ts as [|t ts IH]; [done|]. cbn. by rewrite size_tmap, IH. Qed.

Lemma encf_tmap {A : Type} (f : A → A) b p nx ts :
  encf b p nx (map (tmap f) ts) = (λ n, set_data (f (data n)) n) <$> encf b p nx ts.
Proof.
  enough (∀ n, (sizes ts < n)%nat → ∀ b p nx, encf b p nx (map (tmap f) ts)
    = (λ n, set_data (f (data n)) n) <$> encf b p nx ts) by eauto.
  clear. intros n. revert ts. induction n as [|n IH]; intros [|[d cs] ts] Hn b p nx; [lia..|done|].
  cbn [sizes] in Hn. rewrite size_T in Hn. cbn [map]. rewrite tmap_T, !encf_cons, sizes_tmap.
  rewrite fmap_cons, fmap_app, !IH by lia.
  assert (∀ b nx, after (map (tmap f) ts) b nx = after ts b nx) as -> by (by destruct ts).
  assert (∀ b, first_index b (map (tmap f) cs) = first_index b cs) as -> by (by destruct cs).
  done.
Qed.

Lemma flats_tmap {A B : Type} (f : A → B) (ts : list (tree A)) :
  flats (map (tmap f) ts) = (λ x, (x.1, f x.2)) <$> flats ts.
Proof.
  enough (∀ n, (sizes ts < n)%nat → flats (map (tmap f) ts) = (λ x, (x.1, f x.2)) <$> flats ts)
    by eauto.
  intros n. revert ts. induction n as [|n IH]; intros [|[d cs] ts] Hn; [lia..|done|].
  cbn [sizes] in Hn. rewrite size_T in Hn. cbn [map flats].
  rewrite tmap_T, !flat_T, sizes_tmap, fmap_app, fmap_cons, !IH by lia. done.
Qed.
