(* ===== verification/Runs.v ===== *)
(** Runs that end: [runs Q r] says that the model did not run out of fuel and that
    a returned value satisfies [Q].  On the array of a tree every pointer to a
    parent goes backwards and the other two go forward inside the elements in
    use, so the loops along the pointers need as many steps as the array is
    long. *)
From S2P Require Import Prelude CString Preorder PreorderFacts.

Definition runs {A} (Q : A → Prop) (r : res A) : Prop :=
  match r with Ok a => Q a | Err _ => True | Fault f => f ≠ OutOfFuel end.

(** No condition on the result. *)
Definition any {A} : A → Prop := λ _, True.

Section runs.
Context {A B : Type}.
Implicit Types (r : res A) (k : A → res B).

Lemma runs_bind (R : A → Prop) (Q : B → Prop) r k :
  runs R r → (∀ a, R a → runs Q (k a)) → runs Q (r ≫= k).
Proof. destruct r; cbn; auto. Qed.

Lemma runs_mono (R Q : A → Prop) r : runs R r → (∀ a, R a → Q a) → runs Q r.
Proof. destruct r; cbn; auto. Qed.

Lemma runs_any Q r : runs Q r → runs any r.
Proof. intros H. by eapply runs_mono. Qed.

Lemma runs_Ok (Q : A → Prop) a : Q a → runs Q (Ok a).
Proof. done. Qed.

Lemma runs_fault (Q : A → Prop) f : f ≠ OutOfFuel → runs Q (Fault f).
Proof. done. Qed.

Lemma runs_fetch (l : list A) i : runs (λ a, l !! i = Some a) (fetch l i).
Proof. unfold fetch. by destruct (l !! i). Qed.

Lemma runs_deref (p : option A) : runs (λ a, p = Some a) (deref p).
Proof. by destruct p. Qed.

Lemma runs_nofuel (Q : A → Prop) r : runs Q r → r ≠ Fault OutOfFuel.
Proof. destruct r; [done..|]. cbn. congruence. Qed.
End runs.

Lemma runs_assert b : runs (λ _, b = true) (c_assert b).
Proof. by destruct b. Qed.

(** Case analysis on the code: a [bind], or the scrutinee of a branch. *)
Create HintDb runs.
#[export] Hint Resolve runs_fetch runs_deref runs_assert : runs.
#[export] Hint Extern 1 (runs _ (Ok _)) => apply runs_Ok : runs.
#[export] Hint Extern 1 (runs any (deref _)) => exact (runs_any _ _ (runs_deref _)) : runs.
#[export] Hint Extern 1 (runs any (fetch _ _)) => exact (runs_any _ _ (runs_fetch _ _)) : runs.

Ltac scrutinee t :=
  lazymatch t with
  | match ?u with _ => _ end => scrutinee u
  | _ => t
  end.

Ltac runs_step :=
  lazymatch goal with
  | |- runs _ ((_ ≫= _) ≫= _) => eapply (runs_bind any); [|intros ? _]
  | |- runs _ (match _ with _ => _ end ≫= _) => eapply (runs_bind any); [|intros ? _]
  | |- runs _ (_ ≫= _) => eapply runs_bind; [solve [eauto 6 with runs]|intros ? ?; cbv beta in *]
  | |- runs _ (match ?t with _ => _ end) => let u := scrutinee t in destruct u eqn:?
  | |- runs _ (Fault _) => apply runs_fault; discriminate
  | |- runs any (Ok _) => exact I
  | |- runs any _ => eauto 6 with runs
  end.
Ltac runs := repeat runs_step.

(** ** Pointers of a tree *)

Section forward.
Context {P : Type}.
Implicit Types (m : list (node P)) (n : node P).

Definition between (i k : nat) (o : option nat) : Prop := ∀ j, o = Some j → (i < j < k)%nat.
Definition below_index (i : nat) (o : option nat) : Prop := ∀ j, o = Some j → (j < i)%nat.

(** The first [k] elements are in use. *)
Definition forward (k : nat) m : Prop :=
  (k <= length m)%nat ∧ ∀ i n, (i < k)%nat → m !! i = Some n →
    below_index i (parent n) ∧ between i k (next n) ∧ between i k (child n) ∧
    (i + below n < k)%nat.

Lemma between_below i k o : between i k o → below_index k o.
Proof. intros H j Hj. by apply H. Qed.

Lemma hole_next_between (c : list (frame P)) (x : nat) : (0 < x)%nat →
  between (hole c) (hole c + x + length (cpost c)) (hole_next c x).
Proof.
  intros Hn j. destruct c as [|[d ls rs] c]; [done|]. cbn [hole_next cpost].
  rewrite length_app, length_flats. destruct rs as [|[e cs] rs]; [done|]. cbn [after sizes].
  rewrite size_T. intros [= <-]. cbn [hole]. lia.
Qed.

Lemma enc_forward (t : tree P) sp : forward (size t) (enc 0 None None t ++ sp).
Proof.
  assert (encf 0 None None [t] = enc 0 None None t) as He by (cbn; by rewrite app_nil_r).
  split.
  { rewrite length_app, <- He, length_encf. cbn. lia. }
  intros i n Hi Hn. destruct t as [d ts].
  assert (∃ c u, plug c [u] = [T d ts] ∧ hole c = i) as (c & u & Hp & Hh).
  { rewrite size_T in Hi. destruct i as [|i]; [by exists [], (T d ts)|].
    destruct (locate ts i d [] [] []) as (c & u & Hp & Hh & _); [lia|].
    exists c, u. split; [|cbn in Hh; lia]. rewrite Hp. cbn. by rewrite app_nil_r. }
  pose proof (lookup_hole c u []) as Hl. rewrite Hp, He, Hh in Hl.
  rewrite (lookup_app_l_Some _ _ _ _ Hl) in Hn. injection Hn as <-.
  unfold below. cbn [parent next child descendants after]. rewrite Nat2Z.id.
  pose proof (sizes_plug c [u]) as Hs. rewrite Hp in Hs. cbn [sizes] in Hs. rewrite !Nat.add_0_r in Hs.
  rewrite Hs. split_and!.
  - intros j. destruct c as [|[e ls rs] c]; [done|]. cbn in *. intros [= <-]. lia.
  - cbn [sizes]. rewrite Nat.add_0_r, <- Hh. apply hole_next_between, size_pos.
  - intros j. destruct u as [e cs]. cbn [subtrees]. rewrite size_T. destruct cs; [done|].
    cbn. intros [= <-]. pose proof (size_pos t). lia.
  - destruct u as [e cs]. rewrite size_T. cbn [subtrees]. lia.
Qed.

(** ** Loops along the pointers *)

Context (k : nat) (m : list (node P)) (Hm : forward k m).

Lemma forward_lookup i n : (i < k)%nat → m !! i = Some n →
  below_index i (parent n) ∧ between i k (next n) ∧ between i k (child n) ∧ (i + below n < k)%nat.
Proof. apply Hm. Qed.

Lemma forward_length : (k <= length m)%nat.
Proof. apply Hm. Qed.

Lemma next_below i n : (i < k)%nat → m !! i = Some n → below_index k (next n).
Proof. intros Hi Hn. by eapply between_below, (forward_lookup i n). Qed.

Lemma child_below i n : (i < k)%nat → m !! i = Some n → below_index k (child n).
Proof. intros Hi Hn. by eapply between_below, (forward_lookup i n). Qed.

Lemma parent_below i n : (i < k)%nat → m !! i = Some n → below_index k (parent n).
Proof.
  intros Hi Hn j Hj. destruct (forward_lookup i n Hi Hn) as (H & _). specialize (H j Hj). lia.
Qed.

Lemma block_below i n : (i < k)%nat → m !! i = Some n → (i + below n < k)%nat.
Proof. intros Hi Hn. by apply (forward_lookup i n). Qed.

(** Induction on the steps that are left on the way to the end, or to the root. *)
Lemma siblings_induction (Q : nat → option nat → Prop) :
  (∀ fuel, Q fuel None) →
  (∀ fuel i, (i < k)%nat →
    (∀ n, m !! i = Some n → Q fuel (next n)) → Q (S fuel) (Some i)) →
  ∀ fuel o, below_index k o → (k <= fuel)%nat → Q fuel o.
Proof.
  intros H0 HS. enough (∀ fuel o, (∀ i, o = Some i → (i < k <= i + fuel)%nat) → Q fuel o) as H.
  { intros fuel o Ho Hf. apply H. intros i Hi. specialize (Ho i Hi). lia. }
  induction fuel as [|fuel IH]; intros [i|] Ho; try apply H0.
  - specialize (Ho i eq_refl). lia.
  - specialize (Ho i eq_refl). apply HS; [lia|]. intros n Hn. apply IH. intros j Hj.
    destruct (forward_lookup i n ltac:(lia) Hn) as (_ & H & _ & _). specialize (H j Hj). lia.
Qed.

Lemma ancestors_induction (Q : nat → option nat → Prop) :
  (∀ fuel, Q fuel None) →
  (∀ fuel i, (i < k)%nat →
    (∀ n, m !! i = Some n → Q fuel (parent n)) → Q (S fuel) (Some i)) →
  ∀ fuel o, below_index k o → (k <= fuel)%nat → Q fuel o.
Proof.
  intros H0 HS. enough (∀ fuel o, (∀ i, o = Some i → (i < k ∧ i < fuel)%nat) → Q fuel o) as H.
  { intros fuel o Ho Hf. apply H. intros i Hi. specialize (Ho i Hi). lia. }
  induction fuel as [|fuel IH]; intros [i|] Ho; try apply H0.
  - specialize (Ho i eq_refl). lia.
  - specialize (Ho i eq_refl). apply HS; [lia|]. intros n Hn. apply IH. intros j Hj.
    destruct (forward_lookup i n ltac:(lia) Hn) as (H & _). specialize (H j Hj). lia.
Qed.

Lemma climb_runs {A} (body : nat → node P → option A) (Q : option A → Prop) o :
  below_index k o → Q None →
  (∀ i n r, (i < k)%nat → m !! i = Some n → body i n = Some r → Q (Some r)) →
  runs Q (climb (length m) m o body).
Proof.
  intros Ho HN HQ. revert o Ho.
  refine (λ o Ho, ancestors_induction (λ fuel o, runs Q (climb fuel m o body)) _ _ _ o Ho forward_length).
  - intros []; exact HN.
  - intros fuel i Hi IH. cbn [climb]. runs_step. destruct (body i a) eqn:Hb; [|by apply IH].
    apply runs_Ok. by apply (HQ i a).
Qed.

Lemma siblings_from_runs o :
  below_index k o → runs (Forall (λ i, i < k)%nat) (siblings_from (length m) m o).
Proof.
  intros Ho. apply (siblings_induction (λ fuel o, runs (Forall (λ i, i < k)%nat) (siblings_from fuel m o)));
    [intros []; by constructor| |done|apply forward_length].
  intros fuel i Hi IH. cbn [siblings_from]. runs_step.
  eapply runs_bind; [by apply IH|]. intros l Hl. by constructor.
Qed.
End forward.

(** When all elements are in use, the start may be any index. *)
Lemma climb_runs_any {P A} (m : list (node P)) (body : nat → node P → option A) (Q : option A → Prop) o :
  forward (length m) m → (0 < length m)%nat → Q None →
  (∀ i n r, m !! i = Some n → body i n = Some r → Q (Some r)) →
  runs Q (climb (length m) m o body).
Proof.
  intros Hm Hlen HN HQ. destruct o as [i|]; [|destruct m; exact HN].
  destruct (decide (i < length m)%nat) as [Hi|Hi].
  - apply (climb_runs (length m)); [done|intros j [= <-]; lia|done|naive_solver].
  - destruct (length m) eqn:Hl; cbn [climb]; [lia|].
    unfold fetch. by rewrite lookup_ge_None_2 by lia.
Qed.

Arguments forward_lookup {P k m} _ _ _ _ _.
Arguments forward_length {P k m} _.
#[export] Hint Resolve next_below child_below parent_below between_below : runs.
