(* ===== verification/Ynode.v ===== *)
(** The tree of ynodes of [src/augyang.c] and the operations that change its
    shape.  [mem] is the allocated array, [count] the number of elements in use
    ([LY_ARRAY_COUNT]), [arrsize] and [idcnt] the members of [struct
    ay_ynode_root], which occupies the first element.  Nodes are named by their
    index; indices and sizes are assumed to fit in 32 bits, the counters wrap.
    A pointer to an lnode is its index in the tree of lnodes. *)
From S2P Require Import Prelude CString Preorder.

(** ** Data *)

Inductive yang_type :=
| YN_UNKNOWN | YN_LEAF | YN_LEAFREF | YN_LIST | YN_CONTAINER | YN_CASE | YN_KEY
| YN_VALUE | YN_USES | YN_GROUPING | YN_REC | YN_ROOT.

#[export] Instance yang_type_eq_dec : EqDecision yang_type.
Proof. solve_decision. Defined.

(** The members of [struct ay_ynode] behind the links. *)
Record ydata := YData {
  type : yang_type;
  snode : option nat;
  label : option nat;
  value : option nat;
  choice : option nat;
  ident : option cstr;
  ref : Z;
  id : Z;
  flags : Z;
  min_elems : Z;
  when_ref : Z;
  when_val : option nat
}.

#[export] Instance ydata_eq_dec : EqDecision ydata.
Proof. solve_decision. Defined.

Abbreviation ynode := (node ydata) (only parsing).

(** A node of zero bytes. *)
Definition zero_data : ydata := YData YN_UNKNOWN None None None None None 0 0 0 0 0 None.
Definition zero_node : ynode := Node None None None 0 zero_data.

Record ytree := YTree { mem : list ynode; count : nat; arrsize : Z; idcnt : Z }.

Definition set_mem (m : list ynode) (s : ytree) : ytree := YTree m (count s) (arrsize s) (idcnt s).
Definition set_count (n : nat) (s : ytree) : ytree := YTree (mem s) n (arrsize s) (idcnt s).

(** Assignments to members of the data. *)
Definition with_type (x : yang_type) (d : ydata) : ydata :=
  YData x (snode d) (label d) (value d) (choice d) (ident d) (ref d) (id d) (flags d)
    (min_elems d) (when_ref d) (when_val d).
Definition with_choice (x : option nat) (d : ydata) : ydata :=
  YData (type d) (snode d) (label d) (value d) x (ident d) (ref d) (id d) (flags d)
    (min_elems d) (when_ref d) (when_val d).
Definition with_id (x : Z) (d : ydata) : ydata :=
  YData (type d) (snode d) (label d) (value d) (choice d) (ident d) (ref d) x (flags d)
    (min_elems d) (when_ref d) (when_val d).
Definition with_flags (x : Z) (d : ydata) : ydata :=
  YData (type d) (snode d) (label d) (value d) (choice d) (ident d) (ref d) (id d) x
    (min_elems d) (when_ref d) (when_val d).
Definition with_when_ref (x : Z) (d : ydata) : ydata :=
  YData (type d) (snode d) (label d) (value d) (choice d) (ident d) (ref d) (id d) (flags d)
    (min_elems d) x (when_val d).

Definition on_data (f : ydata → ydata) (n : ynode) : ynode := set_data (f (data n)) n.

(** ** Flags *)

Definition AY_CHILDREN_MAND_FALSE : Z := 0x008.
Definition AY_HINT_MAND_FALSE : Z := 0x400.
Definition AY_WHEN_TARGET : Z := 0x1000.

Definition has_flag (d : ydata) (mask : Z) : bool := negb (Z.land (flags d) mask =? 0)%Z.

(** ** Reading *)

Definition ay_ynode_get_node (s : ytree) (start_index : nat) (i : Z) : option nat :=
  (λ j, start_index + j)%nat <$>
    (fst <$> list_find (λ n, id (data n) = i) (drop start_index (take (count s) (mem s)))).

Definition ay_ynode_get_last (m : list ynode) (nd : option nat) : res (option nat) :=
  match nd with
  | None => Ok None
  | Some i => l ← last_from (length m) m i; Ok (Some l)
  end.

(** [for (prev = first; prev != node && prev->next != node; prev = prev->next)]. *)
Fixpoint prev_from (fuel : nat) (m : list ynode) (prev nd : nat) : res nat :=
  match fuel with
  | 0 => Fault OutOfFuel
  | S fuel' =>
      if (prev =? nd)%nat then Ok prev
      else
        n ← fetch m prev;
        if bool_decide (next n = Some nd) then Ok prev
        else nx ← deref (next n); prev_from fuel' m nx nd
  end.

Definition ay_ynode_get_prev (m : list ynode) (nd : nat) : res (option nat) :=
  n ← fetch m nd;
  _ ← c_assert (bool_decide (is_Some (parent n)));
  p ← deref (parent n);
  pn ← fetch m p;
  first ← deref (child pn);
  prev ← prev_from (length m) m first nd;
  Ok (if (prev =? nd)%nat then None else Some prev).

(** The first sibling from [iter] on whose choice is [ch]. *)
Fixpoint first_with_choice (fuel : nat) (m : list ynode) (iter : option nat) (ch : nat)
  : res (option nat) :=
  match iter with
  | None => Ok None
  | Some i =>
      match fuel with
      | 0 => Fault OutOfFuel
      | S fuel' =>
          n ← fetch m i;
          if bool_decide (choice (data n) = Some ch) then Ok (Some i)
          else first_with_choice fuel' m (next n) ch
      end
  end.

Definition ay_ynode_get_first_in_choice (m : list ynode) (par ch : option nat)
  : res (option nat) :=
  match ch, par with
  | Some c, Some p => pn ← fetch m p; first_with_choice (length m) m (child pn) c
  | _, _ => Ok None
  end.

Definition ay_ynode_alone_in_choice (m : list ynode) (nd : nat) : res bool :=
  n ← fetch m nd;
  match choice (data n) with
  | None => Ok false
  | Some c =>
      first ← ay_ynode_get_first_in_choice m (parent n) (Some c);
      if negb (bool_decide (first = Some nd)) then Ok false
      else
        match next n with
        | None => Ok true
        | Some j => nx ← fetch m j; Ok (negb (bool_decide (choice (data nx) = Some c)))
        end
  end.

(** The first node behind YN_KEY and YN_VALUE. *)
Definition ay_ynode_inner_nodes (m : list ynode) (root : nat) : res (option nat) :=
  r ← fetch m root;
  match child r with
  | None => Ok None
  | Some c =>
      cn ← fetch m c;
      iter ← (if bool_decide (type (data cn) = YN_KEY)
              then _ ← c_assert (bool_decide (label (data cn) = label (data r))); Ok (next cn)
              else Ok (Some c));
      match iter with
      | None => Ok None
      | Some i =>
          n ← fetch m i;
          Ok (if bool_decide (type (data n) = YN_VALUE) then next n else Some i)
      end
  end.

Definition ay_ynode_inner_nodes_descendants (m : list ynode) (root : nat) : res Z :=
  inner ← ay_ynode_inner_nodes m root;
  match inner with
  | None => Ok 0%Z
  | Some i =>
      r ← fetch m root;
      Ok (u64 (descendants r - (Z.of_nat i - 1 - Z.of_nat root)))
  end.

Definition ay_ynode_inner_node_alone (m : list ynode) (nd : nat) : res bool :=
  n ← fetch m nd;
  _ ← c_assert (bool_decide (is_Some (parent n)));
  p ← deref (parent n);
  inner ← ay_ynode_inner_nodes m p;
  Ok (bool_decide (inner = Some nd) && bool_decide (next n = None)).

(** ** Gaps *)

Definition fresh_id (m : list ynode) (index : nat) (i : Z) : res (list ynode) :=
  modify m index (on_data (with_id i)).

Definition ay_ynode_insert_gap (s : ytree) (index : nat) : res ytree :=
  _ ← c_assert (Z.of_nat (count s) <? arrsize s)%Z;
  n ← nat_sub (count s) index;
  m1 ← memmove (mem s) (index + 1) index n;
  m2 ← store m1 index zero_node;
  m3 ← fresh_id m2 index (idcnt s);
  Ok (YTree m3 (count s + 1) (arrsize s) (u32 (idcnt s + 1))).

Fixpoint fresh_ids (n index : nat) (s : ytree) : res ytree :=
  match n with
  | 0 => Ok s
  | S n' =>
      m ← fresh_id (mem s) index (idcnt s);
      fresh_ids n' (S index) (YTree m (count s) (arrsize s) (u32 (idcnt s + 1)))
  end.

Definition ay_ynode_insert_gap_range (s : ytree) (index items : nat) : res ytree :=
  _ ← c_assert (Z.of_nat (count s) <? arrsize s)%Z;
  n ← nat_sub (count s) index;
  m ← memmove (mem s) (index + items) index n;
  fresh_ids items index (YTree m (count s + items) (arrsize s) (idcnt s)).

Definition ay_ynode_delete_gap (s : ytree) (index : nat) : res ytree :=
  n ← nat_sub (count s) (index + 1);
  m1 ← memmove (mem s) index (index + 1) n;
  m2 ← store m1 (count s - 1) zero_node;
  Ok (YTree m2 (count s - 1) (arrsize s) (idcnt s)).

Definition ay_ynode_delete_gap_range (s : ytree) (index items : nat) : res ytree :=
  n ← nat_sub (count s) (index + items);
  m1 ← memmove (mem s) index (index + items) n;
  m2 ← mwrite m1 (count s - items) (replicate items zero_node);
  Ok (YTree m2 (count s - items) (arrsize s) (idcnt s)).

(** ** Operations on the tree *)

Definition ay_ynode_tree_correction (s : ytree) : res ytree :=
  m ← tree_correction (count s) (mem s); Ok (set_mem m s).

(** [for (iter = p; iter; iter = iter->parent) iter->descendants += k]. *)
Definition ancestors_add (s : ytree) (p : option nat) (k : Z) : res ytree :=
  m ← add_descendants (length (mem s)) (mem s) p k; Ok (set_mem m s).

Definition modify_node (s : ytree) (i : nat) (f : ynode → ynode) : res ytree :=
  m ← modify (mem s) i f; Ok (set_mem m s).

Definition space_for (s : ytree) (items : Z) : res unit :=
  c_assert (items + Z.of_nat (count s) <=? arrsize s)%Z.

Definition ay_ynode_delete_subtree (s : ytree) (subtree : nat) : res ytree :=
  n ← fetch (mem s) subtree;
  let deleted_nodes := u32 (descendants n + 1) in
  s1 ← ancestors_add s (parent n) (- deleted_nodes);
  s2 ← ay_ynode_delete_gap_range s1 subtree (Z.to_nat deleted_nodes);
  ay_ynode_tree_correction s2.

(** [subtree++] gives the first node behind the root of the subtree. *)
Definition ay_ynode_delete_children (s : ytree) (subtree : nat) (keep_keyval : bool)
  : res ytree :=
  n ← fetch (mem s) subtree;
  '(deleted_nodes, first) ←
    (if keep_keyval then
       d ← ay_ynode_inner_nodes_descendants (mem s) subtree;
       inner ← ay_ynode_inner_nodes (mem s) subtree;
       Ok (u32 d, match inner with Some i => Some i | None => child n end)
     else Ok (descendants n, Some (S subtree)));
  if (deleted_nodes =? 0)%Z then Ok s
  else
    f ← deref first;
    fn ← fetch (mem s) f;
    s1 ← ancestors_add s (parent fn) (- deleted_nodes);
    s2 ← ay_ynode_delete_gap_range s1 f (Z.to_nat deleted_nodes);
    ay_ynode_tree_correction s2.

Definition ay_ynode_insert_wrapper (s : ytree) (nd : nat) : res ytree :=
  _ ← space_for s 1;
  n ← fetch (mem s) nd;
  s1 ← ancestors_add s (parent n) 1;
  s2 ← ay_ynode_insert_gap s1 nd;
  w ← fetch (mem s2) (nd + 1);
  s3 ← modify_node s2 nd (set_descendants (u32 (descendants w + 1)));
  ay_ynode_tree_correction s3.

Definition ay_ynode_insert_parent (s : ytree) (ch : nat) : res ytree :=
  _ ← space_for s 1;
  n ← fetch (mem s) ch;
  _ ← c_assert (bool_decide (is_Some (parent n)));
  s1 ← ancestors_add s (parent n) 1;
  p ← deref (parent n);
  pn ← fetch (mem s1) p;
  index ← deref (child pn);
  s2 ← ay_ynode_insert_gap s1 index;
  prev ← fetch (mem s2) (index - 1);
  s3 ← modify_node s2 index (set_descendants (u32 (descendants prev - 1)));
  ay_ynode_tree_correction s3.

(** The sum of [descendants + 1] over the siblings from [iter] on. *)
Fixpoint rest_descendants (fuel : nat) (m : list ynode) (iter : option nat) (sum : Z) : res Z :=
  match iter with
  | None => Ok sum
  | Some i =>
      match fuel with
      | 0 => Fault OutOfFuel
      | S fuel' =>
          n ← fetch m i;
          rest_descendants fuel' m (next n) (u32 (sum + (descendants n + 1)))
      end
  end.

Definition ay_ynode_insert_parent_for_rest (s : ytree) (ch : nat) : res ytree :=
  _ ← space_for s 1;
  d ← rest_descendants (length (mem s)) (mem s) (Some ch) 0;
  n ← fetch (mem s) ch;
  s1 ← ancestors_add s (parent n) 1;
  s2 ← ay_ynode_insert_gap s1 ch;
  s3 ← modify_node s2 ch (set_descendants d);
  ay_ynode_tree_correction s3.

Definition ay_ynode_insert_child (s : ytree) (par : nat) : res ytree :=
  _ ← space_for s 1;
  s1 ← ancestors_add s (Some par) 1;
  s2 ← ay_ynode_insert_gap s1 (par + 1);
  ay_ynode_tree_correction s2.

Definition ay_ynode_insert_sibling (s : ytree) (nd : nat) : res ytree :=
  _ ← space_for s 1;
  n ← fetch (mem s) nd;
  s1 ← ancestors_add s (parent n) 1;
  let index := (nd + below n + 1)%nat in
  s2 ← ay_ynode_insert_gap s1 index;
  s3 ← modify_node s2 index (set_descendants 0);
  ay_ynode_tree_correction s3.

(** The result is the index of the inserted node. *)
Definition ay_ynode_insert_child_last (s : ytree) (par : nat) : res (ytree * option nat) :=
  _ ← space_for s 1;
  n ← fetch (mem s) par;
  match child n with
  | Some c =>
      last ← last_from (length (mem s)) (mem s) c;
      s' ← ay_ynode_insert_sibling s last;
      ln ← fetch (mem s') last;
      Ok (s', next ln)
  | None =>
      s' ← ay_ynode_insert_child s par;
      n' ← fetch (mem s') par;
      Ok (s', child n')
  end.

(** [YN_CASE] for a node whose children are not all in a choice. *)
Definition cast_to_case (d : ydata) : ydata :=
  YData YN_CASE None None None (choice d) (ident d) 0 (id d) 0 (min_elems d) (when_ref d)
    (when_val d).

Definition mapM_nodes (s : ytree) (l : list nat) (f : ydata → ydata) : res ytree :=
  foldl (λ r i, s' ← r; modify_node s' i (on_data f)) (Ok s) l.

(** The effect on the children and whether the node is cast to [YN_CASE]
    instead of being deleted. *)
Definition delete_node_choice (s : ytree) (nd : nat) (n : ynode) : res (ytree * bool) :=
  if bool_decide (type (data n) ≠ YN_CASE) then
    match choice (data n), child n with
    | Some c, Some ch =>
        cn ← fetch (mem s) ch;
        if bool_decide (is_Some (next cn)) then
          l ← siblings_from (length (mem s)) (mem s) (Some ch);
          if existsb (λ i, bool_decide (
               (x ← mem s !! i; choice (data x)) = None)) l
          then s' ← modify_node s nd (on_data cast_to_case); Ok (s', true)
          else s' ← mapM_nodes s l (with_choice (Some c)); Ok (s', false)
        else s' ← modify_node s ch (on_data (with_choice (Some c))); Ok (s', false)
    | _, _ => Ok (s, false)
    end
  else
    alone ← ay_ynode_alone_in_choice (mem s) nd;
    _ ← c_assert alone;
    Ok (s, false).

(** The result is 1 ([true]) if the node was cast to [YN_CASE]. *)
Definition ay_ynode_delete_node (s : ytree) (nd : nat) : res (ytree * bool) :=
  n ← fetch (mem s) nd;
  '(s1, cast) ← delete_node_choice s nd n;
  if (cast : bool) then Ok (s1, true)
  else
    s2 ← (if has_flag (data n) AY_CHILDREN_MAND_FALSE then
            l ← siblings_from (length (mem s1)) (mem s1) (child n);
            mapM_nodes s1 l (λ d, with_flags (Z.lor (flags d) AY_HINT_MAND_FALSE) d)
          else Ok s1);
    s3 ← ancestors_add s2 (parent n) (-1);
    s4 ← ay_ynode_delete_gap s3 nd;
    s5 ← ay_ynode_tree_correction s4;
    p ← deref (parent n);
    pn ← fetch (mem s5) p;
    match child pn with
    | None => Ok (s5, false)
    | Some ch =>
        cn ← fetch (mem s5) ch;
        match next cn with
        | None => s6 ← modify_node s5 ch (on_data (with_choice None)); Ok (s6, false)
        | Some _ => Ok (s5, false)
        end
    end.

(** Swapping the data of two nodes but not their place and choice. *)
Definition ay_ynode_swap (s : ytree) (node1 node2 : nat) : res ytree :=
  n1 ← fetch (mem s) node1;
  n2 ← fetch (mem s) node2;
  s1 ← modify_node s node1 (λ _,
         Node (parent n1) (next n1) (child n1) (descendants n1)
           (with_choice (choice (data n1)) (data n2)));
  n2' ← fetch (mem s1) node2;
  modify_node s1 node2 (λ _,
    Node (parent n2') (next n2') (child n2') (descendants n2')
      (with_choice (choice (data n2')) (data n1))).

(** ** Moving and copying subtrees *)

(** The loop that moves the nodes one by one. *)
Fixpoint move_one_by_one (n : nat) (s : ytree) (dst src : nat) : res ytree :=
  match n with
  | 0 => Ok s
  | S n' =>
      nd ← fetch (mem s) src;
      s1 ← ay_ynode_delete_gap s src;
      let dst1 := if (src <? dst)%nat then (dst - 1)%nat else dst in
      s2 ← ay_ynode_insert_gap s1 dst1;
      let src1 := if (dst1 <? src)%nat then S src else src in
      s3 ← modify_node s2 dst1 (λ _, nd);
      move_one_by_one n' s3 (S dst1) src1
  end.

(** The move through the unused elements behind the array; the buffer stays
    where it is while the number of elements changes. *)
Definition move_bulk (s : ytree) (dst src size : nat) : res ytree :=
  let buffer := count s in
  b ← mread (mem s) src size;
  m1 ← mwrite (mem s) buffer b;
  s1 ← ay_ynode_delete_gap_range (set_mem m1 s) src size;
  let dst1 := if (src <? dst)%nat then (dst - size)%nat else dst in
  s2 ← ay_ynode_insert_gap_range s1 dst1 size;
  b' ← mread (mem s2) buffer size;
  m3 ← mwrite (mem s2) dst1 b';
  Ok (set_mem m3 s2).

(** The code never moves the root or something in front of it, which would overwrite
    the members of [struct ay_ynode_root] that [ytree] keeps apart. *)
Definition ay_ynode_move_subtree (s : ytree) (dst src : nat) : res ytree :=
  if (dst =? src)%nat then Ok s
  else
    n ← fetch (mem s) src;
    let subtree_size := u32 (descendants n + 1) in
    if (subtree_size <? u64 (arrsize s - Z.of_nat (count s)))%Z
    then move_bulk s dst src (Z.to_nat subtree_size)
    else move_one_by_one (Z.to_nat subtree_size) s dst src.

Definition ay_ynode_move_subtree_as_sibling (s : ytree) (dst src : nat) : res ytree :=
  d ← fetch (mem s) dst;
  if bool_decide (next d = Some src) then Ok s
  else
    n ← fetch (mem s) src;
    let subtree_size := u32 (descendants n + 1) in
    let index := (dst + below d + 1)%nat in
    s1 ← ancestors_add s (parent n) (- subtree_size);
    s2 ← ancestors_add s1 (parent d) subtree_size;
    s3 ← ay_ynode_move_subtree s2 index src;
    ay_ynode_tree_correction s3.

Definition ay_ynode_move_subtree_as_child (s : ytree) (dst src : nat) : res ytree :=
  d ← fetch (mem s) dst;
  if bool_decide (child d = Some src) then Ok s
  else
    n ← fetch (mem s) src;
    let subtree_size := u32 (descendants n + 1) in
    s1 ← ancestors_add s (parent n) (- subtree_size);
    s2 ← ancestors_add s1 (Some dst) subtree_size;
    s3 ← ay_ynode_move_subtree s2 (dst + 1) src;
    ay_ynode_tree_correction s3.

Definition ay_ynode_move_subtree_as_last_child (s : ytree) (dst src : nat) : res ytree :=
  if (dst =? src)%nat then Ok s
  else
    d ← fetch (mem s) dst;
    last ← ay_ynode_get_last (mem s) (child d);
    match last with
    | Some l => ay_ynode_move_subtree_as_sibling s l src
    | None => ay_ynode_move_subtree_as_child s dst src
    end.

Definition ay_ynode_copy_subtree (s : ytree) (dst src : nat) : res ytree :=
  n ← fetch (mem s) src;
  let subtree_size := Z.to_nat (u32 (descendants n + 1)) in
  s1 ← ay_ynode_insert_gap_range s dst subtree_size;
  let src1 := if (dst <=? src)%nat then (src + subtree_size)%nat else src in
  b ← mread (mem s1) src1 subtree_size;
  m ← mwrite (mem s1) dst b;
  Ok (set_mem m s1).

(** The loop over [j]: the offset of the target, or of the last node when the
    subtree has no target. *)
Fixpoint when_target_offset (n j : nat) (m : list ynode) (original : nat) (wr : Z) : res nat :=
  t ← fetch m (original + j);
  if (id (data t) =? wr)%Z && has_flag (data t) AY_WHEN_TARGET then Ok j
  else match n with 0 => Ok j | S n' => when_target_offset n' (S j) m original wr end.

Fixpoint when_ref_correction_loop (n i : nat) (s : ytree) (copied original size : nat)
  : res ytree :=
  match n with
  | 0 => Ok s
  | S n' =>
      nd ← fetch (mem s) (original + i + 1);
      s' ← (if (when_ref (data nd) =? 0)%Z then Ok s
            else
              t ← when_target_offset size 0 (mem s) original (when_ref (data nd));
              src ← fetch (mem s) (copied + t);
              modify_node s (copied + i + 1) (on_data (with_when_ref (id (data src)))));
      when_ref_correction_loop n' (S i) s' copied original size
  end.

Definition ay_ynode_copy_subtree_when_ref_correction (s : ytree) (copied original : option nat)
  : res ytree :=
  _ ← c_assert (bool_decide (is_Some copied) && bool_decide (is_Some original));
  c ← deref copied;
  o ← deref original;
  n ← fetch (mem s) o;
  when_ref_correction_loop (below n) 0 s c o (below n).

Definition ay_ynode_copy_subtree_as_last_child (s : ytree) (dst src : nat) : res ytree :=
  n ← fetch (mem s) src;
  _ ← space_for s (u32 (descendants n + 1));
  d ← fetch (mem s) dst;
  last ← ay_ynode_get_last (mem s) (child d);
  if bool_decide (last = Some src) then Ok s
  else
    let subtree_size := u32 (descendants n + 1) in
    s1 ← ancestors_add s (Some dst) subtree_size;
    index ← (match last with
             | Some l => ln ← fetch (mem s1) l; Ok (l + below ln + 1)%nat
             | None => Ok (dst + 1)%nat
             end);
    s2 ← ay_ynode_copy_subtree s1 index src;
    s3 ← ay_ynode_tree_correction s2;
    d' ← fetch (mem s3) dst;
    copied ← ay_ynode_get_last (mem s3) (child d');
    ay_ynode_copy_subtree_when_ref_correction s3 copied
      (ay_ynode_get_node s3 src (id (data n))).

Definition ay_ynode_copy_subtree_as_sibling (s : ytree) (dst src : nat) : res ytree :=
  n ← fetch (mem s) src;
  _ ← space_for s (u32 (descendants n + 1));
  d ← fetch (mem s) dst;
  s1 ← ancestors_add s (parent d) (u32 (descendants n + 1));
  s2 ← ay_ynode_copy_subtree s1 (dst + below d + 1) src;
  s3 ← ay_ynode_tree_correction s2;
  d' ← fetch (mem s3) dst;
  ay_ynode_copy_subtree_when_ref_correction s3 (next d')
    (ay_ynode_get_node s3 src (id (data n))).

(** ** The order of siblings *)

(** [iter] goes from the first child to [last_old] over the subtrees. *)
Fixpoint reverse_loop (fuel : nat) (m : list ynode) (iter last_old : nat) (prev : option nat)
  : res (list ynode) :=
  match fuel with
  | 0 => Fault OutOfFuel
  | S fuel' =>
      if (iter =? last_old)%nat then modify m last_old (set_next prev)
      else
        n ← fetch m iter;
        m' ← modify m iter (set_next prev);
        reverse_loop fuel' m' (iter + below n + 1) last_old (Some iter)
  end.

(** The body of a [LY_ARRAY_FOR] over [n] elements from [i] on. *)
Fixpoint for_nodes (body : list ynode → nat → res (list ynode)) (n i : nat) (m : list ynode)
  : res (list ynode) :=
  match n with
  | 0 => Ok m
  | S n' => m' ← body m i; for_nodes body n' (S i) m'
  end.

Definition reverse_children (m : list ynode) (i : nat) : res (list ynode) :=
  par ← fetch m i;
  last ← ay_ynode_get_last m (child par);
  match last with
  | None => Ok m
  | Some l =>
      m1 ← modify m i (set_child (Some l));
      reverse_loop (length m) m1 (S i) l None
  end.

Definition ay_ynode_siblings_reverse (s : ytree) : res ytree :=
  m ← for_nodes reverse_children (count s) 0 (mem s); Ok (set_mem m s).

Fixpoint reverse_back_loop (fuel : nat) (m : list ynode) (iter : option nat) (desc sum : Z)
  : res (list ynode) :=
  match iter with
  | None => Ok m
  | Some i =>
      match fuel with
      | 0 => Fault OutOfFuel
      | S fuel' =>
          n ← fetch m i;
          let next_sum := u64 (sum + descendants n + 1) in
          let next_iter :=
            if (next_sum <? desc)%Z then Some (i + below n + 1)%nat else None in
          m' ← modify m i (set_next next_iter);
          reverse_back_loop fuel' m' next_iter desc next_sum
      end
  end.

Definition reverse_back_children (m : list ynode) (i : nat) : res (list ynode) :=
  par ← fetch m i;
  match child par with
  | None => Ok m
  | Some _ =>
      m1 ← modify m i (set_child (Some (S i)));
      reverse_back_loop (length m) m1 (Some (S i)) (descendants par) 0
  end.

Definition ay_ynode_siblings_reverse_back (s : ytree) : res ytree :=
  m ← for_nodes reverse_back_children (count s) 0 (mem s); Ok (set_mem m s).

(** ** Space *)

Definition relink (f : nat → nat) (n : ynode) : ynode :=
  Node (f <$> parent n) (f <$> next n) (f <$> child n) (descendants n) (data n).
Definition shift_links : ynode → ynode := relink S.

Definition ay_ynode_shift_right (s : ytree) : res ytree :=
  m1 ← memmove (mem s) 1 0 (count s);
  m2 ← store m1 0 zero_node;
  Ok (set_count (count s + 1)
    (set_mem (take 1 m2 ++ (shift_links <$> take (count s) (drop 1 m2)) ++ drop (count s + 1) m2) s)).

(** The space for [items_count] nodes.  [fresh] is the memory behind the elements in
    use after the reallocation.  When the array gets another address, [moved] is
    [Some stale]: the nodes are copied with pointers to the old array, and [stale]
    tells which index of the new array, if any, an old pointer to an index happens to
    be.  Nothing is assumed about it. *)
Definition reserve (s : ytree) (items_count : Z) (fresh : list ynode) (moved : option (nat → nat)) : res ytree :=
  let free_space := u64 (arrsize s - Z.of_nat (count s)) in
  if (free_space <? items_count)%Z then
    let copied := match moved with Some stale => relink stale | None => λ n, n end in
    let s1 := set_mem ((copied <$> take (count s) (mem s)) ++ fresh) s in
    s2 ← (if moved is Some _ then ay_ynode_tree_correction s1 else Ok s1);
    Ok (YTree (mem s2) (count s2) (u64 (arrsize s2 + (items_count - free_space))) (idcnt s2))
  else Ok s.

Definition ay_ynode_trans_insert (s : ytree) (insert : ytree → res (Z * ytree))
    (items_count : Z) (fresh : list ynode) (moved : option (nat → nat)) : res (Z * ytree) :=
  if (items_count =? 0)%Z then Ok (0%Z, s)
  else s' ← reserve s items_count fresh moved; insert s'.
