(* ===== verification/YnodeFacts.v ===== *)
(** The operations of [Ynode] against rose trees: [repr s t] says that the
    memory of [s] starts with the canonical array of [t].  The lemmas here take
    the operations apart into a change of the counts of the ancestors, a gap in
    the array and the correction of the pointers. *)
From S2P Require Import Prelude CString Preorder PreorderFacts Ynode.

Abbreviation ytree_spec := (tree ydata) (only parsing).

(** ** Blocks of memory *)

Section blocks.
Context {A : Type}.
Implicit Types (m : list A).

Lemma mwrite_app i s x y z :
  length x = i → length s = length y → mwrite (x ++ y ++ z) i s = Ok (x ++ s ++ z) (A:=list A).
Proof.
  intros <- Hl. unfold mwrite. rewrite decide_True by (rewrite !length_app; lia).
  rewrite take_app_length, drop_app_ge, drop_app_ge by lia.
  by replace (length x + length s - length x - length y)%nat with 0 by lia.
Qed.

Lemma mread_app i n x y z :
  length x = i → length y = n → mread (x ++ y ++ z) i n = Ok y (A:=list A).
Proof.
  intros <- <-. unfold mread. rewrite decide_True by (rewrite !length_app; lia).
  by rewrite drop_app_length, take_app_length.
Qed.

(** Moving a block to the left, over a part that is deleted. *)
Lemma memmove_left x d y z dst src n :
  length x = dst → src = (dst + length d)%nat → length y = n →
  ∃ g, length g = length d ∧ memmove (x ++ d ++ y ++ z) dst src n = Ok (x ++ y ++ g ++ z) (A:=list A).
Proof.
  intros <- -> <-. unfold memmove.
  rewrite (app_assoc x d), (mread_app _ _ (x ++ d) y z) by (rewrite ?length_app; lia).
  rewrite bind_Ok, <- app_assoc.
  exists (drop (length y) (d ++ y)). split; [rewrite length_drop, length_app; lia|].
  rewrite (app_assoc d y z). rewrite <- (take_drop (length y) (d ++ y)) at 1.
  rewrite <- (app_assoc (take _ _)).
  by rewrite mwrite_app by (rewrite ?length_take, ?length_app; lia).
Qed.
End blocks.

(** ** Gaps *)

Definition new_data (i : Z) : ydata := with_id i zero_data.
Definition new_node (i : Z) : ynode := on_data (with_id i) zero_node.

Lemma insert_gap_spec s a b x sp index :
  mem s = a ++ b ++ x :: sp → count s = (length a + length b)%nat → index = length a →
  (Z.of_nat (count s) < arrsize s)%Z →
  ay_ynode_insert_gap s index
  = Ok (YTree (a ++ new_node (idcnt s) :: b ++ sp) (count s + 1) (arrsize s) (u32 (idcnt s + 1))).
Proof.
  intros Hm Hc -> Ha. unfold ay_ynode_insert_gap.
  rewrite (proj2 (Z.ltb_lt _ _)) by done. cbn [c_assert]. rewrite bind_Ok.
  rewrite nat_sub_Ok, bind_Ok, Hc by lia.
  replace (length a + length b - length a)%nat with (length b) by lia.
  assert (mem s = a ++ (b ++ [x]) ++ sp) as Hm' by (rewrite Hm, <- app_assoc; done).
  assert (memmove (mem s) (length a + 1) (length a) (length b)
    = Ok (a ++ (take 1 (b ++ [x]) ++ b) ++ sp)) as ->.
  { unfold memmove. rewrite Hm, (mread_app _ _ a b (x :: sp)) by done. rewrite bind_Ok.
    rewrite <- Hm, Hm'. rewrite <- (take_drop 1 (b ++ [x])) at 1.
    rewrite <- (app_assoc (take _ _)), app_assoc.
    rewrite mwrite_app;
      [by rewrite <- !app_assoc|rewrite length_app, length_take, length_app; cbn [length]; lia|].
    rewrite length_drop, length_app. cbn [length]. lia. }
  assert (length (take 1 (b ++ [x])) = 1) as Ht.
  { rewrite length_take, length_app. cbn [length]. lia. }
  rewrite bind_Ok. destruct (take 1 (b ++ [x])) as [|y [|]]; [done| |done].
  cbn [app]. rewrite store_Ok by (rewrite length_app; cbn; lia).
  rewrite bind_Ok, insert_app_mid by done. unfold fresh_id, modify.
  rewrite (fetch_Some _ _ zero_node) by (by apply lookup_app_mid).
  rewrite bind_Ok, store_Ok by (rewrite length_app; cbn; lia).
  by rewrite insert_app_mid, bind_Ok by done.
Qed.

Lemma delete_gap_range_spec s a d b sp index items :
  mem s = a ++ d ++ b ++ sp → count s = (length a + length d + length b)%nat →
  index = length a → items = length d →
  ay_ynode_delete_gap_range s index items
  = Ok (YTree (a ++ b ++ replicate items zero_node ++ sp) (count s - items) (arrsize s) (idcnt s)).
Proof.
  intros Hm Hc -> ->. unfold ay_ynode_delete_gap_range.
  rewrite nat_sub_Ok, bind_Ok, Hc by lia.
  destruct (memmove_left a d b sp (length a) (length a + length d) (length b))
    as (g & Hg & Heq); [done..|].
  replace (length a + length d + length b - (length a + length d))%nat with (length b) by lia.
  rewrite Hm, Heq, bind_Ok. rewrite (app_assoc a b).
  rewrite mwrite_app by (rewrite ?length_app, ?length_replicate; lia).
  by rewrite bind_Ok, <- app_assoc.
Qed.

Lemma delete_gap_spec s a x b sp index :
  mem s = a ++ x :: b ++ sp → count s = (length a + 1 + length b)%nat → index = length a →
  ay_ynode_delete_gap s index
  = Ok (YTree (a ++ b ++ zero_node :: sp) (count s - 1) (arrsize s) (idcnt s)).
Proof.
  intros Hm Hc ->. unfold ay_ynode_delete_gap. rewrite nat_sub_Ok, bind_Ok, Hc by lia.
  destruct (memmove_left a [x] b sp (length a) (length a + 1) (length b)) as (g & Hg & Heq);
    [done..|].
  replace (length a + 1 + length b - (length a + 1))%nat with (length b) by lia.
  cbn [app] in Heq. rewrite Hm, Heq, bind_Ok.
  destruct g as [|y [|]]; [done| |done]. cbn [app]. rewrite app_assoc.
  rewrite store_Ok by (rewrite !length_app; cbn; lia). rewrite bind_Ok, insert_app_mid.
  - by rewrite <- app_assoc.
  - rewrite length_app. lia.
Qed.

(** The identifier counter after [n] new nodes. *)
Fixpoint idcnt_after (n : nat) (i : Z) : Z :=
  match n with 0 => i | S n' => idcnt_after n' (u32 (i + 1)) end.

Lemma fresh_ids_spec n s a g b :
  mem s = a ++ g ++ b → length g = n →
  ∃ g', length g' = n ∧
    fresh_ids n (length a) s = Ok (YTree (a ++ g' ++ b) (count s) (arrsize s) (idcnt_after n (idcnt s))).
Proof.
  revert s a g. induction n as [|n IH]; intros s a g Hm Hg.
  - exists []. destruct g; [|done]. split; [done|]. destruct s; cbn in *. by subst.
  - destruct g as [|x g]; [done|]. cbn in Hg. cbn [fresh_ids]. unfold fresh_id, modify.
    rewrite Hm. cbn [app].
    rewrite (fetch_Some _ _ x) by (by apply lookup_app_mid).
    rewrite bind_Ok, store_Ok by (rewrite length_app; cbn; lia).
    rewrite bind_Ok, insert_app_mid by done.
    set (y := on_data _ x).
    destruct (IH (YTree (a ++ y :: g ++ b) (count s) (arrsize s) (u32 (idcnt s + 1)))
      (a ++ [y]) g) as (g' & Hg' & Heq); [cbn; by rewrite <- app_assoc|lia|].
    rewrite length_app in Heq. cbn [length] in Heq. rewrite Nat.add_1_r in Heq.
    exists (y :: g'). split; [cbn; lia|]. rewrite Heq. cbn [count arrsize idcnt idcnt_after].
    by rewrite <- app_assoc.
Qed.

Lemma insert_gap_range_spec s a b z sp index items :
  mem s = a ++ b ++ z ++ sp → count s = (length a + length b)%nat → index = length a →
  length z = items → (Z.of_nat (count s) < arrsize s)%Z →
  ∃ g, length g = items ∧
    ay_ynode_insert_gap_range s index items
    = Ok (YTree (a ++ g ++ b ++ sp) (count s + items) (arrsize s) (idcnt_after items (idcnt s))).
Proof.
  intros Hm Hc -> Hz Ha. unfold ay_ynode_insert_gap_range.
  rewrite (proj2 (Z.ltb_lt _ _)) by done. cbn [c_assert]. rewrite bind_Ok.
  rewrite nat_sub_Ok, bind_Ok, Hc by lia.
  replace (length a + length b - length a)%nat with (length b) by lia.
  assert (∃ g, length g = items ∧
    memmove (mem s) (length a + items) (length a) (length b) = Ok (a ++ g ++ b ++ sp))
    as (g & Hg & ->).
  { exists (take items (b ++ z)). split; [rewrite length_take, length_app; lia|].
    unfold memmove. rewrite Hm, (mread_app _ _ a b (z ++ sp)) by done. rewrite bind_Ok.
    rewrite (app_assoc b z). rewrite <- (take_drop items (b ++ z)) at 1.
    rewrite <- (app_assoc (take _ _)), app_assoc.
    rewrite mwrite_app; [by rewrite <- !app_assoc|rewrite length_app, length_take, length_app; lia|].
    rewrite length_drop, length_app. lia. }
  rewrite bind_Ok.
  destruct (fresh_ids_spec items
    (YTree (a ++ g ++ b ++ sp) (length a + length b + items) (arrsize s) (idcnt s)) a g (b ++ sp))
    as (g' & Hg' & Heq); [done|done|].
  exists g'. split; [done|]. exact Heq.
Qed.

(** ** The representation of a tree *)

Definition repr (s : ytree) (t : tree ydata) : Prop :=
  (∃ spare, mem s = enc 0 None None t ++ spare) ∧ count s = size t ∧
  arrsize s = Z.of_nat (length (mem s)) ∧ (arrsize s < 2 ^ 32)%Z.

(** The same, while the pointers are wrong: only the preorder and the root. *)
Definition raw_repr (s : ytree) (l : list (Z * ydata)) : Prop :=
  (∃ sp, strip <$> mem s = l ++ sp) ∧ count s = length l ∧
  arrsize s = Z.of_nat (length (mem s)) ∧ (arrsize s < 2 ^ 32)%Z ∧
  (∃ r, mem s !! 0 = Some r ∧ parent r = None ∧ next r = None).

(** Fields that an operation does not change. *)
Definition same_counters (s s' : ytree) : Prop :=
  arrsize s' = arrsize s ∧ idcnt s' = idcnt s.

Lemma enc_head b p nx (t : tree ydata) :
  enc b p nx t = Node p nx (first_index (S b) (subtrees t)) (Z.of_nat (sizes (subtrees t)))
    (root_data t) :: encf (S b) (Some b) None (subtrees t).
Proof. destruct t. apply enc_T. Qed.

Lemma strip_enc b p nx (t : tree ydata) : strip <$> enc b p nx t = flat t.
Proof.
  pose proof (strip_encf b p nx [t]) as H. cbn in H. by rewrite !app_nil_r in H.
Qed.

Lemma length_flat (t : tree ydata) : length (flat t) = size t.
Proof. pose proof (length_flats [t]) as H. cbn in H. by rewrite app_nil_r, Nat.add_0_r in H. Qed.

Lemma repr_raw s t : repr s t → raw_repr s (flat t).
Proof.
  intros ([spare Hm] & Hc & Ha & Hlt). split_and!; [|by rewrite length_flat|done|done|].
  - exists (strip <$> spare). by rewrite Hm, fmap_app, strip_enc.
  - rewrite Hm, enc_head. by eexists.
Qed.

(** The elements behind those in use stay. *)
Lemma correction_repr_tail s t :
  raw_repr s (flat t) →
  ∃ s', ay_ynode_tree_correction s = Ok s' ∧ repr s' t ∧ same_counters s s' ∧
    ∀ j, (count s <= j)%nat → mem s' !! j = mem s !! j.
Proof.
  intros ([sp Hs] & Hc & Ha & Hlt & r & Hr & Hp & Hn).
  apply fmap_app_inv in Hs as (live & spare & Hlive & Hspare & Hm).
  destruct live as [|r' raw].
  { apply (f_equal length) in Hlive. rewrite length_flat in Hlive.
    destruct t. rewrite size_T in Hlive. cbn in Hlive. lia. }
  rewrite Hm in Hr. injection Hr as ->.
  assert (length (enc 0 None None t) = length (r :: raw)) as Hlen.
  { rewrite <- (length_fmap strip (enc _ _ _ _)), strip_enc, Hlive. by rewrite length_fmap. }
  unfold ay_ynode_tree_correction. rewrite Hm, Hc, length_flat.
  rewrite <- app_comm_cons, tree_correction_tree.
  - rewrite bind_Ok, Hp, Hn. eexists. split; [done|]. split; [|split; [done|]].
    + split_and!; cbn; [by eexists|by rewrite Hc, length_flat|by rewrite Ha, Hm, !length_app, Hlen|done].
    + cbn. intros j Hj. rewrite app_comm_cons. rewrite <- length_flat, Hlive, length_fmap in Hj.
      rewrite !lookup_app_r by lia. by rewrite Hlen.
  - by rewrite Hlive.
  - rewrite app_comm_cons, <- Hm, <- Ha. done.
Qed.

Lemma correction_repr s t :
  raw_repr s (flat t) →
  ∃ s', ay_ynode_tree_correction s = Ok s' ∧ repr s' t ∧ same_counters s s'.
Proof. intros H. destruct (correction_repr_tail s t H) as (s' & Heq & Hr & Hs & _). eauto. Qed.

(** ** Pieces of the operations *)

Section pieces.
Context (c : list (frame ydata)) (f : list (tree ydata)) (t : tree ydata).
Context (Hplug : plug c f = [t]).

Lemma plug_flat : flat t = cpre c (sizes f) ++ flats f ++ cpost c.
Proof. pose proof (flats_plug c f) as H. rewrite Hplug in H. cbn in H. by rewrite app_nil_r in H. Qed.

Lemma plug_size : size t = (hole c + sizes f + length (cpost c))%nat.
Proof. pose proof (sizes_plug c f) as H. rewrite Hplug in H. cbn in H. lia. Qed.

Lemma plug_encf : encf 0 None None (plug c f) = enc 0 None None t.
Proof. rewrite Hplug. cbn. by rewrite app_nil_r. Qed.

Lemma repr_size s : repr s t → (size t <= length (mem s))%nat ∧ (Z.of_nat (length (mem s)) < 2 ^ 32)%Z.
Proof.
  intros ([spare Hm] & Hc & Ha & Hlt). split; [|lia]. rewrite Hm, length_app.
  rewrite <- (length_fmap strip (enc _ _ _ _)), strip_enc, length_flat. lia.
Qed.

Lemma node_lookup_eq (a b : option ynode) : links <$> a = links <$> b → strip <$> a = strip <$> b → a = b.
Proof. destruct a as [[]|], b as [[]|]; try done. cbn. unfold links, strip. cbn. congruence. Qed.

(** Adding [k] to the ancestors of the hole of a tree. *)
Lemma ancestors_add_spec s k :
  repr s t → (0 ≤ Z.of_nat (sizes f) + k)%Z → (Z.of_nat (size t) + k < 2 ^ 32)%Z →
  ∃ s1 sp, ancestors_add s (hole_parent c) k = Ok s1 ∧ same_counters s s1 ∧
    count s1 = count s ∧ length (mem s1) = length (mem s) ∧ links <$> mem s1 = links <$> mem s ∧
    (∀ j, (count s <= j)%nat → mem s1 !! j = mem s !! j) ∧
    strip <$> mem s1
    = cpre c (Z.to_nat (Z.of_nat (sizes f) + k)) ++ flats f ++ cpost c ++ sp.
Proof.
  intros Hrepr Hk Hmax. destruct (repr_size s Hrepr) as [Hle Hlt].
  pose proof Hrepr as ([spare Hm] & Hc & Ha & _). unfold ancestors_add.
  pose proof (hole_le c f) as Hhl. rewrite Hplug in Hhl. cbn in Hhl. rewrite plug_size in Hmax.
  destruct (add_descendants_spec c f (mem s) (flats f ++ cpost c ++ (strip <$> spare)) (sizes f) k
    (length (mem s))) as (a' & Heq & Hl & Hs).
  - rewrite plug_encf, Hm. apply linked_app.
  - rewrite Hm, fmap_app, strip_enc, plug_flat. by rewrite <- !app_assoc.
  - lia.
  - done.
  - done.
  - lia.
  - rewrite Heq, bind_Ok. exists (set_mem a' s), (strip <$> spare).
    split_and!; [done|done|done| |done| |done]; cbn.
    + by rewrite <- (length_fmap links), Hl, length_fmap.
    + intros j Hj. apply node_lookup_eq; [by rewrite <- !list_lookup_fmap, Hl|].
      rewrite <- !list_lookup_fmap, Hs, Hm, fmap_app, strip_enc, plug_flat, <- !app_assoc.
      pose proof plug_size as Hsz. rewrite !(lookup_app_r (cpre c _)) by (rewrite length_cpre; lia). by rewrite !length_cpre.
Qed.
End pieces.

(** The root of a raw tree is not touched by what happens behind it. *)
Lemma raw_root s : ∀ (a : list ynode) b, mem s = a ++ b → a ≠ [] →
  ∀ s' b', mem s' = a ++ b' → mem s' !! 0 = mem s !! 0.
Proof. intros [|r a] b -> Hne s' b' ->; done. Qed.

Lemma insert_gap_raw s x y sp index :
  strip <$> mem s = x ++ y ++ sp → count s = (length x + length y)%nat → index = length x →
  x ≠ [] → (Z.of_nat (count s) < arrsize s)%Z → arrsize s = Z.of_nat (length (mem s)) →
  ∃ s' sp', ay_ynode_insert_gap s index = Ok s' ∧
    strip <$> mem s' = x ++ (0%Z, new_data (idcnt s)) :: y ++ sp' ∧
    count s' = S (count s) ∧ arrsize s' = arrsize s ∧ length (mem s') = length (mem s) ∧
    idcnt s' = u32 (idcnt s + 1) ∧ mem s' !! 0 = mem s !! 0.
Proof.
  intros Hs Hc -> Hne Hlt Ha.
  apply fmap_app_inv in Hs as (a & r & -> & Hr & Hm).
  apply eq_sym, fmap_app_inv in Hr as (b & z & -> & -> & ->).
  rewrite !length_fmap in Hc. rewrite Hm, !length_app in Ha.
  destruct z as [|n z]; [cbn in Ha; lia|].
  rewrite (insert_gap_spec s a b n z) by (by rewrite ?length_fmap).
  eexists _, (strip <$> z). split; [done|]. cbn [mem count arrsize idcnt].
  split_and!; [|lia|done| |done|].
  - by rewrite fmap_app, fmap_cons, fmap_app.
  - rewrite Hm, !length_app. cbn [length]. rewrite !length_app. cbn [length]. lia.
  - rewrite Hm. destruct a; [done|]. done.
Qed.

(** The elements that are not in use any more are zeroed, those behind them stay. *)
Definition same_tail (s s' : ytree) : Prop := ∀ j, (count s <= j)%nat → mem s' !! j = mem s !! j.
Definition cleared (s s' : ytree) : Prop :=
  (∀ j, (count s' <= j < count s)%nat → mem s' !! j = Some zero_node) ∧ same_tail s s'.

Lemma delete_gap_range_raw s x d y sp index items :
  strip <$> mem s = x ++ d ++ y ++ sp → count s = (length x + length d + length y)%nat →
  index = length x → items = length d → x ≠ [] →
  ∃ s' sp', ay_ynode_delete_gap_range s index items = Ok s' ∧
    strip <$> mem s' = x ++ y ++ sp' ∧
    count s' = (count s - items)%nat ∧ same_counters s s' ∧ length (mem s') = length (mem s) ∧
    mem s' !! 0 = mem s !! 0 ∧ cleared s s'.
Proof.
  intros Hs Hc -> -> Hne.
  apply fmap_app_inv in Hs as (a & r & -> & Hr & Hm).
  apply eq_sym, fmap_app_inv in Hr as (g & z & -> & Hz & ->).
  apply eq_sym, fmap_app_inv in Hz as (b & w & -> & -> & ->).
  rewrite !length_fmap in Hc.
  rewrite (delete_gap_range_spec s a g b w) by (by rewrite ?length_fmap).
  eexists _, (strip <$> (replicate (length g) zero_node ++ w)).
  rewrite length_fmap. split; [done|].
  cbn [mem count arrsize idcnt]. split_and!; [|done|done| | |].
  - by rewrite !fmap_app.
  - rewrite Hm, !length_app, length_replicate. lia.
  - rewrite Hm. destruct a; [done|]. done.
  - split; intros j Hj; cbn [count mem] in *.
    + rewrite app_assoc, lookup_app_r by (rewrite length_app; lia).
      rewrite length_app, lookup_app_l by (rewrite length_replicate; lia). apply lookup_replicate_2. lia.
    + rewrite Hm, !app_assoc. rewrite !lookup_app_r by (rewrite !length_app, ?length_replicate; lia).
      f_equal. rewrite !length_app, length_replicate. lia.
Qed.

(** Setting the descendants of one node. *)
Lemma set_descendants_raw s x n d y index k :
  strip <$> mem s = x ++ (n, d) :: y → index = length x →
  ∃ s', modify_node s index (set_descendants k) = Ok s' ∧
    strip <$> mem s' = x ++ (k, d) :: y ∧ count s' = count s ∧ same_counters s s' ∧
    length (mem s') = length (mem s) ∧
    (∀ r, mem s !! 0 = Some r → ∃ r', mem s' !! 0 = Some r' ∧ links r' = links r).
Proof.
  intros Hs ->. apply fmap_app_inv in Hs as (a & r & -> & Hr & Hm).
  destruct r as [|nd b]; [done|]. cbn in Hr. injection Hr as Hn Hd Hy.
  unfold modify_node, modify. rewrite Hm, length_fmap.
  rewrite (fetch_Some _ _ nd) by (by apply lookup_app_mid).
  rewrite bind_Ok, store_Ok by (rewrite length_app; cbn; lia).
  rewrite bind_Ok, insert_app_mid by done. eexists. split; [done|].
  cbn [mem set_mem count]. split_and!; [|done|done| |].
  - rewrite fmap_app, fmap_cons. unfold strip at 2. cbn. by subst.
  - rewrite !length_app. done.
  - destruct a as [|r0 a]; cbn; intros r [= <-]; eexists; split; done.
Qed.
