(* ===== verification/YnodeSpec.v ===== *)
(** The contract of the insertions and deletions of [Ynode]: on a state that
    represents a rose tree they succeed and represent the tree with the subtree
    inserted or deleted at that place.  A place is a context [c] with
    [plug c f = [t]]; the index of the first node of [f] is [hole c]. *)
From S2P Require Import Prelude CString Preorder PreorderFacts Ynode YnodeFacts.

(** The state represents the forest [f] in the context [c]. *)
Definition repr_in (s : ytree) (c : list (frame ydata)) (f : list (tree ydata)) : Prop :=
  ∃ t, plug c f = [t] ∧ repr s t.

(** Room for [n] more nodes. *)
Definition has_space (s : ytree) (n : nat) : Prop :=
  (Z.of_nat n + Z.of_nat (count s) ≤ arrsize s)%Z.

(** ** Common lemmas *)

Ltac lengths :=
  repeat first
    [ rewrite length_app | rewrite length_cpre | rewrite length_flats | rewrite sizes_app
    | rewrite size_T | rewrite length_fmap | progress cbn [length sizes] ].


Lemma plug_single (c : list (frame ydata)) u : ∃ t, plug c [u] = [t].
Proof. revert u. induction c as [|[d ls rs] c IH]; intros u; [by exists u|]. apply IH. Qed.

Lemma plug_frame_single (c : list (frame ydata)) x f : ∃ t, plug (x :: c) f = [t].
Proof. destruct x as [d ls rs]. cbn. apply plug_single. Qed.

Lemma space_ok s n : has_space s n → space_for s (Z.of_nat n) = Ok tt.
Proof. intros H. apply c_assert_true, Z.leb_le. unfold has_space in H. lia. Qed.

(** Two views of the same place. *)
Lemma repr_in_view s c f c' f' : plug c f = plug c' f' → repr_in s c f → repr_in s c' f'.
Proof. intros H (t & Ht & Hr). exists t. by rewrite <- H. Qed.

Lemma repr_in_fetch s c u us :
  repr_in s c (u :: us) →
  ∃ n, fetch (mem s) (hole c) = Ok n ∧ parent n = hole_parent c ∧
    next n = after us (hole c + size u) (hole_next c (sizes (u :: us))) ∧
    child n = first_index (S (hole c)) (subtrees u) ∧
    descendants n = Z.of_nat (sizes (subtrees u)) ∧ data n = root_data u.
Proof.
  intros (t & Ht & [spare Hm] & _). pose proof (lookup_hole c u us) as H.
  rewrite (plug_encf c (u :: us) t Ht) in H.
  eexists. split; [apply fetch_Some; rewrite Hm; apply lookup_app_l_Some, H|]. done.
Qed.

Lemma hole_pos (c : list (frame ydata)) : c ≠ [] → (0 < hole c)%nat.
Proof. destruct c as [|[d ls rs] c']; [done|]. cbn. lia. Qed.

Section insertion.
Context (c : list (frame ydata)) (us rest : list (tree ydata)).
Context (s : ytree) (Hc : c ≠ []).
Context (Hrepr : repr_in s c (us ++ rest)) (Hspace : has_space s 1).

(** The counts of the ancestors, then the gap at the hole. *)
Lemma insert_prepare :
  ∃ s1 s2, ancestors_add s (hole_parent c) 1 = Ok s1 ∧
    links <$> mem s1 = links <$> mem s ∧ length (mem s1) = length (mem s) ∧
    (strip <$> take (hole c) (mem s1)) = cpre c (S (sizes (us ++ rest))) ∧
    ay_ynode_insert_gap s1 (hole c) = Ok s2 ∧
    (∃ sp, strip <$> mem s2 = cpre c (S (sizes (us ++ rest)))
      ++ (0%Z, new_data (idcnt s)) :: flats us ++ flats rest ++ cpost c ++ sp) ∧
    count s2 = S (count s) ∧ arrsize s2 = arrsize s ∧ length (mem s2) = length (mem s) ∧
    idcnt s2 = u32 (idcnt s + 1) ∧ 
    (∃ r, mem s2 !! 0 = Some r ∧ parent r = None ∧ next r = None).
Proof.
  destruct Hrepr as (t & Ht & Hr). pose proof Hr as ([spare Hm] & Hcount & Ha & Hlt).
  destruct (repr_size t s Hr) as [Hle Hlen].
  pose proof (plug_size c (us ++ rest) t Ht) as Hsz. unfold has_space in Hspace.
  destruct (ancestors_add_spec c (us ++ rest) t Ht s 1 Hr) as
    (s1 & sp & H1 & [Ha1 Hi1] & Hc1 & Hl1 & Hk1 & Ht1 & Hs1); [lia|lia|].
  replace (Z.to_nat (Z.of_nat (sizes (us ++ rest)) + 1)) with (S (sizes (us ++ rest))) in Hs1
    by lia.
  destruct (insert_gap_raw s1 (cpre c (S (sizes (us ++ rest)))) (flats (us ++ rest) ++ cpost c) sp
    (hole c)) as (s2 & sp' & H2 & Hs2 & Hc2 & Ha2 & Hl2 & Hi2 & Hr2).
  - by rewrite <- app_assoc.
  - rewrite length_app, length_cpre, length_flats, Hc1, Hcount. lia.
  - by rewrite length_cpre.
  - intros H0. apply (f_equal length) in H0. rewrite length_cpre in H0. cbn in H0.
    pose proof (hole_pos c Hc). lia.
  - rewrite Ha1, Hc1, Hcount. lia.
  - by rewrite Ha1, Hl1.
  - exists s1, s2. split_and!; [done|done|done| |done| |by rewrite Hc2, Hc1|by rewrite Ha2, Ha1|
      by rewrite Hl2, Hl1|by rewrite Hi2, Hi1|].
    + rewrite fmap_take, Hs1. rewrite <- (length_cpre c (S (sizes (us ++ rest)))).
      apply take_app_length.
    + exists sp'. rewrite Hs2, Hi1, flats_app, <- !app_assoc. done.
    + rewrite Hr2. apply (f_equal (λ l, l !! 0)) in Hk1. rewrite !list_lookup_fmap in Hk1.
      rewrite Hm, enc_head in Hk1. cbn in Hk1.
      destruct (mem s1 !! 0) as [r|]; [|done]. exists r. cbn in Hk1. by injection Hk1 as -> -> _.
Qed.

(** A gap that becomes the parent of [us]. *)
Lemma insert_finish s2 d :
  (∃ sp, strip <$> mem s2 = cpre c (S (sizes (us ++ rest)))
      ++ (Z.of_nat (sizes us), d) :: flats us ++ flats rest ++ cpost c ++ sp) →
  count s2 = S (count s) → arrsize s2 = arrsize s → length (mem s2) = length (mem s) →
  (∃ r, mem s2 !! 0 = Some r ∧ parent r = None ∧ next r = None) →
  ∃ s3, ay_ynode_tree_correction s2 = Ok s3 ∧ repr_in s3 c (T d us :: rest) ∧
    same_counters s2 s3.
Proof.
  intros [sp Hs] Hc2 Ha2 Hl2 Hroot. destruct Hrepr as (t & Ht & Hr).
  pose proof Hr as ([spare Hm] & Hcount & Ha & Hlt).
  pose proof (plug_size c (us ++ rest) t Ht) as Hsz.
  assert (∃ t', plug c (T d us :: rest) = [t']) as [t' Ht'].
  { destruct c as [|x c']; [done|]. apply plug_frame_single. }
  destruct (correction_repr s2 t') as (s3 & H3 & Hr3 & Hc3).
  - rewrite (plug_flat _ _ _ Ht'). cbn [sizes flats]. rewrite size_T, flat_T.
    rewrite sizes_app in Hs, Hsz.
    split; [exists sp; rewrite Hs; cbn [app]; rewrite <- ?app_assoc; cbn [app]; by rewrite <- ?app_assoc|].
    split; [rewrite Hc2, Hcount, Hsz; lengths; lia|].
    split; [congruence|]. split; [congruence|done].
  - exists s3. split; [done|]. split; [|done]. by exists t'.
Qed.

Lemma insert_over_spec :
  ∃ s', (s1 ← ancestors_add s (hole_parent c) 1;
         s2 ← ay_ynode_insert_gap s1 (hole c);
         s3 ← modify_node s2 (hole c) (set_descendants (Z.of_nat (sizes us)));
         ay_ynode_tree_correction s3) = Ok s' ∧
    repr_in s' c (T (new_data (idcnt s)) us :: rest) ∧
    arrsize s' = arrsize s ∧ idcnt s' = u32 (idcnt s + 1).
Proof.
  destruct insert_prepare as (s1 & s2 & -> & _ & _ & _ & H2 & [sp Hs2] & Hc2 & Ha2 & Hl2 & Hi2 & Hr2).
  rewrite bind_Ok, H2, bind_Ok.
  destruct (set_descendants_raw s2 (cpre c (S (sizes (us ++ rest)))) 0 (new_data (idcnt s))
    (flats us ++ flats rest ++ cpost c ++ sp) (hole c) (Z.of_nat (sizes us)))
    as (s3 & -> & Hs3 & Hc3 & [Ha3 Hi3] & Hl3 & Hr3); [done|by rewrite length_cpre|].
  rewrite bind_Ok.
  destruct (insert_finish s3 (new_data (idcnt s))) as (s4 & -> & Hrep & [Ha4 Hi4]).
  - by exists sp.
  - by rewrite Hc3.
  - by rewrite Ha3.
  - by rewrite Hl3.
  - destruct Hr2 as (r & Hr & Hp & Hn). destruct (Hr3 r Hr) as (r' & ? & Hlk).
    exists r'. injection Hlk as Hlp Hln Hlc. split_and!; congruence.
  - exists s4. split_and!; [done|done|by rewrite Ha4, Ha3|by rewrite Hi4, Hi3].
Qed.
End insertion.

Lemma insert_leaf_spec c f s :
  c ≠ [] → repr_in s c f → has_space s 1 →
  ∃ s', (s1 ← ancestors_add s (hole_parent c) 1;
         s2 ← ay_ynode_insert_gap s1 (hole c);
         ay_ynode_tree_correction s2) = Ok s' ∧
    repr_in s' c (T (new_data (idcnt s)) [] :: f) ∧
    arrsize s' = arrsize s ∧ idcnt s' = u32 (idcnt s + 1).
Proof.
  intros Hc Hrepr Hspace.
  destruct (insert_prepare c [] f s Hc Hrepr Hspace)
    as (s1 & s2 & -> & _ & _ & _ & H2 & Hs2 & Hc2 & Ha2 & Hl2 & Hi2 & Hr2).
  rewrite bind_Ok, H2, bind_Ok.
  destruct (insert_finish c [] f s Hc Hrepr s2 (new_data (idcnt s)) Hs2 Hc2 Ha2 Hl2 Hr2)
    as (s3 & -> & Hrep & [Ha3 Hi3]).
  exists s3. split_and!; [done|done|by rewrite Ha3|by rewrite Hi3].
Qed.

(** ** Following the siblings *)

(** The indices of the roots of a forest that starts at [b]. *)
Fixpoint positions (b : nat) (us : list (tree ydata)) : list nat :=
  match us with [] => [] | u :: us' => b :: positions (b + size u) us' end.

Section siblings.
Context (s : ytree) (c : list (frame ydata)) (d : ydata).

(** The siblings from a node to the last one. *)
Definition at_end (ls us : list (tree ydata)) : Prop := repr_in s (Frame d ls [] :: c) us.

Lemma at_end_step ls u us :
  at_end ls (u :: us) →
  at_end (ls ++ [u]) us ∧
  ∃ n, fetch (mem s) (S (hole c) + sizes ls) = Ok n ∧
    next n = first_index (S (hole c) + sizes (ls ++ [u])) us ∧
    descendants n = Z.of_nat (sizes (subtrees u)) ∧ data n = root_data u.
Proof.
  intros H. split.
  - unfold at_end in *. apply (repr_in_view s (Frame d ls [] :: c) (u :: us)); [|done].
    cbn. by rewrite <- app_assoc.
  - destruct (repr_in_fetch s _ u us H) as (n & Hn & _ & Hnx & _ & Hd & Hdat). cbn [hole] in Hn.
    exists n. split_and!; [done| |done|done].
    rewrite Hnx. cbn [hole hole_next]. rewrite sizes_app. cbn [sizes].
    destruct us; cbn; f_equal; lia.
Qed.

Lemma rest_descendants_ok us ls fuel sum :
  at_end ls us → (length us <= fuel)%nat → (0 ≤ sum)%Z →
  (sum + Z.of_nat (sizes us) < 2 ^ 32)%Z →
  rest_descendants fuel (mem s) (first_index (S (hole c) + sizes ls) us) sum
  = Ok (sum + Z.of_nat (sizes us))%Z.
Proof.
  revert ls fuel sum. induction us as [|[e cs] us IH]; intros ls fuel sum H Hf H0 Hmax.
  - destruct fuel; cbn; f_equal; lia.
  - destruct fuel as [|fuel]; [cbn in Hf; lia|]. cbn [first_index rest_descendants].
    destruct (at_end_step ls _ us H) as (H' & n & -> & Hn & Hd & _).
    cbn [sizes] in Hmax. rewrite size_T in Hmax. cbn [subtrees] in Hd.
    rewrite bind_Ok, Hd, Hn, u32_small by lia. cbn in Hf. rewrite IH by (done || lia).
    f_equal. cbn [sizes]. rewrite size_T. lia.
Qed.

Lemma siblings_from_ok us ls fuel :
  at_end ls us → (length us <= fuel)%nat →
  siblings_from fuel (mem s) (first_index (S (hole c) + sizes ls) us)
  = Ok (positions (S (hole c) + sizes ls) us).
Proof.
  revert ls fuel. induction us as [|u us IH]; intros ls fuel H Hf; [by destruct fuel|].
  destruct fuel as [|fuel]; [cbn in Hf; lia|]. cbn [first_index siblings_from positions].
  destruct (at_end_step ls _ us H) as (H' & n & -> & Hn & _). cbn in Hf.
  rewrite bind_Ok, Hn, IH by (done || lia). rewrite sizes_app. cbn [sizes].
  by rewrite Nat.add_0_r, Nat.add_assoc.
Qed.

Lemma last_from_ok us u ls fuel :
  at_end ls (us ++ [u]) → (length us < fuel)%nat →
  last_from fuel (mem s) (S (hole c) + sizes ls) = Ok (S (hole c) + sizes (ls ++ us))%nat.
Proof.
  revert ls fuel. induction us as [|v us IH]; intros ls fuel H Hf;
    (destruct fuel as [|fuel]; [cbn in Hf; lia|]); cbn [last_from].
  - destruct (at_end_step ls u [] H) as (_ & n & -> & Hn & _).
    rewrite bind_Ok, Hn. by rewrite app_nil_r.
  - destruct (at_end_step ls v (us ++ [u]) H) as (H' & n & -> & Hn & _).
    rewrite bind_Ok, Hn. cbn in Hf.
    assert (first_index (S (hole c) + sizes (ls ++ [v])) (us ++ [u])
      = Some (S (hole c) + sizes (ls ++ [v]))%nat) as -> by (by destruct us).
    rewrite (IH (ls ++ [v])) by (done || lia). by rewrite <- app_assoc.
Qed.

Lemma at_end_length ls us : at_end ls us → (length us < length (mem s))%nat.
Proof.
  intros (t & Ht & Hr). pose proof (repr_size t s Hr) as [Hle _].
  pose proof (plug_size _ _ _ Ht) as Hsz. cbn [hole] in Hsz.
  enough (length us <= sizes us)%nat by lia. clear.
  induction us as [|u us IH]; cbn; [lia|]. pose proof (size_pos u). lia.
Qed.
End siblings.

(** ** Insertions *)

Section inserts.
Context (c : list (frame ydata)) (s : ytree) (Hspace : has_space s 1).

Definition inserted (s' : ytree) (f : list (tree ydata)) : Prop :=
  repr_in s' c f ∧ arrsize s' = arrsize s ∧ idcnt s' = u32 (idcnt s + 1).

Lemma space_1 : space_for s 1 = Ok tt.
Proof. by apply (space_ok s 1). Qed.

(** The context of the children of a node. *)
Lemma hole_children (d : ydata) : hole (Frame d [] [] :: c) = S (hole c).
Proof. cbn. by rewrite Nat.add_0_r. Qed.

Lemma plug_children (d : ydata) f : plug (Frame d [] [] :: c) f = plug c [T d f].
Proof. cbn. by rewrite app_nil_r. Qed.

Lemma repr_children s0 d f : repr_in s0 c [T d f] ↔ repr_in s0 (Frame d [] [] :: c) f.
Proof. unfold repr_in. by rewrite plug_children. Qed.

Lemma insert_child_ok d cs :
  repr_in s c [T d cs] →
  ∃ s', ay_ynode_insert_child s (hole c) = Ok s' ∧
    inserted s' [T d (T (new_data (idcnt s)) [] :: cs)].
Proof.
  intros H%repr_children. unfold ay_ynode_insert_child.
  rewrite space_1, bind_Ok.
  destruct (insert_leaf_spec (Frame d [] [] :: c) cs s) as (s' & Heq & Hr & Ha & Hi); [done..|].
  rewrite hole_children in Heq. rewrite Nat.add_1_r. exists s'.
  split; [exact Heq|]. split; [by apply repr_children|done].
Qed.

Lemma insert_wrapper_ok u :
  c ≠ [] → repr_in s c [u] →
  ∃ s', ay_ynode_insert_wrapper s (hole c) = Ok s' ∧ inserted s' [T (new_data (idcnt s)) [u]].
Proof.
  intros Hc H. unfold ay_ynode_insert_wrapper. rewrite space_1, bind_Ok.
  destruct (repr_in_fetch s c u [] H) as (n & -> & Hp & _). rewrite bind_Ok, Hp.
  destruct (insert_over_spec c [u] [] s Hc H Hspace) as (s' & Heq & Hr & Ha & Hi).
  destruct (insert_prepare c [u] [] s Hc H Hspace)
    as (s1 & s2 & H1 & _ & _ & _ & H2 & [sp Hs2] & _).
  rewrite H1, bind_Ok, H2, bind_Ok in Heq. rewrite H1, bind_Ok, H2, bind_Ok.
  destruct u as [d cs].
  destruct (strip_lookup (mem s2) (hole c + 1) (Z.of_nat (sizes cs)) d) as (w & Hw & Hd & _).
  { rewrite Hs2, lookup_app_r, length_cpre by (rewrite length_cpre; lia).
    by replace (hole c + 1 - hole c)%nat with 1 by lia. }
  rewrite (fetch_Some _ _ _ Hw), bind_Ok, Hd.
  destruct H as (t & Ht & Hrep). pose proof (repr_size t s Hrep) as [Hle Hlt].
  pose proof (plug_size c [T d cs] t Ht) as Hsz. cbn [sizes] in Hsz. rewrite size_T in Hsz.
  rewrite u32_small by lia.
  cbn [sizes] in Heq. rewrite size_T, Nat.add_0_r in Heq.
  replace (Z.of_nat (sizes cs) + 1)%Z with (Z.of_nat (S (sizes cs))) by lia.
  exists s'. split; [exact Heq|done].
Qed.

Lemma insert_parent_ok d cs k ls u rs :
  cs = ls ++ u :: rs → k = (S (hole c) + sizes ls)%nat → repr_in s c [T d cs] →
  ∃ s', ay_ynode_insert_parent s k = Ok s' ∧ inserted s' [T d [T (new_data (idcnt s)) cs]].
Proof.
  intros Hcs -> H. unfold ay_ynode_insert_parent. rewrite space_1, bind_Ok.
  assert (repr_in s (Frame d ls rs :: c) [u]) as Hu by (by apply (repr_in_view s c [T d cs]); [rewrite Hcs|]).
  destruct (repr_in_fetch s _ u [] Hu) as (n & Hn & Hp & _). cbn [hole] in Hn.
  rewrite Hn, bind_Ok, Hp. cbn [hole_parent is_Some]. rewrite bool_decide_true by eauto.
  cbn [c_assert]. rewrite bind_Ok.
  pose proof H as H'%repr_children.
  destruct (insert_over_spec (Frame d [] [] :: c) cs [] s ltac:(done)) as (s' & Heq & Hr & Ha & Hi);
    [by rewrite app_nil_r|done|].
  destruct (insert_prepare (Frame d [] [] :: c) cs [] s ltac:(done))
    as (s1 & s2 & H1 & Hl1 & _ & _ & H2 & [sp Hs2] & _); [by rewrite app_nil_r|done|].
  cbn [hole_parent] in H1, Heq. rewrite H1, bind_Ok, H2, bind_Ok in Heq. rewrite H1, bind_Ok.
  cbn [deref]. rewrite bind_Ok.
  destruct (repr_in_fetch s c (T d cs) [] H) as (pn & Hpn & _ & _ & Hch & _ & _).
  assert (∃ pn', fetch (mem s1) (hole c) = Ok pn' ∧ child pn' = Some (S (hole c)))
    as (pn' & -> & Hch').
  { apply fetch_Ok in Hpn. apply (f_equal (λ l, l !! hole c)) in Hl1.
    rewrite !list_lookup_fmap, Hpn in Hl1. destruct (mem s1 !! hole c) as [pn'|] eqn:E; [|done].
    exists pn'. split; [by apply fetch_Some|]. cbn in Hl1. injection Hl1 as _ _ ->.
    rewrite Hch, Hcs. by destruct ls. }
  rewrite bind_Ok, Hch'. cbn [deref]. rewrite bind_Ok.
  rewrite hole_children in H2, Heq. rewrite H2, bind_Ok.
  replace (S (hole c) - 1)%nat with (hole c) by lia.
  rewrite app_nil_r in Hs2. cbn [cpre flats sizes] in Hs2. rewrite <- app_assoc in Hs2.
  destruct (strip_lookup (mem s2) (hole c) (Z.of_nat (S (sizes cs))) d) as (w & Hw & Hd & _).
  { rewrite Hs2, lookup_app_r, length_cpre by (rewrite length_cpre; lia).
    rewrite Nat.sub_diag. cbn. by rewrite Nat.add_0_r. }
  rewrite (fetch_Some _ _ _ Hw), bind_Ok, Hd.
  destruct H as (t & Ht & Hrep). pose proof (repr_size t s Hrep) as [Hle Hlt].
  pose proof (plug_size c [T d cs] t Ht) as Hsz. cbn [sizes] in Hsz. rewrite size_T in Hsz.
  rewrite u32_small by lia.
  replace (Z.of_nat (S (sizes cs)) - 1)%Z with (Z.of_nat (sizes cs)) by lia.
  exists s'. split; [exact Heq|]. split; [by apply repr_children|done].
Qed.

Lemma insert_parent_for_rest_ok d ls u rs c' :
  c = Frame d ls [] :: c' → repr_in s c (u :: rs) →
  ∃ s', ay_ynode_insert_parent_for_rest s (hole c) = Ok s' ∧
    inserted s' [T (new_data (idcnt s)) (u :: rs)].
Proof.
  intros Hc H. unfold ay_ynode_insert_parent_for_rest. rewrite space_1, bind_Ok.
  assert (at_end s c' d ls (u :: rs)) as He by (unfold at_end; by rewrite <- Hc).
  pose proof (at_end_length s c' d ls _ He) as Hlen.
  destruct H as (t & Ht & Hrep). pose proof (repr_size t s Hrep) as [Hle Hlt].
  pose proof (plug_size c (u :: rs) t Ht) as Hsz.
  assert (repr_in s c (u :: rs)) as H by (by exists t).
  pose proof (rest_descendants_ok s c' d (u :: rs) ls (length (mem s)) 0 He ltac:(lia) ltac:(lia)
    ltac:(lia)) as Hrd.
  cbn [first_index] in Hrd.
  assert ((S (hole c') + sizes ls)%nat = hole c) as Hh by (by rewrite Hc). rewrite Hh in Hrd.
  rewrite Hrd, bind_Ok, Z.add_0_l.
  destruct (repr_in_fetch s c u rs H) as (n & -> & Hp & _). rewrite bind_Ok, Hp.
  destruct (insert_over_spec c (u :: rs) [] s) as (s' & Heq & Hr & Ha & Hi);
    [by rewrite Hc|by rewrite app_nil_r|done|].
  exists s'. done.
Qed.

Lemma insert_leaf_after d ls u rs c' k :
  c = Frame d (ls ++ [u]) rs :: c' → k = (S (hole c') + sizes ls)%nat →
  repr_in s (Frame d ls rs :: c') [u] →
  ∃ s', ay_ynode_insert_sibling s k = Ok s' ∧ inserted s' [T (new_data (idcnt s)) []].
Proof.
  intros Hc -> H. unfold ay_ynode_insert_sibling. rewrite space_1, bind_Ok.
  destruct (repr_in_fetch s _ u [] H) as (n & Hn & Hp & _ & _ & Hd & _). cbn [hole] in Hn.
  rewrite Hn, bind_Ok, Hp. cbn [hole_parent]. unfold below. rewrite Hd, Nat2Z.id.
  assert ((S (hole c') + sizes ls + sizes (subtrees u) + 1)%nat = hole c) as ->.
  { rewrite Hc. cbn [hole]. rewrite sizes_app. cbn [sizes]. destruct u as [e cs].
    rewrite size_T. cbn [subtrees]. lia. }
  destruct (insert_over_spec c [] [] s) as (s' & Heq & Hr & Ha & Hi); [by rewrite Hc| |done|].
  - apply (repr_in_view s (Frame d ls rs :: c') [u]); [|done]. rewrite Hc. cbn.
    by rewrite <- app_assoc.
  - rewrite Hc in Heq at 1. cbn [hole_parent sizes] in Heq. exists s'. done.
Qed.
End inserts.

Lemma insert_sibling_ok c s d ls u rs :
  has_space s 1 → repr_in s (Frame d ls rs :: c) [u] →
  ∃ s', ay_ynode_insert_sibling s (hole (Frame d ls rs :: c)) = Ok s' ∧
    inserted (Frame d ls rs :: c) s s' [u; T (new_data (idcnt s)) []].
Proof.
  intros Hsp H.
  destruct (insert_leaf_after _ s Hsp d ls u rs c _ eq_refl eq_refl H) as (s' & Heq & Hr & Hs').
  exists s'. split; [exact Heq|]. split; [|done].
  revert Hr. apply repr_in_view. cbn. by rewrite <- app_assoc.
Qed.

Lemma insert_child_last_ok c s d cs :
  has_space s 1 → repr_in s c [T d cs] →
  ∃ s', ay_ynode_insert_child_last s (hole c)
    = Ok (s', Some (S (hole c) + sizes cs)%nat) ∧
    inserted c s s' [T d (cs ++ [T (new_data (idcnt s)) []])].
Proof.
  intros Hsp H. unfold ay_ynode_insert_child_last. rewrite space_1, bind_Ok by done.
  destruct (repr_in_fetch s c _ [] H) as (n & -> & _ & _ & Hch & _). rewrite bind_Ok, Hch.
  cbn [subtrees]. destruct cs as [|v vs _] using rev_ind.
  - cbn [first_index].
    destruct (insert_child_ok c s Hsp d [] H) as (s' & -> & Hins). rewrite bind_Ok.
    destruct (repr_in_fetch s' c _ [] (proj1 Hins)) as (n' & -> & _ & _ & Hch' & _).
    rewrite bind_Ok, Hch'. cbn [subtrees first_index sizes].
    exists s'. rewrite Nat.add_0_r. done.
  - assert (first_index (S (hole c)) (vs ++ [v]) = Some (S (hole c))) as -> by (by destruct vs).
    assert (at_end s c d [] (vs ++ [v])) as He.
    { apply (repr_in_view s c [T d (vs ++ [v])]); [|done]. cbn. by rewrite app_nil_r. }
    pose proof (at_end_length s c d [] _ He) as Hlen. rewrite length_app in Hlen. cbn in Hlen.
    pose proof (last_from_ok s c d vs v [] (length (mem s)) He ltac:(lia)) as Hlast.
    cbn [sizes app] in Hlast. rewrite Nat.add_0_r in Hlast. rewrite Hlast, bind_Ok.
    destruct (insert_sibling_ok c s d vs v []) as (s' & Heq & Hins); [done| |].
    { apply (repr_in_view s c [T d (vs ++ [v])]); [|done]. done. }
    cbn [hole] in Heq. rewrite Heq, bind_Ok. destruct Hins as (Hr & Ha & Hi).
    destruct (repr_in_fetch s' _ v _ Hr) as (n' & Hn' & _ & Hnx & _). cbn [hole] in Hn'.
    rewrite Hn', bind_Ok, Hnx. exists s'. split.
    + cbn [after hole sizes]. rewrite sizes_app. cbn [sizes]. do 3 f_equal. lia.
    + split; [|done]. revert Hr. apply repr_in_view. cbn. by rewrite <- app_assoc.
Qed.

(** ** Deletions *)

Lemma cleared_correction s s1 s2 s3 t :
  count s1 = count s → same_tail s s1 → cleared s1 s2 → same_tail s2 s3 →
  (count s2 <= count s1)%nat → repr s3 t → count s2 = size t → cleared s s3.
Proof.
  intros Hc1 H1 [Hz H2] H3 Hle (_ & Hc & _) Hc2. split; intros j Hj.
  - rewrite H3 by lia. apply Hz. lia.
  - rewrite H3, H2 by lia. by apply H1.
Qed.

Section deletion.
Context (c : list (frame ydata)) (s : ytree) (us rest : list (tree ydata)).
Context (Hc : c ≠ []) (Hrepr : repr_in s c (us ++ rest)).

(** The counts of the ancestors, the deletion of the elements and the
    correction. *)
Lemma delete_forest_spec :
  ∃ s', (s1 ← ancestors_add s (hole_parent c) (- Z.of_nat (sizes us));
         s2 ← ay_ynode_delete_gap_range s1 (hole c) (sizes us);
         ay_ynode_tree_correction s2) = Ok s' ∧
    repr_in s' c rest ∧ same_counters s s' ∧ cleared s s'.
Proof.
  destruct Hrepr as (t & Ht & Hr). pose proof Hr as ([spare Hm] & Hcount & Ha & Hlt).
  destruct (repr_size t s Hr) as [Hle Hlen].
  pose proof (plug_size c (us ++ rest) t Ht) as Hsz. rewrite sizes_app in Hsz.
  destruct (ancestors_add_spec c (us ++ rest) t Ht s (- Z.of_nat (sizes us)) Hr) as
    (s1 & sp & -> & [Ha1 Hi1] & Hc1 & Hl1 & Hk1 & Ht1 & Hs1); [rewrite sizes_app; lia|lia|].
  rewrite sizes_app in Hs1.
  replace (Z.to_nat (Z.of_nat (sizes us + sizes rest) + - Z.of_nat (sizes us)))
    with (sizes rest) in Hs1 by lia.
  rewrite bind_Ok.
  destruct (delete_gap_range_raw s1 (cpre c (sizes rest)) (flats us) (flats rest ++ cpost c) sp
    (hole c) (sizes us)) as (s2 & sp' & -> & Hs2 & Hc2 & [Ha2 Hi2] & Hl2 & Hr2 & Hz2).
  - by rewrite Hs1, flats_app, <- !app_assoc.
  - lengths. lia.
  - by rewrite length_cpre.
  - by rewrite length_flats.
  - intros H0. apply (f_equal length) in H0. rewrite length_cpre in H0. cbn in H0.
    pose proof (hole_pos c Hc). lia.
  - rewrite bind_Ok.
    assert (∃ t', plug c rest = [t']) as [t' Ht'].
    { destruct c as [|x c']; [done|]. apply plug_frame_single. }
    destruct (correction_repr_tail s2 t') as (s3 & -> & Hr3 & [Ha3 Hi3] & Ht3).
    + rewrite (plug_flat _ _ _ Ht').
      split; [exists sp'; rewrite Hs2; by rewrite <- !app_assoc|].
      split; [rewrite Hc2, Hc1, Hcount, Hsz; lengths; lia|].
      split; [congruence|]. split; [congruence|].
      rewrite Hr2. apply (f_equal (λ l, l !! 0)) in Hk1. rewrite !list_lookup_fmap in Hk1.
      rewrite Hm, enc_head in Hk1. cbn in Hk1.
      destruct (mem s1 !! 0) as [r|]; [|done]. exists r. cbn in Hk1.
      injection Hk1 as -> -> _. done.
    + exists s3. split; [done|]. split; [by exists t'|]. split; [split; congruence|].
      apply (cleared_correction s s1 s2 s3 t'); [by rewrite Hc1|done|done|done|rewrite Hc2; lia|done|].
      rewrite (plug_size _ _ _ Ht'). lia.
Qed.
End deletion.

Lemma delete_subtree_clears c s u :
  c ≠ [] → repr_in s c [u] →
  ∃ s', ay_ynode_delete_subtree s (hole c) = Ok s' ∧ repr_in s' c [] ∧ same_counters s s' ∧ cleared s s'.
Proof.
  intros Hc H. unfold ay_ynode_delete_subtree.
  destruct (repr_in_fetch s c u [] H) as (n & -> & Hp & _ & _ & Hd & _). rewrite bind_Ok, Hd, Hp.
  destruct H as (t & Ht & Hrep). pose proof (repr_size t s Hrep) as [Hle Hlt].
  pose proof (plug_size c [u] t Ht) as Hsz. cbn [sizes] in Hsz.
  assert (size u = S (sizes (subtrees u))) as Hu by (by destruct u).
  rewrite u32_small by lia. replace (Z.of_nat (sizes (subtrees u)) + 1)%Z
    with (Z.of_nat (sizes [u])) by (cbn [sizes]; lia).
  rewrite Nat2Z.id. apply (delete_forest_spec c s [u] []); [done|]. by exists t.
Qed.

Lemma delete_subtree_ok c s u :
  c ≠ [] → repr_in s c [u] →
  ∃ s', ay_ynode_delete_subtree s (hole c) = Ok s' ∧ repr_in s' c [] ∧ same_counters s s'.
Proof. intros Hc H. destruct (delete_subtree_clears c s u Hc H) as (s' & Heq & Hr & Hs & _). eauto. Qed.

Lemma delete_children_ok c s d cs :
  repr_in s c [T d cs] →
  ∃ s', ay_ynode_delete_children s (hole c) false = Ok s' ∧ repr_in s' c [T d []] ∧
    same_counters s s'.
Proof.
  intros H. unfold ay_ynode_delete_children.
  destruct (repr_in_fetch s c _ [] H) as (n & -> & _ & _ & _ & Hd & _). cbn [subtrees] in Hd.
  rewrite !bind_Ok, Hd. destruct cs as [|v cs].
  { exists s. done. }
  pose proof (size_pos v). cbn [sizes] in *.
  rewrite (proj2 (Z.eqb_neq _ _)) by lia. cbn [deref]. rewrite bind_Ok.
  pose proof H as H'%repr_children.
  destruct (repr_in_fetch s _ v cs H') as (fn & Hfn & Hp & _). rewrite hole_children in Hfn.
  rewrite Hfn, bind_Ok, Hp, Nat2Z.id.
  destruct (delete_forest_spec (Frame d [] [] :: c) s (v :: cs) [] ltac:(done))
    as (s' & Heq & Hr & Hs' & _); [by rewrite app_nil_r|].
  rewrite hole_children in Heq. cbn [sizes] in Heq. exists s'.
  split; [exact Heq|]. split; [by apply repr_children|done].
Qed.

(** ** Changing the data of nodes *)

Definition map_root (g : ydata → ydata) (u : tree ydata) : tree ydata :=
  match u with T d ts => T (g d) ts end.

Lemma map_root_size g u : size (map_root g u) = size u.
Proof. by destruct u. Qed.

Lemma map_root_sizes g us : sizes (map_root g <$> us) = sizes us.
Proof. induction us as [|u us IH]; cbn; [done|]. by rewrite map_root_size, IH. Qed.

Lemma modify_data_ok s c g d cs us :
  repr_in s c (T d cs :: us) →
  ∃ s', modify_node s (hole c) (on_data g) = Ok s' ∧ repr_in s' c (T (g d) cs :: us) ∧
    same_counters s s' ∧ count s' = count s.
Proof.
  intros (t & Ht & [spare Hm] & Hcount & Ha & Hlt).
  destruct (encf_plug_same c (T d cs :: us) (T (g d) cs :: us)) as (A & B & HA & H1 & H2); [done|].
  assert (∃ t', plug c (T (g d) cs :: us) = [t']) as [t' Ht'].
  { destruct c as [|x c']; [|apply plug_frame_single]. cbn in Ht |- *. injection Ht as _ ->.
    by eexists. }
  rewrite (plug_encf _ _ _ Ht) in H1. rewrite (plug_encf _ _ _ Ht') in H2.
  cbn [encf] in H1, H2. rewrite enc_T, <- app_assoc, <- app_comm_cons in H1, H2.
  set (n := Node _ _ _ _ d) in H1.
  unfold modify_node, modify. rewrite Hm, H1, <- app_assoc, <- app_comm_cons.
  rewrite (fetch_Some _ _ n) by (by apply lookup_app_mid).
  rewrite bind_Ok, store_Ok by (rewrite length_app; cbn; lia).
  rewrite bind_Ok, insert_app_mid by done. eexists. split; [done|]. split; [|done].
  exists t'. split; [done|]. split_and!; [|cbn| |done].
  - exists spare. cbn [mem set_mem]. rewrite H2, <- ?app_assoc. cbn [app]. by rewrite <- ?app_assoc.
  - rewrite Hcount. rewrite (plug_size _ _ _ Ht), (plug_size _ _ _ Ht'). done.
  - cbn [arrsize mem set_mem]. rewrite Ha, Hm, H1. f_equal.
    rewrite <- app_assoc, <- app_comm_cons, !length_app. done.
Qed.

Lemma mapM_nodes_ok us s c d ls g :
  at_end s c d ls us →
  ∃ s', mapM_nodes s (positions (S (hole c) + sizes ls) us) g = Ok s' ∧
    at_end s' c d ls (map_root g <$> us) ∧ same_counters s s' ∧ count s' = count s.
Proof.
  revert s ls. induction us as [|[e cs] us IH]; intros s ls H; [by exists s|].
  unfold mapM_nodes. cbn [positions foldl]. rewrite bind_Ok.
  destruct (modify_data_ok s (Frame d ls [] :: c) g e cs us H) as (s1 & Heq & Hr & [Ha1 Hi1] & Hc1).
  cbn [hole] in Heq. rewrite Heq.
  assert (at_end s1 c d (ls ++ [T (g e) cs]) us) as H1.
  { revert Hr. apply repr_in_view. cbn. by rewrite <- app_assoc. }
  destruct (IH s1 (ls ++ [T (g e) cs]) H1) as (s2 & Heq2 & Hr2 & [Ha2 Hi2] & Hc2).
  unfold mapM_nodes in Heq2. rewrite sizes_app in Heq2. cbn [sizes] in Heq2.
  rewrite size_T, Nat.add_0_r, Nat.add_assoc in Heq2. rewrite size_T, Heq2.
  exists s2. split; [done|]. split; [|split; [split|]; congruence].
  revert Hr2. apply repr_in_view. cbn. by rewrite <- app_assoc.
Qed.

Lemma children_at_end s c d cs : repr_in s c [T d cs] ↔ at_end s c d [] cs.
Proof.
  unfold at_end. split; apply repr_in_view; cbn; by rewrite app_nil_r.
Qed.

(** The data of the roots at given positions. *)
Lemma positions_data s c d ls us (Q : ydata → bool) :
  at_end s c d ls us →
  existsb (λ i, match mem s !! i with Some x => Q (data x) | None => true end)
    (positions (S (hole c) + sizes ls) us)
  = existsb (λ u, Q (root_data u)) us.
Proof.
  revert ls. induction us as [|u us IH]; intros ls H; [done|]. cbn [positions existsb].
  destruct (at_end_step s c d ls u us H) as (H' & n & Hn & _ & _ & Hd).
  apply fetch_Ok in Hn. rewrite Hn, Hd. f_equal.
  rewrite <- (IH (ls ++ [u]) H'). rewrite sizes_app. cbn [sizes].
  by rewrite Nat.add_0_r, Nat.add_assoc.
Qed.

(** ** Deleting a node *)

(** What becomes of the children of a deleted node. *)
Definition inherit_choice (d : ydata) (cs : list (tree ydata)) : list (tree ydata) :=
  match choice d with
  | Some ch => map_root (with_choice (Some ch)) <$> cs
  | None => cs
  end.

Definition inherit_optional (d : ydata) (cs : list (tree ydata)) : list (tree ydata) :=
  if has_flag d AY_CHILDREN_MAND_FALSE
  then map_root (λ e, with_flags (Z.lor (flags e) AY_HINT_MAND_FALSE) e) <$> cs
  else cs.

Definition only_child_no_choice (us : list (tree ydata)) : list (tree ydata) :=
  match us with [u] => [map_root (with_choice None) u] | _ => us end.

(** Whether the node becomes a YN_CASE instead. *)
Definition becomes_case (d : ydata) (cs : list (tree ydata)) : bool :=
  bool_decide (is_Some (choice d)) && (2 <=? length cs)%nat
  && existsb (λ u, bool_decide (choice (root_data u) = None)) cs.

Lemma delete_node_choice_ok s c d cs n :
  type d ≠ YN_CASE → repr_in s c [T d cs] → fetch (mem s) (hole c) = Ok n →
  ∃ s', delete_node_choice s (hole c) n = Ok (s', becomes_case d cs) ∧
    same_counters s s' ∧ count s' = count s ∧
    repr_in s' c
      (if becomes_case d cs then [T (cast_to_case d) cs] else [T d (inherit_choice d cs)]).
Proof.
  intros Hty H Hn. unfold delete_node_choice.
  destruct (repr_in_fetch s c _ [] H) as (n' & Hn' & _ & _ & Hch & _ & Hd).
  rewrite Hn in Hn'. injection Hn' as <-. cbn [root_data subtrees] in *.
  rewrite Hd, bool_decide_true by done. unfold becomes_case, inherit_choice.
  destruct (choice d) as [ch|] eqn:Hchd; [|by exists s].
  rewrite (bool_decide_true (is_Some (Some ch))) by eauto. cbn [andb]. rewrite Hch.
  pose proof (proj1 (children_at_end s c d cs) H) as He.
  pose proof (at_end_length s c d [] cs He) as Hlen.
  destruct cs as [|v [|w cs]]; cbn [first_index length Nat.leb andb].
  - by exists s.
  - destruct (at_end_step s c d [] v [] He) as (_ & cn & Hcn & Hnx & _).
    cbn [sizes] in Hcn. rewrite Nat.add_0_r in Hcn. rewrite Hcn, bind_Ok, Hnx. cbn [first_index].
    rewrite bool_decide_false by (by intros [? ?]).
    destruct v as [e es].
    destruct (modify_data_ok s (Frame d [] [] :: c) (with_choice (Some ch)) e es [] He)
      as (s' & Heq & Hr & Hs' & Hc'). rewrite hole_children in Heq. rewrite Heq, bind_Ok.
    exists s'. split_and!; [done|done|done|]. by apply children_at_end.
  - destruct (at_end_step s c d [] v _ He) as (_ & cn & Hcn & Hnx & _).
    cbn [sizes] in Hcn. rewrite Nat.add_0_r in Hcn. rewrite Hcn, bind_Ok, Hnx.
    cbn [first_index]. rewrite bool_decide_true by eauto.
    pose proof (siblings_from_ok s c d (v :: w :: cs) [] (length (mem s)) He ltac:(lia)) as Hsib.
    cbn [first_index sizes] in Hsib. rewrite Nat.add_0_r in Hsib. rewrite Hsib, bind_Ok.
    pose proof (positions_data s c d [] (v :: w :: cs) (λ e, bool_decide (choice e = None)) He) as Hpd.
    cbn [sizes] in Hpd. rewrite Nat.add_0_r in Hpd.
    rewrite <- Hpd.
    assert (∀ l, existsb (λ i, bool_decide ((mem s !! i ≫= λ x, choice (data x)) = None)) l
      = existsb (λ i, match mem s !! i with
          | Some x => bool_decide (choice (data x) = None) | None => true end) l) as ->.
    { intros l. induction l as [|i l IH]; cbn; [done|]. rewrite IH. f_equal.
      destruct (mem s !! i); done. }
    destruct (existsb _ _) eqn:Eex.
    + destruct (modify_data_ok s c cast_to_case d (v :: w :: cs) [] H) as (s' & -> & Hr & Hs' & Hc').
      rewrite bind_Ok. by exists s'.
    + destruct (mapM_nodes_ok (v :: w :: cs) s c d [] (with_choice (Some ch)) He)
        as (s' & Heq & Hr & Hs' & Hc').
      cbn [sizes] in Heq. rewrite Nat.add_0_r in Heq. rewrite Heq, bind_Ok.
      exists s'. split_and!; [done|done|done|]. by apply children_at_end.
Qed.

(** Deleting one element and deleting a range of one element is the same. *)
Lemma delete_gap_range_1 s a x b sp :
  mem s = a ++ x :: b ++ sp → count s = (length a + 1 + length b)%nat →
  ay_ynode_delete_gap s (length a) = ay_ynode_delete_gap_range s (length a) 1.
Proof.
  intros Hm Hc. rewrite (delete_gap_spec s a x b sp), (delete_gap_range_spec s a [x] b sp) by done.
  done.
Qed.

(** The counts of the ancestors, the deletion of the root of the subtree and the
    correction. *)
Lemma delete_root_spec c s d cs :
  c ≠ [] → repr_in s c [T d cs] →
  ∃ s', (s1 ← ancestors_add s (hole_parent c) (-1);
         s2 ← ay_ynode_delete_gap s1 (hole c);
         ay_ynode_tree_correction s2) = Ok s' ∧
    repr_in s' c cs ∧ same_counters s s' ∧ cleared s s'.
Proof.
  intros Hc (t & Ht & Hr). pose proof Hr as ([spare Hm] & Hcount & Ha & Hlt).
  destruct (repr_size t s Hr) as [Hle Hlen].
  pose proof (plug_size c [T d cs] t Ht) as Hsz. cbn [sizes] in Hsz. rewrite size_T in Hsz.
  destruct (ancestors_add_spec c [T d cs] t Ht s (-1) Hr) as
    (s1 & sp & -> & [Ha1 Hi1] & Hc1 & Hl1 & Hk1 & Ht1 & Hs1); [cbn [sizes]; rewrite size_T; lia|lia|].
  rewrite bind_Ok. cbn [sizes flats] in Hs1. rewrite size_T, flat_T in Hs1.
  replace (Z.to_nat (Z.of_nat (S (sizes cs) + 0) + -1)) with (sizes cs) in Hs1 by lia.
  rewrite app_nil_r in Hs1.
  assert (strip <$> mem s1 = cpre c (sizes cs) ++ [(Z.of_nat (sizes cs), d)]
    ++ (flats cs ++ cpost c) ++ sp) as Hs1' by (rewrite Hs1; cbn [app]; by rewrite <- app_assoc).
  assert (ay_ynode_delete_gap s1 (hole c) = ay_ynode_delete_gap_range s1 (hole c) 1) as ->.
  { apply fmap_app_inv in Hs1' as (a & r & Hca & Hr' & Hm1).
    apply eq_sym, fmap_app_inv in Hr' as (g & z & Hg & Hz & ->).
    apply eq_sym, fmap_app_inv in Hz as (b & w & Hb & -> & ->).
    destruct g as [|x [|]]; [done| |done].
    replace (hole c) with (length a) by (by rewrite <- (length_cpre c (sizes cs)), Hca, length_fmap).
    apply (delete_gap_range_1 s1 a x b w); [done|].
    rewrite Hc1, Hcount, Hsz, <- (length_cpre c (sizes cs)), Hca, length_fmap.
    rewrite <- (length_fmap strip b), <- Hb. lengths. lia. }
  destruct (delete_gap_range_raw s1 (cpre c (sizes cs)) [(Z.of_nat (sizes cs), d)]
    (flats cs ++ cpost c) sp (hole c) 1) as (s2 & sp' & -> & Hs2 & Hc2 & [Ha2 Hi2] & Hl2 & Hr2 & Hz2).
  - done.
  - lengths. lia.
  - by rewrite length_cpre.
  - done.
  - intros H0. apply (f_equal length) in H0. rewrite length_cpre in H0. cbn in H0.
    pose proof (hole_pos c Hc). lia.
  - rewrite bind_Ok.
    assert (∃ t', plug c cs = [t']) as [t' Ht'].
    { destruct c as [|x c']; [done|]. apply plug_frame_single. }
    destruct (correction_repr_tail s2 t') as (s3 & -> & Hr3 & [Ha3 Hi3] & Ht3).
    + rewrite (plug_flat _ _ _ Ht').
      split; [exists sp'; rewrite Hs2; by rewrite <- !app_assoc|].
      split; [rewrite Hc2, Hc1, Hcount, Hsz; lengths; lia|].
      split; [congruence|]. split; [congruence|].
      rewrite Hr2. apply (f_equal (λ l, l !! 0)) in Hk1. rewrite !list_lookup_fmap in Hk1.
      rewrite Hm, enc_head in Hk1. cbn in Hk1.
      destruct (mem s1 !! 0) as [r|]; [|done]. exists r. cbn in Hk1.
      injection Hk1 as -> -> _. done.
    + exists s3. split; [done|]. split; [by exists t'|]. split; [split; congruence|].
      apply (cleared_correction s s1 s2 s3 t'); [by rewrite Hc1|done|done|done|rewrite Hc2; lia|done|].
      rewrite (plug_size _ _ _ Ht'). lia.
Qed.

(** What follows when the node is really deleted. *)
Definition delete_node_rest (s1 : ytree) (nd : nat) (n : ynode) : res (ytree * bool) :=
  s2 ← (if has_flag (data n) AY_CHILDREN_MAND_FALSE then
          l ← siblings_from (length (mem s1)) (mem s1) (child n);
          mapM_nodes s1 l (λ d, with_flags (Z.lor (flags d) AY_HINT_MAND_FALSE) d)
        else Ok s1);
  s3 ← ancestors_add s2 (parent n) (-1);
  s4 ← ay_ynode_delete_gap s3 nd;
  s5 ← ay_ynode_tree_correction s4;
  p ← deref (parent n);
  pn ← fetch (mem s5) p;
  match child pn with
  | None => Ok (s5, false)
  | Some ch =>
      cn ← fetch (mem s5) ch;
      match next cn with
      | None => s6 ← modify_node s5 ch (on_data (with_choice None)); Ok (s6, false)
      | Some _ => Ok (s5, false)
      end
  end.

Lemma modify_lookup_ne s i f s' j : modify_node s i f = Ok s' → j ≠ i → mem s' !! j = mem s !! j.
Proof.
  unfold modify_node, modify, store. intros (m & (n & _ & Hm)%bind_Ok_inv & [= <-])%bind_Ok_inv Hj.
  case_decide; [|done]. injection Hm as <-. cbn. by apply list_lookup_insert_ne.
Qed.

Lemma mapM_lookup_ne l s f s' j : mapM_nodes s l f = Ok s' → (∀ i, i ∈ l → j ≠ i) → mem s' !! j = mem s !! j.
Proof.
  revert s. induction l as [|i l IH]; intros s Hm Hj; [by injection Hm as <-|].
  unfold mapM_nodes in Hm. cbn [foldl] in Hm. rewrite bind_Ok in Hm.
  destruct (modify_node s i (on_data f)) as [s1| |] eqn:H1.
  - rewrite (IH s1); [|exact Hm|intros x Hx; apply Hj; by right].
    apply (modify_lookup_ne _ _ _ _ _ H1), Hj. by left.
  - exfalso. clear - Hm. induction l as [|x l IH]; [done|]. by apply IH.
  - exfalso. clear - Hm. induction l as [|x l IH]; [done|]. by apply IH.
Qed.

Lemma positions_below us b i : i ∈ positions b us → (i < b + sizes us)%nat.
Proof.
  revert b. induction us as [|u us IH]; intros b Hi; [by apply not_elem_of_nil in Hi|].
  cbn [positions sizes] in *. pose proof (size_pos u). apply elem_of_cons in Hi as [->|Hi]; [lia|].
  specialize (IH _ Hi). lia.
Qed.

Lemma cleared_from s1 s2 s3 : count s2 = count s1 → same_tail s1 s2 → cleared s2 s3 → cleared s1 s3.
Proof.
  intros Hc H1 [Hz H2]. split; [by rewrite <- Hc|]. intros j Hj. rewrite H2 by lia. by apply H1.
Qed.

Lemma delete_node_rest_ok c pd ls rs s1 d cs n :
  repr_in s1 (Frame pd ls rs :: c) [T d cs] → data n = d → parent n = Some (hole c) →
  child n = first_index (S (hole (Frame pd ls rs :: c))) cs →
  ∃ s', delete_node_rest s1 (hole (Frame pd ls rs :: c)) n = Ok (s', false) ∧
    repr_in s' c [T pd (only_child_no_choice (ls ++ inherit_optional d cs ++ rs))] ∧ same_counters s1 s' ∧
    cleared s1 s'.
Proof.
  intros Hr1 Hd Hp Hch. unfold delete_node_rest. set (h := hole (Frame pd ls rs :: c)) in *. rewrite Hd.
  assert (∃ s2, (if has_flag d AY_CHILDREN_MAND_FALSE then
      l ← siblings_from (length (mem s1)) (mem s1) (child n);
      mapM_nodes s1 l (λ d, with_flags (Z.lor (flags d) AY_HINT_MAND_FALSE) d)
    else Ok s1) = Ok s2 ∧
    repr_in s2 (Frame pd ls rs :: c) [T d (inherit_optional d cs)] ∧
    same_counters s1 s2 ∧ count s2 = count s1 ∧ same_tail s1 s2) as (s2 & -> & Hr2 & [Ha2 Hi2] & Hc2 & Htl2).
  { unfold inherit_optional. destruct (has_flag d AY_CHILDREN_MAND_FALSE); [|by exists s1].
    pose proof (proj1 (children_at_end s1 _ d _) Hr1) as He.
    pose proof (at_end_length _ _ _ _ _ He) as Hlen.
    pose proof (siblings_from_ok s1 _ d _ [] (length (mem s1)) He ltac:(lia)) as Hsib.
    cbn [sizes] in Hsib. rewrite Nat.add_0_r in Hsib. fold h in Hsib. rewrite Hch, Hsib, bind_Ok.
    destruct (mapM_nodes_ok _ s1 _ d [] (λ d, with_flags (Z.lor (flags d) AY_HINT_MAND_FALSE) d) He)
      as (s2 & Heq & Hr & Hs2 & Hc2).
    cbn [sizes] in Heq. rewrite Nat.add_0_r in Heq. fold h in Heq. rewrite Heq.
    exists s2. split; [done|]. split; [by apply children_at_end|]. split; [done|]. split; [done|].
    intros j Hj. apply (mapM_lookup_ne _ _ _ _ j Heq). intros x Hx.
    pose proof (positions_below _ _ _ Hx) as Hxb.
    destruct He as (t & Ht & _ & Hct & _). pose proof (plug_size _ _ _ Ht) as Hsz. cbn [hole sizes] in Hsz.
    unfold h in Hxb. cbn [hole] in Hxb. lia. }
  rewrite bind_Ok, Hp. cbn [deref].
  destruct (delete_root_spec (Frame pd ls rs :: c) s2 d _ ltac:(done) Hr2) as (s5 & Heq & Hr5 & [Ha5 Hi5] & Hz5).
  set (cs2 := inherit_optional _ _) in *. fold h in Heq. cbn [hole_parent] in Heq.
  apply bind_Ok_inv in Heq as (s3 & -> & Heq). apply bind_Ok_inv in Heq as (s4 & H4 & Heq).
  rewrite bind_Ok, H4, bind_Ok, Heq, !bind_Ok. clear H4 Heq.
  assert (repr_in s5 c [T pd (ls ++ cs2 ++ rs)]) as Hr5' by exact Hr5.
  destruct (repr_in_fetch s5 c _ [] Hr5') as (pn & -> & _ & _ & Hpch & _).
  rewrite bind_Ok, Hpch. cbn [subtrees].
  pose proof (proj1 (children_at_end s5 c pd _) Hr5') as He.
  destruct (ls ++ cs2 ++ rs) as [|[e es] us] eqn:Eus; cbn [first_index only_child_no_choice].
  { exists s5. split; [done|]. split; [done|]. split; [split; congruence|]. by apply (cleared_from s1 s2). }
  destruct (at_end_step s5 c pd [] _ us He) as (_ & cn & Hcn & Hnx & _).
  cbn [sizes] in Hcn. rewrite Nat.add_0_r in Hcn. rewrite Hcn, bind_Ok, Hnx.
  destruct us as [|u us]; cbn [first_index].
  - destruct (modify_data_ok s5 (Frame pd [] [] :: c) (with_choice None) e es [] He)
      as (s6 & Heq & Hr6 & [Ha6 Hi6] & Hc6).
    rewrite hole_children in Heq. rewrite Heq, bind_Ok. exists s6. split; [done|].
    split; [by apply children_at_end|]. split; [split; congruence|].
    apply (cleared_from s1 s2); [done|done|].
    assert (∀ j, (S (hole c) < j)%nat → mem s6 !! j = mem s5 !! j) as H6.
    { intros j Hj. apply (modify_lookup_ne _ _ _ _ j Heq). lia. }
    destruct Hr5' as (t & Ht & _ & Hc5 & _). rewrite (plug_size _ _ _ Ht) in Hc5. cbn [sizes] in Hc5.
    rewrite size_T in Hc5. cbn [sizes] in Hc5. rewrite size_T in Hc5.
    destruct Hr2 as (t2 & Ht2 & _ & Hct2 & _). rewrite (plug_size _ _ _ Ht2) in Hct2. cbn [hole sizes] in Hct2.
    rewrite size_T in Hct2. destruct Hz5 as [Hz5 Htail].
    split; intros j Hj; rewrite H6 by lia; [apply Hz5; lia|by apply Htail].
  - exists s5. split; [done|]. split; [done|]. split; [split; congruence|]. by apply (cleared_from s1 s2).
Qed.

Lemma delete_node_ok c pd ls rs s d cs :
  type d ≠ YN_CASE → repr_in s (Frame pd ls rs :: c) [T d cs] →
  ∃ s', ay_ynode_delete_node s (hole (Frame pd ls rs :: c)) = Ok (s', becomes_case d cs) ∧
    repr_in s' c
      [T pd (if becomes_case d cs then ls ++ T (cast_to_case d) cs :: rs
             else only_child_no_choice
               (ls ++ inherit_optional d (inherit_choice d cs) ++ rs))] ∧
    same_counters s s'.
Proof.
  intros Hty H. unfold ay_ynode_delete_node. set (h := hole _).
  destruct (repr_in_fetch s _ _ [] H) as (n & Hn & Hp & _ & Hch & _ & Hd). fold h in Hn.
  rewrite Hn, bind_Ok.
  pose proof (delete_node_choice_ok s _ d cs n Hty H Hn) as Hdc. fold h in Hdc.
  destruct Hdc as (s1 & -> & [Ha1 Hi1] & Hc1 & Hr1).
  rewrite bind_Ok. destruct (becomes_case d cs).
  { exists s1. split; [done|]. split; [|done]. by revert Hr1. }
  destruct (delete_node_rest_ok c pd ls rs s1 d (inherit_choice d cs) n) as (s' & Heq & Hr' & [Ha' Hi'] & _).
  - done.
  - by rewrite Hd.
  - by rewrite Hp.
  - rewrite Hch. unfold inherit_choice. destruct (choice d); [|done]. by destruct cs.
  - exists s'. split; [exact Heq|]. split; [done|]. split; congruence.
Qed.
