(* ===== verification/YnodeTheorems.v ===== *)
(** The operations of [Ynode] as a transition system: [spec_step] says what an
    edit does to a rose tree, [exec] runs the function of the code on the array,
    and the theorems relate the two for every sequence of edits. *)
From S2P Require Import Prelude CString Preorder PreorderFacts Ynode YnodeFacts YnodeSpec.

(** ** Edits *)

(** The functions that change the shape of the tree, with the index of the node
    they are called with. *)
Inductive edit :=
| InsertChild (i : nat)
| InsertWrapper (i : nat)
| InsertParent (i : nat)
| InsertParentForRest (i : nat)
| InsertSibling (i : nat)
| InsertChildLast (i : nat)
| DeleteSubtree (i : nat)
| DeleteChildren (i : nat)
| DeleteNode (i : nat).

Definition exec (e : edit) (s : ytree) : res ytree :=
  match e with
  | InsertChild i => ay_ynode_insert_child s i
  | InsertWrapper i => ay_ynode_insert_wrapper s i
  | InsertParent i => ay_ynode_insert_parent s i
  | InsertParentForRest i => ay_ynode_insert_parent_for_rest s i
  | InsertSibling i => ay_ynode_insert_sibling s i
  | InsertChildLast i => fst <$> ay_ynode_insert_child_last s i
  | DeleteSubtree i => ay_ynode_delete_subtree s i
  | DeleteChildren i => ay_ynode_delete_children s i false
  | DeleteNode i => fst <$> ay_ynode_delete_node s i
  end.

Fixpoint execs (es : list edit) (s : ytree) : res ytree :=
  match es with [] => Ok s | e :: es' => s' ← exec e s; execs es' s' end.

(** The number of nodes an edit inserts. *)
Definition inserts (e : edit) : nat :=
  match e with
  | DeleteSubtree _ | DeleteChildren _ | DeleteNode _ => 0
  | _ => 1
  end.

(** What an edit does to the tree; the identifier of an inserted node is [k]. *)
Inductive spec_place (k : Z) :
  edit → list (frame ydata) → list (tree ydata) → list (tree ydata) → Prop :=
| sp_child c d cs :
    spec_place k (InsertChild (hole c)) c [T d cs] [T d (T (new_data k) [] :: cs)]
| sp_wrapper c u :
    c ≠ [] → spec_place k (InsertWrapper (hole c)) c [u] [T (new_data k) [u]]
| sp_parent c d ls u rs :
    spec_place k (InsertParent (S (hole c) + sizes ls)) c [T d (ls ++ u :: rs)]
      [T d [T (new_data k) (ls ++ u :: rs)]]
| sp_parent_for_rest c d ls u rs :
    spec_place k (InsertParentForRest (hole (Frame d ls [] :: c))) (Frame d ls [] :: c)
      (u :: rs) [T (new_data k) (u :: rs)]
| sp_sibling c d ls u rs :
    spec_place k (InsertSibling (hole (Frame d ls rs :: c))) (Frame d ls rs :: c)
      [u] [u; T (new_data k) []]
| sp_child_last c d cs :
    spec_place k (InsertChildLast (hole c)) c [T d cs] [T d (cs ++ [T (new_data k) []])]
| sp_delete_subtree c u :
    c ≠ [] → spec_place k (DeleteSubtree (hole c)) c [u] []
| sp_delete_children c d cs :
    spec_place k (DeleteChildren (hole c)) c [T d cs] [T d []]
| sp_delete_node c pd ls rs d cs :
    type d ≠ YN_CASE →
    spec_place k (DeleteNode (hole (Frame pd ls rs :: c))) c [T pd (ls ++ T d cs :: rs)]
      [T pd (if becomes_case d cs then ls ++ T (cast_to_case d) cs :: rs
             else only_child_no_choice
               (ls ++ inherit_optional d (inherit_choice d cs) ++ rs))].

Definition spec_step (k : Z) (e : edit) (t t' : tree ydata) : Prop :=
  ∃ c f f', spec_place k e c f f' ∧ plug c f = [t] ∧ plug c f' = [t'].

(** A sequence of edits; the identifiers are given in order. *)
Inductive spec_steps : Z → list edit → tree ydata → tree ydata → Prop :=
| ss_nil k t : spec_steps k [] t t
| ss_cons k e es t t' t'' :
    spec_step k e t t' → spec_steps (k + Z.of_nat (inserts e)) es t' t'' →
    spec_steps k (e :: es) t t''.

Definition inserts_of (es : list edit) : nat := sum_list (inserts <$> es).

(** The identifiers of the nodes in preorder. *)
Definition ids (t : tree ydata) : list Z := (λ x, id x.2) <$> flat t.

(** ** Lemmas *)

Lemma place_refines s e c f f' k :
  spec_place k e c f f' → repr_in s c f → idcnt s = k → has_space s (inserts e) →
  ∃ s', exec e s = Ok s' ∧ repr_in s' c f' ∧ arrsize s' = arrsize s ∧
    idcnt s' = (if (inserts e =? 0)%nat then k else u32 (k + 1)).
Proof.
  intros Hsp H <- Hspace. destruct Hsp; cbn [inserts Nat.eqb exec] in *.
  - by apply insert_child_ok.
  - by apply insert_wrapper_ok.
  - by apply (insert_parent_ok c s Hspace d _ _ ls u rs).
  - by apply (insert_parent_for_rest_ok _ s Hspace d ls u rs c).
  - by apply insert_sibling_ok.
  - destruct (insert_child_last_ok c s d cs Hspace H) as (s' & -> & Hr & Ha & Hi). by exists s'.
  - destruct (delete_subtree_ok c s u) as (s' & -> & Hr & Ha & Hi); [done..|]. by exists s'.
  - destruct (delete_children_ok c s d cs H) as (s' & -> & Hr & Ha & Hi). by exists s'.
  - assert (repr_in s (Frame pd ls rs :: c) [T d cs]) as H' by exact H.
    destruct (delete_node_ok c pd ls rs s d cs) as (s' & Heq & Hr & Ha & Hi); [done..|].
    rewrite Heq. by exists s'.
Qed.

Lemma step_refines s e t t' k :
  spec_step k e t t' → repr s t → idcnt s = k → has_space s (inserts e) →
  ∃ s', exec e s = Ok s' ∧ repr s' t' ∧ arrsize s' = arrsize s ∧
    idcnt s' = (if (inserts e =? 0)%nat then k else u32 (k + 1)).
Proof.
  intros (c & f & f' & Hsp & Ht & Ht') Hr Hk Hspace.
  destruct (place_refines s e c f f' k Hsp) as (s' & Heq & (t1 & Ht1 & Hr1) & Ha & Hi);
    [by exists t|done|done|].
  exists s'. assert (t1 = t') as -> by congruence. done.
Qed.

Lemma inserts_of_cons e es : inserts_of (e :: es) = (inserts e + inserts_of es)%nat.
Proof. done. Qed.

(** An edit inserts at most [inserts e] nodes. *)
Lemma only_child_sizes us : sizes (only_child_no_choice us) = sizes us.
Proof. destruct us as [|u [|v us]]; [done| |done]. cbn. by rewrite map_root_size. Qed.

Lemma inherit_sizes d cs : sizes (inherit_optional d (inherit_choice d cs)) = sizes cs.
Proof.
  unfold inherit_optional, inherit_choice.
  destruct (choice d), (has_flag _ _); by rewrite ?map_root_sizes.
Qed.

Lemma place_size k e c f f' : spec_place k e c f f' → (sizes f' <= sizes f + inserts e)%nat.
Proof.
  intros H. destruct H; cbn [inserts]; lengths; try lia.
  destruct (becomes_case d cs); lengths; [lia|].
  rewrite only_child_sizes. lengths. rewrite inherit_sizes. lia.
Qed.

Lemma step_size k e t t' : spec_step k e t t' → (size t' <= size t + inserts e)%nat.
Proof.
  intros (c & f & f' & Hsp%place_size & Ht & Ht').
  rewrite (plug_size _ _ _ Ht), (plug_size _ _ _ Ht'). lia.
Qed.

Lemma execs_spec es s t t' :
  spec_steps (idcnt s) es t t' → repr s t → (0 ≤ idcnt s)%Z →
  has_space s (inserts_of es) → (idcnt s + Z.of_nat (inserts_of es) < 2 ^ 32)%Z →
  ∃ s', execs es s = Ok s' ∧ repr s' t' ∧ arrsize s' = arrsize s ∧
    idcnt s' = (idcnt s + Z.of_nat (inserts_of es))%Z.
Proof.
  intros Hst. remember (idcnt s) as k eqn:Hk. revert s Hk.
  induction Hst as [k t|k e es t t1 t2 Hstep Hst IH]; intros s -> Hr H0 Hsp Hmax.
  { exists s. cbn. split_and!; [done|done|done|]. unfold inserts_of. cbn. lia. }
  rewrite inserts_of_cons in *.
  destruct (step_refines s e t t1 _ Hstep Hr eq_refl) as (s1 & He & Hr1 & Ha1 & Hi1).
  { unfold has_space in *. lia. }
  assert (idcnt s1 = idcnt s + Z.of_nat (inserts e))%Z as Hi1'.
  { rewrite Hi1. destruct e; cbn [inserts Nat.eqb] in *; rewrite ?u32_small; lia. }
  destruct (IH s1) as (s2 & Hes & Hr2 & Ha2 & Hi2); [done|done|lia| |lia|].
  { pose proof (step_size _ _ _ _ Hstep) as Hsz.
    destruct Hr as (_ & Hc & _), Hr1 as (_ & Hc1 & _). unfold has_space in *. lia. }
  exists s2. cbn [execs]. rewrite He, bind_Ok. split_and!; [done|done|congruence|lia].
Qed.

(** *** Identifiers *)

Definition idsf (f : list (tree ydata)) : list Z := (λ x, id x.2) <$> flats f.

Definition ids_of (s : ytree) : list Z := (λ n, id (data n)) <$> take (count s) (mem s).

Lemma idsf_app f g : idsf (f ++ g) = idsf f ++ idsf g.
Proof. unfold idsf. by rewrite flats_app, fmap_app. Qed.

Lemma idsf_cons d ts f : idsf (T d ts :: f) = id d :: idsf ts ++ idsf f.
Proof. unfold idsf. cbn [flats]. by rewrite flat_T, fmap_app. Qed.

Lemma idsf_map g f : (∀ d, id (g d) = id d) → idsf (map_root g <$> f) = idsf f.
Proof.
  intros Hg. induction f as [|[d ts] f IH]; [done|].
  rewrite fmap_cons. cbn [map_root]. by rewrite !idsf_cons, Hg, IH.
Qed.

Lemma idsf_plug (c : list (frame ydata)) :
  ∃ p q, ∀ f, idsf (plug c f) = p ++ idsf f ++ q.
Proof.
  induction c as [|[d ls rs] c (p & q & H)]; cbn [plug].
  - exists [], []. intros f. by rewrite app_nil_r.
  - exists (p ++ id d :: idsf ls), (idsf rs ++ q). intros f.
    rewrite H, idsf_cons, !idsf_app. cbn. by rewrite app_nil_r, <- !app_assoc.
Qed.

Lemma idsf_only_child us : idsf (only_child_no_choice us) = idsf us.
Proof. destruct us as [|u [|v us]]; [done| |done]. by apply (idsf_map _ [u]). Qed.

Lemma idsf_inherit d cs : idsf (inherit_optional d (inherit_choice d cs)) = idsf cs.
Proof.
  unfold inherit_optional, inherit_choice.
  destruct (choice d), (has_flag _ _); by rewrite ?idsf_map.
Qed.

(** An insertion adds the identifier [k], a deletion adds none. *)
Lemma place_ids k e c f f' :
  spec_place k e c f f' →
  if (inserts e =? 0)%nat then sublist (idsf f') (idsf f) else idsf f' ≡ₚ k :: idsf f.
Proof.
  intros H. destruct H; cbn [inserts Nat.eqb].
  - rewrite !idsf_cons. cbn. solve_Permutation.
  - by rewrite idsf_cons, app_nil_r.
  - rewrite !idsf_cons, !app_nil_r. cbn. solve_Permutation.
  - by rewrite idsf_cons, app_nil_r.
  - destruct u. rewrite !idsf_cons. cbn. rewrite !app_nil_r. solve_Permutation.
  - rewrite !idsf_cons, idsf_app, idsf_cons. cbn. rewrite !app_nil_r. solve_Permutation.
  - apply sublist_nil_l.
  - rewrite !idsf_cons. cbn. constructor. apply sublist_nil_l.
  - rewrite !idsf_cons, !app_nil_r. constructor. destruct (becomes_case d cs).
    + by rewrite !idsf_app, !idsf_cons.
    + rewrite idsf_only_child, !idsf_app, idsf_cons, idsf_inherit.
      apply sublist_app; [done|]. by constructor.
Qed.

Lemma step_ids k e t t' :
  spec_step k e t t' → NoDup (ids t) → Forall (λ i, i < k)%Z (ids t) →
  NoDup (ids t') ∧ Forall (λ i, i < k + Z.of_nat (inserts e))%Z (ids t').
Proof.
  intros (c & f & f' & Hsp%place_ids & Ht & Ht') Hnd Hk.
  destruct (idsf_plug c) as (p & q & Hpq).
  assert (ids t = p ++ idsf f ++ q) as E.
  { rewrite <- Hpq, Ht. unfold idsf. cbn. by rewrite app_nil_r. }
  assert (ids t' = p ++ idsf f' ++ q) as E'.
  { rewrite <- Hpq, Ht'. unfold idsf. cbn. by rewrite app_nil_r. }
  rewrite E in Hnd, Hk. rewrite E'. destruct (Nat.eqb_spec (inserts e) 0) as [H0|H0].
  - assert (sublist (p ++ idsf f' ++ q) (p ++ idsf f ++ q)) as Hsub
      by (apply sublist_app; [done|]; by apply sublist_app).
    split; [by eapply sublist_NoDup|]. rewrite H0, Z.add_0_r. by eapply Forall_sublist.
  - assert (p ++ idsf f' ++ q ≡ₚ k :: p ++ idsf f ++ q) as Hperm
      by (rewrite Hsp; solve_Permutation).
    rewrite Hperm. split.
    + apply NoDup_cons. split; [|done]. intros Hin.
      rewrite Forall_forall in Hk. specialize (Hk k Hin). lia.
    + constructor; [destruct e; cbn in *; lia|]. eapply Forall_impl; [exact Hk|]. cbn.
      intros; lia.
Qed.

Lemma steps_ids k es t t' :
  spec_steps k es t t' → NoDup (ids t) → Forall (λ i, i < k)%Z (ids t) →
  NoDup (ids t') ∧ Forall (λ i, i < k + Z.of_nat (inserts_of es))%Z (ids t').
Proof.
  induction 1 as [k t|k e es t t1 t2 Hstep Hst IH]; intros Hnd Hk.
  - split; [done|]. unfold inserts_of. cbn. by rewrite Z.add_0_r.
  - destruct (step_ids _ _ _ _ Hstep Hnd Hk) as [Hnd1 Hk1].
    destruct (IH Hnd1 Hk1) as [? Hk2]. split; [done|].
    rewrite inserts_of_cons, Nat2Z.inj_add, Z.add_assoc. done.
Qed.

Lemma repr_ids s t : repr s t → ids_of s = ids t.
Proof.
  intros ([spare Hm] & Hc & _). unfold ids_of, ids. rewrite Hm, Hc.
  rewrite <- (strip_enc 0 None None t), <- list_fmap_compose.
  rewrite take_app_le by (by rewrite <- (length_fmap strip), strip_enc, length_flat).
  rewrite take_ge; [done|]. by rewrite <- (length_fmap strip), strip_enc, length_flat.
Qed.

(** *** A state for a tree *)

Definition state_of (t : tree ydata) (spare : nat) (k : Z) : ytree :=
  YTree (enc 0 None None t ++ replicate spare zero_node) (size t) (Z.of_nat (size t + spare)) k.

Lemma state_of_repr t n k : (Z.of_nat (size t + n) < 2 ^ 32)%Z → repr (state_of t n k) t.
Proof.
  intros H. split_and!; [by eexists|done| |done]. cbn [state_of arrsize mem].
  rewrite length_app, length_replicate.
  by rewrite <- (length_fmap strip (enc _ _ _ _)), strip_enc, length_flat.
Qed.

Definition nd (i : Z) : ydata := with_id i zero_data.

(** The root 1 with the children 2 (with the child 3) and 4. *)
Definition example_tree : tree ydata := T (nd 1) [T (nd 2) [T (nd 3) []]; T (nd 4) []].
Definition example_edits : list edit :=
  [InsertWrapper 3; InsertChildLast 1; DeleteNode 4; DeleteSubtree 2].

Lemma example_steps :
  spec_steps 5 example_edits example_tree (T (nd 1) [T (nd 2) [T (nd 6) []]; T (nd 4) []]).
Proof.
  unfold example_edits, example_tree. eapply ss_cons.
  { exists [Frame (nd 1) [T (nd 2) [T (nd 3) []]] []], [T (nd 4) []], [T (new_data 5) [T (nd 4) []]].
    split; [|done]. by apply (sp_wrapper 5 [Frame (nd 1) [T (nd 2) [T (nd 3) []]] []]). }
  eapply ss_cons.
  { exists [Frame (nd 1) [] [T (nd 5) [T (nd 4) []]]], [T (nd 2) [T (nd 3) []]],
      [T (nd 2) [T (nd 3) []; T (nd 6) []]].
    split; [|done]. apply (sp_child_last 6 [Frame (nd 1) [] [T (nd 5) [T (nd 4) []]]]). }
  eapply ss_cons.
  { exists [], [T (nd 1) ([T (nd 2) [T (nd 3) []; T (nd 6) []]] ++ T (nd 5) [T (nd 4) []] :: [])],
      [T (nd 1) [T (nd 2) [T (nd 3) []; T (nd 6) []]; T (nd 4) []]].
    split; [|done].
    by apply (sp_delete_node 7 [] (nd 1) [T (nd 2) [T (nd 3) []; T (nd 6) []]] [] (nd 5)). }
  eapply ss_cons; [|apply ss_nil].
  exists [Frame (nd 2) [] [T (nd 6) []]; Frame (nd 1) [] [T (nd 4) []]], [T (nd 3) []], [].
  split; [|done].
  by apply (sp_delete_subtree 7 [Frame (nd 2) [] [T (nd 6) []]; Frame (nd 1) [] [T (nd 4) []]]).
Qed.

(** ** Theorems *)

(** C5: every sequence of insertions and deletions for which the array has
    space succeeds on a state that represents a tree, and the result represents
    the tree that the edits specify; pointers, counts of descendants and the
    order of the nodes in memory are all those of that tree. *)
Theorem edits_refine es s t t' :
  spec_steps (idcnt s) es t t' → repr s t → (0 ≤ idcnt s)%Z →
  has_space s (inserts_of es) → (idcnt s + Z.of_nat (inserts_of es) < 2 ^ 32)%Z →
  ∃ s', execs es s = Ok s' ∧ repr s' t' ∧ arrsize s' = arrsize s ∧
    idcnt s' = (idcnt s + Z.of_nat (inserts_of es))%Z.
Proof. apply execs_spec. Qed.

Theorem edits_refine_witness :
  ∃ s', execs example_edits (state_of example_tree 2 5) = Ok s' ∧
    repr s' (T (nd 1) [T (nd 2) [T (nd 6) []]; T (nd 4) []]) ∧ arrsize s' = 6%Z ∧
    idcnt s' = 7%Z.
Proof.
  apply (edits_refine example_edits (state_of example_tree 2 5) example_tree).
  - apply example_steps.
  - apply state_of_repr. done.
  - done.
  - unfold has_space. vm_compute. intros [=].
  - done.
Defined.

(** C6: identifiers stay unique: if the nodes of a tree have different
    identifiers below the counter, so have the nodes after every sequence of
    insertions and deletions. *)
Theorem ids_unique es s t t' :
  spec_steps (idcnt s) es t t' → repr s t → (0 ≤ idcnt s)%Z →
  has_space s (inserts_of es) → (idcnt s + Z.of_nat (inserts_of es) < 2 ^ 32)%Z →
  NoDup (ids_of s) → Forall (λ i, i < idcnt s)%Z (ids_of s) →
  ∃ s', execs es s = Ok s' ∧ NoDup (ids_of s') ∧ Forall (λ i, i < idcnt s')%Z (ids_of s').
Proof.
  intros Hst Hr H0 Hsp Hmax Hnd Hk.
  destruct (execs_spec es s t t' Hst Hr H0 Hsp Hmax) as (s' & He & Hr' & _ & Hi).
  rewrite (repr_ids s t Hr) in Hnd, Hk. exists s'. rewrite (repr_ids s' t' Hr'), Hi.
  split; [done|]. by apply (steps_ids _ es t t').
Qed.

Theorem ids_unique_witness :
  ∃ s', execs example_edits (state_of example_tree 2 5) = Ok s' ∧
    NoDup (ids_of s') ∧ Forall (λ i, i < idcnt s')%Z (ids_of s').
Proof.
  apply (ids_unique example_edits (state_of example_tree 2 5) example_tree
    (T (nd 1) [T (nd 2) [T (nd 6) []]; T (nd 4) []])).
  - apply example_steps.
  - apply state_of_repr. done.
  - done.
  - unfold has_space. vm_compute. intros [=].
  - done.
  - apply (bool_decide_unpack _). vm_compute. exact I.
  - apply (bool_decide_unpack _). vm_compute. exact I.
Defined.
