(* ===== verification/YnodeMove.v ===== *)
(** Moving a subtree: the move through the unused part of the array and the
    move of the nodes one by one have the same result, the elements of the
    subtree at their new place and all others in their old order. *)
From S2P Require Import Prelude CString Preorder PreorderFacts Ynode YnodeFacts.

(** The elements in use. *)
Definition live (s : ytree) : list ynode := take (count s) (mem s).

(** The new order: [sub] is taken out of [a ++ sub ++ b] and put before the
    element [d] of the rest. *)
Definition relocated (a sub b : list ynode) (d : nat) : list ynode :=
  take d (a ++ b) ++ sub ++ drop d (a ++ b).

Lemma live_spec (l sp : list ynode) n ar i : n = length l → live (YTree (l ++ sp) n ar i) = l.
Proof. intros ->. unfold live. cbn. apply take_app_length. Qed.

Section move.
Context (s : ytree) (a sub b spare : list ynode).
Context (Hm : mem s = a ++ sub ++ b ++ spare).
Context (Hc : count s = (length a + length sub + length b)%nat).
Context (Ha : arrsize s = Z.of_nat (length (mem s))).

Lemma move_bulk_spec dst :
  (dst <= length a ∨ length a + length sub <= dst <= count s)%nat →
  sub ≠ [] → (length sub < length spare)%nat →
  let d := if (length a <? dst)%nat then (dst - length sub)%nat else dst in
  ∃ sp, length sp = length spare ∧ move_bulk s dst (length a) (length sub)
    = Ok (YTree (relocated a sub b d ++ sp) (count s) (arrsize s)
        (idcnt_after (length sub) (idcnt s))).
Proof.
  intros Hdst Hne Hsp d. unfold move_bulk.
  assert (0 < length sub)%nat as Hpos by (destruct sub; [done|cbn; lia]).
  rewrite Hm, (mread_app _ _ a sub (b ++ spare)) by done. rewrite bind_Ok.
  rewrite <- (take_drop (length sub) spare).
  set (sp1 := take _ spare). set (sp2 := drop _ spare).
  assert (length sp1 = length sub) as Hsp1 by (unfold sp1; rewrite length_take; lia).
  replace (a ++ sub ++ b ++ sp1 ++ sp2) with ((a ++ sub ++ b) ++ sp1 ++ sp2)
    by (by rewrite <- !app_assoc).
  rewrite mwrite_app by (rewrite ?length_app; lia). rewrite bind_Ok.
  rewrite (delete_gap_range_spec _ a sub b (sub ++ sp2))
    by (rewrite ?length_app; cbn [mem set_mem count]; rewrite <- ?app_assoc; done).
  rewrite bind_Ok. cbn [count arrsize idcnt set_mem]. fold d.
  set (x := take d (a ++ b)). set (y := drop d (a ++ b)).
  assert (x ++ y = a ++ b) as Hjoin by apply take_drop.
  assert (length x + length y = length a + length b)%nat as Hxy
    by (rewrite <- !length_app, Hjoin; done).
  assert (d <= length (a ++ b))%nat as Hd.
  { unfold d. rewrite length_app. destruct (Nat.ltb_spec (length a) dst); lia. }
  assert (length x = d) as Hx by (unfold x; rewrite length_take; lia).
  destruct (insert_gap_range_spec
    (YTree (a ++ b ++ replicate (length sub) zero_node ++ sub ++ sp2) (count s - length sub)
      (arrsize s) (idcnt s)) x y (replicate (length sub) zero_node) (sub ++ sp2) d (length sub))
    as (g & Hg & ->).
  - cbn [mem]. by rewrite (app_assoc x y), Hjoin, <- app_assoc.
  - cbn [count]. rewrite Hc. lia.
  - done.
  - by rewrite length_replicate.
  - cbn [count arrsize]. rewrite Ha, Hm, !length_app. lia.
  - rewrite bind_Ok. cbn [mem count arrsize idcnt].
    rewrite !(app_assoc g y), (app_assoc x (g ++ y)).
    rewrite mread_app by (rewrite ?length_app; lia). rewrite bind_Ok.
    rewrite <- (app_assoc x), <- (app_assoc g).
    rewrite mwrite_app by lia. rewrite bind_Ok. cbn [set_mem mem count arrsize idcnt].
    exists (sub ++ sp2). split; [rewrite !length_app; lia|]. unfold relocated. fold x y. rewrite <- !app_assoc. unfold set_mem. cbn. do 2 f_equal. lia.
Qed.
End move.

(** One turn of the loop. *)
Lemma move_one_step s x n y dst src n' sp :
  mem s = x ++ n :: y ++ sp → count s = (length x + 1 + length y)%nat → src = length x →
  arrsize s = Z.of_nat (length (mem s)) →
  let dst1 := if (src <? dst)%nat then (dst - 1)%nat else dst in
  (dst1 <= length (x ++ y))%nat →
  ∃ s', move_one_by_one (S n') s dst src
    = move_one_by_one n' s' (S dst1) (if (dst1 <? src)%nat then S src else src) ∧
    mem s' = (take dst1 (x ++ y) ++ n :: drop dst1 (x ++ y)) ++ sp ∧
    count s' = count s ∧ arrsize s' = arrsize s ∧ idcnt s' = u32 (idcnt s + 1).
Proof.
  intros Hm Hc -> Ha dst1 Hd. cbn [move_one_by_one]. rewrite Hm.
  rewrite (fetch_Some _ _ n) by (by apply lookup_app_mid). rewrite bind_Ok.
  rewrite (delete_gap_spec s x n y sp) by done. rewrite bind_Ok. fold dst1.
  set (u := take dst1 (x ++ y)). set (w := drop dst1 (x ++ y)).
  assert (length u = dst1) as Hu by (unfold u; rewrite length_take; lia).
  assert (u ++ w = x ++ y) as Hjoin by apply take_drop.
  assert (length u + length w = length x + length y)%nat as Huw
    by (rewrite <- !length_app, Hjoin; done).
  rewrite (insert_gap_spec _ u w zero_node sp); cbn [mem count arrsize idcnt].
  - rewrite bind_Ok. unfold modify_node, modify. cbn [mem].
    rewrite (fetch_Some _ _ (new_node (idcnt s))) by (by apply lookup_app_mid).
    rewrite bind_Ok, store_Ok by (rewrite length_app; cbn; lia).
    rewrite bind_Ok, insert_app_mid, bind_Ok by done.
    eexists. split; [done|]. cbn [set_mem mem count arrsize idcnt].
    split_and!; [by rewrite <- app_assoc|lia|done|done].
  - by rewrite (app_assoc u w), Hjoin, <- app_assoc.
  - lia.
  - done.
  - rewrite Ha, Hm, !length_app. cbn [length]. rewrite length_app. lia.
Qed.

(** To the left: [x] stays before the moved nodes, [y] comes behind them. *)
Lemma move_left_spec todo x dn y b sp s :
  mem s = x ++ dn ++ y ++ todo ++ b ++ sp →
  count s = (length x + length dn + length y + length todo + length b)%nat →
  arrsize s = Z.of_nat (length (mem s)) → y ≠ [] →
  move_one_by_one (length todo) s (length x + length dn) (length x + length dn + length y)
  = Ok (YTree (x ++ dn ++ todo ++ y ++ b ++ sp) (count s) (arrsize s)
      (idcnt_after (length todo) (idcnt s))).
Proof.
  intros Hm Hc Ha Hy. revert dn s Hm Hc Ha.
  assert (0 < length y)%nat as Hpos by (destruct y; [done|cbn; lia]).
  induction todo as [|n todo IH]; intros dn s Hm Hc Ha.
  { destruct s as [m n' ar i]. cbn in *. by subst. }
  cbn [length] in *.
  destruct (move_one_step s (x ++ dn ++ y) n (todo ++ b) (length x + length dn)
    (length x + length dn + length y) (length todo) sp) as (s' & -> & Hm' & Hc' & Ha' & Hi').
  - by rewrite Hm, <- !app_assoc.
  - rewrite !length_app. lia.
  - rewrite !length_app. lia.
  - done.
  - rewrite (proj2 (Nat.ltb_ge _ _)) by lia. rewrite !length_app. lia.
  - rewrite (proj2 (Nat.ltb_ge _ _)) in * by lia. rewrite (proj2 (Nat.ltb_lt _ _)) by lia.
    assert (mem s' = x ++ (dn ++ [n]) ++ y ++ todo ++ b ++ sp) as Hm''.
    { rewrite Hm'. rewrite <- (app_assoc x), <- (app_assoc dn).
      rewrite (app_assoc x dn), <- length_app, take_app_length, drop_app_length.
      rewrite <- !app_assoc. cbn [app]. by rewrite <- !app_assoc. }
    pose proof (IH (dn ++ [n]) s' Hm'') as H. rewrite length_app in H. cbn [length] in H.
    replace (S (length x + length dn)) with (length x + (length dn + 1))%nat by lia.
    replace (S (length x + length dn + length y))
      with (length x + (length dn + 1) + length y)%nat by lia.
    rewrite H;
      [|rewrite Hc'; lia|rewrite Ha', Ha, Hm'', Hm; repeat (rewrite length_app; cbn [length]); lia].
    rewrite Hc', Ha', Hi'. cbn [idcnt_after]. by rewrite <- !app_assoc.
Qed.

(** To the right: [y] comes before the moved nodes. *)
Lemma move_right_spec todo a y dn w sp s :
  mem s = a ++ todo ++ y ++ dn ++ w ++ sp →
  count s = (length a + length todo + length y + length dn + length w)%nat →
  arrsize s = Z.of_nat (length (mem s)) →
  move_one_by_one (length todo) s (length a + length todo + length y + length dn) (length a)
  = Ok (YTree (a ++ y ++ dn ++ todo ++ w ++ sp) (count s) (arrsize s)
      (idcnt_after (length todo) (idcnt s))).
Proof.
  intros Hm Hc Ha. revert dn s Hm Hc Ha.
  induction todo as [|n todo IH]; intros dn s Hm Hc Ha.
  { destruct s as [m n' ar i]. cbn in *. by subst. }
  cbn [length] in *.
  destruct (move_one_step s a n (todo ++ y ++ dn ++ w)
    (length a + S (length todo) + length y + length dn) (length a) (length todo) sp)
    as (s' & -> & Hm' & Hc' & Ha' & Hi').
  - by rewrite Hm, <- !app_assoc.
  - rewrite !length_app. lia.
  - done.
  - done.
  - rewrite (proj2 (Nat.ltb_lt _ _)) by lia. rewrite !length_app. lia.
  - rewrite (proj2 (Nat.ltb_lt _ _)) in * by lia. rewrite (proj2 (Nat.ltb_ge _ _)) by lia.
    replace (length a + S (length todo) + length y + length dn - 1)%nat
      with (length (a ++ todo ++ y ++ dn)) in * by (rewrite !length_app; lia).
    assert (mem s' = a ++ todo ++ y ++ (dn ++ [n]) ++ w ++ sp) as Hm''.
    { rewrite Hm'. replace (a ++ todo ++ y ++ dn ++ w) with ((a ++ todo ++ y ++ dn) ++ w)
        by (by rewrite <- !app_assoc).
      rewrite take_app_length, drop_app_length. rewrite <- !app_assoc. done. }
    pose proof (IH (dn ++ [n]) s' Hm'') as H.
    replace (S (length (a ++ todo ++ y ++ dn)))
      with (length a + length todo + length y + length (dn ++ [n]))%nat
      by (rewrite !length_app; cbn; lia).
    rewrite H; [|rewrite Hc', length_app; cbn; lia
      |rewrite Ha', Ha, Hm'', Hm; repeat (rewrite length_app; cbn [length]); lia].
    rewrite Hc', Ha', Hi'. cbn [idcnt_after]. by rewrite <- !app_assoc.
Qed.

(** The loop, in either direction. *)
Lemma move_loop_spec s a sub b sp dst :
  mem s = a ++ sub ++ b ++ sp →
  count s = (length a + length sub + length b)%nat →
  arrsize s = Z.of_nat (length (mem s)) →
  (dst < length a ∨ length a + length sub <= dst <= count s)%nat →
  sub ≠ [] →
  let d := if (length a <? dst)%nat then (dst - length sub)%nat else dst in
  move_one_by_one (length sub) s dst (length a)
  = Ok (YTree (relocated a sub b d ++ sp) (count s) (arrsize s) (idcnt_after (length sub) (idcnt s))).
Proof.
  intros Hm Hc Ha [Hl|Hr] Hne d; unfold relocated.
  - unfold d. rewrite (proj2 (Nat.ltb_ge _ _)) by lia. clear d.
    rewrite <- (take_drop dst a) in Hm. rewrite take_app_le, drop_app_le by lia.
    assert (length (take dst a) = dst) as Hx by (rewrite length_take; lia).
    assert (length (drop dst a) = (length a - dst)%nat) as Hy by (rewrite length_drop; lia).
    pose proof (move_left_spec sub (take dst a) [] (drop dst a) b sp s) as H.
    rewrite Hx, Hy in H. cbn [length app] in H.
    replace (dst + 0)%nat with dst in H by lia.
    replace (dst + (length a - dst))%nat with (length a) in H by lia.
    rewrite H; [by rewrite <- !app_assoc|by rewrite Hm, <- !app_assoc|lia|done|].
    intros Hn. rewrite Hn in Hy. cbn in Hy. lia.
  - assert (0 < length sub)%nat as Hpos by (destruct sub; [done|cbn; lia]).
    unfold d. rewrite (proj2 (Nat.ltb_lt _ _)) by lia.
    set (k := (dst - length sub - length a)%nat).
    rewrite take_app_ge, drop_app_ge by lia. fold k.
    assert (length (take k b) = k) as Hy by (rewrite length_take; lia).
    assert (length (drop k b) = (length b - k)%nat) as Hw by (rewrite length_drop; lia).
    rewrite <- (take_drop k b) in Hm.
    pose proof (move_right_spec sub a (take k b) [] (drop k b) sp s) as H.
    rewrite Hy, Hw in H. cbn [length app] in H.
    replace (length a + length sub + k + 0)%nat with dst in H by lia.
    rewrite H; [by rewrite <- !app_assoc|by rewrite Hm, <- !app_assoc|lia|done].
Qed.

Lemma relocated_length (a sub b : list ynode) d :
  length (relocated a sub b d) = (length a + length sub + length b)%nat.
Proof.
  unfold relocated. pose proof (f_equal length (take_drop d (a ++ b))) as Hj.
  rewrite !length_app in *. lia.
Qed.

(** The result of [ay_ynode_move_subtree], whichever way it takes. *)
Lemma move_subtree_spec s a n sub b spare dst :
  mem s = a ++ (n :: sub) ++ b ++ spare →
  count s = (length a + S (length sub) + length b)%nat →
  arrsize s = Z.of_nat (length (mem s)) → (arrsize s < 2 ^ 32)%Z →
  descendants n = Z.of_nat (length sub) →
  (dst < length a ∨ length a + S (length sub) <= dst <= count s)%nat →
  ∃ sp, length sp = length spare ∧
    ay_ynode_move_subtree s dst (length a)
    = Ok (YTree (relocated a (n :: sub) b
          (if (length a <? dst)%nat then (dst - S (length sub))%nat else dst) ++ sp)
        (count s) (arrsize s) (idcnt_after (S (length sub)) (idcnt s))).
Proof.
  intros Hm Hc Ha Hlt Hd Hdst. unfold ay_ynode_move_subtree.
  rewrite (proj2 (Nat.eqb_neq _ _)) by lia.
  rewrite (fetch_Some (mem s) _ n) by (rewrite Hm; by apply lookup_app_mid). rewrite bind_Ok, Hd.
  pose proof (f_equal length Hm) as Hlen. rewrite !length_app in Hlen. cbn [length] in Hlen.
  rewrite u32_small, u64_small by lia.
  replace (Z.to_nat _) with (length (n :: sub)) by (cbn; lia).
  destruct (Z.ltb_spec (Z.of_nat (length sub) + 1) (arrsize s - Z.of_nat (count s))) as [Hsp|Hsp].
  - destruct (move_bulk_spec s a (n :: sub) b spare Hm Hc Ha dst) as (sp & ? & ->);
      [cbn; lia|done|cbn; lia|]. by exists sp.
  - exists spare. split; [done|]. by apply move_loop_spec.
Qed.

(** ** The claim *)

(** C7: [ay_ynode_move_subtree] takes the subtree (given by [descendants] of
    its first node) out of the array and puts it at the requested place, and all
    other nodes keep their order.  The result is the same whether the free space
    allows the move in bulk through the unused part of the array or forces the
    loop that moves the nodes one by one, to the left and to the right; no node
    is lost and no access leaves the array.  Only the counter of identifiers has
    advanced. *)
Theorem move_subtree_relocates s a n sub b spare dst :
  mem s = a ++ (n :: sub) ++ b ++ spare →
  count s = (length a + S (length sub) + length b)%nat →
  arrsize s = Z.of_nat (length (mem s)) → (arrsize s < 2 ^ 32)%Z →
  descendants n = Z.of_nat (length sub) →
  (dst < length a ∨ length a + S (length sub) <= dst <= count s)%nat →
  ∃ s', ay_ynode_move_subtree s dst (length a) = Ok s' ∧
    live s' = relocated a (n :: sub) b
      (if (length a <? dst)%nat then (dst - S (length sub))%nat else dst) ∧
    count s' = count s ∧ arrsize s' = arrsize s ∧ length (mem s') = length (mem s) ∧
    idcnt s' = idcnt_after (S (length sub)) (idcnt s).
Proof.
  intros Hm Hc Ha Hlt Hd Hdst.
  destruct (move_subtree_spec s a n sub b spare dst) as (sp & Hsp & ->); [done..|].
  eexists. split; [done|]. split_and!; [|done|done| |done].
  - apply live_spec. rewrite relocated_length. cbn. lia.
  - cbn [mem]. rewrite length_app, relocated_length, Hm, !length_app. cbn. lia.
Qed.

(** A subtree of two nodes behind two others, in a full array and in one with
    room, moved to the front. *)
Definition row (i : Z) (d : Z) : ynode := Node None None None d (with_id i zero_data).

Definition row_state (room : nat) : ytree :=
  YTree ([row 1 3; row 2 0; row 3 1; row 4 0] ++ replicate room zero_node) 4 (Z.of_nat (4 + room)) 5.
Definition moves_to_front (s : ytree) : Prop :=
  ∃ s', ay_ynode_move_subtree s 1 2 = Ok s' ∧ live s' = [row 1 3; row 3 1; row 4 0; row 2 0].

Theorem move_subtree_relocates_witness : moves_to_front (row_state 0) ∧ moves_to_front (row_state 3).
Proof.
  split;
    [destruct (move_subtree_relocates (row_state 0) [row 1 3; row 2 0] (row 3 1) [row 4 0] []
       (replicate 0 zero_node) 1) as (s' & Heq & Hl & _)
    |destruct (move_subtree_relocates (row_state 3) [row 1 3; row 2 0] (row 3 1) [row 4 0] []
       (replicate 3 zero_node) 1) as (s' & Heq & Hl & _)];
    try (cbn; done || lia); exists s'; split; try exact Heq; rewrite Hl; reflexivity.
Defined.
