(* ===== verification/YnodeOrder.v ===== *)
(** Reversing the order of siblings and the correction of the pointers as
    statements about the canonical array of a tree. *)
From S2P Require Import Prelude CString Preorder PreorderFacts Ynode YnodeFacts.

(** ** Orders of the siblings *)

(** What [next] of a node is, given the node before it and the node behind it,
    and what [child] of a node is. *)
Record form := Form {
  f_next : option nat → option nat → option nat;
  f_child : nat → list (tree ydata) → option nat
}.

Fixpoint last_index (b : nat) (prev : option nat) (ts : list (tree ydata)) : option nat :=
  match ts with [] => prev | t :: ts' => last_index (b + size t) (Some b) ts' end.

Definition forward : form := Form (λ _ nx, nx) first_index.
Definition backward : form := Form (λ prev _, prev) (λ b, last_index b None).

Fixpoint fenc (F : form) (b : nat) (p prev nx : option nat) (t : tree ydata) : list ynode :=
  match t with
  | T d ts =>
      Node p (f_next F prev nx) (f_child F (S b) ts) (Z.of_nat (sizes ts)) d
      :: (fix go b' prev' l := match l with
          | [] => []
          | t' :: l' =>
              fenc F b' (Some b) prev' (first_index (b' + size t') l') t'
              ++ go (b' + size t')%nat (Some b') l'
          end) (S b) None ts
  end.

(** The array of a forest whose siblings are in the order [F]. *)
Fixpoint fencs (F : form) (b : nat) (p prev : option nat) (ts : list (tree ydata)) : list ynode :=
  match ts with
  | [] => []
  | t :: ts' =>
      fenc F b p prev (first_index (b + size t) ts') t ++ fencs F (b + size t) p (Some b) ts'
  end.

(** The roots are in the order [F], all other siblings in the order [G]. *)
Fixpoint fhalf (F G : form) (b p : nat) (prev : option nat) (ts : list (tree ydata))
  : list ynode :=
  match ts with
  | [] => []
  | T d cs :: ts' =>
      Node (Some p) (f_next F prev (first_index (b + S (sizes cs)) ts')) (f_child G (S b) cs)
        (Z.of_nat (sizes cs)) d
      :: fencs G (S b) (Some b) None cs ++ fhalf F G (b + S (sizes cs)) p (Some b) ts'
  end.

Lemma fenc_T F b p prev nx d ts :
  fenc F b p prev nx (T d ts)
  = Node p (f_next F prev nx) (f_child F (S b) ts) (Z.of_nat (sizes ts)) d
    :: fencs F (S b) (Some b) None ts.
Proof.
  cbn [fenc]. f_equal. generalize (S b) as b'. generalize (@None nat) as prev'.
  induction ts as [|t ts IH]; intros; [done|]. cbn. by rewrite IH.
Qed.

Lemma fencs_length F b p prev ts : length (fencs F b p prev ts) = sizes ts.
Proof.
  enough (∀ n, (sizes ts < n)%nat → ∀ b p prev, length (fencs F b p prev ts) = sizes ts) by eauto.
  clear. intros n. revert ts. induction n as [|n IH]; intros [|[d cs] ts] Hn b p prev; [lia..|done|].
  cbn [sizes] in Hn. rewrite size_T in Hn. cbn [fencs sizes]. rewrite length_app, fenc_T.
  cbn [length]. rewrite !IH, size_T by lia. done.
Qed.

Lemma fhalf_length F G b p prev ts : length (fhalf F G b p prev ts) = sizes ts.
Proof.
  revert b prev. induction ts as [|[d cs] ts IH]; intros b prev; [done|].
  cbn [fhalf sizes length]. rewrite length_app, fencs_length, IH, size_T. lia.
Qed.

Lemma fencs_forward b p prev ts : fencs forward b p prev ts = encf b p None ts.
Proof.
  enough (∀ n, (sizes ts < n)%nat → ∀ b p prev, fencs forward b p prev ts = encf b p None ts) by eauto.
  clear. intros n. revert ts. induction n as [|n IH]; intros [|[d cs] ts] Hn b p prev; [lia..|done|].
  cbn [sizes] in Hn. rewrite size_T in Hn. cbn [fencs encf].
  rewrite fenc_T, enc_T, !IH by lia. by destruct ts.
Qed.

(** ** One pass over the array *)

(** A loop body that brings the children of a node from the order [G] to [F]. *)
Definition reorders (body : list ynode → nat → res (list ynode)) (F G : form) : Prop :=
  ∀ pre p nx d cs post,
  (Z.of_nat (length pre + sizes cs) < 2 ^ 32)%Z →
  body (pre ++ Node p nx (f_child G (S (length pre)) cs) (Z.of_nat (sizes cs)) d
        :: fencs G (S (length pre)) (Some (length pre)) None cs ++ post) (length pre)
  = Ok (pre ++ Node p nx (f_child F (S (length pre)) cs) (Z.of_nat (sizes cs)) d
        :: fhalf F G (S (length pre)) (length pre) None cs ++ post).

Section pass.
Context (body : list ynode → nat → res (list ynode)) (F G : form) (Hbody : reorders body F G).

Lemma pass_half ts p prev pre post k :
  (Z.of_nat (length pre + sizes ts) < 2 ^ 32)%Z →
  for_nodes body (sizes ts + k) (length pre)
    (pre ++ fhalf F G (length pre) p prev ts ++ post)
  = for_nodes body k (length pre + sizes ts)
    (pre ++ fencs F (length pre) (Some p) prev ts ++ post).
Proof.
  enough (∀ n, (sizes ts < n)%nat → ∀ p prev pre post k,
    (Z.of_nat (length pre + sizes ts) < 2 ^ 32)%Z →
    for_nodes body (sizes ts + k) (length pre)
      (pre ++ fhalf F G (length pre) p prev ts ++ post)
    = for_nodes body k (length pre + sizes ts)
      (pre ++ fencs F (length pre) (Some p) prev ts ++ post)) by eauto.
  clear p prev pre post k. intros n. revert ts. induction n as [|n IH];
    intros [|[d cs] ts] Hn p prev pre post k Hlt; [lia..|by rewrite Nat.add_0_r|].
  cbn [sizes] in *. rewrite size_T in *. cbn [fhalf fencs]. rewrite fenc_T, size_T.
  rewrite <- !app_assoc, <- !app_comm_cons. cbn [Nat.add for_nodes].
  rewrite <- app_assoc, Hbody by lia. rewrite bind_Ok.
  set (r := Node _ _ _ _ _). rewrite cons_middle, app_assoc.
  replace (S (length pre)) with (length (pre ++ [r])) by (rewrite length_app; cbn; lia).
  rewrite <- Nat.add_assoc.
  rewrite (IH cs ltac:(lia)) by (rewrite length_app; cbn; lia).
  rewrite (app_assoc (pre ++ [r])).
  set (pre' := (pre ++ [r]) ++ _).
  assert (length pre' = length pre + S (sizes cs))%nat as Hpre'
    by (unfold pre'; rewrite !length_app, fencs_length; cbn; lia).
  replace (length (pre ++ [r]) + sizes cs)%nat with (length pre')
    by (rewrite Hpre', length_app; cbn; lia).
  rewrite <- Hpre'. rewrite (IH ts ltac:(lia)) by lia.
  f_equal; [lia|]. unfold pre'. by rewrite <- !app_assoc.
Qed.

Lemma pass_tree t spare :
  (Z.of_nat (size t) < 2 ^ 32)%Z →
  f_next F None None = f_next G None None →
  for_nodes body (size t) 0 (fenc G 0 None None None t ++ spare)
  = Ok (fenc F 0 None None None t ++ spare).
Proof.
  destruct t as [d ts]. rewrite size_T, !fenc_T. intros Hlt Hnx. cbn [for_nodes].
  pose proof (Hbody [] None (f_next G None None) d ts spare) as H. cbn [length app] in H.
  rewrite <- app_comm_cons, H by lia. rewrite bind_Ok, <- Hnx. set (r := Node _ _ _ _ _).
  pose proof (pass_half ts 0 None [r] spare 0) as H'. cbn [length app] in H'.
  rewrite Nat.add_0_r in H'. rewrite H' by lia. done.
Qed.
End pass.

(** ** The two bodies *)

Lemma fencs_cons F b p prev d cs ts :
  fencs F b p prev (T d cs :: ts)
  = Node p (f_next F prev (first_index (b + S (sizes cs)) ts)) (f_child F (S b) cs)
      (Z.of_nat (sizes cs)) d
    :: fencs F (S b) (Some b) None cs ++ fencs F (b + S (sizes cs)) p (Some b) ts.
Proof. cbn [fencs]. by rewrite fenc_T, size_T. Qed.

Lemma last_index_cons b prev d cs ts :
  last_index b prev (T d cs :: ts) = last_index (b + S (sizes cs)) (Some b) ts.
Proof. cbn [last_index]. by rewrite size_T. Qed.

Lemma last_index_is_Some b i ts : is_Some (last_index b (Some i) ts).
Proof. revert b i. induction ts as [|t ts IH]; intros; cbn; eauto. Qed.

Lemma last_index_ge b i l ts : last_index b (Some i) ts = Some l → l = i ∨ (b <= l)%nat.
Proof.
  revert b i. induction ts as [|t ts IH]; intros b i; cbn; [intros [= ->]; by left|].
  intros [->|H]%IH; right; lia.
Qed.

(** The last root of a forest, found through the [next] pointers. *)
Lemma last_from_forest ts d cs b p prev pre post fuel :
  length pre = b → (length ts < fuel)%nat →
  Some <$> last_from fuel (pre ++ fencs forward b p prev (T d cs :: ts) ++ post) b
  = Ok (last_index b prev (T d cs :: ts)).
Proof.
  revert d cs b prev pre fuel. induction ts as [|[d' cs'] ts IH]; intros d cs b prev pre fuel Hb Hf;
    (destruct fuel as [|fuel]; [cbn in *; lia|]); cbn [last_from];
    rewrite fencs_cons, <- app_comm_cons, (fetch_Some _ _ _ (lookup_app_mid pre _ _ b (eq_sym Hb)));
    rewrite bind_Ok; cbn [next first_index f_next forward]; [by rewrite last_index_cons|].
  rewrite last_index_cons.
  set (r := Node _ _ _ _ _). set (x := fencs _ _ _ _ cs).
  assert (length (pre ++ r :: x) = b + S (sizes cs))%nat as Hl
    by (rewrite length_app; cbn; unfold x; rewrite fencs_length; lia).
  pose proof (IH d' cs' _ (Some b) (pre ++ r :: x) fuel Hl) as H.
  rewrite <- !app_assoc, <- !app_comm_cons in *. apply H. cbn in Hf. lia.
Qed.

(** From the first root to the last one. *)
Lemma reverse_loop_spec ts d cs b p prev pre post fuel l :
  length pre = b → (length ts < fuel)%nat → last_index b None (T d cs :: ts) = Some l →
  reverse_loop fuel (pre ++ fencs forward b (Some p) prev (T d cs :: ts) ++ post) b l prev
  = Ok (pre ++ fhalf backward forward b p prev (T d cs :: ts) ++ post).
Proof.
  revert d cs b prev pre fuel. induction ts as [|[d' cs'] ts IH];
    intros d cs b prev pre fuel Hb Hf Hl;
    (destruct fuel as [|fuel]; [cbn in *; lia|]); cbn [reverse_loop];
    rewrite last_index_cons in Hl; rewrite fencs_cons, <- app_comm_cons.
  - cbn in Hl. injection Hl as <-. rewrite Nat.eqb_refl. unfold modify.
    rewrite (fetch_Some _ _ _ (lookup_app_mid pre _ _ b (eq_sym Hb))), bind_Ok.
    rewrite store_Ok, insert_app_mid by (rewrite ?length_app; cbn; lia). done.
  - destruct (last_index_ge (b + S (sizes cs)) b l (T d' cs' :: ts)) as [->|Hge]; [done| |].
    { rewrite last_index_cons in Hl. apply last_index_ge in Hl. lia. }
    rewrite (proj2 (Nat.eqb_neq _ _)) by lia.
    rewrite (fetch_Some _ _ _ (lookup_app_mid pre _ _ b (eq_sym Hb))), bind_Ok.
    unfold modify.
    rewrite (fetch_Some _ _ _ (lookup_app_mid pre _ _ b (eq_sym Hb))), bind_Ok.
    rewrite store_Ok, insert_app_mid by (rewrite ?length_app; cbn; lia).
    rewrite bind_Ok. unfold below. cbn [descendants set_next]. rewrite Nat2Z.id.
    cbn [fhalf]. cbn [parent next child descendants data set_next f_next f_child backward forward].
    set (r := Node _ prev _ _ _). set (x := fencs _ _ _ _ cs).
    assert (length (pre ++ r :: x) = b + S (sizes cs))%nat as Hlen
      by (rewrite length_app; cbn; unfold x; rewrite fencs_length; lia).
    replace (b + sizes cs + 1)%nat with (b + S (sizes cs))%nat by lia.
    pose proof (IH d' cs' _ (Some b) (pre ++ r :: x) fuel Hlen) as H.
    rewrite <- !app_assoc, <- !app_comm_cons in *. rewrite <- !app_assoc. apply H; [cbn in Hf; lia|].
    rewrite last_index_cons in *. done.
Qed.

Lemma reverse_children_reorders : reorders reverse_children backward forward.
Proof.
  intros pre p nx d cs post Hlt. unfold reverse_children.
  rewrite (fetch_Some _ _ _ (lookup_app_mid pre _ _ _ eq_refl)), bind_Ok. cbn [child].
  destruct cs as [|[d' cs'] ts]; [done|].
  cbn [f_child forward first_index ay_ynode_get_last].
  set (r := Node _ _ _ _ _). rewrite cons_middle.
  assert (length (pre ++ [r]) = S (length pre)) as Hl by (rewrite length_app; cbn; lia).
  rewrite (app_assoc pre).
  set (b := S (length pre)) in *.
  set (m := (pre ++ [r]) ++ fencs forward b _ _ _ ++ post).
  assert (length ts < length m)%nat as Hf.
  { unfold m. rewrite !length_app, fencs_length. cbn [sizes length].
    pose proof (length_le_sizes ts). lia. }
  pose proof (last_from_forest ts d' cs' b (Some (length pre)) None (pre ++ [r]) post (length m) Hl Hf)
    as Hlast. fold m in Hlast.
  destruct (last_from _ m b) as [l| |]; [|done..].
  assert (last_index b None (T d' cs' :: ts) = Some l) as Hli by (by injection Hlast).
  clear Hlast.
  rewrite bind_Ok, bind_Ok. unfold modify, m.
  rewrite <- app_assoc, (fetch_Some _ _ r) by (by apply lookup_app_mid).
  rewrite bind_Ok, store_Ok by (rewrite length_app; cbn; lia).
  cbn [app]. rewrite insert_app_mid by done. rewrite bind_Ok. set (r' := set_child _ r).
  rewrite (cons_middle r' pre), (app_assoc pre [r']).
  rewrite reverse_loop_spec; [|unfold b; rewrite length_app; cbn; lia
    |revert Hf; unfold m; rewrite <- app_assoc; done|done].
  rewrite <- app_assoc. unfold r', r. rewrite <- Hli. done.
Qed.

Lemma reverse_back_loop_spec ts b p prev pre post fuel desc sum :
  length pre = b → (length ts <= fuel)%nat → (0 ≤ sum)%Z → (sum + Z.of_nat (sizes ts) = desc)%Z →
  (desc < 2 ^ 32)%Z →
  reverse_back_loop fuel (pre ++ fencs backward b (Some p) prev ts ++ post) (first_index b ts) desc sum
  = Ok (pre ++ fhalf forward backward b p prev ts ++ post).
Proof.
  revert b prev pre fuel sum. induction ts as [|[d cs] ts IH];
    intros b prev pre fuel sum Hb Hf H0 Hs Hd; [by destruct fuel|].
  destruct fuel as [|fuel]; [cbn in *; lia|]. cbn [reverse_back_loop first_index].
  cbn [sizes] in Hs. rewrite size_T in Hs. rewrite fencs_cons, <- app_comm_cons.
  rewrite (fetch_Some _ _ _ (lookup_app_mid pre _ _ b (eq_sym Hb))), bind_Ok.
  unfold modify. rewrite (fetch_Some _ _ _ (lookup_app_mid pre _ _ b (eq_sym Hb))), bind_Ok.
  rewrite store_Ok, insert_app_mid by (rewrite ?length_app; cbn; lia). rewrite bind_Ok.
  unfold below. cbn [descendants set_next parent child data]. rewrite Nat2Z.id.
  rewrite u64_small by lia.
  assert ((if (sum + Z.of_nat (sizes cs) + 1 <? desc)%Z then Some (b + sizes cs + 1)%nat else None)
    = first_index (b + S (sizes cs)) ts) as ->.
  { replace (b + sizes cs + 1)%nat with (b + S (sizes cs))%nat by lia.
    rewrite <- zero_first_index. destruct (Z.ltb_spec (sum + Z.of_nat (sizes cs) + 1) desc),
      (Z.eqb_spec (Z.of_nat (sizes ts)) 0); lia || done. }
  cbn [fhalf set_next parent child descendants data f_next f_child backward forward].
  set (r := Node _ (first_index _ _) _ _ _). set (x := fencs _ _ _ _ cs).
  assert (length (pre ++ r :: x) = b + S (sizes cs))%nat as Hlen
    by (rewrite length_app; cbn; unfold x; rewrite fencs_length; lia).
  pose proof (IH _ (Some b) (pre ++ r :: x) fuel (sum + Z.of_nat (sizes cs) + 1)%Z Hlen) as H.
  rewrite <- !app_assoc, <- !app_comm_cons in *. rewrite <- !app_assoc.
  apply H; [cbn in Hf; lia|lia|lia|done].
Qed.

Lemma reverse_back_children_reorders : reorders reverse_back_children forward backward.
Proof.
  intros pre p nx d cs post Hlt. unfold reverse_back_children.
  rewrite (fetch_Some _ _ _ (lookup_app_mid pre _ _ _ eq_refl)), bind_Ok. cbn [child descendants].
  destruct cs as [|[d' cs'] ts]; [done|].
  cbn [f_child backward]. rewrite last_index_cons.
  destruct (last_index_is_Some (S (length pre) + S (sizes cs')) (S (length pre)) ts) as [l Hl].
  rewrite Hl. unfold modify. rewrite (fetch_Some _ _ _ (lookup_app_mid pre _ _ _ eq_refl)), bind_Ok.
  rewrite store_Ok, insert_app_mid by (rewrite ?length_app; cbn; lia). rewrite bind_Ok.
  cbn [set_child parent next descendants data]. set (r := Node _ _ _ _ _).
  change (Some (S (length pre))) with (first_index (S (length pre)) (T d' cs' :: ts)).
  set (r' := set_child _ r). rewrite (cons_middle r' pre), (app_assoc pre [r']).
  rewrite reverse_back_loop_spec; [by rewrite <- app_assoc|rewrite length_app; cbn; lia| |lia|lia|lia].
  pose proof (length_le_sizes (T d' cs' :: ts)) as Hz. revert Hz.
  rewrite length_app. cbn [length]. rewrite length_app, fencs_length. cbn [length]. lia.
Qed.

(** ** Claims *)

Lemma fenc_forward (t : tree ydata) : fenc forward 0 None None None t = enc 0 None None t.
Proof.
  pose proof (fencs_forward 0 None None [t]) as H. cbn in H. by rewrite !app_nil_r in H.
Qed.

(** C8: [ay_ynode_siblings_reverse] turns the order of the children of every
    node around by changing [child] and [next] alone: [child] is the last child
    and [next] the preceding sibling, the nodes stay in their elements.
    [ay_ynode_siblings_reverse_back] then restores every pointer. *)
Theorem siblings_reverse_roundtrip s t :
  repr s t →
  ∃ s' spare, mem s = fenc forward 0 None None None t ++ spare ∧
    ay_ynode_siblings_reverse s = Ok s' ∧
    mem s' = fenc backward 0 None None None t ++ spare ∧
    ay_ynode_siblings_reverse_back s' = Ok s.
Proof.
  intros ([spare Hm] & Hc & Ha & Hlt). rewrite <- fenc_forward in Hm.
  assert (Z.of_nat (size t) < 2 ^ 32)%Z as Hs.
  { rewrite Ha, Hm, fenc_forward, length_app in Hlt. destruct t as [d ts].
    rewrite enc_T in Hlt. cbn [length] in Hlt. rewrite length_encf in Hlt. rewrite size_T. lia. }
  exists (set_mem (fenc backward 0 None None None t ++ spare) s), spare.
  split_and!; [done| |done|].
  - unfold ay_ynode_siblings_reverse. rewrite Hm, Hc.
    by rewrite (pass_tree _ _ _ reverse_children_reorders).
  - unfold ay_ynode_siblings_reverse_back. cbn [mem count set_mem]. rewrite Hc.
    rewrite (pass_tree _ _ _ reverse_back_children_reorders) by done. rewrite bind_Ok, <- Hm.
    by destruct s.
Qed.

(** C9: [ay_ynode_tree_correction] needs nothing but the preorder of the nodes
    and their numbers of descendants: whatever the pointers below the root were,
    afterwards [parent], [child] and [next] of every node are those of the tree
    that the numbers describe, and nothing else has changed.  The correction is
    idempotent. *)
Theorem tree_correction_canonical s t live spare :
  mem s = live ++ spare → strip <$> live = flat t → count s = size t →
  (Z.of_nat (length (mem s)) < 2 ^ 32)%Z →
  (∀ r, live !! 0 = Some r → parent r = None ∧ next r = None) →
  ∃ s', ay_ynode_tree_correction s = Ok s' ∧ s' = set_mem (enc 0 None None t ++ spare) s ∧
    ay_ynode_tree_correction s' = Ok s'.
Proof.
  intros Hm Hl Hc Hlt Hr.
  assert (∀ live', strip <$> live' = flat t → length (live' ++ spare) = length (mem s) →
    (∀ r, live' !! 0 = Some r → parent r = None ∧ next r = None) →
    tree_correction (size t) (live' ++ spare) = Ok (enc 0 None None t ++ spare)) as H.
  { intros [|r raw] Hf Hlen Hr'.
    { apply (f_equal length) in Hf. rewrite length_flat in Hf. pose proof (size_pos t).
      cbn in Hf. lia. }
    destruct (Hr' r eq_refl) as [Hp Hn]. rewrite <- app_comm_cons.
    rewrite tree_correction_tree; [by rewrite Hp, Hn|done|].
    change (r :: raw ++ spare) with ((r :: raw) ++ spare). by rewrite Hlen. }
  assert (length (enc 0 None None t) = length live) as Hle.
  { rewrite <- (length_fmap strip live), Hl, length_flat. destruct t as [d ts].
    rewrite enc_T, size_T. cbn [length]. by rewrite length_encf. }
  eexists. split; [|split; [reflexivity|]]; unfold ay_ynode_tree_correction;
    cbn [count mem set_mem].
  - by rewrite Hm, Hc, H by (rewrite ?Hm; done).
  - rewrite Hc, H; [done|by rewrite strip_enc|by rewrite Hm, !length_app, Hle|].
    rewrite enc_head. cbn. by intros r [= <-].
Qed.

(** A root with two children, the first of which has a child; all pointers are
    wrong. *)
Definition scrambled : list ynode :=
  Node None None (Some 3) 3 (with_id 1 zero_data)
  :: ((λ i, Node (Some 7) (Some i) (Some 9) (if decide (i = 2%nat) then 1 else 0)%Z
        (with_id (Z.of_nat i) zero_data)) <$> [2; 3; 4]%nat).
Definition scrambled_tree : tree ydata :=
  let d (i : Z) := with_id i zero_data in T (d 1%Z) [T (d 2%Z) [T (d 3%Z) []]; T (d 4%Z) []].

Theorem tree_correction_canonical_witness :
  ay_ynode_tree_correction (YTree (scrambled ++ [zero_node]) 4 5 5)
  = Ok (YTree (enc 0 None None scrambled_tree ++ [zero_node]) 4 5 5).
Proof.
  destruct (tree_correction_canonical (YTree (scrambled ++ [zero_node]) 4 5 5) scrambled_tree
    scrambled [zero_node]) as (s' & Heq & -> & _).
  - reflexivity.
  - reflexivity.
  - reflexivity.
  - reflexivity.
  - cbn. by intros r [= <-].
  - exact Heq.
Defined.

Theorem siblings_reverse_roundtrip_witness :
  ∃ s', ay_ynode_siblings_reverse (YTree (enc 0 None None scrambled_tree) 4 4 5) = Ok s' ∧
    (child <$> mem s') = [Some 3; Some 2; None; None] ∧
    (next <$> mem s') = [None; None; None; Some 1] ∧
    ay_ynode_siblings_reverse_back s' = Ok (YTree (enc 0 None None scrambled_tree) 4 4 5).
Proof.
  destruct (siblings_reverse_roundtrip (YTree (enc 0 None None scrambled_tree) 4 4 5)
    scrambled_tree) as (s' & spare & Hs & Heq & Hm & Hb).
  - split_and!; [exists []; by rewrite app_nil_r|done|done|done].
  - assert (spare = []) as ->.
    { apply (f_equal length) in Hs. rewrite length_app in Hs. destruct spare; [done|].
      vm_compute in Hs. lia. }
    exists s'. split; [exact Heq|]. rewrite Hm. split; [reflexivity|]. split; [reflexivity|exact Hb].
Defined.
