(* ===== verification/Lnode.v ===== *)
(** The tree of lnodes: modules and lenses of libaugeas as [src/common.c] reads
    them, the functions of [src/augyang.c] that count lenses and copy them into
    an array in preorder, and the functions that climb or scan that array.  A
    pointer to an lnode is its index. *)
From S2P Require Import Prelude CString Common ParseRegex Preorder.

(** ** libaugeas *)

(** The tags are members of an enumeration of libaugeas; the sources compare
    them with [<=] and [>=]. *)
Class LensTags := tag_code : lens_tag → Z.

Definition AY_LENSE_HAS_NO_CHILD `{LensTags} (t : lens_tag) : bool :=
  (tag_code t <=? tag_code L_COUNTER)%Z.
Definition AY_LENSE_HAS_ONE_CHILD `{LensTags} (t : lens_tag) : bool :=
  (tag_code L_SUBTREE <=? tag_code t)%Z && bool_decide (t ≠ L_REC).
Definition AY_LENSE_HAS_CHILDREN (t : lens_tag) : bool :=
  bool_decide (t = L_CONCAT) || bool_decide (t = L_UNION).

(** The order of the enumeration: first the lenses without children, then
    concatenation and union, then those with one child. *)
Class LensTagOrder `{LensTags} := {
  tags_no_child t :
    AY_LENSE_HAS_NO_CHILD t
    = bool_decide (t ∈ [L_DEL; L_STORE; L_VALUE; L_KEY; L_LABEL; L_SEQ; L_COUNTER]);
  tags_one_child t :
    AY_LENSE_HAS_ONE_CHILD t = bool_decide (t ∈ [L_SUBTREE; L_STAR; L_MAYBE; L_SQUARE])
}.

(** A lens with its children: [child], [children] or [body]. *)
Abbreviation lense := (tree lens) (only parsing).

(** The members of [struct module] that are read; the file name is that of the
    first binding. *)
Inductive value_tag := V_TRANSFORM | V_FILTER | V_LENS | V_REGEXP | V_STRING | V_OTHER.

#[export] Instance value_tag_eq_dec : EqDecision value_tag.
Proof. solve_decision. Defined.

(** [struct regexp]; [re_id] is its address. *)
Record regexp := Regexp { re_id : nat; re_pattern : cstr; re_nocase : bool }.

(** [bvalue] is the pointer in the union of [struct value], whatever the tag: the
    address of the lens for V_LENS, of the regexp for V_REGEXP. *)
Record binding := Binding {
  bident : cstr;
  btag : value_tag;
  bvalue : nat;
  blens : tree lens;
  bregexp : regexp;
  bfilename : cstr
}.
Record amodule := AModule {
  mod_id : nat;
  mod_name : cstr;
  autoload : option (tree lens);
  bindings : list binding
}.

(** [strncmp(mod->name, modname, len) == 0]. *)
Definition ay_get_module (modules : list amodule) (modname : cstr) (modname_len : nat)
  : option amodule :=
  let len := if (modname_len =? 0)%nat then length modname else modname_len in
  snd <$> list_find (λ m, strneq (mod_name m) modname len) modules.

Definition is_from_file (filename : cstr) (m : amodule) : bool :=
  match bindings m with
  | [] => false
  | b :: _ => streq (bfilename b) filename
  end.

Definition ay_get_module2 (modules : list amodule) (filename : cstr) : option amodule :=
  snd <$> list_find (λ m, is_from_file filename m) modules.

Definition ay_get_module_by_lens (modules : list amodule) (lens_filename : lens → cstr) (l : lens)
  : option amodule := ay_get_module2 modules (lens_filename l).

Fixpoint first_lens_binding (l : list binding) : option (tree lens) :=
  match l with
  | [] => None
  | b :: l' =>
      if bool_decide (btag b = V_TRANSFORM) || bool_decide (btag b = V_FILTER)
      then first_lens_binding l'
      else if bool_decide (btag b = V_LENS) then Some (blens b) else None
  end.

Definition ay_lense_get_root (m : amodule) : option (tree lens) :=
  match autoload m with
  | Some l => Some l
  | None => first_lens_binding (bindings m)
  end.

(** ** Lnodes *)

Record ldata := LData {
  lens_of : lens;
  lmod : option amodule;
  lpnode : option nat;
  lflags : Z
}.

Abbreviation lnode := (node ldata) (only parsing).

Definition AY_LNODE_KEY_IS_LABEL : Z := 0x01.
Definition AY_LNODE_KEY_HAS_IDENTS : Z := 0x02.
Definition AY_LNODE_KEY_NOREGEX : Z := 0x03.
Definition AY_LNODE_KEY_IN_DP : Z := 0x04.

Definition lflag (d : ldata) (mask : Z) : bool := negb (Z.land (lflags d) mask =? 0)%Z.
Definition set_lflag (mask : Z) (d : ldata) : ldata :=
  LData (lens_of d) (lmod d) (lpnode d) (Z.lor (lflags d) mask).

Definition ltag (n : lnode) : lens_tag := tag (lens_of (data n)).

(** ** Counting and copying lenses *)

(** The three counters: lenses, nodes of the forest of ynodes, patterns. *)
Record counters := Counters { ltree_size : Z; yforest_size : Z; tpatt_size : Z }.

Definition count_lens (l : lens) (c : counters) : counters :=
  Counters (u64 (ltree_size c + 1))
    (if bool_decide (tag l = L_SUBTREE) || bool_decide (tag l = L_REC)
     then u64 (yforest_size c + 1) else yforest_size c)
    (if bool_decide (tag l = L_KEY) then u64 (tpatt_size c + 1) else tpatt_size c).

Section lense.
Context `{LensTags}.

Fixpoint ay_lense_summary (t : tree lens) (c : counters) : res counters :=
  match t with
  | T l ts =>
      let c1 := count_lens l c in
      if AY_LENSE_HAS_NO_CHILD (tag l) then Ok c1
      else if AY_LENSE_HAS_ONE_CHILD (tag l) then
        match ts with
        | t' :: _ => ay_lense_summary t' c1
        | [] => Fault NullDeref
        end
      else if AY_LENSE_HAS_CHILDREN (tag l) then
        (fix go ts c := match ts with
         | [] => Ok c
         | t' :: ts' => c' ← ay_lense_summary t' c; go ts' c'
         end) ts c1
      else if bool_decide (tag l = L_REC) && negb (rec_internal l) then
        match ts with
        | t' :: _ => ay_lense_summary t' c1
        | [] => Fault NullDeref
        end
      else Ok c1
  end.

(** The allocated array and the number of elements in use. *)
Record ltree := LTree { lmem : list lnode; lcount : nat }.

Definition lmodify (st : ltree) (i : nat) (f : lnode → lnode) : res ltree :=
  m ← modify (lmem st) i f; Ok (LTree m (lcount st)).

Context (module_by_lens : lens → option amodule).

Definition lnode_flags (l : lens) : Z :=
  Z.lor (if ay_lense_pattern_is_label (Some l) then AY_LNODE_KEY_IS_LABEL else 0)
    (if ay_lense_pattern_in_datapath (Some l) then AY_LNODE_KEY_IN_DP else 0).

Definition init_lnode (l : lens) (n : lnode) : lnode :=
  set_data (LData l (module_by_lens l) (lpnode (data n)) (Z.lor (lflags (data n)) (lnode_flags l))) n.

Definition is_leaf_lense (l : lens) : bool :=
  AY_LENSE_HAS_NO_CHILD (tag l) || (bool_decide (tag l = L_REC) && rec_internal l).
Definition has_single_child (l : lens) : bool :=
  AY_LENSE_HAS_ONE_CHILD (tag l) || bool_decide (tag l = L_REC).

(** [node->descendants += 1 + child->descendants]. *)
Definition count_child (st : ltree) (nd child : nat) : res ltree :=
  cn ← fetch (lmem st) child;
  lmodify st nd (λ n, set_descendants (u32 (descendants n + (1 + descendants cn))) n).

Fixpoint ay_lnode_create_tree (t : tree lens) (st : ltree) (nd : nat) : res ltree :=
  match t with
  | T l ts =>
      st1 ← lmodify (LTree (lmem st) (S (lcount st))) nd (init_lnode l);
      if is_leaf_lense l then Ok st1
      else
        st2 ← lmodify st1 nd (set_child (Some (S nd)));
        st3 ← lmodify st2 (S nd) (set_parent (Some nd));
        match ts with
        | [] => Fault AssertFailed
        | t' :: ts' =>
            st4 ← ay_lnode_create_tree t' st3 (S nd);
            cn ← fetch (lmem st4) (S nd);
            st5 ← lmodify st4 nd (set_descendants (u32 (1 + descendants cn)));
            if has_single_child l then Ok st5
            else
              (fix go ts prev st := match ts with
               | [] => Ok st
               | t' :: ts' =>
                   let child := lcount st in
                   s1 ← lmodify st child (set_parent (Some nd));
                   s2 ← lmodify s1 prev (set_next (Some child));
                   s3 ← ay_lnode_create_tree t' s2 child;
                   s4 ← count_child s3 nd child;
                   go ts' child s4
               end) ts' (S nd) st5
        end
  end.
End lense.

Definition ay_lnode_tree_check (ltree_count : nat) (m : amodule) : Z :=
  if bool_decide (is_Some (autoload m)) then 0%Z
  else if (ltree_count <? length (bindings m))%nat then AYE_LTREE_NO_ROOT else 0%Z.

(** ** Climbing to the enclosing lenses *)

(** The arguments [m] are the array of lnodes. *)
Definition ay_yang_type_is_empty (m : list lnode) (nd : nat) : res bool :=
  n ← fetch m nd;
  r ← climb (length m) m (parent n) (λ _ it,
        if bool_decide (ltag it = L_MAYBE) then Some true
        else if bool_decide (ltag it = L_SUBTREE) then Some false else None);
  Ok (default false r).

Definition ay_lnode_has_maybe (m : list lnode) (nd : option nat) (choice_stop star_stop : bool)
  : res bool :=
  match nd with
  | None => Ok false
  | Some nd =>
      n ← fetch m nd;
      r ← climb (length m) m (parent n) (λ _ it,
            if bool_decide (ltag it = L_SUBTREE) then Some false
            else if (choice_stop && bool_decide (ltag it = L_UNION))
                    || (star_stop && bool_decide (ltag it = L_STAR)) then Some false
            else if bool_decide (ltag it = L_MAYBE) then Some true else None);
      Ok (default false r)
  end.

Definition ay_lnode_has_attribute (m : list lnode) (nd : option nat) (attribute : lens_tag)
  : res (option nat) :=
  match nd with
  | None => Ok None
  | Some nd =>
      n ← fetch m nd;
      r ← climb (length m) m (parent n) (λ i it,
            if bool_decide (ltag it = L_SUBTREE) then Some None
            else if bool_decide (ltag it = attribute) then Some (Some i) else None);
      Ok (default None r)
  end.

(** The last L_CONCAT met on the way up to [stop]. *)
Fixpoint last_concat_loop (fuel : nat) (m : list lnode) (iter : option nat) (stop : nat)
    (concat : option nat) : res (option nat) :=
  match iter with
  | None => Ok concat
  | Some i =>
      if (i =? stop)%nat then Ok concat
      else
        match fuel with
        | 0 => Fault OutOfFuel
        | S fuel' =>
            n ← fetch m i;
            last_concat_loop fuel' m (parent n) stop
              (if bool_decide (ltag n = L_CONCAT) then Some i else concat)
        end
  end.

Definition ay_lnode_get_last_concat (m : list lnode) (start stop : option nat)
  : res (option nat) :=
  match start, stop with
  | Some s, Some e => n ← fetch m s; last_concat_loop (length m) m (parent n) e None
  | _, _ => Ok None
  end.

(** Whether [it1] is met on the way from [it2] to [stop]; [it2] must reach it. *)
Fixpoint meets (fuel : nat) (m : list lnode) (it2 stop : option nat) (it1 : nat) : res bool :=
  if bool_decide (it2 = stop) then Ok false
  else if bool_decide (it2 = Some it1) then Ok true
  else
    i ← deref it2;
    match fuel with
    | 0 => Fault OutOfFuel
    | S fuel' => n ← fetch m i; meets fuel' m (parent n) stop it1
    end.

Fixpoint common_choice_loop (fuel : nat) (m : list lnode) (it1 node2 stop : option nat)
  : res (option (option nat)) :=
  if bool_decide (it1 = stop) then Ok None
  else
    match it1 with
    | None => Ok (Some None)
    | Some i =>
        match fuel with
        | 0 => Fault OutOfFuel
        | S fuel' =>
            n ← fetch m i;
            if bool_decide (ltag n ≠ L_UNION) then common_choice_loop fuel' m (parent n) node2 stop
            else
              b ← meets (length m) m node2 stop i;
              if (b : bool) then Ok (Some (Some i))
              else common_choice_loop fuel' m (parent n) node2 stop
        end
    end.

Definition ay_ynode_common_choice (m : list lnode) (node1 node2 stop : option nat)
  : res (option nat) :=
  match node1, node2 with
  | Some n1, Some n2 =>
      r ← common_choice_loop (length m) m (Some n1) (Some n2) stop;
      match r with
      | Some found => Ok found
      | None =>
          match stop with
          | Some s => sn ← fetch m s; Ok (if bool_decide (ltag sn = L_UNION) then Some s else None)
          | None => Ok None
          end
      end
  | _, _ => Ok None
  end.

(** ** Labels and values of an L_SUBTREE *)

(** The first element from [i] up to [stop] whose tag satisfies [p], outside of
    nested subtrees. *)
Fixpoint scan_lnodes (fuel : nat) (m : list lnode) (i stop : nat) (p : lens_tag → bool)
  : res (option nat) :=
  if (stop <=? i)%nat then Ok None
  else
    match fuel with
    | 0 => Fault OutOfFuel
    | S fuel' =>
        n ← fetch m i;
        if bool_decide (ltag n = L_SUBTREE) then scan_lnodes fuel' m (i + below n + 1) stop p
        else if p (ltag n) then Ok (Some i)
        else scan_lnodes fuel' m (S i) stop p
    end.

Definition find_in_subtree (m : list lnode) (p : lens_tag → bool) (snode : nat)
  : res (option nat) :=
  n ← fetch m snode;
  scan_lnodes (length m) m (S snode) (S snode + below n) p.

Definition ay_ynode_find_label (m : list lnode) : nat → res (option nat) :=
  find_in_subtree m AY_TAG_IS_LABEL.
Definition ay_ynode_find_value (m : list lnode) : nat → res (option nat) :=
  find_in_subtree m AY_TAG_IS_VALUE.

Inductive lv_type := AY_LV_TYPE_ANY | AY_LV_TYPE_VALUE | AY_LV_TYPE_LABEL.

Definition lv_matches (ty : lv_type) (t : lens_tag) : bool :=
  match ty with AY_LV_TYPE_LABEL => AY_TAG_IS_LABEL t | _ => AY_TAG_IS_VALUE t end.

Definition ay_lnode_next_lv (m : list lnode) (lv : option nat) (ty : lv_type)
  : res (option nat) :=
  match lv with
  | None => Ok None
  | Some lv =>
      n ← fetch m lv;
      s ← climb (length m) m (parent n) (λ i it,
            if bool_decide (ltag it = L_SUBTREE) then Some i else None);
      match s with
      | None => Ok None
      | Some s =>
          sn ← fetch m s;
          scan_lnodes (length m) m (S lv) (s + below sn + 1) (lv_matches ty)
      end
  end.

(** ** Comparing and classifying lenses *)

Definition has_pattern (l : lens) : bool :=
  bool_decide (tag l = L_STORE) || bool_decide (tag l = L_KEY).
Definition has_string (l : lens) : bool :=
  bool_decide (tag l = L_VALUE) || bool_decide (tag l = L_LABEL) || bool_decide (tag l = L_SEQ).

(** The text that a lens is compared by. *)
Definition lens_text (l : lens) : option cstr :=
  if has_pattern l then Some (text (pattern l))
  else if has_string l then Some (lens_string l) else None.

Definition ay_lnode_lense_equal (l1 l2 : option lens) : bool :=
  match l1, l2 with
  | Some l1, Some l2 =>
      match lens_text l1, lens_text l2 with
      | Some s1, Some s2 => streq s1 s2
      | _, _ => bool_decide (tag l1 = tag l2)
      end
  | _, _ => false
  end.

Definition ay_lense_is_comment (l : option lens) : bool :=
  match l with
  | None => false
  | Some l =>
      bool_decide (tag l = L_LABEL) &&
      (streq (lit "#comment") (lens_string l) || streq (lit "!comment") (lens_string l)
       || streq (lit "#mcomment") (lens_string l) || streq (lit "#scomment") (lens_string l))
  end.

(** ** The table of patterns *)

(** [dst] is the next of the [cap] allocated elements of [table]; [buffer] is the
    local array of [ay_transl_create_substr].  The result is the code, the array
    with the flags set and the table. *)
Fixpoint pattern_table_loop (buffer : buf) (cap n i : nat) (m : list lnode) (table : list ay_transl)
  : res (Z * list lnode * list ay_transl) :=
  match n with
  | 0 => Ok (0%Z, m, table)
  | S n' =>
      nd ← fetch m i;
      let l := lens_of (data nd) in
      if bool_decide (tag l ≠ L_KEY) || lflag (data nd) AY_LNODE_KEY_IS_LABEL
         || bool_decide (ay_lense_pattern_has_idents None (Some l) = None)
      then pattern_table_loop buffer cap n' (S i) m table
      else if bool_decide (is_Some (ay_transl_find table (pattern l))) then
        m' ← modify m i (λ n, set_data (set_lflag AY_LNODE_KEY_HAS_IDENTS (data n)) n);
        pattern_table_loop buffer cap n' (S i) m' table
      else
        _ ← (if (length table <? cap)%nat then Ok tt else Fault OutOfBounds);
        '(ret, dst) ← ay_transl_create_substr buffer (AyTransl (pattern l) [] 0);
        if (ret <? 0)%Z then pattern_table_loop buffer cap n' (S i) m table
        else if (0 <? ret)%Z then Ok (ret, m, table)
        else
          m' ← modify m i (λ n, set_data (set_lflag AY_LNODE_KEY_HAS_IDENTS (data n)) n);
          pattern_table_loop buffer cap n' (S i) m' (table ++ [dst])
  end.

Definition ay_transl_create_pattern_table (buffer : buf) (cap : nat) (m : list lnode) (lcount : nat)
  : res (Z * list lnode * list ay_transl) := pattern_table_loop buffer cap lcount 0 m [].
