(* ===== verification/LnodeFacts.v ===== *)
(** The functions of [Lnode] against trees of lenses: [ay_lnode_create_tree]
    fills the array with the canonical preorder of the tree of lenses, in
    exactly the number of elements that [ay_lense_summary] counts. *)
From S2P Require Import Prelude CString Common ParseRegex Preorder PreorderFacts Lnode.

(** ** Trees of lenses *)

Section lense.
Context `{LensTagOrder}.

(** The lenses that the code visits: no children of a leaf, one child of a lens
    with a single child. *)
Fixpoint visited (t : tree lens) : tree lens :=
  match t with
  | T l ts =>
      if is_leaf_lense l then T l []
      else if has_single_child l then T l (take 1 (map visited ts))
      else T l (map visited ts)
  end.

(** Every lens that is not a leaf has a child. *)
Fixpoint lense_ok (t : tree lens) : bool :=
  match t with
  | T l ts =>
      is_leaf_lense l ||
      match ts with
      | [] => false
      | t' :: ts' => lense_ok t' && (has_single_child l || forallb lense_ok ts')
      end
  end.

Context (module_by_lens : lens → option amodule).

Definition mk (l : lens) : ldata := LData l (module_by_lens l) None (lnode_flags l).
Definition lnodes (t : tree lens) : tree ldata := tmap mk (visited t).

(** Elements of the array before they are used. *)
Context (l0 : lens).
Definition blank (p nx : option nat) : lnode := Node p nx None 0 (LData l0 None None 0).
Definition blanks (n : nat) : list lnode := replicate n (blank None None).

Lemma lnodes_leaf l ts : is_leaf_lense l = true → lnodes (T l ts) = T (mk l) [].
Proof. unfold lnodes. cbn. by intros ->. Qed.

Lemma lnodes_single l t ts :
  is_leaf_lense l = false → has_single_child l = true →
  lnodes (T l (t :: ts)) = T (mk l) [lnodes t].
Proof. unfold lnodes. cbn. intros -> ->. cbn. by rewrite take_0. Qed.

Lemma lnodes_many l ts :
  is_leaf_lense l = false → has_single_child l = false →
  lnodes (T l ts) = T (mk l) (map lnodes ts).
Proof. unfold lnodes. cbn. intros -> ->. cbn. by rewrite map_map. Qed.

Lemma init_blank l p nx : init_lnode module_by_lens l (blank p nx) = Node p nx None 0 (mk l).
Proof. done. Qed.

Lemma lmodify_mid pre n post c i f :
  i = length pre →
  lmodify (LTree (pre ++ n :: post) c) i f = Ok (LTree (pre ++ f n :: post) c).
Proof.
  intros ->. unfold lmodify, modify. cbn [lmem lcount].
  rewrite (fetch_Some _ _ n) by (by apply lookup_app_mid). rewrite bind_Ok.
  rewrite store_Ok by (rewrite length_app; cbn; lia).
  by rewrite bind_Ok, insert_app_mid.
Qed.

Definition creates (t : tree lens) : Prop :=
  ∀ pre p nx post st, let u := lnodes t in
  lense_ok t = true →
  lmem st = pre ++ blank p nx :: blanks (size u - 1) ++ post → lcount st = length pre →
  (Z.of_nat (length pre + size u) < 2 ^ 32)%Z →
  ay_lnode_create_tree module_by_lens t st (length pre)
  = Ok (LTree (pre ++ enc (length pre) p nx u ++ post) (length pre + size u)).

(** The part of [ay_lnode_create_tree] behind the first child. *)
Definition create_rest (nd : nat) : list (tree lens) → nat → ltree → res ltree :=
  fix go ts prev st := match ts with
  | [] => Ok st
  | t' :: ts' =>
      let child := lcount st in
      s1 ← lmodify st child (set_parent (Some nd));
      s2 ← lmodify s1 prev (set_next (Some child));
      s3 ← ay_lnode_create_tree module_by_lens t' s2 child;
      s4 ← count_child s3 nd child;
      go ts' child s4
  end.

Lemma create_tree_T l ts st nd :
  ay_lnode_create_tree module_by_lens (T l ts) st nd
  = st1 ← lmodify (LTree (lmem st) (S (lcount st))) nd (init_lnode module_by_lens l);
    if is_leaf_lense l then Ok st1
    else
      st2 ← lmodify st1 nd (set_child (Some (S nd)));
      st3 ← lmodify st2 (S nd) (set_parent (Some nd));
      match ts with
      | [] => Fault AssertFailed
      | t' :: ts' =>
          st4 ← ay_lnode_create_tree module_by_lens t' st3 (S nd);
          cn ← fetch (lmem st4) (S nd);
          st5 ← lmodify st4 nd (set_descendants (u32 (1 + descendants cn)));
          if has_single_child l then Ok st5 else create_rest nd ts' (S nd) st5
      end.
Proof. done. Qed.

Lemma blanks_split n k post :
  (0 < n)%nat → blanks (n + k) ++ post = blank None None :: blanks (n - 1) ++ blanks k ++ post.
Proof.
  intros Hn. unfold blanks. rewrite replicate_add, <- app_assoc.
  by destruct n; [lia|]; rewrite Nat.sub_succ, Nat.sub_0_r.
Qed.

Lemma set_last_next_ok pre b p nx y ls u post c :
  lmodify (LTree (pre ++ encf b p nx (ls ++ [u]) ++ post) c) (length pre + sizes ls) (set_next y)
  = Ok (LTree (pre ++ encf b p y (ls ++ [u]) ++ post) c).
Proof. unfold lmodify. cbn [lmem lcount]. by rewrite set_last_next. Qed.

Lemma fetch_enc_root pre p nx (v : tree ldata) post :
  ∃ h, fetch (pre ++ enc (length pre) p nx v ++ post) (length pre) = Ok h ∧
    descendants h = Z.of_nat (size v - 1).
Proof.
  destruct v as [dv tv]. rewrite enc_T. eexists. split.
  - apply fetch_Some. rewrite <- app_comm_cons. by apply lookup_app_mid.
  - cbn [descendants]. rewrite size_T. lia.
Qed.

(** The nodes behind the first child. [ls ++ [u]] are the children so far. *)
Lemma create_rest_ok ts p nx d ls u pre post nd c :
  Forall creates ts → forallb lense_ok ts = true → nd = length pre →
  let vs := map lnodes ts in
  c = (S nd + sizes (ls ++ [u]))%nat →
  (Z.of_nat (c + sizes vs) < 2 ^ 32)%Z →
  create_rest nd ts (S nd + sizes ls)
    (LTree (pre ++ Node p nx (Some (S nd)) (Z.of_nat (sizes (ls ++ [u]))) d
            :: encf (S nd) (Some nd) None (ls ++ [u]) ++ blanks (sizes vs) ++ post) c)
  = Ok (LTree (pre ++ Node p nx (Some (S nd)) (Z.of_nat (sizes ((ls ++ [u]) ++ vs))) d
               :: encf (S nd) (Some nd) None ((ls ++ [u]) ++ vs) ++ post) (c + sizes vs)).
Proof.
  revert ls u c. induction ts as [|t ts IH]; intros ls u c Hall Hok Hnd vs Hc Hlt; subst nd.
  { cbn [vs map sizes create_rest]. unfold vs. cbn. by rewrite !app_nil_r, Nat.add_0_r. }
  inversion_clear Hall as [|? ? Ht Hts]. cbn [forallb] in Hok. apply andb_true_iff in Hok as [Hok Hoks].
  unfold vs in *. clear vs. cbn [map sizes] in Hlt |- *. set (v := lnodes t) in *.
  set (us := map lnodes ts) in *. cbn [create_rest]. cbn [lcount].
  pose proof (size_pos v) as Hv.
  match goal with |- _ = ?x => set (rhs := x) end.
  rewrite blanks_split by done. set (r := Node p nx _ _ _).
  assert (length (pre ++ r :: encf (S (length pre)) (Some (length pre)) None (ls ++ [u])) = c) as Hlen
    by (rewrite length_app; cbn; rewrite length_encf; lia).
  rewrite app_comm_cons, app_assoc.
  rewrite lmodify_mid by done. rewrite bind_Ok.
  change (set_parent _ (blank _ _)) with (blank (Some (length pre)) None).
  rewrite <- app_assoc, <- app_comm_cons, (cons_middle r pre), (app_assoc pre [r]).
  replace (S (length pre) + sizes ls)%nat with (length (pre ++ [r]) + sizes ls)%nat
    by (rewrite length_app; cbn; lia).
  rewrite set_last_next_ok, bind_Ok.
  set (E := encf _ _ (Some c) _). rewrite (app_assoc (pre ++ [r])).
  assert (length ((pre ++ [r]) ++ E) = c) as HlE
    by (unfold E; rewrite !length_app, length_encf; cbn; lia).
  pose proof (Ht ((pre ++ [r]) ++ E) (Some (length pre)) None (blanks (sizes us) ++ post)
    (LTree (((pre ++ [r]) ++ E) ++ blank (Some (length pre)) None
            :: blanks (size v - 1) ++ blanks (sizes us) ++ post) c)) as Ht'.
  cbv zeta in Ht'. fold v in Ht'. rewrite HlE in Ht'. rewrite Ht' by (done || lia).
  rewrite bind_Ok. clear Ht'.
  unfold count_child. cbn [lmem].
  destruct (fetch_enc_root ((pre ++ [r]) ++ E) (Some (length pre)) None v
    (blanks (sizes us) ++ post)) as (h & Hfetch & Hh). rewrite HlE in Hfetch.
  rewrite Hfetch, bind_Ok, Hh. clear Hfetch.
  set (X := enc c _ _ v ++ _).
  replace (((pre ++ [r]) ++ E) ++ X) with (pre ++ r :: E ++ X) by (by rewrite <- !app_assoc).
  rewrite lmodify_mid by done. rewrite bind_Ok.
  set (r' := set_descendants _ r).
  assert (encf (S (length pre)) (Some (length pre)) None ((ls ++ [u]) ++ [v])
    = encf (S (length pre)) (Some (length pre)) (Some c) (ls ++ [u])
      ++ enc c (Some (length pre)) None v) as HE.
  { rewrite encf_app. cbn [after encf]. rewrite app_nil_r. by rewrite <- Hc. }
  unfold X. rewrite (app_assoc E). unfold E. rewrite <- HE.
  assert (r' = Node p nx (Some (S (length pre))) (Z.of_nat (sizes ((ls ++ [u]) ++ [v]))) d) as ->.
  { unfold r', r. unfold set_descendants. cbn [parent next child descendants data].
    rewrite u32_small by lia. f_equal. rewrite (sizes_app (ls ++ [u])). cbn [sizes]. lia. }
  replace c with (S (length pre) + sizes (ls ++ [u]))%nat at 1 by lia.
  rewrite (IH (ls ++ [u]) v (c + size v)%nat); [|done|done|done| |].
  - unfold rhs. rewrite <- (app_assoc (ls ++ [u]) [v] us). cbn [app]. by rewrite Nat.add_assoc.
  - rewrite (sizes_app (ls ++ [u])). cbn [sizes]. lia.
  - fold us. lia.
Qed.

Lemma create_tree_ok t : creates t.
Proof.
  induction t as [l ts IH] using tree_nested_ind.
  intros pre p nx post [m c] u Hok Hm Hc Hlt. cbn [lmem lcount] in Hm, Hc. subst m c.
  rewrite create_tree_T. cbn [lmem lcount]. rewrite lmodify_mid by done.
  rewrite bind_Ok, init_blank. cbn [lense_ok] in Hok.
  destruct (is_leaf_lense l) eqn:Hleaf.
  { unfold u. rewrite lnodes_leaf by done. cbn. by rewrite Nat.add_1_r. }
  cbn [orb] in Hok. destruct ts as [|t ts]; [done|]. apply andb_true_iff in Hok as [Hokt Hok].
  inversion_clear IH as [|? ? Ht Hts].
  rewrite lmodify_mid by done. rewrite bind_Ok.
  match goal with |- _ = ?x => set (rhs := x) end.
  set (r := set_child _ _). rewrite (cons_middle r pre), (app_assoc pre [r]).
  assert (length (pre ++ [r]) = S (length pre)) as Hl by (rewrite length_app; cbn; lia).
  set (v := lnodes t). pose proof (size_pos v) as Hv.
  set (vs := if has_single_child l then [] else map lnodes ts).
  assert (u = T (mk l) (v :: vs)) as Hu.
  { unfold u, vs. destruct (has_single_child l) eqn:Hs;
      [by rewrite lnodes_single|by rewrite lnodes_many]. }
  rewrite Hu, size_T in Hlt. replace (size u - 1)%nat with (sizes (v :: vs))
    by (rewrite Hu, size_T; lia). cbn [sizes] in Hlt |- *. rewrite blanks_split by done.
  rewrite <- Hl, lmodify_mid by done. rewrite bind_Ok.
  change (set_parent _ (blank _ _)) with (blank (Some (length pre)) None).
  pose proof (Ht (pre ++ [r]) (Some (length pre)) None (blanks (sizes vs) ++ post)
    (LTree ((pre ++ [r]) ++ blank (Some (length pre)) None
            :: blanks (size v - 1) ++ blanks (sizes vs) ++ post) (length (pre ++ [r])))) as Ht'.
  cbv zeta in Ht'. fold v in Ht'. rewrite Ht' by (done || (cbn; lia)).
  rewrite bind_Ok. clear Ht'. cbn [lmem].
  destruct (fetch_enc_root (pre ++ [r]) (Some (length pre)) None v (blanks (sizes vs) ++ post))
    as (h & Hfetch & Hh).
  rewrite Hfetch, bind_Ok, Hh. clear Hfetch. rewrite <- app_assoc. cbn [app].
  rewrite lmodify_mid by done. rewrite bind_Ok, u32_small by lia.
  assert (set_descendants (1 + Z.of_nat (size v - 1)) r
    = Node p nx (Some (S (length pre))) (Z.of_nat (sizes ([] ++ [v]))) (mk l)) as ->.
  { unfold r, set_descendants, set_child. cbn. f_equal. lia. }
  rewrite Hl. unfold rhs. rewrite Hu, enc_T, size_T. unfold vs in *. destruct (has_single_child l) eqn:Hs.
  - cbn [blanks sizes replicate app encf]. unfold blanks. cbn [replicate app]. rewrite app_nil_r. 
    do 2 f_equal. lia.
  - pose proof (create_rest_ok ts p nx (mk l) [] v pre post (length pre) (S (length pre) + size v)
      Hts Hok eq_refl) as H'.
    cbv zeta in H'. cbn [app sizes encf after] in H' |- *. rewrite !Nat.add_0_r in H'.
    rewrite !app_nil_r in H'. rewrite Nat.add_0_r. rewrite H' by lia. do 2 f_equal. lia.
Qed.

(** In an array of its own. *)
Lemma create_tree_alone t :
  lense_ok t = true → (Z.of_nat (size (visited t)) < 2 ^ 32)%Z →
  ay_lnode_create_tree module_by_lens t (LTree (blanks (size (visited t))) 0) 0
  = Ok (LTree (enc 0 None None (lnodes t)) (size (visited t))).
Proof.
  intros Hok Hlt.
  pose proof (create_tree_ok t [] None None [] (LTree (blanks (size (visited t))) 0)) as Hcr.
  cbv zeta in Hcr. unfold lnodes in Hcr. rewrite size_tmap in Hcr. rewrite !app_nil_r in Hcr.
  apply Hcr; [done| |done|cbn; lia]. cbn. pose proof (size_pos (visited t)).
  by destruct (size (visited t)); [lia|]; rewrite Nat.sub_succ, Nat.sub_0_r.
Qed.

Lemma length_enc b p nx (t : tree ldata) : length (enc b p nx t) = size t.
Proof. pose proof (length_encf b p nx [t]) as Hl. cbn in Hl. by rewrite app_nil_r, Nat.add_0_r in Hl. Qed.

(** The counters run over the lenses in preorder. *)
Definition preorder (t : tree lens) : list lens := snd <$> flat t.
Definition count_all (ls : list lens) (c : counters) : counters :=
  foldl (λ c l, count_lens l c) c ls.

Lemma preorder_T l ts : preorder (T l ts) = l :: (ts ≫= preorder).
Proof.
  unfold preorder. rewrite flat_T. cbn. f_equal.
  induction ts as [|t ts IH]; cbn; [done|]. by rewrite fmap_app, IH.
Qed.

Lemma count_all_app ls ks c : count_all (ls ++ ks) c = count_all ks (count_all ls c).
Proof. apply foldl_app. Qed.

(** The way [ay_lense_summary] takes. *)
Definition summary_kind (l : lens) : nat :=
  if AY_LENSE_HAS_NO_CHILD (tag l) then 0
  else if AY_LENSE_HAS_ONE_CHILD (tag l) then 1
  else if AY_LENSE_HAS_CHILDREN (tag l) then 2
  else if bool_decide (tag l = L_REC) && negb (rec_internal l) then 1 else 0.

Lemma summary_T l ts c :
  ay_lense_summary (T l ts) c =
  match summary_kind l with
  | 0 => Ok (count_lens l c)
  | 1 => match ts with t :: _ => ay_lense_summary t (count_lens l c) | [] => Fault NullDeref end
  | _ => (fix go ts c := match ts with
         | [] => Ok c
         | t' :: ts' => c' ← ay_lense_summary t' c; go ts' c'
         end) ts (count_lens l c)
  end.
Proof.
  cbn [ay_lense_summary]. unfold summary_kind.
  by repeat (match goal with |- context [if ?b then _ else _] => destruct b end).
Qed.

Lemma summary_kind_spec l :
  summary_kind l
  = if is_leaf_lense l then 0 else if has_single_child l then 1 else 2.
Proof.
  unfold summary_kind, is_leaf_lense, has_single_child. rewrite !tags_one_child, !tags_no_child.
  by destruct (tag l), (rec_internal l).
Qed.

Lemma summary_children ts :
  Forall (λ t, ∀ c, lense_ok t = true →
    ay_lense_summary t c = Ok (count_all (preorder (visited t)) c)) ts →
  forallb lense_ok ts = true → ∀ c,
  (fix go ts c := match ts with
   | [] => Ok c
   | t' :: ts' => c' ← ay_lense_summary t' c; go ts' c'
   end) ts c = Ok (count_all (map visited ts ≫= preorder) c).
Proof.
  induction 1 as [|t ts Ht Hts IH]; intros Hok c; [done|].
  cbn [forallb] in Hok. apply andb_true_iff in Hok as [Hok Hoks].
  rewrite Ht, bind_Ok, IH by done. cbn [map]. by rewrite bind_cons, count_all_app.
Qed.

Lemma summary_ok t c :
  lense_ok t = true → ay_lense_summary t c = Ok (count_all (preorder (visited t)) c).
Proof.
  revert c. induction t as [l ts IH] using tree_nested_ind. intros c Hok.
  rewrite summary_T, summary_kind_spec. cbn [lense_ok] in Hok. cbn [visited].
  destruct (is_leaf_lense l); [done|]. cbn [orb] in Hok.
  destruct (has_single_child l); (destruct ts as [|t ts]; [done|]); cbn [orb] in Hok.
  { inversion_clear IH as [|? ? H1 Hts]. apply andb_true_iff in Hok as [Hok _].
    rewrite H1 by done. cbn [map take]. rewrite take_0, preorder_T, bind_cons, app_nil_r. done. }
  rewrite preorder_T. apply (summary_children (t :: ts) IH Hok (count_lens l c)).
Qed.

Lemma length_preorder t : length (preorder t) = size t.
Proof.
  unfold preorder. rewrite length_fmap. pose proof (length_flats [t]) as Hl.
  cbn in Hl. by rewrite app_nil_r, Nat.add_0_r in Hl.
Qed.

Lemma count_all_spec ls c :
  let bound x := (0 ≤ x ∧ x + Z.of_nat (length ls) < 2 ^ 64)%Z in
  bound (ltree_size c) → bound (yforest_size c) → bound (tpatt_size c) →
  ltree_size (count_all ls c) = (ltree_size c + Z.of_nat (length ls))%Z ∧
  yforest_size (count_all ls c) = (yforest_size c
    + Z.of_nat (length (filter (λ l, tag l = L_SUBTREE ∨ tag l = L_REC) ls)))%Z ∧
  tpatt_size (count_all ls c)
  = (tpatt_size c + Z.of_nat (length (filter (λ l, tag l = L_KEY) ls)))%Z.
Proof.
  cbv zeta. revert c. induction ls as [|l ls IH]; intros c H1 H2 H3; [cbn; lia|].
  change (count_all (l :: ls) c) with (count_all ls (count_lens l c)). rewrite !filter_cons.
  cbn [length] in *.
  unfold count_lens. rewrite <- bool_decide_or, (u64_small (ltree_size c + 1)),
    (u64_small (yforest_size c + 1)), (u64_small (tpatt_size c + 1)) by lia.
  set (c' := Counters _ _ _).
  destruct (IH c') as (-> & -> & ->); unfold c'; cbn [ltree_size yforest_size tpatt_size];
    repeat case_decide; repeat case_bool_decide; try done; cbn [length]; lia.
Qed.
End lense.
