(* ===== verification/LnodeTheorems.v ===== *)
(** What the functions on lnodes compute, in terms of trees of lenses and of
    their contexts. *)
From S2P Require Import Prelude CString Common ParseRegex Preorder PreorderFacts Lnode LnodeFacts.

(** ** Scanning *)

(** The first lens, in preorder, that satisfies [p] and is not inside an
    L_SUBTREE of the forest; [b] is the index of the forest. *)
Fixpoint first_in (p : lens_tag → bool) (b : nat) (t : tree ldata) : option (nat * ldata) :=
  match t with
  | T d cs =>
      if bool_decide (tag (lens_of d) = L_SUBTREE) then None
      else if p (tag (lens_of d)) then Some (b, d)
      else (fix go b l := match l with
            | [] => None
            | t' :: l' =>
                match first_in p b t' with Some i => Some i | None => go (b + size t')%nat l' end
            end) (S b) cs
  end.
Fixpoint first_in_forest (p : lens_tag → bool) (b : nat) (ts : list (tree ldata))
  : option (nat * ldata) :=
  match ts with
  | [] => None
  | t :: ts' =>
      match first_in p b t with Some i => Some i | None => first_in_forest p (b + size t) ts' end
  end.

Lemma first_in_T p b d cs :
  first_in p b (T d cs)
  = if bool_decide (tag (lens_of d) = L_SUBTREE) then None
    else if p (tag (lens_of d)) then Some (b, d) else first_in_forest p (S b) cs.
Proof.
  cbn [first_in]. generalize (S b). induction cs as [|t cs IH]; intros b'; [done|]. cbn.
  specialize (IH (b' + size t)%nat). repeat case_match; congruence.
Qed.

Lemma scan_forest p ts b par nx pre post fuel stop :
  length pre = b → (sizes ts <= fuel)%nat → (b + sizes ts <= stop)%nat →
  ∃ fuel', (fuel <= fuel' + sizes ts)%nat ∧
  scan_lnodes fuel (pre ++ encf b par nx ts ++ post) b stop p
  = match first_in_forest p b ts with
    | Some x => Ok (Some x.1)
    | None => scan_lnodes fuel' (pre ++ encf b par nx ts ++ post) (b + sizes ts) stop p
    end.
Proof.
  enough (∀ n, (sizes ts < n)%nat → ∀ b par nx pre post fuel,
    length pre = b → (sizes ts <= fuel)%nat → (b + sizes ts <= stop)%nat →
    ∃ fuel', (fuel <= fuel' + sizes ts)%nat ∧
    scan_lnodes fuel (pre ++ encf b par nx ts ++ post) b stop p
    = match first_in_forest p b ts with
      | Some x => Ok (Some x.1)
      | None => scan_lnodes fuel' (pre ++ encf b par nx ts ++ post) (b + sizes ts) stop p
      end) by eauto.
  clear b par nx pre post fuel. intros n. revert ts.
  induction n as [|n IH]; intros ts Hn b par nx pre post fuel Hb Hf Hs; [lia|].
  destruct ts as [|[d cs] ts].
  { exists fuel. split; [lia|]. cbn. by rewrite Nat.add_0_r. }
  cbn [sizes] in Hn, Hf, Hs. rewrite size_T in Hn, Hf, Hs.
  destruct fuel as [|fuel]; [lia|]. cbn [scan_lnodes first_in_forest sizes].
  rewrite first_in_T, (proj2 (Nat.leb_gt _ _)) by lia.
  rewrite encf_cons, <- app_comm_cons, (fetch_Some _ _ _ (lookup_app_mid pre _ _ b (eq_sym Hb))).
  rewrite bind_Ok. unfold ltag, below. cbn [data descendants]. rewrite Nat2Z.id, size_T.
  set (r := Node par _ _ _ _). set (C := encf _ _ None cs).
  assert (length (pre ++ r :: C) = b + S (sizes cs))%nat as Hl
    by (rewrite length_app; cbn; unfold C; rewrite length_encf; lia).
  assert (∀ fuel, (sizes ts <= fuel)%nat → ∃ fuel', (fuel <= fuel' + sizes ts)%nat ∧
    scan_lnodes fuel (pre ++ r :: (C ++ encf (b + S (sizes cs)) par nx ts) ++ post)
      (b + S (sizes cs)) stop p
    = match first_in_forest p (b + S (sizes cs)) ts with
      | Some x => Ok (Some x.1)
      | None => scan_lnodes fuel' (pre ++ r :: (C ++ encf (b + S (sizes cs)) par nx ts) ++ post)
          (b + (S (sizes cs) + sizes ts)) stop p
      end) as Hrest.
  { intros fuel1 Hf1.
    destruct (IH ts ltac:(lia) (b + S (sizes cs))%nat par nx (pre ++ r :: C) post fuel1 Hl Hf1
      ltac:(lia)) as (fuel' & Hf' & Heq).
    exists fuel'. split; [done|]. rewrite <- !app_assoc, <- !app_comm_cons in Heq.
    rewrite <- !app_assoc. rewrite Heq. by rewrite Nat.add_assoc. }
  case_bool_decide as Hsub.
  { replace (b + sizes cs + 1)%nat with (b + S (sizes cs))%nat by lia.
    destruct (Hrest fuel ltac:(lia)) as (fuel' & Hf' & ->). exists fuel'. split; [lia|]. done. }
  destruct (p (tag (lens_of d))); [exists fuel; split; [lia|done]|].
  assert (length (pre ++ [r]) = S b) as Hl1 by (rewrite length_app; cbn; lia).
  destruct (IH cs ltac:(lia) (S b) (Some b) None (pre ++ [r])
    (encf (b + S (sizes cs)) par nx ts ++ post) fuel Hl1 ltac:(lia) ltac:(lia))
    as (fuel1 & Hf1 & Heq). fold C in Heq.
  rewrite <- !app_assoc in Heq. cbn [app] in Heq. rewrite <- (app_assoc C), Heq.
  destruct (first_in_forest p (S b) cs); [exists fuel; split; [lia|done]|].
  destruct (Hrest fuel1 ltac:(lia)) as (fuel' & Hf' & Heq2).
  replace (S b + sizes cs)%nat with (b + S (sizes cs))%nat by lia.
  rewrite <- (app_assoc C) in Heq2. rewrite Heq2.
  exists fuel'. split; [lia|]. done.
Qed.

(** The root of the subtree is an element of any array of forests. *)
Lemma find_in_forest p pre b par nx d cs us post :
  length pre = b →
  find_in_subtree (pre ++ encf b par nx (T d cs :: us) ++ post) p b
  = Ok (fst <$> first_in_forest p (S b) cs).
Proof.
  intros Hb. unfold find_in_subtree. rewrite encf_cons.
  set (r := Node _ _ _ _ _). set (m := pre ++ _ ++ _).
  assert (m = (pre ++ [r]) ++ encf (S b) (Some b) None cs
    ++ encf (b + S (sizes cs)) par nx us ++ post) as Hm.
  { unfold m. rewrite <- !app_assoc. cbn [app]. by rewrite <- !app_assoc. }
  assert (fetch m b = Ok r) as ->.
  { apply fetch_Some. rewrite Hm, <- app_assoc. by apply lookup_app_mid. }
  rewrite bind_Ok. unfold below, r at 1. cbn [descendants]. rewrite Nat2Z.id.
  assert (length (pre ++ [r]) = S b) as Hl1 by (rewrite length_app; cbn; lia).
  destruct (scan_forest p cs (S b) (Some b) None (pre ++ [r])
    (encf (b + S (sizes cs)) par nx us ++ post) (length m) (S b + sizes cs))
    as (fuel' & Hf' & Heq'); [done| |lia|].
  { rewrite Hm, !length_app, length_encf. lia. }
  rewrite <- Hm in Heq'. rewrite Heq'. destruct (first_in_forest p _ cs); [done|].
  destruct fuel'; cbn [scan_lnodes]; by rewrite Nat.leb_refl.
Qed.

Lemma find_in_subtree_ok p c d cs Sp :
  find_in_subtree (encf 0 None None (plug c [T d cs]) ++ Sp) p (hole c)
  = Ok (fst <$> first_in_forest p (S (hole c)) cs).
Proof.
  destruct (encf_plug c [T d cs]) as (A & B & -> & HA). rewrite <- !app_assoc.
  by apply find_in_forest.
Qed.

(** ** Climbing *)

(** The ancestors of the hole below the nearest L_SUBTREE, the innermost first. *)
Fixpoint enclosing (c : list (frame ldata)) : list (nat * lens_tag) :=
  match c with
  | [] => []
  | Frame d _ _ :: c' =>
      if bool_decide (tag (lens_of d) = L_SUBTREE) then []
      else (hole c', tag (lens_of d)) :: enclosing c'
  end.

Definition first_tag (ts : list lens_tag) (l : list (nat * lens_tag)) : option (nat * lens_tag) :=
  snd <$> list_find (λ x, x.2 ∈ ts) l.

Lemma first_tag_cons ts i t l :
  first_tag ts ((i, t) :: l) = if decide (t ∈ ts) then Some (i, t) else first_tag ts l.
Proof.
  unfold first_tag. cbn. case_decide; [done|]. by rewrite <- option_fmap_compose.
Qed.

Section climb.
Context (c : list (frame ldata)) (d : ldata) (cs us : list (tree ldata)) (Sp : list lnode).

Definition tree_array : list lnode := encf 0 None None (plug c (T d cs :: us)) ++ Sp.

Lemma fetch_tree_array :
  ∃ n, fetch tree_array (hole c) = Ok n ∧ parent n = hole_parent c.
Proof.
  pose proof (lookup_hole c (T d cs) us) as Hl. unfold tree_array. eexists.
  by rewrite (fetch_Some _ _ _ (lookup_app_l_Some _ _ _ _ Hl)).
Qed.

Lemma climb_tree_array {A} (body : nat → lnode → option A) g :
  (∀ i n, body i n = g i (data n)) →
  climb (length tree_array) tree_array (hole_parent c) body = Ok (on_ancestors c g).
Proof.
  intros Hg. apply climb_spec; [done|]. unfold tree_array. rewrite length_app, length_encf.
  pose proof (hole_le c (T d cs :: us)). lia.
Qed.

Lemma has_attribute_ok attribute :
  ay_lnode_has_attribute tree_array (Some (hole c)) attribute
  = Ok (fst <$> first_tag [attribute] (enclosing c)).
Proof.
  unfold ay_lnode_has_attribute. destruct fetch_tree_array as (n & -> & Hp). rewrite bind_Ok, Hp.
  rewrite (climb_tree_array _ (λ i d, if bool_decide (tag (lens_of d) = L_SUBTREE) then Some None
    else if bool_decide (tag (lens_of d) = attribute) then Some (Some i) else None)) by done.
  rewrite bind_Ok. f_equal. clear n Hp. induction c as [|[e ls rs] c' IH]; [done|].
  cbn [on_ancestors enclosing]. case_bool_decide; [done|]. rewrite first_tag_cons.
  destruct (decide (tag (lens_of e) = attribute)) as [Heq|Hne].
  - by rewrite bool_decide_true, decide_True by set_solver.
  - by rewrite bool_decide_false, decide_False by set_solver.
Qed.

Lemma has_maybe_ok choice_stop star_stop :
  ay_lnode_has_maybe tree_array (Some (hole c)) choice_stop star_stop
  = Ok (bool_decide (snd <$> first_tag (L_MAYBE :: (if choice_stop then [L_UNION] else [])
      ++ (if star_stop then [L_STAR] else [])) (enclosing c) = Some L_MAYBE)).
Proof.
  unfold ay_lnode_has_maybe. destruct fetch_tree_array as (n & -> & Hp). rewrite bind_Ok, Hp.
  rewrite (climb_tree_array _ (λ _ d, if bool_decide (tag (lens_of d) = L_SUBTREE) then Some false
    else if (choice_stop && bool_decide (tag (lens_of d) = L_UNION))
            || (star_stop && bool_decide (tag (lens_of d) = L_STAR)) then Some false
    else if bool_decide (tag (lens_of d) = L_MAYBE) then Some true else None)) by done.
  rewrite bind_Ok. f_equal. clear n Hp. induction c as [|[e ls rs] c' IH]; [done|].
  cbn [on_ancestors enclosing]. destruct (bool_decide (tag (lens_of e) = L_SUBTREE)); [done|].
  rewrite first_tag_cons.
  by destruct (tag (lens_of e)), choice_stop, star_stop; try (apply IH).
Qed.

Lemma type_is_empty_ok :
  ay_yang_type_is_empty tree_array (hole c)
  = Ok (bool_decide (is_Some (first_tag [L_MAYBE] (enclosing c)))).
Proof.
  unfold ay_yang_type_is_empty. destruct fetch_tree_array as (n & -> & Hp). rewrite bind_Ok, Hp.
  rewrite (climb_tree_array _ (λ _ d, if bool_decide (tag (lens_of d) = L_MAYBE) then Some true
    else if bool_decide (tag (lens_of d) = L_SUBTREE) then Some false else None)) by done.
  rewrite bind_Ok. f_equal. clear n Hp. induction c as [|[e ls rs] c' IH]; [done|].
  cbn [on_ancestors enclosing]. destruct (decide (tag (lens_of e) = L_MAYBE)) as [Hm|Hm].
  - rewrite bool_decide_true, (bool_decide_false (tag (lens_of e) = L_SUBTREE)) by congruence.
    by rewrite first_tag_cons, decide_True by set_solver.
  - rewrite (bool_decide_false (tag (lens_of e) = L_MAYBE)) by done. destruct (bool_decide (tag (lens_of e) = L_SUBTREE)); [done|].
    by rewrite first_tag_cons, decide_False by set_solver.
Qed.
End climb.

(** ** Claims *)

(** C10: [ay_lense_summary] counts exactly the elements that
    [ay_lnode_create_tree] fills: in an array of that many zeroed elements the
    copy of the lenses succeeds, writes nowhere else, leaves no element unused
    and links the lnodes as the preorder of the lenses (a recursive lens below
    itself is a leaf).  The counters of the forest and of the pattern table are
    the numbers of L_SUBTREE or L_REC lenses and of L_KEY lenses. *)
Theorem lnode_tree_built `{LensTagOrder} module_by_lens l0 (t : tree lens) :
  lense_ok t = true → (Z.of_nat (size (visited t)) < 2 ^ 32)%Z →
  ∃ n y p, ay_lense_summary t (Counters 0 0 0) = Ok (Counters n y p) ∧
    n = Z.of_nat (size (visited t)) ∧
    y = Z.of_nat (length (filter (λ l, tag l = L_SUBTREE ∨ tag l = L_REC) (preorder (visited t)))) ∧
    p = Z.of_nat (length (filter (λ l, tag l = L_KEY) (preorder (visited t)))) ∧
    ay_lnode_create_tree module_by_lens t (LTree (blanks l0 (Z.to_nat n)) 0) 0
    = Ok (LTree (enc 0 None None (tmap (mk module_by_lens) (visited t))) (Z.to_nat n)).
Proof.
  intros Hok Hlt. rewrite summary_ok by done.
  pose proof (length_preorder (visited t)) as Hlen.
  destruct (count_all (preorder (visited t)) (Counters 0 0 0)) as [n y p] eqn:Hc.
  pose proof (count_all_spec (preorder (visited t)) (Counters 0 0 0)) as Hspec.
  rewrite Hc in Hspec. cbn in Hspec. destruct Hspec as (Hn & Hy & Hp); [lia|lia|lia|].
  exists n, y, p. split_and!; [done|lia|done|done|].
  assert (Z.to_nat n = size (visited t)) as -> by lia.
  by apply create_tree_alone.
Qed.

(** C11: The label and the value of an L_SUBTREE are the first lens with the tag
    of a label and the first with the tag of a value that lie below it, but not
    inside a nested L_SUBTREE. *)
Theorem label_and_value c d cs Sp :
  let m := encf 0 None None (plug c [T d cs]) ++ Sp in
  ay_ynode_find_label m (hole c) = Ok (fst <$> first_in_forest AY_TAG_IS_LABEL (S (hole c)) cs) ∧
  ay_ynode_find_value m (hole c) = Ok (fst <$> first_in_forest AY_TAG_IS_VALUE (S (hole c)) cs).
Proof. split; apply find_in_subtree_ok. Qed.

(** What modifies a lens is found among the lenses that enclose it up to the
    nearest L_SUBTREE: [ay_lnode_has_attribute] finds the innermost one with the
    tag, [ay_yang_type_is_empty] and [ay_lnode_has_maybe] tell whether there is
    an L_MAYBE, the latter unless a union or a star that it should stop at is
    closer. *)
Theorem modifiers_of_lens c d cs us Sp :
  let m := encf 0 None None (plug c (T d cs :: us)) ++ Sp in
  (∀ attribute, ay_lnode_has_attribute m (Some (hole c)) attribute
    = Ok (fst <$> first_tag [attribute] (enclosing c))) ∧
  ay_yang_type_is_empty m (hole c) = Ok (bool_decide (is_Some (first_tag [L_MAYBE] (enclosing c)))) ∧
  (∀ choice_stop star_stop,
    ay_lnode_has_maybe m (Some (hole c)) choice_stop star_stop
    = Ok (bool_decide (snd <$> first_tag (L_MAYBE :: (if choice_stop then [L_UNION] else [])
        ++ (if star_stop then [L_STAR] else [])) (enclosing c) = Some L_MAYBE))).
Proof.
  split_and!; intros;
    [apply (has_attribute_ok c d cs us Sp)|apply (type_is_empty_ok c d cs us Sp)
    |apply (has_maybe_ok c d cs us Sp)].
Qed.

(** ** Witnesses *)

(** The order of the tags in libaugeas. *)
#[export] Instance augeas_tags : LensTags := λ t,
  match t with
  | L_DEL => 42 | L_STORE => 43 | L_VALUE => 44 | L_KEY => 45 | L_LABEL => 46 | L_SEQ => 47
  | L_COUNTER => 48 | L_CONCAT => 49 | L_UNION => 50 | L_SUBTREE => 51 | L_STAR => 52
  | L_MAYBE => 53 | L_REC => 54 | L_SQUARE => 55
  end%Z.

#[export] Instance augeas_tag_order : LensTagOrder.
Proof. split; intros []; vm_compute; done. Qed.

(** [[ key /[a-z]+/ . store /x/ ] | [ label "n" ]*]. *)
Definition leaf_lens (t : lens_tag) (s : cstr) : lens := Lens 0 t s (CPtr 0 s) false false.
Definition example_lense : tree lens :=
  let inner t ts := T (leaf_lens t []) ts in
  let leaf t s := T (leaf_lens t (lit s)) [] in
  inner L_UNION
    [inner L_SUBTREE [inner L_CONCAT [leaf L_KEY "[a-z]+"; leaf L_STORE "x"]];
     inner L_STAR [inner L_SUBTREE [leaf L_LABEL "n"]]].

Theorem lnode_tree_built_witness :
  ay_lnode_create_tree (λ _, None) example_lense (LTree (blanks (leaf_lens L_DEL []) 8) 0) 0
  = Ok (LTree (enc 0 None None (tmap (mk (λ _, None)) (visited example_lense))) 8).
Proof.
  destruct (lnode_tree_built (λ _, None) (leaf_lens L_DEL []) example_lense)
    as (n & y & p & _ & Hn & _ & _ & Heq); [reflexivity|reflexivity|].
  vm_compute in Hn. subst n. exact Heq.
Defined.
