(* ===== verification/Forest.v ===== *)
(** From the array of lnodes to the first tree of ynodes: [ay_ynode_create_tree]
    of [src/augyang.c] and the functions that it calls. *)
From S2P Require Import Prelude CString Common ParseRegex Preorder Lnode Ynode.

Definition is_snode (t : lens_tag) : bool := bool_decide (t = L_SUBTREE) || bool_decide (t = L_REC).

(** The lens of an lnode that may be missing. *)
Definition lens_at (lm : list lnode) (i : option nat) : res (option lens) :=
  match i with
  | None => Ok None
  | Some i => n ← fetch lm i; Ok (Some (lens_of (data n)))
  end.

Definition ay_ynode_is_ignored (lm : list lnode) (snode : lnode) (label : option nat) : res bool :=
  if bool_decide (ltag snode = L_SUBTREE)
  then l ← lens_at lm label; Ok (ay_lense_is_comment l)
  else Ok false.

(** The loop over [k]: the descendants that will become ynodes. *)
Fixpoint count_ynodes (fuel : nat) (lm : list lnode) (k stop : nat) (cnt : Z) : res Z :=
  if (stop <=? k)%nat then Ok cnt
  else
    match fuel with
    | 0 => Fault OutOfFuel
    | S fuel' =>
        child ← fetch lm k;
        if is_snode (ltag child) then
          label ← ay_ynode_find_label lm k;
          ign ← ay_ynode_is_ignored lm child label;
          if (ign : bool) then count_ynodes fuel' lm (k + below child + 1) stop cnt
          else count_ynodes fuel' lm (S k) stop (u32 (cnt + 1))
        else count_ynodes fuel' lm (S k) stop cnt
    end.

Definition init_ynode (ty : yang_type) (sn : nat) (lab val : option nat) (i desc : Z) (y : ynode)
  : ynode :=
  Node (parent y) (next y) (child y) desc
    (YData ty (Some sn) lab val (choice (data y)) (ident (data y)) (ref (data y)) i (flags (data y))
      (min_elems (data y)) (when_ref (data y)) (when_val (data y))).

(** The loop over the lnodes from [i] up to [stop]; [j] nodes are in use. *)
Fixpoint create_forest_loop (fuel : nat) (lm : list lnode) (i stop j : nat) (nid : Z)
    (m : list ynode) : res (list ynode * nat) :=
  if (stop <=? i)%nat then Ok (m, j)
  else
    match fuel with
    | 0 => Fault OutOfFuel
    | S fuel' =>
        n ← fetch lm i;
        if is_snode (ltag n) then
          label ← ay_ynode_find_label lm i;
          ign ← ay_ynode_is_ignored lm n label;
          if (ign : bool) then create_forest_loop fuel' lm (i + below n + 1) stop j nid m
          else
            value ← ay_ynode_find_value lm i;
            desc ← count_ynodes (length lm) lm (S i) (S i + below n) 0;
            m' ← modify m j (init_ynode (if bool_decide (ltag n = L_REC) then YN_REC else YN_UNKNOWN)
                   i label value nid desc);
            create_forest_loop fuel' lm (S i) stop (S j) (u32 (nid + 1)) m'
        else create_forest_loop fuel' lm (S i) stop j nid m
    end.

Definition ay_ynode_create_forest_ (lm : list lnode) (m : list ynode) : res (list ynode * nat) :=
  root ← fetch lm 0;
  create_forest_loop (length lm) lm 0 (below root) 0 1 m.

(** The loop over the elements from [i] on; [last] is the last top-node. *)
Fixpoint connect_loop (n i : nat) (m : list ynode) (last : option nat)
  : res (list ynode * option nat) :=
  match n with
  | 0 => Ok (m, last)
  | S n' =>
      nd ← fetch m i;
      if bool_decide (parent nd = None) then
        m' ← modify m i (set_next (Some (if (descendants nd =? 0)%Z then S i else i + below nd + 1)%nat));
        connect_loop n' (S i) m' (Some i)
      else connect_loop n' (S i) m last
  end.

Definition ay_ynode_forest_connect_topnodes (m : list ynode) (cnt : nat) : res (list ynode) :=
  if (cnt =? 0)%nat then Ok m
  else
    '(m', last) ← connect_loop cnt 0 m None;
    _ ← c_assert (bool_decide (is_Some last));
    l ← deref last;
    modify m' l (set_next None).

(** The nearest L_UNION below the nearest L_SUBTREE or L_REC. *)
Definition snode_choice (lm : list lnode) (sn : nat) : res (option nat) :=
  n ← fetch lm sn;
  r ← climb (length lm) lm (parent n) (λ i it,
        if is_snode (ltag it) then Some None
        else if bool_decide (ltag it = L_UNION) then Some (Some i) else None);
  Ok (default None r).

Fixpoint add_choice_loop (n i : nat) (lm : list lnode) (m : list ynode) : res (list ynode) :=
  match n with
  | 0 => Ok m
  | S n' =>
      nd ← fetch m i;
      sn ← deref (snode (data nd));
      ch ← snode_choice lm sn;
      m' ← match ch with
           | Some c => modify m i (on_data (with_choice (Some c)))
           | None => Ok m
           end;
      add_choice_loop n' (S i) lm m'
  end.

Definition ay_ynode_add_choice (lm : list lnode) (m : list ynode) (cnt : nat) : res (list ynode) :=
  add_choice_loop cnt 0 lm m.

(** [for (iter = tree + 1; iter; iter = iter->next)] in [ay_ynode_set_root]. *)
Fixpoint adopt_topnodes (fuel : nat) (m : list ynode) (iter : option nat) : res (list ynode) :=
  match iter with
  | None => Ok m
  | Some i =>
      match fuel with
      | 0 => Fault OutOfFuel
      | S fuel' =>
          n ← fetch m i;
          m1 ← modify m i (set_parent (Some 0));
          m2 ← modify m1 0 (λ r, set_descendants (u32 (descendants r + (descendants n + 1))) r);
          adopt_topnodes fuel' m2 (next n)
      end
  end.

(** What [struct ay_ynode_root] holds besides the counters: the array of lnodes,
    the sizes of the dictionaries of labels and values, the pattern table. *)
Record yroot := YRoot {
  yr_tree : ytree;
  yr_ltree : option (list lnode);
  yr_labels : nat;
  yr_values : nat;
  yr_patt_table : list ay_transl
}.

Definition count_tags (p : lens_tag → bool) (lm : list lnode) : nat :=
  length (filter (λ n, p (ltag n) = true) lm).

(** The members of the root that lie where other nodes have [label], [value] and
    [snode].  The pointers to the dictionaries are pointers to nothing in the array of
    lnodes, and NULL for an empty dictionary; [ltree] points to the first lnode.  The
    code reads [snode] of parents without asking whether the parent is the root.  The
    counter in the place of [id] is kept in [ytree]: the code compares the [id] of a
    node above with [when_ref] only, which the counter, greater than all identifiers,
    is as different from as 0 is. *)
Definition with_dictionaries (labcount valcount : nat) (lm : list lnode) (d : ydata) : ydata :=
  YData (type d) (snode d) (if (labcount =? 0)%nat then None else Some (length lm))
    (if (valcount =? 0)%nat then None else Some (S (length lm))) (choice d) (ident d) (ref d) (id d)
    (flags d) (min_elems d) (when_ref d) (when_val d).
Definition with_ltree (d : ydata) : ydata :=
  YData (type d) (Some 0) (label d) (value d) (choice d) (ident d) (ref d) (id d) (flags d)
    (min_elems d) (when_ref d) (when_val d).

(** The result is the code, the tree and the array of lnodes. *)
Definition ay_ynode_set_root (buffer : buf) (m : list ynode) (cnt tpatt_size : nat) (lm : list lnode)
  : res (Z * yroot * list lnode) :=
  s ← ay_ynode_shift_right (YTree m cnt 0 0);
  m1 ← modify (mem s) 0 (on_data (with_type YN_ROOT));
  m2 ← (if (count s =? 1)%nat then Ok m1
        else
          m' ← modify m1 0 (set_child (Some 1));
          adopt_topnodes (length m') m' (Some 1));
  root ← fetch m2 0;
  _ ← c_assert (Z.of_nat (count s) =? descendants root + 1)%Z;
  let labcount := count_tags AY_TAG_IS_LABEL lm in
  let valcount := count_tags AY_TAG_IS_VALUE lm in
  m3 ← modify m2 0 (on_data (with_dictionaries labcount valcount lm));
  '(ret, lm', table) ← ay_transl_create_pattern_table buffer tpatt_size lm (length lm);
  if negb (ret =? 0)%Z
  then Ok (ret, YRoot (YTree m3 (count s) (Z.of_nat (count s)) 0) None labcount valcount table, lm')
  else
    last ← fetch m3 (below root);
    m4 ← modify m3 0 (on_data with_ltree);
    Ok (0%Z, YRoot (YTree m4 (count s) (Z.of_nat (count s)) (u32 (id (data last) + 1))) (Some lm')
          labcount valcount table, lm').

Definition ay_ynode_create_tree (buffer : buf) (lm : list lnode) (tpatt_size : nat) (m : list ynode)
  : res (Z * yroot * list lnode) :=
  '(m1, cnt) ← ay_ynode_create_forest_ lm m;
  m2 ← tree_correction cnt m1;
  m3 ← ay_ynode_forest_connect_topnodes m2 cnt;
  m4 ← ay_ynode_add_choice lm m3 cnt;
  ay_ynode_set_root buffer m4 cnt tpatt_size lm.
