(* ===== verification/ForestSpec.v ===== *)
(** The tree of ynodes that belongs to a tree of lnodes, and the functions of
    [Forest] on the way to it. *)
From S2P Require Import Prelude CString Common ParseRegex Preorder PreorderFacts Lnode LnodeFacts LnodeTheorems Ynode YnodeFacts Forest.

(** ** The forest of an array of lnodes *)

Definition snode_data (d : ldata) : bool := is_snode (tag (lens_of d)).

Definition label_of (b : nat) (cs : list (tree ldata)) : option (nat * ldata) :=
  first_in_forest AY_TAG_IS_LABEL (S b) cs.
Definition value_of (b : nat) (cs : list (tree ldata)) : option (nat * ldata) :=
  first_in_forest AY_TAG_IS_VALUE (S b) cs.

(** An L_SUBTREE whose label says that it is a comment. *)
Definition is_comment (b : nat) (d : ldata) (cs : list (tree ldata)) : bool :=
  bool_decide (tag (lens_of d) = L_SUBTREE)
  && ay_lense_is_comment ((λ x, lens_of x.2) <$> label_of b cs).

Definition ynode_data (b : nat) (ch : option nat) (d : ldata) (cs : list (tree ldata)) : ydata :=
  YData (if bool_decide (tag (lens_of d) = L_REC) then YN_REC else YN_UNKNOWN) (Some b)
    (fst <$> label_of b cs) (fst <$> value_of b cs) ch None 0 0 0 0 0 None.

(** The choice below a lens, given the choice of the lens. *)
Definition choice_below (b : nat) (ch : option nat) (d : ldata) : option nat :=
  if snode_data d then None
  else if bool_decide (tag (lens_of d) = L_UNION) then Some b else ch.

(** [b] is the index of the lnode and [ch] the nearest L_UNION above it. *)
Fixpoint ytrees (b : nat) (ch : option nat) (t : tree ldata) : list (tree ydata) :=
  match t with
  | T d cs =>
      let below := (fix go b' l := match l with
        | [] => []
        | t' :: l' => ytrees b' (choice_below b ch d) t' ++ go (b' + size t')%nat l'
        end) (S b) cs in
      if snode_data d then if is_comment b d cs then [] else [T (ynode_data b ch d cs) below]
      else below
  end.
Fixpoint yforest (b : nat) (ch : option nat) (ts : list (tree ldata)) : list (tree ydata) :=
  match ts with
  | [] => []
  | t :: ts' => ytrees b ch t ++ yforest (b + size t) ch ts'
  end.

Lemma ytrees_T b ch d cs :
  ytrees b ch (T d cs)
  = if snode_data d
    then if is_comment b d cs then []
         else [T (ynode_data b ch d cs) (yforest (S b) (choice_below b ch d) cs)]
    else yforest (S b) (choice_below b ch d) cs.
Proof.
  cbn [ytrees].
  destruct (snode_data d); [destruct (is_comment b d cs); [done|do 2 f_equal]|];
    generalize (choice_below b ch d), (S b); intros ch' b'; revert b';
    (induction cs as [|t cs IH]; intros b'; [done|]; cbn; by rewrite IH).
Qed.

(** Identifiers in preorder from [k] on. *)
Fixpoint number (k : Z) (t : tree ydata) : tree ydata :=
  match t with
  | T d ts =>
      T (with_id k d) ((fix go k l := match l with
        | [] => []
        | t' :: l' => number k t' :: go (k + Z.of_nat (size t'))%Z l'
        end) (k + 1)%Z ts)
  end.
Fixpoint numbers (k : Z) (ts : list (tree ydata)) : list (tree ydata) :=
  match ts with
  | [] => []
  | t :: ts' => number k t :: numbers (k + Z.of_nat (size t)) ts'
  end.

Lemma number_T k d ts : number k (T d ts) = T (with_id k d) (numbers (k + 1) ts).
Proof. done. Qed.

Lemma numbers_facts ts k :
  sizes (numbers k ts) = sizes ts ∧
  flats (numbers k ts) = imap (λ i x, (x.1, with_id (k + Z.of_nat i) x.2)) (flats ts).
Proof.
  enough (∀ n, (sizes ts < n)%nat → ∀ k, sizes (numbers k ts) = sizes ts ∧
    flats (numbers k ts) = imap (λ i x, (x.1, with_id (k + Z.of_nat i) x.2)) (flats ts)) by eauto.
  clear k. intros n. revert ts. induction n as [|n IH]; intros [|[d cs] ts] Hn k; [lia..|done|].
  cbn [sizes] in Hn. rewrite size_T in Hn. cbn [numbers sizes flats].
  destruct (IH cs ltac:(lia) (k + 1)%Z) as [Hsc Hfc].
  destruct (IH ts ltac:(lia) (k + Z.of_nat (S (sizes cs)))%Z) as [Hst Hft].
  rewrite number_T, !size_T, !flat_T, Hsc, Hfc, Hst, Hft. split; [done|].
  rewrite <- !app_comm_cons, imap_cons, imap_app. cbn [fst snd]. rewrite Z.add_0_r. f_equal.
  rewrite length_flats. f_equal; apply imap_ext; intros i x _; cbn; do 2 f_equal; lia.
Qed.

Lemma numbers_app k us vs :
  numbers k (us ++ vs) = numbers k us ++ numbers (k + Z.of_nat (sizes us)) vs.
Proof.
  revert k. induction us as [|u us IH]; intros k; cbn; [by rewrite Z.add_0_r|].
  rewrite IH. do 3 f_equal. lia.
Qed.

(** The nodes that [ay_ynode_create_forest_] writes: no links, no choice. *)
Definition bare_node (x : Z * ydata) : ynode := Node None None None x.1 (with_choice None x.2).
Definition entries (k : Z) (fs : list (tree ydata)) : list ynode := bare_node <$> flats (numbers k fs).

Lemma entries_app k us vs : entries k (us ++ vs) = entries k us ++ entries (k + Z.of_nat (sizes us)) vs.
Proof. unfold entries. by rewrite numbers_app, flats_app, fmap_app. Qed.

Lemma entries_T k d us :
  entries k [T d us]
  = Node None None None (Z.of_nat (sizes us)) (with_choice None (with_id k d)) :: entries (k + 1) us.
Proof.
  unfold entries. cbn [numbers flats]. rewrite number_T, flat_T, app_nil_r.
  by rewrite (proj1 (numbers_facts us (k + 1))).
Qed.

Lemma entries_length k fs : length (entries k fs) = sizes fs.
Proof. unfold entries. by rewrite length_fmap, length_flats, (proj1 (numbers_facts fs k)). Qed.

(** ** The loops of [ay_ynode_create_forest_] *)

Section loops.
Context (lm : list lnode).

(** The forest [ts] is the part of the array from [b] on. *)
Definition part (b : nat) (ts : list (tree ldata)) : Prop :=
  ∃ pre par nx post, lm = pre ++ encf b par nx ts ++ post ∧ length pre = b.

Lemma part_cons b d cs ts :
  part b (T d cs :: ts) → part (S b) cs ∧ part (b + S (sizes cs)) ts ∧
  ∃ n, fetch lm b = Ok n ∧ data n = d ∧ descendants n = Z.of_nat (sizes cs).
Proof.
  intros (pre & par & nx & post & Hlm & Hb). rewrite encf_cons in Hlm. set (r := Node _ _ _ _ _) in *.
  set (C := encf (S b) _ _ _) in *. set (R := encf (b + _) _ _ _) in *. split_and!.
  - exists (pre ++ [r]), (Some b), None, (R ++ post). fold C. split.
    + rewrite Hlm, <- ?app_assoc. cbn [app]. by rewrite <- ?app_assoc.
    + rewrite length_app. cbn. lia.
  - exists (pre ++ r :: C), par, nx, post. fold R. split.
    + rewrite Hlm, <- ?app_assoc. cbn [app]. by rewrite <- ?app_assoc.
    + rewrite length_app. cbn. unfold C. rewrite length_encf. lia.
  - exists r. split; [|done]. apply fetch_Some. rewrite Hlm, <- !app_comm_cons. by apply lookup_app_mid.
Qed.

Lemma part_find p b d cs ts :
  part b (T d cs :: ts) → find_in_subtree lm p b = Ok (fst <$> first_in_forest p (S b) cs).
Proof. intros (pre & par & nx & post & Hlm & Hb). rewrite Hlm. by apply find_in_forest. Qed.

(** The lnode that is found has the lens that is found. *)
Lemma first_in_lookup p ts b i d :
  part b ts → first_in_forest p b ts = Some (i, d) → ∃ n, fetch lm i = Ok n ∧ data n = d.
Proof.
  enough (∀ n, (sizes ts < n)%nat → ∀ b, part b ts → first_in_forest p b ts = Some (i, d) →
    ∃ n, fetch lm i = Ok n ∧ data n = d) by eauto.
  clear b. intros n. revert ts. induction n as [|n IH]; intros [|[e cs] ts] Hn b Hp; [lia..|done|].
  cbn [sizes] in Hn. rewrite size_T in Hn. cbn [first_in_forest]. rewrite first_in_T, size_T.
  destruct (part_cons _ _ _ _ Hp) as (Hc & Ht & nd & Hnd & Hd & _).
  assert (first_in_forest p (b + S (sizes cs)) ts = Some (i, d) →
    ∃ n, fetch lm i = Ok n ∧ data n = d) as Hrest by (apply IH; [lia|done]).
  case_bool_decide; [done|]. destruct (p _); [intros [= <- <-]; eauto|].
  destruct (first_in_forest p (S b) cs) as [x|] eqn:E; [|done].
  intros [= ->]. apply (IH cs ltac:(lia) (S b) Hc E).
Qed.

Lemma part_ignored b d cs ts n :
  part b (T d cs :: ts) → data n = d →
  ay_ynode_is_ignored lm n (fst <$> label_of b cs) = Ok (is_comment b d cs).
Proof.
  intros Hp Hd. unfold ay_ynode_is_ignored, is_comment, ltag. rewrite Hd.
  case_bool_decide; [|done]. destruct (part_cons _ _ _ _ Hp) as (Hc & _ & _).
  unfold label_of. destruct (first_in_forest _ (S b) cs) as [[i e]|] eqn:E; [|done].
  destruct (first_in_lookup _ _ _ _ _ Hc E) as (m & Hm & He). cbn. by rewrite Hm, bind_Ok, He.
Qed.

(** One step over the first tree of a forest in [count_ynodes] and in
    [create_forest_loop]. *)
Lemma yforest_cons b ch d cs ts :
  yforest b ch (T d cs :: ts) = ytrees b ch (T d cs) ++ yforest (b + S (sizes cs)) ch ts.
Proof. done. Qed.

Lemma yforest_le b ch ts : (sizes (yforest b ch ts) <= sizes ts)%nat.
Proof.
  enough (∀ n, (sizes ts < n)%nat → ∀ b ch, (sizes (yforest b ch ts) <= sizes ts)%nat) by eauto.
  clear b ch. intros n. revert ts. induction n as [|n IH]; intros [|[d cs] ts] Hn b ch; [lia..|done|].
  cbn [sizes] in *. rewrite size_T in *. rewrite yforest_cons, ytrees_T, sizes_app.
  pose proof (IH ts ltac:(lia) (b + S (sizes cs))%nat ch).
  pose proof (IH cs ltac:(lia) (S b) (choice_below b ch d)).
  destruct (snode_data d); [destruct (is_comment b d cs)|]; cbn [sizes]; rewrite ?size_T; lia.
Qed.

Lemma count_ynodes_ok ts b ch stop cnt fuel :
  part b ts → (sizes ts <= fuel)%nat → (b + sizes ts <= stop)%nat → (0 ≤ cnt)%Z →
  (cnt + Z.of_nat (sizes ts) < 2 ^ 32)%Z →
  ∃ fuel', (fuel <= fuel' + sizes ts)%nat ∧
    count_ynodes fuel lm b stop cnt
    = count_ynodes fuel' lm (b + sizes ts) stop (cnt + Z.of_nat (sizes (yforest b ch ts))).
Proof.
  enough (∀ n, (sizes ts < n)%nat → ∀ b ch cnt fuel,
    part b ts → (sizes ts <= fuel)%nat → (b + sizes ts <= stop)%nat → (0 ≤ cnt)%Z →
    (cnt + Z.of_nat (sizes ts) < 2 ^ 32)%Z →
    ∃ fuel', (fuel <= fuel' + sizes ts)%nat ∧
      count_ynodes fuel lm b stop cnt
      = count_ynodes fuel' lm (b + sizes ts) stop (cnt + Z.of_nat (sizes (yforest b ch ts)))) by eauto.
  clear b ch cnt fuel. intros n. revert ts.
  induction n as [|n IH]; intros [|[d cs] ts] Hn b ch cnt fuel Hp Hf Hs H0 Hlt; [lia..| |].
  { exists fuel. split; [lia|]. cbn. by rewrite Nat.add_0_r, Z.add_0_r. }
  destruct (part_cons _ _ _ _ Hp) as (Hc & Ht & nd & Hnd & Hd & Hdesc).
  cbn [sizes] in Hn, Hf, Hs, Hlt |- *. rewrite size_T in Hn, Hf, Hs, Hlt |- *.
  rewrite yforest_cons, ytrees_T, sizes_app.
  destruct fuel as [|fuel]; [lia|]. cbn [count_ynodes]. rewrite (proj2 (Nat.leb_gt _ _)) by lia.
  rewrite Hnd, bind_Ok. unfold ltag. rewrite Hd. fold (snode_data d).
  assert (∀ k, (0 ≤ k ≤ Z.of_nat (S (sizes cs)))%Z → ∀ fuel1, (sizes ts <= fuel1)%nat →
    ∃ fuel', (fuel1 <= fuel' + sizes ts)%nat ∧
      count_ynodes fuel1 lm (b + S (sizes cs)) stop (cnt + k)
      = count_ynodes fuel' lm (b + (S (sizes cs) + sizes ts)) stop
          (cnt + (k + Z.of_nat (sizes (yforest (b + S (sizes cs)) ch ts))))) as Hrest.
  { intros k Hk fuel1 Hf1.
    destruct (IH ts ltac:(lia) (b + S (sizes cs))%nat ch (cnt + k)%Z fuel1 Ht Hf1)
      as (fuel' & Hf' & Heq); [lia..|].
    exists fuel'. split; [done|]. rewrite Heq. f_equal; lia. }
  pose proof (yforest_le (S b) (choice_below b ch d) cs) as Hle.
  assert (∀ k, (0 ≤ k ≤ 1)%Z → ∃ fuel', (fuel <= fuel' + (sizes cs + sizes ts))%nat ∧
    count_ynodes fuel lm (S b) stop (cnt + k)
    = count_ynodes fuel' lm (b + (S (sizes cs) + sizes ts)) stop
        (cnt + (k + Z.of_nat (sizes (yforest (S b) (choice_below b ch d) cs)
          + sizes (yforest (b + S (sizes cs)) ch ts))))) as Hall.
  { intros k Hk.
    destruct (IH cs ltac:(lia) (S b) (choice_below b ch d) (cnt + k)%Z fuel Hc)
      as (fuel1 & Hf1 & Heq); [lia..|].
    destruct (Hrest (k + Z.of_nat (sizes (yforest (S b) (choice_below b ch d) cs)))%Z ltac:(lia)
      fuel1 ltac:(lia)) as (fuel' & Hf' & Heq').
    exists fuel'. split; [lia|]. rewrite Heq.
    replace (S b + sizes cs)%nat with (b + S (sizes cs))%nat by lia.
    rewrite <- Z.add_assoc, Heq'. f_equal; lia. }
  destruct (snode_data d).
  - unfold ay_ynode_find_label. rewrite (part_find _ _ _ _ _ Hp), bind_Ok. fold (label_of b cs).
    rewrite (part_ignored _ _ _ _ _ Hp Hd), bind_Ok. destruct (is_comment b d cs).
    + unfold below. rewrite Hdesc, Nat2Z.id. cbn [sizes].
      destruct (Hrest 0%Z ltac:(lia) fuel ltac:(lia)) as (fuel' & Hf' & Heq).
      exists fuel'. split; [lia|]. replace (b + sizes cs + 1)%nat with (b + S (sizes cs))%nat by lia.
      rewrite Z.add_0_r in Heq. rewrite Heq. f_equal; lia.
    + rewrite u32_small by lia. destruct (Hall 1%Z ltac:(lia)) as (fuel' & Hf' & Heq).
      exists fuel'. split; [lia|]. rewrite Heq. cbn [sizes]. rewrite size_T. f_equal; lia.
  - destruct (Hall 0%Z ltac:(lia)) as (fuel' & Hf' & Heq). rewrite Z.add_0_r in Heq.
    exists fuel'. split; [lia|]. rewrite Heq. f_equal; lia.
Qed.

Lemma count_ynodes_children b ch d cs ts :
  part b (T d cs :: ts) → (Z.of_nat (length lm) < 2 ^ 32)%Z →
  count_ynodes (length lm) lm (S b) (S b + sizes cs) 0 = Ok (Z.of_nat (sizes (yforest (S b) ch cs))).
Proof.
  intros Hp Hlt. destruct (part_cons _ _ _ _ Hp) as (Hc & _ & _).
  assert (sizes cs <= length lm)%nat as Hle.
  { destruct Hc as (pre & par & nx & post & Hlm & _). rewrite Hlm, !length_app, length_encf. lia. }
  destruct (count_ynodes_ok cs (S b) ch (S b + sizes cs) 0 (length lm) Hc Hle) as (fuel' & _ & ->);
    [lia..|].
  destruct fuel'; cbn [count_ynodes]; by rewrite Nat.leb_refl.
Qed.

Definition zeros (n : nat) : list ynode := replicate n zero_node.

Lemma create_forest_ok ts b ch stop fuel nid done rest :
  part b ts → (sizes ts <= fuel)%nat → (b + sizes ts <= stop)%nat →
  (Z.of_nat (length lm) < 2 ^ 32)%Z → (0 ≤ nid)%Z → (nid + Z.of_nat (sizes ts) < 2 ^ 32)%Z →
  let fs := yforest b ch ts in
  ∃ fuel', (fuel <= fuel' + sizes ts)%nat ∧
    create_forest_loop fuel lm b stop (length done) nid (done ++ zeros (sizes fs) ++ rest)
    = create_forest_loop fuel' lm (b + sizes ts) stop (length done + sizes fs)
        (nid + Z.of_nat (sizes fs)) (done ++ entries nid fs ++ rest).
Proof.
  intros Hp Hf Hs Hlen. revert Hp Hf Hs.
  enough (∀ n, (sizes ts < n)%nat → ∀ b ch fuel nid done rest,
    part b ts → (sizes ts <= fuel)%nat → (b + sizes ts <= stop)%nat →
    (0 ≤ nid)%Z → (nid + Z.of_nat (sizes ts) < 2 ^ 32)%Z →
    let fs := yforest b ch ts in
    ∃ fuel', (fuel <= fuel' + sizes ts)%nat ∧
      create_forest_loop fuel lm b stop (length done) nid (done ++ zeros (sizes fs) ++ rest)
      = create_forest_loop fuel' lm (b + sizes ts) stop (length done + sizes fs)
          (nid + Z.of_nat (sizes fs)) (done ++ entries nid fs ++ rest)) by eauto.
  clear b ch fuel nid done rest. intros n. revert ts.
  induction n as [|n IH]; intros [|[d cs] ts] Hn b ch fuel nid done rest Hp Hf Hs H0 Hlt fs;
    [lia..| |].
  { exists fuel. split; [lia|]. cbn. by rewrite !Nat.add_0_r, Z.add_0_r. }
  destruct (part_cons _ _ _ _ Hp) as (Hc & Ht & nd & Hnd & Hd & Hdesc).
  cbn [sizes] in Hn, Hf, Hs, Hlt |- *. rewrite size_T in Hn, Hf, Hs, Hlt |- *.
  unfold fs. clear fs. rewrite yforest_cons, ytrees_T.
  set (below_d := yforest (S b) (choice_below b ch d) cs).
  set (fts := yforest (b + S (sizes cs)) ch ts).
  pose proof (yforest_le (S b) (choice_below b ch d) cs : sizes below_d <= sizes cs)%nat as Hle.
  pose proof (yforest_le (b + S (sizes cs)) ch ts : sizes fts <= sizes ts)%nat as Hlet.
  destruct fuel as [|fuel]; [lia|]. cbn [create_forest_loop]. rewrite (proj2 (Nat.leb_gt _ _)) by lia.
  rewrite Hnd, bind_Ok. unfold ltag. rewrite Hd. fold (snode_data d).
  assert (∀ us fuel1 nid1 done1, (sizes ts <= fuel1)%nat → (0 ≤ nid1)%Z →
    (nid1 + Z.of_nat (sizes ts) < 2 ^ 32)%Z → done1 = done ++ entries nid us →
    nid1 = (nid + Z.of_nat (sizes us))%Z →
    ∃ fuel', (fuel1 <= fuel' + sizes ts)%nat ∧
      create_forest_loop fuel1 lm (b + S (sizes cs)) stop (length done1) nid1
        (done1 ++ zeros (sizes fts) ++ rest)
      = create_forest_loop fuel' lm (b + (S (sizes cs) + sizes ts)) stop
          (length done + sizes (us ++ fts)) (nid + Z.of_nat (sizes (us ++ fts)))
          (done ++ entries nid (us ++ fts) ++ rest)) as Hrest.
  { intros us fuel1 nid1 done1 Hf1 H1 Hlt1 -> ->.
    destruct (IH ts ltac:(lia) (b + S (sizes cs))%nat ch fuel1 (nid + Z.of_nat (sizes us))%Z
      (done ++ entries nid us) rest Ht Hf1 ltac:(lia) H1 Hlt1) as (fuel' & Hf' & Heq).
    exists fuel'. split; [done|]. fold fts in Heq. rewrite Heq.
    rewrite entries_app, sizes_app, length_app, entries_length, <- !app_assoc. f_equal; lia. }
  assert (∀ e nid1 done1, done1 = done ++ e → (0 ≤ nid1)%Z → (nid1 + Z.of_nat (sizes cs + sizes ts) < 2 ^ 32)%Z →
    ∃ fuel1, (fuel <= fuel1 + sizes cs)%nat ∧
      create_forest_loop fuel lm (S b) stop (length done1) nid1
        (done1 ++ zeros (sizes below_d + sizes fts) ++ rest)
      = create_forest_loop fuel1 lm (b + S (sizes cs)) stop
          (length (done ++ e ++ entries nid1 below_d)) (nid1 + Z.of_nat (sizes below_d))
          ((done ++ e ++ entries nid1 below_d) ++ zeros (sizes fts) ++ rest)) as Hbelow.
  { intros e nid1 done1 -> H1 Hlt1.
    destruct (IH cs ltac:(lia) (S b) (choice_below b ch d) fuel nid1 (done ++ e)
      (zeros (sizes fts) ++ rest) Hc ltac:(lia) ltac:(lia) H1 ltac:(lia)) as (fuel1 & Hf1 & Heq).
    fold below_d in Heq. exists fuel1. split; [done|].
    unfold zeros in *. rewrite replicate_add, <- (app_assoc (replicate _ _)), Heq.
    rewrite !length_app, entries_length, <- !app_assoc. f_equal; lia. }
  unfold ay_ynode_find_label, ay_ynode_find_value. destruct (snode_data d).
  - rewrite (part_find AY_TAG_IS_LABEL _ _ _ _ Hp), bind_Ok. fold (label_of b cs).
    rewrite (part_ignored _ _ _ _ _ Hp Hd), bind_Ok. destruct (is_comment b d cs).
    + unfold below. rewrite Hdesc, Nat2Z.id. cbn [app].
      destruct (Hrest [] fuel nid done) as (fuel' & Hf' & Heq);
        [lia..|by rewrite app_nil_r|cbn; lia|].
      exists fuel'. split; [lia|]. by replace (b + sizes cs + 1)%nat with (b + S (sizes cs))%nat by lia.
    + rewrite (part_find AY_TAG_IS_VALUE _ _ _ _ Hp), bind_Ok. fold (value_of b cs).
      unfold below. rewrite Hdesc, Nat2Z.id.
      rewrite (count_ynodes_children b (choice_below b ch d) d cs ts Hp Hlen), bind_Ok.
      fold below_d. rewrite sizes_app. cbn [sizes]. rewrite size_T, Nat.add_0_r.
      change (zeros (S (sizes below_d) + sizes fts)) with (zero_node :: zeros (sizes below_d + sizes fts)).
      rewrite <- app_comm_cons, modify_mid by done. rewrite bind_Ok, u32_small by lia.
      set (y := init_ynode _ _ _ _ _ _ _).
      destruct (Hbelow [y] (nid + 1)%Z (done ++ [y]) eq_refl ltac:(lia) ltac:(lia))
        as (fuel1 & Hf1 & Heq).
      rewrite length_app, Nat.add_1_r, <- app_assoc in Heq. cbn [app] in Heq. rewrite Heq.
      destruct (Hrest [T (ynode_data b ch d cs) below_d] fuel1
        (nid + 1 + Z.of_nat (sizes below_d))%Z (done ++ y :: entries (nid + 1) below_d))
        as (fuel' & Hf' & Heq'); [lia|lia|lia|by rewrite entries_T|cbn [sizes]; rewrite size_T; lia|].
      exists fuel'. split; [lia|]. rewrite Heq'. cbn [app sizes]. by rewrite size_T.
  - destruct (Hbelow [] nid done (eq_sym (app_nil_r _)) ltac:(lia) ltac:(lia)) as (fuel1 & Hf1 & Heq).
    rewrite sizes_app. cbn [app] in Heq. rewrite Heq.
    destruct (Hrest below_d fuel1 (nid + Z.of_nat (sizes below_d))%Z (done ++ entries nid below_d))
      as (fuel' & Hf' & Heq'); [lia|lia|lia|done|lia|].
    exists fuel'. split; [lia|]. rewrite Heq'. by rewrite sizes_app.
Qed.
End loops.
