(* ===== verification/ForestTree.v ===== *)
(** The second half of [ay_ynode_create_tree]: from the nodes in preorder to the
    linked tree under its root, and the tree that the whole function creates. *)
From S2P Require Import Prelude CString Common ParseRegex Preorder PreorderFacts Lnode LnodeFacts LnodeTheorems Ynode YnodeFacts Forest ForestSpec.

(** ** The correction of a forest *)

(** Linked trees that are not linked to each other. *)
Fixpoint tops (b : nat) (ts : list (tree ydata)) : list ynode :=
  match ts with
  | [] => []
  | t :: ts' => enc b None None t ++ tops (b + size t) ts'
  end.

Lemma tops_length b ts : length (tops b ts) = sizes ts.
Proof.
  revert b. induction ts as [|[d cs] ts IH]; intros b; [done|]. cbn [tops sizes].
  rewrite length_app, IH, enc_T, size_T. cbn [length]. by rewrite length_encf.
Qed.

Definition unlinked (n : ynode) : Prop := parent n = None ∧ next n = None.

Lemma correct_forest ts raw pre post m :
  strip <$> raw = flats ts → Forall unlinked raw →
  (Z.of_nat (length (pre ++ raw ++ post)) < 2 ^ 32)%Z →
  correct_from (sizes ts + m) (length pre) (pre ++ raw ++ post)
  = correct_from m (length pre + sizes ts) (pre ++ tops (length pre) ts ++ post).
Proof.
  revert raw pre. induction ts as [|[d cs] ts IH]; intros raw pre Hraw Hun Hlen.
  { destruct raw; [|done]. by rewrite Nat.add_0_r. }
  apply split_raw in Hraw as (x & y & z & rc & rest & -> & Hrc & Hrest).
  inversion_clear Hun as [|? ? [Hx Hy] Hun']. cbn in Hx, Hy. subst x y.
  apply Forall_app in Hun' as [_ Hun]. cbn [sizes tops]. rewrite size_T.
  rewrite <- app_comm_cons, <- app_assoc in Hlen |- *. set (r := Node None None _ _ _) in *.
  destruct (correct_from_root cs rc pre (rest ++ post) (sizes cs + (sizes ts + m)) r Hrc eq_refl Hlen)
    as (a & Ha & Heq).
  replace (S (sizes cs) + sizes ts + m)%nat with (S (sizes cs + (sizes ts + m))) by lia.
  rewrite Heq. clear Heq. set (r' := set_child _ r).
  assert (length rc = sizes cs) as Hlr by (by rewrite <- length_flats, <- Hrc, length_fmap).
  pose proof (half_length _ _ _ _ Ha) as Hla.
  rewrite (cons_middle r' pre), (app_assoc pre [r']).
  rewrite (correct_from_half cs a (length pre) (S (length pre)) (pre ++ [r']) (rest ++ post) _ Ha).
  2: rewrite length_app; cbn; lia.
  2: { revert Hlen. rewrite !length_app. cbn [length]. rewrite !length_app, Hlr, Hla. lia. }
  rewrite <- (app_assoc pre [r']). cbn [app].
  assert (r' :: encf (S (length pre)) (Some (length pre)) None cs = enc (length pre) None None (T d cs))
    as He by (by rewrite enc_T).
  rewrite app_comm_cons, He.
  assert (length (enc (length pre) None None (T d cs)) = S (sizes cs)) as Hle
    by (rewrite enc_T; cbn; by rewrite length_encf).
  rewrite (app_assoc pre). set (e := enc _ _ _ _) in *.
  replace (S (length pre) + sizes cs)%nat with (length (pre ++ e)) by (rewrite length_app; lia).
  rewrite IH; [|done|done|].
  - rewrite <- !app_assoc, length_app, Hle. by rewrite <- Nat.add_assoc.
  - revert Hlen. rewrite !length_app. cbn [length]. rewrite !length_app, Hlr. lia.
Qed.

(** ** Connecting the top-nodes *)

Lemma connect_inner seg : ∀ pre post k last,
  Forall (λ n, is_Some (parent n)) seg →
  connect_loop (length seg + k) (length pre) (pre ++ seg ++ post) last
  = connect_loop k (length pre + length seg) (pre ++ seg ++ post) last.
Proof.
  induction seg as [|n seg IH]; intros pre post k last Hs; [by rewrite Nat.add_0_r|].
  inversion_clear Hs as [|? ? [p Hp] Hs']. cbn [length Nat.add connect_loop].
  rewrite <- app_comm_cons, (fetch_Some _ _ n) by (by apply lookup_app_mid).
  rewrite bind_Ok, Hp, bool_decide_false by done.
  rewrite (cons_middle n pre), (app_assoc pre [n]).
  replace (S (length pre)) with (length (pre ++ [n])) by (rewrite length_app; cbn; lia).
  rewrite IH by done. f_equal. rewrite length_app. cbn. lia.
Qed.

Lemma encf_parents b p nx (ts : list (tree ydata)) :
  Forall (λ n, is_Some (parent n)) (encf b (Some p) nx ts).
Proof.
  enough (∀ n, (sizes ts < n)%nat → ∀ b p nx,
    Forall (λ n, is_Some (parent n)) (encf b (Some p) nx ts)) by eauto.
  clear b p nx. intros n. revert ts. induction n as [|n IH]; intros [|[d cs] ts] Hn b p nx;
    [lia..|constructor|].
  cbn [sizes] in Hn. rewrite size_T in Hn. rewrite encf_cons. constructor; [by eexists|].
  apply Forall_app. split; apply IH; lia.
Qed.

(** Until the last top-node loses its [next] again. *)
Lemma connect_tops ts : ∀ pre post k last,
  connect_loop (sizes ts + k) (length pre) (pre ++ tops (length pre) ts ++ post) last
  = connect_loop k (length pre + sizes ts)
      (pre ++ encf (length pre) None (Some (length pre + sizes ts)%nat) ts ++ post)
      (match ts with [] => last | _ => Some (length pre + sizes (removelast ts))%nat end).
Proof.
  induction ts as [|[d cs] ts IH]; intros pre post k last; [by rewrite Nat.add_0_r|].
  cbn [sizes tops]. rewrite encf_cons, enc_T, size_T. rewrite <- app_assoc, <- !app_comm_cons.
  cbn [Nat.add connect_loop]. set (r := Node None None _ _ _).
  rewrite (fetch_Some _ _ r) by (by apply lookup_app_mid).
  rewrite bind_Ok, bool_decide_true by done. rewrite modify_mid by done. rewrite bind_Ok.
  assert ((if (descendants r =? 0)%Z then S (length pre) else (length pre + below r + 1)%nat)
    = (length pre + S (sizes cs))%nat) as ->.
  { unfold below, r. cbn [descendants]. rewrite Nat2Z.id.
    destruct (Z.eqb_spec (Z.of_nat (sizes cs)) 0); lia. }
  set (r' := set_next _ r). set (C := encf _ _ None cs).
  rewrite (cons_middle r' pre), (app_assoc pre [r']).
  replace (S (length pre)) with (length (pre ++ [r'])) at 1 by (rewrite length_app; cbn; lia).
  rewrite <- Nat.add_assoc. replace (sizes cs) with (length C) at 1 by (unfold C; apply length_encf).
  rewrite connect_inner by apply encf_parents.
  rewrite (app_assoc (pre ++ [r'])).
  assert (length ((pre ++ [r']) ++ C) = length pre + S (sizes cs))%nat as Hl
    by (unfold C; rewrite !length_app, length_encf; cbn; lia).
  rewrite <- length_app. rewrite <- Hl. rewrite IH, Hl.
  replace (length pre + S (sizes cs + sizes ts))%nat with (length pre + S (sizes cs) + sizes ts)%nat by lia.
  assert (r' = Node None (after ts (length pre + S (sizes cs))
      (Some (length pre + S (sizes cs) + sizes ts)%nat))
      (first_index (S (length pre)) cs) (Z.of_nat (sizes cs)) d) as <-.
  { unfold r', r, set_next. cbn. f_equal. destruct ts; cbn; f_equal; lia. }
  f_equal; [by rewrite <- !app_assoc|].
  destruct ts as [|t ts]; f_equal; [cbn; lia|].
  change (removelast (T d cs :: t :: ts)) with (T d cs :: removelast (t :: ts)).
  cbn [sizes]. rewrite size_T. lia.
Qed.

Lemma connect_ok ts spare :
  ay_ynode_forest_connect_topnodes (tops 0 ts ++ spare) (sizes ts) = Ok (encf 0 None None ts ++ spare).
Proof.
  unfold ay_ynode_forest_connect_topnodes.
  destruct (Nat.eqb_spec (sizes ts) 0) as [Hz|Hz].
  { by rewrite (sizes_0 ts Hz). }
  pose proof (connect_tops ts [] spare 0 None) as H. rewrite Nat.add_0_r in H. cbn [app length] in H.
  rewrite H. cbn [connect_loop]. rewrite bind_Ok. cbn [Nat.add].
  destruct ts as [|t ts] using rev_ind; [done|]. clear IHts.
  rewrite removelast_last. destruct (ts ++ [t]) eqn:E; [by destruct ts|]. rewrite <- E. clear E.
  rewrite bool_decide_true by done. cbn [c_assert deref]. rewrite !bind_Ok.
  apply (set_last_next []).
Qed.

(** ** Choices *)

(** The nearest L_UNION above the hole, below the nearest L_SUBTREE or L_REC. *)
Definition choice_at (c : list (frame ldata)) : option nat :=
  default None (on_ancestors c (λ i d,
    if snode_data d then Some None
    else if bool_decide (tag (lens_of d) = L_UNION) then Some (Some i) else None)).

Lemma choice_at_cons d ls rs c :
  choice_at (Frame d ls rs :: c) = choice_below (hole c) (choice_at c) d.
Proof.
  unfold choice_at, choice_below. cbn [on_ancestors]. destruct (snode_data d); [done|].
  by case_bool_decide.
Qed.

Lemma snode_choice_ok c d cs us :
  snode_choice (encf 0 None None (plug c (T d cs :: us))) (hole c) = Ok (choice_at c).
Proof.
  unfold snode_choice. destruct (fetch_tree_array c d cs us []) as (n & Hn & Hp).
  unfold tree_array in Hn. rewrite app_nil_r in Hn. rewrite Hn, bind_Ok, Hp.
  pose proof (climb_tree_array c d cs us []
    (λ i it, if is_snode (ltag it) then Some None
       else if bool_decide (ltag it = L_UNION) then Some (Some i) else None) (λ i d,
    if snode_data d then Some None
    else if bool_decide (tag (lens_of d) = L_UNION) then Some (Some i) else None)) as H.
  unfold tree_array in H. rewrite app_nil_r in H. by rewrite H.
Qed.

Section choices.
Context (lm : list lnode).

Definition choice_ok (d : ydata) : Prop :=
  ∃ sn, snode d = Some sn ∧ snode_choice lm sn = Ok (choice d).

Lemma choices_in_context ts d ls rs c :
  lm = encf 0 None None (plug (Frame d ls rs :: c) ts) →
  let c' := Frame d ls rs :: c in
  Forall (λ x, choice_ok x.2) (flats (yforest (hole c') (choice_at c') ts)).
Proof.
  enough (∀ n, (sizes ts < n)%nat → ∀ d ls rs c,
    lm = encf 0 None None (plug (Frame d ls rs :: c) ts) →
    let c' := Frame d ls rs :: c in
    Forall (λ x, choice_ok x.2) (flats (yforest (hole c') (choice_at c') ts))) by eauto.
  clear d ls rs c. intros n. revert ts.
  induction n as [|n IH]; intros [|[e cs] ts] Hn d ls rs c Hlm c'; [lia..|constructor|].
  cbn [sizes] in Hn. rewrite size_T in Hn. rewrite yforest_cons, ytrees_T, flats_app.
  apply Forall_app. split.
  - assert (Forall (λ x, choice_ok x.2)
      (flats (yforest (S (hole c')) (choice_below (hole c') (choice_at c') e) cs))) as Hcs.
    { pose proof (IH cs ltac:(lia) e [] [] (Frame d ls (ts ++ rs) :: c)) as H. cbv zeta in H.
      rewrite choice_at_cons in H. cbn [hole sizes] in H.
      unfold c'. cbn [hole]. rewrite Nat.add_0_r in H. apply H.
      rewrite Hlm. cbn [plug app]. by rewrite app_nil_r. }
    destruct (snode_data e); [|done]. destruct (is_comment _ e cs); [constructor|].
    cbn [flats]. rewrite flat_T, app_nil_r. constructor; [|done].
    exists (hole c'). split; [done|]. cbn [snd ynode_data choice]. rewrite Hlm. apply snode_choice_ok.
  - pose proof (IH ts ltac:(lia) d (ls ++ [T e cs]) rs c) as H. cbv zeta in H.
    cbn [hole] in H. rewrite sizes_app in H. cbn [sizes] in H. rewrite size_T, Nat.add_0_r in H.
    rewrite Nat.add_assoc in H. apply H. rewrite Hlm. cbn [plug]. by rewrite <- app_assoc.
Qed.

Lemma choices_of_tree t :
  lm = enc 0 None None t → Forall (λ x, choice_ok x.2) (flats (yforest 0 None [t])).
Proof.
  intros Hlm. destruct t as [d cs]. cbn [yforest]. rewrite app_nil_r, ytrees_T.
  assert (Forall (λ x, choice_ok x.2) (flats (yforest 1 (choice_below 0 None d) cs))) as Hcs.
  { pose proof (choices_in_context cs d [] [] []) as H. cbv zeta in H.
    rewrite choice_at_cons in H. apply H. cbn [plug encf app]. rewrite !app_nil_r. done. }
  destruct (snode_data d); [|done]. destruct (is_comment _ d cs); [constructor|].
  cbn [flats]. rewrite flat_T, app_nil_r. constructor; [|done].
  exists 0. split; [done|]. cbn [snd ynode_data choice]. rewrite Hlm.
  pose proof (snode_choice_ok [] d cs []) as H. cbn [plug encf] in H. by rewrite app_nil_r in H.
Qed.

Lemma add_choice_ok L : ∀ pre post,
  Forall (λ n, choice_ok (data n)) L →
  add_choice_loop (length L) (length pre) lm (pre ++ (on_data (with_choice None) <$> L) ++ post)
  = Ok (pre ++ L ++ post).
Proof.
  induction L as [|n L IH]; intros pre post Hall; [done|].
  inversion_clear Hall as [|? ? (sn & Hsn & Hch) HL]. cbn [length add_choice_loop].
  rewrite fmap_cons, <- app_comm_cons.
  rewrite (fetch_Some _ _ (on_data (with_choice None) n)) by (by apply lookup_app_mid).
  rewrite bind_Ok. cbn [on_data set_data data with_choice snode]. rewrite Hsn. cbn [deref].
  rewrite bind_Ok, Hch, bind_Ok.
  assert (∀ m, m = n → add_choice_loop (length L) (S (length pre)) lm
    (pre ++ m :: (on_data (with_choice None) <$> L) ++ post) = Ok (pre ++ (n :: L) ++ post)) as Hrest.
  { intros m ->. rewrite (cons_middle n pre), (app_assoc pre [n]).
    replace (S (length pre)) with (length (pre ++ [n])) by (rewrite length_app; cbn; lia).
    rewrite IH by done. by rewrite <- app_assoc. }
  destruct n as [p nx ch dd [? ? ? ? [u|] ? ? ? ? ? ? ?]]; cbn [choice data].
  - rewrite modify_mid by done. rewrite bind_Ok. by apply Hrest.
  - rewrite bind_Ok. by apply Hrest.
Qed.
End choices.

(** ** The root *)

Lemma shift_encf b p nx (ts : list (tree ydata)) :
  shift_links <$> encf b p nx ts = encf (S b) (S <$> p) (S <$> nx) ts.
Proof.
  enough (∀ n, (sizes ts < n)%nat → ∀ b p nx,
    shift_links <$> encf b p nx ts = encf (S b) (S <$> p) (S <$> nx) ts) by eauto.
  clear b p nx. intros n. revert ts. induction n as [|n IH]; intros [|[d cs] ts] Hn b p nx;
    [lia..|done|].
  cbn [sizes] in Hn. rewrite size_T in Hn. rewrite !encf_cons, fmap_cons, fmap_app.
  rewrite !IH by lia. unfold shift_links at 1, relink. cbn [parent next child descendants data Nat.add].
  f_equal. by destruct ts, cs.
Qed.

Lemma shift_right_ok L x spare ar i :
  ay_ynode_shift_right (YTree (L ++ x :: spare) (length L) ar i)
  = Ok (YTree (zero_node :: (shift_links <$> L) ++ spare) (S (length L)) ar i).
Proof.
  unfold ay_ynode_shift_right, memmove. cbn [mem count].
  pose proof (mread_app 0 (length L) [] L (x :: spare) eq_refl eq_refl) as Hr. cbn [app] in Hr.
  rewrite Hr, bind_Ok. unfold mwrite.
  rewrite decide_True by (rewrite length_app; cbn; lia). rewrite bind_Ok.
  assert (drop (1 + length L) (L ++ x :: spare) = spare) as ->
    by (rewrite drop_app_ge by lia; by replace (1 + length L - length L)%nat with 1 by lia).
  assert (∃ y, take 1 (L ++ x :: spare) = [y]) as [y ->] by (destruct L; cbn; eauto).
  cbn [app]. rewrite store_Ok by (cbn; lia). rewrite bind_Ok. cbn [insert list_insert].
  rewrite Nat.add_1_r. cbn [take drop app]. rewrite take_0, ?drop_0, take_app_length, drop_app_length.
  done.
Qed.

Lemma adopt_ok spare ts : ∀ r D b fuel,
  S (length D) = b → (length ts <= fuel)%nat → (0 ≤ descendants r)%Z →
  (descendants r + Z.of_nat (sizes ts) < 2 ^ 32)%Z →
  adopt_topnodes fuel (r :: D ++ encf b None None ts ++ spare) (first_index b ts)
  = Ok (set_descendants (descendants r + Z.of_nat (sizes ts)) r
        :: D ++ encf b (Some 0) None ts ++ spare).
Proof.
  induction ts as [|[d cs] ts IH]; intros r D b fuel Hb Hf H0 Hlt.
  { destruct fuel; cbn; rewrite Z.add_0_r; by destruct r. }
  destruct fuel as [|fuel]; [cbn in Hf; lia|]. cbn [sizes] in Hlt. rewrite size_T in Hlt.
  cbn [first_index adopt_topnodes]. rewrite !encf_cons. set (n := Node None _ _ _ _).
  set (n' := Node (Some 0) _ _ _ _). set (C := encf (S b) _ _ _).
  change (r :: D ++ (n :: C ++ encf (b + S (sizes cs)) None None ts) ++ spare)
    with ((r :: D) ++ n :: (C ++ encf (b + S (sizes cs)) None None ts) ++ spare).
  rewrite (fetch_Some _ _ n) by (apply lookup_app_mid; cbn; lia). rewrite bind_Ok.
  rewrite modify_mid by (cbn; lia). rewrite bind_Ok. change (set_parent (Some 0) n) with n'.
  rewrite <- app_comm_cons. pose proof (modify_mid [] r (D ++ n' :: (C ++ encf (b + S (sizes cs)) None None ts) ++ spare) 0
    (λ r, set_descendants (u32 (descendants r + (descendants n + 1))) r) eq_refl) as Hmod.
  cbn [app] in Hmod. rewrite Hmod, bind_Ok. clear Hmod. cbn [descendants n].
  rewrite u32_small by (cbn; lia). set (r' := set_descendants _ r).
  assert (next n = first_index (b + S (sizes cs)) ts) as -> by (by destruct ts).
  assert (descendants r' = descendants r + Z.of_nat (S (sizes cs)))%Z as Hr'
    by (unfold r'; cbn; lia).
  pose proof (IH r' (D ++ n' :: C) (b + S (sizes cs))%nat fuel) as H.
  rewrite <- !app_assoc, <- !app_comm_cons in H. rewrite <- !app_assoc.
  rewrite H; [|rewrite length_app; cbn; unfold C; rewrite length_encf; lia
    |cbn in Hf; lia|lia|lia].
  replace (descendants r' + Z.of_nat (sizes ts))%Z
    with (descendants r + Z.of_nat (sizes (T d cs :: ts)))%Z.
  - by rewrite <- !app_comm_cons, <- app_assoc.
  - cbn [sizes]. rewrite size_T. lia.
Qed.

Definition bare_root : ydata := with_type YN_ROOT zero_data.
(** The root's data, with the members of [struct ay_ynode_root]. *)
Definition root_node_data (lm : list lnode) : ydata :=
  with_ltree (with_dictionaries (count_tags AY_TAG_IS_LABEL lm) (count_tags AY_TAG_IS_VALUE lm) lm bare_root).

(** The last node of a numbered forest. *)
Lemma last_number fs b p nx post :
  fs ≠ [] → ∃ n, (encf b p nx (numbers 1 fs) ++ post) !! (sizes fs - 1)%nat = Some n ∧
    id (data n) = Z.of_nat (sizes fs).
Proof.
  intros Hne. destruct (numbers_facts fs 1) as [Hs Hf].
  assert (0 < sizes fs)%nat as Hpos
    by (destruct fs as [|t fs]; [done|]; cbn; pose proof (size_pos t); lia).
  assert (sizes fs - 1 < length (flats fs))%nat as Hlt by (rewrite length_flats; lia).
  apply lookup_lt_is_Some in Hlt as [[k e] He].
  assert ((strip <$> encf b p nx (numbers 1 fs)) !! (sizes fs - 1)%nat
    = Some (k, with_id (Z.of_nat (sizes fs)) e)) as Hl.
  { rewrite strip_encf, Hf, list_lookup_imap, He. cbn. do 3 f_equal. lia. }
  rewrite list_lookup_fmap in Hl.
  destruct (encf b p nx (numbers 1 fs) !! (sizes fs - 1)%nat) as [n|] eqn:En; [|done].
  exists n. split; [by apply lookup_app_l_Some|]. injection Hl as _ ->. done.
Qed.

Lemma set_root_ok buffer us x spare tp lm lm' table :
  let fs := numbers 1 us in
  ay_transl_create_pattern_table buffer tp lm (length lm) = Ok (0%Z, lm', table) →
  (Z.of_nat (S (sizes us)) < 2 ^ 32)%Z →
  ay_ynode_set_root buffer (encf 0 None None fs ++ x :: spare) (sizes us) tp lm
  = Ok (0%Z, YRoot (YTree (enc 0 None None (T (root_node_data lm) fs) ++ spare) (S (sizes us))
          (Z.of_nat (S (sizes us))) (Z.of_nat (S (sizes us))))
        (Some lm') (count_tags AY_TAG_IS_LABEL lm) (count_tags AY_TAG_IS_VALUE lm) table, lm').
Proof.
  intros fs Htab Hlt. assert (sizes fs = sizes us) as Hfs by apply (numbers_facts us 1).
  unfold ay_ynode_set_root. rewrite <- Hfs, <- (length_encf 0 None None fs), shift_right_ok.
  rewrite bind_Ok. cbn [mem count]. rewrite shift_encf, length_encf. cbn [fmap option_fmap option_map].
  pose proof (modify_mid [] zero_node (encf 1 None None fs ++ spare) 0 (on_data (with_type YN_ROOT)) eq_refl)
    as Hmod. cbn [app] in Hmod. rewrite Hmod, bind_Ok. clear Hmod.
  set (r := on_data (with_type YN_ROOT) zero_node).
  assert ((if (S (sizes fs) =? 1)%nat then Ok (r :: encf 1 None None fs ++ spare)
    else m' ← modify (r :: encf 1 None None fs ++ spare) 0 (set_child (Some 1));
         adopt_topnodes (length m') m' (Some 1))
    = Ok (enc 0 None None (T bare_root fs) ++ spare)) as ->.
  { destruct fs as [|t fs'] eqn:E; [done|]. rewrite <- E in *.
    assert (0 < sizes fs)%nat by (rewrite E; cbn; pose proof (size_pos t); lia).
    rewrite (proj2 (Nat.eqb_neq _ _)) by lia.
    pose proof (modify_mid [] r (encf 1 None None fs ++ spare) 0 (set_child (Some 1)) eq_refl) as Hmod.
    cbn [app] in Hmod. rewrite Hmod, bind_Ok. clear Hmod.
    pose proof (adopt_ok spare fs (set_child (Some 1) r) [] 1
      (length (set_child (Some 1) r :: encf 1 None None fs ++ spare)) eq_refl) as Had.
    cbn [app] in Had. replace (first_index 1 fs) with (Some 1) in Had by (by rewrite E).
    rewrite Had; [|cbn; rewrite length_app, length_encf; pose proof (length_le_sizes fs); lia
      |done|cbn; lia].
    rewrite enc_T, <- app_comm_cons. unfold set_descendants, r. cbn [on_data set_data set_child
      parent next child descendants data Z.add]. by rewrite E. }
  rewrite bind_Ok, enc_T, <- app_comm_cons. rewrite (fetch_Some (_ :: _) 0 _ eq_refl), bind_Ok.
  cbn [descendants]. rewrite (proj2 (Z.eqb_eq _ _)) by lia. cbn [c_assert]. rewrite bind_Ok.
  set (rt := Node None None (first_index 1 fs) (Z.of_nat (sizes fs))).
  assert (∀ f d, modify (rt d :: encf 1 (Some 0) None fs ++ spare) 0 (on_data f)
    = Ok (rt (f d) :: encf 1 (Some 0) None fs ++ spare)) as Hmod.
  { intros f d. by apply (modify_mid [] (rt d)). }
  rewrite Hmod, bind_Ok, Htab, bind_Ok. cbn [Z.eqb negb]. unfold below. cbn [rt descendants].
  rewrite Nat2Z.id.
  assert (∃ l, fetch (rt (with_dictionaries (count_tags AY_TAG_IS_LABEL lm) (count_tags AY_TAG_IS_VALUE lm) lm bare_root)
      :: encf 1 (Some 0) None fs ++ spare) (sizes fs) = Ok l ∧ id (data l) = Z.of_nat (sizes us))
    as (l & -> & Hl).
  { destruct (decide (us = [])) as [E|E]; [unfold fs; rewrite E; by eexists|].
    assert (0 < sizes us)%nat by (destruct us as [|t us']; [done|]; cbn; pose proof (size_pos t); lia).
    destruct (last_number us 1 (Some 0) None spare E) as (l & Hl & Hid).
    exists l. split; [|done]. apply fetch_Some. rewrite Hfs. destruct (sizes us); [lia|].
    cbn [lookup list_lookup]. by rewrite Nat.sub_succ, Nat.sub_0_r in Hl. }
  rewrite bind_Ok, Hmod, bind_Ok, Hl, u32_small, enc_T, <- app_comm_cons by lia.
  unfold rt. rewrite Hfs. do 5 f_equal. lia.
Qed.

(** ** The whole function *)

(** The last lnode is never looked at by the loop of [ay_ynode_create_forest_]. *)
Lemma create_forest_stop fuel lm i stop j nid m n r :
  fetch lm stop = Ok n → is_snode (ltag n) = false →
  create_forest_loop fuel lm i (S stop) j nid m = Ok r →
  create_forest_loop fuel lm i stop j nid m = Ok r.
Proof.
  intros Hn Hs. revert i j nid m. induction fuel as [|fuel IH]; intros i j nid m; cbn [create_forest_loop].
  { destruct (Nat.leb_spec (S stop) i); [|done]. by rewrite (proj2 (Nat.leb_le _ _)) by lia. }
  destruct (Nat.leb_spec (S stop) i); [by rewrite (proj2 (Nat.leb_le _ _)) by lia|].
  destruct (Nat.leb_spec stop i).
  - replace i with stop by lia. rewrite Hn, bind_Ok, Hs.
    destruct fuel; cbn [create_forest_loop]; by rewrite Nat.leb_refl.
  - intros (a & Ha & H1)%bind_Ok_inv. rewrite Ha, bind_Ok.
    destruct (is_snode (ltag a)); [|by apply IH].
    apply bind_Ok_inv in H1 as (lab & Hlab & H1). rewrite Hlab, bind_Ok.
    apply bind_Ok_inv in H1 as (ign & Hign & H1). rewrite Hign, bind_Ok.
    destruct ign; [by apply IH|].
    apply bind_Ok_inv in H1 as (v & Hv & H1). rewrite Hv, bind_Ok.
    apply bind_Ok_inv in H1 as (d & Hd & H1). rewrite Hd, bind_Ok.
    apply bind_Ok_inv in H1 as (m' & Hm' & H1). rewrite Hm', bind_Ok. by apply IH.
Qed.

Definition snode_count (t : tree ldata) : nat :=
  length (filter (λ x, snode_data x.2 = true) (flat t)).

(** The forest needs no more nodes than there are L_SUBTREE and L_REC lenses. *)
Lemma yforest_snodes b ch ts :
  (sizes (yforest b ch ts) <= length (filter (λ x, snode_data x.2 = true) (flats ts)))%nat.
Proof.
  enough (∀ n, (sizes ts < n)%nat → ∀ b ch,
    (sizes (yforest b ch ts) <= length (filter (λ x, snode_data x.2 = true) (flats ts)))%nat) by eauto.
  clear b ch. intros n. revert ts. induction n as [|n IH]; intros [|[d cs] ts] Hn b ch;
    [lia..|done|].
  cbn [sizes flats] in *. rewrite size_T in *. rewrite yforest_cons, ytrees_T, sizes_app, flat_T.
  rewrite filter_app, filter_cons, length_app.
  pose proof (IH ts ltac:(lia) (b + S (sizes cs))%nat ch).
  pose proof (IH cs ltac:(lia) (S b) (choice_below b ch d)).
  cbn [snd]. destruct (snode_data d) eqn:E;
    [rewrite decide_True by done; destruct (is_comment b d cs)|rewrite decide_False by done];
    cbn [sizes length]; rewrite ?size_T; lia.
Qed.

(** The tree of ynodes of a tree of lnodes. *)
Definition ynode_tree_of (lt : tree ldata) : tree ydata :=
  T (root_node_data (enc 0 None None lt)) (numbers 1 (yforest 0 None [lt])).

Lemma create_forest_tree lt k :
  let lm := enc 0 None None lt in
  let us := yforest 0 None [lt] in
  (Z.of_nat (S (size lt)) < 2 ^ 32)%Z →
  (∀ x, last (flat lt) = Some x → snode_data x.2 = false) →
  ay_ynode_create_forest_ lm (zeros (sizes us + k)) = Ok (entries 1 us ++ zeros k, sizes us).
Proof.
  intros lm us Hlt Hlast. unfold ay_ynode_create_forest_.
  assert (length lm = size lt) as Hlen.
  { unfold lm. rewrite <- (length_fmap strip). destruct lt as [d cs]. rewrite enc_T. cbn.
    by rewrite length_fmap, length_encf. }
  assert (∃ r, fetch lm 0 = Ok r ∧ below r = (size lt - 1)%nat) as (r & -> & Hr).
  { unfold lm. destruct lt as [d cs]. rewrite enc_T. eexists. split; [done|].
    unfold below. cbn [descendants]. rewrite size_T. lia. }
  pose proof (size_pos lt) as Hpos. rewrite bind_Ok, Hr.
  destruct (fetch_lt lm (size lt - 1) ltac:(lia)) as (n & Hn).
  apply (create_forest_stop _ _ _ _ _ _ _ n); [done| |].
  - apply fetch_Ok in Hn. apply (Hlast (strip n)).
    assert (flat lt = strip <$> lm) as -> by (unfold lm; destruct lt as [d cs];
      by rewrite enc_T, flat_T, fmap_cons, strip_encf).
    rewrite fmap_last, last_lookup, Hlen. replace (pred (size lt)) with (size lt - 1)%nat by lia.
    by rewrite Hn.
  - replace (S (size lt - 1)) with (size lt) by lia. rewrite Hlen.
    destruct (create_forest_ok lm [lt] 0 None (size lt) (size lt) 1 [] (zeros k))
      as (fuel' & _ & Heq); [|cbn; lia..|].
    { exists [], None, None, []. cbn [encf after app]. by rewrite !app_nil_r. }
    fold us in Heq. cbn [app length sizes] in Heq. rewrite Nat.add_0_r in Heq. cbn [Nat.add] in Heq.
    replace (zeros (sizes us + k)) with (zeros (sizes us) ++ zeros k)
      by (unfold zeros; by rewrite replicate_add).
    rewrite Heq. destruct fuel'; cbn [create_forest_loop]; by rewrite Nat.leb_refl.
Qed.

Lemma create_tree_spec buffer lt tp k lm' table :
  let lm := enc 0 None None lt in
  (Z.of_nat (S (size lt)) < 2 ^ 32)%Z →
  (∀ x, last (flat lt) = Some x → snode_data x.2 = false) →
  (snode_count lt < k)%nat → (Z.of_nat k < 2 ^ 32)%Z →
  ay_transl_create_pattern_table buffer tp lm (length lm) = Ok (0%Z, lm', table) →
  let t := ynode_tree_of lt in
  ∃ spare,
    ay_ynode_create_tree buffer lm tp (zeros k)
    = Ok (0%Z, YRoot (YTree (enc 0 None None t ++ spare) (size t) (Z.of_nat (size t)) (Z.of_nat (size t)))
          (Some lm') (count_tags AY_TAG_IS_LABEL lm) (count_tags AY_TAG_IS_VALUE lm) table, lm').
Proof.
  intros lm Hlt Hlast Hk Hk32 Htab t. unfold ay_ynode_create_tree.
  set (us := yforest 0 None [lt]). set (fs := numbers 1 us).
  assert (sizes us <= snode_count lt)%nat as Hus.
  { unfold us, snode_count. pose proof (yforest_snodes 0 None [lt]) as H. cbn [flats] in H.
    by rewrite app_nil_r in H. }
  pose proof (yforest_le 0 None [lt]) as Hle. fold us in Hle. cbn [sizes] in Hle.
  assert (sizes fs = sizes us) as Hfs by apply (numbers_facts us 1).
  replace k with (sizes us + S (k - sizes us - 1))%nat by lia.
  pose proof (create_forest_tree lt (S (k - sizes us - 1)) Hlt Hlast) as Hforest.
  cbv zeta in Hforest. fold us lm in Hforest. rewrite Hforest, bind_Ok. clear Hforest.
  set (sp := zeros (S _)). set (ts0 := map (tmap (with_choice None)) fs).
  assert (strip <$> entries 1 us = flats ts0) as Hraw.
  { unfold ts0, entries. rewrite flats_tmap, <- list_fmap_compose. done. }
  assert (sizes ts0 = sizes us) as Hts0 by (unfold ts0; by rewrite sizes_tmap).
  assert (Forall unlinked (entries 1 us)) as Hun.
  { unfold entries. apply Forall_fmap, Forall_true. done. }
  pose proof (correct_forest ts0 (entries 1 us) [] sp 0 Hraw Hun) as Hcor.
  cbn [app length] in Hcor. rewrite Nat.add_0_r, Hts0 in Hcor.
  unfold tree_correction. rewrite Hcor.
  2: { rewrite length_app, entries_length. unfold sp, zeros. rewrite length_replicate. lia. }
  cbn [correct_from]. rewrite bind_Ok, <- Hts0, connect_ok, bind_Ok.
  assert (encf 0 None None ts0 = on_data (with_choice None) <$> encf 0 None None fs) as ->.
  { unfold ts0. by rewrite encf_tmap. }
  rewrite Hts0. set (L := encf 0 None None fs).
  assert (Forall (λ n, choice_ok lm (data n)) L) as Hch.
  { enough (Forall (λ x, choice_ok lm x.2) (strip <$> L)) as H
      by (rewrite Forall_fmap in H; exact H).
    unfold L. rewrite strip_encf.
    destruct (numbers_facts us 1) as [_ Hf]. unfold fs. rewrite Hf.
    pose proof (choices_of_tree lm lt eq_refl) as Hall. fold us in Hall.
    apply Forall_lookup. intros i x. rewrite list_lookup_imap.
    destruct (flats us !! i) as [y|] eqn:Hy; [|done]. cbn. intros [= <-].
    destruct (Forall_lookup_1 _ _ _ _ Hall Hy) as (sn & Hsn & Hok). by exists sn. }
  pose proof (add_choice_ok lm L [] sp Hch) as Hadd. cbn [app length] in Hadd.
  unfold ay_ynode_add_choice.
  assert (length L = sizes us) as HL by (unfold L; rewrite length_encf; done).
  rewrite <- HL, Hadd, bind_Ok, HL. unfold L, sp.
  change (zeros (S ?n)) with (zero_node :: zeros n).
  exists (zeros (k - sizes us - 1)). unfold fs.
  rewrite (set_root_ok buffer us _ _ tp lm lm' table Htab) by lia.
  assert (size t = S (sizes us)) as -> by (unfold t, ynode_tree_of; rewrite size_T; by fold us fs; rewrite Hfs).
  done.
Qed.
