(* ===== verification/ForestTheorems.v ===== *)
(** What [ay_ynode_create_tree] creates, and the recursive lens for which it
    fails. *)
From S2P Require Import Prelude CString Common ParseRegex Preorder PreorderFacts Lnode LnodeFacts LnodeTheorems Ynode YnodeFacts Forest ForestSpec ForestTree.

(** C12: From the array of the lnodes of a lens of which the last lnode is neither an
    L_SUBTREE nor an L_REC, and for which the pattern table is created without an
    error, [ay_ynode_create_tree] builds the array of the tree whose nodes are the
    L_SUBTREE and L_REC lenses, without the comment nodes and what is below them:
    parents are the enclosing ones, the order is that of the lenses, every node has
    its label, its value and the nearest union, identifiers count from 1 in preorder
    and the counter is the next one; the root has what [struct ay_ynode_root] lays
    over the members of a node.  The memory for one node more than there are
    L_SUBTREE and L_REC lenses is enough.  When the last lnode is an L_REC, an
    assertion can fail instead ([recursion_at_the_end_fails]). *)
Theorem ynode_tree_created buffer lt tp k lm' table :
  let lm := enc 0 None None lt in
  (Z.of_nat (S (size lt)) < 2 ^ 32)%Z →
  (∀ x, last (flat lt) = Some x → snode_data x.2 = false) →
  (snode_count lt < k)%nat → (Z.of_nat k < 2 ^ 32)%Z →
  ay_transl_create_pattern_table buffer tp lm (length lm) = Ok (0%Z, lm', table) →
  let t := T (root_node_data lm) (numbers 1 (yforest 0 None [lt])) in
  ∃ r spare,
    ay_ynode_create_tree buffer lm tp (zeros k) = Ok (0%Z, r, lm') ∧
    yr_ltree r = Some lm' ∧ yr_patt_table r = table ∧
    mem (yr_tree r) = enc 0 None None t ++ spare ∧ count (yr_tree r) = size t ∧
    arrsize (yr_tree r) = Z.of_nat (size t) ∧ idcnt (yr_tree r) = Z.of_nat (size t).
Proof.
  intros lm Hlt Hlast Hk Hk32 Htab t.
  destruct (create_tree_spec buffer lt tp k lm' table) as (spare & Heq); [done..|].
  eexists _, spare. split; [exact Heq|]. by split_and!.
Qed.

(** ** Examples *)

Definition lnode_of (t : lens_tag) (s : cstr) : ldata := LData (leaf_lens t s) None None 0.

(** [[ label "a" . ([ label "b" ] | [ label "#comment" ]) . del ]]. *)
Definition example_ltree : tree ldata :=
  let leaf t s := T (lnode_of t (lit s)) [] in
  let inner t ts := T (lnode_of t []) ts in
  inner L_SUBTREE [inner L_CONCAT
    [leaf L_LABEL "a";
     inner L_UNION [inner L_SUBTREE [leaf L_LABEL "b"]; inner L_SUBTREE [leaf L_LABEL "#comment"]];
     leaf L_DEL " "]].

Definition example_ytree : tree ydata :=
  T (YData YN_ROOT (Some 0) (Some 9) None None None 0 0 0 0 0 None)
    [T (YData YN_UNKNOWN (Some 0) (Some 2) None None None 0 1 0 0 0 None)
      [T (YData YN_UNKNOWN (Some 4) (Some 5) None (Some 3) None 0 2 0 0 0 None) []]].

Theorem ynode_tree_created_witness :
  ∃ r spare, ay_ynode_create_tree [] (enc 0 None None example_ltree) 0 (zeros 4)
    = Ok (0%Z, r, enc 0 None None example_ltree) ∧
    mem (yr_tree r) = enc 0 None None example_ytree ++ spare ∧ count (yr_tree r) = 3.
Proof.
  destruct (ynode_tree_created [] example_ltree 0 4 (enc 0 None None example_ltree) [])
    as (r & spare & Heq & _ & _ & Hm & Hc & _).
  - reflexivity.
  - vm_compute. by intros x [= <-].
  - vm_compute. lia.
  - reflexivity.
  - reflexivity.
  - exists r, spare. split; [exact Heq|]. split; [exact Hm|exact Hc].
Defined.

(** [let rec lns = [ label "a" . lns? ]]. *)
Definition recursive_ltree : tree ldata :=
  let inner t ts := T (lnode_of t []) ts in
  inner L_REC [inner L_SUBTREE [inner L_CONCAT
    [T (lnode_of L_LABEL (lit "a")) [];
     inner L_MAYBE [T (LData (Lens 0 L_REC [] (CPtr 0 []) false true) None None 0) []]]]].

(** The loop of [ay_ynode_create_forest_] stops before the last lnode
    although the numbers of descendants include it.  For a recursive lens that
    ends with itself, such as [let rec lns = [ label "a" . lns? ]], the last
    lnode is an L_REC, no node is created for it, and the assertion on the
    number of nodes in [ay_ynode_set_root] fails. *)
Theorem recursion_at_the_end_fails :
  ay_ynode_create_tree [] (enc 0 None None recursive_ltree) 0 (zeros 4) = Fault AssertFailed.
Proof. vm_compute. reflexivity. Qed.
