(* ===== verification/YnodeQuery.v ===== *)
(** The functions of [src/augyang.c] that look at ynodes without changing them:
    comparisons of subtrees, the validity of 'when' paths, and the rules that
    decide the types of nodes and how many nodes a transformation inserts.
    [lm] is the array of lnodes and [m] the array of ynodes. *)
From S2P Require Import Prelude CString Common ParseRegex Preorder Lnode Ynode Forest.

(** ** Flags *)

Definition AY_CHOICE_MAND_FALSE : Z := 0x004.
Definition AY_YNODE_FLAGS_CMP_MASK : Z := 0xFF.

(** ** Loops over siblings and over the tree *)

(** [for (iter = first; iter; iter = iter->next)]: the first result of [body]. *)
Fixpoint over_siblings {A} (fuel : nat) (m : list ynode) (iter : option nat)
    (body : nat → ynode → res (option A)) : res (option A) :=
  match iter with
  | None => Ok None
  | Some i =>
      match fuel with
      | 0 => Fault OutOfFuel
      | S fuel' =>
          n ← fetch m i;
          r ← body i n;
          match r with
          | Some a => Ok (Some a)
          | None => over_siblings fuel' m (next n) body
          end
      end
  end.

(** The sum of [f] over [n] elements from [i] on, in 32 or 64 bits. *)
Fixpoint sum_nodes (wrap : Z → Z) (n i : nat) (f : nat → res Z) (sum : Z) : res Z :=
  match n with
  | 0 => Ok sum
  | S n' => k ← f i; sum_nodes wrap n' (S i) f (wrap (sum + k)%Z)
  end.

Definition ay_ynode_summary (cnt : nat) (rule : nat → res Z) : res Z :=
  sum_nodes u32 (cnt - 1) 1 rule 0.

(** The first element among [n] from [i] on that satisfies [p]. *)
Fixpoint find_node (m : list ynode) (n i : nat) (p : ynode → res bool) : res (option nat) :=
  match n with
  | 0 => Ok None
  | S n' =>
      nd ← fetch m i;
      b ← p nd;
      if (b : bool) then Ok (Some i) else find_node m n' (S i) p
  end.

Definition ay_ynode_copy_data (dst src : ydata) : ydata :=
  YData (type src) (snode src) (label src) (value src) (choice src) (ident dst) (ref src) (id dst)
    (flags src) (min_elems src) (when_ref src) (when_val src).

Section queries.
Context (lm : list lnode) (m : list ynode).

Definition label_lens (n : ynode) : res (option lens) := lens_at lm (label (data n)).
Definition value_lens (n : ynode) : res (option lens) := lens_at lm (value (data n)).
Definition snode_lens (n : ynode) : res (option lens) := lens_at lm (snode (data n)).

Definition tag_is (l : option lens) (t : lens_tag) : bool :=
  match l with Some l => bool_decide (tag l = t) | None => false end.

(** [node->label->flags & mask]. *)
Definition label_flag (n : ynode) (mask : Z) : res bool :=
  match label (data n) with
  | None => Ok false
  | Some i => l ← fetch lm i; Ok (lflag (data l) mask)
  end.

Definition AY_LABEL_LENS_NOCASE (n : ynode) : res bool :=
  l ← label_lens n;
  Ok (match l with Some l => bool_decide (tag l = L_KEY) && nocase l | None => false end).

Definition AY_LABEL_LENS_IS_IDENT (n : ynode) : res bool :=
  l ← label_lens n;
  f ← label_flag n AY_LNODE_KEY_NOREGEX;
  nc ← AY_LABEL_LENS_NOCASE n;
  Ok (tag_is l L_LABEL || (f && negb nc)).

Definition AY_YNODE_IS_SEQ_LIST (n : ynode) : res bool :=
  if bool_decide (type (data n) = YN_LIST) then l ← label_lens n; Ok (tag_is l L_SEQ) else Ok false.

Definition AY_YNODE_IS_IMPLICIT_LIST (n : ynode) : res bool :=
  if bool_decide (type (data n) = YN_LIST) && bool_decide (is_Some (label (data n)))
     && bool_decide (label (data n) = snode (data n))
  then l ← label_lens n; Ok (tag_is l L_STAR)
  else Ok false.

(** ** Searching *)

Definition ay_ynode_subtree_contains_type (subtree : nat) (ty : yang_type) : res (option nat) :=
  n ← fetch m subtree;
  find_node m (below n) (S subtree) (λ nd, Ok (bool_decide (type (data nd) = ty))).

Definition ay_ynode_parent_has_child (par : nat) (ty : yang_type) : res (option nat) :=
  n ← fetch m par;
  over_siblings (length m) m (child n)
    (λ i nd, Ok (if bool_decide (type (data nd) = ty) then Some i else None)).

(** The outermost L_UNION below [stop]. *)
Fixpoint last_union (fuel : nat) (iter stop : option nat) (ch : option nat) : res (option nat) :=
  match iter with
  | None => Ok ch
  | Some i =>
      if bool_decide (iter = stop) then Ok ch
      else
        match fuel with
        | 0 => Fault OutOfFuel
        | S fuel' =>
            n ← fetch lm i;
            last_union fuel' (parent n) stop (if bool_decide (ltag n = L_UNION) then Some i else ch)
        end
  end.

(** The new value of [choice]. *)
Definition ay_ynode_reset_choice (d : ydata) (stop : option nat) : res ydata :=
  match snode d, choice d with
  | Some _, Some _ => ch ← last_union (length lm) (snode d) stop None; Ok (with_choice ch d)
  | _, _ => Ok d
  end.

Definition ay_ynode_nodes_in_choice (ns : nat) : res bool :=
  first ← fetch m ns;
  r ← over_siblings (length m) m (Some ns) (λ _ nd,
        Ok (if bool_decide (choice (data nd) = None) || bool_decide (choice (data first) ≠ choice (data nd))
            then Some tt else None));
  Ok (bool_decide (r = None)).

Definition ay_ynode_common_concat (node1 node2 : nat) (stop : option nat) : res (option nat) :=
  n1 ← fetch m node1;
  n2 ← fetch m node2;
  con1 ← ay_lnode_get_last_concat lm (snode (data n1)) stop;
  con2 ← ay_lnode_get_last_concat lm (snode (data n2)) stop;
  Ok (if bool_decide (con1 = con2) then con1 else None).

Definition is_recursive (n : ynode) : res bool :=
  if bool_decide (type (data n) = YN_LEAFREF) then Ok true
  else l ← snode_lens n;
       Ok (match l with Some l => bool_decide (tag l = L_REC) && rec_internal l | None => false end).

(** The loop over the [n] elements from [i] on. *)
Fixpoint count_rec (n i : nat) (only_one : bool) (ret : Z) : res Z :=
  match n with
  | 0 => Ok ret
  | S n' =>
      nd ← fetch m i;
      r ← is_recursive nd;
      if (r : bool) then if only_one then Ok (ret + 1)%Z else count_rec n' (S i) only_one (ret + 1)%Z
      else count_rec n' (S i) only_one ret
  end.

Definition ay_ynode_subtree_contains_rec (subtree : option nat) (only_one : bool) : res Z :=
  match subtree with
  | None => Ok 0%Z
  | Some s => n ← fetch m s; count_rec (below n) (S s) only_one 0
  end.

(** Whether 'when' of a node refers to one of its ancestors below [stop] or to
    a child of one of them. *)
Fixpoint when_found (fuel : nat) (iter stop : option nat) (wr : Z) : res bool :=
  if bool_decide (iter = stop) then Ok false
  else
    i ← deref iter;
    match fuel with
    | 0 => Fault OutOfFuel
    | S fuel' =>
        n ← fetch m i;
        if (id (data n) =? wr)%Z then Ok true
        else
          s ← over_siblings (length m) m (child n)
                (λ _ sb, Ok (if (id (data sb) =? wr)%Z then Some tt else None));
          match s with
          | Some _ => Ok true
          | None => when_found fuel' (parent n) stop wr
          end
    end.

(** The loop with the flags [when_present] and [target_present]. *)
Fixpoint when_paths_loop (n i : nat) (stop : option nat) (when_present target_present : bool)
  : res bool :=
  match n with
  | 0 => Ok (negb (negb when_present && target_present))
  | S n' =>
      nd ← fetch m i;
      let target := target_present || has_flag (data nd) AY_WHEN_TARGET in
      if (when_ref (data nd) =? 0)%Z then when_paths_loop n' (S i) stop when_present target
      else
        f ← when_found (length m) (parent nd) stop (when_ref (data nd));
        if (f : bool) then when_paths_loop n' (S i) stop true target else Ok false
  end.

Definition ay_ynode_when_paths_are_valid (subtree : nat) (path_to_root : bool) : res bool :=
  n ← fetch m subtree;
  when_paths_loop (below n) (S subtree) (if path_to_root then parent n else Some subtree)
    false (has_flag (data n) AY_WHEN_TARGET).

(** ** Comparing *)

(** [!n1->x && n2->x], [n1->x && !n2->x], [n1->x && !equal(..)] all false. *)
Definition lnodes_equal (i j : option nat) : res bool :=
  match i, j with
  | None, None => Ok true
  | Some _, Some _ => l1 ← lens_at lm i; l2 ← lens_at lm j; Ok (ay_lnode_lense_equal l1 l2)
  | _, _ => Ok false
  end.

Definition alone (i : nat) (n : ynode) : res bool :=
  if bool_decide (next n = None) then
    p ← deref (parent n);
    pn ← fetch m p;
    Ok (bool_decide (child pn = Some i))
  else Ok false.

Definition same_presence (i j : option nat) : bool :=
  bool_decide (is_Some i ↔ is_Some j).

Definition ay_ynode_equal (i1 i2 : nat) (ignore_choice ignore_when : bool) : res bool :=
  n1 ← fetch m i1;
  n2 ← fetch m i2;
  let d1 := data n1 in
  let d2 := data n2 in
  _ ← c_assert (bool_decide (type d1 ≠ YN_ROOT) && bool_decide (type d2 ≠ YN_ROOT));
  alone1 ← alone i1 n1;
  alone2 ← alone i2 n2;
  labels ← lnodes_equal (label d1) (label d2);
  values ← lnodes_equal (value d1) (value d2);
  let cmp_mask := if ignore_choice
    then Z.land AY_YNODE_FLAGS_CMP_MASK (Z.lnot AY_CHOICE_MAND_FALSE)
    else AY_YNODE_FLAGS_CMP_MASK in
  Ok ((descendants n1 =? descendants n2)%Z && bool_decide (type d1 = type d2)
      && labels && values && same_presence (snode d1) (snode d2)
      && (ignore_choice || alone1 || alone2 || same_presence (choice d1) (choice d2))
      && (bool_decide (type d1 = YN_LEAFREF) || (ref d1 =? ref d2)%Z)
      && (Z.land (flags d1) cmp_mask =? Z.land (flags d2) cmp_mask)%Z
      && (bool_decide (type d1 ≠ YN_LIST) || (min_elems d1 =? min_elems d2)%Z)
      && (ignore_when || (when_ref d1 =? when_ref d2)%Z)).

(** The loop over [n] pairs of nodes. *)
Fixpoint equal_range (n i1 i2 : nat) (ignore_when : bool) : res bool :=
  match n with
  | 0 => Ok true
  | S n' =>
      b ← ay_ynode_equal i1 i2 false ignore_when;
      if (b : bool) then equal_range n' (S i1) (S i2) ignore_when else Ok false
  end.

Definition ay_ynode_subtree_equal (tree1 tree2 : nat) (compare_roots ignore_when : bool) : res bool :=
  if (tree1 =? tree2)%nat then Ok true
  else if compare_roots then
    b ← ay_ynode_equal tree1 tree2 true ignore_when;
    if (b : bool) then
      n1 ← fetch m tree1;
      n2 ← fetch m tree2;
      if negb (descendants n1 =? descendants n2)%Z then Ok false
      else equal_range (below n1) (S tree1) (S tree2) ignore_when
    else Ok false
  else
    cnt ← ay_ynode_inner_nodes_descendants m tree1;
    if (cnt =? 0)%Z then Ok false
    else
      cnt2 ← ay_ynode_inner_nodes_descendants m tree2;
      if negb (cnt =? cnt2)%Z then Ok false
      else
        inner1 ← ay_ynode_inner_nodes m tree1;
        inner2 ← ay_ynode_inner_nodes m tree2;
        i1 ← deref inner1;
        i2 ← deref inner2;
        equal_range (Z.to_nat cnt) i1 i2 ignore_when.

Definition ay_ynode_subtree_contains_lnode (subtree : nat) (ln : option nat) : res bool :=
  match ln with
  | None => Ok false
  | Some _ =>
      l ← lens_at lm ln;
      n ← fetch m subtree;
      r ← find_node m (S (below n)) subtree (λ nd,
            ls ← snode_lens nd;
            ll ← label_lens nd;
            lv ← value_lens nd;
            Ok (ay_lnode_lense_equal ls l || ay_lnode_lense_equal ll l || ay_lnode_lense_equal lv l));
      Ok (bool_decide (is_Some r))
  end.

Definition ay_ynode_choice_contains_lnode (chnode : option nat) (ch ln : option nat) : res bool :=
  r ← over_siblings (length m) m chnode (λ i nd,
        b ← ay_ynode_subtree_contains_lnode i ln;
        if (b : bool) then Ok (Some true)
        else Ok (if bool_decide (choice (data nd) ≠ ch) then Some false else None));
  Ok (default false r).

Definition ay_lense_pattern_idents_count (patt_table : list ay_transl) (l : lens) : nat :=
  match ay_lense_pattern_has_idents (Some patt_table) (Some l) with
  | Some (Some t) => length (substr t)
  | _ => if bool_decide (tag l = L_KEY) then 1 else 0
  end.
End queries.
