(* ===== verification/YnodeRules.v ===== *)
(** The rules of [src/augyang.c]: which type a node has, and an upper bound for
    the number of nodes that each transformation inserts. *)
From S2P Require Import Prelude CString Common ParseRegex Preorder Lnode Ynode Forest YnodeQuery.

Section rules.
Context (lm : list lnode) (m : list ynode).

(** ** Repetition *)

(** The nearest node with an snode, [iter] included; none below the root. *)
Fixpoint up_to_snode (fuel : nat) (iter : nat) : res (option nat) :=
  n ← fetch m iter;
  if bool_decide (type (data n) = YN_ROOT) then Ok None
  else
    match snode (data n) with
    | Some sn => Ok (Some sn)
    | None =>
        match fuel with
        | 0 => Fault OutOfFuel
        | S fuel' => p ← deref (parent n); up_to_snode fuel' p
        end
    end.

(** The first L_STAR from [iter] up to [stop], other than [skip]. *)
Fixpoint star_between (fuel : nat) (iter stop skip : option nat) : res (option nat) :=
  if bool_decide (iter = stop) then Ok None
  else
    i ← deref iter;
    match fuel with
    | 0 => Fault OutOfFuel
    | S fuel' =>
        l ← fetch lm i;
        if bool_decide (ltag l = L_STAR) && bool_decide (skip ≠ Some i) then Ok (Some i)
        else star_between fuel' (parent l) stop skip
    end.

Definition ay_ynode_get_repetition (nd : nat) : res (option nat) :=
  start ← up_to_snode (length m) nd;
  match start with
  | None => Ok None
  | Some lstart =>
      n ← fetch m nd;
      p ← deref (parent n);
      lstop ← up_to_snode (length m) p;
      pn ← fetch m p;
      impl_list ← AY_YNODE_IS_IMPLICIT_LIST lm pn;
      star_between (length lm) (Some lstart) lstop (if (impl_list : bool) then label (data pn) else None)
  end.

(** ** Types *)

(** [AY_YNODE_IS_IMPLICIT_LIST(node->parent) && (node->label == star)]. *)
Definition stars_implicit_list (n : ynode) (star : option nat) : res bool :=
  p ← deref (parent n);
  pn ← fetch m p;
  b ← AY_YNODE_IS_IMPLICIT_LIST lm pn;
  Ok (b && bool_decide (label (data n) = star)).

Definition has_key_value (n : ynode) : res bool :=
  l ← label_lens lm n;
  Ok ((tag_is l L_KEY || tag_is l L_SEQ) && bool_decide (is_Some (value (data n)))).

Definition ay_ynode_rule_list (nd : nat) : res bool :=
  n ← fetch m nd;
  star ← ay_ynode_get_repetition nd;
  impl_list ← stars_implicit_list n star;
  has_value ← has_key_value n;
  has_idents ← label_flag lm n AY_LNODE_KEY_NOREGEX;
  Ok ((bool_decide (is_Some (child n)) || has_value || has_idents)
      && bool_decide (is_Some (label (data n))) && bool_decide (is_Some star) && negb impl_list).

Definition ay_ynode_rule_container (nd : nat) : res bool :=
  n ← fetch m nd;
  has_value ← has_key_value n;
  star ← ay_ynode_get_repetition nd;
  Ok ((bool_decide (is_Some (child n)) || has_value)
      && bool_decide (is_Some (label (data n))) && bool_decide (star = None)).

Definition ay_ynode_rule_leaflist (nd : nat) : res bool :=
  n ← fetch m nd;
  star ← ay_ynode_get_repetition nd;
  impl_list ← stars_implicit_list n star;
  Ok (bool_decide (child n = None) && bool_decide (is_Some (label (data n)))
      && bool_decide (is_Some star) && negb impl_list).

Definition ay_ynode_rule_leaf (nd : nat) : res bool :=
  n ← fetch m nd;
  Ok (bool_decide (child n = None) && bool_decide (is_Some (label (data n)))).

(** ** Numbers of inserted nodes *)

Definition ay_ynode_rule_node_key_and_value (nd : nat) : res Z :=
  n ← fetch m nd;
  l ← label_lens lm n;
  impl ← AY_YNODE_IS_IMPLICIT_LIST lm n;
  seq ← AY_YNODE_IS_SEQ_LIST lm n;
  is_ident ← AY_LABEL_LENS_IS_IDENT lm n;
  let has_value := bool_decide (is_Some (value (data n))) in
  if bool_decide (l = None) || impl || (bool_decide (type (data n) ≠ YN_CONTAINER) && negb seq)
  then Ok 0%Z
  else if (is_ident : bool) then Ok (if has_value then 1 else 0)%Z
  else if (descendants n =? 0)%Z && negb has_value then Ok 0%Z
  else
    _ ← c_assert (tag_is l L_KEY || tag_is l L_SEQ);
    Ok (if has_value then 2 else 1)%Z.

Definition ay_ynode_insert_case_prerequisite (node1 node2 : option nat) : res bool :=
  match node1, node2 with
  | Some i, Some j =>
      n1 ← fetch m i;
      n2 ← fetch m j;
      Ok (bool_decide (is_Some (choice (data n1))) && bool_decide (is_Some (snode (data n1)))
          && bool_decide (is_Some (snode (data n2)))
          && bool_decide (choice (data n1) = choice (data n2)))
  | _, _ => Ok false
  end.

(** An L_STAR below another one that belongs to the same L_SUBTREE. *)
Definition star_below_star (i : nat) : res Z :=
  n ← fetch lm i;
  if bool_decide (ltag n ≠ L_STAR) then Ok 0%Z
  else
    r ← climb (length lm) lm (parent n) (λ _ it,
          if bool_decide (ltag it = L_SUBTREE) then Some 0%Z
          else if bool_decide (ltag it = L_STAR) then Some 1%Z else None);
    Ok (default 0%Z r).

Definition ay_ynode_rule_insert_implicit_list : res Z :=
  sum_nodes u32 (length lm) 0 star_below_star 0.

(** The loop that counts from the first node of the choice to [nd]. *)
Fixpoint rank_in_choice (fuel : nat) (iter nd : nat) (cnt : Z) : res Z :=
  n ← fetch m iter;
  match next n with
  | None => Ok 0%Z
  | Some nx =>
      nn ← fetch m nx;
      if bool_decide (choice (data n) = choice (data nn)) then
        if (iter =? nd)%nat then Ok cnt
        else match fuel with
             | 0 => Fault OutOfFuel
             | S fuel' => rank_in_choice fuel' nx nd (cnt + 1)
             end
      else Ok 0%Z
  end.

Definition ay_ynode_rule_insert_case (nd : nat) : res Z :=
  n ← fetch m nd;
  match choice (data n) with
  | None => Ok 0%Z
  | Some c =>
      first ← ay_ynode_get_first_in_choice m (parent n) (Some c);
      f ← deref first;
      rank ← rank_in_choice (length m) f nd 1;
      Ok (rank mod 2)%Z
  end.

(** The nodes that are copied for [nd], which refers to a YN_CASE behind it. *)
Definition copied_case_nodes (nd : nat) : res Z :=
  n ← fetch m nd;
  if (ref (data n) =? 0)%Z then Ok 0%Z
  else
    cas ← over_siblings (length m) m (next n)
            (λ i c, Ok (if (id (data c) =? ref (data n))%Z then Some i else None));
    _ ← c_assert (bool_decide (is_Some cas));
    ci ← deref cas;
    cn ← fetch m ci;
    ch ← deref (child cn);
    chn ← fetch m ch;
    _ ← c_assert (bool_decide (is_Some (next chn)));
    rest_descendants (length m) m (next chn) 1.

Definition ay_ynode_rule_copy_case_nodes (cnt : nat) : res Z :=
  root ← fetch m 0;
  if (ref (data root) =? 0)%Z then Ok 0%Z else ay_ynode_summary cnt copied_case_nodes.

Definition ay_ynode_merge_choice_branches (br1 br2 : nat) : res bool :=
  n1 ← fetch m br1;
  n2 ← fetch m br2;
  lab1 ← label_lens lm n1;
  lab2 ← label_lens lm n2;
  Ok (negb ((bool_decide (is_Some lab1) || bool_decide (is_Some lab2))
            && negb (ay_lnode_lense_equal lab1 lab2))).

(** The first node of a branch: the first child of a YN_CASE. *)
Definition branch_head (br : nat) : res nat :=
  n ← fetch m br;
  if bool_decide (type (data n) = YN_CASE) then deref (child n) else Ok br.

Definition ay_ynode_cmp_choice_branches (br1 br2 : nat) : res bool :=
  n1 ← fetch m br1;
  n2 ← fetch m br2;
  if negb (when_ref (data n1) =? 0)%Z || negb (when_ref (data n2) =? 0)%Z then Ok false
  else
    h1 ← branch_head br1;
    h2 ← branch_head br2;
    ay_ynode_merge_choice_branches h1 h2.

(** The loop over [chn2]. *)
Fixpoint merge_matches (fuel : nat) (chn1 : nat) (c : option nat) (chn2 : option nat) (cnt : Z)
  : res Z :=
  match chn2 with
  | None => Ok cnt
  | Some j =>
      match fuel with
      | 0 => Fault OutOfFuel
      | S fuel' =>
          n2 ← fetch m j;
          if bool_decide (choice (data n2) ≠ c) then Ok cnt
          else
            b ← ay_ynode_cmp_choice_branches chn1 j;
            merge_matches fuel' chn1 c (next n2) (if (b : bool) then u64 (cnt + 1) else cnt)
      end
  end.

Definition ay_ynode_rule_merge_cases (cnt : nat) : res Z :=
  total ← sum_nodes u64 (cnt - 1) 1 (λ i,
    n ← fetch m i;
    match choice (data n) with
    | None => Ok 0%Z
    | Some c => merge_matches (length m) i (Some c) (next n) 0
    end) 0;
  Ok (u64 (total * 4)).

(** The ancestor of [leafref] that is a child of a YN_REC. *)
Fixpoint leafref_branch_from (fuel : nat) (iter : option nat) : res (option nat) :=
  match iter with
  | None => Ok None
  | Some i =>
      n ← fetch m i;
      p ← deref (parent n);
      pn ← fetch m p;
      if bool_decide (type (data pn) = YN_REC) then Ok (Some i)
      else match fuel with
           | 0 => Fault OutOfFuel
           | S fuel' => leafref_branch_from fuel' (parent n)
           end
  end.

Definition ay_ynode_leafref_branch (leafref : nat) : res nat :=
  n ← fetch m leafref;
  it ← leafref_branch_from (length m) (parent n);
  p ← deref (parent n);
  pn ← fetch m p;
  _ ← c_assert (bool_decide (is_Some it) && bool_decide (type (data pn) = YN_LIST));
  deref it.

Definition ay_ynode_rule_node_is_splittable (patt_table : list ay_transl) (nd : nat) : res Z :=
  n ← fetch m nd;
  if bool_decide (type (data n) = YN_ROOT) then Ok 0%Z
  else
    l ← label_lens lm n;
    match l with
    | Some l =>
        let cnt := Z.of_nat (ay_lense_pattern_idents_count patt_table l) in
        if bool_decide (tag l = L_KEY) && bool_decide (type (data n) ≠ YN_KEY)
           && bool_decide (type (data n) ≠ YN_VALUE) && (1 <? cnt)%Z
        then Ok (u64 ((cnt - 1) * descendants n + 2 + (cnt - 1)))
        else Ok 0%Z
    | None => Ok 0%Z
    end.

Fixpoint ay_ynode_rule_node_split (fuel : nat) (patt_table : list ay_transl) (subtree : nat) : res Z :=
  match fuel with
  | 0 => Fault OutOfFuel
  | S fuel' =>
      n ← fetch m subtree;
      children ← siblings_from (length m) m (child n);
      children_total ← foldl (λ acc i,
        total ← acc;
        c ← fetch m i;
        k ← (match child c with
             | Some _ => ay_ynode_rule_node_split fuel' patt_table i
             | None => ay_ynode_rule_node_is_splittable patt_table i
             end);
        Ok (u64 (total + k))) (Ok 0%Z) children;
      cnt ← ay_ynode_rule_node_is_splittable patt_table subtree;
      Ok (if (cnt =? 0)%Z then children_total
          else if (children_total =? 0)%Z then cnt else u64 (children_total * cnt))
  end.

Definition ay_ynode_rule_ordered_entries : Z :=
  Z.of_nat (length (filter (λ n, ltag n = L_STAR) lm)).

Definition ay_ynode_rule_recursive_form (nd : nat) : res Z :=
  n ← fetch m nd; Ok (if bool_decide (type (data n) = YN_REC) then 1 else 0)%Z.

(** The children of [rec_ext]: recursive nodes and nodes to copy. *)
Fixpoint rec_children (fuel : nat) (iter : option nat) (rec_int_count copied : Z) : res (Z * Z) :=
  match iter with
  | None => Ok (rec_int_count, copied)
  | Some i =>
      match fuel with
      | 0 => Fault OutOfFuel
      | S fuel' =>
          n ← fetch m i;
          tmp ← ay_ynode_subtree_contains_rec lm m (Some i) false;
          if (tmp =? 0)%Z
          then rec_children fuel' (next n) rec_int_count (u64 (copied + u32 (descendants n + 1)))
          else rec_children fuel' (next n) (u64 (rec_int_count + tmp)) copied
      end
  end.

Definition recursive_form_copies (nd : nat) : res Z :=
  n ← fetch m nd;
  if bool_decide (type (data n) ≠ YN_REC) then Ok 0%Z
  else
    l ← snode_lens lm n;
    l' ← deref l;
    if rec_internal l' then Ok 0%Z
    else '(k, copied) ← rec_children (length m) (child n) 0 0; Ok (u64 (copied * (k + 1))).

Definition ay_ynode_rule_recursive_form_by_copy (cnt : nat) : res Z :=
  sum_nodes u64 (cnt - 1) 1 recursive_form_copies 0.

Definition ay_ynode_rule_create_groupings_recursive_form (cnt : nat) : res Z :=
  c ← sum_nodes u64 (cnt - 1) 1
        (λ i, n ← fetch m i; Ok (if bool_decide (type (data n) = YN_LEAFREF) then 1 else 0)%Z) 0;
  Ok (u64 (c * 3)).

Definition ay_ynode_rule_create_groupings_toplevel (nd : nat) : res Z :=
  n ← fetch m nd;
  Ok (if (id (data n) =? ref (data n))%Z then 2 else if negb (ref (data n) =? 0)%Z then 1 else 0)%Z.

(** The nodes of the choice from [iter] on, and whether one is a YN_CASE. *)
Fixpoint choice_members (fuel : nat) (iter : option nat) (c : option nat) (ret : Z) (cases : bool)
  : res (Z * bool) :=
  match iter with
  | None => Ok (ret, cases)
  | Some i =>
      match fuel with
      | 0 => Fault OutOfFuel
      | S fuel' =>
          n ← fetch m i;
          if bool_decide (choice (data n) ≠ c) then Ok (ret, cases)
          else choice_members fuel' (next n) c (u32 (ret + 1))
                 (cases || bool_decide (type (data n) = YN_CASE))
      end
  end.

Definition ay_ynode_rule_insert_container_in_choice (nd : nat) : res Z :=
  n ← fetch m nd;
  match choice (data n) with
  | None => Ok 0%Z
  | Some c =>
      first ← ay_ynode_get_first_in_choice m (parent n) (Some c);
      if bool_decide (first ≠ Some nd) then Ok 0%Z
      else
        '(ret, cases) ← choice_members (length m) first (Some c) 0 false;
        Ok (if (cases : bool) then ret else 0%Z)
  end.
End rules.
