(* ===== verification/YnodeMandatory.v ===== *)
(** The mandatory statements: [ay_ynode_tree_set_mandatory] of [src/augyang.c]
    with the functions that it calls, [ay_ynode_when_ornot], and the functions of
    [src/common.c] that find the target of a 'when' statement. *)
From S2P Require Import Prelude CString Common ParseRegex Preorder Lnode Ynode Forest YnodeQuery YnodeRules.

(** ** Flags *)

Definition AY_YNODE_MAND_TRUE : Z := 0x001.
Definition AY_YNODE_MAND_FALSE : Z := 0x002.
Definition AY_YNODE_MAND_MASK : Z := 0x003.
Definition AY_VALUE_MAND_FALSE : Z := 0x010.
Definition AY_WHEN_ORNOT : Z := 0x080.
Definition AY_HINT_MAND_TRUE : Z := 0x200.
Definition AY_CHOICE_CREATED : Z := 0x800.

(** [flags |= mask] and [flags &= ~mask]. *)
Definition add_flag (mask : Z) (d : ydata) : ydata := with_flags (Z.lor (flags d) mask) d.
Definition clear_flag (mask : Z) (d : ydata) : ydata := with_flags (Z.ldiff (flags d) mask) d.
Definition with_min_elems (x : Z) (d : ydata) : ydata :=
  YData (type d) (snode d) (label d) (value d) (choice d) (ident d) (ref d) (id d) (flags d)
    x (when_ref d) (when_val d).

Definition on_node (s : ytree) (i : nat) (f : ydata → ydata) : res ytree := modify_node s i (on_data f).

(** ** Branches without nodes *)

Section mandatory.
Context (lm : list lnode).

(** [for (i = 1; i <= snode->descendants; i++)]. *)
Definition ay_lnode_get_snode_label (sn : nat) : res (option nat) :=
  find_in_subtree lm (λ t, AY_TAG_IS_LABEL t || AY_TAG_IS_VALUE t) sn.

(** Whether the first L_SUBTREE or L_UNION from [iter] upwards is an L_UNION. *)
Definition value_under_union (sn : nat) : res bool :=
  r ← climb (length lm) lm (Some sn) (λ _ it,
        if bool_decide (ltag it = L_SUBTREE) then Some false
        else if bool_decide (ltag it = L_UNION) then Some true else None);
  Ok (default false r).

(** Whether one of the [n] lnodes from [i] on shows that the branch is used. *)
Fixpoint branch_is_used (m : list ynode) (chnode : option nat) (c : option nat) (n i : nat)
  : res bool :=
  match n with
  | 0 => Ok false
  | S n' =>
      sn ← fetch lm i;
      if AY_TAG_IS_VALUE (ltag sn) then
        u ← value_under_union i;
        if (u : bool) then Ok true else branch_is_used m chnode c n' (S i)
      else if bool_decide (ltag sn ≠ L_SUBTREE) then branch_is_used m chnode c n' (S i)
      else
        lab ← ay_lnode_get_snode_label i;
        match lab with
        | None => branch_is_used m chnode c n' (S i)
        | Some l =>
            ln ← lens_at lm (Some l);
            if ay_lense_is_comment ln then Ok true
            else
              b ← ay_ynode_choice_contains_lnode lm m chnode c (Some l);
              if (b : bool) then Ok true else branch_is_used m chnode c n' (S i)
        end
  end.

(** The loop over the branches from [branch] on. *)
Fixpoint some_branch_unused (fuel : nat) (m : list ynode) (chnode c branch : option nat) : res bool :=
  match branch with
  | None => Ok false
  | Some b =>
      match fuel with
      | 0 => Fault OutOfFuel
      | S fuel' =>
          bn ← fetch lm b;
          used ← branch_is_used m chnode c (S (below bn)) b;
          if (used : bool) then some_branch_unused fuel' m chnode c (next bn) else Ok true
      end
  end.

Definition ay_ynode_mandatory_empty_branch_d2_deleted_node (m : list ynode) (chnode : option nat)
    (c : nat) : res bool :=
  cn ← fetch lm c;
  some_branch_unused (length lm) m chnode (Some c) (child cn).

Definition is_first_in_choice (m : list ynode) (i : nat) (n : ynode) : res bool :=
  first ← ay_ynode_get_first_in_choice m (parent n) (choice (data n));
  Ok (bool_decide (first = Some i)).

(** The body of [LY_ARRAY_FOR] for [n] nodes from [i] on. *)
Fixpoint for_tree (body : ytree → nat → res ytree) (n i : nat) (s : ytree) : res ytree :=
  match n with
  | 0 => Ok s
  | S n' => s' ← body s i; for_tree body n' (S i) s'
  end.

Definition mandatory_empty_branch_node (s : ytree) (i : nat) : res ytree :=
  n ← fetch (mem s) i;
  match choice (data n) with
  | None => Ok s
  | Some c =>
      if has_flag (data n) (Z.lor AY_CHOICE_CREATED AY_CHOICE_MAND_FALSE) then Ok s
      else
        first ← is_first_in_choice (mem s) i n;
        if negb first then Ok s
        else
          b ← ay_ynode_mandatory_empty_branch_d2_deleted_node (mem s) (Some i) c;
          if (b : bool) then on_node s i (add_flag AY_CHOICE_MAND_FALSE) else Ok s
  end.

Definition ay_ynode_mandatory_empty_branch (s : ytree) : res ytree :=
  for_tree mandatory_empty_branch_node (count s - 1) 1 s.

(** ** Lists *)

(** The node behind the siblings from [iter] on that are in the choice [c]. *)
Fixpoint behind_choice (fuel : nat) (m : list ynode) (iter : option nat) (c : option nat)
  : res (option nat) :=
  match iter with
  | None => Ok None
  | Some i =>
      match fuel with
      | 0 => Fault OutOfFuel
      | S fuel' =>
          n ← fetch m i;
          if bool_decide (choice (data n) = c) then behind_choice fuel' m (next n) c else Ok (Some i)
      end
  end.

Fixpoint children_mandfalse_loop (fuel : nat) (m : list ynode) (ch : option nat) : res bool :=
  match ch with
  | None => Ok true
  | Some i =>
      match fuel with
      | 0 => Fault OutOfFuel
      | S fuel' =>
          n ← fetch m i;
          alone ← ay_ynode_alone_in_choice m i;
          if bool_decide (is_Some (choice (data n))) && has_flag (data n) AY_CHOICE_MAND_FALSE
             && negb alone
          then
            it ← behind_choice (length m) m (Some i) (choice (data n));
            match it with
            | None => Ok true
            | Some j => nj ← fetch m j; children_mandfalse_loop fuel' m (next nj)
            end
          else Ok false
      end
  end.

Definition ay_ynode_mandatory_in_list_children_mandfalse (m : list ynode) (lst : nat) : res bool :=
  n ← fetch m lst; children_mandfalse_loop (length m) m (child n).

(** [start] in [ay_ynode_mandatory_in_list_upper_choice_mandfalse]. *)
Definition upper_choice_start (m : list ynode) (n : ynode) : res (option nat) :=
  sl ← snode_lens lm n;
  if tag_is sl L_SUBTREE then Ok (snode (data n))
  else
    match child n with
    | None => Ok None
    | Some c =>
        cn ← fetch m c;
        Ok (match label (data cn) with Some l => Some l | None => snode (data cn) end)
    end.

(** The first lnode from [iter] on that is an L_SUBTREE or an L_STAR. *)
Definition subtree_or_star (iter : option nat) : res (option nat) :=
  climb (length lm) lm iter (λ i it,
    if bool_decide (ltag it = L_SUBTREE) || bool_decide (ltag it = L_STAR) then Some i else None).

Fixpoint upper_choices (fuel : nat) (m : list ynode) (chnode ch stop : option nat) : res bool :=
  if bool_decide (ch = stop) then Ok false
  else
    c ← deref ch;
    match fuel with
    | 0 => Fault OutOfFuel
    | S fuel' =>
        cn ← fetch lm c;
        if bool_decide (ltag cn ≠ L_UNION) then upper_choices fuel' m chnode (parent cn) stop
        else
          b ← ay_ynode_mandatory_empty_branch_d2_deleted_node m chnode c;
          if (b : bool) then Ok true else upper_choices fuel' m chnode (parent cn) stop
    end.

(** The list is not the root: its [parent] is set. *)
Definition ay_ynode_mandatory_in_list_upper_choice_mandfalse (m : list ynode) (lst : nat) : res bool :=
  n ← fetch m lst;
  match parent n with
  | None => Ok false
  | Some p =>
      start ← upper_choice_start m n;
      match start with
      | None => Ok false
      | Some st =>
          pn ← fetch m p;
          stop ← subtree_or_star (snode (data pn));
          match stop with
          | Some e => upper_choices (length lm) m (Some p) (Some st) (Some e)
          | None =>
              ll ← label_lens lm n;
              if tag_is ll L_STAR
              then upper_choices (length lm) m (Some p) (Some st) (label (data n))
              else
                l ← deref ll;
                if bool_decide (tag l = L_SEQ) then
                  star ← ay_lnode_has_attribute lm (snode (data n)) L_STAR;
                  _ ← c_assert (bool_decide (is_Some star));
                  upper_choices (length lm) m (Some p) (Some st) star
                else Ok false
          end
      end
  end.

Definition mandatory_in_list_node (s : ytree) (i : nat) : res ytree :=
  n ← fetch (mem s) i;
  if bool_decide (type (data n) ≠ YN_LIST) || has_flag (data n) AY_YNODE_MAND_FALSE
     || (min_elems (data n) =? 0)%Z
  then Ok s
  else
    b ← ay_ynode_mandatory_in_list_children_mandfalse (mem s) i;
    b' ← (if (b : bool) then Ok true
          else ay_ynode_mandatory_in_list_upper_choice_mandfalse (mem s) i);
    if (b' : bool)
    then on_node s i (λ d, add_flag AY_YNODE_MAND_FALSE
           (clear_flag AY_YNODE_MAND_MASK (with_min_elems 0 d)))
    else Ok s.

Definition ay_ynode_mandatory_in_list (s : ytree) : res ytree :=
  for_tree mandatory_in_list_node (count s - 1) 1 s.

(** The last node of the choice of the first node. *)
Fixpoint last_in_choice_from (fuel : nat) (m : list ynode) (iter : option nat) (c : option nat)
    (last : nat) : res nat :=
  match iter with
  | None => Ok last
  | Some i =>
      match fuel with
      | 0 => Fault OutOfFuel
      | S fuel' =>
          n ← fetch m i;
          if bool_decide (choice (data n) = c) then last_in_choice_from fuel' m (next n) c i
          else Ok last
      end
  end.

Definition ay_ynode_get_last_in_choice (m : list ynode) (first : nat) : res nat :=
  n ← fetch m first; last_in_choice_from (length m) m (Some first) (choice (data n)) first.

Definition mandatory_choice_in_list_node (s : ytree) (i : nat) : res ytree :=
  n ← fetch (mem s) i;
  match child n with
  | None => Ok s
  | Some c =>
      if bool_decide (type (data n) ≠ YN_LIST)
         || (bool_decide (choice (data n) = None)
             && (has_flag (data n) AY_YNODE_MAND_TRUE || negb (min_elems (data n) =? 0)%Z))
      then Ok s
      else
        cn ← fetch (mem s) c;
        if bool_decide (choice (data cn) = None) || negb (has_flag (data cn) AY_CHOICE_MAND_FALSE)
        then Ok s
        else
          l ← ay_ynode_get_last_in_choice (mem s) c;
          ln ← fetch (mem s) l;
          if bool_decide (next ln = None) then on_node s c (clear_flag AY_CHOICE_MAND_FALSE)
          else Ok s
  end.

Definition ay_ynode_mandatory_choice_in_list (s : ytree) : res ytree :=
  for_tree mandatory_choice_in_list_node (count s - 1) 1 s.

(** ** All nodes *)

(** [for (iter = iter; iter; iter = iter->next) iter->flags |= mask]. *)
Definition flag_siblings (s : ytree) (iter : option nat) (mask : Z) : res ytree :=
  l ← siblings_from (length (mem s)) (mem s) iter; mapM_nodes s l (add_flag mask).

Definition children_mand_false (s : ytree) (n : ynode) : res ytree :=
  if negb (has_flag (data n) AY_CHILDREN_MAND_FALSE) then Ok s
  else if bool_decide (type (data n) = YN_CASE) then
    c ← deref (child n);
    s1 ← on_node s c (add_flag AY_YNODE_MAND_TRUE);
    cn ← fetch (mem s1) c;
    flag_siblings s1 (next cn) AY_YNODE_MAND_FALSE
  else flag_siblings s (child n) AY_YNODE_MAND_FALSE.

(** [node->parent->type == YN_LIST] and the node is all that the list has. *)
Definition only_node_of_list (s : ytree) (i : nat) (n : ynode) : res bool :=
  p ← deref (parent n);
  pn ← fetch (mem s) p;
  if bool_decide (type (data pn) = YN_LIST) && bool_decide (child pn = Some i)
     && (descendants pn =? 1)%Z
  then pp ← deref (parent pn); ppn ← fetch (mem s) pp; Ok (bool_decide (type (data ppn) ≠ YN_ROOT))
  else Ok false.

(** The flags by the lenses, when nothing else decides. *)
Definition mandatory_by_lens (d : ydata) : res (ydata → ydata) :=
  let maybe_false (ln : option nat) (otherwise : ydata → ydata) :=
    b ← ay_lnode_has_maybe lm ln false false;
    Ok (if (b : bool) then λ d, with_min_elems 0 (add_flag AY_YNODE_MAND_FALSE d) else otherwise) in
  by_value ← (if bool_decide (type d = YN_VALUE) then
                if has_flag d AY_VALUE_MAND_FALSE then Ok true
                else v ← deref (value d); ay_yang_type_is_empty lm v
              else Ok false);
  if (by_value : bool) then Ok (add_flag AY_YNODE_MAND_FALSE)
  else if bool_decide (type d = YN_LIST) then
    seq ← AY_YNODE_IS_SEQ_LIST lm (Node None None None 0 d);
    maybe_false (if (seq : bool) then snode d else label d)
      (add_flag (if negb (min_elems d =? 0)%Z then AY_YNODE_MAND_TRUE else AY_YNODE_MAND_FALSE))
  else maybe_false (snode d) (add_flag AY_YNODE_MAND_TRUE).

(** The first loop; the branch for YN_CONTAINER behind the [continue]s is never
    reached. *)
Definition set_mandatory_node (s : ytree) (i : nat) : res ytree :=
  n0 ← fetch (mem s) i;
  s1 ← children_mand_false s n0;
  n ← fetch (mem s1) i;
  let d := data n in
  if bool_decide (type d = YN_CONTAINER) then on_node s1 i (clear_flag AY_YNODE_MAND_MASK)
  else if bool_decide (type d = YN_KEY) then
    on_node s1 i (λ d, add_flag AY_YNODE_MAND_TRUE (clear_flag AY_YNODE_MAND_MASK d))
  else
    only ← only_node_of_list s1 i n;
    if (only : bool) then
      on_node s1 i (λ d, with_min_elems 1 (add_flag AY_YNODE_MAND_TRUE (clear_flag AY_YNODE_MAND_MASK d)))
    else
      hint ← (if has_flag d AY_HINT_MAND_TRUE
              then b ← ay_lnode_has_maybe lm (snode d) false false; Ok (negb b) else Ok false);
      if (hint : bool) then
        on_node s1 i (λ d, with_min_elems (if bool_decide (type d = YN_LIST) then 1 else 0)%Z
          (add_flag AY_YNODE_MAND_TRUE d))
      else if has_flag d AY_HINT_MAND_FALSE then on_node s1 i (add_flag AY_YNODE_MAND_FALSE)
      else if has_flag d AY_YNODE_MAND_TRUE then Ok s1
      else if has_flag d AY_YNODE_MAND_FALSE then on_node s1 i (with_min_elems 0)
      else f ← mandatory_by_lens d; on_node s1 i f.

(** Whether a node of the choice is mandatory false, before a recursive one. *)
Fixpoint choice_has_optional (fuel : nat) (m : list ynode) (iter : option nat) (c : option nat)
  : res bool :=
  match iter with
  | None => Ok false
  | Some i =>
      match fuel with
      | 0 => Fault OutOfFuel
      | S fuel' =>
          n ← fetch m i;
          if bool_decide (choice (data n) ≠ c) then Ok false
          else
            sl ← snode_lens lm n;
            if tag_is sl L_REC then Ok false
            else if has_flag (data n) AY_YNODE_MAND_FALSE then Ok true
            else choice_has_optional fuel' m (next n) c
      end
  end.

(** The second loop. *)
Definition set_choice_mandatory_node (s : ytree) (i : nat) : res ytree :=
  n ← fetch (mem s) i;
  first ← is_first_in_choice (mem s) i n;
  if negb first then Ok s
  else
    alone ← ay_ynode_alone_in_choice (mem s) i;
    if (alone : bool) then Ok s
    else if has_flag (data n) AY_CHOICE_MAND_FALSE then Ok s
    else
      maybe ← ay_lnode_has_maybe lm (choice (data n)) false false;
      opt ← (if (maybe : bool) then Ok true
             else choice_has_optional (length (mem s)) (mem s) (Some i) (choice (data n)));
      if (opt : bool) then on_node s i (add_flag AY_CHOICE_MAND_FALSE) else Ok s.

Definition ay_ynode_tree_set_mandatory (s : ytree) : res ytree :=
  s1 ← for_tree set_mandatory_node (count s - 1) 1 s;
  s2 ← ay_ynode_mandatory_empty_branch s1;
  s3 ← ay_ynode_mandatory_in_list s2;
  s4 ← for_tree set_choice_mandatory_node (count s3 - 1) 1 s3;
  ay_ynode_mandatory_choice_in_list s4.

(** ** Targets of 'when' *)

Definition ay_ynode_get_grouping (m : list ynode) (gid : Z) : res (option nat) :=
  root ← fetch m 0;
  over_siblings (length m) m (child root)
    (λ i n, Ok (if bool_decide (type (data n) = YN_GROUPING) && (id (data n) =? gid)%Z
                then Some i else None)).

(** Lenses are compared by address. *)
Definition same_lens (i j : option nat) : res bool :=
  l1 ← lens_at lm i;
  l2 ← lens_at lm j;
  a ← deref l1;
  b ← deref l2;
  Ok (lens_id a =? lens_id b)%nat.

(** Groupings can be nested: [fuel] bounds the depth. *)
Fixpoint ay_ynode_get_value_node (fuel : nat) (m : list ynode) (nd : nat) (lab val : option nat)
  : res (option nat) :=
  match fuel with
  | 0 => Fault OutOfFuel
  | S fuel' =>
      n ← fetch m nd;
      (fix loop k i := match k with
       | 0 => Ok None
       | S k' =>
           it ← fetch m i;
           is_target ← (if bool_decide (type (data it) = YN_VALUE) then
             b ← same_lens (label (data it)) lab;
             if (b : bool) then same_lens (value (data it)) val else Ok false
             else Ok false);
           if (is_target : bool) then Ok (Some i)
           else if bool_decide (type (data it) = YN_USES) then
             gr ← ay_ynode_get_grouping m (ref (data it));
             _ ← c_assert (bool_decide (is_Some gr));
             g ← deref gr;
             v ← ay_ynode_get_value_node fuel' m g lab val;
             match v with Some x => Ok (Some x) | None => loop k' (S i) end
           else loop k' (S i)
       end) (below n) (S nd)
  end.

(** The ancestor below which the referenced node is, that node, and the length
    of the path. *)
Fixpoint when_target_from (fuel : nat) (m : list ynode) (par : option nat) (wr : Z) (path : Z)
  : res (option (nat * nat * Z)) :=
  match par with
  | None => Ok None
  | Some p =>
      match fuel with
      | 0 => Fault OutOfFuel
      | S fuel' =>
          pn ← fetch m p;
          let path' := if bool_decide (type (data pn) ≠ YN_CASE) then (path + 1)%Z else path in
          if (id (data pn) =? wr)%Z then Ok (Some (p, p, path'))
          else
            r ← find_node m (below pn) (S p) (λ c, Ok (id (data c) =? wr)%Z);
            match r with
            | Some c => Ok (Some (p, c, path'))
            | None => when_target_from fuel' m (parent pn) wr path'
            end
      end
  end.

(** The target, the length of the path and the name of the parent. *)
Definition ay_ynode_when_target (m : list ynode) (nd : nat) : res (option nat * Z * option cstr) :=
  n ← fetch m nd;
  r ← when_target_from (length m) m (parent n) (when_ref (data n)) 0;
  _ ← c_assert (bool_decide (is_Some r));
  '(par, refnode, path) ← deref r;
  pn ← fetch m par;
  rn ← fetch m refnode;
  let path1 := if bool_decide (type (data pn) = YN_CASE) then (path + 1)%Z else path in
  let path2 := if bool_decide (type (data n) = YN_CASE) && (0 <? path1)%Z
               then (path1 - 1)%Z else path1 in
  let not_value := bool_decide (type (data rn) ≠ YN_VALUE) && bool_decide (type (data rn) ≠ YN_LEAF) in
  let name := if bool_decide (par ≠ refnode) && not_value && bool_decide (type (data n) ≠ YN_CASE)
              then ident (data rn) else None in
  target ← (if not_value
            then ay_ynode_get_value_node (length m) m refnode (label (data rn)) (value (data rn))
            else Ok (Some refnode));
  Ok (target, path2, name).

Definition ay_ynode_when_value_is_valid (d : ydata) : res bool :=
  _ ← c_assert (bool_decide (is_Some (when_val d)));
  ln ← lens_at lm (when_val d);
  l ← deref ln;
  _ ← c_assert (bool_decide (tag l = L_VALUE) || bool_decide (tag l = L_STORE));
  let str := if bool_decide (tag l = L_VALUE) then lens_string l else text (pattern l) in
  Ok (bool_decide (strchr str "'" = None)).

(** An L_MAYBE above the L_SUBTREE of [when_val], below the choice of the target. *)
Definition maybe_above_value (wv : nat) (ch : option nat) : res bool :=
  sub ← climb (length lm) lm (Some wv) (λ i it, if bool_decide (ltag it = L_SUBTREE) then Some i else None);
  sn ← deref sub;
  s ← fetch lm sn;
  r ← climb (length lm) lm (parent s) (λ i it,
        if bool_decide (Some i = ch) then Some false
        else if bool_decide (ltag it = L_MAYBE) then Some true else None);
  Ok (default false r).

Definition when_ornot_node (s : ytree) (i : nat) : res ytree :=
  n ← fetch (mem s) i;
  match when_val (data n) with
  | None => Ok s
  | Some wv =>
      '(target, _, _) ← ay_ynode_when_target (mem s) i;
      t ← deref target;
      tn ← fetch (mem s) t;
      if has_flag (data tn) AY_YNODE_MAND_TRUE then Ok s
      else
        b ← maybe_above_value wv (choice (data tn));
        if (b : bool) then on_node s i (add_flag AY_WHEN_ORNOT) else Ok s
  end.

Definition ay_ynode_when_ornot (s : ytree) : res ytree :=
  for_tree when_ornot_node (count s - 1) 1 s.

(** ** Types *)

(** [fuel] bounds the deletions; the node behind a deleted one gets its index. *)
Fixpoint delete_type_unknown_from (fuel : nat) (s : ytree) (i : nat) : res ytree :=
  if (count s <=? i)%nat then Ok s
  else
    match fuel with
    | 0 => Fault OutOfFuel
    | S fuel' =>
        n ← fetch (mem s) i;
        if bool_decide (type (data n) = YN_UNKNOWN) then
          rec ← (match child n with
                 | Some c => cn ← fetch (mem s) c; Ok (bool_decide (type (data cn) = YN_REC))
                 | None => Ok false
                 end);
          s' ← (if (rec : bool) then r ← ay_ynode_delete_node s i; Ok (fst r)
                else ay_ynode_delete_subtree s i);
          delete_type_unknown_from fuel' s' i
        else delete_type_unknown_from fuel' s (S i)
    end.

Definition ay_delete_type_unknown (s : ytree) : res ytree :=
  delete_type_unknown_from (2 * count s) s 1.

(** The labels and the values are present together and equal. *)
Definition ay_ynode_build_list_match (m : list ynode) (node1 node2 : nat) (list_check : bool)
  : res bool :=
  n1 ← fetch m node1;
  n2 ← fetch m node2;
  let d1 := data n1 in
  let d2 := data n2 in
  if bool_decide (type d1 = YN_REC) || bool_decide (type d2 = YN_REC) then
    _ ← c_assert (bool_decide (is_Some (snode d1)) && bool_decide (is_Some (snode d2)));
    b ← same_lens (snode d1) (snode d2);
    if negb b then Ok false
    else
      _ ← c_assert (bool_decide (type d1 = YN_REC) && bool_decide (type d2 = YN_REC));
      Ok true
  else
    con ← (match choice d1 with
           | Some c => if bool_decide (choice d1 = choice d2)
                       then r ← ay_ynode_common_concat lm m node1 node2 (Some c); Ok (bool_decide (r = None))
                       else Ok false
           | None => Ok false
           end);
    if (con : bool) || bool_decide (label d2 = None) || bool_decide (snode d2 = None) then Ok false
    else if list_check && bool_decide (type d2 ≠ YN_LIST) then Ok false
    else
      lists ← (if list_check && bool_decide (type d1 = YN_LIST) then
                 alone ← ay_ynode_alone_in_choice m node1;
                 stop ← (if (alone : bool) then p ← deref (parent n1); pn ← fetch m p; Ok (snode (data pn))
                         else Ok (choice d1));
                 cc ← ay_ynode_common_concat lm m node1 node2 stop;
                 if bool_decide (cc = None) then Ok true
                 else
                   a1 ← ay_lnode_has_attribute lm (snode d1) L_STAR;
                   a2 ← ay_lnode_has_attribute lm (snode d2) L_STAR;
                   Ok (bool_decide (a1 = a2))
               else Ok false);
      if (lists : bool) then Ok false
      else
        l1 ← lens_at lm (label d1);
        _ ← deref l1;
        l2 ← lens_at lm (label d2);
        if negb (ay_lnode_lense_equal l1 l2) then Ok false
        else lnodes_equal lm (value d1) (value d2).
End mandatory.
