(* ===== verification/QueryFacts.v ===== *)
(** The searches in the arrays of lnodes and ynodes end: the functions of [Lnode]
    and [YnodeQuery] that the passes over the tree call, on arrays that hold
    trees. *)
From S2P Require Import Prelude CString Common ParseRegex Preorder PreorderFacts Runs Lnode Ynode YnodeFacts YnodeSpec Forest YnodeQuery YnodeRules YnodeMandatory.

(** The array of lnodes of a lens. *)
Definition lnode_array (lm : list lnode) : Prop := ∃ lt, lm = enc 0 None None lt.

Lemma lnode_array_forward lm : lnode_array lm → forward (length lm) lm ∧ (0 < length lm)%nat.
Proof.
  intros [lt ->]. pose proof (enc_forward lt []) as H. rewrite app_nil_r in H.
  assert (length (enc 0 None None lt) = size lt) as ->.
  { pose proof (length_encf 0 None None [lt]) as He. cbn in He. rewrite app_nil_r in He. lia. }
  split; [done|]. apply size_pos.
Qed.

Lemma repr_forward s t : repr s t → forward (count s) (mem s).
Proof. intros ([sp ->] & -> & _). apply enc_forward. Qed.

(** ** Searches in the lnodes *)

Section lnodes.
Context (lm : list lnode) (Hlm : lnode_array lm).

Lemma lens_at_runs i : runs any (lens_at lm i).
Proof. unfold lens_at. runs. Qed.

Lemma climb_lm_runs {A} o (body : nat → lnode → option A) : runs any (climb (length lm) lm o body).
Proof. destruct (lnode_array_forward lm Hlm). by apply climb_runs_any. Qed.
Hint Resolve lens_at_runs climb_lm_runs : runs.

Lemma has_maybe_runs nd b b' : runs any (ay_lnode_has_maybe lm nd b b').
Proof. unfold ay_lnode_has_maybe. runs. Qed.

Lemma has_attribute_runs nd tg : runs any (ay_lnode_has_attribute lm nd tg).
Proof. unfold ay_lnode_has_attribute. runs. Qed.

Lemma type_is_empty_runs nd : runs any (ay_yang_type_is_empty lm nd).
Proof. unfold ay_yang_type_is_empty. runs. Qed.

Lemma value_under_union_runs sn : runs any (value_under_union lm sn).
Proof. unfold value_under_union. runs. Qed.

Lemma subtree_or_star_runs o : runs any (subtree_or_star lm o).
Proof. unfold subtree_or_star. runs. Qed.

Lemma maybe_above_value_runs wv ch : runs any (maybe_above_value lm wv ch).
Proof. unfold maybe_above_value. runs. Qed.

Lemma scan_lnodes_above p fuel i stop :
  (stop <= length lm)%nat → (length lm <= i + fuel)%nat →
  runs (λ r, ∀ j, r = Some j → i <= j < stop)%nat (scan_lnodes fuel lm i stop p).
Proof.
  intros Hs. revert i. induction fuel as [|fuel IH]; intros i Hi; cbn [scan_lnodes].
  - by rewrite (proj2 (Nat.leb_le stop i)) by lia.
  - destruct (Nat.leb_spec stop i); [done|]. runs_step. runs_step.
    + eapply runs_mono; [apply IH; lia|]. intros r Hr j Hj. specialize (Hr j Hj). lia.
    + runs_step; [intros j [= <-]; lia|]. eapply runs_mono; [apply IH; lia|].
      intros r Hr j Hj. specialize (Hr j Hj). lia.
Qed.

Lemma scan_lnodes_runs p fuel i stop :
  (stop <= length lm)%nat → (length lm <= i + fuel)%nat → runs any (scan_lnodes fuel lm i stop p).
Proof. intros. by eapply runs_any, scan_lnodes_above. Qed.

Lemma snode_label_runs sn : runs any (ay_lnode_get_snode_label lm sn).
Proof.
  unfold ay_lnode_get_snode_label, find_in_subtree. runs_step.
  destruct (lnode_array_forward lm Hlm) as [Hf _]. apply lookup_lt_Some in H as Hi.
  pose proof (block_below _ _ Hf sn a Hi H). apply scan_lnodes_runs; lia.
Qed.

(** The loops that climb with an accumulator or up to [stop]. *)
Lemma climbing (Q : nat → option nat → Prop) :
  (∀ fuel, Q fuel None) →
  (∀ fuel i, (∀ n, lm !! i = Some n → Q fuel (parent n)) → Q (S fuel) (Some i)) →
  ∀ o, Q (length lm) o.
Proof.
  intros H0 HS o. destruct (lnode_array_forward lm Hlm) as [Hf Hl].
  destruct o as [i|]; [|apply H0]. destruct (decide (i < length lm)%nat) as [Hi|Hi].
  - apply (ancestors_induction _ _ Hf Q); [done|auto|by intros j [= <-]|done].
  - destruct (length lm) as [|l] eqn:Hlen; [lia|]. apply HS. intros n Hn.
    apply lookup_lt_Some in Hn. lia.
Qed.

Lemma last_union_runs o stop ch : runs any (last_union lm (length lm) o stop ch).
Proof.
  revert ch. apply (climbing (λ fuel o, ∀ ch, runs any (last_union lm fuel o stop ch))); [by intros []|].
  intros fuel i IH ch. cbn [last_union]. runs; by apply IH.
Qed.

Lemma last_concat_runs o stop ch : runs any (last_concat_loop (length lm) lm o stop ch).
Proof.
  revert ch. apply (climbing (λ fuel o, ∀ ch, runs any (last_concat_loop fuel lm o stop ch)));
    [by intros []|].
  intros fuel i IH ch. cbn [last_concat_loop]. runs; by apply IH.
Qed.

Lemma get_last_concat_runs i stop : runs any (ay_lnode_get_last_concat lm i stop).
Proof. unfold ay_lnode_get_last_concat. runs. apply last_concat_runs. Qed.

Lemma star_between_runs o stop skip : runs any (star_between lm (length lm) o stop skip).
Proof.
  apply (climbing (λ fuel o, runs any (star_between lm fuel o stop skip))).
  - intros []; cbn [star_between]; runs; naive_solver.
  - intros fuel i IH. cbn [star_between]. runs; simplify_eq; by apply IH.
Qed.
End lnodes.

#[export] Hint Resolve lens_at_runs has_maybe_runs has_attribute_runs type_is_empty_runs
  value_under_union_runs subtree_or_star_runs maybe_above_value_runs snode_label_runs
  climb_lm_runs last_union_runs get_last_concat_runs star_between_runs : runs.

(** The siblings of a lnode, from any index. *)
Lemma siblings_lm (lm : list lnode) (Q : nat → option nat → Prop) :
  lnode_array lm → (∀ fuel, Q fuel None) →
  (∀ fuel i, (∀ n, lm !! i = Some n → Q fuel (next n)) → Q (S fuel) (Some i)) →
  ∀ o, Q (length lm) o.
Proof.
  intros Hlm H0 HS o. destruct (lnode_array_forward lm Hlm) as [Hf Hl].
  destruct o as [i|]; [|apply H0]. destruct (decide (i < length lm)%nat) as [Hi|Hi].
  - apply (siblings_induction _ _ Hf Q); [done|auto|by intros j [= <-]|done].
  - destruct (length lm) as [|l] eqn:Hlen; [lia|]. apply HS. intros n Hn.
    apply lookup_lt_Some in Hn. lia.
Qed.

(** ** Searches in the ynodes *)

Section ynodes.
Context (lm : list lnode) (Hlm : lnode_array lm).
Context (k : nat) (m : list ynode) (Hm : forward k m).

(** Loops over siblings, with a condition [R] on the index that they return. *)
Lemma over_siblings_runs {A} (body : nat → ynode → res (option A)) (Q : option A → Prop) o :
  below_index k o → Q None →
  (∀ i n, (i < k)%nat → m !! i = Some n → runs (λ r, r ≠ None → Q r) (body i n)) →
  runs Q (over_siblings (length m) m o body).
Proof.
  intros Ho HN HQ.
  apply (siblings_induction k m Hm (λ fuel o, runs Q (over_siblings fuel m o body)));
    [by intros []| |done|apply (forward_length Hm)].
  intros fuel i Hi IH. cbn [over_siblings]. runs_step.
  eapply runs_bind; [by apply HQ|]. intros [r|] Hr; [by apply Hr|by apply IH].
Qed.

Lemma find_node_runs p n i :
  (∀ nd, runs any (p nd)) → runs any (find_node m n i p).
Proof. intros Hp. revert i. induction n as [|n IH]; intros i; cbn [find_node]; runs. Qed.

Lemma first_with_choice_runs o ch :
  below_index k o → runs (below_index k) (first_with_choice (length m) m o ch).
Proof.
  intros Ho.
  apply (siblings_induction k m Hm (λ fuel o, runs (below_index k) (first_with_choice fuel m o ch)));
    [by intros []| |done|apply (forward_length Hm)].
  intros fuel i Hi IH. cbn [first_with_choice]. runs; [|by apply IH].
  apply runs_Ok. by intros j [= <-].
Qed.

Lemma first_in_choice_runs par ch :
  below_index k par → runs (below_index k) (ay_ynode_get_first_in_choice m par ch).
Proof.
  intros Hp. unfold ay_ynode_get_first_in_choice. destruct ch, par as [p|]; try (apply runs_Ok; done).
  runs_step. apply first_with_choice_runs. eapply child_below; [done|by apply Hp|done].
Qed.

Lemma alone_in_choice_runs i : (i < k)%nat → runs any (ay_ynode_alone_in_choice m i).
Proof.
  intros Hi. unfold ay_ynode_alone_in_choice. do 2 runs_step; [|runs].
  eapply runs_bind; [apply first_in_choice_runs, (parent_below k m Hm i a Hi H)|]. intros. runs.
Qed.

Lemma is_first_in_choice_runs i n : (i < k)%nat → m !! i = Some n → runs any (is_first_in_choice m i n).
Proof.
  intros Hi Hn. unfold is_first_in_choice.
  eapply runs_bind; [by apply first_in_choice_runs, (parent_below k m Hm i n)|]. intros. runs.
Qed.

Lemma subtree_contains_lnode_runs i ln : runs any (ay_ynode_subtree_contains_lnode lm m i ln).
Proof.
  unfold ay_ynode_subtree_contains_lnode, label_lens, value_lens, snode_lens. runs.
  eapply runs_bind; [apply (find_node_runs _)|]; intros; runs.
Qed.

Lemma choice_contains_lnode_runs ch c ln :
  below_index k ch → runs any (ay_ynode_choice_contains_lnode lm m ch c ln).
Proof.
  intros Hch. unfold ay_ynode_choice_contains_lnode.
  eapply runs_bind; [|by intros; runs]. apply (over_siblings_runs _ any); [done..|]. intros i n Hi Hn.
  eapply runs_bind; [apply subtree_contains_lnode_runs|]. intros b _. apply runs_mono with any; [|done]. by destruct b.
Qed.

Lemma branch_is_used_runs ch c n i :
  below_index k ch → runs any (branch_is_used lm m ch c n i).
Proof.
  intros Hch. pose proof (choice_contains_lnode_runs ch c) as Hcc.
  revert i. induction n as [|n IH]; intros i; cbn [branch_is_used]; runs.
Qed.

Lemma some_branch_unused_runs ch c br :
  below_index k ch → runs any (some_branch_unused lm (length lm) m ch c br).
Proof.
  intros Hch. pose proof (λ n i, branch_is_used_runs ch c n i Hch) as Hb.
  apply (siblings_lm lm (λ fuel br, runs any (some_branch_unused lm fuel m ch c br))); [done|by intros []|].
  intros fuel i IH. cbn [some_branch_unused]. runs.
Qed.

Lemma deleted_node_runs ch c :
  below_index k ch → runs any (ay_ynode_mandatory_empty_branch_d2_deleted_node lm m ch c).
Proof.
  intros Hch. pose proof (λ c br, some_branch_unused_runs ch c br Hch) as Hb.
  unfold ay_ynode_mandatory_empty_branch_d2_deleted_node. runs.
Qed.

Lemma behind_choice_runs o c :
  below_index k o → runs (below_index k) (behind_choice (length m) m o c).
Proof.
  intros Ho.
  apply (siblings_induction k m Hm (λ fuel o, runs (below_index k) (behind_choice fuel m o c)));
    [by intros []| |done|apply (forward_length Hm)].
  intros fuel i Hi IH. cbn [behind_choice]. runs; [by apply IH|]. apply runs_Ok. by intros j [= <-].
Qed.

Lemma last_in_choice_runs o c i :
  below_index k o → (i < k)%nat → runs (λ j, j < k)%nat (last_in_choice_from (length m) m o c i).
Proof.
  intros Ho Hi. revert i Hi.
  apply (siblings_induction k m Hm (λ fuel o, ∀ i, (i < k)%nat →
    runs (λ j, j < k)%nat (last_in_choice_from fuel m o c i)));
    [by intros []| |done|apply (forward_length Hm)].
  intros fuel i Hi IH l Hl. cbn [last_in_choice_from]. runs; [by apply IH|by apply runs_Ok].
Qed.

Lemma get_last_in_choice_runs i : (i < k)%nat → runs (λ j, j < k)%nat (ay_ynode_get_last_in_choice m i).
Proof.
  intros Hi. unfold ay_ynode_get_last_in_choice. runs_step. apply last_in_choice_runs; [|done].
  by intros j [= <-].
Qed.

Lemma choice_has_optional_runs o c :
  below_index k o → runs any (choice_has_optional lm (length m) m o c).
Proof.
  intros Ho. apply (siblings_induction k m Hm (λ fuel o, runs any (choice_has_optional lm fuel m o c)));
    [by intros []| |done|apply (forward_length Hm)].
  intros fuel i Hi IH. cbn [choice_has_optional]. unfold snode_lens. runs.
Qed.
End ynodes.
