(* ===== verification/TypeTheorems.v ===== *)
(** What the passes over the tree of ynodes do: the nodes of unknown type are
    deleted, the mandatory flags do not change the tree, a transformation gets
    the space that it asks for. *)
From stdpp Require Import relations.
From S2P Require Import Prelude CString Common ParseRegex Preorder PreorderFacts Lnode Ynode YnodeFacts YnodeSpec YnodeTheorems Forest YnodeQuery YnodeRules YnodeMandatory.

(** ** Types of the nodes *)

Definition types (f : list (tree ydata)) : list yang_type := (λ x, type x.2) <$> flats f.

Lemma types_app f g : types (f ++ g) = types f ++ types g.
Proof. unfold types. by rewrite flats_app, fmap_app. Qed.

Lemma types_cons d cs ts : types (T d cs :: ts) = type d :: types cs ++ types ts.
Proof. unfold types. cbn [flats]. by rewrite flat_T, <- app_comm_cons, fmap_cons, fmap_app. Qed.

Lemma types_length f : length (types f) = sizes f.
Proof. unfold types. by rewrite length_fmap, length_flats. Qed.

Lemma types_map_root g f : (∀ d, type (g d) = type d) → types (map_root g <$> f) = types f.
Proof.
  intros Hg. induction f as [|[d cs] f IH]; [done|]. rewrite fmap_cons. cbn [map_root].
  by rewrite !types_cons, IH, Hg.
Qed.

(** Around the hole. *)
Fixpoint types_before (c : list (frame ydata)) : list yang_type :=
  match c with [] => [] | Frame d ls _ :: c' => types_before c' ++ type d :: types ls end.
Fixpoint types_behind (c : list (frame ydata)) : list yang_type :=
  match c with [] => [] | Frame _ _ rs :: c' => types rs ++ types_behind c' end.

Lemma types_plug c f : types (plug c f) = types_before c ++ types f ++ types_behind c.
Proof.
  revert f. induction c as [|[d ls rs] c IH]; intros f; cbn [plug types_before types_behind].
  - by rewrite app_nil_r.
  - rewrite IH, types_cons, !types_app. rewrite <- !app_assoc. cbn [app].
    by rewrite <- !app_assoc.
Qed.

Lemma types_before_length c : length (types_before c) = hole c.
Proof.
  induction c as [|[d ls rs] c IH]; [done|]. cbn. rewrite length_app, IH. cbn.
  rewrite types_length. lia.
Qed.

Lemma types_only_child us : types (only_child_no_choice us) = types us.
Proof. destruct us as [|[d cs] [|v us]]; [done| |done]. cbn [only_child_no_choice map_root]. by rewrite !types_cons. Qed.

Lemma types_inherit d cs : types (inherit_optional d (inherit_choice d cs)) = types cs.
Proof.
  unfold inherit_optional, inherit_choice.
  destruct (choice d), (has_flag _ _); by rewrite ?types_map_root.
Qed.

(** ** Deleting the nodes of unknown type *)

Lemma repr_index s t i :
  repr s t → (1 <= i < count s)%nat →
  ∃ pd ls rs c d cs, plug (Frame pd ls rs :: c) [T d cs] = [t] ∧ hole (Frame pd ls rs :: c) = i.
Proof.
  intros Hr Hi. pose proof Hr as (_ & Hc & _). destruct t as [d ts]. rewrite size_T in Hc.
  destruct (locate ts (i - 1) d [] [] []) as (c' & [e cs] & Hp & Hh & Hne); [lia|].
  destruct c' as [|[pd ls rs] c']; [done|]. exists pd, ls, rs, c', e, cs. split.
  - rewrite Hp. cbn. by rewrite app_nil_r.
  - rewrite Hh. cbn. lia.
Qed.

(** The types before [i] are known; the number of the unknown ones. *)
Definition known (i : nat) (tys : list yang_type) : Prop :=
  Forall (λ ty, ty ≠ YN_UNKNOWN) (drop 1 (take i tys)).
Definition unknowns (tys : list yang_type) : nat := length (filter (λ ty, ty = YN_UNKNOWN) tys).

Lemma unknowns_app k l : unknowns (k ++ l) = (unknowns k + unknowns l)%nat.
Proof. unfold unknowns. by rewrite filter_app, length_app. Qed.

Lemma unknowns_cons ty l :
  unknowns (ty :: l) = ((if bool_decide (ty = YN_UNKNOWN) then 1 else 0) + unknowns l)%nat.
Proof. unfold unknowns. rewrite filter_cons. by destruct (decide _), (bool_decide_reflect (ty = YN_UNKNOWN)). Qed.

Lemma unknowns_le l : (unknowns l <= length l)%nat.
Proof. apply length_filter. Qed.

Lemma known_before i l r r' : length l = i → known i (l ++ r) → known i (l ++ r').
Proof. intros <-. unfold known. by rewrite !take_app_length. Qed.

Lemma known_next i l ty r :
  length l = i → (1 <= i)%nat → ty ≠ YN_UNKNOWN → known i (l ++ ty :: r) → known (S i) (l ++ ty :: r).
Proof.
  intros <- Hl Hty. unfold known. rewrite take_app_length.
  rewrite (cons_middle ty l r), app_assoc, take_app_length' by (rewrite length_app; cbn; lia).
  rewrite drop_app_le by done. intros H. by apply Forall_app_2, Forall_singleton.
Qed.

(** The children take the place of a node between its siblings and inherit its choice
    and its flags; a node that stands for a branch of a choice becomes a YN_CASE instead. *)
Definition replaced (d : ydata) (cs ls rs : list (tree ydata)) : list (tree ydata) :=
  if becomes_case d cs then ls ++ T (cast_to_case d) cs :: rs
  else only_child_no_choice (ls ++ inherit_optional d (inherit_choice d cs) ++ rs).

Definition starts_with_rec (cs : list (tree ydata)) : bool :=
  match cs with T e _ :: _ => bool_decide (type e = YN_REC) | [] => false end.

(** The first node of unknown type, in the order of the array, is replaced by its
    children if a recursion is the first of them, and is gone with its subtree
    otherwise. *)
Inductive purge (t t' : tree ydata) : Prop :=
| Purge pd ls rs c d cs :
    plug (Frame pd ls rs :: c) [T d cs] = [t] → type d = YN_UNKNOWN →
    known (hole (Frame pd ls rs :: c)) (types [t]) →
    plug c [T pd (if starts_with_rec cs then replaced d cs ls rs else ls ++ rs)] = [t'] →
    purge t t'.

(** The deletion of a node at [i], or its change to a YN_CASE. *)
Lemma delete_unknown_at s t pd ls rs c d cs (rec : bool) :
  repr s t → plug (Frame pd ls rs :: c) [T d cs] = [t] → type d = YN_UNKNOWN →
  let C := Frame pd ls rs :: c in
  ∃ s' t' mid, (if rec then r ← ay_ynode_delete_node s (hole C); Ok (fst r)
                else ay_ynode_delete_subtree s (hole C)) = Ok s' ∧
    repr s' t' ∧ same_counters s s' ∧ sublist (ids t') (ids t) ∧
    plug c [T pd (if rec then replaced d cs ls rs else ls ++ rs)] = [t'] ∧
    types [t'] = types_before C ++ mid ++ types_behind C ∧
    (unknowns mid + length mid <= unknowns (types cs) + sizes cs + 1)%nat.
Proof.
  intros Hr Hp Hd C. assert (type d ≠ YN_CASE) as Hc by (by rewrite Hd).
  set (e := if rec then DeleteNode (hole C) else DeleteSubtree (hole C)).
  assert (∃ t' mid, spec_step (idcnt s) e t t' ∧
    plug c [T pd (if rec then replaced d cs ls rs else ls ++ rs)] = [t'] ∧ types [t'] = types_before C ++ mid ++ types_behind C ∧
    (unknowns mid + length mid <= unknowns (types cs) + sizes cs + 1)%nat) as (t' & mid & Hs & Ht' & Hty & Hm).
  { destruct rec.
    - destruct (plug_single c (T pd (replaced d cs ls rs))) as [t' Ht']. exists t'.
      exists ((if becomes_case d cs then [YN_CASE] else []) ++ types cs). split_and!.
      + exists c, [T pd (ls ++ T d cs :: rs)], [T pd (replaced d cs ls rs)].
        split_and!; [by constructor|exact Hp|done].
      + exact Ht'.
      + rewrite <- Ht', types_plug, types_cons. unfold replaced, C.
        cbn [types_before types_behind]. destruct (becomes_case d cs).
        * rewrite types_app, types_cons. change (types []) with (@nil yang_type). by list_simplifier.
        * rewrite types_only_child, !types_app, types_inherit.
          change (types []) with (@nil yang_type). by list_simplifier.
      + rewrite unknowns_app, length_app, types_length. destruct (becomes_case d cs);
          [rewrite unknowns_cons, bool_decide_false by done|];
          change (unknowns []) with 0;
          cbn [length]; lia.
    - destruct (plug_frame_single c (Frame pd ls rs) []) as [t' Ht']. exists t', [].
      split_and!; [|exact Ht'|by rewrite <- Ht', types_plug|cbn; lia].
      exists C, [T d cs], []. split_and!; [by constructor|exact Hp|done]. }
  destruct (step_refines s e t t' (idcnt s)) as (s' & He & Hr' & Ha & Hi); [done..| |].
  { pose proof Hr as ([sp Hsp] & Hct & Hal & _). unfold has_space. rewrite Hal, Hct, Hsp, length_app.
    rewrite <- (length_fmap strip (enc _ _ _ _)), strip_enc, length_flat. destruct rec; cbn; lia. }
  exists s', t', mid. split_and!; [|done| | |done..].
  - unfold e in He. destruct rec; exact He.
  - split; [done|]. rewrite Hi. by destruct rec.
  - clear Ht'. destruct Hs as (c' & f & f' & Hsp & Ht & Ht').
    apply place_ids in Hsp. destruct (idsf_plug c') as (p & q & Hpq).
    assert (ids t = p ++ idsf f ++ q) as ->.
    { rewrite <- Hpq, Ht. unfold idsf. cbn. by rewrite app_nil_r. }
    assert (ids t' = p ++ idsf f' ++ q) as ->.
    { rewrite <- Hpq, Ht'. unfold idsf. cbn. by rewrite app_nil_r. }
    unfold e in Hsp. destruct rec; cbn in Hsp; apply sublist_app; [done| |done|];
      by apply sublist_app.
Qed.

Definition measure (s : ytree) (t : tree ydata) (i : nat) : nat :=
  (count s - i + unknowns (types [t]))%nat.

Lemma delete_unknown_step s t i :
  repr s t → known i (types [t]) → (1 <= i < count s)%nat →
  ∃ s' t' i', repr s' t' ∧ known i' (types [t']) ∧ (1 <= i')%nat ∧
    (measure s' t' i' < measure s t i)%nat ∧ same_counters s s' ∧ rtc purge t t' ∧
    sublist (ids t') (ids t) ∧
    ∀ fuel, delete_type_unknown_from (S fuel) s i = delete_type_unknown_from fuel s' i'.
Proof.
  intros Hr Hk Hi. destruct (repr_index s t i Hr Hi) as (pd & ls & rs & c & d & cs & Hp & Hh).
  set (C := Frame pd ls rs :: c) in *.
  assert (repr_in s C [T d cs]) as Hin by (by exists t).
  destruct (repr_in_fetch s C (T d cs) [] Hin) as (n & Hn & _ & _ & Hch & _ & Hd).
  cbn [root_data subtrees] in Hd, Hch. rewrite Hh in Hn, Hch.
  assert (types [t] = types_before C ++ type d :: types cs ++ types_behind C) as Hty.
  { rewrite <- Hp, types_plug, types_cons. change (types []) with (@nil yang_type). by list_simplifier. }
  assert (length (types_before C) = i) as Hlb by (by rewrite types_before_length).
  assert (∀ s0 t0, repr s0 t0 → count s0 = length (types [t0])) as Hlen.
  { intros s0 t0 (_ & -> & _). rewrite types_length. cbn. lia. }
  assert ((count s <=? i)%nat = false) as Hlt by (apply Nat.leb_gt; lia).
  destruct (decide (type d = YN_UNKNOWN)) as [Hu|Hu].
  - set (rec := starts_with_rec cs).
    assert ((match child n with
             | Some c0 => cn ← fetch (mem s) c0; Ok (bool_decide (type (data cn) = YN_REC))
             | None => Ok false
             end) = Ok rec) as Hrec.
    { rewrite Hch. destruct cs as [|[e es] cs']; [done|]. cbn [first_index].
      pose proof Hin as Hin'. rewrite repr_children in Hin'.
      destruct (repr_in_fetch s _ _ _ Hin') as (m & Hm & _ & _ & _ & _ & Hmd).
      cbn [hole sizes root_data] in Hm, Hmd. fold (hole C) in Hm.
      replace (S (hole C) + 0)%nat with (S i) in Hm by (rewrite Hh; lia).
      by rewrite Hm, bind_Ok, Hmd. }
    destruct (delete_unknown_at s t pd ls rs c d cs rec Hr Hp Hu)
      as (s' & t' & mid & Hs & Hr' & Hsc & Hids & Hpt & Hty' & Hmid). fold C in Hs, Hty'. rewrite Hh in Hs.
    exists s', t', i. split_and!; try done; [|lia| | |].
    + rewrite Hty'. eapply known_before; [done|]. by rewrite <- Hty.
    + unfold measure. rewrite (Hlen s' t' Hr'), (Hlen s t Hr), Hty, Hty'.
      rewrite !unknowns_app, !length_app, Hlb, unknowns_cons, length_cons, length_app, unknowns_app.
      rewrite types_length, bool_decide_true by done. lia.
    + apply rtc_once. apply (Purge _ _ pd ls rs c d cs); [done..| |done]. fold C. by rewrite Hh.
    + intros fuel. cbn [delete_type_unknown_from]. rewrite Hlt, Hn, bind_Ok, Hd, bool_decide_true by done.
      rewrite Hrec, bind_Ok. by rewrite Hs.
  - exists s, t, (S i). split_and!; try done; [|lia| |].
    + rewrite Hty in *. apply known_next; [done|lia|done|exact Hk].
    + unfold measure. lia.
    + intros fuel. cbn [delete_type_unknown_from]. by rewrite Hlt, Hn, bind_Ok, Hd, bool_decide_false.
Qed.

Lemma delete_unknown_from fuel s t i :
  repr s t → known i (types [t]) → (1 <= i)%nat → (measure s t i <= fuel)%nat →
  ∃ s' t', delete_type_unknown_from fuel s i = Ok s' ∧ repr s' t' ∧ same_counters s s' ∧
    rtc purge t t' ∧ sublist (ids t') (ids t) ∧ Forall (λ ty, ty ≠ YN_UNKNOWN) (drop 1 (types [t'])).
Proof.
  revert s t i. induction fuel as [|fuel IH]; intros s t i Hr Hk Hi Hf.
  all: destruct (decide (count s <= i)%nat) as [Hle|Hgt].
  all: try (exists s, t; split_and!;
    [cbn; by rewrite (proj2 (Nat.leb_le _ _) Hle)|done|done|done|done|];
    unfold known in Hk; rewrite take_ge in Hk; [done|];
    destruct Hr as (_ & Hc & _); rewrite types_length; cbn; lia).
  - unfold measure in Hf. lia.
  - destruct (delete_unknown_step s t i) as (s1 & t1 & i1 & Hr1 & Hk1 & Hi1 & Hm & [Ha Hc] & Hp & Hids & ->);
      [done..|lia|].
    destruct (IH s1 t1 i1) as (s' & t' & Hs & Hr' & [Ha' Hc'] & Hp' & Hids' & Hall); [done..|lia|].
    exists s', t'. split_and!; try done; [split; congruence|by etrans..].
Qed.

Lemma known_start t : known 1 (types [t]).
Proof. unfold known. destruct (types [t]); constructor. Qed.

Lemma measure_start s t : repr s t → (measure s t 1 <= 2 * count s)%nat.
Proof.
  intros (_ & Hc & _). unfold measure. pose proof (unknowns_le (types [t])) as H. rewrite types_length in H.
  cbn [sizes] in H. lia.
Qed.

(** C13: [ay_delete_type_unknown] terminates on every tree.  What it does is the
    repetition of one step, [purge], as long as there is a node of type [YN_UNKNOWN]
    but for the root: the first one, in the order of the array, is deleted with its
    subtree, or, when its first child is a recursion, it is replaced by its children,
    or becomes a YN_CASE if it is a branch of a choice.  The array then represents the
    tree that is left; its nodes are among the given ones and in their old order, and
    none of them but the root is of unknown type. *)
Theorem types_known s t :
  repr s t →
  ∃ s' t', ay_delete_type_unknown s = Ok s' ∧ repr s' t' ∧ same_counters s s' ∧
    rtc purge t t' ∧ sublist (ids t') (ids t) ∧ Forall (λ ty, ty ≠ YN_UNKNOWN) (drop 1 (types [t'])).
Proof. intros Hr. apply delete_unknown_from; [done|apply known_start|lia|by apply measure_start]. Qed.

(** The children of the root: an unknown node with a container and an unknown
    one with a recursion and a leaf. *)
Definition typed (ty : yang_type) (i : Z) : ydata := with_type ty (nd i).
Definition unknown_tree : tree ydata :=
  T (typed YN_ROOT 1) [T (typed YN_UNKNOWN 2) [T (typed YN_CONTAINER 3) []];
    T (typed YN_UNKNOWN 4) [T (typed YN_REC 5) []; T (typed YN_LEAF 6) []]].

Theorem types_known_witness :
  ∃ s' t', ay_delete_type_unknown (state_of unknown_tree 0 7) = Ok s' ∧ repr s' t' ∧
    same_counters (state_of unknown_tree 0 7) s' ∧ rtc purge unknown_tree t' ∧
    sublist (ids t') (ids unknown_tree) ∧
    Forall (λ ty, ty ≠ YN_UNKNOWN) (drop 1 (types [t'])).
Proof. apply types_known, state_of_repr. done. Defined.
