(* ===== verification/MandatoryTheorems.v ===== *)
(** What the mandatory flags and the conditions of 'when' change: the passes end
    on every tree, and the tree keeps its shape and its data but for the flags
    and the [min_elems]. *)
From S2P Require Import Prelude CString Common ParseRegex Preorder PreorderFacts Runs Lnode Ynode YnodeFacts YnodeSpec YnodeTheorems Forest YnodeQuery YnodeRules YnodeMandatory QueryFacts ForestTheorems.

(** ** The part of the data that is kept *)

Definition blank (d : ydata) : ydata := with_min_elems 0 (with_flags 0 d).

(** Trees of the same shape with the same data but for flags and [min_elems]. *)
Definition same_but_flags (t t' : tree ydata) : Prop := tmap blank t' = tmap blank t.

Lemma map_plug (g : ydata → ydata) (c : list (frame ydata)) f f' :
  map (tmap g) f' = map (tmap g) f → map (tmap g) (plug c f') = map (tmap g) (plug c f).
Proof.
  revert f f'. induction c as [|[d ls rs] c IH]; intros f f' H; [done|]. cbn [plug]. apply IH.
  cbn [map]. rewrite !tmap_T, !map_app. by rewrite H.
Qed.

(** [s] has come from [s0], which represents [t]. *)
Definition reflagged (s0 : ytree) (t : tree ydata) (s : ytree) : Prop :=
  same_counters s0 s ∧ count s = size t ∧ ∃ t', repr s t' ∧ same_but_flags t t'.

Lemma reflagged_start s t : repr s t → reflagged s t s.
Proof. intros H. split; [done|]. split; [apply H|]. by exists t. Qed.

Lemma reflagged_forward s0 t s : reflagged s0 t s → forward (size t) (mem s).
Proof. intros (_ & <- & t' & Hr & _). by eapply repr_forward. Qed.

Lemma locate_node (t : tree ydata) i :
  (i < size t)%nat → ∃ c d cs, plug c [T d cs] = [t] ∧ hole c = i.
Proof.
  intros Hi. destruct t as [d ts]. rewrite size_T in Hi. destruct i as [|i]; [by exists [], d, ts|].
  destruct (locate ts i d [] [] []) as (c & [e cs] & Hp & Hh & _); [lia|].
  exists c, e, cs. split; [|cbn in Hh; lia]. rewrite Hp. cbn. by rewrite app_nil_r.
Qed.

Lemma on_node_runs s0 t s i f :
  reflagged s0 t s → (i < size t)%nat → (∀ d, blank (f d) = blank d) →
  runs (reflagged s0 t) (on_node s i f).
Proof.
  intros ([Ha Hi0] & Hc & t' & Hr & Ht) Hi Hf.
  assert (size t' = size t) as Hsz by (destruct Hr as (_ & <- & _); done).
  destruct (locate_node t' i) as (c & d & cs & Hp & <-); [lia|].
  destruct (modify_data_ok s c f d cs []) as (s' & Hs & (t1 & Ht1 & Hr1) & [Ha' Hi'] & Hc');
    [by exists t'|].
  unfold on_node. rewrite Hs. apply runs_Ok.
  split; [split; congruence|]. split; [congruence|]. exists t1. split; [done|].
  pose proof (map_plug blank c [T d cs] [T (f d) cs]) as Hm. rewrite Hp, Ht1 in Hm. cbn [map] in Hm.
  unfold same_but_flags in *. rewrite !tmap_T, Hf in Hm. specialize (Hm eq_refl). congruence.
Qed.

Lemma for_tree_runs s0 t body n i s :
  reflagged s0 t s → (i + n <= size t)%nat →
  (∀ s i, reflagged s0 t s → (i < size t)%nat → runs (reflagged s0 t) (body s i)) →
  runs (reflagged s0 t) (for_tree body n i s).
Proof.
  intros Hs Hn Hb. revert i s Hs Hn. induction n as [|n IH]; intros i s Hs Hn; [done|]. cbn [for_tree].
  eapply runs_bind; [apply Hb; [done|lia]|]. intros s' Hs'. apply IH; [done|lia].
Qed.

Lemma blank_add_flag mask d : blank (add_flag mask d) = blank d.
Proof. done. Qed.
Lemma blank_clear_flag mask d : blank (clear_flag mask d) = blank d.
Proof. done. Qed.

(** ** The passes *)

Section passes.
Context (lm : list lnode) (Hlm : lnode_array lm) (s0 : ytree) (t : tree ydata).

Definition node_pass (body : ytree → nat → res ytree) : Prop :=
  ∀ s i, reflagged s0 t s → (i < size t)%nat → runs (reflagged s0 t) (body s i).

Lemma pass_runs body s :
  node_pass body → reflagged s0 t s → runs (reflagged s0 t) (for_tree body (count s - 1) 1 s).
Proof.
  intros Hb Hs. destruct Hs as (? & Hc & ?) eqn:?. apply for_tree_runs; [done| |done].
  rewrite Hc. pose proof (size_pos t). lia.
Qed.

Ltac pass s i H Hi Hf :=
  intros s i H Hi; pose proof (reflagged_forward _ _ _ H) as Hf.
Ltac update := apply on_node_runs; [assumption|assumption|done].

Lemma empty_branch_pass : node_pass (mandatory_empty_branch_node lm).
Proof.
  pass s i H Hi Hf. unfold mandatory_empty_branch_node.
  pose proof (λ n, is_first_in_choice_runs _ _ Hf i n Hi) as H1.
  pose proof (λ c, deleted_node_runs lm Hlm _ _ Hf (Some i) c ltac:(by intros j [= <-])) as H2.
  runs; try done; update.
Qed.

(** The loop continues behind the node that it has found. *)
Lemma behind_choice_after m i c :
  forward (size t) m → (i < size t)%nat →
  runs (λ o, ∀ j, o = Some j → (i <= j < size t)%nat) (behind_choice (length m) m (Some i) c).
Proof.
  intros Hf Hi. enough (∀ fuel i', (i <= i')%nat → (i' < size t <= i' + fuel)%nat →
    runs (λ o, ∀ j, o = Some j → (i <= j < size t)%nat) (behind_choice fuel m (Some i') c)) as H.
  { apply H; [done|]. pose proof (forward_length Hf). lia. }
  induction fuel as [|fuel IH]; intros i' Hi1 Hi'; [lia|]. cbn [behind_choice]. runs.
  - destruct (forward_lookup Hf i' a ltac:(lia) H) as (_ & Hn & _ & _).
    destruct (next a) as [j|]; [|by destruct fuel]. specialize (Hn j eq_refl). apply IH; lia.
  - apply runs_Ok. intros j [= <-]. lia.
Qed.

Lemma children_mandfalse_runs m o :
  forward (size t) m → below_index (size t) o → runs any (children_mandfalse_loop (length m) m o).
Proof.
  intros Hf Ho. enough (∀ fuel o, (∀ i, o = Some i → (i < size t <= i + fuel)%nat) →
    runs any (children_mandfalse_loop fuel m o)) as H.
  { apply H. intros i Hi. specialize (Ho i Hi). pose proof (forward_length Hf). lia. }
  clear o Ho. induction fuel as [|fuel IH]; intros [i|] Ho; try done; specialize (Ho i eq_refl).
  { lia. }
  cbn [children_mandfalse_loop].
  pose proof (alone_in_choice_runs _ _ Hf i ltac:(lia)) as H1.
  do 3 runs_step; [|done].
  eapply runs_bind; [apply behind_choice_after; [done|lia]|]. intros [j|] Hj; [|done].
  specialize (Hj j eq_refl). runs_step. apply IH. intros j' Hj'.
  destruct (forward_lookup Hf j a1 ltac:(lia) H2) as (_ & Hn & _ & _). specialize (Hn j' Hj'). lia.
Qed.

Lemma upper_choices_runs m ch o stop :
  forward (size t) m → below_index (size t) ch → runs any (upper_choices lm (length lm) m ch o stop).
Proof.
  intros Hf Hch. pose proof (λ c, deleted_node_runs lm Hlm _ _ Hf ch c Hch) as H1.
  apply (climbing lm Hlm (λ fuel o, runs any (upper_choices lm fuel m ch o stop))).
  - intros []; cbn [upper_choices]; runs; naive_solver.
  - intros fuel i IH. cbn [upper_choices]. runs; simplify_eq; by apply IH.
Qed.

Lemma upper_choice_runs m i :
  forward (size t) m → (i < size t)%nat →
  runs any (ay_ynode_mandatory_in_list_upper_choice_mandfalse lm m i).
Proof.
  intros Hf Hi. unfold ay_ynode_mandatory_in_list_upper_choice_mandfalse. runs_step.
  destruct (parent a) as [p|] eqn:Hp; [|done].
  assert (p < size t)%nat as Hps by (by eapply (parent_below _ _ Hf i a)).
  pose proof (λ o stop, upper_choices_runs m (Some p) o stop Hf ltac:(by intros j [= <-])) as H1.
  unfold upper_choice_start, snode_lens, label_lens. runs.
Qed.

Lemma in_list_pass : node_pass (mandatory_in_list_node lm).
Proof.
  pass s i H Hi Hf. unfold mandatory_in_list_node, ay_ynode_mandatory_in_list_children_mandfalse.
  pose proof (λ o, children_mandfalse_runs _ o Hf) as H1.
  pose proof (upper_choice_runs _ i Hf Hi) as H2.
  runs; try done; update.
Qed.

Lemma choice_in_list_pass : node_pass mandatory_choice_in_list_node.
Proof.
  pass s i H Hi Hf. unfold mandatory_choice_in_list_node.
  runs_step. destruct (child a) as [c|] eqn:Hc; [|done].
  assert (c < size t)%nat as Hct by (by eapply (child_below _ _ Hf i a)).
  pose proof (get_last_in_choice_runs _ _ Hf c Hct) as H1.
  runs; try done. update.
Qed.

Lemma set_choice_pass : node_pass (set_choice_mandatory_node lm).
Proof.
  pass s i H Hi Hf. unfold set_choice_mandatory_node.
  pose proof (λ n, is_first_in_choice_runs _ _ Hf i n Hi) as H1.
  pose proof (alone_in_choice_runs _ _ Hf i Hi) as H2.
  pose proof (λ c, choice_has_optional_runs lm _ _ Hf (Some i) c ltac:(by intros j [= <-])) as H3.
  runs; try done; update.
Qed.
Lemma mapM_nodes_runs s l f :
  reflagged s0 t s → Forall (λ i, i < size t)%nat l → (∀ d, blank (f d) = blank d) →
  runs (reflagged s0 t) (mapM_nodes s l f).
Proof.
  intros Hs Hl Hf. unfold mapM_nodes.
  enough (∀ r, runs (reflagged s0 t) r → runs (reflagged s0 t)
    (foldl (λ r i, s' ← r; modify_node s' i (on_data f)) r l)) as H by (by apply H).
  clear s Hs. induction Hl as [|i l Hi _ IH]; intros r Hr; [done|]. cbn [foldl]. apply IH.
  eapply runs_bind; [exact Hr|]. intros s Hs. by apply on_node_runs.
Qed.

Lemma flag_siblings_runs s o mask :
  reflagged s0 t s → below_index (size t) o → runs (reflagged s0 t) (flag_siblings s o mask).
Proof.
  intros Hs Ho. unfold flag_siblings.
  eapply runs_bind; [by apply siblings_from_runs, Ho; eapply reflagged_forward|].
  intros l Hl. by apply mapM_nodes_runs.
Qed.

Lemma children_mand_false_runs s i n :
  reflagged s0 t s → (i < size t)%nat → mem s !! i = Some n →
  runs (reflagged s0 t) (children_mand_false s n).
Proof.
  intros Hs Hi Hn. pose proof (reflagged_forward _ _ _ Hs) as Hf. unfold children_mand_false.
  pose proof (child_below _ _ Hf i n Hi Hn) as Hc.
  runs_step; [done|]. runs_step; [|by apply flag_siblings_runs].
  runs_step. assert (a < size t)%nat as Ha by (by apply Hc).
  eapply runs_bind; [by apply on_node_runs|]. intros s1 Hs1. pose proof (reflagged_forward _ _ _ Hs1) as Hf1.
  runs_step. apply flag_siblings_runs; [done|]. by eapply (next_below _ _ Hf1 a).
Qed.

Lemma only_node_runs s i n : runs any (only_node_of_list s i n).
Proof. unfold only_node_of_list. runs. Qed.

(** The functions that [mandatory_by_lens] returns change flags only. *)
Lemma by_lens_runs d : runs (λ f, ∀ e, blank (f e) = blank e) (mandatory_by_lens lm d).
Proof.
  unfold mandatory_by_lens, AY_YNODE_IS_SEQ_LIST, label_lens.
  runs; apply runs_Ok; intros e; repeat case_match; done.
Qed.

Lemma set_mandatory_pass : node_pass (set_mandatory_node lm).
Proof.
  pass s i H Hi Hf. unfold set_mandatory_node. runs_step.
  eapply runs_bind; [by eapply children_mand_false_runs|]. intros s1 Hs1.
  pose proof (λ n, only_node_runs s1 i n) as H1. pose proof by_lens_runs as H2.
  runs; try done; try update.
Qed.

Lemma set_mandatory_runs :
  repr s0 t → runs (reflagged s0 t) (ay_ynode_tree_set_mandatory lm s0).
Proof.
  intros H%reflagged_start. unfold ay_ynode_tree_set_mandatory, ay_ynode_mandatory_empty_branch,
    ay_ynode_mandatory_in_list, ay_ynode_mandatory_choice_in_list.
  eapply runs_bind; [by apply pass_runs; [apply set_mandatory_pass|]|]. intros s1 H1.
  eapply runs_bind; [by apply pass_runs; [apply empty_branch_pass|]|]. intros s2 H2.
  eapply runs_bind; [by apply pass_runs; [apply in_list_pass|]|]. intros s3 H3.
  eapply runs_bind; [by apply pass_runs; [apply set_choice_pass|]|]. intros s4 H4.
  apply pass_runs; [apply choice_in_list_pass|done].
Qed.
End passes.

(** C16: [ay_ynode_tree_set_mandatory] ends on every tree, for the array of lnodes
    of any lens.  When it returns, the array still represents a tree of the same
    shape whose nodes have the same types, labels, choices and identifiers: only
    the flags and [min_elems] of nodes have changed. *)
Theorem set_mandatory_keeps_tree lm s t :
  lnode_array lm → repr s t →
  ay_ynode_tree_set_mandatory lm s ≠ Fault OutOfFuel ∧
  ∀ s', ay_ynode_tree_set_mandatory lm s = Ok s' →
    same_counters s s' ∧ ∃ t', repr s' t' ∧ tmap blank t' = tmap blank t.
Proof.
  intros Hlm Hr. pose proof (set_mandatory_runs lm Hlm s t Hr) as H. split; [by eapply runs_nofuel|].
  intros s' Hs. rewrite Hs in H. by destruct H as (Hc & _ & t' & ?); eauto.
Qed.

(** A container with a choice of two leaves of [example_ltree]. *)
Definition leaf_data (i : Z) : ydata := YData YN_LEAF (Some 4) (Some 5) None (Some 3) None 0 i 0 0 0 None.
Definition flagged_tree : tree ydata :=
  T (with_type YN_ROOT (nd 1))
    [T (YData YN_CONTAINER (Some 0) (Some 2) None None None 0 2 0 0 0 None)
      [T (leaf_data 3) []; T (leaf_data 4) []]].

Theorem set_mandatory_keeps_tree_witness :
  let s := state_of flagged_tree 0 5 in let lm := enc 0 None None example_ltree in
  ∃ s', ay_ynode_tree_set_mandatory lm s = Ok s' ∧ s' ≠ s ∧
    same_counters s s' ∧ ∃ t', repr s' t' ∧ tmap blank t' = tmap blank flagged_tree.
Proof.
  intros s lm.
  destruct (set_mandatory_keeps_tree lm s flagged_tree) as [_ H];
    [by eexists|apply state_of_repr; done|].
  destruct (ay_ynode_tree_set_mandatory lm s) as [s'| |] eqn:E; [|vm_compute in E; discriminate..].
  exists s'. split; [done|]. split; [|by apply H].
  intros ->. vm_compute in E. discriminate.
Defined.

(** ** The choice before a mandatory node *)

Section children_mandfalse.
Context (s : ytree) (c : list (frame ydata)) (d : ydata) (ch : nat).

Definition in_choice (u : tree ydata) : Prop := choice (root_data u) = Some ch.

Lemma behind_choice_ok us x ls fuel :
  at_end s c d ls (us ++ [x]) → Forall in_choice us → ¬ in_choice x → (length us < fuel)%nat →
  behind_choice fuel (mem s) (Some (S (hole c) + sizes ls)%nat) (Some ch)
  = Ok (Some (S (hole c) + sizes (ls ++ us))%nat).
Proof.
  intros H Hus Hx. revert ls fuel H. induction Hus as [|u us Hu Hus IH]; intros ls [|fuel] H Hf;
    try (cbn in Hf; lia); cbn [behind_choice].
  - destruct (repr_in_fetch _ _ _ _ H) as (n & Hn & _ & _ & _ & _ & Hd).
    cbn [hole] in Hn. rewrite Hn, bind_Ok, Hd, bool_decide_false by done. by rewrite app_nil_r.
  - rewrite <- app_comm_cons in H. destruct (repr_in_fetch _ _ _ _ H) as (n & Hn & _ & _ & _ & _ & Hd).
    destruct (at_end_step _ _ _ _ _ _ H) as (H' & n' & Hn' & Hnx & _).
    cbn [hole] in Hn. rewrite Hn in Hn'. injection Hn' as <-.
    rewrite Hn, bind_Ok, Hd, bool_decide_true by done. rewrite Hnx.
    assert (first_index (S (hole c) + sizes (ls ++ [u])) (us ++ [x])
            = Some (S (hole c) + sizes (ls ++ [u]))%nat) as -> by (by destruct us).
    cbn in Hf. rewrite IH by (done || lia). by rewrite <- app_assoc.
Qed.
End children_mandfalse.

(** C17: When the children of a list are a choice of at least two nodes that is
    not mandatory and one more node, that node is skipped: the list is taken for
    one whose children are all optional, even if the node is mandatory. *)
Theorem node_behind_choice_skipped s c d ch us x :
  repr_in s c [T d (us ++ [x])] → (2 <= length us)%nat → Forall (in_choice ch) us →
  ¬ in_choice ch x → Forall (λ u, has_flag (root_data u) AY_CHOICE_MAND_FALSE) us →
  ay_ynode_mandatory_in_list_children_mandfalse (mem s) (hole c) = Ok true.
Proof.
  intros H Hl Hus Hx Hfl. destruct us as [|u [|v us]]; [cbn in Hl; lia..|].
  unfold ay_ynode_mandatory_in_list_children_mandfalse.
  destruct (repr_in_fetch _ _ _ _ H) as (n & Hn & _ & _ & Hch & _ & _).
  rewrite Hn, bind_Ok, Hch. cbn [subtrees app first_index].
  apply children_at_end in H as Hat. pose proof (at_end_length _ _ _ _ _ Hat) as Hlen.
  destruct (length (mem s)) as [|[|k]] eqn:Hm; [cbn in Hlen; lia..|].
  destruct (repr_in_fetch _ _ _ _ Hat) as (nu & Hnu & Hpu & _ & _ & _ & Hdu).
  destruct (at_end_step _ _ _ _ _ _ Hat) as (Hat' & nu' & Hnu' & Hnxu & _).
  destruct (repr_in_fetch _ _ _ _ Hat') as (nv & Hnv & _ & _ & _ & _ & Hdv).
  cbn [hole sizes hole_parent app] in *. rewrite Nat.add_0_r in *. rewrite Hnu in Hnu'.
  injection Hnu' as <-. rewrite ?Nat.add_0_r in *.
  assert (ay_ynode_alone_in_choice (mem s) (S (hole c)) = Ok false) as Halone.
  { unfold ay_ynode_alone_in_choice. inversion_clear Hus as [|? ? Hu Hv].
    inversion_clear Hv as [|? ? Hv' _]. rewrite Hnu, bind_Ok, Hdu, Hu, Hpu.
    cbn [ay_ynode_get_first_in_choice]. rewrite Hn, bind_Ok, Hch. cbn [subtrees app first_index].
    rewrite Hm. cbn [first_with_choice]. rewrite Hnu, bind_Ok, Hdu, bool_decide_true by done.
    rewrite bind_Ok, bool_decide_true by done. cbn [negb]. rewrite Hnxu. cbn [first_index].
    rewrite Hnv, bind_Ok, Hdv, bool_decide_true by done. done. }
  cbn [children_mandfalse_loop]. rewrite Hnu, bind_Ok, Halone, bind_Ok, Hdu.
  inversion Hus as [|? ? Hu _]; inversion Hfl as [|? ? Hfu _]; subst.
  rewrite bool_decide_true by (rewrite Hu; eauto).
  rewrite (Is_true_true_1 _ Hfu). cbn [andb negb]. rewrite Hm.
  pose proof (behind_choice_ok s c d ch (u :: v :: us) x [] (S (S k)) Hat Hus Hx) as Hbc.
  cbn [sizes] in Hbc. rewrite Nat.add_0_r, Hu in *.
  rewrite Hbc, bind_Ok by (cbn in Hlen |- *; rewrite length_app in Hlen; cbn in Hlen; lia).
  assert (repr_in s (Frame d (u :: v :: us) [] :: c) [x]) as Hxr.
  { eapply repr_in_view; [|exact Hat]. cbn. by rewrite app_nil_r. }
  destruct (repr_in_fetch _ _ _ _ Hxr) as (nx & Hnx & _ & Hnn & _).
  cbn [hole app] in *. rewrite Hnx, bind_Ok, Hnn. done.
Qed.

(** A list with a choice of two optional leaves and a mandatory leaf. *)
Definition choice_leaf (i : Z) : ydata := with_flags AY_CHOICE_MAND_FALSE (leaf_data i).
Definition mandatory_leaf : ydata := with_choice None (with_flags AY_YNODE_MAND_TRUE (leaf_data 5)).
Definition list_tree : tree ydata :=
  T (with_type YN_ROOT (nd 1))
    [T (with_type YN_LIST (nd 2)) [T (choice_leaf 3) []; T (choice_leaf 4) []; T mandatory_leaf []]].

Theorem node_behind_choice_skipped_witness :
  ay_ynode_mandatory_in_list_children_mandfalse (mem (state_of list_tree 0 6)) 1 = Ok true ∧
  has_flag mandatory_leaf AY_YNODE_MAND_TRUE.
Proof.
  split; [|done].
  apply (node_behind_choice_skipped _ [Frame (with_type YN_ROOT (nd 1)) [] []] (with_type YN_LIST (nd 2)) 3
    [T (choice_leaf 3) []; T (choice_leaf 4) []] (T mandatory_leaf [])).
  - exists list_tree. split; [done|]. by apply state_of_repr.
  - done.
  - by repeat constructor.
  - done.
  - by repeat constructor.
Defined.
