(* ===== verification/QueryTheorems.v ===== *)
(** What the comparison of subtrees, the rule for YN_CASE and the allocation for a
    transformation mean for the tree that the array represents. *)
From S2P Require Import Prelude CString Common ParseRegex Preorder PreorderFacts Runs Lnode Ynode YnodeFacts YnodeSpec YnodeTheorems Forest YnodeQuery YnodeRules YnodeMandatory QueryFacts ForestTheorems.

(** ** Space for a transformation *)

Lemma enc_length (t : tree ydata) : length (enc 0 None None t) = size t.
Proof. by rewrite <- (length_fmap strip (enc _ _ _ _)), strip_enc, length_flat. Qed.

(** The correction repairs the pointers to an array that is not there any more. *)
Lemma correction_repairs stale (t : tree ydata) sp :
  (Z.of_nat (size t + length sp) < 2 ^ 32)%Z →
  tree_correction (size t) ((relink stale <$> enc 0 None None t) ++ sp) = Ok (enc 0 None None t ++ sp).
Proof.
  intros Hl. pose proof (strip_enc 0 None None t) as Hs. pose proof (enc_length t) as Hle.
  destruct t as [d ts]. rewrite enc_T in *. rewrite fmap_cons, <- !app_comm_cons.
  rewrite (tree_correction_tree (T d ts)); [by rewrite enc_T| |].
  - rewrite <- Hs, !fmap_cons. f_equal. rewrite <- list_fmap_compose. by apply list_fmap_ext.
  - cbn [length] in *. rewrite length_app, length_fmap. lia.
Qed.

(** Whether the array has room already, is extended in place, or is moved, whatever
    its old pointers are there. *)
Lemma reserve_ok s t items fresh moved :
  repr s t → (0 < items)%nat → length fresh = items → (Z.of_nat (count s + items) < 2 ^ 32)%Z →
  ∃ s', reserve s (Z.of_nat items) fresh moved = Ok s' ∧
    repr s' t ∧ has_space s' items ∧ idcnt s' = idcnt s.
Proof.
  intros Hr Hi Hfr Hmax. pose proof Hr as ([sp Hm] & Hc & Ha & Hlt).
  assert (Z.of_nat (count s) ≤ arrsize s)%Z as Hle.
  { rewrite Ha, Hm, Hc, length_app, enc_length. lia. }
  unfold reserve. rewrite u64_small by lia. destruct (Z.ltb_spec (arrsize s - Z.of_nat (count s)) (Z.of_nat items)).
  2: { exists s. split_and!; [done|done|unfold has_space; lia|done]. }
  assert (take (count s) (mem s) = enc 0 None None t) as Ht.
  { rewrite Hm, Hc, <- enc_length. apply take_app_length. }
  set (s1 := set_mem (_ ++ fresh) s).
  assert ((if moved is Some _ then ay_ynode_tree_correction s1 else Ok s1)
    = Ok (set_mem (enc 0 None None t ++ fresh) s)) as ->.
  { unfold s1. rewrite Ht. destruct moved as [stale|]; [|by rewrite list_fmap_id].
    unfold ay_ynode_tree_correction. cbn [mem count set_mem].
    rewrite Hc, correction_repairs by (rewrite Hfr; lia). by rewrite bind_Ok. }
  rewrite bind_Ok. eexists. split; [done|]. unfold has_space.
  cbn [mem count arrsize idcnt set_mem]. rewrite u64_small by lia. split_and!; [|lia|done].
  split_and!; cbn [mem count arrsize]; [by eexists|done| |lia].
  rewrite length_app, enc_length. lia.
Qed.

(** C14: [ay_ynode_trans_insert] gives [insert] an array that represents the same
    tree and has room for [items_count] nodes, whether it has room already, is
    extended in place, or is moved to another address.  After a move the nodes hold
    pointers to the old array, which may be anything; the correction of the tree
    makes them point to the nodes of the new one. *)
Theorem trans_insert_gives_space s t insert items fresh moved :
  repr s t → (0 < items)%nat → length fresh = items → (Z.of_nat (count s + items) < 2 ^ 32)%Z →
  ∃ s', ay_ynode_trans_insert s insert (Z.of_nat items) fresh moved = insert s' ∧
    repr s' t ∧ has_space s' items ∧ idcnt s' = idcnt s.
Proof.
  intros Hr Hi Hfr Hmax. destruct (reserve_ok s t items fresh moved) as (s' & Heq & Hs'); [done..|].
  exists s'. split; [|done]. unfold ay_ynode_trans_insert. rewrite (proj2 (Z.eqb_neq _ _)) by lia.
  by rewrite Heq, bind_Ok.
Qed.

Theorem trans_insert_gives_space_witness :
  let s := state_of example_tree 0 5 in
  ∃ s', ay_ynode_trans_insert s (λ s, r ← ay_ynode_insert_child s 0; Ok (0%Z, r)) 2
      [zero_node; zero_node] (Some (Nat.add 7)) = (r ← ay_ynode_insert_child s' 0; Ok (0%Z, r)) ∧
    repr s' example_tree ∧ has_space s' 2 ∧ idcnt s' = 5%Z.
Proof.
  intros s. apply (trans_insert_gives_space s example_tree _ 2).
  - by apply state_of_repr.
  - lia.
  - done.
  - done.
Defined.

(** ** The number of YN_CASE nodes *)

Section insert_case.
Context (s : ytree) (c : list (frame ydata)) (d : ydata) (ch : nat).

Definition chosen (u : tree ydata) : Prop := choice (root_data u) = Some ch.

Lemma at_end_node ls u us :
  at_end s c d ls (u :: us) →
  ∃ n, fetch (mem s) (S (hole c) + sizes ls) = Ok n ∧ data n = root_data u ∧
    next n = first_index (S (hole c) + sizes (ls ++ [u])) us ∧ at_end s c d (ls ++ [u]) us.
Proof.
  intros H. destruct (repr_in_fetch _ _ _ _ H) as (n & Hn & _ & _ & _ & _ & Hd).
  destruct (at_end_step _ _ _ _ _ _ H) as (H' & n' & Hn' & Hnx & _). cbn [hole] in Hn.
  rewrite Hn in Hn'. injection Hn' as <-. by exists n.
Qed.

(** From the first node of the choice on; [cnt] is its rank. *)
Lemma rank_in_choice_ok us u vs rs ls fuel cnt :
  at_end s c d ls (us ++ u :: vs ++ rs) → Forall chosen us → chosen u → Forall chosen vs →
  (∀ x rs', rs = x :: rs' → ¬ chosen x) → (length us <= fuel)%nat →
  rank_in_choice (mem s) fuel (S (hole c) + sizes ls) (S (hole c) + sizes (ls ++ us)) cnt
  = Ok (match vs with [] => 0 | _ => cnt + Z.of_nat (length us) end)%Z.
Proof.
  intros H Hus Hu Hvs Hrs. revert ls fuel cnt H.
  induction Hus as [|w us Hw Hus IH]; intros ls fuel cnt H Hf.
  - destruct (at_end_node _ _ _ H) as (n & Hn & Hd & Hnx & H').
    destruct fuel; cbn [rank_in_choice]; rewrite Hn, bind_Ok, Hnx, app_nil_r, Nat.eqb_refl.
    all: destruct vs as [|v vs]; [destruct rs as [|v rs]; [done|]|]; cbn [app first_index] in *;
      destruct (at_end_node _ _ _ H') as (nv & Hnv & Hdv & _); rewrite Hnv, bind_Ok, Hd, Hdv, Hu.
    all: try (rewrite bool_decide_false by (intros E; by eapply Hrs); done).
    all: inversion_clear Hvs as [|? ? Hv _]; rewrite bool_decide_true by done; f_equal; cbn; lia.
  - rewrite <- app_comm_cons in H. destruct (at_end_node _ _ _ H) as (n & Hn & Hd & Hnx & H').
    cbn [length] in Hf. destruct fuel as [|fuel]; [lia|]. cbn [rank_in_choice].
    rewrite Hn, bind_Ok, Hnx.
    assert (∃ x xs, us ++ u :: vs ++ rs = x :: xs ∧ chosen x) as (x & xs & Hx & Hcx).
    { destruct us as [|x us]; [by eexists _, _|]. inversion Hus; subst. by eexists _, _. }
    rewrite Hx in H' |- *. cbn [first_index]. destruct (at_end_node _ _ _ H') as (nx & Hnx' & Hdx & _).
    rewrite Hnx', bind_Ok, Hd, Hdx, Hw, bool_decide_true by done.
    rewrite (proj2 (Nat.eqb_neq _ _)).
    2: { rewrite sizes_app. cbn [sizes]. pose proof (size_pos w). lia. }
    rewrite <- Hx in H'. specialize (IH (ls ++ [w]) fuel (cnt + 1)%Z H' ltac:(lia)).
    rewrite <- app_assoc in IH. cbn [app] in IH. rewrite IH.
    destruct vs; [done|]. f_equal. cbn [length]. lia.
Qed.

(** The search for the first node of the choice. *)
Lemma first_with_choice_ok us u vs ls fuel :
  at_end s c d ls (us ++ u :: vs) → Forall (λ x, ¬ chosen x) us → chosen u → (length us < fuel)%nat →
  first_with_choice fuel (mem s) (Some (S (hole c) + sizes ls)%nat) ch
  = Ok (Some (S (hole c) + sizes (ls ++ us))%nat).
Proof.
  intros H Hus Hu. revert ls fuel H.
  induction Hus as [|w us Hw Hus IH]; intros ls [|fuel] H Hf; try (cbn in Hf; lia);
    cbn [first_with_choice].
  - destruct (at_end_node _ _ _ H) as (n & Hn & Hd & _).
    rewrite Hn, bind_Ok, Hd, bool_decide_true by done. by rewrite app_nil_r.
  - rewrite <- app_comm_cons in H. destruct (at_end_node _ _ _ H) as (n & Hn & Hd & Hnx & H').
    rewrite Hn, bind_Ok, Hd, bool_decide_false, Hnx by done.
    assert (first_index (S (hole c) + sizes (ls ++ [w])) (us ++ u :: vs)
      = Some (S (hole c) + sizes (ls ++ [w]))%nat) as -> by (by destruct us).
    cbn in Hf. rewrite IH by (done || lia). by rewrite <- app_assoc.
Qed.
End insert_case.

(** The rule for YN_CASE counts every other node of a choice: for the node
    behind [us], with [vs] behind it in the same choice, it gives the parity of
    its rank, and 0 for the last one. *)
Theorem rule_insert_case_alternates s c d ch ls us u vs rs :
  repr_in s c [T d (ls ++ us ++ u :: vs ++ rs)] →
  Forall (λ x, ¬ chosen ch x) ls → Forall (chosen ch) (us ++ u :: vs) →
  (∀ x rs', rs = x :: rs' → ¬ chosen ch x) →
  ay_ynode_rule_insert_case (mem s) (S (hole c) + sizes (ls ++ us))
  = Ok (match vs with [] => 0 | _ => (1 + Z.of_nat (length us)) mod 2 end)%Z.
Proof.
  intros H%children_at_end Hls Hus Hrs.
  apply Forall_app in Hus as [Hus Hv]. inversion_clear Hv as [|? ? Hu Hvs].
  assert (at_end s c d (ls ++ us) (u :: vs ++ rs)) as Hat.
  { unfold at_end in *. eapply repr_in_view; [|exact H]. cbn. by rewrite !app_nil_r, <- !app_assoc. }
  destruct (repr_in_fetch _ _ _ _ Hat) as (n & Hn & Hp & _ & _ & _ & Hd). cbn [hole hole_parent] in Hn, Hp.
  apply children_at_end in H as Hr. destruct (repr_in_fetch _ _ _ _ Hr) as (pn & Hpn & _ & _ & Hch & _ & _).
  unfold ay_ynode_rule_insert_case. rewrite Hn, bind_Ok, Hd, Hu, Hp.
  unfold ay_ynode_get_first_in_choice. rewrite Hpn, bind_Ok, Hch. cbn [subtrees].
  assert (first_index (S (hole c)) (ls ++ us ++ u :: vs ++ rs) = Some (S (hole c) + sizes (@nil (tree ydata)))%nat) as ->.
  { cbn. rewrite Nat.add_0_r. destruct ls; [by destruct us|done]. }
  assert (∃ x xs, us ++ u :: vs ++ rs = x :: xs ∧ chosen ch x) as (x & xs & Hx & Hcx).
  { destruct us as [|x us]; [by eexists _, _|]. inversion Hus; subst. by eexists _, _. }
  pose proof (at_end_length _ _ _ _ _ H) as Hlen. rewrite !length_app in Hlen. cbn in Hlen.
  rewrite Hx in H. rewrite (first_with_choice_ok s c d ch ls x xs []) by (done || lia).
  rewrite bind_Ok. cbn [deref app]. rewrite bind_Ok.
  rewrite (rank_in_choice_ok s c d ch us u vs rs ls); try done; [| |lia].
  - rewrite bind_Ok. by destruct vs.
  - unfold at_end in *. rewrite <- Hx in H. eapply repr_in_view; [|exact H].
    cbn. by list_simplifier.
Qed.

Theorem rule_insert_case_alternates_witness :
  let leaf i := T (with_choice (Some 3) (nd i)) [] in
  let s := state_of (T (nd 1) [T (nd 2) []; leaf 3%Z; leaf 4%Z; leaf 5%Z]) 0 6 in
  ay_ynode_rule_insert_case (mem s) 2 = Ok 1%Z ∧ ay_ynode_rule_insert_case (mem s) 3 = Ok 0%Z ∧
  ay_ynode_rule_insert_case (mem s) 4 = Ok 0%Z.
Proof.
  intros leaf s.
  assert (repr_in s [] [T (nd 1) [T (nd 2) []; leaf 3%Z; leaf 4%Z; leaf 5%Z]]) as H.
  { eexists. split; [done|]. by apply state_of_repr. }
  split_and!.
  - apply (rule_insert_case_alternates s [] (nd 1) 3 [T (nd 2) []] [] (leaf 3%Z) [leaf 4%Z; leaf 5%Z] []);
      [done|by repeat constructor|by repeat constructor|done].
  - apply (rule_insert_case_alternates s [] (nd 1) 3 [T (nd 2) []] [leaf 3%Z] (leaf 4%Z) [leaf 5%Z] []);
      [done|by repeat constructor|by repeat constructor|done].
  - apply (rule_insert_case_alternates s [] (nd 1) 3 [T (nd 2) []] [leaf 3%Z; leaf 4%Z] (leaf 5%Z) [] []);
      [done|by repeat constructor|by repeat constructor|done].
Defined.

(** ** Equal subtrees *)

(** What two nodes have in common that [ay_ynode_equal] takes for equal. *)
Definition common_mask : Z := Z.land AY_YNODE_FLAGS_CMP_MASK (Z.lnot AY_CHOICE_MAND_FALSE).

Record same_node (lm : list lnode) (ignore_when : bool) (d1 d2 : ydata) : Prop := {
  same_type : type d1 = type d2;
  same_labels : lnodes_equal lm (label d1) (label d2) = Ok true;
  same_values : lnodes_equal lm (value d1) (value d2) = Ok true;
  same_snodes : is_Some (snode d1) ↔ is_Some (snode d2);
  same_flags : Z.land (flags d1) common_mask = Z.land (flags d2) common_mask;
  same_min : type d1 = YN_LIST → min_elems d1 = min_elems d2;
  same_ref : type d1 ≠ YN_LEAFREF → ref d1 = ref d2;
  same_when : ignore_when = false → when_ref d1 = when_ref d2
}.

Lemma ynode_equal_same lm m i1 i2 n1 n2 ic iw :
  m !! i1 = Some n1 → m !! i2 = Some n2 → ay_ynode_equal lm m i1 i2 ic iw = Ok true →
  descendants n1 = descendants n2 ∧ same_node lm iw (data n1) (data n2).
Proof.
  intros H1 H2 H. unfold ay_ynode_equal in H. rewrite (fetch_Some _ _ _ H1), (fetch_Some _ _ _ H2) in H.
  rewrite !bind_Ok in H. apply bind_Ok_inv in H as (_ & _ & H).
  apply bind_Ok_inv in H as (al1 & _ & H). apply bind_Ok_inv in H as (al2 & _ & H).
  apply bind_Ok_inv in H as (lb & Hl & H). apply bind_Ok_inv in H as (vl & Hv & H).
  injection H as H. rewrite !andb_true_iff in H.
  destruct H as [[[[[[[[[Hd Ht] ->] ->] Hs] _] Hr] Hf] Hm] Hw].
  split; [by apply Z.eqb_eq|]. split; try done.
  - by apply bool_decide_eq_true in Ht.
  - by apply bool_decide_eq_true in Hs.
  - apply Z.eqb_eq in Hf. destruct ic; [exact Hf|].
    apply (f_equal (λ x, Z.land x (Z.lnot AY_CHOICE_MAND_FALSE))) in Hf.
    by rewrite <- !Z.land_assoc in Hf.
  - intros E. rewrite E, bool_decide_false in Hm by (intros X; by apply X). by apply Z.eqb_eq.
  - intros E. rewrite bool_decide_false in Hr by done. by apply Z.eqb_eq.
  - intros ->. by apply Z.eqb_eq.
Qed.

Lemma equal_range_same lm m iw n i1 i2 :
  equal_range lm m n i1 i2 iw = Ok true → ∀ j, (j < n)%nat →
  ay_ynode_equal lm m (i1 + j) (i2 + j) false iw = Ok true.
Proof.
  revert i1 i2. induction n as [|n IH]; intros i1 i2 H j Hj; [lia|]. cbn [equal_range] in H.
  apply bind_Ok_inv in H as ([] & Hb & H); [|done].
  destruct j as [|j]; [by rewrite !Nat.add_0_r|].
  rewrite !Nat.add_succ_r, <- !Nat.add_succ_l. apply IH; [done|lia].
Qed.

(** The preorder determines the forest. *)
Lemma flats_inj {P} (f g : list (tree P)) : flats f = flats g → f = g.
Proof.
  enough (∀ n (f g : list (tree P)), (sizes f <= n)%nat → flats f = flats g → f = g) as H by eauto.
  clear f g. induction n as [|n IH]; intros [|[d cs] f] [|[e es] g] Hn H; try done.
  all: cbn [flats sizes] in *; rewrite ?flat_T, ?size_T in *; cbn [app] in *; try done; try lia.
  injection H as Hs -> H. apply Nat2Z.inj in Hs.
  apply app_inj_1 in H as [H1 H2]; [|by rewrite !length_flats].
  by rewrite (IH cs es), (IH f g) by (done || lia).
Qed.

Lemma flats_lookup s c u j :
  repr_in s c [u] → (j < size u)%nat →
  ∃ n, mem s !! (hole c + j)%nat = Some n ∧ flats [u] !! j = Some (strip n).
Proof.
  intros (t & Ht & [sp Hm] & _) Hj.
  pose proof (flats_plug c [u]) as Hf. rewrite Ht in Hf. cbn [flats] in Hf. rewrite app_nil_r in Hf.
  assert (flats [u] !! j = (strip <$> mem s) !! (hole c + j)%nat) as Heq.
  { rewrite Hm, fmap_app, strip_enc, Hf. cbn [flats]. rewrite app_nil_r, <- !app_assoc.
    rewrite lookup_app_r by (rewrite length_cpre; lia). rewrite length_cpre.
    replace (hole c + j - hole c)%nat with j by lia. rewrite lookup_app_l; [done|].
    by rewrite length_flat. }
  rewrite list_lookup_fmap in Heq. destruct (mem s !! (hole c + j)%nat) as [n|]; [by exists n|].
  apply lookup_ge_None_1 in Heq. rewrite length_flats in Heq. cbn in Heq. lia.
Qed.

(** C15: When [ay_ynode_subtree_equal] compares two subtrees with their roots and
    returns true, they have the same shape, and nodes at the same place have the
    same type, equal labels and values, the same flags in the low byte (but for the
    one of choices), the same [min_elems] if they are lists, the same [ref] unless
    they are of type YN_LEAFREF, and the same [when_ref] unless [ignore_when] is set;
    [snode] is NULL in both or in none. *)
Theorem subtree_equal_sound lm s c1 c2 u1 u2 iw :
  repr_in s c1 [u1] → repr_in s c2 [u2] → hole c1 ≠ hole c2 →
  ay_ynode_subtree_equal lm (mem s) (hole c1) (hole c2) true iw = Ok true →
  tmap (λ _, tt) u1 = tmap (λ _, tt) u2 ∧
  Forall2 (λ x y, same_node lm iw x.2 y.2) (flat u1) (flat u2).
Proof.
  intros H1 H2 Hne H.
  destruct (repr_in_fetch _ _ _ _ H1) as (n1 & Hn1 & _ & _ & _ & Hd1 & _).
  destruct (repr_in_fetch _ _ _ _ H2) as (n2 & Hn2 & _ & _ & _ & Hd2 & _).
  unfold ay_ynode_subtree_equal in H. rewrite (proj2 (Nat.eqb_neq _ _)) in H by done.
  apply bind_Ok_inv in H as ([] & Hb & H); [|done]. rewrite Hn1, Hn2, !bind_Ok in H.
  destruct (Z.eqb_spec (descendants n1) (descendants n2)) as [Hd|]; [|done]. cbn [negb] in H.
  assert (size u1 = size u2) as Hsz.
  { destruct u1, u2. cbn [subtrees] in *. rewrite !size_T. lia. }
  assert (∀ j, (j < size u1)%nat → ∃ ic,
    ay_ynode_equal lm (mem s) (hole c1 + j) (hole c2 + j) ic iw = Ok true) as Hall.
  { intros [|j] Hj; [exists true; by rewrite !Nat.add_0_r|]. exists false.
    rewrite !Nat.add_succ_r, <- !Nat.add_succ_l. eapply equal_range_same; [exact H|].
    unfold below. destruct u1. cbn [subtrees] in Hd1. rewrite size_T in Hj. lia. }
  assert (Forall2 (λ x y, x.1 = y.1 ∧ same_node lm iw x.2 y.2) (flats [u1]) (flats [u2])) as HF.
  { apply Forall2_same_length_lookup_2; [rewrite !length_flats; cbn; lia|].
    intros j x y Hx Hy. assert (j < size u1)%nat as Hj.
    { apply lookup_lt_Some in Hx. rewrite length_flats in Hx. cbn in Hx. lia. }
    destruct (flats_lookup s c1 u1 j H1 Hj) as (m1 & Hm1 & Hx').
    destruct (flats_lookup s c2 u2 j H2 ltac:(lia)) as (m2 & Hm2 & Hy').
    rewrite Hx in Hx'. rewrite Hy in Hy'. injection Hx' as ->. injection Hy' as ->.
    destruct (Hall j Hj) as [ic He]. by eapply ynode_equal_same. }
  cbn [flats] in HF. rewrite !app_nil_r in HF. split.
  - assert ([tmap (λ _, tt) u1] = [tmap (λ _, tt) u2]) as [= ?]; [|done].
    apply flats_inj. change ([tmap ?f ?u]) with (map (tmap f) [u]).
    change (flats (map (tmap (λ _, tt)) [u1]) = flats (map (tmap (λ _, tt)) [u2])).
    rewrite !flats_tmap. cbn [flats]. rewrite !app_nil_r.
    induction HF as [|x y l k [Hxy _] _ IH]; [done|]. rewrite !fmap_cons, IH. by rewrite Hxy.
  - by eapply Forall2_impl; [exact HF|]; intros x y [].
Qed.

(** Two containers with a leaf each, for [example_ltree]. *)
Definition twin_leaf (i : Z) : ydata := YData YN_LEAF (Some 4) (Some 5) None (Some 3) None 0 i 0 0 0 None.
Definition twin (i : Z) : tree ydata :=
  T (YData YN_CONTAINER (Some 0) (Some 2) None None None 0 i 0 0 0 None) [T (twin_leaf (i + 1)) []].
Definition twin_tree : tree ydata := T (with_type YN_ROOT (nd 1)) [twin 2; twin 4].

Theorem subtree_equal_sound_witness :
  let lm := enc 0 None None example_ltree in
  let s := state_of twin_tree 0 6 in
  ay_ynode_subtree_equal lm (mem s) 1 3 true false = Ok true ∧
  tmap (λ _, tt) (twin 2) = tmap (λ _, tt) (twin 4) ∧
  Forall2 (λ x y, same_node lm false x.2 y.2) (flat (twin 2)) (flat (twin 4)).
Proof.
  intros lm s.
  assert (ay_ynode_subtree_equal lm (mem s) 1 3 true false = Ok true) as H by (vm_compute; reflexivity).
  split; [exact H|].
  apply (subtree_equal_sound lm s [Frame (with_type YN_ROOT (nd 1)) [] [twin 4]]
    [Frame (with_type YN_ROOT (nd 1)) [twin 2] []]).
  - exists twin_tree. split; [done|]. by apply state_of_repr.
  - exists twin_tree. split; [done|]. by apply state_of_repr.
  - done.
  - exact H.
Defined.
