(* ===== verification/RuleTheorems.v ===== *)
(** The rules of the transformations end on every tree. *)
From S2P Require Import Prelude CString Common ParseRegex Preorder PreorderFacts Runs Lnode Ynode YnodeFacts YnodeSpec YnodeTheorems Forest YnodeQuery YnodeRules YnodeMandatory QueryFacts ForestTheorems QueryTheorems.

Section rules.
Context (lm : list lnode) (Hlm : lnode_array lm).
Context (k : nat) (m : list ynode) (Hm : forward k m).

Ltac siblings o Q Ho :=
  apply (siblings_induction k m Hm Q); [by intros []| |exact Ho|apply (forward_length Hm)].

Lemma sum_nodes_runs wrap n i f sum :
  (∀ j, (i <= j < i + n)%nat → runs any (f j)) → runs any (sum_nodes wrap n i f sum).
Proof.
  intros Hf. revert i sum Hf. induction n as [|n IH]; intros i sum Hf; [done|]. cbn [sum_nodes].
  eapply runs_bind; [apply Hf; lia|]. intros. apply IH. intros j Hj. apply Hf. lia.
Qed.

Lemma flags_runs n : runs any (AY_YNODE_IS_IMPLICIT_LIST lm n) ∧ runs any (AY_YNODE_IS_SEQ_LIST lm n).
Proof. split; unfold AY_YNODE_IS_IMPLICIT_LIST, AY_YNODE_IS_SEQ_LIST, label_lens; runs. Qed.

(** The way up to a node with an snode. *)
Lemma up_to_snode_runs i : (i < k)%nat → runs any (up_to_snode m (length m) i).
Proof.
  intros Hi.
  assert (∀ fuel o, below_index k o → (k <= fuel)%nat →
    match o with Some i => runs any (up_to_snode m fuel i) | None => True end) as H.
  { apply (ancestors_induction k m Hm (λ fuel o, match o with
      Some i => runs any (up_to_snode m fuel i) | None => True end)); [done|].
    intros fuel j Hj IH. cbn [up_to_snode]. runs. specialize (IH _ H). by rewrite H0 in IH. }
  apply (H (length m) (Some i)); [by intros j [= <-]|apply (forward_length Hm)].
Qed.

Lemma get_repetition_runs i : (i < k)%nat → runs any (ay_ynode_get_repetition lm m i).
Proof.
  intros Hi. pose proof (up_to_snode_runs i Hi) as H1. unfold ay_ynode_get_repetition.
  runs_step. runs_step; [|done]. do 2 runs_step.
  pose proof (up_to_snode_runs a1 (parent_below k m Hm i a0 Hi H0 a1 H2)) as H3.
  pose proof flags_runs as Hfl. runs. eapply runs_bind; [apply Hfl|]. intros. runs.
Qed.

Lemma rank_runs fuel i nd cnt :
  (i < k)%nat → (k <= i + fuel)%nat → runs any (rank_in_choice m fuel i nd cnt).
Proof.
  revert i cnt. induction fuel as [|fuel IH]; intros i cnt Hi Hf; cbn [rank_in_choice]; [lia|].
  runs. destruct (forward_lookup Hm i a Hi H) as (_ & Hn & _ & _). specialize (Hn _ Heqo).
  apply IH; lia.
Qed.

Lemma rule_insert_case_runs i : (i < k)%nat → runs any (ay_ynode_rule_insert_case m i).
Proof.
  intros Hi. unfold ay_ynode_rule_insert_case. runs_step; runs_step; [|done].
  eapply runs_bind; [by apply (first_in_choice_runs k m Hm), (parent_below k m Hm i a)|].
  intros f Hf. runs_step. eapply (runs_bind any); [|intros; runs].
  pose proof (forward_length Hm). apply rank_runs; [by apply Hf|lia].
Qed.

Lemma choice_members_runs o c ret b : below_index k o → runs any (choice_members m (length m) o c ret b).
Proof.
  intros Ho. revert ret b. siblings o (λ fuel o, ∀ ret b, runs any (choice_members m fuel o c ret b)) Ho.
  intros fuel i Hi IH ret b. cbn [choice_members]. runs.
Qed.

Lemma insert_container_runs i : (i < k)%nat → runs any (ay_ynode_rule_insert_container_in_choice m i).
Proof.
  intros Hi. unfold ay_ynode_rule_insert_container_in_choice. runs_step; runs_step; [|done].
  eapply runs_bind; [by apply (first_in_choice_runs k m Hm), (parent_below k m Hm i a)|].
  intros f Hf. runs_step; [done|].
  eapply (runs_bind any); [by apply choice_members_runs|]. intros [ret b] _. runs.
Qed.

Lemma rest_descendants_runs o sum : below_index k o → runs any (rest_descendants (length m) m o sum).
Proof.
  intros Ho. revert sum. siblings o (λ fuel o, ∀ sum, runs any (rest_descendants fuel m o sum)) Ho.
  intros fuel i Hi IH sum. cbn [rest_descendants]. runs.
Qed.

Lemma copied_case_runs i : (i < k)%nat → runs any (copied_case_nodes m i).
Proof.
  intros Hi. unfold copied_case_nodes. runs_step; runs_step; [done|].
  eapply (runs_bind (λ o, below_index k o)).
  { apply (over_siblings_runs k m Hm _ (λ o, below_index k o)); [by apply (next_below k m Hm i a)|done|].
    intros j n Hj Hn. apply runs_Ok. case_match; [|done]. intros _ l [= <-]. done. }
  intros cas Hcas. do 2 runs_step. assert (a1 < k)%nat as Hc by (by apply Hcas).
  do 2 runs_step. assert (a3 < k)%nat as Hch by (by eapply (child_below k m Hm a1)).
  do 2 runs_step. apply rest_descendants_runs. by eapply (next_below k m Hm a3).
Qed.

Lemma copy_case_runs : runs any (ay_ynode_rule_copy_case_nodes m k).
Proof.
  unfold ay_ynode_rule_copy_case_nodes, ay_ynode_summary. runs_step; runs_step; [done|].
  apply sum_nodes_runs. intros. apply copied_case_runs. lia.
Qed.

Lemma cmp_branches_runs i j : runs any (ay_ynode_cmp_choice_branches lm m i j).
Proof.
  unfold ay_ynode_cmp_choice_branches, branch_head, ay_ynode_merge_choice_branches, label_lens. runs.
Qed.

Lemma merge_matches_runs i c o cnt :
  below_index k o → runs any (merge_matches lm m (length m) i c o cnt).
Proof.
  intros Ho. revert cnt. pose proof (cmp_branches_runs i) as Hc.
  siblings o (λ fuel o, ∀ cnt, runs any (merge_matches lm m fuel i c o cnt)) Ho.
  intros fuel j Hj IH cnt. cbn [merge_matches]. runs.
Qed.

Lemma merge_cases_runs : runs any (ay_ynode_rule_merge_cases lm m k).
Proof.
  unfold ay_ynode_rule_merge_cases. eapply (runs_bind any); [|intros; runs].
  apply sum_nodes_runs. intros i Hi. runs_step. runs_step; [|done].
  apply merge_matches_runs. apply (next_below k m Hm i a); [lia|done].
Qed.

Lemma contains_rec_runs o b : runs any (ay_ynode_subtree_contains_rec lm m o b).
Proof.
  unfold ay_ynode_subtree_contains_rec. destruct o as [i|]; [|done]. runs_step.
  generalize (below a) (S i) 0%Z. intros n. induction n as [|n IH]; intros j ret; [done|].
  cbn [count_rec]. unfold is_recursive, snode_lens. runs.
Qed.

Lemma rec_children_runs o x y : below_index k o → runs any (rec_children lm m (length m) o x y).
Proof.
  intros Ho. revert x y. pose proof contains_rec_runs as Hc.
  siblings o (λ fuel o, ∀ x y, runs any (rec_children lm m fuel o x y)) Ho.
  intros fuel i Hi IH x y. cbn [rec_children]. runs.
Qed.

Lemma recursive_copies_runs : runs any (ay_ynode_rule_recursive_form_by_copy lm m k).
Proof.
  unfold ay_ynode_rule_recursive_form_by_copy. apply sum_nodes_runs. intros i Hi.
  unfold recursive_form_copies, snode_lens. runs_step. runs_step; [done|]. do 2 runs_step.
  runs_step; [done|]. eapply (runs_bind any).
  - apply rec_children_runs. apply (child_below k m Hm i a); [lia|done].
  - intros [x y] _. runs.
Qed.

Lemma implicit_list_runs : runs any (ay_ynode_rule_insert_implicit_list lm).
Proof.
  unfold ay_ynode_rule_insert_implicit_list. apply sum_nodes_runs. intros i _.
  unfold star_below_star. runs.
Qed.

Lemma splittable_runs pt i : runs any (ay_ynode_rule_node_is_splittable lm m pt i).
Proof. unfold ay_ynode_rule_node_is_splittable, label_lens. runs. Qed.

Lemma siblings_above i o :
  (∀ j, o = Some j → (i < j < k)%nat) → runs (Forall (λ j, i < j < k)%nat) (siblings_from (length m) m o).
Proof.
  intros Ho. assert (below_index k o) as Hb by (intros j Hj; by apply Ho). revert Ho.
  apply (siblings_induction k m Hm (λ fuel o, (∀ j, o = Some j → (i < j < k)%nat) →
    runs (Forall (λ j, i < j < k)%nat) (siblings_from fuel m o)));
    [intros [] _; by constructor| |exact Hb|apply (forward_length Hm)].
  intros fuel j Hj IH Ho. cbn [siblings_from]. runs_step. specialize (Ho j eq_refl).
  destruct (forward_lookup Hm j a Hj H) as (_ & Hn & _ & _).
  eapply runs_bind; [apply IH; [done|]|].
  - intros j' Hj'. specialize (Hn j' Hj'). lia.
  - intros l Hl. by constructor.
Qed.

(** The depth of the recursion is at most the number of nodes. *)
Lemma node_split_runs pt fuel i :
  (i < k)%nat → (k <= i + fuel)%nat → runs any (ay_ynode_rule_node_split lm m fuel pt i).
Proof.
  revert i. induction fuel as [|fuel IH]; intros i Hi Hf; [lia|]. cbn [ay_ynode_rule_node_split].
  pose proof (splittable_runs pt) as Hs. runs_step.
  destruct (forward_lookup Hm i a Hi H) as (_ & _ & Hc & _).
  eapply (runs_bind (Forall (λ j, i < j < k)%nat)).
  { by apply siblings_above. }
  intros l Hl. eapply (runs_bind any); [|intros; runs].
  enough (∀ r, runs any r → runs any (foldl (λ acc i0, total ← acc; c ← fetch m i0;
    x ← match child c with
        | Some _ => ay_ynode_rule_node_split lm m fuel pt i0
        | None => ay_ynode_rule_node_is_splittable lm m pt i0
        end; Ok (u64 (total + x))) r l)) as He by (by apply He).
  induction Hl as [|j l Hj _ IHl]; intros r Hr; [done|]. cbn [foldl]. apply IHl.
  eapply runs_bind; [exact Hr|]. intros tot _. runs_step.
  eapply (runs_bind any); [|intros; runs]. runs_step; [apply IH; lia|apply Hs].
Qed.
End rules.

(** C18: On every tree the rules of the transformations end: for each node the
    search for its repetition, the rules for YN_CASE, for containers in choices
    and for the splitting of nodes; for the tree the rules that copy nodes, merge
    cases, copy recursive forms and insert implicit lists. *)
Theorem rules_end lm s t :
  lnode_array lm → repr s t → (∀ pt i, (i < count s)%nat →
    ay_ynode_get_repetition lm (mem s) i ≠ Fault OutOfFuel ∧
    ay_ynode_rule_insert_case (mem s) i ≠ Fault OutOfFuel ∧
    ay_ynode_rule_insert_container_in_choice (mem s) i ≠ Fault OutOfFuel ∧
    ay_ynode_rule_node_split lm (mem s) (length (mem s)) pt i ≠ Fault OutOfFuel) ∧
  ay_ynode_rule_copy_case_nodes (mem s) (count s) ≠ Fault OutOfFuel ∧
  ay_ynode_rule_merge_cases lm (mem s) (count s) ≠ Fault OutOfFuel ∧
  ay_ynode_rule_recursive_form_by_copy lm (mem s) (count s) ≠ Fault OutOfFuel ∧
  ay_ynode_rule_insert_implicit_list lm ≠ Fault OutOfFuel.
Proof.
  intros Hlm Hr%repr_forward. pose proof (forward_length Hr) as Hl. split_and!.
  1: intros pt i Hi; split_and!.
  all: apply (runs_nofuel any).
  - by eapply get_repetition_runs.
  - by eapply rule_insert_case_runs.
  - by eapply insert_container_runs.
  - eapply node_split_runs; [done..|lia].
  - by eapply copy_case_runs.
  - by eapply merge_cases_runs.
  - by eapply recursive_copies_runs.
  - by apply implicit_list_runs.
Qed.

Theorem rules_end_witness :
  let lm := enc 0 None None example_ltree in
  let s := state_of twin_tree 0 6 in
  ay_ynode_get_repetition lm (mem s) 2 ≠ Fault OutOfFuel ∧
  ay_ynode_rule_merge_cases lm (mem s) (count s) ≠ Fault OutOfFuel ∧
  ay_ynode_rule_insert_implicit_list lm ≠ Fault OutOfFuel.
Proof.
  intros lm s.
  destruct (rules_end lm s twin_tree) as (H & _ & H1 & _ & H2);
    [by eexists|by apply state_of_repr|].
  split_and!; [|done..]. apply (H [] 2). vm_compute. lia.
Defined.
