(* ===== verification/Dnode.v ===== *)
(** The dictionaries of [src/common.c]: an array of [struct ay_dnode], where a key
    is followed by its values.  The items point to lnodes or ynodes; the pointers
    have the type [K] and a missing item is NULL.  An item has 16 bytes: the
    number of values in the first four, in little-endian order, and the pointer in
    the last eight.  [ay_dnode_insert] moves a number of bytes that is meant as a
    number of items, so the model keeps the bytes of an item apart. *)
From S2P Require Import Prelude.

Record dnode (K : Type) := DNode { values_count : Z; kvd : option K }.
Arguments DNode {_} _ _.
Arguments values_count {_} _.
Arguments kvd {_} _.

#[export] Instance dnode_eq_dec `{EqDecision K} : EqDecision (dnode K).
Proof. solve_decision. Defined.

Definition AY_DNODE_IS_KEY {K} (d : dnode K) : bool := (0 <? values_count d)%Z.
Definition AY_DNODE_IS_VAL {K} (d : dnode K) : bool := (values_count d =? 0)%Z.

(** The allocated items and [LY_ARRAY_COUNT]. *)
Record dict (K : Type) := Dict { items : list (dnode K); dcount : nat }.
Arguments Dict {_} _ _.
Arguments items {_} _.
Arguments dcount {_} _.

Definition used {K} (d : dict K) : list (dnode K) := take (dcount d) (items d).

(** The bytes of two pointers mixed: the first [k] of the one, the rest of the
    other. *)
Class PointerBytes (K : Type) := splice : nat → option K → option K → option K.

Section dict.
Context {K : Type} `{EqDecision K} `{PointerBytes K}.
Implicit Types (d : dict K) (l : list (dnode K)) (x y : dnode K).

(** ** Bytes *)

(** The first [k] bytes of [a], the other ones of [b]. *)
Definition overlay_int (k : nat) (a b : Z) : Z :=
  let mask := Z.ones (8 * Z.of_nat k) in Z.lor (Z.land a mask) (Z.ldiff b mask).

(** The first [k] bytes of an item. *)
Definition overlay (k : nat) (x y : dnode K) : dnode K :=
  DNode (overlay_int (k `min` 4) (values_count x) (values_count y))
    (if (k <=? 8)%nat then kvd y
     else if (16 <=? k)%nat then kvd x else splice (k - 8) (kvd x) (kvd y)).

Definition sizeof_dnode : nat := 16.

(** [memmove(gap + 1, gap, n)] for an array from [gap] on. *)
Fixpoint move_bytes (n : nat) (prev : dnode K) (l : list (dnode K)) : list (dnode K) :=
  match l with
  | [] => []
  | x :: l' =>
      if (n =? 0)%nat then x :: l'
      else overlay (n `min` sizeof_dnode) prev x :: move_bytes (n - sizeof_dnode) x l'
  end.

Definition memmove_gap (l : list (dnode K)) (gap n : nat) : res (list (dnode K)) :=
  x ← fetch l gap;
  if decide (sizeof_dnode * (gap + 1) + n <= sizeof_dnode * length l)%nat
  then Ok (take (S gap) l ++ move_bytes n x (drop (S gap) l))
  else Fault OutOfBounds.

(** ** Searching *)

Definition ay_dnode_find d (k : option K) : option nat :=
  fst <$> list_find (λ x, kvd x = k) (used d).

(** The keys: [AY_DNODE_KEY_FOR]. *)
Fixpoint key_indices (fuel : nat) l (cnt i : nat) : res (list nat) :=
  if (cnt <=? i)%nat then Ok []
  else
    match fuel with
    | 0 => Fault OutOfFuel
    | S fuel' =>
        x ← fetch l i;
        r ← key_indices fuel' l cnt (i + Z.to_nat (values_count x) + 1);
        Ok (i :: r)
    end.

Definition dict_keys d : res (list nat) := key_indices (dcount d) (items d) (dcount d) 0.

(** The items of a key, the key included: [AY_DNODE_KEYVAL_FOR]. *)
Definition keyval d (i : nat) : res (list (dnode K)) :=
  x ← fetch (items d) i;
  let n := S (Z.to_nat (values_count x)) in
  if decide (i + n <= length (items d))%nat then Ok (take n (drop i (items d)))
  else Fault OutOfBounds.

Section equal.
Context (equal : option (option K → option K → res bool)).

Fixpoint none_equal (eq : option K → option K → res bool) l (v : option K) : res bool :=
  match l with
  | [] => Ok true
  | x :: l' => b ← eq (kvd x) v; if (b : bool) then Ok false else none_equal eq l' v
  end.

Definition ay_dnode_value_is_unique d (key : nat) (v : option K) : res bool :=
  match equal with
  | None => Ok true
  | Some eq => l ← keyval d key; none_equal eq l v
  end.

(** ** Merging two keys *)

(** The loop that copies all other keys and values; an item that is skipped takes
    its values with it. *)
Fixpoint copy_others (fuel : nat) l (cnt i key1 key2 : nat) : res (list (dnode K)) :=
  if (cnt <=? i)%nat then Ok []
  else
    match fuel with
    | 0 => Fault OutOfFuel
    | S fuel' =>
        x ← fetch l i;
        if (i =? key1)%nat || (i =? key2)%nat
        then copy_others fuel' l cnt (i + Z.to_nat (values_count x) + 1) key1 key2
        else r ← copy_others fuel' l cnt (S i) key1 key2; Ok (x :: r)
    end.

(** The index at which that loop ends. *)
Fixpoint others_end (fuel : nat) l (cnt i key1 key2 : nat) : res nat :=
  if (cnt <=? i)%nat then Ok i
  else
    match fuel with
    | 0 => Fault OutOfFuel
    | S fuel' =>
        x ← fetch l i;
        if (i =? key1)%nat || (i =? key2)%nat
        then others_end fuel' l cnt (i + Z.to_nat (values_count x) + 1) key1 key2
        else others_end fuel' l cnt (S i) key1 key2
    end.

Definition add_values (k : Z) x : dnode K := DNode (u32 (values_count x + k)) (kvd x).

(** The buffer has room for [dcount d] items. *)
Definition ay_dnode_merge_keys d (key1 : option nat) (key2 : nat) : res (dict K) :=
  k1 ← deref key1;
  l1 ← keyval d k1;
  l2 ← keyval d key2;
  x2 ← fetch (items d) key2;
  _ ← c_assert (forallb (λ v, forallb (λ w, negb (bool_decide (kvd w = kvd v))) (drop 1 l1)) (drop 1 l2));
  others ← copy_others (dcount d) (items d) (dcount d) 0 k1 key2;
  i ← others_end (dcount d) (items d) (dcount d) 0 k1 key2;
  let buff := match l1 with
              | x1 :: vs1 => add_values (values_count x2 + 1) x1 :: vs1
              | [] => []
              end ++ DNode 0 (kvd x2) :: drop 1 l2 ++ others in
  if decide (length buff <= dcount d)%nat then
    _ ← c_assert (i =? length buff)%nat;
    Ok (Dict (buff ++ drop (length buff) (items d)) (dcount d))
  else Fault OutOfBounds.

(** ** Insertion *)

Definition ay_dnode_insert d (key value : option K) : res (dict K) :=
  let dkey := ay_dnode_find d key in
  let dval := ay_dnode_find d value in
  stop ← (match dkey with
          | Some k =>
              x ← fetch (items d) k;
              if AY_DNODE_IS_VAL x then Ok true
              else u ← ay_dnode_value_is_unique d k value; Ok (negb u)
          | None => Ok false
          end);
  stop' ← (if (stop : bool) then Ok true
           else match equal, dkey, dval with
                | Some eq, None, None => eq key value
                | _, _, _ => Ok false
                end);
  if (stop' : bool) then Ok d
  else
    val_is_key ← (match dval with
                  | Some v => y ← fetch (items d) v; Ok (AY_DNODE_IS_KEY y)
                  | None => Ok false
                  end);
    match val_is_key, dval, dkey with
    | true, Some v, _ => ay_dnode_merge_keys d dkey v
    | _, _, Some k =>
        x ← fetch (items d) k;
        let gap := (k + Z.to_nat (values_count x) + 1)%nat in
        n ← nat_sub (dcount d) gap;
        l1 ← (if (n =? 0)%nat then Ok (items d) else memmove_gap (items d) gap n);
        l2 ← store l1 gap (DNode 0 value);
        l3 ← store l2 k (add_values 1 x);
        Ok (Dict l3 (S (dcount d)))
    | _, _, None =>
        l1 ← store (items d) (dcount d) (DNode 1 key);
        l2 ← store l1 (S (dcount d)) (DNode 0 value);
        Ok (Dict l2 (S (S (dcount d))))
    end.
End equal.
End dict.
