(* ===== verification/DnodeTheorems.v ===== *)
(** Theorems on dictionaries: an array of items represents a list of keys with their
    values, insertion at the last key, at a new key and the merging of two keys keep
    the representation, and the insertion at an earlier key loses the key behind it. *)
From S2P Require Import Prelude Dnode.

Section dict.
Context {K : Type} `{EqDecision K} `{PointerBytes K}.

(** ** Representation *)

Abbreviation entry := (option K * list (option K))%type (only parsing).

Definition entry_items (e : entry) : list (dnode K) :=
  DNode (Z.of_nat (length e.2)) e.1 :: (DNode 0 <$> e.2).
Definition all_items (es : list entry) : list (dnode K) := concat (entry_items <$> es).
Definition pointers (es : list entry) : list (option K) := concat ((λ e, e.1 :: e.2) <$> es).

(** Every pointer occurs once and every key has a value. *)
Definition dict_ok (es : list entry) : Prop := NoDup (pointers es) ∧ Forall (λ e, e.2 ≠ []) es.

(** [room] items are free. *)
Definition dict_repr (d : dict K) (es : list entry) (room : nat) : Prop :=
  ∃ rest, items d = all_items es ++ rest ∧ dcount d = length (all_items es) ∧ (room <= length rest)%nat.

Lemma all_items_app es1 es2 : all_items (es1 ++ es2) = all_items es1 ++ all_items es2.
Proof. unfold all_items. by rewrite fmap_app, concat_app. Qed.

Lemma all_items_cons e es : all_items (e :: es) = entry_items e ++ all_items es.
Proof. done. Qed.

Lemma pointers_app es1 es2 : pointers (es1 ++ es2) = pointers es1 ++ pointers es2.
Proof. unfold pointers. by rewrite fmap_app, concat_app. Qed.

Lemma pointers_cons k vs es : pointers ((k, vs) :: es) = k :: vs ++ pointers es.
Proof. done. Qed.

Lemma kvd_entry e : kvd <$> entry_items e = e.1 :: e.2.
Proof.
  unfold entry_items. cbn. f_equal. rewrite <- list_fmap_compose. by apply list_fmap_id.
Qed.

Lemma kvd_all es : kvd <$> all_items es = pointers es.
Proof.
  induction es as [|e es IH]; [done|].
  unfold pointers. cbn [fmap list_fmap concat]. rewrite all_items_cons, fmap_app, kvd_entry.
  f_equal. exact IH.
Qed.

Lemma entry_items_length e : length (entry_items e) = S (length e.2).
Proof. unfold entry_items. cbn. by rewrite length_fmap. Qed.

Lemma repr_used d es room : dict_repr d es room → used d = all_items es.
Proof. intros (rest & Hi & Hc & _). unfold used. rewrite Hi, Hc. apply take_app_length. Qed.

(** ** Finding *)

Lemma find_None d es room p : dict_repr d es room → p ∉ pointers es → ay_dnode_find d p = None.
Proof.
  intros Hd Hp. unfold ay_dnode_find. rewrite (repr_used _ _ _ Hd).
  destruct (list_find (λ x, kvd x = p) (all_items es)) as [[i x]|] eqn:E; [|done].
  apply list_find_Some in E as (Hx & Hk & _). destruct Hp. rewrite <- kvd_all.
  apply list_elem_of_fmap. exists x. split; [done|by eapply list_elem_of_lookup_2].
Qed.

Lemma find_at d es room p l1 x l2 :
  dict_repr d es room → all_items es = l1 ++ x :: l2 → kvd x = p → p ∉ kvd <$> l1 →
  ay_dnode_find d p = Some (length l1).
Proof.
  intros Hd He Hx Hp. unfold ay_dnode_find. rewrite (repr_used _ _ _ Hd), He.
  assert (list_find (λ x, kvd x = p) l1 = None) as Hn.
  { destruct (list_find (λ x, kvd x = p) l1) as [[i y]|] eqn:E; [|done].
    apply list_find_Some in E as (Hy & Hk & _). destruct Hp. apply list_elem_of_fmap.
    exists y. split; [done|by eapply list_elem_of_lookup_2]. }
  rewrite list_find_app_r by done. cbn. by rewrite decide_True.
Qed.

Lemma find_key d es1 k vs es2 room :
  dict_repr d (es1 ++ (k, vs) :: es2) room → dict_ok (es1 ++ (k, vs) :: es2) →
  ay_dnode_find d k = Some (length (all_items es1)).
Proof.
  intros Hd [Hnd _]. eapply (find_at _ _ _ _ _ _ _ Hd); [by rewrite all_items_app, all_items_cons|done|].
  rewrite kvd_all. rewrite pointers_app, pointers_cons in Hnd.
  apply NoDup_app in Hnd as (_ & Hdisj & _). intros Hin. apply (Hdisj _ Hin). set_solver.
Qed.

Lemma fetch_item d es room l1 x l2 :
  dict_repr d es room → all_items es = l1 ++ x :: l2 → fetch (items d) (length l1) = Ok x.
Proof.
  intros (rest & Hi & _) He. apply fetch_Some. rewrite Hi, He, <- app_assoc. cbn.
  by apply list_lookup_middle.
Qed.

Lemma fetch_key d es1 k vs es2 room :
  dict_repr d (es1 ++ (k, vs) :: es2) room →
  fetch (items d) (length (all_items es1)) = Ok (DNode (Z.of_nat (length vs)) k).
Proof. intros Hd. eapply fetch_item; [done|by rewrite all_items_app, all_items_cons]. Qed.

Lemma keyval_key d es1 k vs es2 room :
  dict_repr d (es1 ++ (k, vs) :: es2) room →
  keyval d (length (all_items es1)) = Ok (entry_items (k, vs)).
Proof.
  intros Hd. unfold keyval. rewrite (fetch_key _ _ _ _ _ _ Hd), bind_Ok. cbn [values_count].
  destruct Hd as (rest & Hi & _). rewrite Nat2Z.id, Hi, all_items_app, all_items_cons.
  rewrite decide_True.
  2: { rewrite !length_app, entry_items_length. cbn. lia. }
  rewrite <- !app_assoc, drop_app_length. f_equal.
  rewrite take_app_le by (rewrite entry_items_length; cbn; lia).
  apply take_ge. rewrite entry_items_length. cbn. lia.
Qed.

(** ** What insertion means *)

Context (equal : option (option K → option K → res bool)).

(** No value of the key and not the key itself is equal to [v]. *)
Definition unique_for (e : entry) (v : option K) : Prop :=
  match equal with Some eq => Forall (λ x, eq x v = Ok false) (e.1 :: e.2) | None => True end.

Definition differ (k v : option K) : Prop :=
  match equal with Some eq => eq k v = Ok false | None => True end.

Inductive inserted : list entry → option K → option K → list entry → Prop :=
| Inserted_new es k v :
    k ∉ pointers es → v ∉ pointers es → differ k v →
    inserted es k v (es ++ [(k, [v])])
| Inserted_last es k vs v :
    v ∉ pointers (es ++ [(k, vs)]) → unique_for (k, vs) v →
    inserted (es ++ [(k, vs)]) k v (es ++ [(k, vs ++ [v])])
| Inserted_merge_behind es1 k vs es2 v ws es3 :
    unique_for (k, vs) v →
    inserted (es1 ++ (k, vs) :: es2 ++ (v, ws) :: es3) k v ((k, vs ++ v :: ws) :: es1 ++ es2 ++ es3)
| Inserted_merge_before es1 k vs es2 v ws es3 :
    unique_for (k, vs) v →
    inserted (es1 ++ (v, ws) :: es2 ++ (k, vs) :: es3) k v ((k, vs ++ v :: ws) :: es1 ++ es2 ++ es3)
| Inserted_value es1 h vs1 k vs2 es2 v :
    inserted (es1 ++ (h, vs1 ++ k :: vs2) :: es2) k v (es1 ++ (h, vs1 ++ k :: vs2) :: es2).

Lemma value_unique d es1 k vs es2 room v :
  dict_repr d (es1 ++ (k, vs) :: es2) room → unique_for (k, vs) v →
  ay_dnode_value_is_unique equal d (length (all_items es1)) v = Ok true.
Proof.
  intros Hd Hu. unfold ay_dnode_value_is_unique, unique_for in *. destruct equal as [eq|]; [|done].
  rewrite (keyval_key _ _ _ _ _ _ Hd), bind_Ok. rewrite <- kvd_entry in Hu.
  induction (entry_items (k, vs)) as [|x l IH]; [done|]. cbn in Hu. inversion Hu as [|? ? Hx Hl]; subst.
  cbn [none_equal]. rewrite Hx, bind_Ok. by apply IH.
Qed.
(** ** Merging *)

Lemma copy_segment (l : list (dnode K)) cnt key1 key2 seg : ∀ f pre rest,
  l = pre ++ seg ++ rest → (length pre + length seg <= cnt)%nat →
  (∀ j, (j < length seg)%nat → length pre + j ≠ key1 ∧ length pre + j ≠ key2)%nat →
  copy_others (length seg + f) l cnt (length pre) key1 key2
  = (r ← copy_others f l cnt (length pre + length seg) key1 key2; Ok (seg ++ r)) ∧
  others_end (length seg + f) l cnt (length pre) key1 key2
  = others_end f l cnt (length pre + length seg) key1 key2.
Proof.
  induction seg as [|x seg IH]; intros f pre rest Hl Hc Hk.
  - cbn [length Nat.add app]. rewrite Nat.add_0_r. split; [|done].
    by destruct (copy_others _ _ _ _ _ _).
  - cbn [length Nat.add] in *.
    destruct (IH f (pre ++ [x]) rest) as [E1 E2].
    { by rewrite Hl, <- app_assoc. }
    { rewrite length_app. cbn. lia. }
    { intros j Hj. rewrite length_app. cbn [length]. destruct (Hk (S j)); [lia|]. lia. }
    rewrite length_app in E1, E2. cbn [length] in E1, E2. rewrite !Nat.add_1_r in E1, E2.
    destruct (Hk 0) as [Hk1 Hk2]; [lia|]. rewrite Nat.add_0_r in Hk1, Hk2.
    cbn [copy_others others_end]. rewrite (proj2 (Nat.leb_gt _ _)) by lia.
    rewrite (fetch_Some l (length pre) x) by (rewrite Hl; by apply list_lookup_middle). rewrite !bind_Ok.
    rewrite !(proj2 (Nat.eqb_neq _ _)) by done. cbn [orb]. rewrite E1, E2.
    replace (length pre + S (length seg))%nat with (S (length pre) + length seg)%nat by lia.
    split; [|done]. destruct (copy_others f l cnt (S (length pre) + length seg) key1 key2); reflexivity.
Qed.

Lemma skip_entry (l : list (dnode K)) cnt key1 key2 f i x n :
  fetch l i = Ok x → values_count x = Z.of_nat n → (i < cnt)%nat → i = key1 ∨ i = key2 →
  copy_others (S f) l cnt i key1 key2 = copy_others f l cnt (i + S n) key1 key2 ∧
  others_end (S f) l cnt i key1 key2 = others_end f l cnt (i + S n) key1 key2.
Proof.
  intros Hx Hn Hi Hk. cbn [copy_others others_end]. rewrite (proj2 (Nat.leb_gt _ _)) by done.
  rewrite Hx, !bind_Ok, Hn, Nat2Z.id.
  replace ((i =? key1)%nat || (i =? key2)%nat) with true.
  2: { destruct Hk as [<-|<-]; rewrite Nat.eqb_refl; by rewrite ?orb_true_r. }
  by replace (i + n + 1)%nat with (i + S n)%nat by lia.
Qed.

Lemma copy_rest (l : list (dnode K)) cnt key1 key2 f : copy_others f l cnt cnt key1 key2 = Ok [] ∧ others_end f l cnt cnt key1 key2 = Ok cnt.
Proof. destruct f; cbn; by rewrite Nat.leb_refl. Qed.

(** Two entries are skipped, whichever is the first. *)
Lemma copy_without_two es1 e2 es3 e4 es5 (rest : list (dnode K)) key1 key2 :
  let l := all_items (es1 ++ e2 :: es3 ++ e4 :: es5) ++ rest in
  let cnt := length (all_items (es1 ++ e2 :: es3 ++ e4 :: es5)) in
  let i := length (all_items es1) in
  let j := length (all_items (es1 ++ e2 :: es3)) in
  (key1 = i ∧ key2 = j) ∨ (key1 = j ∧ key2 = i) →
  copy_others cnt l cnt 0 key1 key2 = Ok (all_items (es1 ++ es3 ++ es5)) ∧
  others_end cnt l cnt 0 key1 key2 = Ok cnt.
Proof.
  intros l cnt i j Hk.
  set (a := all_items es1). set (b := all_items es3). set (c := all_items es5).
  assert (l = a ++ entry_items e2 ++ b ++ entry_items e4 ++ c ++ rest) as Hl.
  { unfold l. by rewrite !all_items_app, !all_items_cons, all_items_app, all_items_cons, <- !app_assoc. }
  assert (cnt = length a + (S (length e2.2) + (length b + (S (length e4.2) + length c))))%nat as Hcnt.
  { unfold cnt. rewrite !all_items_app, !all_items_cons, all_items_app, all_items_cons, !length_app, !entry_items_length.
    unfold a, b, c. lia. }
  assert (j = length a + S (length e2.2) + length b)%nat as Hj.
  { unfold j. rewrite all_items_app, all_items_cons, !length_app, entry_items_length. unfold a, b. lia. }
  assert (i = length a) as Hi by done.
  assert (fetch l i = Ok (DNode (Z.of_nat (length e2.2)) e2.1)) as Hfi.
  { apply fetch_Some. rewrite Hl, Hi. cbn [entry_items app]. by apply list_lookup_middle. }
  assert (fetch l j = Ok (DNode (Z.of_nat (length e4.2)) e4.1)) as Hfj.
  { apply fetch_Some. rewrite Hl, !app_assoc, <- (app_assoc _ (entry_items e4)), <- app_assoc. cbn [entry_items app].
    apply list_lookup_middle. rewrite !length_app, entry_items_length. lia. }
  destruct (copy_segment l cnt key1 key2 a (S (length b + (S (length c + (length e2.2 + length e4.2))))) []
    (entry_items e2 ++ b ++ entry_items e4 ++ c ++ rest)) as [A1 A2]; [done|cbn; lia|cbn; lia|].
  destruct (skip_entry l cnt key1 key2 (length b + (S (length c + (length e2.2 + length e4.2)))) i _ _ Hfi eq_refl)
    as [B1 B2]; [lia|lia|].
  destruct (copy_segment l cnt key1 key2 b (S (length c + (length e2.2 + length e4.2))) (a ++ entry_items e2)
    (entry_items e4 ++ c ++ rest)) as [C1 C2].
  { by rewrite Hl, <- !app_assoc. }
  { rewrite length_app, entry_items_length. lia. }
  { intros k Hkb. rewrite length_app, entry_items_length. lia. }
  destruct (skip_entry l cnt key1 key2 (length c + (length e2.2 + length e4.2)) j _ _ Hfj eq_refl)
    as [D1 D2]; [lia|lia|].
  destruct (copy_segment l cnt key1 key2 c (length e2.2 + length e4.2)
    (a ++ entry_items e2 ++ b ++ entry_items e4) rest) as [E1 E2].
  { by rewrite Hl, <- !app_assoc. }
  { rewrite !length_app, !entry_items_length. lia. }
  { intros k Hkb. rewrite !length_app, !entry_items_length. lia. }
  destruct (copy_rest l cnt key1 key2 (length e2.2 + length e4.2)) as [F1 F2].
  rewrite !length_app, !entry_items_length in C1, C2. rewrite !length_app, !entry_items_length in E1, E2.
  cbn [length Nat.add] in A1, A2.
  rewrite Hi in B1, B2. replace (length a + S (length e2.2) + length b)%nat with j in C1, C2 by lia.
  replace (length a + (S (length e2.2) + (length b + S (length e4.2))))%nat with (j + S (length e4.2))%nat in E1, E2 by lia.
  replace (j + S (length e4.2) + length c)%nat with cnt in E1, E2 by lia.
  replace (copy_others cnt l cnt 0 key1 key2) with
    (copy_others (length a + S (length b + S (length c + (length e2.2 + length e4.2)))) l cnt 0 key1 key2)
    by (f_equal; lia).
  replace (others_end cnt l cnt 0 key1 key2) with
    (others_end (length a + S (length b + S (length c + (length e2.2 + length e4.2)))) l cnt 0 key1 key2)
    by (f_equal; lia).
  rewrite A1, A2, B1, B2, C1, C2, D1, D2, E1, E2, F1, F2. cbn. split; [|done].
  by rewrite !all_items_app, app_nil_r.
Qed.
(** ** Insertion *)

Lemma store_item d es room l1 x l2 y :
  dict_repr d es room → all_items es = l1 ++ x :: l2 →
  ∃ rest, items d = l1 ++ x :: l2 ++ rest ∧ (room <= length rest)%nat ∧
    store (items d) (length l1) y = Ok (l1 ++ y :: l2 ++ rest).
Proof.
  intros (rest & Hi & _ & Hr) He. exists rest. rewrite Hi, He, <- app_assoc. cbn [app].
  split_and!; [done|done|]. rewrite store_Ok by (rewrite length_app; cbn; lia).
  f_equal. by apply insert_app_mid.
Qed.

Lemma store_end (l rest : list (dnode K)) x : (1 <= length rest)%nat →
  ∃ rest', length rest' = (length rest - 1)%nat ∧ store (l ++ rest) (length l) x = Ok (l ++ x :: rest').
Proof.
  intros Hr. destruct rest as [|y rest]; [cbn in Hr; lia|]. exists rest. split; [cbn; lia|].
  rewrite store_Ok by (rewrite length_app; cbn; lia). f_equal. by apply insert_app_mid.
Qed.

Lemma insert_new d es k v room :
  dict_repr d es (2 + room) → k ∉ pointers es → v ∉ pointers es → differ k v →
  ∃ d', ay_dnode_insert equal d k v = Ok d' ∧ dict_repr d' (es ++ [(k, [v])]) room.
Proof.
  intros Hd Hk Hv Hdiff. unfold ay_dnode_insert.
  rewrite (find_None _ _ _ _ Hd Hk), (find_None _ _ _ _ Hd Hv), bind_Ok.
  assert ((if false then Ok true
           else match equal with Some eq => eq k v | None => Ok false end) = Ok false) as ->.
  { unfold differ in Hdiff. by destruct equal. }
  rewrite bind_Ok. destruct Hd as (rest & Hi & Hc & Hr). rewrite bind_Ok, Hi, Hc.
  destruct (store_end (all_items es) rest (DNode 1 k)) as (rest1 & Hr1 & ->); [lia|]. rewrite bind_Ok.
  destruct (store_end (all_items es ++ [DNode 1 k]) rest1 (DNode 0 v)) as (rest2 & Hr2 & E2); [lia|].
  rewrite length_app in E2. cbn [length] in E2. rewrite Nat.add_1_r, <- app_assoc in E2. cbn [app] in E2.
  rewrite E2, bind_Ok. eexists. split; [done|]. exists rest2. cbn [items dcount].
  rewrite all_items_app. split_and!; [by rewrite <- !app_assoc| |lia].
  rewrite length_app. cbn. lia.
Qed.

(** The check of the values passes. *)
Lemma insert_at_key d es1 k vs es2 v room :
  dict_repr d (es1 ++ (k, vs) :: es2) room → dict_ok (es1 ++ (k, vs) :: es2) → unique_for (k, vs) v →
  (x ← fetch (items d) (length (all_items es1));
   if AY_DNODE_IS_VAL x then Ok true
   else u ← ay_dnode_value_is_unique equal d (length (all_items es1)) v; Ok (negb u)) = Ok false.
Proof.
  intros Hd [_ Hne] Hu. rewrite (fetch_key _ _ _ _ _ _ Hd), bind_Ok.
  apply Forall_app in Hne as [_ Hne]. inversion Hne as [|? ? Hvs]; subst. cbn in Hvs.
  unfold AY_DNODE_IS_VAL. cbn [values_count]. rewrite (proj2 (Z.eqb_neq _ _)) by (destruct vs; [done|cbn; lia]).
  by rewrite (value_unique _ _ _ _ _ _ _ Hd Hu).
Qed.

Lemma insert_last d es k vs v room :
  dict_repr d (es ++ [(k, vs)]) (1 + room) → dict_ok (es ++ [(k, vs)]) →
  v ∉ pointers (es ++ [(k, vs)]) → unique_for (k, vs) v → (Z.of_nat (length vs) + 1 < 2 ^ 32)%Z →
  ∃ d', ay_dnode_insert equal d k v = Ok d' ∧ dict_repr d' (es ++ [(k, vs ++ [v])]) room.
Proof.
  intros Hd Hok Hv Hu Hmax. unfold ay_dnode_insert.
  rewrite (find_None _ _ _ _ Hd Hv), (find_key _ _ _ _ _ _ Hd Hok), (insert_at_key _ _ _ _ _ _ _ Hd Hok Hu), bind_Ok.
  assert ((if false then Ok true : res bool
           else match equal with Some _ | None => Ok false end) = Ok false) as -> by (by destruct equal).
  rewrite !bind_Ok, (fetch_key _ _ _ _ _ _ Hd), bind_Ok. cbn [values_count]. rewrite Nat2Z.id.
  destruct Hd as (rest & Hi & Hc & Hr).
  assert (all_items (es ++ [(k, vs)]) = all_items es ++ entry_items (k, vs)) as He.
  { rewrite all_items_app, all_items_cons. by rewrite app_nil_r. }
  assert (length (all_items es) + length vs + 1 = dcount d)%nat as Hgap.
  { rewrite Hc, He, length_app, entry_items_length. cbn. lia. }
  assert (S (dcount d) = length (all_items (es ++ [(k, vs ++ [v])]))) as Hlen.
  { rewrite <- Hgap, all_items_app, all_items_cons, !length_app, entry_items_length. cbn. rewrite length_app. cbn. lia. }
  rewrite Hgap, nat_sub_Ok, Nat.sub_diag, bind_Ok by lia. cbn [Nat.eqb]. rewrite bind_Ok, Hi.
  destruct (store_end (all_items (es ++ [(k, vs)])) rest (DNode 0 v)) as (rest1 & Hr1 & E); [lia|].
  rewrite <- Hc in E. rewrite E, bind_Ok, He, <- app_assoc. cbn [entry_items app].
  rewrite store_Ok by (rewrite length_app; cbn; lia). rewrite bind_Ok. eexists. split; [done|].
  exists rest1. cbn [items dcount]. split_and!; [|done|lia].
  rewrite (insert_app_mid _ _ _ _ (length (all_items es))) by done.
  rewrite all_items_app, all_items_cons. unfold add_values, entry_items. cbn [values_count kvd fst snd].
  rewrite u32_small, length_app by lia. cbn [length].
  replace (Z.of_nat (length vs) + 1)%Z with (Z.of_nat (length vs + 1)) by lia.
  change (all_items []) with (@nil (dnode K)). rewrite app_nil_r, fmap_app, <- !app_assoc. cbn [app].
  by rewrite <- app_assoc.
Qed.

Lemma insert_value d es1 h vs1 k vs2 es2 v room :
  dict_repr d (es1 ++ (h, vs1 ++ k :: vs2) :: es2) room → dict_ok (es1 ++ (h, vs1 ++ k :: vs2) :: es2) →
  ay_dnode_insert equal d k v = Ok d.
Proof.
  intros Hd [Hnd _].
  assert (all_items (es1 ++ (h, vs1 ++ k :: vs2) :: es2)
    = (all_items es1 ++ DNode (Z.of_nat (length (vs1 ++ k :: vs2))) h :: (DNode 0 <$> vs1))
      ++ DNode 0 k :: (DNode 0 <$> vs2) ++ all_items es2) as He.
  { rewrite all_items_app, all_items_cons. unfold entry_items. cbn [fst snd].
    rewrite fmap_app. cbn. by rewrite <- !app_assoc. }
  assert (ay_dnode_find d k
    = Some (length (all_items es1 ++ DNode (Z.of_nat (length (vs1 ++ k :: vs2))) h :: (DNode 0 <$> vs1)))) as Hf.
  { eapply (find_at _ _ _ _ _ _ _ Hd He); [done|]. intros Hin. revert Hnd.
    rewrite <- kvd_all, He, fmap_app. intros (_ & Hdisj & _)%NoDup_app.
    apply (Hdisj _ Hin). rewrite fmap_cons. apply list_elem_of_here. }
  unfold ay_dnode_insert. rewrite Hf, (fetch_item _ _ _ _ _ _ Hd He), !bind_Ok. done.
Qed.
(** Two entries of a dictionary, one of which is [(k, vs)] and the other [(v, ws)]. *)
Definition two_entries (e2 e4 : entry) (k : option K) vs (v : option K) ws : Prop :=
  (e2 = (k, vs) ∧ e4 = (v, ws)) ∨ (e2 = (v, ws) ∧ e4 = (k, vs)).

Lemma values_disjoint es1 e2 es3 e4 es5 k vs v ws :
  dict_ok (es1 ++ e2 :: es3 ++ e4 :: es5) → two_entries e2 e4 k vs v ws →
  forallb (λ y, forallb (λ x, negb (bool_decide (kvd x = kvd y))) (DNode 0 <$> vs)) (DNode 0 <$> ws) = true.
Proof.
  intros [Hnd _] He. apply forallb_forall. intros y Hy. apply forallb_forall. intros x Hx.
  apply list_elem_of_In, list_elem_of_fmap in Hy as (w & -> & Hw).
  apply list_elem_of_In, list_elem_of_fmap in Hx as (u & -> & Hu). cbn [kvd].
  apply negb_true_iff, bool_decide_eq_false. intros ->.
  rewrite pointers_app in Hnd. apply NoDup_app in Hnd as (_ & _ & Hnd).
  destruct e2 as [k2 vs2], e4 as [k4 vs4]. rewrite pointers_cons, pointers_app, pointers_cons in Hnd.
  apply NoDup_cons in Hnd as [_ Hnd]. apply NoDup_app in Hnd as (_ & Hdisj & _).
  destruct He as [[[= -> ->] [= -> ->]]|[[= -> ->] [= -> ->]]]; apply (Hdisj w); set_solver.
Qed.

Lemma drop_entry e : drop 1 (entry_items e) = DNode 0 <$> e.2.
Proof. done. Qed.

Lemma merged_items k vs v ws :
  (Z.of_nat (length vs + length ws) + 1 < 2 ^ 32)%Z →
  (add_values (Z.of_nat (length ws) + 1) (DNode (Z.of_nat (length vs)) k) :: (DNode 0 <$> vs))
  ++ DNode 0 v :: (DNode 0 <$> ws)
  = entry_items (k, vs ++ v :: ws).
Proof.
  intros Hmax. unfold add_values, entry_items. cbn [values_count kvd fst snd].
  rewrite u32_small, fmap_app, length_app by lia. cbn [app length fmap list_fmap]. do 2 f_equal. lia.
Qed.

Lemma merge_two d es1 e2 es3 e4 es5 k vs v ws k1 k2 room :
  let es := es1 ++ e2 :: es3 ++ e4 :: es5 in
  dict_repr d es room → dict_ok es → two_entries e2 e4 k vs v ws →
  (Z.of_nat (dcount d) < 2 ^ 32)%Z →
  ay_dnode_find d k = Some k1 → ay_dnode_find d v = Some k2 →
  ∃ d', ay_dnode_merge_keys d (Some k1) k2 = Ok d' ∧
    dict_repr d' ((k, vs ++ v :: ws) :: es1 ++ es3 ++ es5) room.
Proof.
  intros es Hd Hok He Hmax Hk1 Hk2.
  assert (es = (es1 ++ e2 :: es3) ++ e4 :: es5) as Hes by (unfold es; by rewrite <- app_assoc).
  pose proof Hd as Hd'. rewrite Hes in Hd'. pose proof Hok as Hok'. rewrite Hes in Hok'.
  destruct e2 as [p2 vs2], e4 as [p4 vs4].
  pose proof (find_key _ _ _ _ _ _ Hd Hok) as F2. pose proof (find_key _ _ _ _ _ _ Hd' Hok') as F4.
  pose proof (keyval_key _ _ _ _ _ _ Hd) as V2. pose proof (keyval_key _ _ _ _ _ _ Hd') as V4.
  pose proof (fetch_key _ _ _ _ _ _ Hd) as I2. pose proof (fetch_key _ _ _ _ _ _ Hd') as I4.
  pose proof Hd as (rest & Hi & Hc & Hr).
  assert (keyval d k1 = Ok (entry_items (k, vs)) ∧ keyval d k2 = Ok (entry_items (v, ws)) ∧
    fetch (items d) k2 = Ok (DNode (Z.of_nat (length ws)) v) ∧
    copy_others (dcount d) (items d) (dcount d) 0 k1 k2 = Ok (all_items (es1 ++ es3 ++ es5)) ∧
    others_end (dcount d) (items d) (dcount d) 0 k1 k2 = Ok (dcount d)) as (E1 & E2 & E3 & E4 & E5).
  { pose proof (copy_without_two es1 (p2, vs2) es3 (p4, vs4) es5 rest k1 k2) as HC.
    cbv zeta in HC. fold es in HC. rewrite <- Hi, <- Hc in HC.
    destruct He as [[[= -> ->] [= -> ->]]|[[= -> ->] [= -> ->]]]; simplify_eq;
      (destruct HC as [C1 C2]; [auto|done]). }
  assert (length (all_items es) = (S (length vs) + (S (length ws) + length (all_items (es1 ++ es3 ++ es5))))%nat) as Hlen.
  { unfold es. rewrite !all_items_app, !all_items_cons, !all_items_app, !all_items_cons, !length_app, !entry_items_length.
    destruct He as [[[= -> ->] [= -> ->]]|[[= -> ->] [= -> ->]]]; cbn [snd]; lia. }
  unfold ay_dnode_merge_keys. cbn [deref]. rewrite bind_Ok, E1, bind_Ok, E2, bind_Ok, E3, bind_Ok.
  rewrite !drop_entry. cbn [fst snd]. rewrite (values_disjoint _ _ _ _ _ _ _ _ _ Hok He). cbn [c_assert].
  rewrite bind_Ok, E4, bind_Ok, E5, bind_Ok. cbn [values_count kvd].
  change (entry_items (k, vs)) with (DNode (Z.of_nat (length vs)) k :: (DNode 0 <$> vs)). cbv iota beta.
  assert ((add_values (Z.of_nat (length ws) + 1) (DNode (Z.of_nat (length vs)) k) :: (DNode 0 <$> vs))
    ++ DNode 0 v :: (DNode 0 <$> ws) ++ all_items (es1 ++ es3 ++ es5)
    = all_items ((k, vs ++ v :: ws) :: es1 ++ es3 ++ es5)) as ->.
  { rewrite all_items_cons, <- merged_items by lia. by rewrite <- app_assoc. }
  assert (length (all_items ((k, vs ++ v :: ws) :: es1 ++ es3 ++ es5)) = dcount d) as Hlen'.
  { rewrite all_items_cons, length_app, entry_items_length, Hc, Hlen. cbn [snd]. rewrite length_app. cbn. lia. }
  rewrite decide_True by lia. rewrite Hlen', Nat.eqb_refl. cbn [c_assert]. rewrite bind_Ok.
  eexists. split; [done|]. exists rest. cbn [items dcount]. split_and!; [|by rewrite Hlen'|done].
  f_equal. rewrite Hi, Hc. apply drop_app_length.
Qed.

(** The two pointers are keys of different entries. *)
Lemma insert_merge d es1 e2 es3 e4 es5 k vs v ws room :
  let es := es1 ++ e2 :: es3 ++ e4 :: es5 in
  dict_repr d es room → dict_ok es → two_entries e2 e4 k vs v ws → unique_for (k, vs) v →
  (Z.of_nat (dcount d) < 2 ^ 32)%Z →
  ∃ d', ay_dnode_insert equal d k v = Ok d' ∧ dict_repr d' ((k, vs ++ v :: ws) :: es1 ++ es3 ++ es5) room.
Proof.
  intros es Hd Hok He Hu Hmax.
  assert (∃ a b, es = a ++ (k, vs) :: b) as (a & b & Ha).
  { destruct He as [[-> ->]|[-> ->]]; [by exists es1, (es3 ++ (v, ws) :: es5)|].
    exists (es1 ++ (v, ws) :: es3), es5. unfold es. by rewrite <- app_assoc. }
  assert (∃ a' b', es = a' ++ (v, ws) :: b') as (a' & b' & Ha').
  { destruct He as [[-> ->]|[-> ->]]; [|by exists es1, (es3 ++ (k, vs) :: es5)].
    exists (es1 ++ (k, vs) :: es3), es5. unfold es. by rewrite <- app_assoc. }
  pose proof Hd as Hk. pose proof Hok as Hokk. rewrite Ha in Hk, Hokk.
  pose proof Hd as Hv. pose proof Hok as Hokv. rewrite Ha' in Hv, Hokv.
  pose proof (find_key _ _ _ _ _ _ Hk Hokk) as Fk. pose proof (find_key _ _ _ _ _ _ Hv Hokv) as Fv.
  destruct (merge_two d es1 e2 es3 e4 es5 k vs v ws _ _ room Hd Hok He Hmax Fk Fv) as (d' & Hm & Hd').
  exists d'. split; [|done]. unfold ay_dnode_insert. rewrite Fk, Fv, (insert_at_key _ _ _ _ _ _ _ Hk Hokk Hu), bind_Ok.
  assert ((if false then Ok true : res bool
           else match equal with Some _ | None => Ok false end) = Ok false) as -> by (by destruct equal).
  rewrite bind_Ok, (fetch_key _ _ _ _ _ _ Hv), !bind_Ok. unfold AY_DNODE_IS_KEY. cbn [values_count].
  destruct Hokv as [_ Hne]. apply Forall_app in Hne as [_ Hne]. inversion Hne as [|? ? Hws]; subst. cbn in Hws.
  rewrite (proj2 (Z.ltb_lt _ _)); [done|]. destruct ws; [done|cbn; lia].
Qed.

(** C22: [ay_dnode_insert] at a new key, at the last key, at a key that is merged
    with another one, and for a key that is itself a value leaves an array that
    represents the dictionary after the insertion. *)
Theorem dnode_insert_refines d es k v es' room :
  inserted es k v es' → dict_repr d es (2 + room) → dict_ok es → (Z.of_nat (dcount d) < 2 ^ 32)%Z →
  ∃ d', ay_dnode_insert equal d k v = Ok d' ∧ dict_repr d' es' room.
Proof.
  assert (∀ d es n, dict_repr d es n → ∀ m, (m <= n)%nat → dict_repr d es m) as Hweak.
  { intros d0 es0 n (rest & ? & ? & ?) m Hm. exists rest. split_and!; [done|done|lia]. }
  intros Hins Hd Hok Hmax. destruct Hins as [es k v Hk Hv Hdiff|es k vs v Hv Hu|es1 k vs es2 v ws es3 Hu|
    es1 k vs es2 v ws es3 Hu|es1 h vs1 k vs2 es2 v].
  - by apply (insert_new d es k v room).
  - apply (insert_last d es k vs v room); [eapply Hweak; [done|lia]|done|done|done|].
    destruct Hd as (rest & _ & Hc & _). rewrite all_items_app, all_items_cons, !length_app, entry_items_length in Hc.
    cbn in Hc. lia.
  - apply (insert_merge d es1 (k, vs) es2 (v, ws) es3); [eapply Hweak; [done|lia]|done|by left|done|done].
  - apply (insert_merge d es1 (v, ws) es2 (k, vs) es3); [eapply Hweak; [done|lia]|done|by right|done|done].
  - exists d. split; [by eapply insert_value|]. eapply Hweak; [done|lia].
Qed.
(** ** Insertion at an earlier key *)

(** Up to eight bytes are moved: the pointers stay where they are. *)
Lemma move_bytes_pointers n x (l : list (dnode K)) :
  (n <= 8)%nat → kvd <$> move_bytes n x l = kvd <$> l.
Proof.
  intros Hn. destruct l as [|y l]; [done|]. cbn [move_bytes].
  destruct (n =? 0)%nat; [done|]. cbn [fmap list_fmap]. f_equal.
  - unfold overlay, sizeof_dnode. cbn [kvd]. by rewrite (proj2 (Nat.leb_le _ _)) by lia.
  - unfold sizeof_dnode. replace (n - 16)%nat with 0%nat by lia. by destruct l.
Qed.

Lemma store_pointers (l l' : list (dnode K)) i x : store l i x = Ok l' → kvd <$> l' = <[i := kvd x]> (kvd <$> l).
Proof. unfold store. case_decide; [|done]. intros [= <-]. by rewrite list_fmap_insert. Qed.

(** C23: when a value is inserted for a key that is not the last one and at most
    eight items follow, the number of items is taken as a number of bytes: the next
    key is overwritten by the value and can no longer be found. *)
Theorem later_key_lost d es1 k vs k2 vs2 es2 v :
  let es := es1 ++ (k, vs) :: (k2, vs2) :: es2 in
  dict_repr d es 1 → dict_ok es → v ∉ pointers es → unique_for (k, vs) v →
  (length (all_items ((k2, vs2) :: es2)) <= 8)%nat → k2 ∉ kvd <$> drop (dcount d) (items d) →
  ∃ d', ay_dnode_insert equal d k v = Ok d' ∧ ay_dnode_find d' k2 = None.
Proof.
  intros es Hd Hok Hv Hu Hfew Hfree.
  set (behind := all_items ((k2, vs2) :: es2)) in *.
  set (front := all_items es1 ++ entry_items (k, vs)).
  assert (all_items es = front ++ behind) as He.
  { unfold es. rewrite all_items_app, all_items_cons. unfold front. by rewrite <- app_assoc. }
  pose proof Hd as (rest & Hi & Hc & Hr).
  assert (dcount d = length front + length behind)%nat as Hcnt by (rewrite Hc, He; apply length_app).
  assert (length front = length (all_items es1) + length vs + 1)%nat as Hgap.
  { unfold front. rewrite length_app, entry_items_length. cbn. lia. }
  assert (∃ l, behind = DNode (Z.of_nat (length vs2)) k2 :: l) as [l Hb] by (by eexists).
  assert (1 <= length behind)%nat as Hpos by (rewrite Hb; cbn; lia).
  unfold ay_dnode_insert.
  rewrite (find_None _ _ _ _ Hd Hv), (find_key _ _ _ _ _ _ Hd Hok), (insert_at_key _ _ _ _ _ _ _ Hd Hok Hu), bind_Ok.
  assert ((if false then Ok true : res bool
           else match equal with Some _ | None => Ok false end) = Ok false) as -> by (by destruct equal).
  rewrite !bind_Ok, (fetch_key _ _ _ _ _ _ Hd), bind_Ok. cbn [values_count]. rewrite Nat2Z.id, <- Hgap.
  rewrite nat_sub_Ok, bind_Ok by lia. replace (dcount d - length front)%nat with (length behind) by lia.
  rewrite (proj2 (Nat.eqb_neq _ _)) by lia.
  assert (length (items d) = length front + length behind + length rest)%nat as Hlen
    by (by rewrite Hi, He, !length_app).
  assert (fetch (items d) (length front) = Ok (DNode (Z.of_nat (length vs2)) k2)) as Hf.
  { apply fetch_Some. rewrite Hi, He, Hb, <- app_assoc. cbn [app]. by apply list_lookup_middle. }
  unfold memmove_gap. rewrite Hf, bind_Ok. rewrite decide_True by (unfold sizeof_dnode; lia).
  rewrite bind_Ok. set (l1 := take _ _ ++ _).
  assert (kvd <$> l1 = kvd <$> items d) as Hl1.
  { unfold l1. rewrite fmap_app, move_bytes_pointers by lia. by rewrite <- fmap_app, take_drop. }
  assert (length l1 = length (items d)) as Hn1 by (by rewrite <- (length_fmap kvd), Hl1, length_fmap).
  rewrite store_Ok, bind_Ok by lia. rewrite store_Ok, bind_Ok by (rewrite length_insert; lia).
  eexists. split; [done|]. unfold ay_dnode_find.
  match goal with |- fst <$> ?x = None => destruct x as [[i x']|] eqn:E; [exfalso|done] end.
  apply list_find_Some in E as (Hx & Hk & _). unfold used in Hx. cbn [items dcount] in Hx.
  apply lookup_take_Some in Hx as [Hx _].
  assert ((kvd <$> items d) !! length (all_items es1) = Some k) as Hkk.
  { rewrite list_lookup_fmap. destruct (fetch_Ok (items d) (length (all_items es1)) (DNode (Z.of_nat (length vs)) k)) as [Hg _].
    rewrite Hg; [done|]. by rewrite (fetch_key _ _ _ _ _ _ Hd). }
  apply (f_equal (fmap kvd)) in Hx. rewrite <- list_lookup_fmap, !list_fmap_insert, Hl1 in Hx.
  cbn [add_values kvd fmap option_fmap option_map] in Hx. rewrite Hk in Hx.
  rewrite list_insert_id in Hx by (rewrite list_lookup_insert_ne by lia; exact Hkk).
  assert (kvd <$> items d = (kvd <$> front) ++ k2 :: (kvd <$> l ++ rest)) as HP.
  { rewrite Hi, He, Hb, <- app_assoc, fmap_app. done. }
  rewrite HP, (insert_app_mid _ _ _ _ (length front)) in Hx by (by rewrite length_fmap).
  apply list_elem_of_lookup_2 in Hx.
  assert (kvd <$> all_items es = (kvd <$> front) ++ k2 :: (kvd <$> l)) as HQ by (by rewrite He, fmap_app, Hb).
  rewrite kvd_all in HQ. destruct Hok as [Hnd _]. rewrite HQ in Hnd, Hv.
  apply NoDup_app in Hnd as (_ & Hdisj & Hnd). apply NoDup_cons in Hnd as [Hk2 _].
  rewrite Hi, Hc, drop_app_length in Hfree. rewrite fmap_app in Hx.
  apply elem_of_app in Hx as [Hx|Hx]; [by apply (Hdisj k2 Hx), list_elem_of_here|].
  apply elem_of_cons in Hx as [Hx|Hx]; [subst v; apply Hv, elem_of_app; right; apply list_elem_of_here|].
  by apply elem_of_app in Hx as [Hx|Hx].
Qed.
End dict.

(** ** Witnesses *)

(** A dictionary with room for four more items. *)
Definition dict_of (es : list (option nat * list (option nat))) : dict nat :=
  Dict (all_items es ++ repeat (DNode 0 None) 4) (length (all_items es)).

Lemma dict_of_repr es n : (n <= 4)%nat → dict_repr (dict_of es) es n.
Proof. intros Hn. exists (repeat (DNode 0 None) 4). by split_and!. Qed.

Definition example_dict : list (option nat * list (option nat)) :=
  [(Some 1, [Some 2; Some 3]); (Some 4, [Some 5])].

Lemma example_dict_ok : dict_ok example_dict.
Proof. split; [apply (bool_decide_unpack _); vm_compute; exact I|by repeat constructor]. Qed.

Theorem dnode_insert_refines_witness :
  ∃ d', ay_dnode_insert (H := λ _ p _, p) None (dict_of example_dict) (Some 1) (Some 4) = Ok d' ∧
    dict_repr d' [(Some 1, [Some 2; Some 3; Some 4; Some 5])] 2.
Proof.
  apply (dnode_insert_refines (H := λ _ p _, p) None (dict_of example_dict) example_dict).
  - apply (Inserted_merge_behind None [] (Some 1) [Some 2; Some 3] [] (Some 4) [Some 5] []). exact I.
  - apply dict_of_repr. lia.
  - apply example_dict_ok.
  - done.
Defined.

Theorem later_key_lost_witness :
  ∃ d', ay_dnode_insert (H := λ _ p _, p) None (dict_of example_dict) (Some 1) (Some 6) = Ok d' ∧
    ay_dnode_find d' (Some 4) = None.
Proof.
  apply (later_key_lost (H := λ _ p _, p) None (dict_of example_dict) [] (Some 1) [Some 2; Some 3] (Some 4) [Some 5] []).
  - apply dict_of_repr. lia.
  - apply example_dict_ok.
  - apply (bool_decide_unpack _). vm_compute. exact I.
  - exact I.
  - cbn. lia.
  - apply (bool_decide_unpack _). vm_compute. exact I.
Defined.
