(* ===== verification/TransBase.v ===== *)
(** What the transformations of [src/augyang.c] share: reading and assigning
    members of the node at an index, loops over the array while it changes, and
    loops over siblings. *)
From S2P Require Import Prelude CString Common ParseRegex Preorder Lnode Ynode Forest YnodeQuery YnodeRules YnodeMandatory.

(** ** Lenses *)

(** Pointers of libaugeas that the code compares: [lens->regexp] and
    [lens->body], which are members of one union. *)
Class LensPointers := { lens_regexp : lens → nat; lens_body : lens → nat }.

Definition same_regexp `{LensPointers} (l l' : lens) : bool :=
  bool_decide (lens_regexp l = lens_regexp l').
Definition same_body `{LensPointers} (l l' : lens) : bool :=
  bool_decide (lens_body l = lens_body l').

(** The lenses of two lnodes are at the same address; both exist. *)
Definition lens_is (lm : list lnode) (i j : option nat) : res bool := same_lens lm i j.

(** ** Members *)

Definition dget (s : ytree) (i : nat) : res ydata := n ← fetch (mem s) i; Ok (data n).
Definition next_of (s : ytree) (i : nat) : res (option nat) := n ← fetch (mem s) i; Ok (next n).
Definition child_of (s : ytree) (i : nat) : res (option nat) := n ← fetch (mem s) i; Ok (child n).
Definition parent_of (s : ytree) (i : nat) : res (option nat) := n ← fetch (mem s) i; Ok (parent n).
Definition size_of (s : ytree) (i : nat) : res nat := n ← fetch (mem s) i; Ok (below n).

(** [node->next->...], [node->child->...], [node->parent->...]. *)
Definition next_node (s : ytree) (i : nat) : res nat := o ← next_of s i; deref o.
Definition child_node (s : ytree) (i : nat) : res nat := o ← child_of s i; deref o.
Definition parent_node (s : ytree) (i : nat) : res nat := o ← parent_of s i; deref o.

Definition u16 (z : Z) : Z := z mod 2 ^ 16.

Definition with_snode (x : option nat) (d : ydata) : ydata :=
  YData (type d) x (label d) (value d) (choice d) (ident d) (ref d) (id d) (flags d)
    (min_elems d) (when_ref d) (when_val d).
Definition with_label (x : option nat) (d : ydata) : ydata :=
  YData (type d) (snode d) x (value d) (choice d) (ident d) (ref d) (id d) (flags d)
    (min_elems d) (when_ref d) (when_val d).
Definition with_value (x : option nat) (d : ydata) : ydata :=
  YData (type d) (snode d) (label d) x (choice d) (ident d) (ref d) (id d) (flags d)
    (min_elems d) (when_ref d) (when_val d).
Definition with_ident (x : option cstr) (d : ydata) : ydata :=
  YData (type d) (snode d) (label d) (value d) (choice d) x (ref d) (id d) (flags d)
    (min_elems d) (when_ref d) (when_val d).
Definition with_ref (x : Z) (d : ydata) : ydata :=
  YData (type d) (snode d) (label d) (value d) (choice d) (ident d) x (id d) (flags d)
    (min_elems d) (when_ref d) (when_val d).
(** [when_ref] and [when_val] together. *)
Definition with_when (x : Z) (v : option nat) (d : ydata) : ydata :=
  YData (type d) (snode d) (label d) (value d) (choice d) (ident d) (ref d) (id d) (flags d)
    (min_elems d) x v.

Definition AY_VALUE_IN_CHOICE : Z := 0x020.
Definition AY_GROUPING_CHILDREN : Z := 0x040.
Definition AY_GROUPING_REDUCTION : Z := 0x100.
Definition AY_GROUPING_CHOICE : Z := 0x2000.

(** [AY_YNODE_ROOT_LTREE]: the first lnode. *)
Definition ROOT_LTREE : option nat := Some 0.

(** ** Loops *)

Section loops.
Context {St : Type} (tree : St → ytree).

(** [for (i = i; i < LY_ARRAY_COUNT(tree); i++)]; the body may change the array
    and gives [i] before the increment. *)
Fixpoint sweep (fuel : nat) (body : St → nat → res (St * nat)) (i : nat) (s : St) : res St :=
  if (count (tree s) <=? i)%nat then Ok s
  else
    match fuel with
    | 0 => Fault OutOfFuel
    | S fuel' => '(s', i') ← body s i; sweep fuel' body (S i') s'
    end.

(** [for (iter = iter; iter; iter = iter->next)]; the body gives the node whose
    [next] is followed, or ends the loop. *)
Fixpoint walk (fuel : nat) (body : St → nat → res (St * option nat)) (iter : option nat) (s : St)
  : res St :=
  match iter with
  | None => Ok s
  | Some i =>
      match fuel with
      | 0 => Fault OutOfFuel
      | S fuel' =>
          '(s', it) ← body s i;
          match it with
          | None => Ok s'
          | Some j => nx ← next_of (tree s') j; walk fuel' body nx s'
          end
      end
  end.

(** [for (j = 0; j < n; j++)]. *)
Fixpoint times (n : nat) (body : St → res St) (s : St) : res St :=
  match n with
  | 0 => Ok s
  | S n' => s' ← body s; times n' body s'
  end.
End loops.

(** The loop runs while the number of nodes can grow up to the allocated size. *)
Definition sweep_tree (body : ytree → nat → res (ytree * nat)) (s : ytree) : res ytree :=
  sweep (λ s, s) (2 * length (mem s)) body 1 s.

(** The same when the body does not change [i]. *)
Definition sweep_nodes (body : ytree → nat → res ytree) (s : ytree) : res ytree :=
  sweep_tree (λ s i, s' ← body s i; Ok (s', i)) s.

Definition walk_tree (body : ytree → nat → res (ytree * option nat)) (iter : option nat) (s : ytree)
  : res ytree :=
  walk (λ s, s) (length (mem s)) body iter s.

(** The siblings from [iter] on whose choice is [c]. *)
Definition walk_choice (c : option nat) (f : ydata → ydata) (iter : option nat) (s : ytree) : res ytree :=
  walk_tree (λ s i, d ← dget s i;
    if bool_decide (choice d = c) then s' ← on_node s i f; Ok (s', Some i) else Ok (s, None)) iter s.

(** All siblings from [iter] on. *)
Definition walk_all (f : ydata → ydata) (iter : option nat) (s : ytree) : res ytree :=
  walk_tree (λ s i, s' ← on_node s i f; Ok (s', Some i)) iter s.
