(* ===== verification/TransChoice.v ===== *)
(** The transformations of [src/augyang.c] up to the choice branches: types,
    build patterns, dictionaries of labels and values, nodes with several keys,
    YN_CASE nodes and the deletion of equal branches. *)
From S2P Require Import Prelude CString Common ParseRegex Preorder Lnode Ynode Forest YnodeQuery YnodeRules YnodeMandatory Dnode TransBase.

Abbreviation ldict := (dict nat) (only parsing).

Section choices.
Context `{PointerBytes nat} (lm : list lnode).

(** ** Types *)

Definition set_type_node (s : ytree) (i : nat) : res ytree :=
  d ← dget s i;
  if bool_decide (snode d = None) then
    _ ← c_assert (bool_decide (type d ≠ YN_UNKNOWN)); Ok s
  else if bool_decide (type d = YN_REC) || bool_decide (type d = YN_LIST) then Ok s
  else
    l ← ay_ynode_rule_list lm (mem s) i;
    ll ← (if (l : bool) then Ok true else ay_ynode_rule_leaflist lm (mem s) i);
    if (ll : bool) then on_node s i (with_type YN_LIST)
    else
      c ← ay_ynode_rule_container lm (mem s) i;
      if (c : bool) then on_node s i (with_type YN_CONTAINER)
      else
        f ← ay_ynode_rule_leaf (mem s) i;
        if (f : bool) then on_node s i (with_type YN_LEAF) else Ok s.

Definition ay_ynode_set_type (s : ytree) : res ytree := sweep_nodes set_type_node s.

(** ** Build patterns *)

(** The nodes from [it1] up to [node2] and those from [it2] on match: the place
    of [it1] at the end and the number of matches. *)
Fixpoint build_group (fuel : nat) (m : list ynode) (it1 it2 : option nat) (node2 cnt : nat)
  : res (option nat * nat) :=
  match it2 with
  | None => Ok (it1, cnt)
  | Some j =>
      if bool_decide (it1 = Some node2) then Ok (it1, cnt)
      else
        match fuel with
        | 0 => Fault OutOfFuel
        | S fuel' =>
            i ← deref it1;
            b ← ay_ynode_build_list_match lm m i j true;
            if (b : bool) then
              n1 ← fetch m i;
              n2 ← fetch m j;
              build_group fuel' m (next n1) (next n2) node2 (S cnt)
            else Ok (it1, cnt)
        end
  end.

(** The first [node2] behind [node1] that repeats the nodes between them. *)
Fixpoint find_build (fuel : nat) (m : list ynode) (node1 : nat) (node2 : option nat)
  : res (option (nat * nat)) :=
  match node2 with
  | None => Ok None
  | Some j =>
      match fuel with
      | 0 => Fault OutOfFuel
      | S fuel' =>
          n2 ← fetch m j;
          b ← ay_ynode_build_list_match lm m node1 j true;
          if negb b then find_build fuel' m node1 (next n2)
          else
            n1 ← fetch m node1;
            '(it1, cnt) ← build_group (length m) m (next n1) (next n2) j 1;
            if bool_decide (it1 = Some j) then Ok (Some (j, cnt))
            else find_build fuel' m node1 (next n2)
      end
  end.

(** The minimal number of elements of the group at [it2]. *)
Fixpoint build_min_elems (cnt : nat) (s : ytree) (it1 it2 : option nat) : res ytree :=
  match cnt with
  | 0 => Ok s
  | S cnt' =>
      i ← deref it1;
      j ← deref it2;
      b ← ay_ynode_build_list_match lm (mem s) i j true;
      d ← dget s i;
      s' ← (if (b : bool) && bool_decide (type d ≠ YN_LIST)
            then on_node s j (λ e, with_min_elems (u16 (min_elems e + 1)) e) else Ok s);
      n1 ← next_of s' i;
      n2 ← next_of s' j;
      build_min_elems cnt' s' n1 n2
  end.

Fixpoint prev_times (n : nat) (m : list ynode) (p : nat) : res nat :=
  match n with
  | 0 => Ok p
  | S n' => o ← ay_ynode_get_prev m p; q ← deref o; prev_times n' m q
  end.

(** One node of the array; [i] is a 64-bit index that can wrap around. *)
Definition build_step (reverse : bool) (s : ytree) (i : Z) : res (ytree * Z) :=
  let node1 := Z.to_nat i in
  n1 ← fetch (mem s) node1;
  skip ← (if bool_decide (type (data n1) = YN_REC)
          then _ ← c_assert (bool_decide (is_Some (snode (data n1)))); Ok false
          else Ok (bool_decide (label (data n1) = None) || bool_decide (snode (data n1) = None)));
  if (skip : bool) then Ok (s, i)
  else
    f ← find_build (length (mem s)) (mem s) node1 (next n1);
    match f with
    | None => Ok (s, i)
    | Some (node2, cnt) =>
        s1 ← build_min_elems cnt s (Some node1) (Some node2);
        prev1 ← ay_ynode_get_prev (mem s1) node1;
        prev2 ← ay_ynode_get_prev (mem s1) node2;
        i1 ← (match prev1 with
              | Some p1 =>
                  p2 ← deref prev2;
                  b ← ay_ynode_build_list_match lm (mem s1) p1 p2 false;
                  if (b : bool) then p ← prev_times (cnt - 1) (mem s1) p1; Ok (Z.of_nat p) else Ok i
              | None => Ok i
              end);
        if reverse then
          p2 ← deref prev2;
          '(s2, i2) ← times cnt (λ st,
             let '(s', i') := st in
             sz ← size_of s' p2;
             s'' ← ay_ynode_delete_subtree s' p2;
             Ok (s'', u64 (i' - (Z.of_nat sz + 1)))) (s1, i1);
          s3 ← ay_ynode_siblings_reverse s2;
          Ok (s3, i2)
        else
          s2 ← times cnt (λ s', ay_ynode_delete_subtree s' node1) s1;
          Ok (s2, u64 (i1 - 1))
    end.

Fixpoint build_sweep (fuel : nat) (reverse : bool) (i : Z) (s : ytree) : res ytree :=
  if (Z.of_nat (count s) <=? i)%Z then Ok s
  else
    match fuel with
    | 0 => Fault OutOfFuel
    | S fuel' => '(s', i') ← build_step reverse s i; build_sweep fuel' reverse (u64 (i' + 1)) s'
    end.

(** Every detected pattern deletes a node, and starts again at most at the
    beginning. *)
Definition ay_ynode_delete_build_list_ (s : ytree) (reverse : bool) : res ytree :=
  build_sweep (S (count s) * S (count s)) reverse 1 s.

Definition ay_ynode_delete_build_list (s : ytree) : res ytree :=
  s1 ← ay_ynode_delete_build_list_ s false;
  s2 ← ay_ynode_siblings_reverse s1;
  s3 ← ay_ynode_delete_build_list_ s2 true;
  ay_ynode_siblings_reverse_back s3.

(** ** Choices of siblings *)

(** Whether the lens of [ch] is that of an ancestor of [ln], itself included. *)
Definition choice_above (ln : option nat) (ch : nat) : res bool :=
  c ← fetch lm ch;
  r ← climb (length lm) lm ln (λ _ it,
        if (lens_id (lens_of (data it)) =? lens_id (lens_of (data c)))%nat then Some tt else None);
  Ok (bool_decide (is_Some r)).

Definition unite_pair (s : ytree) (nd : nat) : res (ytree * option nat) :=
  n ← fetch (mem s) nd;
  match next n with
  | None => Ok (s, None)
  | Some nx =>
      dn ← dget s nx;
      match choice (data n), choice dn with
      | Some c1, Some c2 =>
          par ← parent_node s nd;
          pd ← dget s par;
          let has_snode := bool_decide (is_Some (snode pd)) in
          b ← (if has_snode then choice_above (Some c1) c2 else Ok false);
          s1 ← (if (b : bool) then
                  first ← ay_ynode_get_first_in_choice (mem s) (Some par) (Some c1);
                  walk_choice (Some c1) (with_choice (Some c2)) first s
                else Ok s);
          d1 ← dget s1 nd;
          dn1 ← dget s1 nx;
          c1' ← deref (choice d1);
          c2' ← deref (choice dn1);
          b' ← (if has_snode then choice_above (Some c2') c1' else Ok false);
          s2 ← (if (b' : bool) then walk_choice (Some c2') (with_choice (Some c1')) (Some nx) s1
                else Ok s1);
          Ok (s2, Some nd)
      | _, _ => Ok (s, Some nd)
      end
  end.

Definition unite_siblings (s : ytree) (i : nat) : res ytree :=
  n ← fetch (mem s) i;
  match parent n with
  | None => Ok s
  | Some p =>
      c ← child_of s p;
      if bool_decide (c = Some i) then walk_tree unite_pair (Some i) s else Ok s
  end.

Definition ay_ynode_unite_choice (s : ytree) : res ytree := sweep_nodes unite_siblings s.

(** ** Dictionaries of labels and values *)

Definition ay_dnode_lnode_equal (i j : option nat) : res bool :=
  a ← deref i;
  b ← deref j;
  l1 ← lens_at lm (Some a);
  l2 ← lens_at lm (Some b);
  Ok (ay_lnode_lense_equal l1 l2).

Definition lnode_insert (d : ldict) (key value : option nat) : res ldict :=
  ay_dnode_insert (Some ay_dnode_lnode_equal) d key value.

(** [while ((next = ay_lnode_next_lv(next, ty)))]. *)
Fixpoint insert_next_lv (fuel : nat) (d : ldict) (key nx : option nat) (ty : lv_type) : res ldict :=
  o ← ay_lnode_next_lv lm nx ty;
  match o with
  | None => Ok d
  | Some _ =>
      match fuel with
      | 0 => Fault OutOfFuel
      | S fuel' => d' ← lnode_insert d key o; insert_next_lv fuel' d' key o ty
      end
  end.

Fixpoint set_lv_from (n i : nat) (m : list ynode) (labels values : ldict) : res (ldict * ldict) :=
  match n with
  | 0 => Ok (labels, values)
  | S n' =>
      nd ← fetch m i;
      labels' ← insert_next_lv (length lm) labels (label (data nd)) (label (data nd)) AY_LV_TYPE_LABEL;
      values' ← insert_next_lv (length lm) values (value (data nd)) (value (data nd)) AY_LV_TYPE_VALUE;
      set_lv_from n' (S i) m labels' values'
  end.

Definition ay_ynode_set_lv (s : ytree) (labels values : ldict) : res (ldict * ldict) :=
  set_lv_from (count s - 1) 1 (mem s) labels values.

(** ** The list of files *)

Definition ay_insert_list_files (s : ytree) : res ytree :=
  n ← fetch (mem s) 0;
  s1 ← (if negb (descendants n =? 0)%Z then ay_ynode_insert_parent s 1 else ay_ynode_insert_child s 0);
  on_node s1 1 (with_type YN_LIST).

(** ** Nodes with several keys *)

Definition label_keys (labels : ldict) (m : list ynode) (nd : ynode) : res Z :=
  if bool_decide (label (data nd) = None) || bool_decide (snode (data nd) = None) then Ok 0%Z
  else
    ks ← dict_keys labels;
    foldr (λ k r,
      x ← fetch (items labels) k;
      if bool_decide (kvd x = label (data nd))
      then Ok (u32 (descendants nd * values_count x + values_count x)) else r) (Ok 0%Z) ks.

Definition ay_ynode_rule_more_keys_for_node (labels : ldict) (s : ytree) : res Z :=
  if (dcount labels =? 0)%nat then Ok 0%Z
  else
    r ← sum_nodes u32 (count s) 0 (λ i, nd ← fetch (mem s) i; label_keys labels (mem s) nd) 0;
    _ ← c_assert (negb (r =? 0)%Z);
    Ok r.

(** The child of [ch] in whose subtree [nd] is. *)
Fixpoint branch_below (fuel : nat) (prev : nat) (iter : option nat) (ch : option nat) : res nat :=
  match iter with
  | None => Fault AssertFailed
  | Some i =>
      if bool_decide (iter = ch) then Ok prev
      else
        match fuel with
        | 0 => Fault OutOfFuel
        | S fuel' => n ← fetch lm i; branch_below fuel' i (parent n) ch
        end
  end.

Definition ay_lnode_choice_branch (nd : nat) (ch : option nat) : res nat :=
  n ← fetch lm nd; branch_below (length lm) nd (parent n) ch.

(** [sibl->next] [k] times. *)
Fixpoint next_times (k : nat) (s : ytree) (i : nat) : res nat :=
  match k with 0 => Ok i | S k' => j ← next_node s i; next_times k' s j end.

(** The labels of the new siblings; [first] is the index of the first one. *)
Fixpoint label_siblings (keys : list (dnode nat)) (ch : option nat) (first : nat) (s : ytree) : res ytree :=
  match keys with
  | [] => Ok s
  | key :: keys' =>
      s' ← on_node s first (λ d, with_choice ch (with_type YN_CONTAINER (with_label (kvd key) d)));
      label_siblings keys' ch (S first) s'
  end.

(** The child of [nd] for the lnode [it] moves to the [i]-th sibling. *)
Definition move_child (nd i : nat) (ch : option nat) (it : nat) (s : ytree) (c : nat)
  : res (ytree * option nat) :=
  d ← dget s c;
  if bool_decide (snode d ≠ Some it) then Ok (s, Some c)
  else
    nx ← next_node s nd;
    sibl ← next_times (i - 1) s nx;
    d' ← ay_ynode_reset_choice lm d ch;
    s1 ← on_node s c (λ _, d');
    s2 ← ay_ynode_move_subtree_as_last_child s1 sibl c;
    Ok (s2, None).

(** The lnodes of a branch, [n] of them from [j] on. *)
Fixpoint move_children (n j nd i : nat) (ch : option nat) (s : ytree) : res ytree :=
  match n with
  | 0 => Ok s
  | S n' =>
      it ← fetch lm j;
      s' ← (if bool_decide (ltag it ≠ L_SUBTREE) then Ok s
            else c ← child_of s nd; walk_tree (move_child nd i ch j) c s);
      move_children n' (S j) nd i ch s'
  end.

Fixpoint move_branches (keys : list (dnode nat)) (lkey : option nat) (nd i : nat) (ch : option nat)
    (s : ytree) : res ytree :=
  match keys with
  | [] => Ok s
  | key :: keys' =>
      cc ← ay_ynode_common_choice lm lkey (kvd key) ch;
      _ ← c_assert (bool_decide (cc = ch));
      lval ← deref (kvd key);
      br ← ay_lnode_choice_branch lval ch;
      bn ← fetch lm br;
      s' ← move_children (S (below bn)) br nd i ch s;
      move_branches keys' lkey nd (S i) ch s'
  end.

(** The copies of [c] in [n] siblings from [sibl] on. *)
Fixpoint copy_to_siblings (n : nat) (sibl : option nat) (c : nat) (s : ytree) : res ytree :=
  match n with
  | 0 => Ok s
  | S n' =>
      j ← deref sibl;
      s' ← ay_ynode_copy_subtree_as_last_child s j c;
      nx ← next_of s' j;
      copy_to_siblings n' nx c s'
  end.

(** [keys] are the key and its values. *)
Definition ay_ynode_more_keys_for_node_insert_nodes (s : ytree) (keys : list (dnode nat)) (nd : nat)
    (ch : option nat) : res ytree :=
  match keys with
  | [] => Ok s
  | main_key :: values =>
      let n := length values in
      s1 ← times n (λ s', ay_ynode_insert_sibling s' nd) s;
      s2 ← on_node s1 nd (λ d, if bool_decide (choice d = None) then with_choice ch d else d);
      d ← dget s2 nd;
      first ← (if (n =? 0)%nat then Ok nd else next_node s2 nd);
      s3 ← label_siblings values (choice d) first s2;
      s4 ← move_branches values (kvd main_key) nd 1 ch s3;
      c ← child_of s4 nd;
      walk_tree (λ s' c,
        dc ← dget s' c;
        if bool_decide (choice dc = ch) then Ok (s', Some c)
        else nx ← next_of s' nd; s'' ← copy_to_siblings n nx c s'; Ok (s'', Some c)) c s4
  end.

(** The first node whose label is [key]. *)
Definition node_of_label (s : ytree) (key : option nat) : option nat :=
  fst <$> list_find (λ n, label (data n) = key) (take (count s) (mem s)).

Definition key_choice (key : option nat) : res nat :=
  k ← deref key;
  kn ← fetch lm k;
  r ← climb (length lm) lm (parent kn) (λ i it,
        if bool_decide (ltag it = L_SUBTREE) then Some None
        else if bool_decide (ltag it = L_UNION) then Some (Some i) else None);
  match r with Some (Some c) => Ok c | _ => Fault AssertFailed end.

Definition more_keys_step (labels : ldict) (s : ytree) (k : nat) : res ytree :=
  keys ← keyval labels k;
  key ← fetch (items labels) k;
  let nd := node_of_label s (kvd key) in
  _ ← c_assert (bool_decide (is_Some nd));
  j ← deref nd;
  d ← dget s j;
  _ ← c_assert (bool_decide (is_Some (snode d)));
  sn ← deref (snode d);
  snl ← fetch lm sn;
  lab ← deref (label d);
  _ ← c_assert (bool_decide (ltag snl = L_SUBTREE) && (sn <? lab)%nat);
  ch ← key_choice (kvd key);
  ay_ynode_more_keys_for_node_insert_nodes s keys j (Some ch).

Definition ay_ynode_more_keys_for_node (labels : ldict) (s : ytree) : res ytree :=
  if (dcount labels =? 0)%nat then Ok s
  else
    ks ← dict_keys labels;
    foldl (λ r k, s' ← r; more_keys_step labels s' k) (Ok s) ks.
End choices.
