(* ===== verification/TransCase.v ===== *)
(** The transformations of choices: YN_CASE nodes, the deletion of equal branches
    and useless choices, and the merging of branches with the same label. *)
From S2P Require Import Prelude CString Common ParseRegex Preorder Lnode Ynode Forest YnodeQuery YnodeRules YnodeMandatory Dnode TransBase TransChoice.

Section cases.
Context `{PointerBytes nat} (lm : list lnode).

(** ** YN_CASE nodes *)

(** How many subtrees behind [first] go to the same case. *)
Fixpoint case_members (fuel : nat) (m : list ynode) (first : nat) (iter : option nat) (cnt : nat)
  : res nat :=
  match iter with
  | None => Ok cnt
  | Some j =>
      match fuel with
      | 0 => Fault OutOfFuel
      | S fuel' =>
          b ← ay_ynode_insert_case_prerequisite m (Some first) (Some j);
          if negb b then Ok cnt
          else
            f ← fetch m first;
            n ← fetch m j;
            cc ← ay_ynode_common_choice lm (snode (data f)) (snode (data n)) (choice (data f));
            con ← ay_ynode_common_concat lm m first j cc;
            if bool_decide (con = None) then Ok cnt
            else case_members fuel' m first (next n) (S cnt)
      end
  end.

(** Sets [type] and [choice] of the new node [cas] and clears that of its child. *)
Definition make_case (s : ytree) (cas : nat) : res ytree :=
  c ← child_node s cas;
  d ← dget s c;
  s1 ← on_node s cas (λ e, with_choice (choice d) (with_type YN_CASE e));
  on_node s1 c (with_choice None).

(** The nodes in front of [cas] that must be copied into it: only [ref] is set. *)
Fixpoint mark_copies (fuel : nat) (s : ytree) (cas : nat) (iter : option nat) : res ytree :=
  match iter with
  | None => Ok s
  | Some j =>
      match fuel with
      | 0 => Fault OutOfFuel
      | S fuel' =>
          dc ← dget s cas;
          c ← child_node s cas;
          f ← dget s c;
          n ← dget s j;
          cc ← ay_ynode_common_choice lm (snode f) (snode n) (choice dc);
          stop ← (if bool_decide (choice f = cc) then Ok true
                  else
                    c' ← next_node s c;
                    con ← ay_ynode_common_concat lm (mem s) c' j (choice dc);
                    Ok (bool_decide (con = None)));
          if (stop : bool) then Ok s
          else
            s1 ← on_node s j (with_ref (id dc));
            s2 ← on_node s1 0 (with_ref 1);
            prev ← ay_ynode_get_prev (mem s2) j;
            mark_copies fuel' s2 cas prev
      end
  end.

Definition insert_case_step (s : ytree) (i : nat) : res (ytree * nat) :=
  n ← fetch (mem s) i;
  _ ← c_assert (ref (data n) =? 0)%Z;
  cnt ← case_members (length (mem s)) (mem s) i (next n) 0;
  if (cnt =? 0)%nat then Ok (s, i)
  else
    s1 ← ay_ynode_insert_wrapper s i;
    s2 ← make_case s1 i;
    s3 ← times cnt (λ s', nx ← next_node s' i; ay_ynode_move_subtree_as_last_child s' i nx) s2;
    dc ← dget s3 i;
    c ← child_node s3 i;
    rest ← next_of s3 c;
    s4 ← walk_tree (λ s' j,
           d ← dget s' j;
           d' ← ay_ynode_reset_choice lm d (choice dc);
           s'' ← on_node s' j (λ _, d');
           Ok (s'', Some j)) rest s3;
    s5 ← walk_tree (λ s' j,
           a ← ay_ynode_alone_in_choice (mem s') j;
           s'' ← (if (a : bool) then on_node s' j (with_choice None) else Ok s');
           Ok (s'', Some j)) rest s4;
    alone ← ay_ynode_alone_in_choice (mem s5) i;
    useless ← (if (alone : bool) then
                 p ← parent_node s5 i;
                 dp ← dget s5 p;
                 u ← ay_lnode_has_attribute lm (value dp) L_UNION;
                 dc' ← dget s5 i;
                 Ok (bool_decide (u ≠ choice dc'))
               else Ok false);
    if (useless : bool) then '(s6, _) ← ay_ynode_delete_node s5 i; Ok (s6, i)
    else
      prev ← ay_ynode_get_prev (mem s5) i;
      s6 ← mark_copies (length (mem s5)) s5 i prev;
      Ok (s6, S i).

Definition ay_ynode_insert_case (s : ytree) : res ytree :=
  r ← dget s 0;
  _ ← c_assert (ref r =? 0)%Z;
  sweep_tree insert_case_step s.

(** The sibling behind [iter] with the identifier [i]. *)
Definition sibling_by_id (s : ytree) (iter : option nat) (i : Z) : res (option nat) :=
  over_siblings (length (mem s)) (mem s) iter
    (λ j n, Ok (if (id (data n) =? i)%Z then Some j else None)).

Definition copy_case_step (s : ytree) (i : nat) : res (ytree * nat) :=
  d ← dget s i;
  if (ref d =? 0)%Z then Ok (s, i)
  else
    s1 ← ay_ynode_insert_wrapper s i;
    s2 ← make_case s1 i;
    c ← child_node s2 i;
    dc ← dget s2 c;
    nx ← next_of s2 i;
    src ← sibling_by_id s2 nx (ref dc);
    _ ← c_assert (bool_decide (is_Some src));
    cas_src ← deref src;
    s3 ← on_node s2 c (with_ref 0);
    sc ← child_node s3 cas_src;
    first ← next_of s3 sc;
    _ ← c_assert (bool_decide (is_Some first));
    s4 ← walk_tree (λ s' j,
           sz ← size_of s' j;
           s'' ← ay_ynode_copy_subtree_as_last_child s' i j;
           Ok (s'', Some (j + S sz)%nat)) first s3;
    Ok (s4, i).

Definition ay_ynode_copy_case_nodes (s : ytree) : res ytree :=
  r ← dget s 0;
  _ ← c_assert (negb (ref r =? 0)%Z);
  s1 ← on_node s 0 (with_ref 0);
  sweep_tree copy_case_step s1.

(** ** Equal branches *)

Definition same_choice (s : ytree) (c : option nat) (i : nat) : res bool :=
  d ← dget s i; Ok (bool_decide (choice d = c)).

(** The inner loop, from [br2] on; [c] is the node whose choice is compared. *)
Definition delete_if_equal (c br1 : nat) (s : ytree) (br2 : nat) : res (ytree * option nat) :=
  dc ← dget s c;
  same ← same_choice s (choice dc) br2;
  if negb same then Ok (s, None)
  else
    b ← ay_ynode_subtree_equal lm (mem s) br1 br2 true false;
    if negb b then Ok (s, Some br2)
    else
      s1 ← ay_ynode_delete_subtree s br2;
      a ← ay_ynode_alone_in_choice (mem s1) br1;
      d1 ← dget s1 br1;
      s2 ← (if (a : bool) && bool_decide (type d1 = YN_CASE)
            then '(s', _) ← ay_ynode_delete_node s1 br1; Ok s' else Ok s1);
      Ok (s2, Some br2).

Definition equal_cases_node (s : ytree) (i : nat) : res ytree :=
  d ← dget s i;
  if bool_decide (choice d = None) then Ok s
  else
    walk_tree (λ s1 br1,
      di ← dget s1 i;
      same ← same_choice s1 (choice di) br1;
      if negb same then Ok (s1, None)
      else
        nx ← next_of s1 br1;
        s2 ← walk_tree (delete_if_equal i br1) nx s1;
        Ok (s2, Some br1)) (Some i) s.

Definition ay_ynode_delete_equal_cases (s : ytree) : res ytree := sweep_nodes equal_cases_node s.

(** ** Useless choices *)

Definition has_value_in (keys : list (dnode nat)) (v : option nat) : bool :=
  existsb (λ x, bool_decide (kvd x = v)) keys.

(** The loop over the branches of [chnode]: whether all of them can be deleted, and
    how many have been seen. *)
Fixpoint all_branches (fuel : nat) (m : list ynode) (chnode : nat) (target_id : Z)
    (keys : list (dnode nat)) (branch : option nat) (total : nat) : res (bool * nat) :=
  match branch with
  | None => Ok (true, total)
  | Some b =>
      match fuel with
      | 0 => Fault OutOfFuel
      | S fuel' =>
          cn ← fetch m chnode;
          bn ← fetch m b;
          if bool_decide (choice (data bn) ≠ choice (data cn)) then Ok (true, total)
          else
            eq ← (if (when_ref (data bn) =? target_id)%Z && bool_decide (is_Some (when_val (data bn)))
                  then ay_ynode_subtree_equal lm m chnode b true true else Ok false);
            if negb (eq && has_value_in keys (when_val (data bn))) then Ok (false, S total)
            else all_branches fuel' m chnode target_id keys (next bn) (S total)
      end
  end.

(** [iter] refers to the target and leads a choice. *)
Definition useless_at (s : ytree) (target it : nat) (keys : list (dnode nat)) : res ytree :=
  dt ← dget s target;
  n ← fetch (mem s) it;
  if negb (when_ref (data n) =? id dt)%Z || bool_decide (choice (data n) = None) then Ok s
  else
    first ← ay_ynode_get_first_in_choice (mem s) (parent n) (choice (data n));
    lead ← (if bool_decide (first = Some it) then
              match next n with
              | None => Ok false
              | Some j => same_choice s (choice (data n)) j
              end
            else Ok false);
    if negb lead then Ok s
    else
      '(del, total) ← all_branches (length (mem s)) (mem s) it (id dt) keys (Some it) 0;
      if negb del || negb (length keys =? total)%nat then Ok s
      else
        s1 ← times (total - 1) (λ s', nx ← next_node s' it; ay_ynode_delete_subtree s' nx) s;
        on_node s1 it (with_when 0 None).

(** [for (j = 0; j < target->parent->descendants; j++)]: the elements behind the
    target, which may be behind the subtree of its parent. *)
Fixpoint useless_from (fuel : nat) (s : ytree) (target j : nat) (keys : list (dnode nat)) : res ytree :=
  p ← parent_node s target;
  sz ← size_of s p;
  if (sz <=? j)%nat then Ok s
  else
    match fuel with
    | 0 => Fault OutOfFuel
    | S fuel' =>
        s' ← useless_at s target (target + j + 1) keys;
        useless_from fuel' s' target (S j) keys
    end.

Definition useless_choice_node (values : ldict) (s : ytree) (i : nat) : res ytree :=
  d ← dget s i;
  if negb (has_flag d AY_WHEN_TARGET) then Ok s
  else
    match ay_dnode_find values (value d) with
    | None => Ok s
    | Some k =>
        x ← fetch (items values) k;
        _ ← c_assert (AY_DNODE_IS_KEY x);
        keys ← keyval values k;
        _ ← c_assert (1 <? length keys)%nat;
        useless_from (length (mem s)) s i 0 keys
    end.

Definition ay_ynode_delete_useless_choice (values : ldict) (s : ytree) : res ytree :=
  sweep_nodes (useless_choice_node values) s.

(** ** Merging branches *)

(** [br->type == YN_CASE ? br->child : br]. *)
Definition case_first (s : ytree) (br : nat) : res nat :=
  d ← dget s br; if bool_decide (type d = YN_CASE) then child_node s br else Ok br.

Definition is_case (s : ytree) (i : nat) : res bool :=
  d ← dget s i; Ok (bool_decide (type d = YN_CASE)).

(** Whether the YN_CASE node was inserted. *)
Definition ay_ynode_case_insert (s : ytree) (ns : nat) (ch : option nat) : res (ytree * bool) :=
  d ← dget s ns;
  if bool_decide (type d = YN_CASE) then Ok (s, false)
  else
    let ch' := if bool_decide (ch = None) then ROOT_LTREE else ch in
    s1 ← (if bool_decide (ch = None) || bool_decide (choice d = None)
          then on_node s ns (add_flag AY_CHOICE_CREATED) else Ok s);
    nx ← next_of s1 ns;
    match nx with
    | Some _ =>
        s2 ← ay_ynode_insert_parent_for_rest s1 ns;
        c ← child_node s2 ns;
        dc ← dget s2 c;
        s3 ← on_node s2 ns (λ e, with_when (when_ref dc) (when_val dc)
               (with_type YN_CASE (add_flag AY_CHOICE_CREATED (with_choice ch' e))));
        s4 ← on_node s3 c (with_when 0 None);
        Ok (s4, true)
    | None => s2 ← on_node s1 ns (λ e, add_flag AY_CHOICE_CREATED (with_choice ch' e)); Ok (s2, false)
    end.

Definition ay_ynode_merge_cases_move_when (s : ytree) (br : nat) : res ytree :=
  first ← case_first s br;
  d ← dget s br;
  let set := with_when (when_ref d) (when_val d) in
  fc ← child_of s first;
  s1 ← (match fc with
        | Some c => if negb (when_ref d =? 0)%Z then on_node s c set else Ok s
        | None => Ok s
        end);
  s2 ← (if negb (when_ref d =? 0)%Z && bool_decide (type d = YN_CASE)
        then nx ← next_node s1 first; on_node s1 nx set else Ok s1);
  on_node s2 br (with_when 0 None).

(** [to->when_ref = first1->id], [to->when_val = from->value], and the target. *)
Definition refer (s : ytree) (first1 from : nat) (to : option nat) : res ytree :=
  t ← deref to;
  d1 ← dget s first1;
  d ← dget s from;
  s1 ← on_node s t (with_when (id d1) (value d));
  on_node s1 first1 (add_flag AY_WHEN_TARGET).

Definition ay_ynode_merge_cases_set_when (s : ytree) (br1 br2 : nat) : res ytree :=
  first1 ← case_first s br1;
  first2 ← case_first s br2;
  e1 ← dget s br1;
  e2 ← dget s br2;
  d1 ← dget s first1;
  d2 ← dget s first2;
  values_equal ← (if bool_decide (is_Some (value d1)) && bool_decide (is_Some (value d2))
                  then lnodes_equal lm (value d1) (value d2) else Ok false);
  if negb (when_ref e1 =? 0)%Z || negb (when_ref e2 =? 0)%Z then
    s1 ← ay_ynode_merge_cases_move_when s br1;
    ay_ynode_merge_cases_move_when s1 br2
  else if (values_equal : bool) then Ok s
  else
    let ok1 := bool_decide (is_Some (value d1)) && negb (has_flag d1 AY_VALUE_IN_CHOICE) in
    let ok2 := bool_decide (is_Some (value d2)) && negb (has_flag d2 AY_VALUE_IN_CHOICE) in
    c1 ← child_of s first1;
    c2 ← child_of s first2;
    s1 ← (if bool_decide (is_Some c1) && ok1 then refer s first1 first1 c1 else Ok s);
    s2 ← (if bool_decide (is_Some c2) && ok2 then refer s1 first1 first2 c2 else Ok s1);
    s3 ← (if bool_decide (type e1 = YN_CASE) && ok1
          then nx ← next_of s2 first1; refer s2 first1 first1 nx else Ok s2);
    if bool_decide (type e2 = YN_CASE) && ok2
    then nx ← next_of s3 first2; refer s3 first1 first2 nx else Ok s3.

Definition last_node (s : ytree) (iter : option nat) : res nat :=
  o ← ay_ynode_get_last (mem s) iter; deref o.

Definition ay_ynode_merge_nodes (s : ytree) (ns1 : nat) (ns2 : option nat) (merge_as_child : bool)
  : res ytree :=
  match ns2 with
  | None => Ok s
  | Some ns2 =>
      nx2 ← next_of s ns2;
      if merge_as_child then
        match nx2 with
        | Some _ =>
            s1 ← ay_ynode_insert_parent_for_rest s ns2;
            s2 ← ay_ynode_move_subtree_as_last_child s1 ns1 ns2;
            c ← child_of s2 ns1;
            last ← last_node s2 c;
            '(s3, _) ← ay_ynode_delete_node s2 last;
            on_node s3 last (λ d, if bool_decide (is_Some (choice d))
                                  then add_flag AY_CHOICE_MAND_FALSE d else d)
        | None =>
            s1 ← ay_ynode_move_subtree_as_last_child s ns1 ns2;
            s2 ← on_node s1 ns1 (add_flag AY_CHILDREN_MAND_FALSE);
            c ← child_of s2 ns1;
            last ← last_node s2 c;
            on_node s2 last (with_choice None)
        end
      else
        in1 ← ay_ynode_nodes_in_choice (mem s) ns1;
        in2 ← ay_ynode_nodes_in_choice (mem s) ns2;
        last ← last_node s (Some ns1);
        match in1, in2 with
        | true, true =>
            s1 ← ay_ynode_insert_parent_for_rest s ns2;
            s2 ← ay_ynode_move_subtree_as_sibling s1 last ns2;
            nx ← next_node s2 last;
            '(s3, _) ← ay_ynode_delete_node s2 nx;
            d1 ← dget s3 ns1;
            rest ← next_of s3 last;
            walk_all (λ d, add_flag AY_CHOICE_CREATED (with_choice (choice d1) d)) rest s3
        | true, false =>
            d1 ← dget s ns1;
            '(s1, _) ← ay_ynode_case_insert s ns2 (choice d1);
            ay_ynode_move_subtree_as_sibling s1 last ns2
        | false, true =>
            d2 ← dget s ns2;
            '(s1, ins) ← ay_ynode_case_insert s ns1 (choice d2);
            let ns2' := if (ins : bool) then S ns2 else ns2 in
            s2 ← ay_ynode_insert_parent_for_rest s1 ns2';
            s3 ← ay_ynode_move_subtree_as_sibling s2 ns1 ns2';
            nx ← next_node s3 ns1;
            '(s4, _) ← ay_ynode_delete_node s3 nx;
            Ok s4
        | false, false =>
            '(s1, ins) ← ay_ynode_case_insert s ns1 None;
            let ns2' := if (ins : bool) then S ns2 else ns2 in
            '(s2, _) ← ay_ynode_case_insert s1 ns2' None;
            p ← parent_node s2 ns1;
            ay_ynode_move_subtree_as_last_child s2 p ns2'
        end
  end.
End cases.
