(* ===== verification/TransMerge.v ===== *)
(** The merging of choice branches, [ay_ynode_merge_cases], and the conditions of
    nodes that depend on a value.  The state of the merging is the tree and the
    dictionary of values of its root. *)
From S2P Require Import Prelude CString Common ParseRegex Preorder Lnode Ynode Forest YnodeQuery YnodeRules YnodeMandatory Dnode TransBase TransChoice TransCase.

Section merge.
Context `{PointerBytes nat} (lm : list lnode).

Abbreviation mstate := (ytree * ldict)%type (only parsing).

(** Values that differ go to the dictionary. *)
Definition different_values (v1 v2 : option nat) : res bool :=
  match v1, v2 with
  | Some _, Some _ => b ← lnodes_equal lm v1 v2; Ok (negb b)
  | _, _ => Ok false
  end.

(** ** One pair of branches *)

(** The value of [first2] is merged into [first1]; [f] is for values that differ,
    [g1] when only [first1] has a value, [g2] when only [first2] has one. *)
Definition merge_values (st : mstate) (first1 first2 : nat) (f g1 g2 : ydata → ydata) : res mstate :=
  let '(s, values) := st in
  d1 ← dget s first1;
  d2 ← dget s first2;
  diff ← different_values (value d1) (value d2);
  if (diff : bool) then
    values' ← lnode_insert lm values (value d1) (value d2);
    s' ← on_node s first1 f;
    Ok (s', values')
  else
    match value d1, value d2 with
    | Some _, None => s' ← on_node s first1 g1; Ok (s', values)
    | None, Some v => s' ← on_node s first1 (λ d, g2 (with_value (Some v) d)); Ok (s', values)
    | _, _ => Ok (s, values)
    end.

Definition merge_inner (st : mstate) (first1 first2 : nat) : res mstate :=
  let '(s, _) := st in
  c1 ← child_of s first1;
  c2 ← child_of s first2;
  let mand_false := add_flag AY_CHILDREN_MAND_FALSE in
  let no_value := add_flag AY_VALUE_MAND_FALSE in
  let in_choice := add_flag AY_VALUE_IN_CHOICE in
  let mark (s : ytree) :=
    d1 ← dget s first1;
    c ← child_node s first1;
    if has_flag d1 AY_VALUE_IN_CHOICE then Ok s else on_node s c (add_flag AY_CHOICE_MAND_FALSE) in
  match c1, c2 with
  | Some _, None =>
      '(s1, values) ← merge_values st first1 first2 mand_false (λ d, mand_false (no_value d)) in_choice;
      s2 ← mark s1;
      Ok (s2, values)
  | None, Some ch2 =>
      '(s1, values) ← merge_values st first1 first2 mand_false in_choice (λ d, mand_false (no_value d));
      s2 ← on_node s1 first1 (λ d, with_type (if bool_decide (type d = YN_LIST) then YN_LIST else YN_CONTAINER) d);
      s3 ← ay_ynode_merge_nodes s2 first1 (Some ch2) true;
      s4 ← mark s3;
      Ok (s4, values)
  | _, _ =>
      '(s1, values) ← merge_values st first1 first2 (λ d, d) no_value no_value;
      match c1, c2 with
      | Some ch1, Some ch2 => s2 ← ay_ynode_merge_nodes s1 ch1 (Some ch2) false; Ok (s2, values)
      | _, _ => Ok (s1, values)
      end
  end.

(** The branch behind [br1] with the identifier [i]. *)
Definition find_branch (s : ytree) (br1 : nat) (i : Z) : res nat :=
  nx ← next_of s br1;
  o ← sibling_by_id s nx i;
  _ ← c_assert (bool_decide (is_Some o));
  deref o.

(** The nodes behind the first one of the branches. *)
Definition merge_rest (s : ytree) (br1 first1 br2 : nat) : res ytree :=
  e1 ← dget s br1;
  e2 ← dget s br2;
  first2 ← case_first s br2;
  if bool_decide (type e1 = YN_CASE) then
    if bool_decide (type e2 = YN_CASE) then
      n2 ← next_of s first2;
      if bool_decide (n2 = None) then Ok s
      else n1 ← next_node s first1; ay_ynode_merge_nodes s n1 n2 false
    else
      n1 ← next_node s first1;
      s1 ← on_node s br1 (add_flag AY_CHILDREN_MAND_FALSE);
      on_node s1 n1 (add_flag AY_CHOICE_MAND_FALSE)
  else if bool_decide (type e2 = YN_CASE) then
    s1 ← ay_ynode_insert_wrapper s br1;
    let br2' := S br2 in
    c ← child_node s1 br1;
    dc ← dget s1 c;
    s2 ← on_node s1 br1 (λ d, add_flag AY_CHOICE_CREATED (with_choice (choice dc)
           (add_flag AY_CHILDREN_MAND_FALSE (with_type YN_CASE d))));
    s3 ← on_node s2 c (with_choice None);
    c2 ← child_node s3 br2';
    n2 ← next_of s3 c2;
    s4 ← ay_ynode_merge_nodes s3 br1 n2 true;
    nx ← next_node s4 first1;
    on_node s4 nx (add_flag AY_CHOICE_MAND_FALSE)
  else Ok s.

Definition ay_ynode_merge_cases_ (st : mstate) (br1 br2 : nat) : res mstate :=
  let '(s, values) := st in
  e2 ← dget s br2;
  first1 ← case_first s br1;
  first2 ← case_first s br2;
  d2 ← dget s first2;
  s1 ← on_node s first1 (λ d, with_min_elems (Z.min (min_elems d) (min_elems d2))
         (add_flag AY_HINT_MAND_TRUE (add_flag (flags d2) d)));
  s2 ← ay_ynode_merge_cases_set_when lm s1 br1 br2;
  '(s3, values') ← merge_inner (s2, values) first1 first2;
  b2 ← find_branch s3 br1 (id e2);
  s4 ← merge_rest s3 br1 first1 b2;
  b2' ← find_branch s4 br1 (id e2);
  s5 ← ay_ynode_delete_subtree s4 b2';
  Ok (s5, values').

(** ** Branches that differ little *)

(** The siblings from [st1] and [st2] on are equal and as many. *)
Fixpoint siblings_equal (fuel : nat) (m : list ynode) (st1 st2 : option nat) : res bool :=
  match st1, st2 with
  | Some i, Some j =>
      match fuel with
      | 0 => Fault OutOfFuel
      | S fuel' =>
          b ← ay_ynode_subtree_equal lm m i j true false;
          if (b : bool) then
            n1 ← fetch m i;
            n2 ← fetch m j;
            siblings_equal fuel' m (next n1) (next n2)
          else Ok false
      end
  | None, None => Ok true
  | _, _ => Ok false
  end.

(** Whether the second branch can be deleted. *)
Definition ay_ynode_merge_cases_only_by_value (st : mstate) (br1 br2 : nat) : res (mstate * bool) :=
  let '(s, values) := st in
  e1 ← dget s br1;
  e2 ← dget s br2;
  if negb (bool_decide (type e1 = YN_CASE ↔ type e2 = YN_CASE)) then Ok (st, false)
  else
    first1 ← case_first s br1;
    first2 ← case_first s br2;
    n1 ← fetch (mem s) first1;
    n2 ← fetch (mem s) first2;
    rest ← (if bool_decide (type e1 = YN_CASE)
            then siblings_equal (length (mem s)) (mem s) (next n1) (next n2) else Ok true);
    if negb rest then Ok (st, false)
    else
      children ← (match child n1, child n2 with
                  | None, None => Ok true
                  | Some _, Some _ => ay_ynode_subtree_equal lm (mem s) first1 first2 false false
                  | _, _ => Ok false
                  end);
      if negb children then Ok (st, false)
      else
        '(s1, values') ← merge_values st first1 first2 (λ d, d) (add_flag AY_VALUE_MAND_FALSE)
                           (add_flag AY_VALUE_MAND_FALSE);
        s2 ← (if bool_decide (type (data n2) = YN_LIST)
              then on_node s1 first1 (λ d, with_min_elems (Z.min (min_elems d) (min_elems (data n2))) d)
              else Ok s1);
        Ok ((s2, values'), true).

Definition list_and_other (t1 t2 : yang_type) : bool :=
  bool_decide (t1 = YN_LIST) && (bool_decide (t2 = YN_LEAF) || bool_decide (t2 = YN_CONTAINER)).

Definition ay_ynode_merge_cases_only_by_repetition (s : ytree) (br1 br2 : nat) : res (ytree * bool) :=
  n1 ← fetch (mem s) br1;
  n2 ← fetch (mem s) br2;
  let d1 := data n1 in
  let d2 := data n2 in
  diff ← different_values (value d1) (value d2);
  if negb (descendants n1 =? 0)%Z || negb (descendants n2 =? 0)%Z || bool_decide (type d1 = type d2)
     || diff || negb (list_and_other (type d1) (type d2) || list_and_other (type d2) (type d1))
  then Ok (s, false)
  else
    let at_most_one d := with_min_elems (if (min_elems d =? 0)%Z then 0 else 1)%Z d in
    if bool_decide (type d2 = YN_LIST)
    then s' ← on_node s br1 (λ d, at_most_one (with_id (id d2) (ay_ynode_copy_data d d2))); Ok (s', true)
    else s' ← on_node s br1 at_most_one; Ok (s', true).

(** ** All branches *)

(** The loop over the nodes of the choice behind [chn1]: whether one matched. *)
Fixpoint merge_with (fuel : nat) (st : mstate) (chn1 : nat) (chn2 : option nat) : res (mstate * bool) :=
  match chn2 with
  | None => Ok (st, false)
  | Some j =>
      match fuel with
      | 0 => Fault OutOfFuel
      | S fuel' =>
          let '(s, values) := st in
          d1 ← dget s chn1;
          n2 ← fetch (mem s) j;
          if bool_decide (choice (data n2) ≠ choice d1) then Ok (st, false)
          else
            b ← ay_ynode_cmp_choice_branches lm (mem s) chn1 j;
            if negb b then merge_with fuel' st chn1 (next n2)
            else
              '(s1, rep) ← ay_ynode_merge_cases_only_by_repetition s chn1 j;
              if (rep : bool) then s2 ← ay_ynode_delete_subtree s1 j; Ok ((s2, values), true)
              else
                '((s2, values'), val) ← ay_ynode_merge_cases_only_by_value (s1, values) chn1 j;
                if (val : bool) then s3 ← ay_ynode_delete_subtree s2 j; Ok ((s3, values'), true)
                else st' ← ay_ynode_merge_cases_ (s2, values') chn1 j; Ok (st', true)
      end
  end.

(** What happens to a branch that is left alone. *)
Definition after_merge (s : ytree) (chn1 : nat) : res ytree :=
  alone ← ay_ynode_alone_in_choice (mem s) chn1;
  if negb alone then Ok s
  else
    d ← dget s chn1;
    s1 ← (if bool_decide (type d = YN_CASE) then '(s', _) ← ay_ynode_delete_node s chn1; Ok s'
          else on_node s chn1 (with_choice None));
    d1 ← dget s1 chn1;
    if negb (when_ref d1 =? 0)%Z then on_node s1 chn1 (with_when 0 None) else Ok s1.

(** The [while] loop over the siblings; the result says if any merge was done. *)
Fixpoint merge_siblings (fuel : nat) (st : mstate) (chn1 : option nat) (merged : bool) : res (mstate * bool) :=
  match chn1 with
  | None => Ok (st, merged)
  | Some i =>
      match fuel with
      | 0 => Fault OutOfFuel
      | S fuel' =>
          n ← fetch (mem (fst st)) i;
          if bool_decide (choice (data n) = None) then merge_siblings fuel' st (next n) merged
          else
            '(st1, m) ← merge_with (length (mem (fst st))) st i (next n);
            if (m : bool) then
              s2 ← after_merge (fst st1) i;
              merge_siblings fuel' (s2, snd st1) (Some i) true
            else merge_siblings fuel' st1 (next n) merged
      end
  end.

(** [fuel] bounds the depth, the number of children and the repetitions. *)
Fixpoint ay_ynode_merge_cases_r (fuel : nat) (st : mstate) (subtree : nat) (merged : bool)
  : res (mstate * bool) :=
  match fuel with
  | 0 => Fault OutOfFuel
  | S fuel' =>
      c ← child_of (fst st) subtree;
      if bool_decide (c = None) then Ok (st, merged)
      else
        '(st1, m1) ← walk (λ x : mstate * bool, fst (fst x)) fuel'
          (λ x i, x' ← ay_ynode_merge_cases_r fuel' (fst x) i (snd x); Ok (x', Some i)) c (st, merged);
        c' ← child_of (fst st1) subtree;
        merge_siblings fuel' st1 c' m1
  end.

Fixpoint ay_ynode_merge_cases (fuel : nat) (st : mstate) : res mstate :=
  match fuel with
  | 0 => Fault OutOfFuel
  | S fuel' =>
      '(st', merged) ← ay_ynode_merge_cases_r fuel' st 0 false;
      if (merged : bool) then ay_ynode_merge_cases fuel' st' else Ok st'
  end.

(** ** Dependence on a value *)

(** The value among [keys] in the same concatenation as [con1]. *)
Fixpoint value_in_concat (keys : list (dnode nat)) (con1 : nat) (uni : option nat) : res (option nat) :=
  match keys with
  | [] => Ok None
  | k :: keys' =>
      con2 ← ay_lnode_get_last_concat lm (kvd k) uni;
      if bool_decide (Some con1 = con2) then v ← deref (kvd k); Ok (Some v)
      else value_in_concat keys' con1 uni
  end.

(** The first sibling from [iter] on with a choice. *)
Definition skip_no_choice (m : list ynode) (iter : option nat) : res (option nat) :=
  over_siblings (length m) m iter
    (λ i n, Ok (if bool_decide (is_Some (choice (data n))) then Some i else None)).

(** The recursion goes to the children of a case and to the next sibling; [sum]
    counts the nodes that get a condition. *)
Fixpoint ay_ynode_dependence_on_value_set_when (fuel : nat) (s : ytree) (vnode : nat)
    (keys : list (dnode nat)) (uni : option nat) (sum : Z) (iter : option nat) : res (ytree * Z) :=
  match iter with
  | None => Ok (s, sum)
  | Some i =>
      match fuel with
      | 0 => Fault OutOfFuel
      | S fuel' =>
          n ← fetch (mem s) i;
          '(s', sum') ←
            (if bool_decide (type (data n) = YN_CASE) then
               ch ← skip_no_choice (mem s) (child n);
               ay_ynode_dependence_on_value_set_when fuel' s vnode keys uni sum ch
             else
               start ← (if bool_decide (type (data n) = YN_LIST)
                        then c ← deref (child n); d ← dget s c; Ok (snode d)
                        else Ok (snode (data n)));
               con1 ← ay_lnode_get_last_concat lm start uni;
               match con1 with
               | None => Ok (s, sum)
               | Some con =>
                   v ← value_in_concat keys con uni;
                   match v with
                   | None => Ok (s, sum)
                   | Some val =>
                       _ ← c_assert (when_ref (data n) =? 0)%Z;
                       dv ← dget s vnode;
                       s1 ← on_node s i (with_when (id dv) (Some val));
                       s2 ← on_node s1 vnode (add_flag AY_WHEN_TARGET);
                       Ok (s2, u32 (sum + 1))
                   end
               end);
          nx ← next_of s' i;
          ay_ynode_dependence_on_value_set_when fuel' s' vnode keys uni sum' nx
      end
  end.

Definition dependence_node (values : ldict) (s : ytree) (i : nat) : res ytree :=
  n ← fetch (mem s) i;
  if bool_decide (type (data n) ≠ YN_VALUE) then Ok s
  else
    match ay_dnode_find values (value (data n)) with
    | None => Ok s
    | Some k =>
        x ← fetch (items values) k;
        _ ← c_assert (AY_DNODE_IS_KEY x);
        uni ← ay_lnode_has_attribute lm (value (data n)) L_UNION;
        iter ← (if bool_decide (uni = None) then Ok None else skip_no_choice (mem s) (next n));
        match iter with
        | None => Ok s
        | Some ch =>
            keys ← keyval values k;
            '(s1, sum) ← ay_ynode_dependence_on_value_set_when (length (mem s)) s i keys uni 0 iter;
            let all := u32 (values_count x + 1) in
            _ ← c_assert (sum <=? all)%Z;
            if negb (sum =? all)%Z then on_node s1 ch (add_flag AY_CHOICE_MAND_FALSE) else Ok s1
        end
    end.

(** The loop ends before the last node. *)
Definition ay_ynode_dependence_on_value (values : ldict) (s : ytree) : res ytree :=
  n ← fetch (mem s) 0;
  if (descendants n =? 0)%Z || (dcount values =? 0)%nat then Ok s
  else for_tree (dependence_node values) (below n - 1) 1 s.
End merge.
