(* ===== verification/TransForm.v ===== *)
(** The transformations that give the tree the form of a YANG module: implicit
    lists, lists that keep the order of entries, the recursive form, and the nodes
    for keys and values. *)
From S2P Require Import Prelude CString Common ParseRegex Preorder Lnode Ynode Forest YnodeQuery YnodeRules YnodeMandatory Dnode TransBase TransChoice TransCase.

Section form.
Context `{LensPointers} (lm : list lnode).

(** [AY_YNODE_IS_IMPLICIT_LIST(node)], [AY_YNODE_IS_SEQ_LIST(node)]. *)
Definition implicit_list_at (s : ytree) (i : nat) : res bool :=
  n ← fetch (mem s) i; AY_YNODE_IS_IMPLICIT_LIST lm n.
Definition seq_list_at (s : ytree) (i : nat) : res bool :=
  n ← fetch (mem s) i; AY_YNODE_IS_SEQ_LIST lm n.

(** ** Ordered entries *)

(** How many lists or recursive nodes behind [iter] go to the same list. *)
Fixpoint list_members (fuel : nat) (m : list ynode) (iter : ynode) (star : option nat)
    (lst : option nat) (cnt : nat) : res nat :=
  match lst with
  | None => Ok cnt
  | Some j =>
      match fuel with
      | 0 => Fault OutOfFuel
      | S fuel' =>
          n ← fetch m j;
          let d := data n in
          same ← (if bool_decide (choice (data iter) = choice d)
                     && (bool_decide (type d = YN_LIST) || bool_decide (type d = YN_REC))
                     && (min_elems (data iter) =? min_elems d)%Z
                  then r ← ay_ynode_get_repetition lm m j; Ok (bool_decide (r = star)) else Ok false);
          if negb same then Ok cnt
          else
            _ ← c_assert ((when_ref d =? 0)%Z && bool_decide (when_val d = None));
            list_members fuel' m iter star (next n) (S cnt)
      end
  end.

(** The new list takes flags and condition of its first child. *)
Definition init_order_list (s : ytree) (lst : nat) (ch : option nat) : res ytree :=
  c ← child_node s lst;
  dc ← dget s c;
  let kept := Z.lor AY_CHOICE_MAND_FALSE (Z.lor AY_CHOICE_CREATED AY_HINT_MAND_FALSE) in
  s1 ← on_node s lst (λ d, with_when (when_ref dc) (when_val dc)
         (add_flag (Z.land (flags dc) kept) (with_choice ch (with_min_elems (min_elems dc) (with_type YN_LIST d)))));
  on_node s1 c (λ d, with_when 0 None
    (clear_flag AY_HINT_MAND_FALSE (clear_flag AY_CHOICE_MAND_FALSE d))).

Definition entry_child (s : ytree) (c : nat) : res (ytree * option nat) :=
  impl ← implicit_list_at s c;
  s' ← (if (impl : bool) then '(s1, _) ← ay_ynode_delete_node s c; Ok s1
        else
          d ← dget s c;
          if bool_decide (type d ≠ YN_REC) && bool_decide (type d ≠ YN_CASE)
          then on_node s c (with_type YN_CONTAINER) else Ok s);
  Ok (s', Some c).

Definition ordered_entry (par : nat) (s : ytree) (iter : nat) : res (ytree * option nat) :=
  n ← fetch (mem s) iter;
  pd ← dget s par;
  seq ← AY_YNODE_IS_SEQ_LIST lm n;
  impl ← AY_YNODE_IS_IMPLICIT_LIST lm n;
  let ty := type (data n) in
  inner_rec ← (if bool_decide (ty = YN_REC) && bool_decide (type pd = YN_LIST) then
                 pp ← parent_node s par; ppd ← dget s pp; Ok (bool_decide (type ppd ≠ YN_ROOT))
               else Ok false);
  if seq || impl || (bool_decide (ty ≠ YN_LIST) && bool_decide (ty ≠ YN_REC)) || inner_rec
  then Ok (s, Some iter)
  else
    star ← ay_ynode_get_repetition lm (mem s) iter;
    if bool_decide (star = None) then Ok (s, Some iter)
    else
      cnt ← list_members (length (mem s)) (mem s) n star (next n) 0;
      s1 ← ay_ynode_insert_wrapper s iter;
      s2 ← init_order_list s1 iter (choice (data n));
      s3 ← times cnt (λ s', nx ← next_node s' iter; ay_ynode_move_subtree_as_last_child s' iter nx) s2;
      c ← child_of s3 iter;
      s4 ← walk_tree entry_child c s3;
      s5 ← on_node s4 iter (with_label star);
      Ok (s5, Some iter).

Definition ordered_entries_node (s : ytree) (i : nat) : res ytree :=
  impl ← implicit_list_at s i;
  if (impl : bool) then Ok s
  else c ← child_of s i; walk_tree (ordered_entry i) c s.

Definition ay_ynode_ordered_entries (s : ytree) : res ytree := sweep_nodes ordered_entries_node s.

(** ** Implicit lists *)

(** From the star above [sn] up to [star2]. *)
Fixpoint reaches_star (fuel : nat) (star star2 : option nat) : res (option nat) :=
  match star with
  | None => Ok None
  | Some i =>
      if bool_decide (star = star2) then Ok star
      else
        match fuel with
        | 0 => Fault OutOfFuel
        | S fuel' => st ← ay_lnode_has_attribute lm star L_STAR; reaches_star fuel' st star2
        end
  end.

(** The first child that goes to the implicit list and how many do. *)
Fixpoint implicit_members (fuel : nat) (m : list ynode) (iter star2 first : option nat) (cnt : nat)
  : res (option nat * nat) :=
  match iter with
  | None => Ok (first, cnt)
  | Some i =>
      match fuel with
      | 0 => Fault OutOfFuel
      | S fuel' =>
          n ← fetch m i;
          st ← ay_lnode_has_attribute lm (snode (data n)) L_STAR;
          r ← reaches_star (length lm) st star2;
          if bool_decide (r = None) then Ok (first, cnt)
          else
            implicit_members fuel' m (next n) star2
              (if bool_decide (first = None) then Some i else first) (S cnt)
      end
  end.

Definition implicit_list_step (s : ytree) (i : nat) : res (ytree * nat) :=
  n ← fetch (mem s) i;
  p ← deref (parent n);
  impl ← implicit_list_at s p;
  if (impl : bool) then Ok (s, i)
  else
    star ← ay_lnode_has_attribute lm (snode (data n)) L_STAR;
    star2 ← (if bool_decide (star = None) then Ok None else ay_lnode_has_attribute lm star L_STAR);
    if bool_decide (star2 = None) then Ok (s, i)
    else
      c ← child_of s p;
      '(first, cnt) ← implicit_members (length (mem s)) (mem s) c star2 None 0;
      if (cnt =? 0)%nat then Ok (s, i)
      else
        f ← deref first;
        s1 ← ay_ynode_insert_wrapper s f;
        s2 ← on_node s1 f (λ d, with_snode star2 (with_label star2 (with_type YN_LIST d)));
        s3 ← times cnt (λ s', nx ← next_node s' f; ay_ynode_move_subtree_as_last_child s' f nx) s2;
        ch ← child_node s3 f;
        dc ← dget s3 ch;
        s4 ← on_node s3 f (with_choice (choice dc));
        Ok (s4, S i).

Definition ay_ynode_insert_implicit_list (s : ytree) : res ytree := sweep_tree implicit_list_step s.

(** ** The recursive form *)

(** The next internal recursion among [n] nodes from [i] on. *)
Fixpoint internal_from (n : nat) (m : list ynode) (ext : lens) (i : nat) : res (option nat) :=
  match n with
  | 0 => Ok None
  | S n' =>
      nd ← fetch m i;
      if bool_decide (type (data nd) ≠ YN_REC) then internal_from n' m ext (S i)
      else
        sl ← snode_lens lm nd;
        l ← deref sl;
        if rec_internal l && same_body l ext then Ok (Some i) else internal_from n' m ext (S i)
  end.

Definition ay_ynode_lrec_internal (m : list ynode) (ext : nat) (iter : option nat) : res (option nat) :=
  n ← fetch m ext;
  sl ← snode_lens lm n;
  _ ← c_assert (bool_decide (type (data n) = YN_REC) && tag_is sl L_REC);
  l ← deref sl;
  start ← (match iter with Some i => nat_sub i ext | None => Ok 0 end);
  internal_from (below n - start) m l (S (ext + start)).

(** The new place of the internal recursion. *)
Definition ay_ynode_lrec_insert_listord (s : ytree) (branch internal : nat) : res (ytree * nat) :=
  p ← parent_node s internal;
  pd ← dget s p;
  '(s1, i) ← (if bool_decide (type pd ≠ YN_LIST) then
                s' ← ay_ynode_insert_parent s internal;
                l ← parent_node s' (S internal);
                s'' ← on_node s' l (with_type YN_LIST);
                Ok (s'', S internal)
              else Ok (s, internal));
  listord ← parent_node s1 i;
  bd ← dget s1 branch;
  if bool_decide (choice bd = None) then Ok (s1, i)
  else
    c ← child_of s1 listord;
    s2 ← walk_all (λ d, add_flag AY_CHOICE_CREATED (with_choice ROOT_LTREE d)) c s1;
    Ok (s2, i).

(** The ancestor of [iter] (or itself) whose parent is [ext]. *)
Definition branch_of (s : ytree) (iter ext : nat) : res nat :=
  r ← climb (length (mem s)) (mem s) (Some iter)
        (λ i n, if bool_decide (parent n = Some ext) then Some i else None);
  _ ← c_assert (bool_decide (is_Some r));
  deref r.

(** One internal recursion: the tree, the list and the new index of the leafref. *)
Definition recursive_branch (s : ytree) (ext internal : nat) (listrec prev_branch : option nat)
  : res (ytree * option nat * nat * nat) :=
  s1 ← on_node s internal (with_type YN_LEAFREF);
  branch ← branch_of s1 internal ext;
  '(s2, i) ← ay_ynode_lrec_insert_listord s1 branch internal;
  ed ← dget s2 ext;
  bd ← dget s2 branch;
  match listrec with
  | None =>
      if bool_decide (type bd = YN_LIST) then
        s3 ← on_node s2 branch (with_snode (snode ed));
        s4 ← on_node s3 i (with_ref (id bd));
        Ok (s4, Some branch, i, branch)
      else
        s3 ← ay_ynode_insert_wrapper s2 branch;
        c ← child_node s3 branch;
        dc ← dget s3 c;
        s4 ← on_node s3 branch (λ d, with_snode (snode ed) (with_choice (choice dc) (with_type YN_LIST d)));
        ld ← dget s4 branch;
        s5 ← on_node s4 (S i) (with_ref (id ld));
        Ok (s5, Some branch, S i, branch)
  | Some lr =>
      ld ← dget s2 lr;
      s3 ← on_node s2 i (with_ref (id ld));
      if bool_decide (prev_branch = Some branch) then Ok (s3, listrec, i, branch)
      else s4 ← ay_ynode_move_subtree_as_last_child s3 lr branch; Ok (s4, listrec, i, branch)
  end.

(** The [do ... while] loop over the internal recursions. *)
Fixpoint recursive_branches (fuel : nat) (s : ytree) (ext : nat) (internal : option nat)
    (listrec prev_branch : option nat) : res (ytree * option nat) :=
  match fuel with
  | 0 => Fault OutOfFuel
  | S fuel' =>
      i ← deref internal;
      '(s1, lr, i', br) ← recursive_branch s ext i listrec prev_branch;
      nx ← ay_ynode_lrec_internal (mem s1) ext (Some i');
      match nx with
      | None => Ok (s1, lr)
      | Some _ => recursive_branches fuel' s1 ext nx lr (Some br)
      end
  end.

Definition recursive_form_at (s : ytree) (i : nat) : res ytree :=
  n ← fetch (mem s) i;
  let d := data n in
  if bool_decide (type d ≠ YN_REC) then Ok s
  else
    '(s1, ext) ← (if bool_decide (is_Some (label d)) || bool_decide (is_Some (value d)) then
                    p ← deref (parent n);
                    pd ← dget s p;
                    _ ← c_assert (bool_decide (label pd = label d) && bool_decide (value pd = value d));
                    s' ← ay_ynode_swap s i p;
                    p' ← parent_node s' i;
                    Ok (s', p')
                  else Ok (s, i));
    internal ← ay_ynode_lrec_internal (mem s1) ext None;
    '(s2, lr) ← recursive_branches (length (mem s1)) s1 ext internal None None;
    l ← deref lr;
    ld ← dget s2 l;
    c ← child_of s2 l;
    walk_all (with_choice (choice ld)) c s2.

(** [for (i = 0; i < tree->descendants; i++)]. *)
Fixpoint recursive_form_from (fuel i : nat) (s : ytree) : res ytree :=
  r ← size_of s 0;
  if (r <=? i)%nat then Ok s
  else
    match fuel with
    | 0 => Fault OutOfFuel
    | S fuel' => s' ← recursive_form_at s (S i); recursive_form_from fuel' (S i) s'
    end.

Definition ay_ynode_recursive_form (s : ytree) : res ytree := recursive_form_from (length (mem s)) 0 s.

(** ** Deleting the recursive nodes *)

Definition delete_ynrec_step (s : ytree) (i : nat) : res (ytree * nat) :=
  n ← fetch (mem s) i;
  if bool_decide (type (data n) ≠ YN_REC) then Ok (s, i)
  else
    s1 ← (if bool_decide (is_Some (choice (data n)))
          then walk_all (with_choice (choice (data n))) (child n) s else Ok s);
    '(s2, _) ← ay_ynode_delete_node s1 i;
    Ok (s2, (i - 1)%nat).

Definition ay_ynode_delete_ynrec (s : ytree) : res ytree := sweep_tree delete_ynrec_step s.

(** ** Keys and values *)

Definition ay_ynode_set_choice_for_value (patt_table : list ay_transl) (values : ldict) (s : ytree) (nd : nat)
  : res ytree :=
  n ← fetch (mem s) nd;
  let d := data n in
  _ ← c_assert (bool_decide (type d = YN_VALUE) && bool_decide (is_Some (value d))
                && bool_decide (is_Some (parent n)));
  p ← deref (parent n);
  pd ← dget s p;
  v ← deref (value d);
  ch ← ay_lnode_has_attribute lm (value d) L_UNION;
  seq ← seq_list_at s p;
  match next n with
  | None =>
      if (seq : bool) then
        sn ← climb (length lm) lm (Some v)
               (λ i it, if bool_decide (ltag it = L_SUBTREE) then Some i else None);
        match sn with
        | Some i => c ← ay_lnode_has_attribute lm (Some i) L_UNION; on_node s nd (with_choice c)
        | None => Ok s
        end
      else Ok s
  | Some nx =>
      let in_choice := has_flag pd AY_VALUE_IN_CHOICE in
      if negb in_choice
         && (bool_decide (ch = None) || bool_decide (is_Some (ay_dnode_find values (value d))))
      then Ok s
      else
        nd' ← dget s nx;
        match choice nd' with
        | Some c =>
            if in_choice || bool_decide (ch = Some c) then on_node s nd (with_choice (Some c)) else Ok s
        | None =>
            k ← ay_ynode_rule_node_is_splittable lm (mem s) patt_table nx;
            if negb (k =? 0)%Z
            then on_node s nd (λ d, add_flag AY_CHOICE_CREATED (with_choice ROOT_LTREE d)) else Ok s
        end
  end.

(** The place of the value and the tree with the empty node there. *)
Definition ay_ynode_place_value_as_usual (s : ytree) (nd : nat) : res (ytree * nat) :=
  n ← fetch (mem s) nd;
  key ← (match snode (data n), child n with
         | Some _, Some c => d ← dget s c; Ok (if bool_decide (type d = YN_KEY) then Some c else None)
         | _, _ => Ok None
         end);
  match key with
  | Some c => s1 ← ay_ynode_insert_sibling s c; v ← next_node s1 c; Ok (s1, v)
  | None => s1 ← ay_ynode_insert_child s nd; v ← child_node s1 nd; Ok (s1, v)
  end.

(** The child of [par] from [iter] on for the lnode [sn], or the YN_CASE that
    contains it. *)
Fixpoint child_by_snode (fuel : nat) (m : list ynode) (iter : option nat) (sn : nat) (into_case : bool)
  : res (option nat) :=
  match iter with
  | None => Ok None
  | Some i =>
      match fuel with
      | 0 => Fault OutOfFuel
      | S fuel' =>
          n ← fetch m i;
          let d := data n in
          in_case ← (if into_case && bool_decide (type d = YN_CASE)
                     then r ← child_by_snode fuel' m (child n) sn true; Ok (bool_decide (is_Some r))
                     else Ok false);
          here ← (if (in_case : bool) then Ok true
                  else if bool_decide (is_Some (snode d)) then lens_is lm (Some sn) (snode d) else Ok false);
          inner ← (if (here : bool) then Ok true
                   else if bool_decide (type d = YN_LIST)
                   then c ← deref (child n); cn ← fetch m c; lens_is lm (snode (data cn)) (Some sn)
                   else Ok false);
          if (inner : bool) then Ok (Some i) else child_by_snode fuel' m (next n) sn into_case
      end
  end.

Definition ay_ynode_get_child_by_snode (m : list ynode) (par sn : nat) (into_case : bool)
  : res (option nat) :=
  n ← fetch m par; child_by_snode (length m) m (child n) sn into_case.

(** [for (iterl = node->value; (iterl != val_parent) && !dst; iterl--)]. *)
Fixpoint place_before (n : nat) (m : list ynode) (nd iterl : nat) : res (option nat) :=
  match n with
  | 0 => Ok None
  | S n' =>
      it ← fetch lm iterl;
      dst ← (if bool_decide (ltag it ≠ L_SUBTREE) then Ok None
             else ay_ynode_get_child_by_snode m nd iterl true);
      match dst with Some j => Ok (Some j) | None => place_before n' m nd (iterl - 1) end
  end.

(** Whether [ch] is met on the way from [iter] to [stop]. *)
Definition choice_on_path (iter stop ch : option nat) : res bool :=
  r ← climb (length lm) lm iter (λ i _,
        if bool_decide (Some i = stop) then Some false
        else if bool_decide (Some i = ch) then Some true else None);
  match r with Some b => Ok b | None => Fault NullDeref end.

Definition ay_ynode_place_value (s : ytree) (nd : nat) : res (ytree * nat) :=
  d ← dget s nd;
  _ ← c_assert (bool_decide (is_Some (value d)));
  v ← deref (value d);
  if bool_decide (snode d = None) then ay_ynode_place_value_as_usual s nd
  else
    vp ← climb (length lm) lm (Some v)
           (λ i it, if bool_decide (ltag it = L_SUBTREE) then Some i else None);
    val_parent ← deref vp;
    dst ← place_before (v - val_parent) (mem s) nd v;
    match dst with
    | None => ay_ynode_place_value_as_usual s nd
    | Some j =>
        s1 ← ay_ynode_insert_sibling s j;
        dj ← dget s1 j;
        val ← next_node s1 j;
        after ← next_of s1 val;
        wanted ← (match choice dj, after with
                  | Some c, _ => Ok (Some c)
                  | None, Some a => da ← dget s1 a; Ok (choice da)
                  | None, None => Ok None
                  end);
        if bool_decide (wanted = None) then Ok (s1, val)
        else
          b ← choice_on_path (value d) (snode d) wanted;
          s2 ← on_node s1 val (with_choice (if (b : bool) then wanted else None));
          Ok (s2, val)
    end.

Definition insert_key (s : ytree) (nd : nat) : res ytree :=
  s1 ← ay_ynode_insert_child s nd;
  d ← dget s1 nd;
  k ← child_node s1 nd;
  on_node s1 k (λ e, with_value (value d) (with_label (label d) (with_type YN_KEY e))).

Definition insert_value (patt_table : list ay_transl) (values : ldict) (s : ytree) (nd : nat) : res ytree :=
  '(s1, v) ← ay_ynode_place_value s nd;
  d ← dget s1 nd;
  s2 ← on_node s1 v (λ e, add_flag (Z.land (flags d) AY_VALUE_MAND_FALSE)
         (with_value (value d) (with_label (label d) (with_type YN_VALUE e))));
  ay_ynode_set_choice_for_value patt_table values s2 v.

Definition key_and_value_node (patt_table : list ay_transl) (values : ldict) (s : ytree) (i : nat)
  : res ytree :=
  n ← fetch (mem s) i;
  let d := data n in
  seq ← AY_YNODE_IS_SEQ_LIST lm n;
  if bool_decide (type d ≠ YN_CONTAINER) && negb seq then Ok s
  else
    cnt ← ay_ynode_rule_node_key_and_value lm (mem s) i;
    is_ident ← AY_LABEL_LENS_IS_IDENT lm n;
    if (is_ident : bool) then
      if (descendants n =? 0)%Z then on_node s i (with_type YN_LEAF)
      else if bool_decide (is_Some (value d)) then insert_value patt_table values s i
      else Ok s
    else if (cnt =? 0)%Z then on_node s i (with_type YN_LEAF)
    else
      _ ← c_assert (bool_decide (is_Some (label d)));
      s1 ← insert_key s i;
      if (cnt =? 1)%Z then Ok s1
      else _ ← c_assert (cnt =? 2)%Z; insert_value patt_table values s1 i.

Definition ay_insert_node_key_and_value (patt_table : list ay_transl) (values : ldict) (s : ytree)
  : res ytree := sweep_nodes (key_and_value_node patt_table values) s.
End form.
