(* ===== verification/TransGroup.v ===== *)
(** The transformations that create groupings: nodes that are the same are put
    into a YN_GROUPING, and YN_USES nodes refer to it. *)
From S2P Require Import Prelude CString Common ParseRegex Preorder Lnode Ynode Forest YnodeQuery YnodeRules YnodeMandatory Dnode TransBase TransChoice TransCase.

Section group.
Context `{LensPointers} `{PointerBytes nat} (patt_table : list ay_transl).

(** ** Nodes that are copied next to a leafref *)

Section lnodes.
Context (lm : list lnode).

Definition contains_rec (s : ytree) (i : nat) : res bool :=
  k ← ay_ynode_subtree_contains_rec lm (mem s) (Some i) true; Ok (negb (k =? 0)%Z).

Definition copy_before (branch listord : nat) (s : ytree) (i : nat) : res (ytree * option nat) :=
  bd ← dget s branch;
  same ← same_choice s (choice bd) i;
  if negb same || (i =? branch)%nat then Ok (s, None)
  else
    r ← contains_rec s i;
    if (r : bool) then Ok (s, Some i)
    else s' ← ay_ynode_copy_subtree_as_last_child s listord i; Ok (s', Some i).

(** The copy is in front of [i] and shifts it. *)
Definition copy_after (branch listord : nat) (s : ytree) (i : nat) : res (ytree * option nat) :=
  bd ← dget s branch;
  same ← same_choice s (choice bd) i;
  if negb same then Ok (s, None)
  else
    r ← contains_rec s i;
    if (r : bool) then Ok (s, Some i)
    else
      desc ← size_of s i;
      s' ← ay_ynode_copy_subtree_as_last_child s listord i;
      Ok (s', Some (i + desc + 1)%nat).

Definition delete_inner_list (s : ytree) (i : nat) : res (ytree * option nat) :=
  n ← fetch (mem s) i;
  if bool_decide (type (data n) = YN_LIST) then
    s1 ← (if bool_decide (is_Some (choice (data n)))
          then walk_all (with_choice (choice (data n))) (child n) s else Ok s);
    '(s2, _) ← ay_ynode_delete_node s1 i;
    Ok (s2, Some i)
  else Ok (s, Some i).

Definition ay_ynode_recursive_form_by_copy_ (s : ytree) (branch listord : nat) : res ytree :=
  n ← fetch (mem s) branch;
  first ← ay_ynode_get_first_in_choice (mem s) (parent n) (choice (data n));
  s1 ← walk_tree (copy_before branch listord) first s;
  nx ← next_of s1 branch;
  s2 ← walk_tree (copy_after branch listord) nx s1;
  c ← child_of s2 listord;
  s3 ← walk_all (λ d, add_flag AY_CHOICE_CREATED (with_choice ROOT_LTREE d)) c s2;
  c' ← child_of s3 listord;
  walk_tree delete_inner_list c' s3.

(** Whether the nodes of the choice [ch] from [iter] on should be copied. *)
Fixpoint should_copy (fuel : nat) (s : ytree) (ch : option nat) (iter : option nat) (copy : bool)
  : res bool :=
  match iter with
  | None => Ok copy
  | Some i =>
      match fuel with
      | 0 => Fault OutOfFuel
      | S fuel' =>
          n ← fetch (mem s) i;
          if bool_decide (choice (data n) ≠ ch) then Ok copy
          else
            r ← contains_rec s i;
            if (r : bool) then should_copy fuel' s ch (next n) copy
            else
              v ← (if bool_decide (type (data n) = YN_LIST) || negb (when_ref (data n) =? 0)%Z then Ok false
                   else ay_ynode_when_paths_are_valid (mem s) i true);
              if (v : bool) then should_copy fuel' s ch (next n) false else Ok true
      end
  end.

Definition recursive_form_by_copy_node (s : ytree) (i : nat) : res ytree :=
  n ← fetch (mem s) i;
  if bool_decide (type (data n) ≠ YN_LEAFREF) then Ok s
  else
    branch ← ay_ynode_leafref_branch (mem s) i;
    b ← fetch (mem s) branch;
    if bool_decide (choice (data b) = None) then Ok s
    else
      listord ← deref (parent n);
      first ← ay_ynode_get_first_in_choice (mem s) (parent b) (choice (data b));
      copy ← should_copy (length (mem s)) s (choice (data b)) first true;
      if (copy : bool) then ay_ynode_recursive_form_by_copy_ s branch listord
      else f ← deref first; on_node s f (add_flag AY_GROUPING_CHOICE).

Definition ay_ynode_recursive_form_by_copy (s : ytree) : res ytree :=
  sweep_nodes recursive_form_by_copy_node s.

(** ** References to groupings *)

(** Whether one of [n] nodes from [i] on is a leafref to [exter]. *)
Definition leafref_to (m : list ynode) (exter : lens) (n i : nat) : res bool :=
  r ← find_node m n i (λ nd,
        if bool_decide (type (data nd) ≠ YN_LEAFREF) then Ok false
        else sl ← snode_lens lm nd; l ← deref sl; Ok (same_body exter l));
  Ok (bool_decide (is_Some r)).

Definition ay_ynode_set_ref_leafref_restriction (m : list ynode) (subtree : nat) : res bool :=
  n ← fetch m subtree;
  ext ← climb (length m) m (parent n)
          (λ i nd, if bool_decide (type (data nd) = YN_REC) then Some nd else None);
  match ext with
  | None => Ok false
  | Some nd =>
      sl ← snode_lens lm nd;
      _ ← c_assert (bool_decide (is_Some sl));
      exter ← deref sl;
      leafref_to m exter (below n) (S subtree)
  end.

(** [while (check && ay_ynode_subtree_contains_rec(it, 1)) it = it->next;] *)
Fixpoint skip_rec (fuel : nat) (m : list ynode) (check : bool) (it : option nat) : res (option nat) :=
  match it with
  | None => Ok None
  | Some i =>
      k ← (if check then ay_ynode_subtree_contains_rec lm m it true else Ok 0%Z);
      if (k =? 0)%Z then Ok it
      else
        match fuel with
        | 0 => Fault OutOfFuel
        | S fuel' => n ← fetch m i; skip_rec fuel' m check (next n)
        end
  end.

(** [it && (it->choice == ch->choice)]. *)
Definition in_group (m : list ynode) (ch it : option nat) : res bool :=
  match it with Some i => n ← fetch m i; Ok (bool_decide (choice (data n) = ch)) | None => Ok false end.

(** The nodes at which the loop ends, and whether the branches were equal. *)
Fixpoint group_loop (fuel : nat) (m : list ynode) (c1 c2 : option nat) (lf1 lf2 : bool)
    (it1 it2 : option nat) : res (bool * option nat * option nat) :=
  b1 ← in_group m c1 it1;
  b2 ← in_group m c2 it2;
  if negb (b1 && b2) then Ok (true, it1, it2)
  else
    match fuel with
    | 0 => Fault OutOfFuel
    | S fuel' =>
        it1' ← skip_rec (length m) m lf1 it1;
        it2' ← skip_rec (length m) m lf2 it2;
        b1' ← in_group m c1 it1';
        b2' ← in_group m c2 it2';
        if negb (b1' && b2') then Ok (true, it1', it2')
        else
          i ← deref it1';
          j ← deref it2';
          eq ← ay_ynode_subtree_equal lm m i j true false;
          if (eq : bool) then
            n1 ← fetch m i;
            n2 ← fetch m j;
            group_loop fuel' m c1 c2 lf1 lf2 (next n1) (next n2)
          else Ok (false, it1', it2')
    end.

Definition ay_ynode_choice_group_equal (m : list ynode) (ch1 ch2 : nat) (ignore_recursive_branch : bool)
  : res bool :=
  n1 ← fetch m ch1;
  n2 ← fetch m ch2;
  let c1 := choice (data n1) in
  let c2 := choice (data n2) in
  '(eq, it1, it2) ← group_loop (length m) m c1 c2
     (ignore_recursive_branch && has_flag (data n1) AY_GROUPING_CHOICE)
     (ignore_recursive_branch && has_flag (data n2) AY_GROUPING_CHOICE) (Some ch1) (Some ch2);
  if negb eq then Ok false
  else
    match it1, it2 with
    | None, None => Ok true
    | Some i, Some j =>
        m1 ← fetch m i;
        m2 ← fetch m j;
        Ok (bool_decide (choice (data m1) ≠ c1) && bool_decide (choice (data m2) ≠ c2))
    | _, _ => Ok false
    end.

(** The last of the siblings from [i] on with the choice [c]. *)
Fixpoint last_in_group (fuel : nat) (m : list ynode) (c : option nat) (i : nat) : res nat :=
  match fuel with
  | 0 => Fault OutOfFuel
  | S fuel' =>
      n ← fetch m i;
      match next n with
      | None => Ok i
      | Some j =>
          nx ← fetch m j;
          if bool_decide (choice (data nx) = c) then last_in_group fuel' m c j else Ok i
      end
  end.

Definition set_ref_group (grch : nat) (s : ytree) (j : nat) : res (ytree * nat) :=
  n ← fetch (mem s) j;
  if bool_decide (choice (data n) = None) then Ok (s, j)
  else
    eq ← ay_ynode_choice_group_equal (mem s) grch j true;
    g ← dget s grch;
    s' ← (if (eq : bool) then on_node s j (with_ref (id g)) else Ok s);
    Ok (s', j + below n)%nat.

Definition set_ref_recursive_node (s : ytree) (i : nat) : res ytree :=
  d ← dget s i;
  if negb (has_flag d AY_GROUPING_CHOICE) then Ok s
  else
    s1 ← on_node s i (λ d, with_ref (id d) d);
    ch ← last_in_group (length (mem s1)) (mem s1) (choice d) i;
    desc ← size_of s1 ch;
    sweep (λ s, s) (length (mem s)) (set_ref_group i) (ch + desc + 1) s1.

Definition ay_ynode_set_ref_recursive_form (s : ytree) : res ytree := sweep_nodes set_ref_recursive_node s.

(** Whether the node can be the first of equal subtrees. *)
Definition no_grouping (m : list ynode) (i : nat) : res bool :=
  n ← fetch m i;
  let d := data n in
  top ← (if bool_decide (type d = YN_LIST)
         then p ← deref (parent n); pn ← fetch m p; Ok (bool_decide (type (data pn) = YN_ROOT))
         else Ok false);
  if (top : bool) || (bool_decide (type d ≠ YN_CONTAINER) && bool_decide (type d ≠ YN_LIST)) then Ok true
  else
    r ← ay_ynode_set_ref_leafref_restriction m i;
    if (r : bool) || negb (when_ref d =? 0)%Z then Ok true
    else v ← ay_ynode_when_paths_are_valid m i true; Ok (negb v).

(** The tree, whether a subtree is equal, the number of subtrees that are equal
    without their roots, and whether one of them is splittable. *)
Record matches := Matches { mtree : ytree; subtree_eq : bool; children_eq : nat; splittable : bool }.

Definition whole_equal (m : list ynode) (i j : nat) (only : bool) : res bool :=
  n ← fetch m j;
  if bool_decide (type (data n) = YN_LIST) then ay_ynode_subtree_equal lm m i j true true
  else if bool_decide (type (data n) = YN_CONTAINER) then
    b ← (if only then ay_ynode_inner_node_alone m j else Ok false);
    poor ← (if (b : bool) then Ok true
            else inner ← ay_ynode_inner_nodes m j; Ok (bool_decide (inner = None)));
    if (poor : bool) then ay_ynode_subtree_equal lm m i j true true else Ok false
  else Ok false.

Definition set_ref_match (i : nat) (only : bool) (inner : option nat) (st : matches) (j : nat)
  : res (matches * nat) :=
  let s := mtree st in
  n ← fetch (mem s) j;
  if negb (ref (data n) =? 0)%Z then Ok (st, j + below n)%nat
  else
    v ← (if negb (when_ref (data n) =? 0)%Z then Ok false else ay_ynode_when_paths_are_valid (mem s) j true);
    if negb v then Ok (st, j)
    else
      di ← dget s i;
      eq ← whole_equal (mem s) i j only;
      if (eq : bool) then
        s' ← on_node s j (with_ref (id di));
        Ok (Matches s' true (children_eq st) (splittable st), j + below n)%nat
      else
        ceq ← (if bool_decide (is_Some inner) then ay_ynode_subtree_equal lm (mem s) i j false true
               else Ok false);
        if negb ceq then Ok (st, j)
        else
          k ← (if splittable st then Ok 1%Z else ay_ynode_rule_node_is_splittable lm (mem s) patt_table j);
          let spl := negb (k =? 0)%Z in
          inn ← deref inner;
          nx ← next_of s inn;
          if negb spl && bool_decide (nx = None)
          then Ok (Matches s (subtree_eq st) (children_eq st) spl, j)
          else
            s' ← on_node s j (λ d, add_flag AY_GROUPING_CHILDREN (with_ref (id di) d));
            Ok (Matches s' (subtree_eq st) (S (children_eq st)) spl, j + below n)%nat.

Definition set_ref_step (s : ytree) (i : nat) : res (ytree * nat) :=
  n ← fetch (mem s) i;
  rec ← (if (ref (data n) =? 0)%Z then Ok true
         else p ← deref (parent n); d ← dget s p; Ok (bool_decide (type d = YN_REC)));
  if negb rec then Ok (s, i + below n)%nat
  else
    no ← no_grouping (mem s) i;
    if (no : bool) then Ok (s, i)
    else
      only ← ay_ynode_inner_node_alone (mem s) i;
      inner ← ay_ynode_inner_nodes (mem s) i;
      st ← sweep mtree (length (mem s)) (set_ref_match i only inner) (i + below n + 1)
             (Matches s false 0 false);
      s' ← (if (0 <? children_eq st)%nat
            then on_node (mtree st) i (λ d, add_flag AY_GROUPING_CHILDREN (with_ref (id d) d))
            else if subtree_eq st then on_node (mtree st) i (λ d, with_ref (id d) d)
            else Ok (mtree st));
      Ok (s', i).

Definition ay_ynode_set_ref (s : ytree) : res ytree := sweep_tree set_ref_step s.
End lnodes.

(** ** Creating the groupings *)

(** The state: the tree and the lnodes, whose [pnode] can be cleared. *)
Abbreviation gstate := (ytree * list lnode)%type (only parsing).

Definition clear_pnode (lm : list lnode) (i : nat) : res (list lnode) :=
  modify lm i (λ n, let d := data n in set_data (LData (lens_of d) (lmod d) None (lflags d)) n).

Definition pnode_of (lm : list lnode) (sn : option nat) : res (option nat) :=
  match sn with None => Ok None | Some i => l ← fetch lm i; Ok (lpnode (data l)) end.

(** The loop over [n] nodes from [i] on, compared with those from [del] on. *)
Fixpoint unset_pnodes (n : nat) (m : list ynode) (i : nat) (del : option nat) (j : nat) (lm : list lnode)
  : res (list lnode) :=
  match n with
  | 0 => Ok lm
  | S n' =>
      a ← fetch m i;
      if bool_decide (type (data a) = YN_GROUPING) then unset_pnodes n' m (S i) del j lm
      else
        p ← pnode_of lm (snode (data a));
        if bool_decide (p = None) then unset_pnodes n' m (S i) del (S j) lm
        else
          d ← deref del;
          b ← fetch m (d + j);
          _ ← c_assert (bool_decide (type (data a) = type (data b)));
          sn ← deref (snode (data a));
          sn2 ← deref (snode (data b));
          q ← pnode_of lm (Some sn2);
          lm' ← (if bool_decide (p ≠ q) then clear_pnode lm sn else Ok lm);
          unset_pnodes n' m (S i) del (S j) lm'
  end.

Definition ay_ynode_snode_unset_pnode (m : list ynode) (lm : list lnode) (subt del_subt : nat)
    (compare_roots : bool) : res (list lnode) :=
  n ← fetch m subt;
  if compare_roots then unset_pnodes (S (below n)) m subt (Some del_subt) 0 lm
  else inner ← ay_ynode_inner_nodes m del_subt; unset_pnodes (below n) m (S subt) inner 0 lm.

(** The node [j] that has the same reference as [iti] is replaced by YN_USES. *)
Definition replace_by_uses (grouping iti : nat) (mand_false : Z) (st : gstate) (j : nat) : res (gstate * nat) :=
  let '(s, lm) := st in
  di ← dget s iti;
  dj ← dget s j;
  if negb (ref dj =? ref di)%Z || bool_decide (type dj = YN_USES) then Ok (st, j)
  else
    let children := has_flag dj AY_GROUPING_CHILDREN in
    lm' ← ay_ynode_snode_unset_pnode (mem s) lm grouping j (negb children);
    s1 ← ay_ynode_delete_children s j children;
    '(s2, uses) ← (if children then
                     '(s', u) ← ay_ynode_insert_child_last s1 j; u' ← deref u; Ok (s', u')
                   else
                     s' ← on_node s1 j (λ d, with_flags 0 (with_value None (with_label None (with_snode None d))));
                     Ok (s', j));
    s3 ← on_node s2 j (with_ref 0);
    dg ← dget s3 grouping;
    s4 ← on_node s3 uses (λ d, add_flag mand_false (with_ref (id dg) (with_type YN_USES d)));
    Ok ((s4, lm'), j).

(** The place of the YN_GROUPING, that of the node [i], and whether the grouping
    of the parent is used. *)
Definition place_grouping (s : ytree) (i : nat) : res (ytree * nat * nat * bool) :=
  n ← fetch (mem s) i;
  if has_flag (data n) AY_GROUPING_CHILDREN then
    _ ← c_assert (bool_decide (is_Some (child n)));
    inner ← ay_ynode_inner_nodes (mem s) i;
    g ← deref (match inner with Some j => Some j | None => child n end);
    s1 ← ay_ynode_insert_parent_for_rest s g;
    s2 ← on_node s1 g (with_snode (snode (data n)));
    Ok (s2, g, i, false)
  else
    p ← deref (parent n);
    pn ← fetch (mem s) p;
    shared ← (if bool_decide (type (data pn) = YN_GROUPING) then
                pp ← parent_node s p;
                pd ← dget s pp;
                if has_flag pd AY_GROUPING_CHILDREN then
                  inner ← ay_ynode_inner_nodes (mem s) p;
                  if bool_decide (inner = Some i) then Ok (bool_decide (next n = None)) else Ok false
                else Ok false
              else Ok false);
    if (shared : bool) then Ok (s, p, i, true)
    else
      s1 ← ay_ynode_insert_wrapper s i;
      p' ← parent_node s1 i;
      pd ← dget s1 p';
      s2 ← on_node s1 i (with_snode (snode pd));
      Ok (s2, i, S i, false).

(** YN_USES behind the grouping. *)
Definition uses_behind (s : ytree) (grouping iti : nat) (mand_false : Z) : res ytree :=
  s1 ← ay_ynode_insert_sibling s grouping;
  uses ← next_node s1 grouping;
  ni ← fetch (mem s1) iti;
  dg ← dget s1 grouping;
  c ← child_node s1 grouping;
  cn ← fetch (mem s1) c;
  let ch := if bool_decide (parent ni = Some grouping) then choice (data ni) else choice (data cn) in
  s2 ← on_node s1 uses (λ d, add_flag mand_false (with_choice ch (with_ref (id dg) (with_type YN_USES d))));
  if bool_decide (next cn = None) then on_node s2 c (with_choice None) else Ok s2.

Definition groupings_toplevel_step (st : gstate) (i : nat) : res (gstate * nat) :=
  let '(s, lm) := st in
  n ← fetch (mem s) i;
  let d := data n in
  if (ref d =? 0)%Z || bool_decide (type d = YN_USES) || bool_decide (type d = YN_LEAFREF) then Ok (st, i)
  else if bool_decide (type d = YN_GROUPING) then Ok (st, i + below n)%nat
  else
    _ ← c_assert (id d =? ref d)%Z;
    '(s1, grouping, iti, gr_used) ← place_grouping s i;
    s2 ← on_node s1 grouping (with_type YN_GROUPING);
    c ← child_node s2 grouping;
    dc ← dget s2 c;
    let mand_false := Z.land (flags dc) AY_CHOICE_MAND_FALSE in
    sz ← size_of s2 grouping;
    '(s3, lm') ← sweep fst (length (mem s)) (replace_by_uses grouping iti mand_false)
                   (grouping + sz + 1) (s2, lm);
    s4 ← on_node s3 iti (with_ref 0);
    s5 ← (if (gr_used : bool) then Ok s4 else uses_behind s4 grouping iti mand_false);
    Ok ((s5, lm'), i).

Definition ay_ynode_create_groupings_toplevel (st : gstate) : res gstate :=
  sweep fst (2 * length (mem (fst st))) groupings_toplevel_step 1 st.

(** ** Groupings of the recursive form *)

Section recursive.
Context (lm : list lnode).

(** The leafrefs among the elements of the subtree of [branch] from [k] on. *)
Fixpoint leafref_uses (fuel : nat) (s : ytree) (branch k : nat) (gid : Z) : res ytree :=
  sz ← size_of s branch;
  if (sz <=? k)%nat then Ok s
  else
    match fuel with
    | 0 => Fault OutOfFuel
    | S fuel' =>
        let lf := (branch + k + 1)%nat in
        d ← dget s lf;
        if bool_decide (type d ≠ YN_LEAFREF) then leafref_uses fuel' s branch (S k) gid
        else
          s1 ← ay_ynode_insert_sibling s lf;
          uses ← next_node s1 lf;
          s2 ← on_node s1 uses (λ e, with_choice (choice d) (with_ref gid (with_type YN_USES e)));
          leafref_uses fuel' s2 branch (S k) gid
    end.

Definition ay_ynode_leafref_insert_uses (s : ytree) (first_branch : option nat) (gid : Z) : res ytree :=
  match first_branch with
  | None => Ok s
  | Some f =>
      walk_tree (λ s b,
        fd ← dget s f;
        same ← same_choice s (choice fd) b;
        if negb same then Ok (s, None)
        else s' ← leafref_uses (length (mem s)) s b 0 gid; Ok (s', Some b)) first_branch s
  end.

Fixpoint choice_count (fuel : nat) (s : ytree) (c : option nat) (iter : option nat) (cnt : nat) : res nat :=
  match iter with
  | None => Ok cnt
  | Some i =>
      match fuel with
      | 0 => Fault OutOfFuel
      | S fuel' =>
          n ← fetch (mem s) i;
          if bool_decide (choice (data n) ≠ c) then Ok cnt
          else
            r ← contains_rec lm s i;
            choice_count fuel' s c (next n) (if (r : bool) then cnt else S cnt)
      end
  end.

Definition ay_ynode_grouping_choice_count (s : ytree) (grch : nat) : res nat :=
  d ← dget s grch; choice_count (length (mem s)) s (choice d) (Some grch) 0.

(** The new node in front of [i]. *)
Definition insert_in_front (s : ytree) (i : nat) : res ytree :=
  p ← parent_node s i;
  c ← child_of s p;
  if bool_decide (c = Some i) then ay_ynode_insert_child s p
  else prev ← ay_ynode_get_prev (mem s) i; pr ← deref prev; ay_ynode_insert_sibling s pr.

(** [for (branch = node->next; contains_rec(branch); branch = branch->next) {}] *)
Definition first_plain (s : ytree) (nd : nat) : res nat :=
  nx ← next_of s nd;
  o ← skip_rec lm (length (mem s)) (mem s) true nx;
  deref o.

(** YN_USES in front of [j] and the deletion of [cnt] branches; the pointer that
    is used for the node in front of the first child is the child of the node
    inserted there. *)
Definition recursive_uses (gid grch_id : Z) (cnt : nat) (s : ytree) (j : nat) : res ytree :=
  n ← fetch (mem s) j;
  if negb (ref (data n) =? grch_id)%Z then Ok s
  else
    p ← deref (parent n);
    c ← child_of s p;
    '(s1, uses) ← (if bool_decide (c = Some j) then
                     s' ← ay_ynode_insert_child s p; u ← child_node s' j; Ok (s', u)
                   else
                     prev ← ay_ynode_get_prev (mem s) j;
                     pr ← deref prev;
                     s' ← ay_ynode_insert_sibling s pr;
                     u ← next_node s' pr;
                     Ok (s', u));
    di ← dget s1 (S j);
    s2 ← on_node s1 uses (λ d, with_ref gid (with_choice (choice di) (with_type YN_USES d)));
    s3 ← times cnt (λ s', b ← first_plain s' uses; ay_ynode_delete_subtree s' b) s2;
    ay_ynode_leafref_insert_uses s3 (Some (S j)) gid.

(** The node of the choice is referred to by its place behind the grouping, which
    another branch may take. *)
Definition recursive_groupings_step (s : ytree) (i : nat) : res (ytree * nat) :=
  d ← dget s i;
  if negb (ref d =? id d)%Z || negb (has_flag d AY_GROUPING_CHOICE) then Ok (s, i)
  else
    s1 ← on_node s i (with_ref 0);
    s2 ← insert_in_front s1 i;
    grch ← next_node s2 i;
    dg ← dget s2 grch;
    p ← parent_node s2 i;
    pd ← dget s2 p;
    s3 ← on_node s2 i (λ d, with_snode (snode pd) (with_choice (choice dg) (with_type YN_GROUPING d)));
    cnt ← ay_ynode_grouping_choice_count s3 grch;
    s4 ← times cnt (λ s', b ← first_plain s' i; ay_ynode_move_subtree_as_last_child s' i b) s3;
    gd ← dget s4 i;
    nx ← next_of s4 i;
    s5 ← ay_ynode_leafref_insert_uses s4 nx (id gd);
    s6 ← ay_ynode_insert_sibling s5 i;
    uses ← next_node s6 i;
    c ← child_node s6 i;
    dc ← dget s6 c;
    s7 ← on_node s6 uses (λ d, with_ref (id gd)
           (add_flag (Z.land (flags dc) AY_CHOICE_MAND_FALSE) (with_choice (choice gd) (with_type YN_USES d))));
    s8 ← (if has_flag dc AY_CHOICE_MAND_FALSE then
            s' ← on_node s7 uses (add_flag AY_CHOICE_MAND_FALSE);
            on_node s' c (clear_flag AY_CHOICE_MAND_FALSE)
          else Ok s7);
    s9 ← sweep (λ s, s) (2 * length (mem s))
           (λ s' j, dgr ← dget s' grch; s'' ← recursive_uses (id gd) (id dgr) cnt s' j; Ok (s'', j))
           (S uses) s8;
    sz ← size_of s9 i;
    Ok (s9, i + sz)%nat.

Definition ay_ynode_create_groupings_recursive_form (s : ytree) : res ytree :=
  sweep_tree recursive_groupings_step s.

(** ** Splitting nodes *)

(** The number of siblings in front of [nd] with the same regular expression. *)
Fixpoint seq_index (fuel : nat) (m : list ynode) (iter : option nat) (nd : nat) (nodelab : option lens)
    (idx : nat) : res nat :=
  match iter with
  | None => Fault AssertFailed
  | Some i =>
      if (i =? nd)%nat then Ok idx
      else
        match fuel with
        | 0 => Fault OutOfFuel
        | S fuel' =>
            n ← fetch m i;
            l ← label_lens lm n;
            eq ← (match l with
                  | Some il => nl ← deref nodelab; Ok (same_regexp il nl)
                  | None => Ok false
                  end);
            seq_index fuel' m (next n) nd nodelab (if (eq : bool) then S idx else idx)
        end
  end.

Definition ay_ynode_splitted_seq_index (m : list ynode) (nd : nat) : res nat :=
  n ← fetch m nd;
  l ← label_lens lm n;
  p ← deref (parent n);
  pn ← fetch m p;
  seq_index (length m) m (child pn) nd l 0.

(** The identifier of the grouping for the inner nodes, 0 if there is none. *)
Definition split_grouping (s : ytree) (nd : nat) (inner : option nat) (rec_form valid_when : bool)
  : res (ytree * Z) :=
  match inner with
  | None => Ok (s, 0%Z)
  | Some g =>
      n ← fetch (mem s) g;
      let d := data n in
      if bool_decide (type d = YN_USES) && bool_decide (next n = None) then Ok (s, ref d)
      else if bool_decide (type d = YN_GROUPING) then Ok (s, id d)
      else if negb rec_form && valid_when then
        s1 ← ay_ynode_insert_parent_for_rest s g;
        p ← parent_node s1 g;
        pd ← dget s1 p;
        s2 ← on_node s1 g (λ e, with_snode (snode pd) (with_type YN_GROUPING e));
        gd ← dget s2 g;
        s3 ← ay_ynode_insert_sibling s2 g;
        u ← next_node s3 g;
        s4 ← on_node s3 u (λ e, with_ref (id gd) (with_type YN_USES e));
        Ok (s4, id gd)
      else Ok (s, 0%Z)
  end.

(** A new first child of [par] with the data that [f] gives. *)
Definition put_child (s : ytree) (par : nat) (f : ydata → ydata) : res ytree :=
  s1 ← ay_ynode_insert_child s par; c ← child_node s1 par; on_node s1 c f.

Definition copy_child (s : ytree) (par : nat) (src : option nat) : res ytree :=
  match src with
  | None => Ok s
  | Some k => s1 ← ay_ynode_insert_child s par;
              c ← child_node s1 par;
              d ← dget s1 k;
              on_node s1 c (λ e, ay_ynode_copy_data e d)
  end.

Definition split_once (nd : nat) (key value : option nat) (gid : Z) (copy : bool) (s : ytree) : res ytree :=
  if copy then ay_ynode_copy_subtree_as_sibling s nd nd
  else
    s1 ← ay_ynode_insert_sibling s nd;
    new ← next_node s1 nd;
    d ← dget s1 nd;
    s2 ← on_node s1 new (λ e, ay_ynode_copy_data e d);
    s3 ← (if (gid =? 0)%Z then Ok s2 else put_child s2 new (λ e, with_ref gid (with_type YN_USES e)));
    s4 ← copy_child s3 new value;
    copy_child s4 new key.

Definition node_split_node (s : ytree) (i : nat) : res ytree :=
  k ← ay_ynode_rule_node_is_splittable lm (mem s) patt_table i;
  idx ← (if (k =? 0)%Z then Ok 1 else ay_ynode_splitted_seq_index (mem s) i);
  if negb (idx =? 0)%nat then Ok s
  else
    n ← fetch (mem s) i;
    _ ← c_assert (bool_decide (is_Some (label (data n))));
    ll ← label_lens lm n;
    l ← deref ll;
    let idents := ay_lense_pattern_idents_count patt_table l in
    _ ← c_assert (1 <? idents)%nat;
    s1 ← (if bool_decide (choice (data n) = None)
          then on_node s i (λ d, add_flag AY_CHOICE_CREATED (with_choice ROOT_LTREE d)) else Ok s);
    inner ← ay_ynode_inner_nodes (mem s1) i;
    lf ← ay_ynode_subtree_contains_type (mem s1) i YN_LEAFREF;
    let rec_form := bool_decide (is_Some lf) in
    valid ← ay_ynode_when_paths_are_valid (mem s1) i false;
    '(s2, gid) ← split_grouping s1 i inner rec_form valid;
    key ← ay_ynode_parent_has_child (mem s2) i YN_KEY;
    value ← ay_ynode_parent_has_child (mem s2) i YN_VALUE;
    times (idents - 1) (split_once i key value gid (rec_form || negb valid)) s2.

Definition ay_ynode_node_split (s : ytree) : res ytree := sweep_nodes node_split_node s.
End recursive.

(** ** Groupings in front of the list *)

(** The YN_USES nodes below the grouping [gr], from element [k] on; inner groupings
    are skipped. *)
Fixpoint insert_uses (fuel : nat) (m : list ynode) (gr k : nat) (d : dict nat) (inserted : bool)
  : res (dict nat * bool) :=
  g ← fetch m gr;
  if (below g <=? k)%nat then Ok (d, inserted)
  else
    match fuel with
    | 0 => Fault OutOfFuel
    | S fuel' =>
        n ← fetch m (gr + k + 1);
        if bool_decide (type (data n) = YN_USES) then
          d' ← ay_dnode_insert None d (Some gr) (Some (gr + k + 1)%nat);
          insert_uses fuel' m gr (S k) d' true
        else if bool_decide (type (data n) = YN_GROUPING) then insert_uses fuel' m gr (k + below n + 1) d inserted
        else insert_uses fuel' m gr (S k) d inserted
    end.

Definition insert_grouping (m : list ynode) (r : res (dict nat)) (i : nat) : res (dict nat) :=
  d ← r;
  n ← fetch m i;
  if bool_decide (type (data n) = YN_GROUPING) then
    '(d', inserted) ← insert_uses (length m) m i 0 d false;
    if (inserted : bool) then Ok d' else ay_dnode_insert None d' (Some i) None
  else Ok d.

(** Whether all YN_USES among the values refer to groupings in [sort]. *)
Fixpoint resolved (m : list ynode) (values : list (dnode nat)) (sort : list Z) : res bool :=
  match values with
  | [] => Ok true
  | v :: values' =>
      match kvd v with
      | None => Ok true
      | Some us =>
          n ← fetch m us;
          if bool_decide (ref (data n) ∈ sort) then resolved m values' sort else Ok false
      end
  end.

Definition resolve_key (m : list ynode) (st : res (dict nat * list Z)) (k : nat) : res (dict nat * list Z) :=
  '(d, sort) ← st;
  key ← fetch (items d) k;
  match kvd key with
  | None => Ok (d, sort)
  | Some gr =>
      l ← keyval d k;
      b ← resolved m (drop 1 l) sort;
      if (b : bool) then
        n ← fetch m gr;
        l' ← store (items d) k (DNode (values_count key) None);
        Ok (Dict l' (dcount d), sort ++ [id (data n)])
      else Ok (d, sort)
  end.

(** [while (cnt < keys)]; it does not end when groupings refer to each other. *)
Fixpoint resolve_all (fuel : nat) (m : list ynode) (keys : nat) (d : dict nat) (sort : list Z) : res (list Z) :=
  if (keys <=? length sort)%nat then Ok sort
  else
    match fuel with
    | 0 => Fault OutOfFuel
    | S fuel' =>
        ks ← dict_keys d;
        '(d', sort') ← foldl (resolve_key m) (Ok (d, sort)) ks;
        resolve_all fuel' m keys d' sort'
    end.

Definition move_grouping (r : res ytree) (gid : Z) : res ytree :=
  s ← r;
  match ay_ynode_get_node s 1 gid with
  | Some j => ay_ynode_move_subtree_as_last_child s 0 j
  | None => Ok s
  end.

Definition count_type (s : ytree) (t : yang_type) : nat :=
  length (filter (λ n, type (data n) = t) (drop 1 (take (count s) (mem s)))).

(** [zeros] is the allocated memory of the dictionary. *)
Definition ay_ynode_groupings_ahead (s : ytree) : res ytree :=
  let keys := count_type s YN_GROUPING in
  let cnt := count_type s YN_USES in
  if (keys =? 0)%nat then _ ← c_assert (cnt =? 0)%nat; Ok s
  else
    let zeros := repeat (DNode 0 None) (keys * 2 + cnt) in
    d ← foldl (insert_grouping (mem s)) (Ok (Dict zeros 0)) (seq 1 (count s - 1));
    sort ← resolve_all (S keys) (mem s) keys d [];
    s1 ← foldl move_grouping (Ok s) sort;
    c ← child_node s1 0;
    dc ← dget s1 c;
    _ ← c_assert (bool_decide (type dc = YN_LIST));
    last ← last_node s1 (Some c);
    dl ← dget s1 last;
    if bool_decide (type dl ≠ YN_LIST) then ay_ynode_move_subtree_as_sibling s1 last c else Ok s1.
End group.
