(* ===== verification/Pnode.v ===== *)
(** The terms of a parsed module: the tree of pnodes of [src/terms.c].  A term of
    libaugeas is a rose tree, a pnode an element of an array in preorder; its
    [bind] and [ref] are indices.  The terms come from [augl_parse_file]. *)
From S2P Require Import Prelude CString Common Preorder Lnode TransBase.

(** ** Terms of libaugeas *)

Inductive term_tag :=
| A_MODULE | A_BIND | A_LET | A_COMPOSE | A_UNION | A_MINUS | A_CONCAT | A_APP
| A_VALUE | A_IDENT | A_BRACKET | A_FUNC | A_REP | A_TEST.

#[export] Instance term_tag_eq_dec : EqDecision term_tag.
Proof. solve_decision. Defined.

(** [struct info]: the place in the source text. *)
Record info := Info {
  first_line : Z;
  first_column : Z;
  last_line : Z;
  last_column : Z;
  filename : cstr
}.

(** The value of a term A_VALUE. *)
Inductive term_value := TString (s : cstr) | TRegexp (re : regexp) | TOther.

(** The quantifier of a term A_REP. *)
Inductive quant_tag := Q_STAR | Q_PLUS | Q_MAYBE.

(** [tname] is [bname] for A_BIND, [param->name->str] for A_FUNC, [ident->str] for
    A_IDENT. *)
Record tdata := TData {
  ttag : term_tag;
  tinfo : info;
  tname : cstr;
  tvalue : term_value;
  quant : quant_tag
}.

Abbreviation term := (tree tdata) (only parsing).

Section visitor.
Context {D : Type} (func : term → D → res D).

Fixpoint ay_term_visitor (t : term) (d : D) : res D :=
  match t with
  | T x ts =>
      d1 ← func t d;
      match ttag x with
      | A_MODULE =>
          (fix go l d := match l with
           | [] => Ok d
           | dcl :: l' =>
               _ ← c_assert (bool_decide (ttag (root_data dcl) = A_BIND));
               d' ← ay_term_visitor dcl d; go l' d'
           end) ts d1
      | A_BIND | A_BRACKET | A_FUNC | A_REP =>
          match ts with
          | t1 :: _ => ay_term_visitor t1 d1
          | [] => Fault NullDeref
          end
      | A_LET | A_COMPOSE | A_UNION | A_MINUS | A_CONCAT | A_APP =>
          match ts with
          | t1 :: t2 :: _ => d2 ← ay_term_visitor t1 d1; ay_term_visitor t2 d2
          | _ => Fault NullDeref
          end
      | A_VALUE | A_IDENT | A_TEST => Ok d1
      end
  end.
End visitor.

Definition ay_term_count (t : term) (cnt : Z) : res Z := Ok (u64 (cnt + 1)).

(** ** Pnodes *)

Definition AY_PNODE_HAS_REGEXP : Z := 0x1.
Definition AY_PNODE_REG_MINUS : Z := 0x2.
Definition AY_PNODE_REG_UNMIN : Z := 0x4.
Definition AY_PNODE_FOR_SNODE : Z := 0x08.
Definition AY_PNODE_FOR_SNODES : Z := 0x10.

(** The union of [ref] and [regexp]. *)
Inductive pointer := PNull | PRef (i : nat) | PRegexp (re : regexp).

(** The members of [struct ay_pnode] behind the links; the term is its data. *)
Record pdata := PData { pflags : Z; pbind : option nat; pref : pointer; pterm : option tdata }.

Abbreviation pnode := (node pdata) (only parsing).

Definition zero_pdata : pdata := PData 0 None PNull None.
Definition zero_pnode : pnode := Node None None None 0 zero_pdata.

Definition with_pflags (x : Z) (d : pdata) : pdata := PData x (pbind d) (pref d) (pterm d).
Definition with_pbind (x : option nat) (d : pdata) : pdata := PData (pflags d) x (pref d) (pterm d).
Definition with_pref (x : pointer) (d : pdata) : pdata := PData (pflags d) (pbind d) x (pterm d).
Definition with_pterm (x : option tdata) (d : pdata) : pdata := PData (pflags d) (pbind d) (pref d) x.

Definition pflag (d : pdata) (mask : Z) : bool := negb (Z.land (pflags d) mask =? 0)%Z.
Definition set_pflag (mask : Z) (d : pdata) : pdata := with_pflags (Z.lor (pflags d) mask) d.

Definition on_pnode (m : list pnode) (i : nat) (f : pdata → pdata) : res (list pnode) :=
  modify m i (λ n, set_data (f (data n)) n).

(** The pnode that [ref] points to when the flag says that it is one; the other
    member of the union cannot be followed. *)
Definition AY_PNODE_REF (d : pdata) : res (option nat) :=
  if pflag d AY_PNODE_HAS_REGEXP then Ok None
  else match pref d with PNull => Ok None | PRef i => Ok (Some i) | PRegexp _ => Fault OutOfBounds end.

(** [node->term], [node->term->tag]. *)
Definition term_of (m : list pnode) (i : nat) : res tdata := n ← fetch m i; deref (pterm (data n)).
Definition ptag (m : list pnode) (i : nat) : res term_tag := t ← term_of m i; Ok (ttag t).
Definition pref_of (m : list pnode) (i : nat) : res (option nat) := n ← fetch m i; AY_PNODE_REF (data n).

(** [node->child], [node->child->next]. *)
Definition left_of (m : list pnode) (i : nat) : res nat := n ← fetch m i; deref (child n).
Definition right_of (m : list pnode) (i : nat) : res nat :=
  l ← left_of m i; n ← fetch m l; deref (next n).

(** ** Creation of the tree *)

(** The array and the iterator. *)
Definition ay_pnode_set_term (t : term) (st : list pnode * nat) : res (list pnode * nat) :=
  let '(m, iter) := st in
  m1 ← on_pnode m iter (with_pterm (Some (root_data t)));
  cnt ← ay_term_visitor ay_term_count t 0%Z;
  m2 ← modify m1 iter (set_descendants (u32 (cnt - 1)));
  Ok (m2, S iter).

Definition ay_pnode_tree_correction (m : list pnode) : res (list pnode) := tree_correction (length m) m.

(** [iter = &bind[i + 1]] for [i] from 0 on. *)
Fixpoint bind_block (n : nat) (m : list pnode) (i bind : nat) : res (list pnode) :=
  match n with
  | 0 => Ok m
  | S n' => m' ← on_pnode m i (with_pbind (Some bind)); bind_block n' m' (S i) bind
  end.

Fixpoint bind_siblings (fuel : nat) (m : list pnode) (bind : option nat) : res (list pnode) :=
  match bind with
  | None => Ok m
  | Some b =>
      match fuel with
      | 0 => Fault OutOfFuel
      | S fuel' =>
          n ← fetch m b;
          m' ← bind_block (below n) m (S b) b;
          n' ← fetch m' b;
          bind_siblings fuel' m' (next n')
      end
  end.

Definition ay_pnode_set_bind (m : list pnode) : res (list pnode) :=
  r ← fetch m 0; bind_siblings (length m) m (child r).

(** The tree of [ay_pnode_create] before the lnodes get their pnodes. *)
Definition create_tree (t : term) : res (list pnode) :=
  cnt ← ay_term_visitor ay_term_count t 0%Z;
  '(m, _) ← ay_term_visitor ay_pnode_set_term t (replicate (Z.to_nat cnt) zero_pnode, 0);
  m1 ← ay_pnode_tree_correction m;
  ay_pnode_set_bind m1.

(** ** Data *)

Definition ay_pnode_copy_data (dst src : pdata) : pdata :=
  PData (pflags src) (pbind src) (pref src) (pterm src).

Definition ay_pnode_swap_data (m : list pnode) (first second : nat) : res (list pnode) :=
  a ← fetch m first;
  b ← fetch m second;
  m1 ← on_pnode m first (λ d, ay_pnode_copy_data d (data b));
  on_pnode m1 second (λ d, ay_pnode_copy_data d (data a)).

Definition ay_term_info_equal (i1 i2 : info) : bool :=
  negb (negb (first_line i1 =? first_line i2)%Z
        || negb (first_column i1 =? first_column i2)%Z
        || negb (last_line i1 =? last_line i2)%Z
        || negb (last_column i1 =? last_column i2)%Z
        || negb (streq (filename i1) (filename i2))).

(** [n] elements from [i] on. *)
Fixpoint find_info (n : nat) (m : list pnode) (i : nat) (inf : info) : res (option nat) :=
  match n with
  | 0 => Ok None
  | S n' =>
      t ← term_of m i;
      if ay_term_info_equal (tinfo t) inf then Ok (Some i) else find_info n' m (S i) inf
  end.

Definition ay_pnode_find_by_info (m : list pnode) (inf : info) : res (option nat) :=
  find_info (length m) m 0 inf.

(** ** Searches *)

(** [for (i = 0; i <= regex->descendants; i++)] with a result so far. *)
Section block.
Context {A : Type} (body : nat → A → res A).

Fixpoint each_of_block (n i : nat) (a : A) : res A :=
  match n with
  | 0 => Ok a
  | S n' => a' ← body i a; each_of_block n' (S i) a'
  end.
End block.

Definition each_in_subtree {A} (m : list pnode) (regex : nat) (body : nat → A → res A) (a : A) : res A :=
  n ← fetch m regex; each_of_block body (S (below n)) regex a.

(** The recursion goes through [ref]. *)
Fixpoint minus_count (fuel : nat) (m : list pnode) (regex : nat) : res Z :=
  match fuel with
  | 0 => Fault OutOfFuel
  | S fuel' =>
      each_in_subtree m regex (λ i ret,
        t ← ptag m i;
        if bool_decide (t = A_MINUS) then Ok (u32 (ret + 1))
        else
          r ← pref_of m i;
          match r with
          | Some j => c ← minus_count fuel' m j; Ok (u32 (ret + c))
          | None => Ok ret
          end) 0%Z
  end.

Definition ay_pnode_minus_count (m : list pnode) (regex : nat) : res Z := minus_count (S (length m)) m regex.

(** [for (iter = ident; iter != ident->bind; iter = iter->parent)]. *)
Fixpoint func_above (fuel : nat) (m : list pnode) (iter bind : option nat) (name : cstr) : res (option nat) :=
  if bool_decide (iter = bind) then Ok None
  else
    match fuel with
    | 0 => Fault OutOfFuel
    | S fuel' =>
        i ← deref iter;
        n ← fetch m i;
        t ← deref (pterm (data n));
        let go := func_above fuel' m (parent n) bind name in
        if negb (bool_decide (ttag t = A_FUNC)) then go
        else
          p ← deref (parent n);
          pt ← ptag m p;
          if negb (bool_decide (pt = A_LET)) then go
          else if streq (tname t) name then Ok (Some i) else go
    end.

Definition ay_pnode_find_func (m : list pnode) (ident : nat) : res (option nat) :=
  n ← fetch m ident;
  t ← deref (pterm (data n));
  _ ← c_assert (bool_decide (ttag t = A_IDENT));
  func_above (length m) m (Some ident) (pbind (data n)) (tname t).

Fixpoint bind_from (fuel : nat) (m : list pnode) (iter : option nat) (name : cstr) : res (option nat) :=
  match iter with
  | None => Ok None
  | Some i =>
      match fuel with
      | 0 => Fault OutOfFuel
      | S fuel' =>
          t ← term_of m i;
          _ ← c_assert (bool_decide (ttag t = A_BIND));
          if streq (tname t) name then Ok (Some i)
          else n ← fetch m i; bind_from fuel' m (next n) name
      end
  end.

Definition ay_pnode_find_bind (m : list pnode) (ident : nat) : res (option nat) :=
  r ← fetch m 0;
  t ← term_of m ident;
  bind_from (length m) m (child r) (tname t).

Fixpoint evaluated (fuel : nat) (m : list pnode) (regex : nat) : res bool :=
  match fuel with
  | 0 => Fault OutOfFuel
  | S fuel' =>
      each_in_subtree m regex (λ i ret,
        if negb ret then Ok false
        else
          t ← ptag m i;
          if negb (bool_decide (t = A_IDENT)) then Ok true
          else
            n ← fetch m i;
            match pref (data n) with
            | PNull => Ok false
            | _ =>
                r ← pref_of m i;
                match r with Some j => evaluated fuel' m j | None => Ok true end
            end) true
  end.

Definition ay_pnode_ident_are_evaluated (m : list pnode) (regex : nat) : res bool :=
  evaluated (S (length m)) m regex.

Fixpoint simple_minus (fuel : nat) (m : list pnode) (regex : nat) : res bool :=
  match fuel with
  | 0 => Fault OutOfFuel
  | S fuel' =>
      r ← pref_of m regex;
      match r with
      | Some j => simple_minus fuel' m j
      | None =>
          t ← ptag m regex;
          match t with
          | A_REP => c ← left_of m regex; simple_minus fuel' m c
          | A_UNION =>
              c ← left_of m regex; a ← simple_minus fuel' m c;
              c' ← right_of m regex; b ← simple_minus fuel' m c';
              Ok (a || b)
          | A_MINUS =>
              cnt ← ay_pnode_minus_count m regex;
              if negb (cnt =? 1)%Z then Ok false else ay_pnode_ident_are_evaluated m regex
          | _ => Ok false
          end
      end
  end.

Definition ay_pnode_is_simple_minus_regex (m : list pnode) (regex : nat) : res bool :=
  simple_minus (S (length m)) m regex.

(** ** References *)

Fixpoint regexp_binding (l : list binding) (lensname : cstr) : option regexp :=
  match l with
  | [] => None
  | b :: l' =>
      if negb (streq (bident b) lensname) || negb (bool_decide (btag b = V_REGEXP))
      then regexp_binding l' lensname
      else Some (bregexp b)
  end.

(** The module is dereferenced without a test. *)
Definition ay_get_regexp_by_lensname (md : option amodule) (lensname : cstr) : res (option regexp) :=
  md ← deref md; Ok (regexp_binding (bindings md) lensname).

Definition ay_pnode_regexp_lookup_in_diff_mod (modules : list amodule) (ident : cstr) : res (option regexp) :=
  match strchr ident "." with
  | None => Ok None
  | Some dot =>
      let md := ay_get_module modules ident dot in
      let lensname := drop (S dot) ident in
      _ ← c_assert (at_ lensname 0 <>c NUL);
      ay_get_regexp_by_lensname md lensname
  end.

Fixpoint set_ref_in (fuel : nat) (modules : list amodule) (m : list pnode) (regex : nat) : res (list pnode) :=
  match fuel with
  | 0 => Fault OutOfFuel
  | S fuel' =>
      each_in_subtree m regex (λ i m,
        t ← term_of m i;
        if negb (bool_decide (ttag t = A_IDENT)) then Ok m
        else
          re ← ay_pnode_regexp_lookup_in_diff_mod modules (tname t);
          match re with
          | Some re => on_pnode m i (λ d, with_pref (PRegexp re) (set_pflag AY_PNODE_HAS_REGEXP d))
          | None =>
              func ← ay_pnode_find_func m i;
              match func with
              | Some f =>
                  fn ← fetch m f; p ← deref (parent fn); r ← right_of m p;
                  m' ← on_pnode m i (with_pref (PRef r));
                  set_ref_in fuel' modules m' r
              | None =>
                  bind ← ay_pnode_find_bind m i;
                  match bind with
                  | Some b =>
                      bn ← fetch m b;
                      m' ← on_pnode m i (with_pref (match child bn with Some c => PRef c | None => PNull end));
                      c ← deref (child bn);
                      set_ref_in fuel' modules m' c
                  | None => Ok m
                  end
              end
          end) m
  end.

Definition ay_pnode_set_ref (modules : list amodule) (m : list pnode) (regex : nat) : res (list pnode) :=
  set_ref_in (S (length m)) modules m regex.

Fixpoint ref_apply (fuel : nat) (m : list pnode) (regex : nat) : res nat :=
  match fuel with
  | 0 => Fault OutOfFuel
  | S fuel' =>
      r ← pref_of m regex;
      match r with Some j => ref_apply fuel' m j | None => Ok regex end
  end.

Definition ay_pnode_ref_apply (m : list pnode) (regex : nat) : res nat := ref_apply (S (length m)) m regex.

Fixpoint swap_rep_minus (fuel : nat) (m : list pnode) (regex : nat) : res (list pnode) :=
  match fuel with
  | 0 => Fault OutOfFuel
  | S fuel' =>
      iter ← ay_pnode_ref_apply m regex;
      t ← ptag m iter;
      match t with
      | A_UNION =>
          c ← left_of m iter; m1 ← swap_rep_minus fuel' m c;
          c' ← right_of m1 iter; swap_rep_minus fuel' m1 c'
      | A_REP =>
          c ← left_of m iter;
          ct ← ptag m c;
          if bool_decide (ct = A_MINUS) then ay_pnode_swap_data m iter c else Ok m
      | _ => Ok m
      end
  end.

Definition ay_pnode_swap_rep_minus (m : list pnode) (regex : nat) : res (list pnode) :=
  swap_rep_minus (S (length m)) m regex.

(** ** Pnodes of lnodes *)

Definition AY_REGEX_LONG : nat := 72.

Fixpoint regex_is_long (s : cstr) (cnt : nat) : bool :=
  match s with
  | [] => false
  | _ :: s' => if (AY_REGEX_LONG <=? S cnt)%nat then true else regex_is_long s' (S cnt)
  end.

Definition ay_regex_is_long (regex : cstr) : bool := regex_is_long regex 0.

(** The search for the LET; the result is the A_FUNC and the node where the loop
    stopped. *)
Fixpoint let_above (fuel : nat) (m : list pnode) (iter : option nat) (prev : nat)
  : res (option nat * option nat) :=
  match iter with
  | None => Ok (None, None)
  | Some i =>
      match fuel with
      | 0 => Fault OutOfFuel
      | S fuel' =>
          n ← fetch m i;
          t ← ptag m i;
          match t with
          | A_BIND => Ok (None, Some i)
          | A_LET =>
              c ← deref (child n);
              ct ← ptag m c;
              pt ← ptag m prev;
              if bool_decide (ct = A_FUNC) && negb (prev =? c)%nat && negb (bool_decide (pt = A_FUNC))
              then Ok (Some c, Some i)
              else let_above fuel' m (parent n) i
          | A_BRACKET => Ok (None, Some i)
          | _ => let_above fuel' m (parent n) i
          end
      end
  end.

Definition ay_lnode_get_pnode_name (m : list pnode) (start : option nat) : res (option nat) :=
  match start with
  | None => Ok None
  | Some p =>
      n ← fetch m p;
      '(ret, iter) ← let_above (length m) m (parent n) p;
      i ← (match iter with Some i => Ok i | None => Fault AssertFailed end);
      from_let ← (match ret with
                  | None => Ok false
                  | Some f =>
                      fn ← fetch m f; b ← deref (pbind (data fn)); c ← left_of m b;
                      t ← ptag m c; Ok (bool_decide (t = A_LET))
                  end);
      if (from_let : bool) then Ok ret
      else
        c ← left_of m i;
        ct ← ptag m c;
        if bool_decide (ct = A_LET) then
          t ← ptag m i; _ ← c_assert (bool_decide (t = A_BIND)); Ok (Some i)
        else Ok None
  end.

Definition ay_pnode_for_regex (modules : list amodule) (m : list pnode) (start : option nat)
  : res (list pnode * option nat) :=
  match start with
  | None => Ok (m, None)
  | Some p =>
      t ← ptag m p;
      if negb (bool_decide (t = A_APP)) then Ok (m, None)
      else
        arg ← right_of m p;
        m1 ← ay_pnode_set_ref modules m arg;
        r ← ay_pnode_ref_apply m1 arg;
        m2 ← ay_pnode_swap_rep_minus m1 r;
        simple ← ay_pnode_is_simple_minus_regex m2 r;
        Ok (m2, if (simple : bool) then Some r else None)
  end.

Section lnodes.
Context (modules : list amodule) (lens_info : lens → info).

Definition set_lpnode (lm : list lnode) (i : nat) (p : option nat) : res (list lnode) :=
  modify lm i (λ n, let d := data n in set_data (LData (lens_of d) (lmod d) p (lflags d)) n).

Definition set_pnode_step (lm : list lnode) (m : list pnode) (i : nat) : res (list lnode * list pnode) :=
  n ← fetch lm i;
  let l := lens_of (data n) in
  let key := bool_decide (tag l = L_KEY) in
  if (bool_decide (tag l = L_STORE) || key) && ay_regex_is_long (text (pattern l)) then
    by_info ← ay_pnode_find_by_info m (lens_info l);
    '(m1, p) ← ay_pnode_for_regex modules m by_info;
    match p with
    | Some r =>
        m2 ← on_pnode m1 r (set_pflag AY_PNODE_REG_MINUS);
        lm' ← set_lpnode lm i (Some r); Ok (lm', m2)
    | None =>
        p' ← ay_lnode_get_pnode_name m1 by_info;
        lm' ← set_lpnode lm i p'; Ok (lm', m1)
    end
  else if key || bool_decide (tag l = L_SUBTREE) then
    by_info ← ay_pnode_find_by_info m (lens_info l);
    p ← ay_lnode_get_pnode_name m by_info;
    lm' ← set_lpnode lm i p; Ok (lm', m)
  else Ok (lm, m).

Fixpoint set_pnode_from (n i : nat) (lm : list lnode) (m : list pnode) : res (list lnode * list pnode) :=
  match n with
  | 0 => Ok (lm, m)
  | S n' => '(lm', m') ← set_pnode_step lm m i; set_pnode_from n' (S i) lm' m'
  end.

Definition ay_lnode_set_pnode (lm : list lnode) (lcount : nat) (m : list pnode)
  : res (list lnode * list pnode) :=
  '(lm1, m1) ← set_pnode_from lcount 0 lm m;
  r ← fetch lm1 0;
  let t := ltag r in
  _ ← c_assert (negb (bool_decide (t = L_STORE)) && negb (bool_decide (t = L_KEY)));
  lm2 ← set_lpnode lm1 0 (Some 0);
  Ok (lm2, m1).

(** [parsed] is what [augl_parse_file] gives: nothing after an error. *)
Definition ay_pnode_create (parsed : option term) (lm : list lnode) (lcount : nat)
  : res (list lnode * list pnode) :=
  match parsed with
  | None => Err AYE_PARSE_FAILED
  | Some t => m ← create_tree t; ay_lnode_set_pnode lm lcount m
  end.
End lnodes.
