(* ===== verification/PnodeTheorems.v ===== *)
(** The tree of pnodes that [ay_pnode_create] builds: for every well-formed term it
    is the canonical array of the term, with the index of the enclosing binding in
    every node below a binding. *)
From S2P Require Import Prelude CString Common Preorder PreorderFacts Lnode TransBase Pnode.

(** ** Well-formed terms *)

(** The children that the grammar gives to a term; declarations that are tests are
    not bindings. *)
Definition arity_ok (x : tdata) (ts : list term) : bool :=
  match ttag x with
  | A_MODULE => forallb (λ t, bool_decide (ttag (root_data t) = A_BIND)) ts
  | A_BIND | A_BRACKET | A_FUNC | A_REP => (length ts =? 1)%nat
  | A_LET | A_COMPOSE | A_UNION | A_MINUS | A_CONCAT | A_APP => (length ts =? 2)%nat
  | A_VALUE | A_IDENT | A_TEST => (length ts =? 0)%nat
  end.

Fixpoint wf_term (t : term) : bool :=
  match t with T x ts => arity_ok x ts && forallb wf_term ts end.

(** The terms in preorder. *)
Fixpoint subterms (t : term) : list term :=
  match t with
  | T x ts => t :: (fix go l := match l with [] => [] | t' :: l' => subterms t' ++ go l' end) ts
  end.
Fixpoint subterms_of (ts : list term) : list term :=
  match ts with [] => [] | t :: ts' => subterms t ++ subterms_of ts' end.

Lemma subterms_T x ts : subterms (T x ts) = T x ts :: subterms_of ts.
Proof.
  cbn. f_equal.
Qed.

Fixpoint visit_all {D} (func : term → D → res D) (l : list term) (d : D) : res D :=
  match l with [] => Ok d | t :: l' => d' ← func t d; visit_all func l' d' end.

Lemma visit_all_app {D} (func : term → D → res D) l1 l2 d :
  visit_all func (l1 ++ l2) d = (d' ← visit_all func l1 d; visit_all func l2 d').
Proof.
  revert d. induction l1 as [|t l1 IH]; intros d; cbn; [done|].
  destruct (func t d); cbn; [apply IH|done..].
Qed.

Lemma visitor_visits {D} (func : term → D → res D) t d :
  wf_term t = true → ay_term_visitor func t d = visit_all func (subterms t) d.
Proof.
  revert d. induction t as [x ts IH] using tree_nested_ind; intros d Hwf.
  cbn [wf_term] in Hwf. apply andb_prop in Hwf as [Ha Hts]. rewrite subterms_T.
  cbn [ay_term_visitor visit_all]. destruct (func (T x ts) d) as [d1|e|f]; [|done..]. rewrite !bind_Ok.
  unfold arity_ok in Ha. destruct (ttag x);
  [|solve [destruct ts as [|t1 [|t2 [|]]]; try done; cbn in Hts;
    repeat (apply andb_prop in Hts as [? Hts]); repeat (apply Forall_cons in IH as [? IH]);
    cbn [subterms_of]; rewrite ?visit_all_app; cbn [visit_all];
    match goal with
    | H : ∀ d, _ → ay_term_visitor _ ?t d = _ |- ay_term_visitor _ ?t _ = _ => rewrite H by done
    | H : ∀ d, _ → ay_term_visitor _ ?t d = _ |- (ay_term_visitor _ ?t _ ≫= _) = _ => rewrite H by done
    | |- _ => idtac
    end;
    destruct (visit_all func _ d1) eqn:E; cbn; rewrite ?app_nil_r, ?visit_all_app; cbn; auto] ..].
  clear x. revert d1. induction IH as [|t ts Ht _ IHts]; intros d1; [done|].
  cbn in Ha, Hts. apply andb_prop in Ha as [Ha Has], Hts as [Hw Hts].
  rewrite c_assert_true, bind_Ok by done. cbn [subterms_of]. rewrite Ht, visit_all_app by done.
  destruct (visit_all func (subterms t) d1); cbn; [by apply IHts|done..].
Qed.

(** ** Counting and filling *)

Lemma length_subterms t : length (subterms t) = size t.
Proof.
  induction t as [x ts IH] using tree_nested_ind. rewrite subterms_T, size_T. cbn. f_equal.
  induction IH as [|t ts Ht _ IHts]; [done|]. cbn. by rewrite length_app, Ht, IHts.
Qed.

Lemma count_visits l c :
  (0 <= c)%Z → (c + Z.of_nat (length l) < 2 ^ 64)%Z →
  visit_all ay_term_count l c = Ok (c + Z.of_nat (length l))%Z.
Proof.
  revert c. induction l as [|t l IH]; intros c Hc Hlt; [cbn; by rewrite Z.add_0_r|].
  cbn [visit_all length] in *. unfold ay_term_count. rewrite bind_Ok, u64_small, IH by lia.
  f_equal. lia.
Qed.

Lemma count_term t :
  wf_term t = true → (Z.of_nat (size t) < 2 ^ 64)%Z →
  ay_term_visitor ay_term_count t 0%Z = Ok (Z.of_nat (size t)).
Proof.
  intros Hwf Hlt. rewrite visitor_visits, count_visits by (rewrite ?length_subterms; done || lia).
  by rewrite length_subterms.
Qed.

(** The pnode that [ay_pnode_set_term] leaves for a term. *)
Definition bare (x : tdata) : pdata := PData 0 None PNull (Some x).
Definition raw_pnode (t : term) : pnode :=
  Node None None None (Z.of_nat (size t) - 1) (bare (root_data t)).

Lemma set_term_one t pre post :
  wf_term t = true → (Z.of_nat (size t) < 2 ^ 32)%Z →
  ay_pnode_set_term t (pre ++ zero_pnode :: post, length pre)
  = Ok (pre ++ raw_pnode t :: post, S (length pre)).
Proof.
  intros Hwf Hlt. pose proof (size_pos t). unfold ay_pnode_set_term, on_pnode.
  rewrite modify_mid, bind_Ok, count_term, bind_Ok by (done || lia).
  by rewrite modify_mid, bind_Ok, u32_small by (done || lia).
Qed.

Lemma set_term_visits l : ∀ pre post,
  Forall (λ t, wf_term t = true ∧ (Z.of_nat (size t) < 2 ^ 32)%Z) l →
  visit_all ay_pnode_set_term l (pre ++ replicate (length l) zero_pnode ++ post, length pre)
  = Ok (pre ++ map raw_pnode l ++ post, length pre + length l)%nat.
Proof.
  induction l as [|t l IH]; intros pre post Hl; [by cbn; rewrite Nat.add_0_r|].
  apply Forall_cons in Hl as [[Hwf Hlt] Hl]. cbn [visit_all length replicate app map].
  rewrite set_term_one, bind_Ok by done.
  specialize (IH (pre ++ [raw_pnode t]) post Hl).
  rewrite length_app, <- !app_assoc in IH. cbn [length app] in IH.
  replace (length pre + 1)%nat with (S (length pre)) in IH by lia.
  replace (length pre + S (length l))%nat with (S (length pre) + length l)%nat by lia. exact IH.
Qed.

Lemma subterms_wf t : wf_term t = true → Forall (λ u, wf_term u = true ∧ (size u <= size t)%nat) (subterms t).
Proof.
  induction t as [x ts IH] using tree_nested_ind. intros Hwf. rewrite subterms_T. constructor; [done|].
  cbn in Hwf. apply andb_prop in Hwf as [_ Hts].
  apply Forall_impl with (P := λ u, wf_term u = true ∧ (size u <= sizes ts)%nat);
    [|intros u [??]; rewrite size_T; split; [done|lia]].
  induction IH as [|t ts Ht _ IHts]; [constructor|]. cbn in Hts. apply andb_prop in Hts as [Ht' Hts].
  cbn [subterms_of sizes]. apply Forall_app. split.
  - eapply Forall_impl; [by apply Ht|]. intros u [? ?]. split; [done|lia].
  - eapply Forall_impl; [by apply IHts|]. intros u [? ?]. split; [done|lia].
Qed.

Lemma strip_raw t : strip <$> map raw_pnode (subterms t) = flat (tmap bare t).
Proof.
  induction t as [x ts IH] using tree_nested_ind.
  rewrite subterms_T, tmap_T, flat_T, sizes_tmap. cbn [map]. rewrite fmap_cons. f_equal.
  - unfold strip, raw_pnode. cbn [descendants data root_data]. rewrite size_T. f_equal. lia.
  - induction IH as [|t ts Ht _ IHts]; [done|]. cbn [subterms_of map flats].
    by rewrite map_app, fmap_app, Ht, IHts.
Qed.

(** ** Bindings *)

(** [b] is the index of the first tree: the nodes below the root of a tree get the
    index of that root. *)
Fixpoint bound (b : nat) (ts : list (tree pdata)) : list (tree pdata) :=
  match ts with
  | [] => []
  | T d us :: ts' => T d (map (tmap (with_pbind (Some b))) us) :: bound (b + S (sizes us)) ts'
  end.

Lemma sizes_bound b ts : sizes (bound b ts) = sizes ts.
Proof.
  revert b. induction ts as [|[d us] ts IH]; intros b; [done|]. cbn [bound sizes].
  by rewrite IH, !size_T, sizes_tmap.
Qed.

Lemma bind_block_map bind mid : ∀ pre post,
  bind_block (length mid) (pre ++ mid ++ post) (length pre) bind
  = Ok (pre ++ ((λ n, set_data (with_pbind (Some bind) (data n)) n) <$> mid) ++ post).
Proof.
  induction mid as [|n mid IH]; intros pre post; [done|].
  cbn [length bind_block app fmap list_fmap]. unfold on_pnode. rewrite modify_mid, bind_Ok by done.
  specialize (IH (pre ++ [set_data (with_pbind (Some bind) (data n)) n]) post).
  rewrite length_app, <- !app_assoc in IH. cbn [length app] in IH.
  replace (length pre + 1)%nat with (S (length pre)) in IH by lia. by rewrite IH.
Qed.

Lemma bind_siblings_bound p ts : ∀ fuel pre,
  (length ts <= fuel)%nat →
  bind_siblings fuel (pre ++ encf (length pre) p None ts) (first_index (length pre) ts)
  = Ok (pre ++ encf (length pre) p None (bound (length pre) ts)).
Proof.
  induction ts as [|[d us] ts IH]; intros fuel pre Hf; [by destruct fuel|].
  cbn [length] in Hf. destruct fuel as [|fuel]; [lia|]. cbn [first_index bind_siblings bound].
  rewrite !encf_cons, sizes_tmap. set (n := Node _ _ _ _ d).
  assert (after (bound (length pre + S (sizes us)) ts) (length pre + S (sizes us)) None
    = after ts (length pre + S (sizes us)) None) as -> by (by destruct ts as [|[]]).
  assert (first_index (S (length pre)) (map (tmap (with_pbind (Some (length pre)))) us)
    = first_index (S (length pre)) us) as -> by (by destruct us). fold n.
  rewrite (fetch_Some _ _ n), bind_Ok by (by apply lookup_app_mid).
  set (mid := encf (S (length pre)) (Some (length pre)) None us).
  set (rest := encf (length pre + S (sizes us)) p None ts).
  assert (below n = length mid) as -> by (unfold mid, n, below; rewrite length_encf; cbn [descendants]; lia).
  pose proof (bind_block_map (length pre) mid (pre ++ [n]) rest) as Hb.
  rewrite length_app, <- !app_assoc in Hb. cbn [length app] in Hb.
  replace (length pre + 1)%nat with (S (length pre)) in Hb by lia. rewrite Hb, bind_Ok.
  rewrite (fetch_Some _ _ n), bind_Ok by (by apply lookup_app_mid).
  rewrite encf_tmap. fold mid. set (mid' := _ <$> mid).
  specialize (IH fuel (pre ++ n :: mid') ltac:(lia)).
  assert (length (pre ++ n :: mid') = length pre + S (sizes us))%nat as Hlen.
  { rewrite length_app. cbn [length]. unfold mid', mid. by rewrite length_fmap, length_encf. }
  rewrite Hlen, <- !app_assoc in IH. cbn [app] in IH. subst n rest. cbn [next].
  destruct ts as [|t ts]; [|exact IH]. cbn [after bound encf] in IH |- *. exact IH.
Qed.

Definition pnode_tree (x : tdata) (ts : list term) : tree pdata := T (bare x) (bound 1 (map (tmap bare) ts)).

(** C26: For a well-formed term the array of pnodes is the preorder of its subterms
    with the pointers of the tree; a node below a declaration refers to the node of
    that declaration, and no reference is set yet. *)
Theorem term_tree_created x ts :
  wf_term (T x ts) = true → (Z.of_nat (size (T x ts)) < 2 ^ 32)%Z →
  create_tree (T x ts) = Ok (enc 0 None None (pnode_tree x ts)).
Proof.
  intros Hwf Hlt. unfold create_tree. rewrite count_term, bind_Ok, Nat2Z.id by (done || lia).
  rewrite visitor_visits by done.
  pose proof (set_term_visits (subterms (T x ts)) [] []) as Hset.
  rewrite !app_nil_r, length_subterms in Hset. cbn [app length] in Hset. rewrite Hset, bind_Ok; cycle 1.
  { eapply Forall_impl; [by apply subterms_wf|]. intros u [? ?]. split; [done|lia]. }
  clear Hset. pose proof (strip_raw (T x ts)) as Hstrip.
  assert (length (map raw_pnode (subterms (T x ts))) = size (T x ts)) as Hlen
    by (rewrite length_map; apply length_subterms).
  remember (map raw_pnode (subterms (T x ts))) as raw eqn:E.
  destruct raw as [|r raw]; [rewrite size_T in Hlen; done|].
  unfold ay_pnode_tree_correction. rewrite Hlen.
  pose proof (tree_correction_tree (tmap bare (T x ts)) r raw []) as Hc.
  rewrite app_nil_r, size_tmap in Hc. cbn [fmap list_fmap] in Hstrip.
  rewrite Hc by (done || (cbn [length] in *; lia)). rewrite app_nil_r, bind_Ok.
  assert (parent r = None ∧ next r = None) as [-> ->].
  { pose proof (f_equal head E) as Hh. rewrite subterms_T in Hh. by injection Hh as ->. }
  unfold ay_pnode_set_bind. rewrite tmap_T, !enc_T. cbn [fetch lookup list_lookup]. rewrite bind_Ok.
  cbn [child]. set (m := _ :: _).
  pose proof (bind_siblings_bound (Some 0) (map (tmap bare) ts) (length m)
    [Node None None (first_index 1 (map (tmap bare) ts)) (Z.of_nat (sizes (map (tmap bare) ts))) (bare x)]) as Hb.
  cbn [app length] in Hb. etrans; [apply Hb|]; clear Hb.
  2: by unfold pnode_tree; rewrite enc_T, sizes_bound; do 3 f_equal; destruct ts as [|[]].
  subst m. cbn [length]. rewrite length_encf. pose proof (length_le_sizes (map (tmap bare) ts)). lia.
Qed.

(** ** A module with two bindings *)

Definition place (n : Z) : info := Info n 0 n 10 (lit "test.aug").
Definition leaf_term (t : term_tag) (name : string) : term := T (TData t (place 2) (lit name) TOther Q_STAR) [].
Definition bind_term (name : string) (t : term) : term := T (TData A_BIND (place 1) (lit name) TOther Q_STAR) [t].
Definition example_module : tdata := TData A_MODULE (place 0) [] TOther Q_STAR.
Definition example_terms : list term :=
  [bind_term "word" (leaf_term A_VALUE "");
   bind_term "lns" (T (TData A_APP (place 3) [] TOther Q_STAR) [leaf_term A_IDENT "key"; leaf_term A_IDENT "word"])].

Theorem term_tree_created_witness :
  create_tree (T example_module example_terms) = Ok (enc 0 None None (pnode_tree example_module example_terms)) ∧
  (pbind ∘ data <$> enc 0 None None (pnode_tree example_module example_terms))
  = [None; None; Some 1; None; Some 3; Some 3; Some 3].
Proof.
  split; [|reflexivity]. apply (term_tree_created example_module example_terms); reflexivity.
Defined.
