(* ===== verification/Ident.v ===== *)
(** Identifiers of [src/print_yang.c]: how the text of a lense becomes a name that
    YANG accepts.  A buffer has [AY_MAX_IDENT_SIZE] characters; an index that the
    code decrements and increments again in the same step is not moved here. *)
From S2P Require Import Prelude CString Common.
#[local] Open Scope cstr_scope.

Inductive ay_ident_dst := AY_IDENT_NODE_NAME | AY_IDENT_DATA_PATH | AY_IDENT_VALUE_YPATH.

#[export] Instance ay_ident_dst_eq_dec : EqDecision ay_ident_dst.
Proof. solve_decision. Defined.

(** ** Writing into the buffer *)

(** [AY_CHECK_COND(index >= AY_MAX_IDENT_SIZE, AYE_IDENT_LIMIT)]. *)
Definition ident_limit (index : nat) : res unit :=
  if (AY_MAX_IDENT_SIZE <=? index)%nat then Err AYE_IDENT_LIMIT else Ok tt.

(** [AY_CHECK_MAX_IDENT_SIZE]. *)
Definition AY_CHECK_MAX_IDENT_SIZE (b : buf) (s : cstr) : res unit :=
  t ← cstr_of b;
  if (AY_MAX_IDENT_SIZE <? length t + length s + 1)%nat then Err AYE_IDENT_LIMIT else Ok tt.

Definition put (b : buf) (j : nat) (c : ascii) : res buf := bwrite b j [c].
Definition put_checked (b : buf) (j : nat) (c : ascii) : res buf := _ ← ident_limit j; put b j c.
Definition put_word (b : buf) (j : nat) (w : cstr) : res buf := _ ← ident_limit (j + length w); strcpy b j w.

(** ** Names of a translation table *)

Definition is_one_of (c : ascii) (s : string) : bool := existsb (Ascii.eqb c) (lit s).

(** One character: the buffer, the new [i] and the new [j]. *)
Definition from_pattern_char (ident : cstr) (opt : ay_ident_dst) (i j : nat) (b : buf)
  : res (buf * nat * nat) :=
  let c := at_ ident i in
  let d := at_ ident (S i) in
  let node_name := bool_decide (opt = AY_IDENT_NODE_NAME) in
  let put1 c := b' ← put_checked b j c; Ok (b', S i, S j) in
  let skip := Ok (b, S i, j) in
  if c =c LF then skip
  else if c =c " " then
    drop ← (if (j =? 0)%nat then Ok true else p ← fetch b (j - 1); Ok (p =c "-"));
    if (drop : bool) then skip else put1 (if node_name then "-" else " ")%char
  else if is_one_of c "()?" then skip
  else if c =c BSLASH then
    if (j =? 0)%nat && (d =c ".") then Ok (b, S (S i), j)
    else if (d =c ".") || (d =c "-") then skip
    else Err AYE_IDENT_BAD_CHAR
  else if c =c "_" then
    if (j =? 0)%nat then skip else put1 (if node_name then "-" else "_")%char
  else put1 c.

(** The loop; the result is the buffer and the length. *)
Fixpoint from_pattern_loop (fuel : nat) (ident : cstr) (opt : ay_ident_dst) (i j : nat) (b : buf)
  : res (buf * nat) :=
  if at_ ident i =c NUL then Ok (b, j)
  else
    match fuel with
    | 0 => Fault OutOfFuel
    | S fuel' =>
        '(b', i', j') ← from_pattern_char ident opt i j b;
        from_pattern_loop fuel' ident opt i' j' b'
    end.

Definition ay_get_ident_from_pattern_standardized (ident : cstr) (opt : ay_ident_dst) (buffer : buf)
  : res buf :=
  '(b, j) ← from_pattern_loop (length ident) ident opt 0 0 buffer;
  put_checked b j NUL.

(** ** Removing characters *)

Fixpoint remove_loop (rem : ascii) (s : cstr) (j : nat) (b : buf) : res (buf * nat) :=
  match s with
  | [] => Ok (b, j)
  | c :: s' =>
      if c <>c rem then b' ← put b j c; remove_loop rem s' (S j) b' else remove_loop rem s' j b
  end.

Definition ay_string_remove_characters (str : cstr) (rem : ascii) (buffer : buf) : res buf :=
  _ ← c_assert (length str <? AY_MAX_IDENT_SIZE)%nat;
  '(b, j) ← remove_loop rem str 0 buffer;
  put b j NUL.

(** ** Lower case *)

Fixpoint lowercase_dash_loop (fuel : nat) (b : buf) (i : nat) : res buf :=
  s ← cstr_of b;
  if (length s <=? i)%nat then Ok b
  else
    match fuel with
    | 0 => Fault OutOfFuel
    | S fuel' =>
        c ← fetch b i;
        d ← fetch b (S i);
        if negb (isupper c) && (c <>c "-") && isupper d then
          _ ← AY_CHECK_MAX_IDENT_SIZE b (lit "_");
          b1 ← bmove b (i + 2) (i + 1) (length s - i);
          b2 ← put b1 (S i) "-"%char;
          lowercase_dash_loop fuel' b2 (i + 2)
        else if isupper c then b1 ← put b i (tolower c); lowercase_dash_loop fuel' b1 (S i)
        else lowercase_dash_loop fuel' b (S i)
    end.

Definition ay_ident_lowercase_dash (b : buf) : res buf := lowercase_dash_loop (length b) b 0.

(** ** Standardization *)

(** The identifier can be the buffer itself: [None]. *)
Definition ident_at (ident : option cstr) (b : buf) (i : nat) : ascii :=
  match ident with Some s => at_ s i | None => at_ b i end.

(** One character: the buffer, the new [i] and the new [j]. *)
Definition standardize_char (ident : option cstr) (opt : ay_ident_dst) (i j : nat) (b : buf)
  : res (buf * nat * nat) :=
  let c := ident_at ident b i in
  let d := ident_at ident b (S i) in
  let put1 c := b' ← put_checked b j c; Ok (b', S i, S j) in
  let word w := b' ← put_word b j (lit w); Ok (b', S i, j + length (lit w))%nat in
  let skip := Ok (b, S i, j) in
  if c =c " " then put1 (if bool_decide (opt = AY_IDENT_NODE_NAME) then "-" else " ")%char
  else if c =c "#" then skip
  else if c =c "+" then word "plus-"
  else if c =c "-" then if (j =? 0)%nat then word "minus-" else put1 "-"%char
  else if c =c "@" then skip
  else if c =c BSLASH then
    if (j =? 0)%nat && (d =c ".") then Ok (b, S (S i), j)
    else if d =c "." then skip
    else if d =c "+" then
      b' ← put_word b j (lit "plus-"); Ok (b', S (S i), j + length (lit "plus-"))%nat
    else Err AYE_IDENT_BAD_CHAR
  else if c =c "_" then if (j =? 0)%nat then skip else put1 "-"%char
  else if (j =? 0)%nat && isalpha c then b' ← put b j c; Ok (b', S i, S j)
  else if (0 <? j)%nat then put1 c
  else skip.

Fixpoint standardize_loop (fuel : nat) (ident : option cstr) (opt : ay_ident_dst) (stop i j : nat) (b : buf)
  : res (buf * nat) :=
  if (stop <=? i)%nat then Ok (b, j)
  else
    match fuel with
    | 0 => Fault OutOfFuel
    | S fuel' =>
        '(b', i', j') ← standardize_char ident opt i j b;
        standardize_loop fuel' ident opt stop i' j' b'
    end.

(** The length without a dash or "-re" at the end. *)
Definition cut_end (b : buf) (j : nat) : nat :=
  let j1 := if (0 <? j)%nat && (at_ b (j - 1) =c "-") then (j - 1)%nat else j in
  if (3 <? j1)%nat && strneq (lit "-re") (drop (j1 - 3) b) 3 then (j1 - 3)%nat else j1.

(** [memmove(buffer + 1, buffer, strlen(buffer) + 1)] and the new first character. *)
Definition add_underscore (b : buf) : res buf :=
  _ ← AY_CHECK_MAX_IDENT_SIZE b (lit "_");
  s ← cstr_of b;
  b1 ← bmove b 1 0 (length s + 1);
  put b1 0 "_"%char.

Definition ay_get_ident_standardized (ident : option cstr) (opt : ay_ident_dst) (internal : bool)
    (buffer : buf) : res buf :=
  _ ← c_assert (bool_decide (opt ≠ AY_IDENT_DATA_PATH));
  stop ← (match ident with Some s => Ok (length s) | None => s ← cstr_of buffer; Ok (length s) end);
  '(b, j) ← standardize_loop stop ident opt stop 0 0 buffer;
  let j' := cut_end b j in
  b1 ← put_checked b j' NUL;
  b2 ← ay_ident_lowercase_dash b1;
  if internal then add_underscore b2 else Ok b2.
