(* ===== verification/IdentTheorems.v ===== *)
(** Theorems on identifiers: the conversion to lower case against a function on
    strings, and the bounds of the buffer. *)
From S2P Require Import Prelude CString Common Ident.
#[local] Open Scope cstr_scope.

(** ** Buffers that hold a string *)

Definition holds (b : buf) (s : cstr) : Prop := is_cstr s ∧ ∃ r, b = s ++ NUL :: r.

Lemma holds_cstr b s : holds b s → cstr_of b = Ok s.
Proof. intros (Hs & r & ->). by apply cstr_of_app. Qed.

Lemma cstr_holds b s : cstr_of b = Ok s → holds b s.
Proof. apply cstr_of_Ok. Qed.

(** A buffer with a terminator holds a string. *)
Lemma NUL_holds b : NUL ∈ b → ∃ s, holds b s.
Proof.
  induction b as [|c b IH]; [by intros []%elem_of_nil|]. intros Hin.
  destruct (decide (c = NUL)) as [->|Hc].
  - exists []. split; [constructor|by exists b].
  - apply elem_of_cons in Hin as [?|Hin]; [congruence|].
    destruct (IH Hin) as (s & Hs & r & ->). exists (c :: s). split; [by constructor|by exists r].
Qed.

Lemma put_Ok b j c : (j < length b)%nat → put b j c = Ok (<[j := c]> b).
Proof.
  intros Hj. unfold put, bwrite. rewrite decide_True by (cbn; lia).
  by rewrite insert_take_drop, Nat.add_1_r by done.
Qed.

Lemma put_mid pre x post c : put (pre ++ x :: post) (length pre) c = Ok (pre ++ c :: post).
Proof. unfold put. by rewrite (bwrite_app pre [x] post [c]). Qed.

Lemma move_right pre mid x post :
  bmove (pre ++ mid ++ x :: post) (S (length pre)) (length pre) (length mid)
  = Ok (pre ++ take 1 (mid ++ [x]) ++ mid ++ post).
Proof.
  unfold bmove. rewrite decide_True by (rewrite !length_app; cbn; lia).
  rewrite drop_app_length, take_app_length.
  replace (pre ++ mid ++ x :: post) with ((pre ++ take 1 (mid ++ [x])) ++ drop 1 (mid ++ [x]) ++ post).
  2: { rewrite <- app_assoc. f_equal. rewrite app_assoc, take_drop, <- app_assoc. done. }
  rewrite bwrite_app; [by rewrite <- app_assoc| |].
  - rewrite !length_app, length_take, length_app. cbn [length]. lia.
  - rewrite length_drop, length_app. cbn. lia.
Qed.

(** ** Lower case *)

(** The string in lower case, with a dash in front of each word that begins with a
    capital letter. *)
Fixpoint dash_lower (s : cstr) : cstr :=
  match s with
  | [] => []
  | c :: s' =>
      if isupper c then tolower c :: dash_lower s'
      else if (c <>c "-") && isupper (at_ s' 0) then c :: "-"%char :: dash_lower s'
      else c :: dash_lower s'
  end.

Lemma dash_lower_cstr s : is_cstr s → is_cstr (dash_lower s).
Proof.
  induction 1 as [|c s Hc Hs IH]; cbn; [constructor|].
  destruct (isupper c) eqn:E.
  - constructor; [|done]. intros Hn. apply Hc. apply Ascii.eqb_eq.
    rewrite <- tolower_NUL. by apply Ascii.eqb_eq.
  - destruct (_ && _); repeat constructor; done.
Qed.

Lemma dash_lower_lower s : Forall (λ c, isupper c = false) (dash_lower s).
Proof.
  induction s as [|c s IH]; cbn; [constructor|].
  destruct (isupper c) eqn:E; [constructor; [apply isupper_tolower|done]|].
  destruct (_ && _); repeat constructor; done.
Qed.

Lemma dash_lower_length s : (length s <= length (dash_lower s))%nat.
Proof.
  induction s as [|c s IH]; cbn; [lia|]. destruct (isupper c); cbn; [lia|].
  destruct (_ && _); cbn; lia.
Qed.

Lemma check_max_size b s w :
  cstr_of b = Ok s →
  AY_CHECK_MAX_IDENT_SIZE b w
  = if (AY_MAX_IDENT_SIZE <? length s + length w + 1)%nat then Err AYE_IDENT_LIMIT else Ok tt.
Proof. intros Hs. unfold AY_CHECK_MAX_IDENT_SIZE. by rewrite Hs. Qed.

(** The dash is put behind [c]. *)
Lemma dash_inserted pre c rest x tail :
  (b1 ← bmove (pre ++ (c :: rest) ++ NUL :: x :: tail) (length pre + 2) (length pre + 1) (S (length rest));
   put b1 (S (length pre)) "-"%char)
  = Ok ((pre ++ [c; "-"%char]) ++ rest ++ NUL :: tail).
Proof.
  pose proof (move_right (pre ++ [c]) (rest ++ [NUL]) x tail) as E.
  rewrite !length_app in E. cbn [length] in E.
  replace (length pre + 2)%nat with (S (length pre + 1)) by lia.
  replace (S (length rest)) with (length rest + 1)%nat by lia.
  replace (pre ++ (c :: rest) ++ NUL :: x :: tail) with ((pre ++ [c]) ++ (rest ++ [NUL]) ++ x :: tail)
    by (by rewrite <- !app_assoc).
  rewrite E, bind_Ok.
  destruct (take 1 ((rest ++ [NUL]) ++ [x])) as [|y [|]] eqn:Ey.
  - by destruct rest.
  - replace (S (length pre)) with (length (pre ++ [c])) by (rewrite length_app; cbn; lia).
    cbn [app]. rewrite put_mid. f_equal. by rewrite <- !app_assoc.
  - by destruct rest.
Qed.

Lemma lowercase_dash_loop_spec fuel rest : ∀ pre tail,
  is_cstr pre → is_cstr rest → (length rest <= fuel)%nat →
  (length pre + length rest + S (length tail) = AY_MAX_IDENT_SIZE)%nat →
  lowercase_dash_loop fuel (pre ++ rest ++ NUL :: tail) (length pre)
  = if (length pre + length (dash_lower rest) <? AY_MAX_IDENT_SIZE)%nat
    then Ok (pre ++ dash_lower rest ++ NUL :: drop (length (dash_lower rest) - length rest) tail)
    else Err AYE_IDENT_LIMIT.
Proof.
  revert fuel. induction rest as [|c rest IH]; intros fuel pre tail Hp Hr Hf Hl.
  - assert (cstr_of (pre ++ [] ++ NUL :: tail) = Ok pre) as E by (by apply cstr_of_app).
    cbn [length dash_lower] in *. rewrite (proj2 (Nat.ltb_lt _ _)) by lia.
    destruct fuel; cbn [lowercase_dash_loop]; by rewrite E, bind_Ok, Nat.leb_refl.
  - destruct fuel as [|fuel]; cbn [length] in *; [lia|].
    inversion Hr as [|? ? Hc Hr']; subst.
    assert (cstr_of (pre ++ (c :: rest) ++ NUL :: tail) = Ok (pre ++ c :: rest)) as E.
    { rewrite app_assoc. apply cstr_of_app. by apply Forall_app. }
    cbn [lowercase_dash_loop]. rewrite E, bind_Ok.
    destruct (Nat.leb_spec (length (pre ++ c :: rest)) (length pre)) as [Hle|_];
      [rewrite length_app in Hle; cbn in Hle; lia|].
    rewrite (fetch_Some _ (length pre) c) by (by rewrite lookup_app_r, Nat.sub_diag). rewrite bind_Ok.
    assert ((pre ++ (c :: rest) ++ NUL :: tail) !! S (length pre) = Some (at_ rest 0)) as Hd.
    { rewrite lookup_app_r by lia. replace (S (length pre) - length pre)%nat with 1%nat by lia.
      by destruct rest. }
    rewrite (fetch_Some _ _ _ Hd), bind_Ok. cbn [dash_lower].
    assert (∀ y : ascii, y ≠ NUL → is_cstr (pre ++ [y])) as Hy.
    { intros y Hy. apply Forall_app. split; [done|]. by repeat constructor. }
    assert (S (length pre) = length (pre ++ [c])) as Hlen by (rewrite length_app; cbn; lia).
    destruct (isupper c) eqn:Eu; cbn [negb andb].
    + cbn [app]. rewrite put_mid, bind_Ok. cbn [length].
      replace (S (length pre)) with (length (pre ++ [tolower c])) by (rewrite length_app; cbn; lia).
      replace (pre ++ tolower c :: rest ++ NUL :: tail) with ((pre ++ [tolower c]) ++ rest ++ NUL :: tail)
        by (by rewrite <- app_assoc).
      rewrite IH; [..|lia|rewrite length_app; cbn; lia]; [|apply Hy|done].
      2: { intros Hn. apply Hc, Ascii.eqb_eq. rewrite <- tolower_NUL. by apply Ascii.eqb_eq. }
      rewrite length_app. cbn [length].
      replace (length pre + 1 + length (dash_lower rest))%nat with (length pre + S (length (dash_lower rest)))%nat by lia.
      case_match; [|done]. by rewrite <- !app_assoc.
    + destruct ((c <>c "-") && isupper (at_ rest 0)) eqn:Ed.
      * rewrite (check_max_size _ _ _ E). rewrite length_app. cbn [length].
        pose proof (dash_lower_length rest) as Hdl.
        destruct (Nat.ltb_spec AY_MAX_IDENT_SIZE (length pre + S (length rest) + length (lit "_") + 1)) as [Hlim|Hlim];
          cbn [length lit String.list_ascii_of_string] in Hlim.
        { cbn [length]. destruct (Nat.ltb_spec (length pre + S (S (length (dash_lower rest)))) AY_MAX_IDENT_SIZE); [lia|].
          done. }
        rewrite bind_Ok. destruct tail as [|x tail]; [cbn in Hl; lia|].
        replace (length pre + S (length rest) - length pre)%nat with (S (length rest)) by lia.
        pose proof (dash_inserted pre c rest x tail) as Ei.
        destruct (bmove _ _ _ _) as [b1| |]; [|done..]. rewrite bind_Ok in Ei |- *. rewrite Ei, bind_Ok.
        replace (length pre + 2)%nat with (length (pre ++ [c; "-"%char])) by (rewrite length_app; cbn; lia).
        rewrite IH; [| |done|lia|rewrite length_app; cbn in *; lia].
        2: { apply Forall_app. split; [done|]. by repeat constructor. }
        rewrite length_app. cbn [length].
        replace (length pre + 2 + length (dash_lower rest))%nat
          with (length pre + S (S (length (dash_lower rest))))%nat by lia.
        case_match; [|done]. rewrite <- !app_assoc. cbn [app].
        replace (S (S (length (dash_lower rest))) - S (length rest))%nat
          with (S (length (dash_lower rest) - length rest)) by lia.
        done.
      * rewrite Hlen.
        replace (pre ++ (c :: rest) ++ NUL :: tail) with ((pre ++ [c]) ++ rest ++ NUL :: tail)
          by (by rewrite <- app_assoc).
        rewrite IH; [|by apply Hy|done|lia|rewrite length_app; cbn; lia].
        rewrite length_app. cbn [length].
        replace (length pre + 1 + length (dash_lower rest))%nat
          with (length pre + S (length (dash_lower rest)))%nat by lia.
        case_match; [|done]. by rewrite <- !app_assoc.
Qed.

Lemma ident_lowercase_dash_spec b s :
  length b = AY_MAX_IDENT_SIZE → holds b s →
  ∃ r, ay_ident_lowercase_dash b
    = (if (length (dash_lower s) <? AY_MAX_IDENT_SIZE)%nat then Ok (dash_lower s ++ NUL :: r)
       else Err AYE_IDENT_LIMIT) ∧
    length r = (AY_MAX_IDENT_SIZE - 1 - length (dash_lower s))%nat.
Proof.
  intros Hb (Hs & r & ->). rewrite length_app in Hb. cbn [length] in Hb.
  pose proof (dash_lower_length s).
  exists (drop (length (dash_lower s) - length s) r). split; [|rewrite length_drop; lia].
  unfold ay_ident_lowercase_dash.
  pose proof (lowercase_dash_loop_spec (length (s ++ NUL :: r)) s [] r) as E. cbn [app length] in E.
  rewrite E; [done|constructor|done|rewrite length_app; cbn; lia|lia].
Qed.

(** C20: [ay_ident_lowercase_dash] computes the string in lower case with a dash in
    front of each word, exactly when it fits into the buffer with its terminator;
    otherwise it returns AYE_IDENT_LIMIT. *)
Theorem lowercase_dash_spec b s :
  length b = AY_MAX_IDENT_SIZE → cstr_of b = Ok s →
  (t ← ay_ident_lowercase_dash b; cstr_of t)
  = if (length (dash_lower s) <? AY_MAX_IDENT_SIZE)%nat then Ok (dash_lower s) else Err AYE_IDENT_LIMIT.
Proof.
  intros Hb Hs%cstr_holds. destruct (ident_lowercase_dash_spec b s Hb Hs) as (r & -> & _).
  case_match; [|done]. rewrite bind_Ok. apply cstr_of_app, dash_lower_cstr, Hs.
Qed.

Theorem lowercase_dash_spec_witness :
  let b := lit "aB" ++ repeat NUL 62 in
  (t ← ay_ident_lowercase_dash b; cstr_of t) = Ok (lit "a-b").
Proof. intros b. rewrite (lowercase_dash_spec b (lit "aB")); [done|done|done]. Defined.

(** ** Removing characters *)

Lemma remove_loop_spec rem s : ∀ pre mid tail,
  length mid = length s →
  ∃ tail', remove_loop rem s (length pre) (pre ++ mid ++ tail)
    = Ok (pre ++ filter (λ c, c ≠ rem) s ++ tail', (length pre + length (filter (λ c, c ≠ rem) s))%nat) ∧
    (length tail <= length tail')%nat.
Proof.
  induction s as [|c s IH]; intros pre mid tail Hl.
  - destruct mid; [|done]. exists tail. cbn. by rewrite Nat.add_0_r.
  - destruct mid as [|x mid]; [done|]. injection Hl as Hl. cbn [remove_loop].
    rewrite filter_cons. destruct (Ascii.eqb_spec c rem) as [->|Hne]; cbn [negb].
    + rewrite decide_False by (by intros []).
      destruct (IH pre mid (x :: tail)) as (tail' & E & Ht); [done|].
      pose proof (IH pre (x :: take (length mid - 1) mid) (drop (length mid - 1) mid ++ tail)) as E2.
      destruct mid as [|y mid].
      { destruct s; [|done]. exists (x :: tail). cbn. rewrite Nat.add_0_r. split; [done|lia]. }
      destruct E2 as (tail2 & E2 & Ht2).
      { cbn [length]. rewrite length_take. cbn [length] in *. lia. }
      exists tail2. split.
      * rewrite <- E2. f_equal. cbn [app]. do 2 f_equal. by rewrite app_assoc, take_drop.
      * rewrite length_app in Ht2. lia.
    + rewrite decide_True by done. cbn [app]. rewrite put_mid, bind_Ok.
      destruct (IH (pre ++ [c]) mid tail Hl) as (tail' & E & Ht). exists tail'. split; [|done].
      rewrite length_app in E. cbn [length] in *. rewrite Nat.add_1_r in E.
      rewrite <- !app_assoc in E. cbn [app] in E. rewrite E. do 2 f_equal. lia.
Qed.

(** [ay_string_remove_characters] writes the characters that differ from [rem];
    a string that is too long for the buffer fails the assertion. *)
Lemma remove_characters_spec str rem b :
  length b = AY_MAX_IDENT_SIZE → is_cstr str →
  (t ← ay_string_remove_characters str rem b; cstr_of t)
  = if (length str <? AY_MAX_IDENT_SIZE)%nat then Ok (filter (λ c, c ≠ rem) str) else Fault AssertFailed.
Proof.
  intros Hb Hs. unfold ay_string_remove_characters.
  destruct (Nat.ltb_spec (length str) AY_MAX_IDENT_SIZE) as [Hlt|]; [|done].
  cbn [c_assert]. rewrite bind_Ok.
  destruct (remove_loop_spec rem str [] (take (length str) b) (drop (length str) b)) as (tail & E & Ht).
  { rewrite length_take. lia. }
  cbn [length app] in E. rewrite take_drop in E. rewrite E, bind_Ok.
  rewrite length_drop in Ht. destruct tail as [|x tail]; [cbn in Ht; lia|].
  rewrite put_mid, bind_Ok. apply cstr_of_app.
  by apply (Forall_sublist _ _ str); [apply sublist_filter|].
Qed.

(** ** Standardization *)

Definition ident_error (e : Z) : Prop := e = AYE_IDENT_LIMIT ∨ e = AYE_IDENT_BAD_CHAR.

(** The result satisfies [Q]; errors are the two of identifiers. *)
Definition standard {A} (Q : A → Prop) (r : res A) : Prop :=
  match r with Ok a => Q a | Err e => ident_error e | Fault _ => False end.

Lemma standard_bind {A B} (P : A → Prop) (Q : B → Prop) (m : res A) (k : A → res B) :
  standard P m → (∀ a, P a → standard Q (k a)) → standard Q (m ≫= k).
Proof. destruct m; cbn; auto. Qed.

Lemma standard_mono {A} (P Q : A → Prop) (m : res A) : standard P m → (∀ a, P a → Q a) → standard Q m.
Proof. destruct m; cbn; auto. Qed.

Definition full (b : buf) : Prop := length b = AY_MAX_IDENT_SIZE.

Lemma limit_standard i : standard (λ _, (i < AY_MAX_IDENT_SIZE)%nat) (ident_limit i).
Proof. unfold ident_limit. destruct (Nat.leb_spec AY_MAX_IDENT_SIZE i); cbn; [by left|done]. Qed.

Lemma put_standard b j c : full b → (j < AY_MAX_IDENT_SIZE)%nat → standard (λ b', b' = <[j := c]> b) (put b j c).
Proof. intros Hb Hj. unfold full in Hb. rewrite put_Ok by lia. done. Qed.

Lemma put_checked_standard b j c :
  full b → standard (λ b', b' = <[j := c]> b ∧ (j < AY_MAX_IDENT_SIZE)%nat) (put_checked b j c).
Proof.
  intros Hb. unfold put_checked. eapply standard_bind; [apply limit_standard|]. intros [] Hj. cbn in Hj.
  eapply standard_mono; [by apply put_standard|]. by intros b' ->.
Qed.

Lemma put_word_standard b j w :
  full b → standard (λ b', full b' ∧ (j + length w < AY_MAX_IDENT_SIZE)%nat) (put_word b j w).
Proof.
  intros Hb. unfold put_word. eapply standard_bind; [apply limit_standard|]. intros [] Hj. cbn in Hj.
  unfold strcpy. destruct (bwrite b j (w ++ [NUL])) as [b'| |] eqn:E.
  - split; [|done]. unfold full in *. rewrite <- Hb. by eapply bwrite_length.
  - unfold bwrite in E. by case_decide.
  - unfold bwrite, full in *. rewrite decide_True in E; [done|]. rewrite length_app. cbn [length]. lia.
Qed.

Lemma full_insert b j c : full b → full (<[j := c]> b).
Proof. unfold full. by rewrite length_insert. Qed.

Definition step_ok (i : nat) (x : buf * nat * nat) : Prop :=
  full x.1.1 ∧ (i < x.1.2)%nat ∧ (x.2 <= AY_MAX_IDENT_SIZE)%nat.

Lemma standardize_char_standard ident opt i j b :
  full b → (j <= AY_MAX_IDENT_SIZE)%nat → standard (step_ok i) (standardize_char ident opt i j b).
Proof.
  intros Hb Hj. unfold standardize_char.
  set (c := ident_at ident b i). set (d := ident_at ident b (S i)). clearbody c d. cbv zeta.
  assert (∀ k, (i < k)%nat → standard (step_ok i) (Ok (b, k, j))) as Hskip by (intros k Hk; done).
  assert (∀ x, standard (step_ok i) (b' ← put_checked b j x; Ok (b', S i, S j))) as Hput.
  { intros x. eapply standard_bind; [by apply put_checked_standard|]. intros b' (-> & Hlt).
    split_and!; [by apply full_insert|cbn; lia|cbn; lia]. }
  assert (∀ w k, (i < k)%nat →
    standard (step_ok i) (b' ← put_word b j w; Ok (b', k, j + length w)%nat)) as Hword.
  { intros w k Hk. eapply standard_bind; [by apply put_word_standard|]. intros b' (Hb' & Hlt).
    split_and!; [done|done|cbn; lia]. }
  repeat match goal with
  | |- standard _ (if ?x then _ else _) => destruct x eqn:?
  end; try (apply Hskip; lia); try apply Hput; try (apply Hword; lia); [by right|].
  match goal with E : (j =? 0)%nat && isalpha c = true |- _ =>
    apply andb_true_iff in E as [Hz%Nat.eqb_eq _] end.
  eapply standard_bind; [apply put_standard; [done|unfold AY_MAX_IDENT_SIZE; lia]|].
  intros b' ->. split_and!; [by apply full_insert|cbn; lia|cbn; unfold AY_MAX_IDENT_SIZE; lia].
Qed.

Lemma standardize_loop_standard ident opt stop fuel : ∀ i j b,
  full b → (j <= AY_MAX_IDENT_SIZE)%nat → (stop - i <= fuel)%nat →
  standard (λ x, full x.1 ∧ (x.2 <= AY_MAX_IDENT_SIZE)%nat) (standardize_loop fuel ident opt stop i j b).
Proof.
  induction fuel as [|fuel IH]; intros i j b Hb Hj Hf; cbn [standardize_loop].
  - rewrite (proj2 (Nat.leb_le _ _)) by lia. done.
  - destruct (Nat.leb_spec stop i); [done|].
    eapply standard_bind; [by apply standardize_char_standard|].
    intros [[b' i'] j'] (Hb' & Hi & Hj'). cbn in *. apply IH; [done|done|lia].
Qed.

Lemma cut_end_le b j : (cut_end b j <= j)%nat.
Proof. unfold cut_end. repeat case_match; lia. Qed.

Definition lower_string (b : buf) : Prop :=
  full b ∧ ∃ s, holds b s ∧ Forall (λ c, isupper c = false) s.

Lemma lowercase_standard b : full b → NUL ∈ b → standard lower_string (ay_ident_lowercase_dash b).
Proof.
  intros Hb [s Hs]%NUL_holds. destruct (ident_lowercase_dash_spec b s Hb Hs) as (r & -> & Hr).
  destruct (Nat.ltb_spec (length (dash_lower s)) AY_MAX_IDENT_SIZE); cbn; [|by left].
  split; [unfold full; rewrite length_app; cbn; lia|]. exists (dash_lower s).
  split; [|apply dash_lower_lower]. split; [apply dash_lower_cstr, Hs|by exists r].
Qed.

Lemma underscore_standard b : lower_string b → standard lower_string (add_underscore b).
Proof.
  intros (Hb & s & Hs & Hlow). unfold add_underscore.
  rewrite (check_max_size _ _ _ (holds_cstr _ _ Hs)), (holds_cstr _ _ Hs).
  destruct (Nat.ltb_spec AY_MAX_IDENT_SIZE (length s + length (lit "_") + 1)) as [|Hlim]; cbn; [by left|].
  destruct Hs as (Hs & r & ->). cbn in Hlim. unfold full in Hb. rewrite length_app in Hb. cbn [length] in Hb.
  destruct r as [|x r]; [cbn in Hb; lia|].
  pose proof (move_right [] (s ++ [NUL]) x r) as E. rewrite length_app in E. cbn [length app] in E.
  rewrite <- app_assoc in E. cbn [app] in E. rewrite E, bind_Ok.
  destruct (take 1 ((s ++ [NUL]) ++ [x])) as [|y l] eqn:Ey; [by destruct s|].
  destruct l; [|by destruct s]. change ([y] ++ ?l) with ([] ++ y :: l).
  change 0%nat with (length (@nil ascii)) at 1. rewrite put_mid. cbn [app standard].
  split; [unfold full; cbn; rewrite !length_app; cbn in *; lia|]. exists ("_"%char :: s).
  split; [|by constructor]. split; [by constructor|]. exists r. by rewrite <- app_assoc.
Qed.

(** C19: [ay_get_ident_standardized] never leaves its buffer, also when the
    identifier is the buffer itself: it returns AYE_IDENT_LIMIT or
    AYE_IDENT_BAD_CHAR, or the buffer holds a terminated string without capital
    letters. *)
Theorem ident_standardized_safe ident opt internal b :
  length b = AY_MAX_IDENT_SIZE → opt ≠ AY_IDENT_DATA_PATH → (ident = None → ∃ s, cstr_of b = Ok s) →
  match ay_get_ident_standardized ident opt internal b with
  | Ok b' => length b' = AY_MAX_IDENT_SIZE ∧
      ∃ s, cstr_of b' = Ok s ∧ Forall (λ c, isupper c = false) s
  | Err e => e = AYE_IDENT_LIMIT ∨ e = AYE_IDENT_BAD_CHAR
  | Fault _ => False
  end.
Proof.
  intros Hb Hopt Hself. change (standard (λ b', full b' ∧ ∃ s, cstr_of b' = Ok s ∧ Forall (λ c, isupper c = false) s)
    (ay_get_ident_standardized ident opt internal b)).
  eapply (standard_mono lower_string).
  2: { intros b' (? & s & ?%holds_cstr & ?). split; [done|]. by exists s. }
  unfold ay_get_ident_standardized. rewrite bool_decide_eq_true_2 by done. cbn [c_assert]. rewrite bind_Ok.
  eapply (standard_bind (λ _, True)).
  { destruct ident; [done|]. destruct Hself as [s ->]; done. }
  intros stop _. eapply standard_bind; [apply standardize_loop_standard; [done|lia|lia]|].
  intros [b1 j] (Hb1 & Hj). cbn [fst snd] in *.
  eapply standard_bind; [by apply put_checked_standard|]. intros b2 (-> & Hlt).
  eapply standard_bind.
  { apply lowercase_standard; [by apply full_insert|]. unfold full in Hb1.
    apply (list_elem_of_lookup_2 _ (cut_end b1 j)). apply list_lookup_insert_eq. lia. }
  intros b3 Hb3. destruct internal; [by apply underscore_standard|done].
Qed.

Theorem ident_standardized_safe_witness :
  ∃ b', ay_get_ident_standardized None AY_IDENT_NODE_NAME true (lit "MyName" ++ repeat NUL 58) = Ok b' ∧
    length b' = AY_MAX_IDENT_SIZE ∧ ∃ s, cstr_of b' = Ok s ∧ Forall (λ c, isupper c = false) s.
Proof.
  pose proof (ident_standardized_safe None AY_IDENT_NODE_NAME true (lit "MyName" ++ repeat NUL 58)
    ltac:(vm_compute; reflexivity) ltac:(done) ltac:(intros _; exists (lit "MyName"); vm_compute; reflexivity)) as H.
  destruct (ay_get_ident_standardized _ _ _ _) as [b'| |] eqn:E; [exists b'; exact (conj eq_refl H)| |destruct H].
  exfalso. vm_compute in E. discriminate.
Defined.
