(* ===== verification/Names.v ===== *)
(** The names of nodes: the functions of [src/print_yang.c] that find an identifier
    for a ynode in its lenses, terms and descendants, and those that number equal
    identifiers.  They share one buffer, whose contents after an error are read by
    some callers, so that a computation keeps the buffer besides its error code. *)
From S2P Require Import Prelude CString Common ParseRegex Preorder Lnode Ynode Forest YnodeQuery YnodeRules YnodeMandatory Dnode TransBase TransGroup Pnode Ident.
#[local] Open Scope cstr_scope.

(** ** Computations on the buffer *)

Abbreviation ident_m := (coded buf).

(** ** Buffers after an error *)

(** The code checks before it writes, so a step that fails leaves the buffer. *)
Fixpoint from_pattern_left (fuel : nat) (ident : cstr) (opt : ay_ident_dst) (i j : nat) (b : buf) : buf :=
  match fuel with
  | 0 => b
  | S fuel' =>
      if at_ ident i =c NUL then b
      else match from_pattern_char ident opt i j b with
           | Ok (b', i', j') => from_pattern_left fuel' ident opt i' j' b'
           | _ => b
           end
  end.

Fixpoint standardize_left (fuel : nat) (ident : option cstr) (opt : ay_ident_dst) (stop i j : nat) (b : buf)
  : buf * nat :=
  match fuel with
  | 0 => (b, j)
  | S fuel' =>
      if (stop <=? i)%nat then (b, j)
      else match standardize_char ident opt i j b with
           | Ok (b', i', j') => standardize_left fuel' ident opt stop i' j' b'
           | _ => (b, j)
           end
  end.

Fixpoint lowercase_dash_left (fuel : nat) (b : buf) (i : nat) : buf :=
  match fuel with
  | 0 => b
  | S fuel' =>
      match cstr_of b with
      | Ok s =>
          if (length s <=? i)%nat then b
          else
            let c := at_ b i in
            let d := at_ b (S i) in
            if negb (isupper c) && (c <>c "-") && isupper d then
              match AY_CHECK_MAX_IDENT_SIZE b (lit "_") with
              | Ok _ =>
                  match (b1 ← bmove b (i + 2) (i + 1) (length s - i); put b1 (S i) "-"%char) with
                  | Ok b2 => lowercase_dash_left fuel' b2 (i + 2)
                  | _ => b
                  end
              | _ => b
              end
            else lowercase_dash_left fuel' (if isupper c then <[i := tolower c]> b else b) (S i)
      | _ => b
      end
  end.

(** What [ay_get_ident_standardized] leaves when it returns an error. *)
Definition standardized_left (ident : option cstr) (opt : ay_ident_dst) (b : buf) : buf :=
  let stop := match ident with
              | Some s => length s
              | None => match cstr_of b with Ok s => length s | _ => 0 end
              end in
  match standardize_loop stop ident opt stop 0 0 b with
  | Ok (b1, j) =>
      match put_checked b1 (cut_end b1 j) NUL with
      | Ok b2 => lowercase_dash_left (length b2) b2 0
      | _ => b1
      end
  | _ => fst (standardize_left stop ident opt stop 0 0 b)
  end.

Definition standardize (ident : option cstr) (opt : ay_ident_dst) (internal : bool) : ident_m unit :=
  λ b,
  match ay_get_ident_standardized ident opt internal b with
  | Ok b' => Ok (b', inr tt)
  | Err e => Ok (standardized_left ident opt b, inl e)
  | Fault f => Fault f
  end.

Definition from_pattern (ident : cstr) (opt : ay_ident_dst) : ident_m unit :=
  λ b,
  match ay_get_ident_from_pattern_standardized ident opt b with
  | Ok b' => Ok (b', inr tt)
  | Err e => Ok (from_pattern_left (length ident) ident opt 0 0 b, inl e)
  | Fault f => Fault f
  end.

Definition buffer_is (s : string) : ident_m bool := look (λ b, t ← cstr_of b; Ok (streq t (lit s))).
Definition buffer_empty : ident_m bool := look (λ b, c ← fetch b 0; Ok (c =c NUL)).
Definition check_size (s : cstr) : ident_m unit := change (λ b, _ ← AY_CHECK_MAX_IDENT_SIZE b s; Ok b).
Definition append (s : cstr) : ident_m unit := change (λ b, strcat b s).
Definition copy (s : cstr) : ident_m unit := change (λ b, strcpy b 0 s).

(** A pointer to the text of an identifier: the buffer or another string. *)
Inductive source := InBuffer | Text (s : cstr).

(** The first alternative that is not NULL. *)
Fixpoint first_of {A} (l : list (ident_m (option A))) : ident_m (option A) :=
  match l with
  | [] => mret None
  | m :: l' => r ← m; match r with Some a => mret (Some a) | None => first_of l' end
  end.

(** ** Names of lenses *)

Section names.
Context `{LensPointers} (modules : list amodule) (md : amodule).

(** The file name of the module up to the first dot. *)
Definition ay_get_yang_module_name : res cstr :=
  b ← deref (head (bindings md));
  '(name, len) ← ay_get_filename (bfilename b);
  Ok (take len (drop name (bfilename b))).

Definition ay_get_lense_name_by_mod (bs : list binding) (l : lens) : option cstr :=
  match list_find (λ b, bvalue b = lens_id l) bs with
  | Some (_, b) => Some (bident b)
  | None =>
      if bool_decide (tag l = L_STORE) || bool_decide (tag l = L_KEY)
      then bident ∘ snd <$> list_find (λ b, btag b = V_REGEXP ∧ bvalue b = lens_regexp l) bs
      else None
  end.

Definition ay_get_lense_name_by_modname (modname : cstr) (l : lens) : option cstr :=
  m ← ay_get_module modules modname 0; ay_get_lense_name_by_mod (bindings m) l.

Context (lm : list lnode).

Definition ay_get_lense_name (lnode : option nat) : res (option cstr) :=
  match lnode with
  | None => Ok None
  | Some i =>
      n ← fetch lm i;
      let l := lens_of (data n) in
      match ay_get_lense_name_by_mod (bindings md) l with
      | Some s => Ok (Some s)
      | None =>
          match ay_get_lense_name_by_modname (lit "Rx") l with
          | Some s => Ok (Some s)
          | None =>
              match lmod (data n) with
              | Some m => if (mod_id m =? mod_id md)%nat then Ok None
                          else Ok (ay_get_lense_name_by_mod (bindings m) l)
              | None => Fault NullDeref
              end
          end
      end
  end.

Context (m : list ynode).

(** [for (ynter = nd->child; ynter; ynter = ynter->child)]. *)
Fixpoint first_descendant {A} (fuel : nat) (iter : option nat) (body : ydata → option A) : res (option A) :=
  match iter with
  | None => Ok None
  | Some i =>
      match fuel with
      | 0 => Fault OutOfFuel
      | S fuel' =>
          n ← fetch m i;
          match body (data n) with
          | Some a => Ok (Some a)
          | None => first_descendant fuel' (child n) body
          end
      end
  end.

Definition spare_binding (l : lens) (bs : list binding) : option cstr :=
  bident ∘ snd <$> list_find (λ b, bvalue b = lens_id l ∧ bident b ≠ lit "lns") bs.

Fixpoint spare_name (fuel : nat) (liter : option nat) (stop : nat) : res (option cstr) :=
  match liter with
  | None => Ok None
  | Some i =>
      if (i =? stop)%nat then Ok None
      else
        match fuel with
        | 0 => Fault OutOfFuel
        | S fuel' =>
            n ← fetch lm i;
            let l := lens_of (data n) in
            match spare_binding l (bindings md) with
            | Some s => Ok (Some s)
            | None =>
                lmd ← deref (lmod (data n));
                match spare_binding l (bindings lmd) with
                | Some s => Ok (Some s)
                | None => spare_name fuel' (parent n) stop
                end
            end
        end
  end.

Definition ay_get_spare_lense_name (nd : nat) : res (option cstr) :=
  n ← fetch m nd;
  stop ← climb (length m) m (parent n) (λ _ y, snode (data y));
  match stop with
  | None => Ok None
  | Some stop =>
      start ← first_descendant (length m) (child n) (λ d,
        match snode d with Some s => Some s | None => label d end);
      match start with
      | None => Ok None
      | Some s => ln ← fetch lm s; spare_name (length lm) (parent ln) stop
      end
  end.

(** ** Identifiers of labels *)

Context (patt_table : list ay_transl).

Definition ay_ynode_get_substr_from_transl_table (nd : nat) : res cstr :=
  n ← fetch m nd;
  lab ← deref (label (data n));
  ln ← fetch lm lab;
  _ ← c_assert (lflag (data ln) AY_LNODE_KEY_HAS_IDENTS);
  let l := lens_of (data ln) in
  _ ← c_assert (bool_decide (tag l = L_KEY) && bool_decide (is_Some (parent n)));
  idx ← ay_ynode_splitted_seq_index lm m nd;
  match ay_transl_find patt_table (pattern l) with
  | None => Fault AssertFailed
  | Some tran =>
      _ ← c_assert (idx <? length (substr tran))%nat;
      fetch (substr tran) idx
  end.

Definition ay_ynode_get_ident_from_transl_table (nd : nat) (opt : ay_ident_dst) : ident_m unit :=
  ident ← lift (ay_ynode_get_substr_from_transl_table nd);
  from_pattern ident opt.

(** The identifier and whether it is standardized; every caller returns the error
    of the translation table as soon as it has it. *)
Definition ay_get_yang_ident_from_label (nd : nat) (opt : ay_ident_dst) : ident_m (option (source * bool)) :=
  n ← lift (fetch m nd);
  match label (data n) with
  | None => mret None
  | Some lab =>
      ln ← lift (fetch lm lab);
      let l := lens_of (data ln) in
      let node_name := bool_decide (opt = AY_IDENT_NODE_NAME) in
      let standard str :=
        if bool_decide (opt = AY_IDENT_DATA_PATH) then mret (Some (Text str, false))
        else
          _ ← status (standardize (Some str) opt false);
          none ← buffer_empty;
          mret (if (none : bool) then None else Some (InBuffer, true)) in
      if bool_decide (tag l = L_LABEL) || bool_decide (tag l = L_SEQ) then standard (lens_string l)
      else if lflag (data ln) AY_LNODE_KEY_IS_LABEL then
        if node_name then standard (text (pattern l))
        else
          _ ← change (ay_string_remove_characters (text (pattern l)) BSLASH);
          mret (Some (InBuffer, false))
      else if lflag (data ln) AY_LNODE_KEY_HAS_IDENTS then
        _ ← ay_ynode_get_ident_from_transl_table nd opt;
        mret (Some (InBuffer, false))
      else mret None
  end.

(** ** Names of terms *)

Context (pm : list pnode).

Definition ay_ynode_name_by_pnode (p : option nat) : res (option cstr) :=
  match p with
  | None => Ok None
  | Some i =>
      t ← term_of pm i;
      Ok (if bool_decide (ttag t = A_FUNC) || bool_decide (ttag t = A_BIND) then Some (tname t) else None)
  end.

Definition lnode_pnode (i : option nat) : res (option nat) :=
  match i with None => Ok None | Some i => n ← fetch lm i; Ok (lpnode (data n)) end.

Definition ay_ynode_snode_name (nd : nat) : res (option cstr) :=
  n ← fetch m nd;
  p ← lnode_pnode (snode (data n));
  match p with
  | None => Ok None
  | Some i =>
      pn ← fetch pm i;
      if negb (pflag (data pn) AY_PNODE_FOR_SNODE) || pflag (data pn) AY_PNODE_FOR_SNODES then Ok None
      else ay_ynode_name_by_pnode (Some i)
  end.

(** ** The identifier of a node *)

Context (values : dict nat).

Section descendants.
Context (yang_ident : nat → ay_ident_dst → ident_m unit).

(** The loop of [ay_get_yang_ident_first_descendants]. *)
Fixpoint name_below (fuel : nat) (iter : option nat) (opt : ay_ident_dst) : ident_m unit :=
  match iter with
  | None => mret tt
  | Some i =>
      match fuel with
      | 0 => lift (Fault OutOfFuel)
      | S fuel' =>
          n ← lift (fetch m i);
          if bool_decide (is_Some (next n)) || bool_decide (type (data n) = YN_LEAFREF) then mret tt
          else if bool_decide (type (data n) = YN_CASE) then name_below fuel' (child n) opt
          else
            s ← lift (ay_get_lense_name (snode (data n)));
            match s with
            | Some s => copy s
            | None =>
                _ ← yang_ident i opt;
                b1 ← buffer_is "config-entries"; b2 ← buffer_is "node";
                if (b1 || b2 : bool) then
                  _ ← change (λ b, put b 0 NUL); name_below fuel' (child n) opt
                else mret tt
            end
      end
  end.

Definition ay_get_yang_ident_first_descendants (nd : nat) (opt : ay_ident_dst) : ident_m unit :=
  _ ← change (λ b, put b 0 NUL);
  n ← lift (fetch m nd);
  name_below (length m) (child n) opt.
End descendants.

(** What a branch of [ay_get_yang_ident] finds: the identifier with the flags
    [internal], [ch_tag] and [stand], or it has returned. *)
Inductive found := Returned | Name (str : source) (internal ch_tag stand : bool).

Definition named (str : source) : ident_m found := mret (Name str false false false).
Definition from_label (x : source * bool) : ident_m found := mret (Name (fst x) false false (snd x)).

(** A name without further properties among the alternatives. *)
Definition other (r : res (option cstr)) : ident_m (option (source * bool)) :=
  s ← lift r; mret ((λ s, (Text s, false)) <$> s).

(** The list of a leafref. *)
Definition leafref_list (sl : lens) (y : ynode) : bool :=
  bool_decide (type (data y) = YN_LIST) &&
  match snode (data y) with
  | Some s => match lm !! s with
              | Some ln => bool_decide (ltag ln = L_REC) && same_body (lens_of (data ln)) sl
              | None => false
              end
  | None => false
  end.

Section branches.
Context (yang_ident : nat → ay_ident_dst → ident_m unit).

Definition child_ident (n : ynode) (opt : ay_ident_dst) : ident_m unit :=
  c ← lift (deref (child n)); yang_ident c opt.

Definition grouping_name (nd : nat) (n : ynode) (opt : ay_ident_dst) : ident_m found :=
  _ ← lift (c_assert (bool_decide (is_Some (child n))));
  _ ← ay_get_yang_ident_first_descendants yang_ident nd opt;
  none ← buffer_empty;
  if (none : bool) then
    s ← lift (ay_get_lense_name (snode (data n)));
    match s with
    | Some s => named (Text s)
    | None =>
        _ ← child_ident n opt;
        b1 ← buffer_is "node"; b2 ← buffer_is "config-entries";
        if (b1 || b2 : bool) then named (Text (lit "gr")) else mret (Name InBuffer false true false)
    end
  else mret (Name InBuffer false true false).

Definition leafref_name (n : ynode) (opt : ay_ident_dst) : ident_m found :=
  sl ← lift (snode_lens lm n);
  sl ← (match sl with Some sl => mret sl | None => lift (Fault AssertFailed) end);
  iter ← lift (climb (length m) m (parent n) (λ i y, if leafref_list sl y then Some y else None));
  y ← (match iter with Some y => mret y | None => lift (Fault AssertFailed) end);
  _ ← child_ident y opt;
  _ ← check_size (lit "-ref");
  _ ← append (lit "-ref");
  mret (Name InBuffer true false false).

Definition with_list : ident_m unit := _ ← check_size (lit "-list"); append (lit "-list").

(** [strncpy(buffer, tmp, len); buffer[len] = 0]. *)
Definition module_name : ident_m found :=
  s ← lift ay_get_yang_module_name;
  if (AY_MAX_IDENT_SIZE <? length s + 1)%nat then lift (Err AYE_IDENT_LIMIT)
  else _ ← copy s; named InBuffer.

Definition list_name (nd : nat) (n : ynode) (opt : ay_ident_dst) : ident_m found :=
  p ← lift (deref (parent n));
  pn ← lift (fetch m p);
  sl ← lift (snode_lens lm n);
  seq ← lift (AY_YNODE_IS_SEQ_LIST lm n);
  if bool_decide (type (data pn) = YN_ROOT) then module_name
  else if bool_decide (tag <$> sl = Some L_REC) then
    _ ← child_ident n AY_IDENT_NODE_NAME;
    _ ← with_list; named InBuffer
  else if (seq : bool) then
    l ← lift (label_lens lm n);
    l ← lift (deref l);
    _ ← check_size (lens_string l);
    _ ← copy (lens_string l);
    _ ← with_list; named InBuffer
  else
    s ← lift (ay_get_lense_name (label (data n)));
    match (if bool_decide (s = Some (lit "lns")) then None else s) with
    | Some s => named (Text s)
    | None =>
        ret ← status (ay_get_yang_ident_first_descendants yang_ident nd opt);
        none ← (if (ret =? 0)%Z then buffer_empty else mret true);
        if negb none then
          _ ← with_list; mret (Name InBuffer false true false)
        else
          s ← lift (ay_get_spare_lense_name nd);
          match s with
          | Some s => named (Text s)
          | None => named (Text (lit "config-entries"))
          end
    end.

Definition container_name (nd : nat) (n : ynode) (opt : ay_ident_dst) : ident_m found :=
  match label (data n) with
  | None => _ ← child_ident n opt; named InBuffer
  | Some lab =>
      ln ← lift (fetch lm lab);
      if lflag (data ln) AY_LNODE_KEY_HAS_IDENTS then
        _ ← ay_ynode_get_ident_from_transl_table nd opt; named InBuffer
      else
        c ← lift (deref (child n));
        cn ← lift (fetch m c);
        name ← first_of
          [(if bool_decide (type (data cn) = YN_KEY) then mret None else ay_get_yang_ident_from_label nd opt);
           other (ay_get_lense_name (snode (data n)));
           other (ay_ynode_snode_name nd);
           other (ay_get_lense_name (Some lab));
           ay_get_yang_ident_from_label nd opt;
           other (ay_ynode_name_by_pnode (lpnode (data ln)))];
        match name with
        | Some x => from_label x
        | None => named (Text (lit "node"))
        end
  end.

Definition value_ident (n : ynode) : ident_m found :=
  c ← lift (match child n with Some c => Ok c | None => Fault AssertFailed end);
  cn ← lift (fetch m c);
  v ← lift (match next cn with Some v => Ok v | None => Fault AssertFailed end);
  vn ← lift (fetch m v);
  _ ← lift (c_assert (bool_decide (type (data vn) = YN_VALUE)));
  _ ← yang_ident v AY_IDENT_NODE_NAME;
  mret Returned.

Definition key_name (nd : nat) (n : ynode) (opt : ay_ident_dst) : ident_m found :=
  x ← ay_get_yang_ident_from_label nd opt;
  match x with
  | Some x =>
      l ← lift (label_lens lm n);
      l ← lift (deref l);
      s ← (if bool_decide (tag l = L_SEQ) then mret None else lift (ay_get_lense_name (value (data n))));
      match s with Some s => mret (Name (Text s) false false (snd x)) | None => from_label x end
  | None =>
      lab ← lift (deref (label (data n)));
      s ← first_of [other (ay_get_lense_name (Some lab));
                    p ← lift (lnode_pnode (Some lab)); other (ay_ynode_name_by_pnode p)];
      match s with Some x => from_label x | None => named (Text (lit "label")) end
  end.

Definition value_name (n : ynode) : ident_m found :=
  s ← (match ay_dnode_find values (value (data n)) with
       | Some _ => mret None
       | None => lift (ay_get_lense_name (value (data n)))
       end);
  named (Text (default (lit "value") s)).

Definition leaf_name (nd : nat) (n : ynode) (opt : ay_ident_dst) : ident_m found :=
  x ← first_of
    [ay_get_yang_ident_from_label nd opt;
     other (ay_get_lense_name (snode (data n)));
     other (ay_get_lense_name (label (data n)));
     lab ← lift (deref (label (data n)));
     p ← lift (lnode_pnode (Some lab)); other (ay_ynode_name_by_pnode p)];
  match x with Some x => from_label x | None => named (Text (lit "node")) end.

Definition data_path_name (nd : nat) (opt : ay_ident_dst) : ident_m found :=
  x ← ay_get_yang_ident_from_label nd opt;
  match x with Some x => from_label x | None => named (Text (lit "$$")) end.

(** The chain of conditions on the type and on [opt]. *)
Definition find_name (nd : nat) (n : ynode) (opt : ay_ident_dst) : ident_m found :=
  match type (data n), opt with
  | YN_GROUPING, _ => grouping_name nd n opt
  | YN_LEAFREF, _ => leafref_name n opt
  | YN_USES, _ => named (Text (default (lit "node") (ident (data n))))
  | YN_LIST, _ => list_name nd n opt
  | YN_CONTAINER, AY_IDENT_NODE_NAME => container_name nd n opt
  | YN_CONTAINER, AY_IDENT_VALUE_YPATH => value_ident n
  | YN_KEY, _ => key_name nd n opt
  | YN_CASE, _ => _ ← status (child_ident n opt); named InBuffer
  | YN_VALUE, _ => value_name n
  | YN_LEAF, AY_IDENT_NODE_NAME => leaf_name nd n opt
  | YN_CONTAINER, AY_IDENT_DATA_PATH | YN_LEAF, AY_IDENT_DATA_PATH => data_path_name nd opt
  | YN_LEAF, AY_IDENT_VALUE_YPATH => _ ← yang_ident nd AY_IDENT_NODE_NAME; mret Returned
  | _, _ => lift (Err AYE_IDENT_NOT_FOUND)
  end.

(** Several branches of a choice below a grouping or a list. *)
Definition has_choice_below (n : ynode) : res bool :=
  if bool_decide (type (data n) = YN_GROUPING) || bool_decide (type (data n) = YN_LIST) then
    match child n with
    | None => Ok false
    | Some c =>
        cn ← fetch m c;
        match next cn with
        | None => Ok false
        | Some x =>
            xn ← fetch m x;
            Ok (bool_decide (is_Some (choice (data cn))) && bool_decide (choice (data xn) = choice (data cn)))
        end
    end
  else Ok false.

(** [memmove(buffer + 3, buffer, strlen(buffer) + 1); memcpy(buffer, "ch-", 3)]. *)
Definition add_ch (n : ynode) : ident_m unit :=
  ch ← lift (has_choice_below n);
  if (ch : bool) then
    t ← look cstr_of;
    if (3 <=? length t)%nat && negb (strneq t (lit "ch-") 3) then
      _ ← check_size (lit "ch-");
      change (λ b, b1 ← bmove b 3 0 (length t + 1); bwrite b1 0 (lit "ch-"))
    else mret tt
  else mret tt.

(** The end of the function: the code of the standardization is returned last. *)
Definition finish_name (n : ynode) (opt : ay_ident_dst) (x : found) : ident_m unit :=
  match x with
  | Returned => mret tt
  | Name str internal ch_tag stand =>
      ret ← (if bool_decide (opt = AY_IDENT_DATA_PATH) then
               match str with Text s => _ ← copy s; mret 0%Z | InBuffer => mret 0%Z end
             else
               ret ← (if stand then mret 0%Z
                      else status (standardize (match str with Text s => Some s | InBuffer => None end) opt internal));
               none ← buffer_empty;
               _ ← lift (c_assert (negb none));
               mret ret);
      _ ← (if ch_tag then add_ch n else mret tt);
      if (ret =? 0)%Z then mret tt else lift (Err ret)
  end.
End branches.

Fixpoint yang_ident (fuel : nat) (nd : nat) (opt : ay_ident_dst) : ident_m unit :=
  match fuel with
  | 0 => lift (Fault OutOfFuel)
  | S fuel' =>
      n ← lift (fetch m nd);
      x ← find_name (yang_ident fuel') nd n opt;
      finish_name n opt x
  end.

(** A node hands over to a descendant or to itself. *)
Definition ay_get_yang_ident (nd : nat) (opt : ay_ident_dst) : ident_m unit :=
  yang_ident (2 * length m) nd opt.
End names.
