(* ===== verification/Idents.v ===== *)
(** The identifiers of all nodes: [ay_ynode_idents] of [src/print_yang.c] and the
    search for equal identifiers among the siblings of a node. *)
From S2P Require Import Prelude CString Common ParseRegex Preorder Lnode Ynode Forest YnodeQuery YnodeRules YnodeMandatory Dnode TransBase TransGroup Pnode Ident Names.
#[local] Open Scope cstr_scope.

(** ** Siblings in the sense of YANG *)

Section siblings.
Context (m : list ynode).

(** [for (iter = iter; iter && iter->type == YN_CASE; iter = iter->child)]. *)
Fixpoint into_case (fuel : nat) (iter : option nat) : res (option nat) :=
  match iter with
  | None => Ok None
  | Some i =>
      match fuel with
      | 0 => Fault OutOfFuel
      | S fuel' =>
          n ← fetch m i;
          if bool_decide (type (data n) = YN_CASE) then into_case fuel' (child n) else Ok (Some i)
      end
  end.

(** [for (iter = iter->parent; iter != root && !iter->next; iter = iter->parent)]. *)
Fixpoint up_to_next (fuel root i : nat) : res (option nat) :=
  if (i =? root)%nat then Ok None
  else
    n ← fetch m i;
    match next n with
    | Some j => Ok (Some j)
    | None =>
        match fuel with
        | 0 => Fault OutOfFuel
        | S fuel' => p ← deref (parent n); up_to_next fuel' root p
        end
    end.

Definition ay_yang_ident_iter (root : nat) (iter : option nat) : res (option nat) :=
  ret ← (match iter with
         | None => r ← fetch m root; Ok (child r)
         | Some i =>
             n ← fetch m i;
             match next n with
             | None => p ← deref (parent n); up_to_next (length m) root p
             | Some j => Ok (Some (if bool_decide (type (data n) = YN_CASE) then i else j))
             end
         end);
  into_case (length m) ret.

(** ** Equal identifiers *)

(** The rests of the two identifiers behind the common part without digits. *)
Fixpoint common_prefix (ch1 ch2 : cstr) : cstr * cstr :=
  match ch1, ch2 with
  | c :: ch1', d :: ch2' =>
      if isdigit c || isdigit d || (c <>c d) then (ch1, ch2) else common_prefix ch1' ch2'
  | _, _ => (ch1, ch2)
  end.

(** [rnk], [cnt] and [prev]. *)
Record ranks := Ranks { rnk : Z; cnt : Z; prev : Z }.

Definition compare_idents (ident node_ident : cstr) (r : ranks) : ranks :=
  let '(ch1, ch2) := common_prefix ident node_ident in
  if isdigit (at_ ch1 0) && (at_ ch2 0 =c NUL) then
    match strtol ch1 with
    | (v, false, []) => Ranks (rnk r) (u64 (cnt r + 1)) (if (0 <=? rnk r)%Z then prev r else v)
    | _ => r
    end
  else if (at_ ch1 0 =c NUL) && (at_ ch2 0 =c NUL) then Ranks (rnk r) (u64 (cnt r + 1)) (prev r)
  else r.

(** One sibling; [duplications] is the recursive call for a grouping. *)
Definition count_sibling (duplications : nat → res (Z * Z)) (nd i : nat) (node_ident : cstr) (r : ranks)
  : res ranks :=
  n ← fetch m i;
  match type (data n), ident (data n) with
  | YN_KEY, _ | YN_LEAFREF, _ | _, None => Ok r
  | ty, Some id =>
      if (i =? nd)%nat then Ok (Ranks (cnt r) (cnt r) (prev r))
      else
        r' ← (if bool_decide (ty = YN_USES) then
                gr ← ay_ynode_get_grouping m (ref (data n));
                g ← deref gr;
                gn ← fetch m g;
                c ← deref (child gn);
                '(tmp_rnk, tmp_cnt) ← duplications c;
                Ok (Ranks (if (rnk r =? -1)%Z then tmp_rnk else rnk r) (u64 (cnt r + tmp_cnt)) (prev r))
              else Ok r);
        Ok (compare_idents id node_ident r')
  end.

Fixpoint count_siblings (fuel : nat) (duplications : nat → res (Z * Z)) (root nd : nat) (iter : option nat)
    (node_ident : cstr) (r : ranks) : res ranks :=
  match iter with
  | None => Ok r
  | Some i =>
      match fuel with
      | 0 => Fault OutOfFuel
      | S fuel' =>
          r' ← count_sibling duplications nd i node_ident r;
          it ← ay_yang_ident_iter root (Some i);
          count_siblings fuel' duplications root nd it node_ident r'
      end
  end.

(** The parent that is not a YN_CASE. *)
Fixpoint out_of_case (fuel : nat) (iter : option nat) : res nat :=
  match iter with
  | None => Fault AssertFailed
  | Some i =>
      match fuel with
      | 0 => Fault OutOfFuel
      | S fuel' =>
          n ← fetch m i;
          if bool_decide (type (data n) = YN_CASE) then out_of_case fuel' (parent n) else Ok i
      end
  end.

Fixpoint ident_duplications (fuel : nat) (node_ident : cstr) (nd : nat) : res (Z * Z) :=
  match fuel with
  | 0 => Fault OutOfFuel
  | S fuel' =>
      n ← fetch m nd;
      if bool_decide (type (data n) = YN_CASE) then Ok (0, 0)%Z
      else
        root ← out_of_case (length m) (parent n);
        first ← ay_yang_ident_iter root None;
        r ← count_siblings (length m) (ident_duplications fuel' node_ident) root nd first node_ident
              (Ranks (-1) 0 (-1));
        Ok (if (0 <=? prev r)%Z then prev r else rnk r, cnt r)
  end.

(** The rank and the count; the recursion enters a grouping. *)
Definition ay_yang_ident_duplications (nd : nat) (node_ident : cstr) : res (Z * Z) :=
  ident_duplications (S (length m)) node_ident nd.
End siblings.

(** ** Numbers behind equal identifiers *)

Definition digit (n : Z) : ascii := ascii_of_N (Z.to_N (48 + n)).
Fixpoint decimal_digits (fuel : nat) (n : Z) : cstr :=
  match fuel with
  | 0 => []
  | S fuel' => (if (n <? 10)%Z then [] else decimal_digits fuel' (n / 10)) ++ [digit (n mod 10)]
  end.
(** ["%" PRId64] for a number that is not negative. *)
Definition decimal (n : Z) : cstr := decimal_digits 20 n.

(** The identifier in the buffer and the number behind it. *)
Definition number_ident (buffer : buf) (ident : cstr) (dupl_rank : Z) : res buf :=
  _ ← c_assert (0 <? dupl_rank)%Z;
  b1 ← strcpy buffer 0 ident;
  _ ← (if (dupl_rank <? 10)%Z then AY_CHECK_MAX_IDENT_SIZE b1 (lit "X")
       else _ ← c_assert (dupl_rank <? 100)%Z; AY_CHECK_MAX_IDENT_SIZE b1 (lit "XX"));
  strcat b1 (decimal (dupl_rank + 1)).

(** ** All identifiers *)

Definition ay_ynode_ident_write (old : option cstr) (new : cstr) : res (option cstr) :=
  _ ← c_assert (at_ new 0 <>c NUL); Ok (Some new).

Section idents.
Context `{LensPointers} `{PointerBytes nat} (modules : list amodule) (md : amodule) (lm : list lnode)
  (patt_table : list ay_transl) (pm : list pnode) (values : dict nat).

(** The state of the loops: the nodes and the local array [buffer]. *)
Definition write_ident (m : list ynode) (i : nat) (b : buf) : res (list ynode) :=
  n ← fetch m i;
  t ← cstr_of b;
  id ← ay_ynode_ident_write (ident (data n)) t;
  modify m i (on_data (with_ident id)).

Definition node_ident (m : list ynode) (i : nat) (b : buf) : res buf :=
  '(b', r) ← ay_get_yang_ident modules md lm m patt_table pm values i AY_IDENT_NODE_NAME b;
  match r with inr _ => Ok b' | inl e => Err e end.

Definition ident_of_node (m : list ynode) (i : nat) (b : buf) : res (list ynode * buf) :=
  n ← fetch m i;
  let d := data n in
  _ ← c_assert (negb (bool_decide (type d = YN_REC)));
  if bool_decide (type d = YN_USES) || bool_decide (type d = YN_ROOT) then Ok (m, b)
  else
    b' ← (if bool_decide (type d = YN_CONTAINER) && bool_decide (label d = None)
          then strcpy b 0 (lit "case") else node_ident m i b);
    m' ← write_ident m i b';
    Ok (m', b').

(** [n] elements from [i] on. *)
Fixpoint each_ident (body : list ynode → nat → buf → res (list ynode * buf)) (n i : nat) (m : list ynode)
    (b : buf) : res (list ynode * buf) :=
  match n with
  | 0 => Ok (m, b)
  | S n' => '(m', b') ← body m i b; each_ident body n' (S i) m' b'
  end.

(** The lists and groupings whose first child is renamed. *)
Fixpoint rename_parents (fuel : nat) (m : list ynode) (iter : option nat) (b : buf) : res (list ynode * buf) :=
  match iter with
  | None => Ok (m, b)
  | Some i =>
      match fuel with
      | 0 => Fault OutOfFuel
      | S fuel' =>
          n ← fetch m i;
          p ← deref (parent n);
          pn ← fetch m p;
          let ty := type (data pn) in
          if negb (bool_decide (child pn = Some i))
             || negb (bool_decide (ty = YN_LIST)) && negb (bool_decide (ty = YN_GROUPING)) then Ok (m, b)
          else
            b' ← node_ident m p b;
            m' ← write_ident m p b';
            rename_parents fuel' m' (parent n) b'
      end
  end.

Definition ident_of_uses (m : list ynode) (i : nat) (b : buf) : res (list ynode * buf) :=
  n ← fetch m i;
  if negb (bool_decide (type (data n) = YN_USES)) then Ok (m, b)
  else
    gr ← ay_ynode_get_grouping m (ref (data n));
    g ← (match gr with Some g => Ok g | None => Fault AssertFailed end);
    gn ← fetch m g;
    gi ← deref (ident (data gn));
    id ← ay_ynode_ident_write (ident (data n)) gi;
    m1 ← modify m i (on_data (with_ident id));
    rename_parents (length m1) m1 (Some i) b.

Definition number_node (m : list ynode) (i : nat) (b : buf) : res (list ynode * buf) :=
  n ← fetch m i;
  id ← deref (ident (data n));
  '(dupl_rank, dupl_count) ← ay_yang_ident_duplications m i id;
  if (dupl_count =? 0)%Z then Ok (m, b)
  else
    b' ← (if bool_decide (type (data n) = YN_KEY) then strcpy b 0 (lit "id")
          else if negb (dupl_rank =? 0)%Z then number_ident b id dupl_rank
          else strcpy b 0 id);
    m' ← write_ident m i b';
    Ok (m', b').

(** [buffer] is the local array before the first write. *)
Definition ay_ynode_idents (buffer : buf) (s : ytree) (solve_duplicates : bool) : res ytree :=
  '(m1, b1) ← each_ident ident_of_node (count s) 0 (mem s) buffer;
  '(m2, b2) ← each_ident ident_of_uses (count s - 1) 1 m1 b1;
  if negb solve_duplicates then Ok (set_mem m2 s)
  else
    '(m3, _) ← each_ident number_node (count s - 1) 1 m2 b2;
    Ok (set_mem m3 s).
End idents.
