(* ===== verification/NamesTheorems.v ===== *)
(** Theorems on the names of nodes: the number behind an identifier and the size of
    the buffer; which siblings count as nodes with the same parent in YANG. *)
From S2P Require Import Prelude CString Common ParseRegex Preorder PreorderFacts Lnode Ynode Forest YnodeQuery YnodeMandatory Dnode TransBase TransGroup Pnode Ident Names Idents.
#[local] Open Scope cstr_scope.

(** ** Numbers *)

Definition no_nul (s : cstr) : bool := forallb (λ c, c <>c NUL) s.

Lemma no_nul_cstr s : no_nul s = true → is_cstr s.
Proof.
  intros H. apply Forall_forall. intros c Hc. unfold no_nul in H. rewrite forallb_forall in H.
  specialize (H c ltac:(by apply list_elem_of_In)). by destruct (Ascii.eqb_spec c NUL).
Qed.

(** The digits of the number behind an identifier. *)
Definition digits_of (r : Z) : nat := if (r <? 9)%Z then 1 else if (r <? 99)%Z then 2 else 3.

Lemma decimal_small r : (1 <= r <= 99)%Z →
  length (decimal (r + 1)) = digits_of r ∧ is_cstr (decimal (r + 1)).
Proof.
  intros Hr.
  assert (forallb (λ k, let s := decimal (Z.of_nat k + 1) in
    (length s =? digits_of (Z.of_nat k))%nat && no_nul s) (seq 1 99) = true) as H by (by vm_compute).
  rewrite forallb_forall in H. specialize (H (Z.to_nat r)).
  rewrite in_seq, Z2Nat.id in H by lia. specialize (H ltac:(lia)).
  apply andb_prop in H as [H1 H2]. split; [by apply Nat.eqb_eq|by apply no_nul_cstr].
Qed.

Lemma strcpy_start (b : buf) s :
  (length s < length b)%nat → strcpy b 0 s = Ok (s ++ NUL :: drop (S (length s)) b).
Proof.
  intros Hl. unfold strcpy, bwrite. rewrite decide_True by (rewrite length_app; cbn; lia).
  rewrite length_app. cbn [length app take Nat.add]. rewrite <- app_assoc.
  by replace (length s + 1)%nat with (S (length s)) by lia.
Qed.

Lemma strcat_end (b : buf) s t r :
  b = s ++ NUL :: r → is_cstr s →
  strcat b t = if decide (length t <= length r)%nat then Ok (s ++ t ++ NUL :: drop (length t) r)
               else Fault OutOfBounds.
Proof.
  intros -> Hs. unfold strcat. rewrite cstr_of_app, bind_Ok by done.
  assert (strcpy (s ++ NUL :: r) (length s) t = strncat (s ++ NUL :: r) t (length t)) as ->.
  { unfold strncat. by rewrite cstr_of_app, bind_Ok, take_ge by done. }
  case_decide as Hd.
  - rewrite strncat_fits; rewrite ?take_ge; done.
  - rewrite strncat_overflows; rewrite ?take_ge; done || lia.
Qed.

(** The digits that the check of the size allows for. *)
Definition digits_checked (r : Z) : nat := if (r <? 10)%Z then 1 else 2.

(** C27: A number is put behind an identifier when the identifier and the expected
    number of digits fit into the buffer, and is refused with AYE_IDENT_LIMIT
    otherwise; but the printed number is the rank plus one, so that with rank 9 or
    99 an identifier that just fits is written past the end of the buffer. *)
Theorem number_ident_bounds (b : buf) (s : cstr) (r : Z) :
  length b = AY_MAX_IDENT_SIZE → is_cstr s → (length s < AY_MAX_IDENT_SIZE)%nat → (1 <= r <= 99)%Z →
  let room := (AY_MAX_IDENT_SIZE - (length s + 1))%nat in
  ((room < digits_checked r)%nat → number_ident b s r = Err AYE_IDENT_LIMIT) ∧
  ((digits_of r <= room)%nat → (digits_checked r <= room)%nat →
    ∃ b', number_ident b s r = Ok b' ∧ length b' = AY_MAX_IDENT_SIZE ∧ cstr_of b' = Ok (s ++ decimal (r + 1))) ∧
  (r = 9%Z ∨ r = 99%Z → room = digits_checked r → number_ident b s r = Fault OutOfBounds).
Proof.
  intros Hb Hs Hl Hr room. destruct (decimal_small r Hr) as [Hd Hn].
  assert (number_ident b s r =
    if decide (room < digits_checked r)%nat then Err AYE_IDENT_LIMIT
    else if decide (digits_of r <= room)%nat
    then Ok (s ++ decimal (r + 1) ++ NUL :: drop (digits_of r) (drop (S (length s)) b))
    else Fault OutOfBounds) as ->.
  { unfold number_ident. rewrite (c_assert_true (0 <? r)%Z), bind_Ok by lia.
    rewrite strcpy_start, bind_Ok by lia. set (b1 := s ++ _).
    assert (∀ w, AY_CHECK_MAX_IDENT_SIZE b1 w
      = if (AY_MAX_IDENT_SIZE <? length s + length w + 1)%nat then Err AYE_IDENT_LIMIT else Ok tt) as Hck.
    { intros w. unfold AY_CHECK_MAX_IDENT_SIZE, b1. by rewrite cstr_of_app. }
    assert ((if (r <? 10)%Z then AY_CHECK_MAX_IDENT_SIZE b1 (lit "X")
      else _ ← c_assert (r <? 100)%Z; AY_CHECK_MAX_IDENT_SIZE b1 (lit "XX"))
      = if decide (room < digits_checked r)%nat then Err AYE_IDENT_LIMIT else Ok tt) as ->.
    { rewrite (c_assert_true (r <? 100)%Z), bind_Ok, !Hck by lia. unfold digits_checked, room, AY_MAX_IDENT_SIZE in *.
      change (length (lit "X")) with 1%nat. change (length (lit "XX")) with 2%nat.
      destruct (r <? 10)%Z; case_decide;
        match goal with |- context [(?a <? ?b)%nat] => destruct (Nat.ltb_spec a b) end; done || lia. }
    case_decide; [done|]. rewrite bind_Ok, (strcat_end b1 s _ (drop (S (length s)) b)), length_drop, Hd, Hb by done.
    unfold room.
    repeat case_decide; done || lia. }
  split_and!.
  - intros H. by rewrite decide_True.
  - intros H1 H2. rewrite decide_False, decide_True by lia. eexists. split; [done|]. split.
    + rewrite !length_app. cbn [length]. rewrite !length_drop, Hd, Hb. lia.
    + rewrite app_assoc. apply cstr_of_app. by apply Forall_app.
  - intros H1 H2. rewrite decide_False by lia. rewrite decide_False; [done|].
    destruct H1 as [-> | ->]; cbn in *; lia.
Qed.

Theorem number_ident_bounds_witness :
  (∃ b', number_ident (replicate 64 NUL) (lit "node") 1 = Ok b' ∧ cstr_of b' = Ok (lit "node2")) ∧
  number_ident (replicate 64 NUL) (replicate 62 "a"%char) 9 = Fault OutOfBounds.
Proof.
  split.
  - destruct (number_ident_bounds (replicate 64 NUL) (lit "node") 1) as (_ & H & _);
      [reflexivity|by apply no_nul_cstr|by apply Nat.ltb_lt|lia|].
    destruct H as (b' & H1 & _ & H2); [by apply Nat.leb_le..|]. by exists b'.
  - apply (number_ident_bounds (replicate 64 NUL) (replicate 62 "a"%char) 9);
      [reflexivity|by apply no_nul_cstr|by apply Nat.ltb_lt|lia|by left|reflexivity].
Defined.

(** ** Siblings in YANG *)

(** The nodes that a tree at index [b] puts among the children of its parent: a
    YN_CASE is replaced by its children. *)
Fixpoint yang_nodes (b : nat) (t : tree ydata) : list nat :=
  match t with
  | T d us =>
      if decide (type d = YN_CASE)
      then (fix go b l := match l with [] => [] | u :: l' => yang_nodes b u ++ go (b + size u)%nat l' end) (S b) us
      else [b]
  end.
Fixpoint yang_siblings (b : nat) (ts : list (tree ydata)) : list nat :=
  match ts with [] => [] | t :: ts' => yang_nodes b t ++ yang_siblings (b + size t) ts' end.

Lemma yang_nodes_T b d us :
  yang_nodes b (T d us) = if decide (type d = YN_CASE) then yang_siblings (S b) us else [b].
Proof. cbn. case_decide; [|done]. generalize (S b). by induction us; intros; cbn; [|f_equal]. Qed.

(** Every YN_CASE that is entered has children. *)
Fixpoint case_full (t : tree ydata) : bool :=
  match t with
  | T d us => if decide (type d = YN_CASE) then negb (bool_decide (us = [])) && forallb case_full us else true
  end.

(** The iterator started at a node, until it is NULL. *)
Inductive iterates (m : list ynode) (root : nat) : option nat → list nat → Prop :=
| iterates_end : iterates m root None []
| iterates_next i o l :
    ay_yang_ident_iter m root (Some i) = Ok o → iterates m root o l → iterates m root (Some i) (i :: l).

Section siblings.
Context (m : list ynode) (root : nat).

(** Going up from the node [p] leads to the nodes [K]. *)
Definition upwards (p : nat) (K : list nat) : Prop :=
  ∃ x, (∀ fuel, (p <= fuel)%nat → up_to_next m fuel root p = Ok x) ∧
    ∃ o, (∀ fuel, (length m <= fuel)%nat → into_case m fuel x = Ok o) ∧ iterates m root o K.

Lemma lookup_child d ls c0 t f :
  m = encf 0 None None (plug (Frame d ls [] :: c0) (t :: f)) →
  let b := hole (Frame d ls [] :: c0) in
  m !! b = Some (Node (Some (hole c0)) (first_index (b + size t) f) (first_index (S b) (subtrees t))
    (Z.of_nat (sizes (subtrees t))) (root_data t)) ∧ (b + sizes (t :: f) <= length m)%nat.
Proof.
  intros -> b. split.
  - unfold b. rewrite lookup_hole. done.
  - rewrite length_encf, sizes_plug. fold b. lia.
Qed.

(** What follows a node: from its next sibling the nodes [L] and [K], or nothing of
    [L] without a sibling. *)
Definition follows (nx : option nat) (L K : list nat) : Prop :=
  match nx with
  | Some j => ∃ o, (∀ fuel, (length m <= fuel)%nat → into_case m fuel (Some j) = Ok o) ∧ iterates m root o (L ++ K)
  | None => L = []
  end.

Lemma upwards_case b p nx ch ds d L K :
  m !! b = Some (Node (Some p) nx ch ds d) → (p < b)%nat → (root <= p)%nat →
  upwards p K → follows nx L K → upwards b (L ++ K).
Proof.
  intros Hb Hp Hroot HK Hf.
  assert (∀ fuel, (b <= fuel)%nat → up_to_next m fuel root b =
    match nx with Some j => Ok (Some j) | None => up_to_next m (fuel - 1) root p end) as Hup.
  { intros fuel Hfu. destruct fuel as [|fuel]; [lia|]. cbn [up_to_next].
    destruct (Nat.eqb_spec b root); [lia|]. rewrite (fetch_Some _ _ _ Hb), bind_Ok. cbn [next parent].
    destruct nx; [done|]. cbn [deref]. rewrite bind_Ok. do 2 f_equal. lia. }
  destruct nx as [j|]; cbn in Hf.
  - destruct Hf as (o & Ho & Hit). exists (Some j). split; [by intros; rewrite Hup|]. by exists o.
  - subst L. destruct HK as (x & Hx & o & Ho & Hit). exists x. split; [|by exists o].
    intros fuel Hfu. rewrite Hup by done. apply Hx. lia.
Qed.

Lemma iterates_node b p nx ch ds d L K :
  m !! b = Some (Node (Some p) nx ch ds d) → type d ≠ YN_CASE → (p <= length m)%nat →
  upwards p K → follows nx L K → iterates m root (Some b) (b :: L ++ K).
Proof.
  intros Hb Hty Hp (x & Hx & o & Ho & Hit) Hf.
  assert (ay_yang_ident_iter m root (Some b) = match nx with
    | Some j => into_case m (length m) (Some j) | None => into_case m (length m) x end) as Hstep.
  { unfold ay_yang_ident_iter. rewrite (fetch_Some _ _ _ Hb), bind_Ok. cbn [next parent data].
    destruct nx; [by rewrite bind_Ok, bool_decide_false|]. cbn [deref]. by rewrite bind_Ok, Hx, bind_Ok. }
  destruct nx as [j|]; cbn in Hf.
  - destruct Hf as (o' & Ho' & Hit'). econstructor; [|exact Hit']. rewrite Hstep. by apply Ho'.
  - subst L. econstructor; [|exact Hit]. rewrite Hstep. by apply Ho.
Qed.

Lemma visit_forest n : ∀ f, (sizes f < n)%nat → ∀ d ls c0 K,
  m = encf 0 None None (plug (Frame d ls [] :: c0) f) → f ≠ [] → forallb case_full f = true →
  (root <= hole c0)%nat → upwards (hole c0) K →
  let b := hole (Frame d ls [] :: c0) in
  ∃ o, (∀ fuel, (sizes f <= fuel)%nat → into_case m fuel (Some b) = Ok o) ∧
    iterates m root o (yang_siblings b f ++ K).
Proof.
  induction n as [|n IH]; [lia|]. intros [|[dt us] f] Hn d ls c0 K Hm Hne Hfull Hroot HK b; [done|].
  cbn [forallb] in Hfull. apply andb_prop in Hfull as [Ht Hf]. cbn [sizes] in Hn. rewrite size_T in Hn.
  destruct (lookup_child d ls c0 (T dt us) f Hm) as [Hb Hlen]. fold b in Hb, Hlen. cbn [root_data subtrees] in Hb.
  cbn [sizes] in Hlen |- *. rewrite size_T in Hb, Hlen |- *.
  assert (hole c0 < b)%nat as Hpb by (unfold b; cbn [hole]; lia).
  assert (follows (first_index (b + S (sizes us)) f) (yang_siblings (b + S (sizes us)) f) K) as Hrest.
  { destruct f as [|t' f]; [done|].
    destruct (IH (t' :: f) ltac:(lia) d (ls ++ [T dt us]) c0 K) as (o & Ho & Hit); [|done..|].
    { rewrite Hm. cbn [plug]. by rewrite <- app_assoc. }
    assert (hole (Frame d (ls ++ [T dt us]) [] :: c0) = b + S (sizes us))%nat as E.
    { unfold b. cbn [hole]. rewrite sizes_app. cbn [sizes]. rewrite size_T. lia. }
    rewrite E in Ho, Hit. exists o. split; [|done]. intros. apply Ho. lia. }
  cbn [yang_siblings]. rewrite yang_nodes_T, size_T, <- app_assoc. cbn [case_full] in Ht.
  case_decide as Hty.
  - apply andb_prop in Ht as [Hus Hfull]. apply negb_true_iff, bool_decide_eq_false in Hus.
    destruct (IH us ltac:(lia) dt [] (Frame d ls f :: c0) (yang_siblings (b + S (sizes us)) f ++ K))
      as (o & Ho & Hit); [|done|done|cbn [hole]; lia|by eapply upwards_case|].
    { rewrite Hm. cbn [plug]. by rewrite !app_nil_r. }
    change (hole (Frame dt [] [] :: Frame d ls f :: c0)) with (S b + 0)%nat in Ho, Hit.
    rewrite Nat.add_0_r in Ho, Hit. exists o. split; [|done]. intros fuel Hfu.
    destruct fuel as [|fuel]; [lia|]. cbn [into_case]. rewrite (fetch_Some _ _ _ Hb), bind_Ok. cbn [data child].
    rewrite bool_decide_true by done. destruct us as [|u us]; [done|]. cbn [first_index]. apply Ho. lia.
  - exists (Some b). split; [|apply (iterates_node _ _ _ _ _ _ _ _ Hb Hty ltac:(lia) HK Hrest)].
    intros fuel Hfu. destruct fuel as [|fuel]; [lia|]. cbn [into_case].
    rewrite (fetch_Some _ _ _ Hb), bind_Ok. cbn [data]. by rewrite bool_decide_false.
Qed.
End siblings.

(** The iterator of the search for equal identifiers visits, in order, the
    children of the node that have a place in the data tree of YANG: every child, but
    the children of a YN_CASE, at any depth, instead of that YN_CASE; then it ends. *)
Theorem siblings_visited c d ts :
  forallb case_full ts = true →
  let m := encf 0 None None (plug c [T d ts]) in
  ∃ first, ay_yang_ident_iter m (hole c) None = Ok first ∧
    iterates m (hole c) first (yang_siblings (S (hole c)) ts).
Proof.
  intros Hfull m.
  assert (m !! hole c = Some (Node (hole_parent c) (after [] (hole c + size (T d ts)) (hole_next c (sizes [T d ts])))
    (first_index (S (hole c)) ts) (Z.of_nat (sizes ts)) d)) as Hr by apply (lookup_hole c (T d ts) []).
  unfold ay_yang_ident_iter. rewrite (fetch_Some _ _ _ Hr), !bind_Ok. cbn [child].
  destruct ts as [|t ts]; [exists None; split; [by destruct (length m)|constructor]|].
  destruct (visit_forest m (hole c) (S (sizes (t :: ts))) (t :: ts) ltac:(lia) d [] c []) as (o & Ho & Hit);
    [unfold m; cbn [plug]; by rewrite app_nil_r|done|done|lia| |].
  - exists None. split; [intros [|] ?; cbn [up_to_next]; by rewrite Nat.eqb_refl|].
    exists None. split; [by intros []|constructor].
  - cbn [hole sizes] in Ho, Hit. rewrite Nat.add_0_r in Ho, Hit. rewrite app_nil_r in Hit.
    exists o. split; [|done]. cbn [first_index]. apply Ho.
    unfold m. rewrite length_encf, sizes_plug. cbn [sizes]. rewrite size_T. cbn [sizes]. lia.
Qed.

Definition typed_node (t : yang_type) (ts : list (tree ydata)) : tree ydata := T (with_type t zero_data) ts.

Theorem siblings_visited_witness :
  let ts := [typed_node YN_LEAF []; typed_node YN_CASE [typed_node YN_LEAF []; typed_node YN_CASE [typed_node YN_LIST []]];
             typed_node YN_CONTAINER [typed_node YN_LEAF []]] in
  let m := encf 0 None None [typed_node YN_LIST ts] in
  ∃ first, ay_yang_ident_iter m 0 None = Ok first ∧ iterates m 0 first [1; 3; 5; 6].
Proof. intros ts m. exact (siblings_visited [] (with_type YN_LIST zero_data) ts eq_refl). Defined.
