(* ===== verification/TransIdent.v ===== *)
(** The transformations of [src/augyang.c] that need the identifiers of nodes, and
    the order of all transformations: [ay_ynode_transformations] and
    [augyang_print_yang]. *)
From S2P Require Import Prelude CString Common ParseRegex Preorder Lnode Ynode Forest YnodeQuery YnodeRules YnodeMandatory Dnode TransBase TransChoice TransCase TransMerge TransForm TransGroup Pnode Ident Names Idents.

(** ** Reduction of groupings *)

(** [for (gr = tree->child; gr->type == YN_GROUPING; gr = gr->next)]; the body gives
    the tree. *)
Fixpoint each_grouping {A} (fuel : nat) (body : nat → ytree → A → res (ytree * A)) (gr : option nat)
    (s : ytree) (a : A) : res (ytree * A) :=
  match fuel with
  | 0 => Fault OutOfFuel
  | S fuel' =>
      g ← deref gr;
      d ← dget s g;
      if bool_decide (type d = YN_GROUPING) then
        '(s', a') ← body g s a;
        nx ← next_of s' g;
        each_grouping fuel' body nx s' a'
      else Ok (s, a)
  end.

Definition is_uses_of (d : ydata) (gid : Z) : bool := bool_decide (type d = YN_USES) && (ref d =? gid)%Z.

(** One YN_USES: the grouping counts it and looks for a collision of names. *)
Definition count_uses (gr : nat) (s : ytree) (i : nat) : res ytree :=
  d ← dget s i;
  g ← dget s gr;
  if negb (is_uses_of d (id g)) then Ok s
  else
    s1 ← on_node s gr (with_ref (u32 (ref g + 1)));
    if has_flag g AY_GROUPING_REDUCTION then Ok s1
    else
      c ← child_node s1 gr;
      cd ← dget s1 c;
      name ← deref (ident cd);
      '(_, dupl_count) ← ay_yang_ident_duplications (mem s1) i name;
      if (dupl_count =? 0)%Z then Ok s1 else on_node s1 gr (add_flag AY_GROUPING_REDUCTION).

Definition mark_grouping (gr : nat) (s : ytree) (_ : unit) : res (ytree * unit) :=
  c ← child_node s gr;
  more ← next_of s c;
  match more with
  | Some _ => Ok (s, tt)
  | None =>
      g ← dget s gr;
      _ ← c_assert (ref g =? 0)%Z;
      nx ← next_node s gr;
      s' ← foldl (λ r i, s ← r; count_uses gr s i) (Ok s) (seq (S nx) (count s - S nx));
      Ok (s', tt)
  end.

Definition sum_grouping (gr : nat) (s : ytree) (new_nodes : Z) : res (ytree * Z) :=
  g ← dget s gr;
  if has_flag g AY_GROUPING_REDUCTION then
    s' ← on_node s gr (with_ref 0); Ok (s', u64 (new_nodes + u32 (ref g - 1)))
  else Ok (s, new_nodes).

Definition ay_ynode_grouping_reduction_count (s : ytree) : res (ytree * Z) :=
  c ← child_of s 0;
  '(s1, _) ← each_grouping (length (mem s)) mark_grouping c s tt;
  c1 ← child_of s1 0;
  each_grouping (length (mem s1)) sum_grouping c1 s1 0%Z.

(** The node that was deleted in the grouping is inserted above a YN_USES; the
    result is the index where the search goes on. *)
Definition wrap_uses (d : ydata) (new_ref : Z) (empty_grouping : bool) (s : ytree) (i : nat)
  : res (ytree * nat) :=
  par ← parent_node s i;
  before ← ay_ynode_get_prev (mem s) i;
  '(s1, new) ← (match before with
                | Some p => s1 ← ay_ynode_insert_sibling s p; new ← next_node s1 p; Ok (s1, new)
                | None => s1 ← ay_ynode_insert_child s par; new ← child_node s1 par; Ok (s1, new)
                end);
  s2 ← on_node s1 new (λ e, ay_ynode_copy_data e d);
  nx ← next_node s2 new;
  s3 ← ay_ynode_move_subtree_as_child s2 new nx;
  uses ← child_node s3 new;
  ud ← dget s3 uses;
  s4 ← on_node s3 new (with_choice (choice ud));
  if (new_ref =? 0)%Z || empty_grouping then
    '(s5, _) ← ay_ynode_delete_node s4 uses; Ok (s5, new)
  else s5 ← on_node s4 uses (with_ref new_ref); Ok (s5, uses).

Definition reduce_grouping (gr : nat) (s : ytree) (_ : unit) : res (ytree * unit) :=
  g ← dget s gr;
  if negb (has_flag g AY_GROUPING_REDUCTION) then Ok (s, tt)
  else
    c ← child_node s gr;
    cd ← dget s c;
    '(s1, _) ← ay_ynode_delete_node s c;
    size ← size_of s1 gr;
    first ← child_of s1 gr;
    only ← (if (size =? 1)%nat then
              c1 ← deref first; d1 ← dget s1 c1;
              Ok (if bool_decide (type d1 = YN_USES) then Some (c1, ref d1) else None)
            else Ok None);
    '(s2, new_ref) ← (match only with
                      | Some (c1, r) => '(s2, _) ← ay_ynode_delete_node s1 c1; Ok (s2, r)
                      | None => Ok (s1, id g)
                      end);
    size2 ← size_of s2 gr;
    nx ← next_node s2 gr;
    s3 ← sweep (λ s, s) (2 * length (mem s2)) (λ s i,
           d ← dget s i;
           if negb (is_uses_of d (id g)) then Ok (s, i)
           else wrap_uses cd new_ref (size2 =? 0)%nat s i) (S nx) s2;
    Ok (s3, tt).

(** [for (i = i; tree[i].type == YN_GROUPING && i < count; i += tree[i].descendants + 1)];
    a deletion decrements [i]. *)
Fixpoint remove_empty (fuel : nat) (i : nat) (s : ytree) : res ytree :=
  d ← dget s i;
  if negb (bool_decide (type d = YN_GROUPING)) || (count s <=? i)%nat then Ok s
  else
    match fuel with
    | 0 => Fault OutOfFuel
    | S fuel' =>
        size ← size_of s i;
        '(s', i') ← (if (size =? 0)%nat then '(s', _) ← ay_ynode_delete_node s i; Ok (s', (i - 1)%nat)
                     else Ok (s, i));
        step ← size_of s' i';
        remove_empty fuel' (i' + step + 1) s'
    end.

Definition ay_ynode_grouping_reduction (s : ytree) : res ytree :=
  c ← child_of s 0;
  '(s1, _) ← each_grouping (length (mem s)) reduce_grouping c s tt;
  remove_empty (2 * length (mem s1)) 1 s1.

(** ** Containers in choices *)

(** Whether a node among the siblings has a name that occurs twice. *)
Fixpoint has_collision (fuel : nat) (m : list ynode) (iter : option nat) : res bool :=
  match iter with
  | None => Ok false
  | Some i =>
      match fuel with
      | 0 => Fault OutOfFuel
      | S fuel' =>
          n ← fetch m i;
          name ← deref (ident (data n));
          '(_, dupl_count) ← ay_yang_ident_duplications m i name;
          if (dupl_count =? 0)%Z then has_collision fuel' m (next n) else Ok true
      end
  end.

Definition put_in_container (s : ytree) (i : nat) : res ytree :=
  d ← dget s i;
  if bool_decide (type d = YN_CASE) then on_node s i (with_type YN_CONTAINER)
  else
    s1 ← ay_ynode_insert_wrapper s i;
    c ← child_node s1 i;
    cd ← dget s1 c;
    s2 ← on_node s1 i (λ e, with_when (when_ref cd) (when_val cd) (with_choice (choice cd) (with_type YN_CONTAINER e)));
    on_node s2 c (with_when 0 None).

Definition container_in_choice_node (s : ytree) (i : nat) : res ytree :=
  n ← fetch (mem s) i;
  if negb (bool_decide (type (data n) = YN_CASE)) then Ok s
  else
    insert_cont ← has_collision (length (mem s)) (mem s) (child n);
    if negb insert_cont then Ok s
    else
      let ch := choice (data n) in
      first ← ay_ynode_get_first_in_choice (mem s) (parent n) ch;
      walk_tree (λ s i, d ← dget s i;
        if bool_decide (choice d = ch) then s' ← put_in_container s i; Ok (s', Some i) else Ok (s, None)) first s.

Definition ay_ynode_insert_container_in_choice (s : ytree) : res ytree := sweep_nodes container_in_choice_node s.

(** ** Terms used by one node *)

Definition unique_pnode_step (lm : list lnode) (m : list ynode) (r : res (list pnode)) (i : nat)
  : res (list pnode) :=
  pm ← r;
  n ← fetch m i;
  p ← lnode_pnode lm (snode (data n));
  match p with
  | None => Ok pm
  | Some p =>
      pn ← fetch pm p;
      on_pnode pm p (set_pflag (if pflag (data pn) AY_PNODE_FOR_SNODE then AY_PNODE_FOR_SNODES
                                else AY_PNODE_FOR_SNODE))
  end.

Definition ay_ynode_snode_unique_pnode (lm : list lnode) (s : ytree) (pm : list pnode) : res (list pnode) :=
  foldl (unique_pnode_step lm (mem s)) (Ok pm) (seq 1 (count s - 1)).

(** ** The order of the transformations *)

(** What the transformations share: the tree, the lnodes and pnodes, the
    dictionaries in the root of the tree. *)
Record pipeline := State {
  st_tree : ytree;
  st_lnodes : list lnode;
  st_pnodes : list pnode;
  st_labels : dict nat;
  st_values : dict nat
}.

Definition put_tree (s : ytree) (st : pipeline) : pipeline :=
  State s (st_lnodes st) (st_pnodes st) (st_labels st) (st_values st).
Definition put_lnodes (l : list lnode) (st : pipeline) : pipeline :=
  State (st_tree st) l (st_pnodes st) (st_labels st) (st_values st).
Definition put_pnodes (l : list pnode) (st : pipeline) : pipeline :=
  State (st_tree st) (st_lnodes st) l (st_labels st) (st_values st).
Definition put_dicts (l v : dict nat) (st : pipeline) : pipeline :=
  State (st_tree st) (st_lnodes st) (st_pnodes st) l v.

Section transformations.
Context `{LensPointers} `{PointerBytes nat} (modules : list amodule) (md : amodule)
  (patt_table : list ay_transl) (buffer : buf).
(** What [realloc] gives: the memory behind the array, and what becomes of the
    pointers if it has moved. *)
Context (fresh : ytree → Z → list ynode) (moved : ytree → Z → option (nat → nat)).

Definition pass := pipeline → res pipeline.

Fixpoint run (l : list pass) (st : pipeline) : res pipeline :=
  match l with [] => Ok st | p :: l' => st' ← p st; run l' st' end.

(** A pass over the tree. *)
Definition on_tree (f : list lnode → ytree → res ytree) : pass := λ st,
  s ← f (st_lnodes st) (st_tree st); Ok (put_tree s st).

(** [ay_ynode_trans_insert]: the space that the rule asks for, then the insertion. *)
Definition TRANSF (insert : pass) (req_space : pipeline → res Z) : pass := λ st,
  k ← req_space st;
  let items := u32 k in
  if (items =? 0)%Z then Ok st
  else
    s ← reserve (st_tree st) items (fresh (st_tree st) items) (moved (st_tree st) items);
    insert (put_tree s st).

Definition summary (rule : list ynode → nat → res Z) (st : pipeline) : res Z :=
  ay_ynode_summary (count (st_tree st)) (rule (mem (st_tree st))).
Definition ay_ynode_summary2 (rule : list lnode → list ynode → nat → res Z) (st : pipeline) : res Z :=
  ay_ynode_summary (count (st_tree st)) (rule (st_lnodes st) (mem (st_tree st))).

Definition set_lv : pass := λ st,
  '(l, v) ← ay_ynode_set_lv (st_lnodes st) (st_tree st) (st_labels st) (st_values st);
  Ok (put_dicts l v st).
Definition merge_cases : pass := λ st,
  '(s, v) ← ay_ynode_merge_cases (st_lnodes st) (length (mem (st_tree st))) (st_tree st, st_values st);
  Ok (put_tree s (put_dicts (st_labels st) v st)).
Definition groupings_toplevel : pass := λ st,
  '(s, l) ← ay_ynode_create_groupings_toplevel (st_tree st, st_lnodes st);
  Ok (put_tree s (put_lnodes l st)).
Definition unique_pnode : pass := λ st,
  p ← ay_ynode_snode_unique_pnode (st_lnodes st) (st_tree st) (st_pnodes st); Ok (put_pnodes p st).

Definition idents_pass (solve_duplicates : bool) : pass := λ st,
  s ← ay_ynode_idents modules md (st_lnodes st) patt_table (st_pnodes st) (st_values st) buffer (st_tree st)
        solve_duplicates;
  Ok (put_tree s st).

(** The insertion and new identifiers, if there is something to insert. *)
Definition ay_ynode_trans_ident_insert (insert : pass) (items_count : Z) : pass := λ st,
  if (u32 items_count =? 0)%Z then Ok st
  else st1 ← TRANSF insert (λ _, Ok items_count) st; idents_pass true st1.

Definition ay_ynode_transformations_ident : pass := λ st,
  st1 ← idents_pass false st;
  k ← summary ay_ynode_rule_insert_container_in_choice st;
  st2 ← ay_ynode_trans_ident_insert (on_tree (λ _, ay_ynode_insert_container_in_choice)) k st1;
  '(s, k2) ← ay_ynode_grouping_reduction_count (st_tree st2);
  st3 ← ay_ynode_trans_ident_insert (on_tree (λ _, ay_ynode_grouping_reduction)) k2 (put_tree s st2);
  idents_pass true st3.

Definition ay_ynode_transformations : pass := λ st,
  r ← fetch (mem (st_tree st)) 0;
  _ ← c_assert (bool_decide (type (data r) = YN_ROOT));
  run
    [TRANSF (on_tree ay_ynode_insert_implicit_list)
       (λ st, ay_ynode_rule_insert_implicit_list (st_lnodes st));
     on_tree ay_ynode_set_type;
     on_tree (λ _, ay_delete_type_unknown);
     on_tree ay_ynode_delete_build_list;
     on_tree (λ lm, ay_ynode_unite_choice lm);
     set_lv;
     TRANSF (λ st, on_tree (λ lm, ay_ynode_more_keys_for_node lm (st_labels st)) st)
       (λ st, ay_ynode_rule_more_keys_for_node (st_labels st) (st_tree st));
     TRANSF (on_tree ay_ynode_insert_case) (summary ay_ynode_rule_insert_case);
     TRANSF (on_tree (λ _, ay_ynode_copy_case_nodes))
       (λ st, ay_ynode_rule_copy_case_nodes (mem (st_tree st)) (count (st_tree st)));
     on_tree ay_ynode_delete_equal_cases;
     TRANSF merge_cases
       (λ st, ay_ynode_rule_merge_cases (st_lnodes st) (mem (st_tree st)) (count (st_tree st)));
     (λ st, on_tree (λ lm, ay_ynode_delete_useless_choice lm (st_values st)) st);
     TRANSF (on_tree (λ _, ay_insert_list_files)) (λ _, Ok 1%Z);
     TRANSF (on_tree ay_ynode_ordered_entries) (λ st, Ok (ay_ynode_rule_ordered_entries (st_lnodes st)));
     TRANSF (on_tree ay_ynode_recursive_form) (summary ay_ynode_rule_recursive_form);
     TRANSF (λ st, on_tree (λ lm, ay_insert_node_key_and_value lm patt_table (st_values st)) st)
       (ay_ynode_summary2 ay_ynode_rule_node_key_and_value);
     (λ st, on_tree (λ lm, ay_ynode_dependence_on_value lm (st_values st)) st);
     on_tree ay_ynode_tree_set_mandatory;
     on_tree ay_ynode_when_ornot;
     TRANSF (on_tree ay_ynode_recursive_form_by_copy)
       (λ st, ay_ynode_rule_recursive_form_by_copy (st_lnodes st) (mem (st_tree st)) (count (st_tree st)));
     on_tree ay_ynode_set_ref_recursive_form;
     on_tree (ay_ynode_set_ref patt_table);
     TRANSF (on_tree ay_ynode_create_groupings_recursive_form)
       (λ st, ay_ynode_rule_create_groupings_recursive_form (mem (st_tree st)) (count (st_tree st)));
     TRANSF groupings_toplevel (summary ay_ynode_rule_create_groupings_toplevel);
     on_tree (λ _, ay_ynode_delete_ynrec);
     TRANSF (on_tree (ay_ynode_node_split patt_table))
       (λ st, ay_ynode_rule_node_split (st_lnodes st) (mem (st_tree st)) (length (mem (st_tree st))) patt_table 0);
     on_tree (λ _, ay_ynode_groupings_ahead);
     unique_pnode;
     ay_ynode_transformations_ident] st.
End transformations.
