(* ===== verification/Regex.v ===== *)
(** The functions of [src/print_yang.c] that clean up regular expressions and strings
    and print them.  The output is the printed text; the copy of the pattern that
    is edited in place only becomes shorter and is a string here. *)
From S2P Require Import Prelude CString Common.
#[local] Open Scope cstr_scope.

(** ** Substrings *)

Definition prefix_of (p s : cstr) : bool := bool_decide (take (length p) s = p).

Fixpoint strstr (s p : cstr) : option nat :=
  if prefix_of p s then Some 0
  else match s with [] => None | _ :: s' => S <$> strstr s' p end.

(** The loop: [hit] is the index at which the search goes on. *)
Fixpoint replace_loop (fuel : nat) (str : cstr) (hit : nat) (target replace : cstr) : res cstr :=
  match strstr (drop hit str) target with
  | None => Ok str
  | Some k =>
      match fuel with
      | 0 => Fault OutOfFuel
      | S fuel' =>
          let h := (hit + k)%nat in
          replace_loop fuel' (take h str ++ replace ++ drop (h + length target) str) h target replace
      end
  end.

Definition ay_replace_substr (str target replace : cstr) : res cstr :=
  _ ← c_assert (negb (length target =? 0)%nat);
  _ ← c_assert (length replace <? length target)%nat;
  replace_loop (length str) str 0 target replace.

(** ** Parentheses *)

(** The level at the end of the [n] characters from [i] on, or 0 as soon as it is
    reached. *)
Fixpoint paren_level (s : cstr) (level : Z) : Z :=
  match s with
  | [] => level
  | c :: s' =>
      let l := if c =c "(" then (level + 1)%Z else if c =c ")" then (level - 1)%Z else level in
      if (l =? 0)%Z then 0%Z else paren_level s' l
  end.

(** The last character is read, which an empty string does not have. *)
Definition ay_regex_remove_parentheses (str : cstr) : res cstr :=
  let len := length str in
  if (at_ str 0 <>c "(") && (len =? 0)%nat then Fault OutOfBounds
  else if (at_ str 0 <>c "(") && (at_ str (len - 1) <>c ")") then Ok str
  else if (paren_level (take (len - 2) (drop 1 str)) 1 =? 1)%Z then Ok (drop 1 (take (len - 1) str))
  else Ok str.

(** The [do ... while] loop: the number of characters that are skipped and the
    number of open parentheses, which is negative when the last one must be
    printed. *)
Fixpoint skip_loop (s : cstr) (k : nat) (parcnt : Z) : nat * Z :=
  match s with
  | [] => (k, parcnt)
  | c :: s' =>
      if c =c "(" then skip_loop s' (S k) (parcnt + 1)
      else if c =c ")" then if (parcnt =? 0)%Z then (S k, -1)%Z else skip_loop s' (S k) (parcnt - 1)
      else if c =c CR then skip_loop s' (S k) parcnt
      else (k, parcnt)
  end.

(** The number of characters that are skipped. *)
Definition ay_regex_try_skip (curr : cstr) : nat :=
  if prefix_of (lit "|()") curr || prefix_of (lit "()") curr then 0
  else
    let '(k, parcnt) := skip_loop curr 0 0 in
    if (parcnt <? 0)%Z then (k - 1)%nat
    else if negb (parcnt =? 0)%Z then 0
    else if (k =? 0)%nat then 0
    else if existsb (Ascii.eqb (at_ curr k)) (lit "?*+") then S k
    else if at_ curr (k - 1) =c "|" then (k - 1)%nat else k.

(** ** Printing *)

Fixpoint ay_print_string_standardized (str : cstr) : cstr :=
  match str with
  | [] => []
  | c :: str' =>
      if (c =c BSLASH) && (at_ str' 0 =c BSLASH) then [BSLASH; BSLASH] ++ ay_print_string_standardized str'
      else if c =c BSLASH then ay_print_string_standardized str'
      else c :: ay_print_string_standardized str'
  end.

Definition two : cstr := [BSLASH; BSLASH].

(** A backslash followed by [d]: what is printed and whether [d] is consumed, and
    whether [charClassEmpty] is kept. *)
Definition print_backslash (cls : bool) (d : ascii) : cstr * bool * bool :=
  if d =c "$" then (["$"%char], true, false)
  else if (d =c "[") || (d =c "]") then
    if cls then (two ++ two, false, false) else (two ++ [d], true, true)
  else if d =c BSLASH then (if cls then two ++ two ++ two ++ two else two ++ two, true, false)
  else if d =c "^" then (if cls then two ++ two else [], false, false)
  else (if cls then two ++ two else two, false, false).

(** The loop over the pattern: [cls] and [empty] are [charClassExpr] and
    [charClassEmpty]. *)
Fixpoint print_regex_loop (fuel : nat) (s : cstr) (cls empty : bool) : res cstr :=
  match s with
  | [] => Ok []
  | c :: s' =>
      match fuel with
      | 0 => Fault OutOfFuel
      | S fuel' =>
          let k := ay_regex_try_skip s in
          let print out s cls empty := r ← print_regex_loop fuel' s cls empty; Ok (out ++ r) in
          if negb (k =? 0)%nat then print [] (drop k s) cls empty
          else if c =c "[" then
            if cls then print (two ++ ["["%char]) s' cls empty else print ["["%char] s' true true
          else if c =c "]" then
            if cls && empty then print (two ++ ["]"%char]) s' cls empty
            else print ["]"%char] s' false empty
          else if c =c "^" then print ["^"%char] s' cls empty
          else if c =c LF then print [BSLASH; "n"%char] s' cls false
          else if c =c TAB then print [BSLASH; "t"%char] s' cls false
          else if c =c DQUOTE then print [BSLASH; DQUOTE] s' cls false
          else if c =c BSLASH then
            let '(out, consumed, keep) := print_backslash cls (at_ s' 0) in
            print out (if (consumed : bool) then drop 1 s' else s') cls (if (keep : bool) then empty else false)
          else print [c] s' cls false
      end
  end.

Definition hostname_spaces : cstr := LF :: lit "                  ".

(** [None] is a NULL pattern. *)
Definition ay_print_regex_standardized (patt : option cstr) : res cstr :=
  match patt with
  | None | Some [] => Ok []
  | Some p =>
      s1 ← ay_replace_substr p hostname_spaces [];
      s2 ← ay_replace_substr s1 (lit "    minclock") (lit "minclock");
      s3 ← ay_regex_remove_parentheses s2;
      print_regex_loop (length s3) s3 false false
  end.
