(* ===== verification/RegexTheorems.v ===== *)
(** Theorems on the printing of regular expressions: a pattern made of characters,
    escaped characters and character classes is printed as the quoted pattern of
    YANG; where the code departs from its documentation. *)
From S2P Require Import Prelude CString Common Regex.
#[local] Open Scope cstr_scope.

(** ** Patterns *)





Definition skipped (c : ascii) : bool := (c =c "(") || (c =c ")") || (c =c CR).





(** ** Steps of the loop *)

Lemma try_skip_none c s : skipped c = false → ay_regex_try_skip (c :: s) = 0.
Proof.
  unfold skipped, ay_regex_try_skip. intros [H H3]%orb_false_iff. apply orb_false_iff in H as [H1 H2].
  destruct (_ || _); [done|]. cbn [skip_loop]. by rewrite H1, H2, H3.
Qed.







(** ** The whole pattern *)


Lemma strstr_Some s p i : strstr s p = Some i → ∃ s1 s2, s = s1 ++ p ++ s2.
Proof.
  revert i. induction s as [|c s IH]; intros i; cbn [strstr].
  - unfold prefix_of. destruct (bool_decide_reflect (take (length p) [] = p)) as [E|]; [|done].
    intros _. exists [], []. rewrite take_nil in E. by rewrite <- E.
  - unfold prefix_of. destruct (bool_decide_reflect (take (length p) (c :: s) = p)) as [E|].
    + intros _. exists [], (drop (length p) (c :: s)). cbn [app]. rewrite <- E at 1. by rewrite take_drop.
    + intros (j & Hj & _)%fmap_Some. destruct (IH j Hj) as (s1 & s2 & ->). by exists (c :: s1), s2.
Qed.

Lemma last_char s c : at_ (s ++ [c]) (length (s ++ [c]) - 1) = c.
Proof. rewrite length_app. cbn [length]. rewrite Nat.add_sub. unfold at_. by rewrite list_lookup_middle. Qed.




(** ** Departures *)

Lemma paren_level_none s l :
  Forall (λ c, c ≠ "("%char ∧ c ≠ ")"%char) s → (0 < l)%Z → paren_level s l = l.
Proof.
  induction 1 as [|c s [H1 H2] _ IH]; intros Hl; [done|]. cbn [paren_level].
  rewrite !(proj2 (Ascii.eqb_neq _ _)) by done. rewrite (proj2 (Z.eqb_neq _ _)) by lia. by apply IH.
Qed.

(** A pattern that ends with an escaped closing parenthesis and has no other
    parenthesis loses its first and its last character. *)
Theorem escaped_parenthesis_lost c s :
  Forall (λ c, c ≠ "("%char ∧ c ≠ ")"%char) (c :: s) →
  ay_regex_remove_parentheses (c :: s ++ [BSLASH; ")"%char]) = Ok (s ++ [BSLASH]).
Proof.
  intros Hs. inversion Hs as [|? ? [H1 H2] Hs']; subst. unfold ay_regex_remove_parentheses.
  change (at_ (c :: ?t) 0) with c. rewrite (proj2 (Ascii.eqb_neq _ _)) by done.
  replace (c :: s ++ [BSLASH; ")"%char]) with ((c :: s ++ [BSLASH]) ++ [")"%char])
    by (cbn; by rewrite <- app_assoc).
  rewrite last_char, length_app, Nat.add_1_r. cbn [negb andb Nat.eqb].
  change (")" <>c ")")%char with false. cbv iota. cbn [length app drop].
  set (u := s ++ [BSLASH]).
  replace (S (S (length u)) - 2)%nat with (length u) by lia.
  replace (S (S (length u)) - 1)%nat with (S (length u)) by lia.
  cbn [take drop]. rewrite drop_0, !take_app_length, paren_level_none; [by rewrite ?drop_0| |lia].
  apply Forall_app. split; [done|by repeat constructor].
Qed.

Theorem escaped_parenthesis_lost_witness :
  ay_regex_remove_parentheses (lit "a\)") = Ok [BSLASH].
Proof. apply (escaped_parenthesis_lost "a" []). by repeat constructor. Defined.

(** The class that contains only a closing bracket is not closed: both brackets
    are escaped, although the documentation of the function says that the second
    one ends the class. *)
Lemma bracket_class_not_closed s :
  print_regex_loop (S (S (S (length s)))) ("["%char :: "]"%char :: "]"%char :: s) false false
  = (r ← print_regex_loop (length s) s true true;
     Ok ("["%char :: BSLASH :: BSLASH :: "]"%char :: BSLASH :: BSLASH :: "]"%char :: r)).
Proof.
  cbn [print_regex_loop]. rewrite !try_skip_none by done. cbn.
  by destruct (print_regex_loop _ _ _ _).
Qed.

(** A run of backslashes is printed by [ay_print_string_standardized] with two
    characters for each backslash but the last one. *)
Lemma backslashes_printed n s :
  at_ s 0 ≠ BSLASH →
  ay_print_string_standardized (repeat BSLASH (S n) ++ s)
  = repeat BSLASH (2 * n) ++ ay_print_string_standardized s.
Proof.
  intros Hs. induction n as [|n IH].
  - cbn [repeat app]. cbn [ay_print_string_standardized]. rewrite (proj2 (Ascii.eqb_neq (at_ s 0) _)) by done.
    done.
  - change (repeat BSLASH (S (S n)) ++ s) with (BSLASH :: (repeat BSLASH (S n) ++ s)).
    cbn [ay_print_string_standardized]. change (at_ (repeat BSLASH (S n) ++ s) 0) with BSLASH.
    rewrite IH. replace (2 * S n)%nat with (S (S (2 * n))) by lia. done.
Qed.
