(* ===== verification/PrintTypes.v ===== *)
(** The printing of types: the second part of [src/print_yang.c], from regular
    expressions of terms to type statements.  The state is the printed text, the
    indentation and the pnodes, whose flags are set on the way. *)
From S2P Require Import Prelude CString Common ParseRegex Preorder Lnode Ynode Forest YnodeQuery YnodeRules YnodeMandatory Dnode TransBase TransGroup Pnode Ident Regex Names.
#[local] Open Scope cstr_scope.

(** ** Output *)

Record printer := Printer { out : cstr; space : Z; pnodes : list pnode }.

Abbreviation print_m := (coded printer).

(** [SPACE_INDENT]. *)
Definition SPACE_INDENT : Z := 2.

Definition print (s : cstr) : print_m unit :=
  change (λ st, Ok (Printer (out st ++ s) (space st) (pnodes st))).
Definition nest (d : Z) : print_m unit :=
  change (λ st, Ok (Printer (out st) (space st + d) (pnodes st))).
Definition put_flag (i : nat) (mask : Z) : print_m unit :=
  change (λ st, pm ← on_pnode (pnodes st) i (set_pflag mask); Ok (Printer (out st) (space st) pm)).
Definition see {A} (f : list pnode → res A) : print_m A := look (λ st, f (pnodes st)).

(** ["%*s"] with an empty string. *)
Definition blanks_of (n : Z) : cstr := replicate (Z.abs_nat n) " "%char.
Definition indent : print_m unit := change (λ st, Ok (Printer (out st ++ blanks_of (space st)) (space st) (pnodes st))).

Definition emits (l : list cstr) : print_m unit := print (concat l).
(** With the indentation in front. *)
Definition iprint (l : list cstr) : print_m unit := _ ← indent; emits l.
(** A line. *)
Definition iline (s : string) : print_m unit := iprint [lit s; [LF]].
Definition quoted (s : cstr) : cstr := DQUOTE :: s ++ [DQUOTE].

Definition ay_print_yang_nesting_begin : print_m unit := _ ← emits [lit " {"; [LF]]; nest SPACE_INDENT.
Definition ay_print_yang_nesting_begin2 (ids : bool) (i : Z) (decimal : Z → cstr) : print_m unit :=
  _ ← (if ids then emits [lit " { // "; decimal i; [LF]] else emits [lit " {"; [LF]]);
  nest SPACE_INDENT.
Definition ay_print_yang_nesting_end : print_m unit := _ ← nest (- SPACE_INDENT); iprint [lit "}"; [LF]].

Definition isspace (c : ascii) : bool := (c =c " ") || (9 <=? code c)%Z && (code c <=? 13)%Z.

(** ** Regular expressions of terms *)

Section regex.
Context (regexp_literal : cstr → cstr) (m : list pnode).

Fixpoint regexp_has_nocase (fuel : nat) (nd : nat) : res bool :=
  match fuel with
  | 0 => Fault OutOfFuel
  | S fuel' =>
      r ← pref_of m nd;
      match r with
      | Some j => regexp_has_nocase fuel' j
      | None =>
          t ← term_of m nd;
          match ttag t, tvalue t with
          | A_VALUE, TRegexp re => Ok (re_nocase re)
          | A_UNION, _ =>
              c ← left_of m nd; a ← regexp_has_nocase fuel' c;
              c' ← right_of m nd; b ← regexp_has_nocase fuel' c';
              Ok (a && b)
          | _, _ => Ok false
          end
      end
  end.
Definition ay_pnode_regexp_has_nocase (nd : nat) : res bool := regexp_has_nocase (S (length m)) nd.

(** The loop looks at the root of the subtree in every step. *)
Fixpoint pnode_peek (fuel : nat) (nd : nat) (tg : term_tag) : res bool :=
  match fuel with
  | 0 => Fault OutOfFuel
  | S fuel' =>
      n ← fetch m nd;
      each_of_block (λ _ found,
        if (found : bool) then Ok true
        else
          t ← ptag m nd;
          if bool_decide (t = tg) then Ok true
          else
            r ← pref_of m nd;
            match r with Some j => pnode_peek fuel' j tg | None => Ok false end)
        (S (below n)) nd false
  end.
Definition ay_pnode_peek (nd : nat) (tg : term_tag) : res bool := pnode_peek (S (length m)) nd tg.

(** [for (i = i; i <= regex->descendants; i++)], where the body may skip
    descendants: it gives the text and the number of elements to skip. *)
Section skip.
Context (body : nat → cstr → res (cstr * nat)).

Fixpoint skip_in_block (fuel : nat) (last i : nat) (acc : cstr) : res cstr :=
  if (last <? i)%nat then Ok acc
  else
    match fuel with
    | 0 => Fault OutOfFuel
    | S fuel' => '(acc', k) ← body i acc; skip_in_block fuel' last (S (i + k)) acc'
    end.
End skip.

Context (cap : nat).

(** A character at the index, which is incremented, and [strcpy] to the index, for a
    buffer of [cap] characters; the text is what is before the index. *)
Definition put_char (acc : cstr) (c : ascii) : res cstr :=
  if (length acc <? cap)%nat then Ok (acc ++ [c]) else Fault OutOfBounds.
Definition put_text (acc s : cstr) : res cstr :=
  if (length acc + length s <? cap)%nat then Ok (acc ++ s) else Fault OutOfBounds.

Definition quant_char (q : quant_tag) : ascii :=
  match q with Q_STAR => "*" | Q_PLUS => "+" | Q_MAYBE => "?" end.

(** An operand of a concatenation, in parentheses when it is a union. *)
Definition operand (print : nat → cstr → res cstr) (i : nat) (acc : cstr) : res cstr :=
  b ← ay_pnode_peek i A_UNION;
  if (b : bool) then a1 ← put_char acc "("; a2 ← print i a1; put_char a2 ")" else print i acc.

(** One term of the loop. *)
Definition term_to_buffer (print : nat → cstr → res cstr) (i : nat) (acc : cstr) : res (cstr * nat) :=
  n ← fetch m i;
  t ← term_of m i;
  match ttag t with
  | A_UNION =>
      c ← left_of m i; a1 ← print c acc;
      a2 ← put_char a1 "|";
      c' ← right_of m i; a3 ← print c' a2;
      Ok (a3, below n)
  | A_CONCAT =>
      c ← left_of m i; a1 ← operand print c acc;
      c' ← right_of m i; a2 ← operand print c' a1;
      Ok (a2, below n)
  | A_VALUE =>
      match tvalue t with
      | TString s => a ← put_text acc (regexp_literal s); Ok (a, 0)
      | TRegexp re => a ← put_text acc (re_pattern re); Ok (a, 0)
      | TOther => Fault AssertFailed
      end
  | A_IDENT =>
      r ← pref_of m i;
      match r, pref (data n) with
      | Some j, _ => a ← print j acc; Ok (a, 0)
      | None, PRegexp re => a ← put_text acc (re_pattern re); Ok (a, 0)
      | None, _ => Fault AssertFailed
      end
  | A_REP =>
      a1 ← put_char acc "(";
      c ← left_of m i; a2 ← print c a1;
      a3 ← put_char a2 ")"; a4 ← put_char a3 (quant_char (quant t));
      Ok (a4, below n)
  | _ => Ok (acc, 0)
  end.

Fixpoint regex_to_buffer (fuel : nat) (regex : nat) (acc : cstr) : res cstr :=
  match fuel with
  | 0 => Fault OutOfFuel
  | S fuel' =>
      n ← fetch m regex;
      skip_in_block (term_to_buffer (regex_to_buffer fuel')) (length m) (regex + below n) regex acc
  end.
Definition ay_pnode_print_regex_to_buffer (regex : nat) : res cstr := regex_to_buffer (S (length m)) regex [].

Fixpoint regex_buffer_size (fuel : nat) (regex : nat) : res Z :=
  match fuel with
  | 0 => Fault OutOfFuel
  | S fuel' =>
      each_in_subtree m regex (λ i ret,
        n ← fetch m i;
        t ← term_of m i;
        k ← (match ttag t with
             | A_UNION => Ok 1%Z
             | A_CONCAT => Ok 4%Z
             | A_VALUE =>
                 match tvalue t with
                 | TString s => Ok (2 * Z.of_nat (length s))%Z
                 | TRegexp re => Ok (Z.of_nat (length (re_pattern re)))
                 | TOther => Fault AssertFailed
                 end
             | A_IDENT =>
                 r ← pref_of m i;
                 match r, pref (data n) with
                 | Some j, _ => regex_buffer_size fuel' j
                 | None, PRegexp re => Ok (Z.of_nat (length (re_pattern re)))
                 | None, _ => Fault AssertFailed
                 end
             | A_REP => Ok 3%Z
             | _ => Ok 0%Z
             end);
        Ok (u64 (ret + k))) 0%Z
  end.
Definition ay_pnode_regex_buffer_size (regex : nat) : res Z := regex_buffer_size (S (length m)) regex.
End regex.

(** The buffer has one character more for the terminator. *)
Definition ay_pnode_print_regex (regexp_literal : cstr → cstr) (m : list pnode) (regex : nat) : res cstr :=
  size ← ay_pnode_regex_buffer_size m regex;
  text ← ay_pnode_print_regex_to_buffer regexp_literal m (S (Z.to_nat size)) regex;
  _ ← c_assert (length text <? S (Z.to_nat size))%nat;
  ay_print_regex_standardized (Some text).

(** ** Patterns *)

(** The lnode argument of the functions below; its lens can be missing. *)
Record larg := LArg { la_lens : option lens; la_pnode : option nat; la_flags : Z }.
Definition of_lnode (d : ldata) : larg := LArg (Some (lens_of d)) (lpnode d) (lflags d).

Section types.
Context `{LensPointers} (modules : list amodule) (regexp_literal : cstr → cstr) (regexp_filename : lens → cstr).
Context (lm : list lnode) (m : list ynode) (patt_table : list ay_transl) (labels values : dict nat).

Definition ay_print_yang_pattern_nocase (nocase : bool) : print_m unit :=
  if nocase then print (lit "(?i)") else mret tt.

Definition ay_pnode_print_yang_pattern_nocase (nd : nat) : print_m unit :=
  b ← see (λ pm, ay_pnode_regexp_has_nocase pm nd); ay_print_yang_pattern_nocase b.

Definition ay_print_yang_pattern_by_pnode_regex (regex : nat) : print_m unit :=
  _ ← iprint [lit "pattern "; [DQUOTE]];
  _ ← ay_pnode_print_yang_pattern_nocase regex;
  s ← see (λ pm, ay_pnode_print_regex regexp_literal pm regex);
  _ ← print s;
  print [DQUOTE].

(** The flag can be set. *)
Definition ay_yang_type_is_regex_unmin (flags_of_node : ydata) (pnode : option nat) : print_m bool :=
  match pnode with
  | None => mret false
  | Some i =>
      n ← see (λ pm, fetch pm i);
      if pflag (data n) AY_PNODE_REG_UNMIN then mret true
      else
        t ← see (λ pm, ptag pm i);
        if pflag (data n) AY_PNODE_REG_MINUS && bool_decide (t = A_UNION)
           && negb (has_flag flags_of_node AY_WHEN_TARGET)
        then _ ← put_flag i AY_PNODE_REG_UNMIN; mret true
        else mret false
  end.

Definition ay_print_yang_pattern_minus (regex : nat) : print_m unit :=
  c ← see (λ pm, left_of pm regex);
  _ ← ay_print_yang_pattern_by_pnode_regex c;
  _ ← emits [lit ";"; [LF]];
  c' ← see (λ pm, right_of pm regex);
  _ ← ay_print_yang_pattern_by_pnode_regex c';
  _ ← ay_print_yang_nesting_begin;
  _ ← iline "modifier invert-match;";
  ay_print_yang_nesting_end.

Definition is_minus (d : ydata) (p : option nat) : print_m bool :=
  if has_flag d AY_WHEN_TARGET then mret false
  else match p with
       | None => mret false
       | Some i => t ← see (λ pm, ptag pm i); mret (bool_decide (t = A_MINUS))
       end.

Definition ay_print_yang_pattern (nd : nat) (l : larg) : print_m unit :=
  n ← lift (fetch m nd);
  minus ← is_minus (data n) (la_pnode l);
  match minus, la_pnode l with
  | true, Some p => _ ← status (ay_print_yang_pattern_minus p); mret tt
  | _, _ =>
      le ← lift (match la_lens l with Some le => Ok le | None => Fault AssertFailed end);
      if bool_decide (tag le = L_VALUE) then
        iprint [lit "pattern "; quoted (lens_string le); lit ";"; [LF]]
      else
        _ ← lift (c_assert (bool_decide (tag le = L_KEY) || bool_decide (tag le = L_STORE)));
        _ ← iprint [lit "pattern "; [DQUOTE]];
        _ ← ay_print_yang_pattern_nocase (nocase le);
        s ← lift (if negb (Z.land (la_flags l) AY_LNODE_KEY_HAS_IDENTS =? 0)%Z then
                    at_node ← (if bool_decide (type (data n) = YN_KEY) then deref (parent n) else Ok nd);
                    ay_ynode_get_substr_from_transl_table lm m patt_table at_node
                  else ay_print_regex_standardized (Some (text (pattern le))));
        emits [s; [DQUOTE]; lit ";"; [LF]]
  end.

Definition ay_print_yang_type_string (nd : nat) (l : option larg) : print_m unit :=
  match l with
  | None => iline "type string;"
  | Some l =>
      _ ← iprint [lit "type string"];
      _ ← ay_print_yang_nesting_begin;
      _ ← status (ay_print_yang_pattern nd l);
      ay_print_yang_nesting_end
  end.

Definition ay_print_yang_type_union_item_from_regex (nd : nat) (regex : nat) : print_m unit :=
  b ← see (λ pm, ay_pnode_peek pm regex A_MINUS);
  minus ← (if (b : bool) then
             p ← see (λ pm, ay_pnode_ref_apply pm regex);
             t ← see (λ pm, ptag pm p);
             mret (if bool_decide (t = A_MINUS) then Some p else None)
           else mret None);
  match minus with
  | Some p => ay_print_yang_type_string nd (Some (LArg None (Some p) 0))
  | None =>
      _ ← iprint [lit "type string"];
      _ ← ay_print_yang_nesting_begin;
      _ ← ay_print_yang_pattern_by_pnode_regex regex;
      _ ← emits [lit ";"; [LF]];
      ay_print_yang_nesting_end
  end.

(** The search for the first A_UNION stops at once; the loop towards the parent has
    one step. *)
Definition ay_print_yang_type_union_items_from_regex (nd : nat) (l : larg) : print_m unit :=
  uni ← lift (deref (la_pnode l));
  t ← see (λ pm, ptag pm uni);
  _ ← lift (c_assert (bool_decide (t = A_UNION)));
  c ← see (λ pm, left_of pm uni);
  _ ← ay_print_yang_type_union_item_from_regex nd c;
  c' ← see (λ pm, right_of pm uni);
  ay_print_yang_type_union_item_from_regex nd c'.

(** ** Built-in types *)

Definition maybe_suffix : cstr := lit "{0,1}".

(** The pattern without the suffix and its parentheses; the length of a pattern of one
    character and the suffix wraps, so that it is equal to no other one. *)
Definition without_maybe (pattern : cstr) : option cstr :=
  let len := length pattern in
  if (length maybe_suffix <? len)%nat && streq (drop (len - length maybe_suffix) pattern) maybe_suffix
  then if (len <? length maybe_suffix + 2)%nat then None
       else Some (take (len - length maybe_suffix - 2) (drop 1 pattern))
  else Some pattern.

(** The name of the only binding with the pattern. *)
Definition ay_get_lense_name_by_regex (modname : cstr) (pattern : cstr) : option cstr :=
  md ← ay_get_module modules modname 0;
  p ← without_maybe pattern;
  match filter (λ b, btag b = V_REGEXP ∧ re_pattern (bregexp b) = p) (bindings md) with
  | [b] => Some (bident b)
  | _ => None
  end.

Definition ay_get_yang_type_by_lense_name (modname : cstr) (ident : option cstr) : option cstr :=
  match ident with
  | None => None
  | Some s =>
      if streq modname (lit "Rx") then
        if streq (lit "integer") s then Some (lit "uint64")
        else if streq (lit "relinteger") s || streq (lit "relinteger_noplus") s then Some (lit "int64")
        else if streq (lit "ip") s then Some (lit "inet:ip-address-no-zone")
        else if streq (lit "ipv4") s then Some (lit "inet:ipv4-address-no-zone")
        else if streq (lit "ipv6") s then Some (lit "inet:ipv6-address-no-zone")
        else None
      else None
  end.

Definition type_of_pattern (p : cstr) : option cstr :=
  if streq (lit "[0-9]+") p then Some (lit "uint64")
  else if streq (lit "[-+]?[0-9]+") p || streq (lit "[-]?[0-9]+") p then Some (lit "int64")
  else if streq (lit "true|false") p || streq (lit "(true|false)") p
          || streq (lit "false|true") p || streq (lit "(false|true)") p then Some (lit "boolean")
  else None.

(** Whether the regular expression is from a file of that name. *)
Definition from_rx (reg : lens) : res bool :=
  '(name, len) ← ay_get_filename (regexp_filename reg);
  Ok (strneq (drop name (regexp_filename reg)) (lit "rx") len).

Definition builtin_type (reg : lens) : res (option cstr) :=
  if bool_decide (tag reg ≠ L_STORE) && bool_decide (tag reg ≠ L_KEY) then Ok None
  else
    rx ← from_rx reg;
    let ident := if (rx : bool) then ay_get_lense_name_by_modname modules (lit "Rx") reg
                 else ay_get_lense_name_by_regex (lit "Rx") (text (pattern reg)) in
    match ay_get_yang_type_by_lense_name (lit "Rx") ident with
    | Some t => Ok (Some t)
    | None => Ok (type_of_pattern (text (pattern reg)))
    end.

(** 0 if the type was printed. *)
Definition ay_print_yang_type_builtin (reg : lens) : print_m Z :=
  t ← lift (builtin_type reg);
  match t with
  | Some t => _ ← iprint [lit "type "; t; lit ";"; [LF]]; mret 0%Z
  | None => mret 1%Z
  end.

(** ** Types *)

Definition ay_print_yang_enumeration (l : lens) : print_m unit :=
  _ ← lift (c_assert (bool_decide (tag l = L_VALUE)));
  _ ← iprint [lit "type enumeration"];
  _ ← ay_print_yang_nesting_begin;
  _ ← iprint [lit "enum "; quoted (lens_string l); lit ";"; [LF]];
  ay_print_yang_nesting_end.

Definition ay_print_yang_type_item (nd : nat) (l : larg) : print_m unit :=
  le ← lift (deref (la_lens l));
  let is_value := bool_decide (tag le = L_VALUE) in
  let s := lens_string le in
  ret ← ay_print_yang_type_builtin le;
  if (ret =? 0)%Z || is_value && (length s =? 0)%nat then mret tt
  else if is_value && negb (isspace (at_ s 0)) && negb (isspace (at_ s (length s - 1)))
  then ay_print_yang_enumeration le
  else ay_print_yang_type_string nd (Some l).

Definition lnode_arg (i : option nat) : res larg :=
  i ← deref i; n ← fetch lm i; Ok (of_lnode (data n)).

Fixpoint print_items (nd : nat) (l : list (dnode nat)) : print_m unit :=
  match l with
  | [] => mret tt
  | x :: l' =>
      n ← lift (fetch m nd);
      item ← lift (lnode_arg (kvd x));
      un ← ay_yang_type_is_regex_unmin (data n) (la_pnode item);
      _ ← (if (un : bool) then ay_print_yang_type_union_items_from_regex nd item
           else
             le ← lift (deref (la_lens item));
             _ ← lift (c_assert (bool_decide (tag le = L_STORE) || bool_decide (tag le = L_KEY)
                                 || bool_decide (tag le = L_VALUE)));
             ay_print_yang_type_item nd item);
      print_items nd l'
  end.

Definition ay_print_yang_type_union_items (d : dict nat) (nd key : nat) : print_m unit :=
  x ← lift (fetch (items d) key);
  _ ← lift (c_assert (AY_DNODE_IS_KEY x));
  l ← lift (keyval d key);
  print_items nd l.

Definition ay_yang_type_is_empty_string (l : lens) : res bool :=
  if bool_decide (tag l = L_LABEL) || bool_decide (tag l = L_VALUE) then Ok (length (lens_string l) =? 0)%nat
  else
    _ ← c_assert (bool_decide (tag l = L_KEY) || bool_decide (tag l = L_STORE));
    let p := text (pattern l) in
    let len := length p in
    if (len <? length maybe_suffix)%nat then Ok false
    else Ok (streq (drop (len - length maybe_suffix) p) maybe_suffix).

(** [empty_string] and [empty_type] over the items of a key. *)
Fixpoint empty_of_items (l : list (dnode nat)) (empty_string empty_type : bool) : res (bool * bool) :=
  match l with
  | [] => Ok (empty_string, empty_type)
  | x :: l' =>
      i ← deref (kvd x);
      n ← fetch lm i;
      es ← (if empty_string then Ok true else ay_yang_type_is_empty_string (lens_of (data n)));
      et ← (if empty_type then Ok true else ay_yang_type_is_empty lm i);
      empty_of_items l' es et
  end.

(** What a type is printed from: nothing, the type empty, a string or an lnode with
    its dictionary. *)
Inductive type_source := TEmpty | TPlain | TLnode (i : nat) (d : dict nat).

Definition find_type_source (n : ynode) : res type_source :=
  lab ← label_lens lm n;
  val ← value_lens lm n;
  in_dp ← label_flag lm n AY_LNODE_KEY_IN_DP;
  idents ← label_flag lm n AY_LNODE_KEY_HAS_IDENTS;
  is_ident ← AY_LABEL_LENS_IS_IDENT lm n;
  let source i d := match i with Some i => Ok (TLnode i d) | None => Fault AssertFailed end in
  if bool_decide (val = None) &&
     match lab with
     | Some l => bool_decide (tag l = L_LABEL) || (in_dp || idents) && negb (nocase l)
     | None => false
     end
  then Ok TEmpty
  else if bool_decide (type (data n) = YN_VALUE) ||
          match val with
          | Some v => is_ident || bool_decide (tag v = L_STORE) && negb (tag_is lab L_KEY)
          | None => false
          end
  then source (value (data n)) values
  else if tag_is lab L_KEY then source (label (data n)) labels
  else Ok TPlain.

Definition print_type_of_lnode (nd : nat) (n : ynode) (i : nat) (d : dict nat) : print_m unit :=
  ln ← lift (fetch lm i);
  let arg := of_lnode (data ln) in
  let key := ay_dnode_find d (Some i) in
  '(empty_string, empty_type0, reg_unmin) ←
    (match key with
     | Some k =>
         l ← lift (keyval d k);
         '(es, et) ← lift (empty_of_items l false false);
         mret (es, et, false)
     | None =>
         es ← lift (ay_yang_type_is_empty_string (lens_of (data ln)));
         et ← lift (ay_yang_type_is_empty lm i);
         un ← ay_yang_type_is_regex_unmin (data n) (lpnode (data ln));
         mret (es, et, un)
     end);
  let empty_type := empty_type0 && negb (bool_decide (type (data n) = YN_VALUE)
                                         && has_flag (data n) AY_YNODE_MAND_FALSE) in
  let union := empty_string || empty_type || reg_unmin || bool_decide (is_Some key) in
  _ ← (if union then _ ← iprint [lit "type union"]; ay_print_yang_nesting_begin else mret tt);
  _ ← (if empty_string then
         _ ← iprint [lit "type string"];
         _ ← ay_print_yang_nesting_begin;
         _ ← iline "length 0;";
         ay_print_yang_nesting_end
       else mret tt);
  _ ← (if empty_type then iline "type empty;" else mret tt);
  ret ← (match key with
         | Some k => _ ← status (ay_print_yang_type_union_items d nd k); mret 0%Z
         | None =>
             if reg_unmin then _ ← status (ay_print_yang_type_union_items_from_regex nd arg); mret 0%Z
             else status (ay_print_yang_type_item nd arg)
         end);
  _ ← (if union then ay_print_yang_nesting_end else mret tt);
  if (ret =? 0)%Z then mret tt else lift (Err ret).

Definition ay_print_yang_type (nd : nat) : print_m unit :=
  n ← lift (fetch m nd);
  if bool_decide (label (data n) = None) && bool_decide (value (data n) = None) then mret tt
  else
    src ← lift (find_type_source n);
    match src with
    | TEmpty => iline "type empty;"
    | TPlain => ay_print_yang_type_string nd None
    | TLnode i d => print_type_of_lnode nd n i d
    end.
End types.
