(* ===== verification/Printer.v ===== *)
(** The printing of statements: the last part of [src/print_yang.c], from the
    children of a node to the whole module. *)
From S2P Require Import Prelude CString Common ParseRegex Preorder Lnode Ynode Forest YnodeQuery YnodeRules YnodeMandatory Dnode TransBase TransGroup Pnode Ident Regex Names Idents PrintTypes.
#[local] Open Scope cstr_scope.

(** [AY_EXT_PREFIX], [AY_EXT_PATH], [AY_EXT_VALPATH]. *)
Definition AY_EXT_PREFIX : cstr := lit "augex".
Definition AY_EXT_PATH : cstr := lit "data-path".
Definition AY_EXT_VALPATH : cstr := lit "value-yang-path".

Section printer.
Context `{LensPointers} (modules : list amodule) (md : amodule)
  (regexp_literal : cstr → cstr) (regexp_filename : lens → cstr).
Context (lm : list lnode) (m : list ynode) (patt_table : list ay_transl) (labels values : dict nat).
(** Whether identifiers of nodes are printed, and the local arrays for names. *)
Context (ids : bool) (buffer : buf).

Definition begin2 (i : Z) : print_m unit := ay_print_yang_nesting_begin2 ids i decimal.
Definition node_at (i : nat) : print_m ynode := lift (fetch m i).

(** ["%s"] with an identifier. *)
Definition ident_text (d : ydata) : res cstr := deref (ident d).

Definition yang_ident_text (nd : nat) (opt : ay_ident_dst) : print_m cstr := λ st,
  '(b, r) ← ay_get_yang_ident modules md lm m patt_table (pnodes st) values nd opt buffer;
  match r with
  | inr _ => t ← cstr_of b; Ok (st, inr t)
  | inl e => Ok (st, inl e)
  end.

Definition ay_print_yang_ident (nd : nat) (opt : ay_ident_dst) : print_m unit :=
  n ← node_at nd;
  s ← (if bool_decide (opt = AY_IDENT_NODE_NAME) then
         lift (if bool_decide (type (data n) = YN_USES) then
                 gr ← ay_ynode_get_grouping m (ref (data n));
                 g ← deref gr; gn ← fetch m g; ident_text (data gn)
               else ident_text (data n))
       else yang_ident_text nd opt);
  print s.

Definition print_name (nd : nat) : print_m unit := ay_print_yang_ident nd AY_IDENT_NODE_NAME.

(** ** When *)

Fixpoint dots (n : nat) : cstr := match n with 0 => [] | S n' => lit "../" ++ dots n' end.

Definition ay_print_yang_when_print_target (path_cnt : Z) (parent_name : option cstr) (target : nat) : print_m unit :=
  t ← node_at target;
  _ ← print (dots (Z.to_nat path_cnt));
  _ ← (match parent_name with Some s => emits [s; lit "/"] | None => mret tt end);
  s ← lift (ident_text (data t));
  print s.

(** The comparison with the value of the target. *)
Definition print_when_value (path_cnt : Z) (parent_name : option cstr) (target : nat) (value : lens) : print_m unit :=
  let is_simple := ay_lense_pattern_is_label (Some value) in
  let str := if bool_decide (tag value = L_VALUE) then lens_string value else text (pattern value) in
  _ ← (if is_simple then mret tt else print (lit "re-match("));
  _ ← ay_print_yang_when_print_target path_cnt parent_name target;
  if is_simple && negb (nocase value) then
    emits [lit "='"; ay_print_string_standardized str; lit "'"]
  else
    s ← lift (ay_print_regex_standardized (Some str));
    emits [lit ", '"; s; lit "')"].

Definition ay_print_yang_when (nd : nat) : print_m unit :=
  n ← node_at nd;
  match when_val (data n) with
  | None => mret tt
  | Some wv =>
      '(target, path_cnt, parent_name) ← lift (ay_ynode_when_target lm m nd);
      match target with
      | None => mret tt
      | Some target =>
          valid ← lift (ay_ynode_when_value_is_valid lm (data n));
          _ ← iprint [lit (if (valid : bool) then "when " else "//when "); [DQUOTE]];
          _ ← (if has_flag (data n) AY_WHEN_ORNOT then
                 _ ← print (lit "not(");
                 _ ← ay_print_yang_when_print_target path_cnt parent_name target;
                 print (lit ") or ")
               else mret tt);
          ln ← lift (fetch lm wv);
          let value := lens_of (data ln) in
          _ ← lift (c_assert (bool_decide (tag value = L_VALUE) || bool_decide (tag value = L_STORE)));
          _ ← print_when_value path_cnt parent_name target value;
          emits [[DQUOTE]; lit ";"; [LF]]
      end
  end.

(** ** Substatements *)

Definition ay_print_yang_description (msg : string) : print_m unit :=
  _ ← iline "description";
  _ ← nest SPACE_INDENT; _ ← iprint [quoted (lit msg); lit ";"; [LF]]; nest (- SPACE_INDENT).

(** The prefix of an extension. *)
Definition extension (name : cstr) : list cstr := [AY_EXT_PREFIX; lit ":"; name; lit " "; [DQUOTE]].
Definition end_extension : print_m unit := emits [[DQUOTE]; lit ";"; [LF]].

Definition ay_print_yang_data_path (nd : nat) : print_m unit :=
  n ← node_at nd;
  lab ← lift (label_lens lm n);
  if bool_decide (lab = None) || bool_decide (type (data n) = YN_VALUE) || bool_decide (type (data n) = YN_KEY)
  then mret tt
  else
    _ ← iprint (extension AY_EXT_PATH);
    is_ident ← lift (AY_LABEL_LENS_IS_IDENT lm n);
    ret ← (if (is_ident : bool) then attempt (ay_print_yang_ident nd AY_IDENT_DATA_PATH)
           else _ ← print (lit "$$"); mret (inr tt));
    _ ← end_extension;
    return_code ret.

Definition ay_print_yang_value_path (nd : nat) : print_m unit :=
  n ← node_at nd;
  val ← lift (value_lens lm n);
  is_ident ← lift (AY_LABEL_LENS_IS_IDENT lm n);
  let ty := type (data n) in
  if bool_decide (val = None) || bool_decide (ty = YN_CASE) || bool_decide (ty = YN_KEY)
     || bool_decide (ty = YN_VALUE) || bool_decide (ty = YN_LEAF) && is_ident
  then mret tt
  else
    _ ← iprint (extension AY_EXT_VALPATH);
    v ← lift (ay_ynode_get_value_node lm (length m) m nd (label (data n)) (value (data n)));
    valnode ← lift (match v with Some v => Ok v | None => Fault AssertFailed end);
    ret ← attempt (ay_print_yang_ident valnode AY_IDENT_VALUE_YPATH);
    _ ← end_extension;
    return_code ret.

Definition ay_print_yang_minelements (nd : nat) : print_m unit :=
  n ← node_at nd;
  alone ← lift (ay_ynode_alone_in_choice m nd);
  let d := data n in
  if bool_decide (type d = YN_LIST) && bool_decide (is_Some (choice d)) && negb alone && (min_elems d <? 2)%Z
     || alone && has_flag d AY_CHOICE_MAND_FALSE
  then mret tt
  else if negb (min_elems d =? 0)%Z then iprint [lit "min-elements "; decimal (min_elems d); lit ";"; [LF]]
  else if has_flag d AY_YNODE_MAND_TRUE then iline "min-elements 1;"
  else mret tt.

(** The only child of a list that is a branch of the same choice. *)
Definition only_child_in_choice (n : ynode) : res bool :=
  if bool_decide (is_Some (choice (data n))) && bool_decide (type (data n) = YN_LEAF) then
    p ← deref (parent n);
    pn ← fetch m p;
    if bool_decide (type (data pn) = YN_LIST) && (descendants pn =? 1)%Z then
      alone ← ay_ynode_alone_in_choice m p;
      Ok (negb alone && bool_decide (choice (data n) = choice (data pn)))
    else Ok false
  else Ok false.

Definition ay_print_yang_mandatory (nd : nat) : print_m unit :=
  n ← node_at nd;
  alone ← lift (ay_ynode_alone_in_choice m nd);
  let d := data n in
  if alone && has_flag d AY_CHOICE_MAND_FALSE || negb (has_flag d AY_YNODE_MAND_TRUE)
     || bool_decide (is_Some (when_val d))
  then mret tt
  else
    only ← lift (only_child_in_choice n);
    if only || bool_decide (choice d = None) then iline "mandatory true;" else mret tt.

(** ** Leafs *)

Definition print_type (nd : nat) : print_m unit :=
  ay_print_yang_type modules regexp_literal regexp_filename lm m patt_table labels values nd.

Definition ay_print_yang_leaf (nd : nat) : print_m unit :=
  n ← node_at nd;
  _ ← iprint [lit "leaf "];
  _ ← print_name nd;
  _ ← begin2 (id (data n));
  _ ← ay_print_yang_mandatory nd;
  _ ← print_type nd;
  _ ← ay_print_yang_data_path nd;
  ret ← attempt (ay_print_yang_value_path nd);
  _ ← ay_print_yang_when nd;
  _ ← ay_print_yang_nesting_end;
  return_code ret.

(** The way up to the node of the recursive lens. *)
Fixpoint path_to_rec (fuel : nat) (iter : option nat) (sl : lens) (path : cstr) : res (cstr * nat) :=
  match iter with
  | None => Fault AssertFailed
  | Some i =>
      match fuel with
      | 0 => Fault OutOfFuel
      | S fuel' =>
          n ← fetch m i;
          l ← snode_lens lm n;
          if match l with Some l => bool_decide (tag l = L_REC) && same_body l sl | None => false end
          then Ok (path, i)
          else path_to_rec fuel' (parent n) sl (path ++ lit "../")
      end
  end.

Definition ay_print_yang_leafref (nd : nat) : print_m unit :=
  n ← node_at nd;
  _ ← iprint [lit "leaf "];
  _ ← print_name nd;
  _ ← begin2 (id (data n));
  _ ← iprint [lit "type leafref"];
  _ ← ay_print_yang_nesting_begin;
  sl ← lift (snode_lens lm n);
  sl ← lift (deref sl);
  '(path, target) ← lift (path_to_rec (length m) (parent n) sl (lit "../../"));
  _ ← iprint [lit "path "; [DQUOTE]; path];
  _ ← status (print_name target);
  _ ← emits [lit "/_r-id"; [DQUOTE]; lit ";"; [LF]];
  _ ← ay_print_yang_nesting_end;
  _ ← ay_print_yang_description "Implicitly generated leaf to maintain recursive augeas data.";
  _ ← ay_print_yang_when nd;
  ay_print_yang_nesting_end.

Definition ay_print_yang_uses (nd : nat) : print_m unit :=
  n ← node_at nd;
  _ ← iprint [lit "uses "];
  ret ← attempt (print_name nd);
  _ ← (if ids then emits [lit "; // "; decimal (id (data n)); [LF]] else emits [lit ";"; [LF]]);
  return_code ret.

Definition in_seq_list (n : ynode) : res bool :=
  p ← deref (parent n); pn ← fetch m p; AY_YNODE_IS_SEQ_LIST lm pn.

Definition ay_print_yang_leaf_key (nd : nat) : print_m unit :=
  n ← node_at nd;
  seq ← lift (in_seq_list n);
  _ ← (if (seq : bool) then iprint [lit "leaf _seq"] else _ ← iprint [lit "leaf "]; print_name nd);
  _ ← begin2 (id (data n));
  p ← lift (deref (parent n));
  pn ← node_at p;
  _ ← (if bool_decide (type (data pn) = YN_CONTAINER) then ay_print_yang_mandatory nd else mret tt);
  lab ← lift (label_lens lm n);
  _ ← (if tag_is lab L_SEQ then iline "type uint64;" else print_type nd);
  _ ← (if (seq : bool) then
         ay_print_yang_description
           "Key contains some unique value. The order is based on the actual order of list instances."
       else mret tt);
  ay_print_yang_nesting_end.

(** ** Nodes with children *)

Section children.
Context (print_node : nat → print_m unit).

Fixpoint print_siblings (fuel : nat) (iter : option nat) : print_m unit :=
  match iter with
  | None => mret tt
  | Some i =>
      match fuel with
      | 0 => lift (Fault OutOfFuel)
      | S fuel' => _ ← print_node i; n ← node_at i; print_siblings fuel' (next n)
      end
  end.

Definition ay_print_yang_children (nd : nat) : print_m unit :=
  n ← node_at nd; print_siblings (length m) (child n).

Definition ay_print_yang_list_files (nd : nat) : print_m unit :=
  _ ← iprint [lit "list "];
  _ ← print_name nd;
  _ ← ay_print_yang_nesting_begin;
  _ ← iprint [lit "key "; quoted (lit "config-file"); lit ";"; [LF]];
  _ ← iprint [lit "leaf config-file"];
  _ ← ay_print_yang_nesting_begin;
  _ ← iline "type string;";
  _ ← ay_print_yang_nesting_end;
  _ ← ay_print_yang_children nd;
  ay_print_yang_nesting_end.

Definition ay_print_yang_seq_list (nd : nat) : print_m unit :=
  n ← node_at nd;
  _ ← iprint [lit "list "];
  _ ← print_name nd;
  _ ← begin2 (id (data n));
  _ ← iprint [lit "key "; quoted (lit "_seq"); lit ";"; [LF]];
  _ ← ay_print_yang_minelements nd;
  _ ← ay_print_yang_when nd;
  _ ← iline "ordered-by user;";
  _ ← ay_print_yang_data_path nd;
  _ ← ay_print_yang_value_path nd;
  _ ← ay_print_yang_children nd;
  ay_print_yang_nesting_end.

(** The implicit key. *)
Definition print_id_leaf (is_lrec : bool) : print_m unit :=
  _ ← (if is_lrec then iprint [lit "leaf _r-id"]
       else _ ← iline "ordered-by user;"; iprint [lit "leaf _id"]);
  _ ← ay_print_yang_nesting_begin;
  _ ← iline "type uint64;";
  _ ← ay_print_yang_description
        (if is_lrec then "Implicitly generated list key to maintain the recursive augeas data."
         else "Implicitly generated list key to maintain the order of the augeas data.");
  ay_print_yang_nesting_end.

Definition ay_print_yang_list (nd : nat) : print_m unit :=
  n ← node_at nd;
  p ← lift (deref (parent n));
  pn ← node_at p;
  seq ← lift (AY_YNODE_IS_SEQ_LIST lm n);
  if bool_decide (type (data pn) = YN_ROOT) then _ ← status (ay_print_yang_list_files nd); mret tt
  else if (seq : bool) then _ ← status (ay_print_yang_seq_list nd); mret tt
  else
    _ ← iprint [lit "list "];
    _ ← print_name nd;
    _ ← begin2 (id (data n));
    sl ← lift (snode_lens lm n);
    let is_lrec := tag_is sl L_REC in
    _ ← iprint [lit "key "; quoted (lit (if is_lrec then "_r-id" else "_id")); lit ";"; [LF]];
    _ ← ay_print_yang_minelements nd;
    _ ← ay_print_yang_when nd;
    _ ← print_id_leaf is_lrec;
    _ ← ay_print_yang_children nd;
    ay_print_yang_nesting_end.

Definition ay_print_yang_presence : print_m unit :=
  iprint [lit "presence "; quoted (lit "Config entry."); lit ";"; [LF]].

Definition ay_print_yang_container (nd : nat) : print_m unit :=
  n ← node_at nd;
  _ ← iprint [lit "container "];
  _ ← print_name nd;
  _ ← begin2 (id (data n));
  _ ← ay_print_yang_data_path nd;
  _ ← ay_print_yang_value_path nd;
  _ ← ay_print_yang_presence;
  _ ← ay_print_yang_when nd;
  _ ← ay_print_yang_children nd;
  ay_print_yang_nesting_end.

Definition ay_print_yang_grouping (nd : nat) : print_m unit :=
  n ← node_at nd;
  _ ← iprint [lit "grouping "];
  _ ← print_name nd;
  _ ← begin2 (id (data n));
  _ ← ay_print_yang_children nd;
  ay_print_yang_nesting_end.

Definition ay_print_yang_node_ (nd : nat) : print_m unit :=
  n ← node_at nd;
  match type (data n) with
  | YN_UNKNOWN => lift (Fault AssertFailed)
  | YN_LEAF | YN_VALUE => ay_print_yang_leaf nd
  | YN_LEAFREF => ay_print_yang_leafref nd
  | YN_LIST => ay_print_yang_list nd
  | YN_CONTAINER => ay_print_yang_container nd
  | YN_CASE => lift (Err 1)
  | YN_KEY => ay_print_yang_leaf_key nd
  | YN_GROUPING => ay_print_yang_grouping nd
  | YN_USES => ay_print_yang_uses nd
  | YN_REC | YN_ROOT => ay_print_yang_children nd
  end.

(** ** Choices *)

Definition ay_print_yang_mandatory_choice (nd : nat) : print_m unit :=
  n ← node_at nd;
  if has_flag (data n) AY_CHOICE_MAND_FALSE then mret tt else iline "mandatory true;".

(** The number of other choices in front of the node. *)
Fixpoint count_choices (fuel : nat) (iter : option nat) (nd : nat) (ch last : option nat) (cnt : Z) : res Z :=
  if bool_decide (iter = Some nd) then Ok cnt
  else
    match fuel with
    | 0 => Fault OutOfFuel
    | S fuel' =>
        i ← deref iter;
        n ← fetch m i;
        let c := choice (data n) in
        alone ← ay_ynode_alone_in_choice m i;
        if bool_decide (is_Some c) && bool_decide (c ≠ ch) && bool_decide (last ≠ c) && negb alone
        then count_choices fuel' (next n) nd ch c (u32 (cnt + 1))
        else count_choices fuel' (next n) nd ch last cnt
    end.

Definition ay_print_yang_choice (nd : nat) : print_m unit :=
  n ← node_at nd;
  p ← lift (match parent n with Some p => Ok p | None => Fault AssertFailed end);
  pn ← node_at p;
  choice_cnt ← lift (count_choices (length m) (child pn) nd (choice (data n)) None 1);
  s ← lift (ident_text (data pn));
  _ ← (if (length s <=? 3)%nat || negb (strneq s (lit "ch-") 3) then iprint [lit "choice ch-"; s]
       else iprint [lit "choice "; s]);
  if (1 <? choice_cnt)%Z then print (decimal choice_cnt) else mret tt.

Definition ay_print_yang_case (nd : nat) : print_m unit :=
  n ← node_at nd;
  _ ← iprint [lit "case "];
  ret ← (match child n with
         | Some c =>
             _ ← lift (c_assert (bool_decide (type (data n) = YN_CASE))); attempt (print_name c)
         | None =>
             _ ← lift (c_assert (bool_decide (type (data n) = YN_USES))); attempt (print_name nd)
         end);
  _ ← begin2 (id (data n));
  _ ← ay_print_yang_when nd;
  return_code ret.

Definition ay_print_yang_node_in_choice (nd : nat) (alone : bool) : print_m unit :=
  n ← node_at nd;
  let ty := type (data n) in
  if bool_decide (ty = YN_CASE) || bool_decide (ty = YN_USES) then
    _ ← (if alone then mret tt else ay_print_yang_case nd);
    ret ← attempt (if bool_decide (ty = YN_CASE) then ay_print_yang_children nd else ay_print_yang_node_ nd);
    _ ← (if alone then mret tt else ay_print_yang_nesting_end);
    return_code ret
  else ay_print_yang_node_ nd.

Definition next_has_choice (n : ynode) (ch : option nat) : res bool :=
  match next n with
  | None => Ok false
  | Some x => xn ← fetch m x; Ok (bool_decide (choice (data xn) = ch))
  end.

Definition print_in_choice (nd : nat) (n : ynode) (c : nat) : print_m unit :=
  p ← lift (match parent n with Some p => Ok p | None => Fault AssertFailed end);
  pn ← node_at p;
  f ← lift (first_with_choice (length m) m (child pn) c);
  let first := bool_decide (f = Some nd) in
  more ← lift (next_has_choice n (Some c));
  let alone := first && negb more in
  let last := negb first && negb more in
  if alone || negb first && negb last then ay_print_yang_node_in_choice nd alone
  else if first && negb last then
    _ ← status (ay_print_yang_choice nd);
    _ ← ay_print_yang_nesting_begin;
    _ ← ay_print_yang_mandatory_choice nd;
    ay_print_yang_node_in_choice nd alone
  else
    ret ← attempt (ay_print_yang_node_in_choice nd alone);
    _ ← ay_print_yang_nesting_end;
    return_code ret.
End children.

(** The recursion goes to the children of the node. *)
Fixpoint print_node (fuel : nat) (nd : nat) : print_m unit :=
  match fuel with
  | 0 => lift (Fault OutOfFuel)
  | S fuel' =>
      n ← node_at nd;
      match choice (data n) with
      | None => ay_print_yang_node_ (print_node fuel') nd
      | Some c => print_in_choice (print_node fuel') nd n c
      end
  end.

Definition ay_print_yang_node (nd : nat) : print_m unit := print_node (length m) nd.

(** ** The module *)

Definition ay_print_yang_import_inet_types (reg : option lens) : res bool :=
  match reg with
  | None => Ok false
  | Some reg =>
      if bool_decide (tag reg = L_KEY) || bool_decide (tag reg = L_STORE) then
        '(name, len) ← ay_get_filename (regexp_filename reg);
        if strneq (lit "rx") (drop name (regexp_filename reg)) len then
          Ok (match ay_get_lense_name_by_modname modules (lit "Rx") reg with
              | Some s => streq s (lit "ip") || streq s (lit "ipv4") || streq s (lit "ipv6")
              | None => false
              end)
        else Ok false
      else Ok false
  end.

Fixpoint needs_inet (n i : nat) : res bool :=
  match n with
  | 0 => Ok false
  | S n' =>
      y ← fetch m i;
      lab ← label_lens lm y;
      b1 ← ay_print_yang_import_inet_types lab;
      if (b1 : bool) then Ok true
      else
        val ← value_lens lm y;
        b2 ← ay_print_yang_import_inet_types val;
        if (b2 : bool) then Ok true else needs_inet n' (S i)
  end.

Definition line (l : list cstr) : print_m unit := emits (l ++ [[LF]]).

Definition ay_print_yang_imports (count : nat) : print_m unit :=
  _ ← line [lit "  import augeas-extension {"];
  _ ← line [lit "    prefix "; AY_EXT_PREFIX; lit ";"];
  _ ← line [lit "  }"];
  inet ← lift (needs_inet (count - 1) 1);
  _ ← (if (inet : bool) then
         _ ← line [lit "  import ietf-inet-types {"];
         _ ← line [lit "    prefix inet;"];
         _ ← line [lit "    reference"];
         _ ← line [lit "      "; quoted (lit "RFC 6991: Common YANG Data Types"); lit ";"];
         line [lit "  }"]
       else mret tt);
  line [].

Definition dashed (s : cstr) : cstr := (λ c, if c =c "_" then "-"%char else c) <$> s.

(** The text and the code. *)
Definition print_module (count : nat) : print_m unit :=
  name ← lift (ay_get_yang_module_name md);
  _ ← line [lit "module "; dashed name; lit " {"];
  _ ← line [lit "  yang-version 1.1;"];
  _ ← line [lit "  namespace "; [DQUOTE]; lit "aug:"; dashed name; [DQUOTE]; lit ";"];
  _ ← line [lit "  prefix aug;"];
  _ ← line [];
  _ ← ay_print_yang_imports count;
  _ ← line [lit "  "; AY_EXT_PREFIX; lit ":augeas-mod-name "; quoted (mod_name md); lit ";"];
  _ ← line [];
  ret ← attempt (ay_print_yang_children ay_print_yang_node 0);
  _ ← line [lit "}"];
  return_code ret.

Definition ay_print_yang (count : nat) (pm : list pnode) : res (cstr * Z) :=
  '(st, r) ← print_module count (Printer [] SPACE_INDENT pm);
  Ok (out st, match r with inr _ => 0%Z | inl e => e end).
End printer.
