(* ===== verification/PrintTheorems.v ===== *)
(** Theorems on the printing of statements: types never fail, and a node that is
    printed leaves the indentation as it was. *)
From S2P Require Import Prelude CString Common ParseRegex Preorder PreorderFacts Lnode Ynode YnodeFacts YnodeSpec YnodeTheorems Forest YnodeQuery YnodeRules YnodeMandatory QueryTheorems Dnode TransBase TransGroup Pnode Ident Regex Names Idents PrintTypes Printer.

(** ** Computations without an error code *)

Definition quiet {A} (r : res A) : Prop := ∀ e, r ≠ Err e.

Create HintDb quiet.

Section quiet.
Context {A B : Type}.

Lemma quiet_Ok (a : A) : quiet (Ok a).
Proof. done. Qed.
Lemma quiet_Fault f : quiet (@Fault A f).
Proof. done. Qed.
Lemma quiet_bind (r : res A) (k : A → res B) : quiet r → (∀ a, quiet (k a)) → quiet (r ≫= k).
Proof. intros Hr Hk e. destruct r; cbn; [apply Hk|by intros [= ->]; destruct (Hr e)|done]. Qed.
Lemma quiet_fetch (l : list A) i : quiet (fetch l i).
Proof. unfold fetch. by destruct (l !! i). Qed.
Lemma quiet_deref (p : option A) : quiet (deref p).
Proof. by destruct p. Qed.
Lemma quiet_store (l : list A) i a : quiet (store l i a).
Proof. unfold store. by case_decide. Qed.
Lemma quiet_assert b : quiet (c_assert b).
Proof. by destruct b. Qed.
End quiet.
#[export] Hint Resolve quiet_Ok quiet_Fault quiet_fetch quiet_deref quiet_store quiet_assert : quiet.

Ltac quiet_step :=
  match goal with
  | |- quiet (_ ≫= _) => apply quiet_bind; [|intros]
  | |- quiet (match ?x with _ => _ end) => destruct x
  | |- quiet (let '(_, _) := ?x in _) => destruct x
  | |- quiet _ => solve [auto with quiet]
  end.
Ltac quiet := intros; repeat quiet_step.

Lemma quiet_modify {P} (m : list (node P)) i f : quiet (modify m i f).
Proof. unfold modify. quiet. Qed.
Lemma quiet_on_pnode m i f : quiet (on_pnode m i f).
Proof. apply quiet_modify. Qed.
Lemma quiet_pref m i : quiet (pref_of m i).
Proof. unfold pref_of, AY_PNODE_REF. quiet. Qed.
Lemma quiet_term m i : quiet (term_of m i).
Proof. unfold term_of. quiet. Qed.
Lemma quiet_ptag m i : quiet (ptag m i).
Proof. unfold ptag. pose proof (quiet_term m i). quiet. Qed.
Lemma quiet_left m i : quiet (left_of m i).
Proof. unfold left_of. quiet. Qed.
Lemma quiet_right m i : quiet (right_of m i).
Proof. unfold right_of. pose proof (quiet_left m i). quiet. Qed.
#[export] Hint Resolve quiet_modify quiet_on_pnode quiet_pref quiet_term quiet_ptag quiet_left quiet_right : quiet.

Lemma quiet_each {A} (body : nat → A → res A) n i a :
  (∀ i a, quiet (body i a)) → quiet (each_of_block body n i a).
Proof. intros Hb. revert i a. induction n; intros; cbn; quiet. Qed.

Lemma quiet_ref_apply m i : quiet (ay_pnode_ref_apply m i).
Proof. unfold ay_pnode_ref_apply. generalize (S (length m)). intros n. revert i. induction n; cbn; quiet. Qed.

Lemma quiet_nocase m i : quiet (ay_pnode_regexp_has_nocase m i).
Proof. unfold ay_pnode_regexp_has_nocase. generalize (S (length m)). intros n. revert i. induction n; cbn; quiet. Qed.

Lemma quiet_peek m i t : quiet (ay_pnode_peek m i t).
Proof.
  unfold ay_pnode_peek. generalize (S (length m)). intros n. revert i.
  induction n; cbn [pnode_peek]; quiet. apply quiet_each. quiet.
Qed.
#[export] Hint Resolve quiet_ref_apply quiet_nocase quiet_peek : quiet.

(** ** Regular expressions *)

Lemma quiet_regex_standardized p : quiet (ay_print_regex_standardized p).
Proof.
  assert (∀ n s h t r, quiet (replace_loop n s h t r)) as Hr.
  { induction n; cbn; quiet. }
  assert (∀ n s cls empty, quiet (print_regex_loop n s cls empty)) as Hp.
  { induction n; intros [|c s] cls empty; cbn [print_regex_loop]; quiet. }
  unfold ay_print_regex_standardized, ay_replace_substr, ay_regex_remove_parentheses. quiet.
Qed.

Lemma quiet_put_char cap acc c : quiet (put_char cap acc c).
Proof. unfold put_char. quiet. Qed.
Lemma quiet_put_text cap acc s : quiet (put_text cap acc s).
Proof. unfold put_text. quiet. Qed.
#[export] Hint Resolve quiet_regex_standardized quiet_put_char quiet_put_text : quiet.

Lemma quiet_to_buffer lit m cap i : quiet (ay_pnode_print_regex_to_buffer lit m cap i).
Proof.
  unfold ay_pnode_print_regex_to_buffer. generalize (S (length m)) (@nil ascii). intros n. revert i.
  induction n; intros i acc; cbn [regex_to_buffer]; [quiet|]. apply quiet_bind; [quiet|]. intros nd.
  assert (∀ j a, quiet (term_to_buffer lit m cap (regex_to_buffer lit m cap n) j a)) as Ht.
  { intros. unfold term_to_buffer, operand. quiet. }
  generalize (length m) (i + below nd)%nat. intros k last. revert i acc.
  induction k; intros; cbn [skip_in_block]; quiet.
Qed.

Lemma quiet_buffer_size m i : quiet (ay_pnode_regex_buffer_size m i).
Proof.
  unfold ay_pnode_regex_buffer_size. generalize (S (length m)). intros n. revert i.
  induction n; intros; cbn [regex_buffer_size]; [quiet|]. unfold each_in_subtree. quiet. apply quiet_each. quiet.
Qed.
#[export] Hint Resolve quiet_to_buffer quiet_buffer_size : quiet.

Lemma quiet_print_regex lit m i : quiet (ay_pnode_print_regex lit m i).
Proof. unfold ay_pnode_print_regex. quiet. Qed.
#[export] Hint Resolve quiet_print_regex : quiet.

(** ** The indentation *)

(** The computation does not fail and changes the indentation by [d]. *)
Definition shifts {A} (d : Z) (p : print_m A) : Prop :=
  ∀ st st' r, p st = Ok (st', r) → space st' = (space st + d)%Z ∧ ∃ a, r = inr a.

Create HintDb shifts discriminated.
#[export] Hint Constants Opaque : shifts.

Section shifts.
Context {A B : Type}.

Lemma shifts_ret d (a : A) : d = 0%Z → shifts d (mret a).
Proof. intros -> st st' r [= <- <-]. split; [lia|by eexists]. Qed.

Lemma shifts_bind d1 d (p : print_m A) (k : A → print_m B) :
  shifts d1 p → (∀ a, shifts (d - d1) (k a)) → shifts d (p ≫= k).
Proof.
  intros Hp Hk st st' r. unfold mbind, coded_bind. destruct (p st) as [[st1 [e|a]]|e|f] eqn:E; try done.
  - destruct (Hp _ _ _ E) as [_ [? [=]]].
  - intros H. destruct (Hp _ _ _ E) as [H1 _]. destruct (Hk _ _ _ _ H) as [H2 Hr]. split; [lia|done].
Qed.

Lemma shifts_lift d (r : res A) : quiet r → d = 0%Z → shifts d (lift r).
Proof.
  intros Hr -> st st' x. unfold lift. destruct r as [a|e|f]; [|by destruct (Hr e)|done].
  intros [= <- <-]. split; [lia|by eexists].
Qed.

Lemma shifts_see d (f : list pnode → res A) : (∀ pm, quiet (f pm)) → d = 0%Z → shifts d (see f).
Proof. intros Hf Hd st. by apply shifts_lift. Qed.

Lemma shifts_status d (p : print_m unit) : shifts d p → shifts d (status p).
Proof.
  intros Hp st st' r. unfold status. destruct (p st) as [[st1 [e|[]]]|e|f] eqn:E; try done; intros [= <- <-];
    destruct (Hp _ _ _ E); split; eauto.
Qed.

Lemma shifts_print d s : d = 0%Z → shifts d (print s).
Proof. intros -> st st' r [= <- <-]. split; [cbn; lia|by eexists]. Qed.
Lemma shifts_nest d : shifts d (nest d).
Proof. intros st st' r [= <- <-]. by split; [|eexists]. Qed.
Lemma shifts_indent d : d = 0%Z → shifts d indent.
Proof. intros -> st st' r [= <- <-]. split; [cbn; lia|by eexists]. Qed.
Lemma shifts_flag d i k : d = 0%Z → shifts d (put_flag i k).
Proof.
  intros -> st st' r. unfold put_flag, change. pose proof (quiet_on_pnode (pnodes st) i (set_pflag k)) as Hq.
  destruct (on_pnode _ _ _) as [pm|e|f]; [|by destruct (Hq e)|done]. intros [= <- <-].
  split; [cbn; lia|by eexists].
Qed.
End shifts.

Lemma shifts_eq {A} d d' (p : print_m A) : shifts d p → d = d' → shifts d' p.
Proof. by intros ? <-. Qed.

Ltac shift_eq := first [reflexivity|lia].

(** The same for a computation whose result is known. *)
Definition returns {A} (a : A) (d : Z) (p : print_m A) : Prop :=
  ∀ st st' r, p st = Ok (st', r) → space st' = (space st + d)%Z ∧ r = inr a.

Lemma returns_status d p : shifts d p → returns 0%Z d (status p).
Proof.
  intros Hp st st' r. unfold status. destruct (p st) as [[st1 x]|e|f] eqn:E; [|done..].
  destruct (Hp _ _ _ E) as [Hs [y ->]]. by intros [= <- <-].
Qed.
Lemma returns_ret {A} (a : A) d : d = 0%Z → returns a d (mret a).
Proof. intros -> st st' r [= <- <-]. split; [lia|done]. Qed.
Lemma returns_bind {A B} d d1 (p : print_m A) (k : A → print_m B) b :
  shifts d1 p → (∀ a, returns b (d - d1) (k a)) → returns b d (p ≫= k).
Proof.
  intros Hp Hk st st' r. unfold mbind, coded_bind. destruct (p st) as [[st1 x]|e|f] eqn:E; [|done..].
  destruct (Hp _ _ _ E) as [H1 [a ->]]. intros H. destruct (Hk _ _ _ _ H). split; [lia|done].
Qed.
Lemma shifts_bind_val {A B} d1 a d (p : print_m A) (k : A → print_m B) :
  returns a d1 p → shifts (d - d1) (k a) → shifts d (p ≫= k).
Proof.
  intros Hp Hk st st' r. unfold mbind, coded_bind. destruct (p st) as [[st1 x]|e|f] eqn:E; [|done..].
  destruct (Hp _ _ _ E) as [H1 ->]. intros H. destruct (Hk _ _ _ H). split; [lia|done].
Qed.

(** One component; [d] is chosen by the component, and is 0 for a choice. *)
Ltac shift_step :=
  match goal with
  | |- shifts ?d (_ ≫= _) => first [is_evar d; unify d 0%Z|idtac]; eapply shifts_bind; [|intros]
  | |- shifts _ (mret _) => apply shifts_ret; shift_eq
  | |- shifts _ (nest _) => eapply shifts_eq; [apply shifts_nest|shift_eq]
  | |- shifts _ (print _) => apply shifts_print; shift_eq
  | |- shifts _ indent => apply shifts_indent; shift_eq
  | |- shifts _ (put_flag _ _) => apply shifts_flag; shift_eq
  | |- shifts _ (status _) => apply shifts_status
  | |- shifts _ (lift _) => apply shifts_lift; [quiet|shift_eq]
  | |- shifts _ (see _) => apply shifts_see; [quiet|shift_eq]
  | |- shifts _ (let '(_, _) := ?x in _) => destruct x
  | |- shifts ?d (match ?x with _ => _ end) => first [is_evar d; unify d 0%Z|idtac]; destruct x
  | |- shifts _ _ => eapply shifts_eq; [solve [eauto with shifts]|shift_eq]
  end.
Ltac shift := intros; repeat shift_step.

Lemma shifts_emits l : shifts 0 (emits l).
Proof. unfold emits. shift. Qed.
#[export] Hint Resolve shifts_emits : shifts.
Lemma shifts_iprint l : shifts 0 (iprint l).
Proof. unfold iprint. shift. Qed.
Lemma shifts_iline s : shifts 0 (iline s).
Proof. apply shifts_iprint. Qed.
#[export] Hint Resolve shifts_iprint shifts_iline : shifts.
Lemma shifts_begin : shifts SPACE_INDENT ay_print_yang_nesting_begin.
Proof. unfold ay_print_yang_nesting_begin. shift. Qed.
Lemma shifts_begin2 ids i f : shifts SPACE_INDENT (ay_print_yang_nesting_begin2 ids i f).
Proof. unfold ay_print_yang_nesting_begin2. shift. Qed.
Lemma shifts_end : shifts (- SPACE_INDENT) ay_print_yang_nesting_end.
Proof. unfold ay_print_yang_nesting_end. shift. Qed.
#[export] Hint Resolve shifts_begin shifts_begin2 shifts_end : shifts.

(** ** Types *)

Lemma quiet_climb {P A} (m : list (node P)) fuel o (body : nat → node P → option A) : quiet (climb fuel m o body).
Proof. revert o. induction fuel; intros [|]; cbn [climb]; quiet. Qed.
#[export] Hint Resolve quiet_climb : quiet.

Section types.
Context `{LensPointers} (modules : list amodule) (regexp_literal : cstr → cstr) (regexp_filename : lens → cstr).
Context (lm : list lnode) (m : list ynode) (patt_table : list ay_transl) (labels values : dict nat).

Lemma quiet_filename p : quiet (ay_get_filename p).
Proof.
  unfold ay_get_filename. assert (∀ s, quiet (filename_len s)) by (induction s; cbn; quiet). quiet.
Qed.
Lemma quiet_lens_at i : quiet (lens_at lm i).
Proof. unfold lens_at. quiet. Qed.
Hint Resolve quiet_filename quiet_lens_at : quiet.

Lemma quiet_label_lens n : quiet (label_lens lm n).
Proof. apply quiet_lens_at. Qed.
Lemma quiet_value_lens n : quiet (value_lens lm n).
Proof. apply quiet_lens_at. Qed.
Lemma quiet_snode_lens n : quiet (snode_lens lm n).
Proof. apply quiet_lens_at. Qed.
Lemma quiet_label_flag n k : quiet (label_flag lm n k).
Proof. unfold label_flag. quiet. Qed.
Hint Resolve quiet_label_lens quiet_value_lens quiet_snode_lens quiet_label_flag : quiet.
Lemma quiet_is_ident n : quiet (AY_LABEL_LENS_IS_IDENT lm n).
Proof. unfold AY_LABEL_LENS_IS_IDENT, AY_LABEL_LENS_NOCASE. quiet. Qed.
Lemma quiet_seq_list n : quiet (AY_YNODE_IS_SEQ_LIST lm n).
Proof. unfold AY_YNODE_IS_SEQ_LIST. quiet. Qed.
Lemma quiet_type_is_empty i : quiet (ay_yang_type_is_empty lm i).
Proof. unfold ay_yang_type_is_empty. quiet. Qed.
Lemma quiet_empty_string l : quiet (ay_yang_type_is_empty_string l).
Proof. unfold ay_yang_type_is_empty_string. quiet. Qed.
Lemma quiet_keyval (d : dict nat) k : quiet (keyval d k).
Proof. unfold keyval. quiet. Qed.
Hint Resolve quiet_is_ident quiet_seq_list quiet_type_is_empty quiet_empty_string quiet_keyval : quiet.

Lemma quiet_substr nd : quiet (ay_ynode_get_substr_from_transl_table lm m patt_table nd).
Proof.
  assert (∀ n iter i l k, quiet (seq_index lm n m iter i l k)).
  { induction n; intros [|]; intros; cbn [seq_index]; quiet. }
  unfold ay_ynode_get_substr_from_transl_table, ay_ynode_splitted_seq_index. quiet.
Qed.
Lemma quiet_builtin l : quiet (builtin_type modules regexp_filename l).
Proof. unfold builtin_type, from_rx. quiet. Qed.
Lemma quiet_empty_items l es et : quiet (empty_of_items lm l es et).
Proof. revert es et. induction l; intros; cbn [empty_of_items]; quiet. Qed.
Lemma quiet_type_source n : quiet (find_type_source lm labels values n).
Proof. unfold find_type_source. quiet. Qed.
Lemma quiet_lnode_arg i : quiet (lnode_arg lm i).
Proof. unfold lnode_arg. quiet. Qed.
Hint Resolve quiet_substr quiet_builtin quiet_empty_items quiet_type_source quiet_lnode_arg : quiet.

Lemma shifts_by_pnode_regex i : shifts 0 (ay_print_yang_pattern_by_pnode_regex regexp_literal i).
Proof.
  unfold ay_print_yang_pattern_by_pnode_regex, ay_pnode_print_yang_pattern_nocase, ay_print_yang_pattern_nocase. shift.
Qed.
Lemma shifts_unmin d p : shifts 0 (ay_yang_type_is_regex_unmin d p).
Proof. unfold ay_yang_type_is_regex_unmin. shift. Qed.
Hint Resolve shifts_by_pnode_regex shifts_unmin : shifts.
Lemma shifts_pattern_minus i : shifts 0 (ay_print_yang_pattern_minus regexp_literal i).
Proof. unfold ay_print_yang_pattern_minus. shift. Qed.
Hint Resolve shifts_pattern_minus : shifts.
Lemma shifts_pattern nd l : shifts 0 (ay_print_yang_pattern regexp_literal lm m patt_table nd l).
Proof. unfold ay_print_yang_pattern, is_minus, ay_print_yang_pattern_nocase. shift. Qed.
Hint Resolve shifts_pattern : shifts.
Lemma shifts_type_string nd l : shifts 0 (ay_print_yang_type_string regexp_literal lm m patt_table nd l).
Proof. unfold ay_print_yang_type_string. shift. Qed.
Hint Resolve shifts_type_string : shifts.
Lemma shifts_union_items nd l : shifts 0 (ay_print_yang_type_union_items_from_regex regexp_literal lm m patt_table nd l).
Proof. unfold ay_print_yang_type_union_items_from_regex, ay_print_yang_type_union_item_from_regex. shift. Qed.
Lemma shifts_type_item nd l :
  shifts 0 (ay_print_yang_type_item modules regexp_literal regexp_filename lm m patt_table nd l).
Proof. unfold ay_print_yang_type_item, ay_print_yang_type_builtin, ay_print_yang_enumeration. shift. Qed.
Hint Resolve shifts_union_items shifts_type_item : shifts.
Lemma shifts_items nd l : shifts 0 (print_items modules regexp_literal regexp_filename lm m patt_table nd l).
Proof. induction l; cbn [print_items]; shift. Qed.
Hint Resolve shifts_items : shifts.
Lemma shifts_dict_items d nd k :
  shifts 0 (ay_print_yang_type_union_items modules regexp_literal regexp_filename lm m patt_table d nd k).
Proof. unfold ay_print_yang_type_union_items. shift. Qed.
Hint Resolve shifts_dict_items : shifts.

Lemma shifts_type_of_lnode nd n i d :
  shifts 0 (print_type_of_lnode modules regexp_literal regexp_filename lm m patt_table nd n i d).
Proof.
  unfold print_type_of_lnode. shift_step; [shift|]. cbv zeta.
  eapply (shifts_bind 0); [shift|]. intros [[es et] un].
  match goal with |- context [if ?u then _ ← iprint [lit "type union"]; _ else _] => generalize u end.
  intros u. eapply (shifts_bind (if u then SPACE_INDENT else 0%Z)); [destruct u; shift|]. intros _.
  shift_step; [shift|]. shift_step; [shift|].
  eapply (shifts_bind_val 0 0%Z); [|destruct u; cbn; shift].
  destruct (ay_dnode_find d (Some i)); [|destruct un]; try (eapply (returns_bind 0 0); [shift|intros; by apply returns_ret]).
  apply returns_status. shift.
Qed.
Hint Resolve shifts_type_of_lnode : shifts.

Lemma shifts_type nd :
  shifts 0 (ay_print_yang_type modules regexp_literal regexp_filename lm m patt_table labels values nd).
Proof. unfold ay_print_yang_type. shift. Qed.
End types.

(** ** Computations that may fail *)

(** The indentation is the same after a success and after an error. *)
Definition steady {A} (p : print_m A) : Prop :=
  ∀ st st' r, p st = Ok (st', r) → space st' = space st.

(** No success. *)
Definition fails {A} (p : print_m A) : Prop := ∀ st st' a, p st ≠ Ok (st', inr a).

(** A success changes the indentation by [d], unless [lost]. *)
Definition keeps {A} (lost : Prop) (d : Z) (p : print_m A) : Prop :=
  ∀ st st' a, p st = Ok (st', inr a) → space st' = (space st + d)%Z ∨ lost.

Create HintDb steady discriminated.
#[export] Hint Constants Opaque : steady.
Create HintDb keeps discriminated.
#[export] Hint Constants Opaque : keeps.

Section steady.
Context {A B : Type}.

Lemma steady_bind (p : print_m A) (k : A → print_m B) : steady p → (∀ a, steady (k a)) → steady (p ≫= k).
Proof.
  intros Hp Hk st st' r. unfold mbind, coded_bind. destruct (p st) as [[st1 [e|a]]|e|f] eqn:E; try done.
  - intros [= <- <-]. by eapply Hp.
  - intros H. transitivity (space st1); [by eapply Hk|by eapply Hp].
Qed.
Lemma steady_lift (r : res A) : steady (lift r).
Proof. intros st st' x. unfold lift. by destruct r; intros [= <- <-]. Qed.
Lemma steady_see (f : list pnode → res A) : steady (see f).
Proof. intros st. apply steady_lift. Qed.
Lemma steady_attempt (p : print_m A) : steady p → steady (attempt p).
Proof. intros Hp st st' r. unfold attempt. destruct (p st) as [[]| |] eqn:E; try done. intros [= <- <-]. by eapply Hp. Qed.
Lemma steady_status p : steady p → steady (status p).
Proof. intros Hp st st' r. unfold status. destruct (p st) as [[s1 []]| |] eqn:E; try done; intros [= <- <-]; by eapply Hp. Qed.
Lemma steady_code r : steady (return_code r).
Proof. by intros st st' x [= <- <-]. Qed.
Lemma shifts_steady (p : print_m A) : shifts 0 p → steady p.
Proof. intros Hp st st' r H. destruct (Hp _ _ _ H). lia. Qed.

Lemma fails_bind (p : print_m A) (k : A → print_m B) : (∀ a, fails (k a)) → fails (p ≫= k).
Proof. intros Hk st st' b. unfold mbind, coded_bind. by destruct (p st) as [[st1 [e|a]]| |]; try apply Hk. Qed.
Lemma fails_code e : fails (return_code (inl e)).
Proof. by intros st st' a [=]. Qed.
End steady.

Section keeps.
Context {A B : Type} (lost : Prop).

Lemma keeps_eq d d' (p : print_m A) : keeps lost d p → d = d' → keeps lost d' p.
Proof. by intros ? <-. Qed.
Lemma shifts_keeps d (p : print_m A) : shifts d p → keeps lost d p.
Proof. intros Hp st st' a H. left. by eapply Hp. Qed.
Lemma steady_keeps d (p : print_m A) : steady p → d = 0%Z → keeps lost d p.
Proof. intros Hp -> st st' a H. left. rewrite (Hp _ _ _ H). lia. Qed.
Lemma fails_keeps d (p : print_m A) : fails p → keeps lost d p.
Proof. intros Hp st st' a H. by destruct (Hp st st' a). Qed.
Lemma lost_keeps d (p : print_m A) : lost → keeps lost d p.
Proof. by right. Qed.

Lemma keeps_bind d1 d (p : print_m A) (k : A → print_m B) :
  keeps lost d1 p → (∀ a, keeps lost (d - d1) (k a)) → keeps lost d (p ≫= k).
Proof.
  intros Hp Hk st st' r. unfold mbind, coded_bind. destruct (p st) as [[st1 [e|a]]|e|f] eqn:E; try done.
  intros H. destruct (Hp _ _ _ E); [|by right]. destruct (Hk _ _ _ _ H); [left; lia|by right].
Qed.

(** A value that is known of a success. *)
Lemma keeps_look (r : res A) d (k : A → print_m B) :
  (∀ a, r = Ok a → keeps lost d (k a)) → keeps lost d (lift r ≫= k).
Proof. intros Hk st st' b. unfold mbind, coded_bind, lift. destruct r as [a| |]; [|done..]. by apply Hk. Qed.

Lemma keeps_attempt d1 d (p : print_m unit) (k : Z + unit → print_m B) :
  keeps lost d1 p → (∀ a, keeps lost (d - d1) (k (inr a))) → (∀ e, fails (k (inl e))) →
  keeps lost d (attempt p ≫= k).
Proof.
  intros Hp Hk Hf st st' r. unfold mbind, coded_bind, attempt. destruct (p st) as [[st1 [e|a]]|e|f] eqn:E; try done.
  - intros H. by destruct (Hf _ _ _ _ H).
  - intros H. destruct (Hp _ _ _ E); [|by right]. destruct (Hk _ _ _ _ H); [left; lia|by right].
Qed.

(** An error that is swallowed is [lost]. *)
Lemma keeps_swallow d d1 p (k : Z → print_m B) :
  keeps lost d1 p → (∀ st st' e, p st = Ok (st', inl e) → lost) → (∀ a, keeps lost (d - d1) (k a)) →
  keeps lost d (status p ≫= k).
Proof.
  intros Hp Hl Hk st st' r. unfold mbind, coded_bind, status. destruct (p st) as [[st1 [e|[]]]|e|f] eqn:E; try done.
  - right. eauto.
  - intros H. destruct (Hp _ _ _ E); [|by right]. destruct (Hk _ _ _ _ H); [left; lia|by right].
Qed.
End keeps.

Ltac steady_step :=
  match goal with
  | |- steady (_ ≫= _) => apply steady_bind; [|intros]
  | |- steady (lift _) => apply steady_lift
  | |- steady (see _) => apply steady_see
  | |- steady (attempt _) => apply steady_attempt
  | |- steady (status _) => apply steady_status
  | |- steady (return_code _) => apply steady_code
  | |- steady (let '(_, _) := ?x in _) => destruct x
  | |- steady (match ?x with _ => _ end) => destruct x
  | |- steady _ => solve [auto with steady]
  | |- steady _ => solve [apply shifts_steady; shift]
  end.
Ltac steady := intros; repeat steady_step.

Ltac keep_step :=
  match goal with
  | |- keeps _ ?d (_ ≫= _) => first [is_evar d; unify d 0%Z|idtac]; eapply keeps_bind; [|intros]
  | |- keeps _ _ (nest _) => apply shifts_keeps; shift
  | |- keeps _ _ (let '(_, _) := ?x in _) => destruct x
  | |- keeps _ ?d (match ?x with _ => _ end) => first [is_evar d; unify d 0%Z|idtac]; destruct x
  | |- keeps _ _ _ => eapply keeps_eq; [solve [eauto with keeps]|shift_eq]
  | |- keeps _ _ _ => solve [apply steady_keeps; [steady|shift_eq]]
  | |- keeps _ _ _ => eapply keeps_eq; [apply shifts_keeps; solve [eauto with shifts]|shift_eq]
  end.
Ltac keep := intros; repeat keep_step.

(** ** Statements *)

Section statements.
Context `{LensPointers} (modules : list amodule) (md : amodule)
  (regexp_literal : cstr → cstr) (regexp_filename : lens → cstr).
Context (lm : list lnode) (m : list ynode) (patt_table : list ay_transl) (labels values : dict nat).
Context (ids : bool) (buffer : buf) (lost : Prop).
#[local] Hint Resolve shifts_type : shifts.

Lemma steady_ident_text nd opt : steady (yang_ident_text modules md lm m patt_table values buffer nd opt).
Proof.
  intros st st' r. unfold yang_ident_text. destruct (ay_get_yang_ident _ _ _ _ _ _ _ _ _) as [[b [e|a]]| |]; cbn;
    try done; [by intros [= <- <-]|]. by destruct (cstr_of b); intros [= <- <-].
Qed.
#[local] Hint Resolve steady_ident_text : steady.
Lemma steady_ident nd opt : steady (ay_print_yang_ident modules md lm m patt_table values buffer nd opt).
Proof. unfold ay_print_yang_ident, node_at. steady. Qed.
#[local] Hint Resolve steady_ident : steady.
Lemma steady_data_path nd : steady (ay_print_yang_data_path modules md lm m patt_table values buffer nd).
Proof. unfold ay_print_yang_data_path, node_at, end_extension. steady. Qed.
Lemma steady_value_path nd : steady (ay_print_yang_value_path modules md lm m patt_table values buffer nd).
Proof. unfold ay_print_yang_value_path, node_at, end_extension. steady. Qed.
Lemma steady_when nd : steady (ay_print_yang_when lm m nd).
Proof. unfold ay_print_yang_when, print_when_value, ay_print_yang_when_print_target, node_at. steady. Qed.
Lemma steady_minelements nd : steady (ay_print_yang_minelements m nd).
Proof. unfold ay_print_yang_minelements, node_at. steady. Qed.
Lemma steady_mandatory nd : steady (ay_print_yang_mandatory m nd).
Proof. unfold ay_print_yang_mandatory, node_at. steady. Qed.
Lemma shifts_description s : shifts 0 (ay_print_yang_description s).
Proof. unfold ay_print_yang_description. shift. Qed.
#[local] Hint Resolve steady_data_path steady_value_path steady_when steady_minelements steady_mandatory : steady.
#[local] Hint Resolve shifts_description : shifts.
Abbreviation print_name := (print_name modules md lm m patt_table values buffer).
Abbreviation print_type := (print_type modules regexp_literal regexp_filename lm m patt_table labels values).

Lemma keeps_begin2 i : keeps lost SPACE_INDENT (begin2 ids i).
Proof. apply shifts_keeps, shifts_begin2. Qed.
Lemma keeps_type nd : keeps lost 0 (print_type nd).
Proof. apply shifts_keeps, shifts_type. Qed.
Lemma steady_name nd : steady (print_name nd).
Proof. apply steady_ident. Qed.
#[local] Hint Resolve keeps_begin2 keeps_type : keeps.
#[local] Hint Resolve steady_name : steady.

Lemma keeps_leaf nd :
  keeps lost 0 (ay_print_yang_leaf modules md regexp_literal regexp_filename lm m patt_table labels values ids buffer nd).
Proof. unfold ay_print_yang_leaf, node_at. keep. Qed.
Lemma keeps_leafref nd : keeps lost 0 (ay_print_yang_leafref modules md lm m patt_table values ids buffer nd).
Proof. unfold ay_print_yang_leafref, node_at. keep. Qed.
Lemma keeps_uses nd : keeps lost 0 (ay_print_yang_uses modules md lm m patt_table values ids buffer nd).
Proof. unfold ay_print_yang_uses, node_at. keep. Qed.
Lemma keeps_leaf_key nd :
  keeps lost 0 (ay_print_yang_leaf_key modules md regexp_literal regexp_filename lm m patt_table labels values ids buffer nd).
Proof. unfold ay_print_yang_leaf_key, node_at, in_seq_list. keep. Qed.
Lemma steady_choice nd : steady (ay_print_yang_choice m nd).
Proof. unfold ay_print_yang_choice, node_at. steady. Qed.
Lemma keeps_case nd : keeps lost SPACE_INDENT (ay_print_yang_case modules md lm m patt_table values ids buffer nd).
Proof. unfold ay_print_yang_case, node_at. keep. Qed.
End statements.

(** ** Choices *)

(** The nodes of a choice follow each other. *)
Fixpoint contiguous (l : list (option nat)) : bool :=
  match l with
  | Some c :: (x :: _) as l' => (bool_decide (x = Some c) || bool_decide (Some c ∉ l')) && contiguous l'
  | _ :: l' => contiguous l'
  | [] => true
  end.

Definition choice_of (t : tree ydata) : option nat := choice (root_data t).

(** The same for the children of every node of the tree. *)
Fixpoint arranged (t : tree ydata) : bool :=
  match t with T _ ts => contiguous (choice_of <$> ts) && forallb arranged ts end.

(** The choice of the last node goes on. *)
Definition goes_on (l r : list (option nat)) : bool :=
  match last l, head r with Some (Some c), Some (Some c') => bool_decide (c = c') | _, _ => false end.

Lemma contiguous_seen l c r :
  contiguous (l ++ Some c :: r) = true → Some c ∈ l → goes_on l (Some c :: r) = true.
Proof.
  unfold goes_on. cbn [head].
  induction l as [|x l IH]; intros Hc Hin; [by apply elem_of_nil in Hin|].
  destruct l as [|y l].
  - apply list_elem_of_singleton in Hin as <-. cbn. by apply bool_decide_eq_true.
  - rewrite last_cons_cons. apply IH.
    + destruct x; cbn in Hc; [by apply andb_prop in Hc as [_ Hc]|exact Hc].
    + apply elem_of_cons in Hin as [<-|Hin]; [|done].
      cbn in Hc. apply andb_prop in Hc as [Hc _]. apply orb_prop in Hc as [Hc|Hc]; apply bool_decide_eq_true in Hc.
      * subst. by left.
      * destruct Hc. right. apply elem_of_app. right. by left.
Qed.

Lemma goes_on_seen l c r : goes_on l (Some c :: r) = true → Some c ∈ l.
Proof.
  unfold goes_on. cbn [head]. destruct (last l) as [[c'|]|] eqn:E; [|done..].
  intros ->%bool_decide_eq_true. apply last_Some in E as [l' ->]. apply elem_of_app. right. by left.
Qed.

(** ** Nodes *)

Section nested.
Context `{LensPointers} (modules : list amodule) (md : amodule)
  (regexp_literal : cstr → cstr) (regexp_filename : lens → cstr).
Context (lm : list lnode) (s : ytree) (patt_table : list ay_transl) (labels values : dict nat).
Context (ids : bool) (buffer : buf).
#[local] Abbreviation m := (mem s).
#[local] Abbreviation children := (ay_print_yang_children m).
#[local] Abbreviation list_files := (ay_print_yang_list_files modules md lm m patt_table values buffer).
#[local] Abbreviation seq_list := (ay_print_yang_seq_list modules md lm m patt_table values ids buffer).
#[local] Abbreviation node_ :=
  (ay_print_yang_node_ modules md regexp_literal regexp_filename lm m patt_table labels values ids buffer).
#[local] Abbreviation printed :=
  (print_node modules md regexp_literal regexp_filename lm m patt_table labels values ids buffer).

(** The list of the files, or a list with the key [_seq], failed; [ay_print_yang_list]
    returns 0 all the same. *)
Definition error_lost : Prop :=
  ∃ fuel nd n st st' e, m !! nd = Some n ∧ type (data n) = YN_LIST ∧
    (list_files (printed fuel) nd st = Ok (st', inl e) ∨ seq_list (printed fuel) nd st = Ok (st', inl e)).

#[local] Hint Resolve steady_data_path steady_value_path steady_when steady_minelements steady_mandatory
  steady_name steady_choice : steady.
#[local] Hint Resolve shifts_description : shifts.
#[local] Hint Resolve keeps_begin2 keeps_type keeps_leaf keeps_leafref keeps_uses keeps_leaf_key keeps_case : keeps.

Section node.
Context (fuel nd : nat) (Hch : keeps error_lost 0 (children (printed fuel) nd)).
#[local] Hint Resolve Hch : keeps.

Lemma keeps_list_files : keeps error_lost 0 (list_files (printed fuel) nd).
Proof. unfold ay_print_yang_list_files. keep. Qed.
Lemma keeps_seq_list : keeps error_lost 0 (seq_list (printed fuel) nd).
Proof. unfold ay_print_yang_seq_list, node_at. keep. Qed.
#[local] Hint Resolve keeps_list_files keeps_seq_list : keeps.

Lemma keeps_list n : m !! nd = Some n → type (data n) = YN_LIST →
  keeps error_lost 0 (ay_print_yang_list modules md lm m patt_table values ids buffer (printed fuel) nd).
Proof.
  intros Hn Hty. unfold ay_print_yang_list, node_at, print_id_leaf. do 4 (keep_step; [keep|]). keep_step; [|keep_step].
  1-2: eapply (keeps_swallow _ _ 0); [keep| |keep]; intros; exists fuel, nd, n; eauto 8.
  keep.
Qed.

Lemma keeps_node_ : keeps error_lost 0 (node_ (printed fuel) nd).
Proof.
  unfold ay_print_yang_node_, node_at. apply keeps_look. intros n Hn%fetch_Ok.
  destruct (type (data n)) eqn:Ht; try solve [keep]; [by apply (keeps_list n)|..];
    unfold ay_print_yang_container, ay_print_yang_grouping, ay_print_yang_presence, node_at; keep.
Qed.

Lemma keeps_in_choice alone :
  keeps error_lost 0
    (ay_print_yang_node_in_choice modules md regexp_literal regexp_filename lm m patt_table labels values ids buffer
       (printed fuel) nd alone).
Proof.
  unfold ay_print_yang_node_in_choice, node_at. keep_step; [keep|].
  pose proof keeps_node_ as Hn. destruct (_ || _); [|keep].
  eapply (keeps_bind _ (if alone then 0 else SPACE_INDENT)%Z); [destruct alone; keep|]. intros _.
  eapply (keeps_attempt _ 0); [destruct (bool_decide _); keep|intros; destruct alone; keep|].
  intros e. apply fails_bind. intros _. apply fails_code.
Qed.
End node.

(** The first node of the choice is the node itself when none is in front of it. *)
Lemma first_in_choice c d ls u us ch :
  at_end s c d ls (u :: us) → choice_of u = Some ch →
  let i := (S (hole c) + sizes ls)%nat in
  ∃ f, first_with_choice (length m) m (Some (S (hole c))) ch = Ok (Some f) ∧
    (f = i ↔ Some ch ∉ choice_of <$> ls).
Proof.
  intros Hat Hu i.
  assert (at_end s c d [] (ls ++ u :: us)) as H0.
  { unfold at_end in *. eapply repr_in_view; [|exact Hat]. cbn. by rewrite !app_nil_r. }
  pose proof (at_end_length _ _ _ _ _ H0) as Hlen. rewrite length_app in Hlen. cbn [length] in Hlen.
  assert (∀ l : list (tree ydata), Some ch ∉ choice_of <$> l → Forall (λ x, ¬ chosen ch x) l) as Hno.
  { intros l Hl. apply Forall_forall. intros x Hx Hc. apply Hl, list_elem_of_fmap. by exists x. }
  replace (S (hole c)) with (S (hole c) + sizes (@nil (tree ydata)))%nat by (cbn; lia).
  destruct (decide (Some ch ∈ choice_of <$> ls)) as [Hin|Hn].
  - apply list_elem_of_split_l in Hin as (l1 & l2 & Hl & H1).
    apply fmap_app_inv in Hl as (a & b & -> & Hb & ->). symmetry in Hb.
    apply fmap_cons_inv in Hb as (x & b' & Hx & _ & ->).
    rewrite <- app_assoc in H0. rewrite length_app in Hlen. eexists. split.
    + apply (first_with_choice_ok s c d ch a x (b' ++ u :: us) []); [done|by apply Hno|done|cbn in Hlen; lia].
    + subst i. cbn [app]. rewrite sizes_app. cbn [sizes]. pose proof (size_pos x). split; [lia|].
      intros []. rewrite fmap_app, fmap_cons. apply elem_of_app. right. rewrite Hx. by left.
  - eexists. split; [by apply (first_with_choice_ok s c d ch ls u us []); [|apply Hno| |lia]|done].
Qed.

Definition open (ls us : list (tree ydata)) : Z := Z.b2z (goes_on (choice_of <$> ls) (choice_of <$> us)).

Lemma more_in_choice c d ls u us n ch :
  at_end s c d (ls ++ [u]) us → next n = first_index (S (hole c) + sizes (ls ++ [u])) us → choice_of u = Some ch →
  next_has_choice m n (Some ch) = Ok (goes_on (choice_of <$> ls ++ [u]) (choice_of <$> us)).
Proof.
  intros Hat Hnx Hu. unfold next_has_choice, goes_on. rewrite Hnx, fmap_app.
  change (choice_of <$> [u]) with [choice_of u]. rewrite last_snoc, Hu.
  destruct us as [|x us]; [done|]. cbn [first_index]. destruct (at_end_node _ _ _ _ _ _ Hat) as (nx & -> & Hd & _).
  rewrite bind_Ok, Hd. cbn [fmap list_fmap head]. change (choice (root_data x)) with (choice_of x).
  destruct (choice_of x) as [ch'|]; [|done]. f_equal. apply bool_decide_ext. split; congruence.
Qed.

Lemma first_is_new c d ls u us ch :
  at_end s c d ls (u :: us) → contiguous (choice_of <$> ls ++ u :: us) = true → choice_of u = Some ch →
  ∃ f, first_with_choice (length m) m (Some (S (hole c))) ch = Ok f ∧
    bool_decide (f = Some (S (hole c) + sizes ls)%nat) = negb (goes_on (choice_of <$> ls) (choice_of <$> u :: us)).
Proof.
  intros Hat Hcont Hu. destruct (first_in_choice _ _ _ _ _ _ Hat Hu) as (f & Hf & Hiff).
  exists (Some f). split; [done|]. rewrite fmap_app in Hcont. rewrite fmap_cons in *. rewrite Hu in *.
  destruct (goes_on _ _) eqn:Hg.
  - apply goes_on_seen in Hg. apply bool_decide_false. intros [= E%Hiff]. done.
  - apply bool_decide_true. f_equal. apply Hiff. intros Hin.
    apply (contiguous_seen _ _ _ Hcont) in Hin. congruence.
Qed.

(** A node opens the choice when it is the first of several nodes, and closes it
    when it is the last one. *)
Lemma keeps_printed fuel c d ls u us :
  at_end s c d ls (u :: us) → contiguous (choice_of <$> ls ++ u :: us) = true →
  let i := (S (hole c) + sizes ls)%nat in
  keeps error_lost 0 (children (printed fuel) i) →
  keeps error_lost (SPACE_INDENT * (open (ls ++ [u]) us - open ls (u :: us))) (printed (S fuel) i).
Proof.
  intros Hat Hcont i Hch.
  destruct (repr_in_fetch _ _ _ _ Hat) as (n & Hn & Hp & _ & _ & _ & Hd).
  destruct (at_end_node _ _ _ _ _ _ Hat) as (n' & Hn' & _ & Hnx & Hat').
  cbn [hole hole_parent] in Hn, Hp. rewrite Hn in Hn'. injection Hn' as <-.
  cbn [print_node]. apply keeps_look. fold i in Hn. intros ? E. rewrite Hn in E. injection E as <-.
  rewrite Hd. change (choice (root_data u)) with (choice_of u). destruct (choice_of u) as [ch|] eqn:Hu.
  - unfold print_in_choice, node_at. rewrite Hp. apply keeps_look. intros ? [= <-]. apply keeps_look. intros pn Hpn.
    assert (child pn = Some (S (hole c))) as ->.
    { assert (repr_in s c [T d (ls ++ u :: us)]) as Hr.
      { apply children_at_end. unfold at_end in *. eapply repr_in_view; [|exact Hat]. cbn. by rewrite !app_nil_r. }
      destruct (repr_in_fetch _ _ _ _ Hr) as (? & E & _ & _ & Hc & _). rewrite E in Hpn. injection Hpn as <-.
      rewrite Hc. by destruct ls. }
    destruct (first_is_new _ _ _ _ _ _ Hat Hcont Hu) as (f & Hf & Hb). apply keeps_look. intros ? E.
    rewrite Hf in E. injection E as <-. unfold i. rewrite Hb. apply keeps_look. intros more.
    rewrite (more_in_choice _ _ _ _ _ _ _ Hat' Hnx Hu). intros [= <-]. fold i. unfold open.
    pose proof (keeps_in_choice fuel i Hch) as Hk.
    destruct (goes_on _ (choice_of <$> u :: us)), (goes_on _ (choice_of <$> us)); cbn [negb andb orb Z.b2z].
    + eapply keeps_eq; [apply Hk|lia].
    + eapply (keeps_attempt _ 0); [apply Hk|intros; keep|].
      intros e. apply fails_bind. intros _. apply fails_code.
    + unfold ay_print_yang_mandatory_choice, node_at. do 3 (keep_step; [keep|]). eapply keeps_eq; [apply Hk|lia].
    + eapply keeps_eq; [apply Hk|lia].
  - eapply keeps_eq; [by apply keeps_node_|]. unfold open, goes_on. rewrite fmap_app, !fmap_cons, Hu.
    change (choice_of <$> []) with (@nil (option nat)). rewrite last_snoc. cbn. by destruct (last _) as [[]|].
Qed.

Lemma keeps_siblings pn c d us ls fuel :
  at_end s c d ls us → contiguous (choice_of <$> ls ++ us) = true →
  (∀ ls u vs, at_end s c d ls (u :: vs) → contiguous (choice_of <$> ls ++ u :: vs) = true → u ∈ us →
    keeps error_lost (SPACE_INDENT * (open (ls ++ [u]) vs - open ls (u :: vs))) (pn (S (hole c) + sizes ls)%nat)) →
  keeps error_lost (SPACE_INDENT * - open ls us) (print_siblings m pn fuel (first_index (S (hole c) + sizes ls) us)).
Proof.
  intros Hat Hcont Hpn. revert ls fuel Hat Hcont. induction us as [|u us IH]; intros ls fuel Hat Hcont.
  - destruct fuel; apply steady_keeps; try by (intros ? ? ? [= <- <-]).
    all: unfold open, goes_on; cbn; by destruct (last _) as [[]|].
  - cbn [first_index]. destruct fuel as [|fuel]; [by apply fails_keeps|]. cbn [print_siblings].
    eapply keeps_bind; [apply (Hpn _ _ _ Hat Hcont); by left|]. intros _.
    destruct (at_end_node _ _ _ _ _ _ Hat) as (n & Hn & _ & Hnx & Hat').
    unfold node_at. apply keeps_look. intros ? E. rewrite Hn in E. injection E as <-. rewrite Hnx.
    eapply keeps_eq; [apply IH; [|done|by rewrite <- app_assoc]|lia].
    intros ????? Hin. apply Hpn; [done..|by right].
Qed.

(** The children of a node. *)
Lemma keeps_children fuel c d ts :
  repr_in s c [T d ts] → arranged (T d ts) = true → keeps error_lost 0 (children (printed fuel) (hole c)).
Proof.
  revert c d ts. induction fuel as [|fuel IH]; intros c d ts Hr Harr.
  all: apply children_at_end in Hr as Hat; destruct (repr_in_fetch _ _ _ _ Hr) as (n & Hn & _ & _ & Hc & _).
  all: apply andb_prop in Harr as [Hcont Hsub]; unfold ay_print_yang_children, node_at.
  all: apply keeps_look; intros ? E; rewrite Hn in E; injection E as <-; rewrite Hc; cbn [subtrees].
  all: replace (S (hole c)) with (S (hole c) + sizes (@nil (tree ydata)))%nat by (cbn; lia).
  all: eapply keeps_eq; [apply (keeps_siblings _ _ _ _ _ _ Hat Hcont)|unfold open, goes_on; cbn; lia].
  - intros. by apply fails_keeps.
  - intros ls [du us] vs Hu Hcu Hin. apply (keeps_printed _ c d); [done..|].
    apply (IH (Frame d ls vs :: c) du us).
    + unfold at_end in Hu. eapply repr_in_view; [|exact Hu]. cbn. by rewrite app_nil_r.
    + rewrite forallb_forall in Hsub. apply Hsub. by apply list_elem_of_In.
Qed.
End nested.

(** C28: Printing the children of any node of the tree with success leaves the
    indentation as it was, so that every block that is opened is closed at its
    place, also the blocks of the choices: the first of several nodes of a choice
    opens it and the last one closes it. The nodes of a choice must follow each
    other. The exception is an error in the list of the files or in a list with the
    key [_seq]: [ay_print_yang_list] ignores it. *)
Theorem children_nested `{LensPointers} modules md regexp_literal regexp_filename lm s patt_table labels values ids buffer
    fuel c d ts st st' :
  repr_in s c [T d ts] → arranged (T d ts) = true →
  ay_print_yang_children (mem s)
    (print_node modules md regexp_literal regexp_filename lm (mem s) patt_table labels values ids buffer fuel)
    (hole c) st = Ok (st', inr tt) →
  space st' = space st ∨
  error_lost modules md regexp_literal regexp_filename lm s patt_table labels values ids buffer.
Proof.
  intros Hr Harr Hp. destruct (keeps_children modules md regexp_literal regexp_filename lm s patt_table labels values
    ids buffer fuel c d ts Hr Harr st st' tt Hp); [left; lia|by right].
Qed.

(** Three containers in a container, the first two in a choice. *)
Theorem children_nested_witness :
  let named ch t := with_choice ch (with_ident (Some (lit t)) (with_type YN_CONTAINER zero_data)) in
  let inner := [T (named (Some 3) "a"%string) []; T (named (Some 3) "b"%string) []; T (named None "c"%string) []] in
  let s := state_of (T (with_type YN_ROOT zero_data) [T (named None "top"%string) inner]) 0 6 in
  let md := AModule 1 (lit "M") None [] in
  let pointers : LensPointers := Build_LensPointers lens_id lens_id in
  let empty := Dict (@nil (dnode nat)) 0 in
  let run := ay_print_yang_children (mem s)
    (print_node [] md (λ s, s) (λ _, []) [] (mem s) [] empty empty false (replicate 64 NUL) 4) 0 in
  ∃ st', run (Printer [] SPACE_INDENT []) = Ok (st', inr tt) ∧
    (space st' = SPACE_INDENT ∨ error_lost [] md (λ s, s) (λ _, []) [] s [] empty empty false (replicate 64 NUL)).
Proof.
  intros named inner s md pointers empty run. eexists. split; [by vm_compute|].
  apply (children_nested [] md (λ s, s) (λ _, []) [] s [] empty empty false (replicate 64 NUL) 4 []
    (with_type YN_ROOT zero_data) [T (named None "top"%string) inner] (Printer [] SPACE_INDENT [])).
  - eexists. split; [done|]. by apply state_of_repr.
  - done.
  - by vm_compute.
Defined.
