(* ===== verification/Debug.v ===== *)
(** The printers of [src/debug.c]: lenses, lnodes and ynodes go through one
    function that prints a node and calls back to reach the next ones; terms are
    printed by a recursion of their own.  A printer returns the text that the
    memory output of libyang collects, or what goes to the standard output. *)
From S2P Require Import Prelude CString Common ParseRegex Preorder Lnode Ynode Forest YnodeQuery YnodeRules YnodeMandatory Dnode TransBase TransGroup Pnode Idents PrintTypes.
#[local] Open Scope cstr_scope.

(** The bits of the argument [vercode]. *)
Definition AYV_LTREE : Z := 0x01.
Definition AYV_YTREE : Z := 0x02.
Definition AYV_YTREE_AFTER_TRANS : Z := 0x04.
Definition AYV_YNODE_ID_IN_YANG : Z := 0x08.
Definition AYV_PTREE : Z := 0x10.
Definition verbose (vercode mask : Z) : bool := negb (Z.land vercode mask =? 0)%Z.

(** ** Context and callbacks *)

(** [struct lprinter_ctx] without its callbacks: the indentation, the node and
    the output. *)
Record lprinter_ctx (D : Type) := Ctx { cspace : Z; cdata : D; cout : cstr }.
Arguments Ctx {_} _ _ _.
Arguments cspace {_} _.
Arguments cdata {_} _.
Arguments cout {_} _.

(** [struct lprinter_ctx_f]. *)
Record lprinter_ctx_f (D : Type) := Funcs {
  fmain : option (lprinter_ctx D → res (lprinter_ctx D));
  ffilter : option (lprinter_ctx D → bool);
  ftransition : lprinter_ctx D → res (lprinter_ctx D);
  fextension : option (lprinter_ctx D → res (lprinter_ctx D))
}.
Arguments Funcs {_} _ _ _ _.
Arguments fmain {_} _.
Arguments ffilter {_} _.
Arguments ftransition {_} _.
Arguments fextension {_} _.

Section context.
Context {D : Type}.

Definition set_cspace (x : Z) (c : lprinter_ctx D) : lprinter_ctx D := Ctx x (cdata c) (cout c).
Definition set_cdata (x : D) (c : lprinter_ctx D) : lprinter_ctx D := Ctx (cspace c) x (cout c).
Definition ly_print (s : list cstr) (c : lprinter_ctx D) : lprinter_ctx D :=
  Ctx (cspace c) (cdata c) (cout c ++ concat s).
End context.

(** ["%*s"], a text and the end of the line. *)
Definition pline (sp : Z) (l : list cstr) : list cstr := blanks_of sp :: l ++ [[LF]].

(** ** Lenses *)

Section lens.
(** The place where libaugeas has read a lens, its printable form of the regular
    expression of a lens, and the printed address of the body of a lens. *)
Context (lens_info : lens → info) (regexp_escape : regexp → cstr) (body_pointer : lens → cstr).

Definition lens_regexp (l : lens) : regexp := Regexp (addr (pattern l)) (text (pattern l)) (nocase l).

Definition ay_print_lens_node_header (l : lens) (sp : Z) (lens_tag : string) : res (list cstr) :=
  '(name, len) ← ay_get_filename (filename (lens_info l));
  Ok (pline sp [lit " lens_tag: "; lit lens_tag]
      ++ pline sp [lit " location: "; take (len + 4) (drop name (filename (lens_info l))); lit ", ";
           decimal (first_line (lens_info l)); lit ", "; decimal (first_column (lens_info l))]).

(** The switch on the tag. *)
Definition print_lens_lines (l : lens) (sp : Z) : res (list cstr) :=
  let header := ay_print_lens_node_header l sp in
  let with_line (tag title : string) (s : cstr) :=
    h ← header tag; Ok (h ++ pline sp [lit title; s]) in
  match tag l with
  | L_DEL => with_line "L_DEL" " lens_del_regex: " (regexp_escape (lens_regexp l))
  | L_STORE => with_line "L_STORE" " lens_store_regex: " (regexp_escape (lens_regexp l))
  | L_VALUE => with_line "L_VALUE" " lens_value_string: " (lens_string l)
  | L_KEY => with_line "L_KEY" " lens_key_regex: " (regexp_escape (lens_regexp l))
  | L_LABEL => with_line "L_LABEL" " lens_label_string: " (lens_string l)
  | L_SEQ => with_line "L_SEQ" " lens_seq_string: " (lens_string l)
  | L_COUNTER => with_line "L_COUNTER" " lens_counter_string: " (lens_string l)
  | L_CONCAT => header "L_CONCAT"
  | L_UNION => header "L_UNION"
  | L_SUBTREE => header "L_SUBTREE"
  | L_STAR => header "L_STAR"
  | L_MAYBE => header "L_MAYBE"
  | L_REC => with_line "L_REC" " lens_rec_id: " (body_pointer l)
  | L_SQUARE => header "L_SQUARE"
  end%string.

Section node.
Context {D : Type}.
Implicit Types (c : lprinter_ctx D) (f : lprinter_ctx_f D).

Definition ay_print_lens_node f c (l : option lens) : res (lprinter_ctx D) :=
  if (match ffilter f with Some p => p c | None => false end) then ftransition f c
  else
    let sp := cspace c in
    let c1 := set_cspace (sp + SPACE_INDENT) (ly_print (pline sp [lit " {"]) c) in
    c2 ← match fextension f with Some e => e c1 | None => Ok c1 end;
    c3 ← match l with
         | Some l =>
             lines ← print_lens_lines l (sp + SPACE_INDENT);
             ftransition f (ly_print lines c2)
         | None => ftransition f c2
         end;
    Ok (set_cspace sp (ly_print (pline sp [lit " }"]) c3)).

Definition ay_print_lens (d : D) f (root_lense : option lens) : res cstr :=
  let ctx := Ctx 0 d [] in
  c ← match fmain f with Some main => main ctx | None => ay_print_lens_node f ctx root_lense end;
  Ok (cout c).

Definition ay_print_void c : res (lprinter_ctx D) := Ok c.

(** A function that becomes the transition, without the other callbacks. *)
Definition just_transition (tr : lprinter_ctx D → res (lprinter_ctx D)) : lprinter_ctx_f D :=
  Funcs None None tr None.
End node.

(** ** The tree of lenses *)

Fixpoint ay_print_lens_transition `{LensTags} (fuel : nat) (c : lprinter_ctx (tree lens))
  : res (lprinter_ctx (tree lens)) :=
  match fuel with
  | 0 => Fault OutOfFuel
  | S fuel' =>
      let node t c :=
        ay_print_lens_node (just_transition (ay_print_lens_transition fuel')) (set_cdata t c)
          (Some (root_data t)) in
      let '(T l ts) := cdata c in
      if AY_LENSE_HAS_ONE_CHILD (tag l) then
        match ts with t :: _ => node t c | [] => Fault NullDeref end
      else if AY_LENSE_HAS_CHILDREN (tag l) then
        (fix children ts c := match ts with
         | [] => Ok c
         | t :: ts' => c' ← node t c; children ts' c'
         end) ts c
      else if bool_decide (tag l = L_REC) && negb (rec_internal l) then
        match ts with t :: _ => node t c | [] => Fault NullDeref end
      else Ok c
  end.

(** The text, or the error code. *)
Definition ay_print_input_lenses `{LensTags} (md : amodule) : res (Z + cstr) :=
  match ay_lense_get_root md with
  | None => Ok (inl AYE_LENSE_NOT_FOUND)
  | Some t =>
      s ← ay_print_lens t (just_transition (ay_print_lens_transition (size t))) (Some (root_data t));
      Ok (inr s)
  end.

(** ** The tree of lnodes *)

Section lnodes.
Context (lm : list lnode).

Fixpoint ay_print_lnode_transition (fuel : nat) (c : lprinter_ctx nat) : res (lprinter_ctx nat) :=
  match fuel with
  | 0 => Fault OutOfFuel
  | S fuel' =>
      let nd := cdata c in
      n ← fetch lm nd;
      (fix children k iter c := match iter with
       | None => Ok c
       | Some i =>
           match k with
           | 0 => Fault OutOfFuel
           | S k' =>
               it ← fetch lm i;
               _ ← c_assert (bool_decide (parent it = Some nd));
               c' ← ay_print_lens_node (just_transition (ay_print_lnode_transition fuel'))
                      (set_cdata i c) (Some (lens_of (data it)));
               children k' (next it) c'
           end
       end) (length lm) (child n) c
  end.

(** The printed lines and the result. *)
Definition ay_test_compare (subject : string) (str1 str2 : cstr) : cstr * Z :=
  if streq str1 str2 then ([], 0%Z)
  else (concat [lit "augyang DEBUG: "; lit subject; lit " difference"; [LF]; str1; [LF];
                lit "----------------------"; [LF]; str2; [LF]], 1%Z).

(** The result and the standard output. *)
Definition ay_test_lnode_tree `{LensTags} (vercode : Z) (md : amodule) (tree : nat) : res (Z * cstr) :=
  if (vercode =? 0)%Z then Ok (0%Z, [])
  else
    r ← ay_print_input_lenses md;
    match r with
    | inl ret => Ok (ret, [])
    | inr str1 =>
        n ← fetch lm tree;
        str2 ← ay_print_lens tree (just_transition (ay_print_lnode_transition (length lm)))
                 (Some (lens_of (data n)));
        let '(o, ret) := ay_test_compare "lnode tree" str1 str2 in
        Ok (ret, o ++ (if (ret =? 0)%Z && verbose vercode AYV_LTREE then str2 ++ [LF] else []))
    end.

(** ** The tree of ynodes *)

(** The printed address of an lnode. *)
Context (lnode_pointer : option nat → cstr) (m : list ynode).

Fixpoint print_lv (fuel : nat) (iter : option nat) (ty : lv_type) (c : lprinter_ctx nat)
  : res (lprinter_ctx nat) :=
  match iter with
  | None => Ok c
  | Some i =>
      match fuel with
      | 0 => Fault OutOfFuel
      | S fuel' =>
          l ← fetch lm i;
          c' ← ay_print_lens_node (just_transition ay_print_void) c (Some (lens_of (data l)));
          nx ← ay_lnode_next_lv lm iter ty;
          print_lv fuel' nx ty c'
      end
  end.

Definition ay_print_ynode_label_value (nd : nat) (c : lprinter_ctx nat) : res (lprinter_ctx nat) :=
  n ← fetch m nd;
  if bool_decide (label (data n) = None) && bool_decide (value (data n) = None)
     || bool_decide (type (data n) = YN_ROOT)
  then Ok c
  else
    c1 ← print_lv (length lm) (label (data n)) AY_LV_TYPE_LABEL c;
    print_lv (length lm) (value (data n)) AY_LV_TYPE_VALUE c1.

Definition ynode_type_text (ty : yang_type) : string :=
  match ty with
  | YN_UNKNOWN => "YN_UNKNOWN" | YN_LEAF => "YN_LEAF" | YN_LEAFREF => "YN_LEAFREF"
  | YN_LIST => "YN_LIST" | YN_CONTAINER => "YN_CONTAINER" | YN_CASE => "YN_CASE"
  | YN_KEY => "YN_KEY" | YN_VALUE => "YN_VALUE" | YN_GROUPING => "YN_GROUPING"
  | YN_USES => "YN_USES" | YN_REC => "YN_REC" | YN_ROOT => "YN_ROOT"
  end.

(** The names of the flags that are set, each behind a blank. *)
Definition flag_names (d : ydata) : list cstr :=
  let name mask (s : string) := if has_flag d mask then lit s else [] in
  [name AY_YNODE_MAND_TRUE " mand_true"; name AY_YNODE_MAND_FALSE " mand_false";
   name AY_CHILDREN_MAND_FALSE " children_mand_false"; name AY_VALUE_MAND_FALSE " value_mand_false";
   name AY_CHOICE_MAND_FALSE " choice_mand_false"; name AY_VALUE_IN_CHOICE " value_in_choice";
   name AY_GROUPING_CHILDREN " gr_children"; name AY_GROUPING_REDUCTION " gr_reduction";
   name AY_HINT_MAND_TRUE " hint_mand_true"; name AY_HINT_MAND_FALSE " hint_mand_false";
   name AY_CHOICE_CREATED " choice_created"; name AY_WHEN_TARGET " when_target";
   name AY_GROUPING_CHOICE " gr_choice"]%string.

(** The value that [when_val] refers to. *)
Definition when_text (l : lens) : res cstr :=
  if bool_decide (tag l = L_STORE) then Ok (text (pattern l))
  else _ ← c_assert (bool_decide (tag l = L_VALUE)); Ok (lens_string l).

Definition ay_print_ynode_extension (c : lprinter_ctx nat) : res (lprinter_ctx nat) :=
  let sp := cspace c in
  n ← fetch m (cdata c);
  let d := data n in
  let head := [blanks_of sp; lit " ynode_type: "; lit (ynode_type_text (type d))] in
  let line (b : bool) l := if b then pline sp l else [] in
  if bool_decide (type d = YN_ROOT) then Ok (ly_print (head ++ [[LF]]) c)
  else
    p ← deref (parent n);
    pn ← fetch m p;
    let par := if bool_decide (type (data pn) = YN_ROOT) then lit "R00T" else decimal (id (data pn)) in
    impl ← AY_YNODE_IS_IMPLICIT_LIST lm n;
    let flags_line := [blanks_of sp; lit " flags:"] in
    let no_flags := (flags d =? 0)%Z in
    w ← match when_val d with
        | None => Ok ([] : list cstr)
        | Some i => l ← fetch lm i; s ← when_text (lens_of (data l)); Ok (pline sp [lit " when_val: "; s])
        end;
    Ok (ly_print (concat
      [head; [lit " (id: "; decimal (id d); lit ", par: "; par; lit ")"; [LF]];
       line (bool_decide (is_Some (choice d))) [lit " choice_id: "; lnode_pointer (choice d)];
       line (bool_decide (type d = YN_REC)) [lit " snode_id: "; lnode_pointer (snode d)];
       match ident d with Some s => pline sp [lit " yang_ident: "; s] | None => [] end;
       line (negb (ref d =? 0)%Z) [lit " ref_id: "; decimal (ref d)];
       if no_flags then [] else flags_line ++ flag_names d;
       if (impl : bool) then (if no_flags then flags_line else []) ++ [lit " implicit_list"] else [];
       [[LF]];
       line (negb (min_elems d =? 0)%Z) [lit " min_elems: "; decimal (min_elems d)];
       line (negb (when_ref d =? 0)%Z) [lit " when_ref: "; decimal (when_ref d)];
       w]) c).

(** [transition] is the callback, [ay_print_ynode_transition_lv]. *)
Definition ay_print_ynode_transition (transition : lprinter_ctx nat → res (lprinter_ctx nat))
    (c : lprinter_ctx nat) : res (lprinter_ctx nat) :=
  let nd := cdata c in
  n ← fetch m nd;
  (fix children k iter c := match iter with
   | None => Ok c
   | Some i =>
       match k with
       | 0 => Fault OutOfFuel
       | S k' =>
           it ← fetch m i;
           _ ← c_assert (bool_decide (parent it = Some nd));
           l ← snode_lens lm it;
           c' ← ay_print_lens_node (Funcs None None transition (Some ay_print_ynode_extension))
                  (set_cdata i c) l;
           children k' (next it) c'
       end
   end) (length m) (child n) c.

Fixpoint ay_print_ynode_transition_lv (fuel : nat) (c : lprinter_ctx nat) : res (lprinter_ctx nat) :=
  match fuel with
  | 0 => Fault OutOfFuel
  | S fuel' =>
      c1 ← ay_print_ynode_label_value (cdata c) c;
      ay_print_ynode_transition (ay_print_ynode_transition_lv fuel') c1
  end.

Definition ay_gdb_lptree (tree : nat) : res cstr :=
  ay_print_lens tree
    (Funcs None None (ay_print_ynode_transition_lv (length m)) (Some ay_print_ynode_extension)) None.

(** The standard output. *)
Definition ay_debug_ynode_tree (vercode vermask : Z) (tree : nat) : res cstr :=
  if (vercode =? 0)%Z then Ok []
  else str1 ← ay_gdb_lptree tree; Ok (if verbose vercode vermask then str1 ++ [LF] else []).
End lnodes.

(** ** Terms *)

(** What goes to the standard output; a missing subterm is a NULL pointer. *)
Fixpoint ay_term_print (t : tree tdata) (sp : Z) : cstr :=
  let '(T x ts) := t in
  let space := (sp + 3)%Z in
  let nl := LF :: blanks_of space in
  let nth k sp := match k, ts with
    | 0, t1 :: _ => ay_term_print t1 sp
    | 1, _ :: t2 :: _ => ay_term_print t2 sp
    | _, _ => []
    end in
  let binary (s : string) := lit s ++ nl ++ nth 0 space ++ nl ++ nth 1 space in
  match ttag x with
  | A_MODULE =>
      lit "MOD " ++ tname x ++ [LF]
      ++ (fix decls l := match l with [] => [] | dcl :: l' => ay_term_print dcl 0 ++ [LF] ++ decls l' end) ts
  | A_BIND => lit "- " ++ tname x ++ [LF] ++ nth 0 0%Z
  | A_LET => binary "LET"
  | A_COMPOSE => binary "COM"
  | A_UNION => binary "UNI"
  | A_MINUS => binary "MIN"
  | A_CONCAT => binary "CON"
  | A_APP => binary "APP"
  | A_VALUE =>
      lit "VAL" ++ match tvalue x with
                   | TRegexp re => lit " " ++ quoted (regexp_escape re)
                   | TString s => lit " " ++ quoted s
                   | TOther => lit "---"
                   end
  | A_IDENT => lit "IDE " ++ tname x
  | A_BRACKET => lit "BRA" ++ nl ++ nth 0 space
  | A_FUNC => lit "FUNC(" ++ tname x ++ lit ")" ++ nl ++ nth 0 space
  | A_REP => lit "REP" ++ nl ++ nth 0 space
  | A_TEST => lit " ."
  end.

Section terms.
(** The term that a pnode refers to. *)
Context (term_at : tdata → tree tdata) (pm : list pnode) (lm : list lnode) (m : list ynode).

Definition ay_pnode_get_term (nd : option nat) : res (option (tree tdata)) :=
  match nd with
  | None => Ok None
  | Some i => n ← fetch pm i; Ok (term_at <$> pterm (data n))
  end.
Definition ay_lnode_get_term (nd : option nat) : res (option (tree tdata)) :=
  match nd with
  | None => Ok None
  | Some i => n ← fetch lm i; ay_pnode_get_term (lpnode (data n))
  end.
(** The root of the ynodes holds the first lnode. *)
Definition ay_ynode_get_term (nd : option nat) : res (option (tree tdata)) :=
  match nd with
  | None => Ok None
  | Some i =>
      n ← fetch m i;
      if bool_decide (type (data n) ≠ YN_ROOT) then Ok None else ay_lnode_get_term (Some 0)
  end.

Inductive ay_print_target :=
| TPT_YNODE (nd : option nat) | TPT_LNODE (nd : option nat) | TPT_PNODE (nd : option nat)
| TPT_TERM (t : option (tree tdata)).

(** The standard output and the string that is returned: nothing is ever written
    to the memory output. *)
Definition ay_print_terms (target : ay_print_target) : res (cstr * cstr) :=
  t ← match target with
      | TPT_YNODE nd => ay_ynode_get_term nd
      | TPT_LNODE nd => ay_lnode_get_term nd
      | TPT_PNODE nd => ay_pnode_get_term nd
      | TPT_TERM t => Ok t
      end;
  Ok (match t with Some t => ay_term_print t 0 | None => [] end, []).

Definition ay_pnode_print_verbose (vercode : Z) (ptree : option nat) : res cstr :=
  if verbose vercode AYV_PTREE then
    '(o, str) ← ay_print_terms (TPT_PNODE ptree); Ok (o ++ str ++ [LF])
  else Ok [].

(** [parsed] is what [augl_parse_file] returns; the result is the error code or
    the string, and the standard output. *)
Definition ay_print_input_terms (parsed : option (tree tdata)) : res (cstr * (Z + cstr)) :=
  match parsed with
  | None => Ok ([], inl AYE_PARSE_FAILED)
  | Some t => '(o, str) ← ay_print_terms (TPT_TERM (Some t)); Ok (o, inr str)
  end.
End terms.
End lens.
