(* ===== verification/DebugTheorems.v ===== *)
(** Theorems on the printers of [src/debug.c]: the comparison of the tree of lnodes
    with the lenses it was built from. *)
From S2P Require Import Prelude CString Common ParseRegex Preorder PreorderFacts Lnode LnodeFacts LnodeTheorems Pnode PrintTypes Debug.
#[local] Open Scope cstr_scope.

(** ** What a tree of lenses is printed as *)

Section text.
Context (lens_info : lens → info) (regexp_escape : regexp → cstr) (body_pointer : lens → cstr).

Definition opening (sp : Z) : list cstr := pline sp [lit " {"].
Definition closing (sp : Z) : list cstr := pline sp [lit " }"].

(** The lens between braces, its children indented. *)
Fixpoint lens_text (sp : Z) (t : tree lens) : res cstr :=
  match t with
  | T l ts =>
      lines ← print_lens_lines lens_info regexp_escape body_pointer l (sp + SPACE_INDENT);
      kids ← (fix go ts := match ts with
              | [] => Ok []
              | t :: ts' => a ← lens_text (sp + SPACE_INDENT) t; b ← go ts'; Ok (a ++ b)
              end) ts;
      Ok (concat (opening sp) ++ concat lines ++ kids ++ concat (closing sp))
  end.
Definition lens_texts (sp : Z) : list (tree lens) → res cstr :=
  fix go ts := match ts with
  | [] => Ok []
  | t :: ts' => a ← lens_text sp t; b ← go ts'; Ok (a ++ b)
  end.

Lemma lens_text_T sp l ts :
  lens_text sp (T l ts)
  = lines ← print_lens_lines lens_info regexp_escape body_pointer l (sp + SPACE_INDENT);
    kids ← lens_texts (sp + SPACE_INDENT) ts;
    Ok (concat (opening sp) ++ concat lines ++ kids ++ concat (closing sp)).
Proof. done. Qed.

(** [P] appends [r] to the output of [c] and restores the indentation, or fails
    as [r] does. *)
Definition prints {D} (c : lprinter_ctx D) (r : res cstr) (P : res (lprinter_ctx D)) : Prop :=
  match r with
  | Ok s => ∃ d, P = Ok (Ctx (cspace c) d (cout c ++ s))
  | Err e => P = Err e
  | Fault f => P = Fault f
  end.

Section prints.
Context {D : Type}.
Implicit Types (c : lprinter_ctx D).

Lemma prints_nothing c : prints c (Ok []) (Ok c).
Proof. exists (cdata c). rewrite app_nil_r. by destruct c. Qed.

Lemma prints_seq c r1 r2 P Q :
  prints c r1 P → (∀ c', cspace c' = cspace c → prints c' r2 (Q c')) →
  prints c (a ← r1; b ← r2; Ok (a ++ b)) (c' ← P; Q c').
Proof.
  intros H1 H2. destruct r1 as [a| |]; cbn in H1; [|by subst P..].
  destruct H1 as [d ->]. rewrite !bind_Ok.
  specialize (H2 (Ctx (cspace c) d (cout c ++ a)) eq_refl).
  destruct r2 as [b| |]; cbn in H2 |- *; [|done..]. destruct H2 as [d' ->].
  exists d'. by rewrite app_assoc.
Qed.

Lemma prints_node (tr : lprinter_ctx D → res (lprinter_ctx D)) c l ts :
  (∀ c', cdata c' = cdata c → cspace c' = (cspace c + SPACE_INDENT)%Z →
    prints c' (lens_texts (cspace c') ts) (tr c')) →
  prints c (lens_text (cspace c) (T l ts))
    (ay_print_lens_node lens_info regexp_escape body_pointer (just_transition tr) c (Some l)).
Proof.
  intros Htr. rewrite lens_text_T. unfold ay_print_lens_node. cbn [ffilter fextension ftransition just_transition].
  rewrite bind_Ok.
  destruct (print_lens_lines _ _ _ l _) as [lines| |]; [|done..]. rewrite !bind_Ok.
  match goal with |- context [tr ?c1] => specialize (Htr c1 eq_refl eq_refl) end.
  cbn [cspace] in Htr. destruct (lens_texts _ ts) as [kids| |]; cbn in Htr |- *; [|by rewrite Htr..].
  destruct Htr as [d ->]. cbn. exists d. unfold ly_print, set_cspace. cbn.
  by rewrite <- !app_assoc.
Qed.
End prints.

(** ** The printer of lenses *)

Section lenses.
Context `{LensTagOrder}.

Abbreviation lens_transition := (ay_print_lens_transition lens_info regexp_escape body_pointer).

Lemma root_visited t : root_data (visited t) = root_data t.
Proof. destruct t as [l ts]. cbn. by repeat case_match. Qed.

Lemma lens_node_prints fuel t c :
  cdata c = t →
  (∀ c', cdata c' = t → prints c' (lens_texts (cspace c') (subtrees (visited t))) (lens_transition fuel c')) →
  prints c (lens_text (cspace c) (visited t))
    (ay_print_lens_node lens_info regexp_escape body_pointer (just_transition (lens_transition fuel))
       c (Some (root_data t))).
Proof.
  intros Hd Htr. rewrite <- (root_visited t). destruct (visited t) as [l ts] eqn:Hv. cbn in Htr |- *.
  apply prints_node. intros c' Hd' _. apply Htr. congruence.
Qed.

(** What the loop over several children prints. *)
Lemma lens_children_print fuel ts c :
  (∀ t c', t ∈ ts → cdata c' = t →
    prints c' (lens_text (cspace c') (visited t))
      (ay_print_lens_node lens_info regexp_escape body_pointer (just_transition (lens_transition fuel))
         c' (Some (root_data t)))) →
  prints c (lens_texts (cspace c) (map visited ts))
    ((fix children ts c := match ts with
      | [] => Ok c
      | t :: ts' =>
          c' ← ay_print_lens_node lens_info regexp_escape body_pointer
                 (just_transition (lens_transition fuel)) (set_cdata t c) (Some (root_data t));
          children ts' c'
      end) ts c).
Proof.
  revert c. induction ts as [|t ts IH]; intros c Ht; cbn [map lens_texts]; [apply prints_nothing|].
  apply prints_seq.
  - apply (Ht t (set_cdata t c)); [set_solver|done].
  - intros c' <-. apply IH. intros t' c1 Hin. apply Ht. set_solver.
Qed.

Lemma lens_single_prints fuel t c :
  (∀ c', cdata c' = t →
    prints c' (lens_text (cspace c') (visited t))
      (ay_print_lens_node lens_info regexp_escape body_pointer (just_transition (lens_transition fuel))
         c' (Some (root_data t)))) →
  prints c (lens_texts (cspace c) [visited t])
    (ay_print_lens_node lens_info regexp_escape body_pointer (just_transition (lens_transition fuel))
       (set_cdata t c) (Some (root_data t))).
Proof.
  intros Ht. specialize (Ht (set_cdata t c) eq_refl). cbn [lens_texts].
  change (cspace (set_cdata t c)) with (cspace c) in Ht.
  destruct (lens_text _ _) as [s| |]; [|done..]. cbn in Ht |- *. by rewrite app_nil_r.
Qed.

Lemma lens_transition_prints fuel t c :
  lense_ok t = true → (size t <= fuel)%nat → cdata c = t →
  prints c (lens_texts (cspace c) (subtrees (visited t))) (lens_transition fuel c).
Proof.
  revert t c. induction fuel as [|fuel IH]; intros t c Hok Hf Hd; [pose proof (size_pos t); lia|].
  assert (∀ t' c', lense_ok t' = true → (size t' <= fuel)%nat → cdata c' = t' →
    prints c' (lens_text (cspace c') (visited t'))
      (ay_print_lens_node lens_info regexp_escape body_pointer (just_transition (lens_transition fuel))
         c' (Some (root_data t')))) as Hnode.
  { intros t' c' Hok' Hf' Hd'. apply lens_node_prints; [done|]. intros c1. by apply IH. }
  clear IH. destruct t as [l ts]. rewrite size_T in Hf. cbn [ay_print_lens_transition]. rewrite Hd.
  cbn [visited lense_ok] in Hok |- *.
  destruct (is_leaf_lense l) eqn:Hleaf.
  { cbn [subtrees lens_texts]. unfold is_leaf_lense in Hleaf. revert Hleaf.
    rewrite tags_no_child, tags_one_child. unfold AY_LENSE_HAS_CHILDREN.
    destruct (tag l), (rec_internal l); try (intros; apply prints_nothing); done. }
  destruct ts as [|t ts]; [done|]. cbn [orb] in Hok.
  apply andb_true_iff in Hok as [Ht Hts]. cbn [sizes] in Hf.
  destruct (has_single_child l) eqn:Hs.
  { cbn [map take subtrees]. rewrite take_0.
    enough (prints c (lens_texts (cspace c) [visited t])
      (ay_print_lens_node lens_info regexp_escape body_pointer (just_transition (lens_transition fuel))
         (set_cdata t c) (Some (root_data t)))) as Hp.
    { revert Hleaf Hs. unfold is_leaf_lense, has_single_child, AY_LENSE_HAS_CHILDREN.
      rewrite tags_no_child, tags_one_child. destruct (tag l), (rec_internal l); done. }
    apply lens_single_prints. intros c' Hd'. apply Hnode; [done|lia|done]. }
  cbn [subtrees]. cbn [orb] in Hts.
  assert (AY_LENSE_HAS_ONE_CHILD (tag l) = false ∧ AY_LENSE_HAS_CHILDREN (tag l) = true) as [-> ->].
  { revert Hleaf Hs. unfold is_leaf_lense, has_single_child, AY_LENSE_HAS_CHILDREN.
    rewrite tags_no_child, !tags_one_child. by destruct (tag l), (rec_internal l). }
  apply (lens_children_print fuel (t :: ts) c). intros t' c' Hin.
  assert (lense_ok t' = true ∧ (size t' <= fuel)%nat) as [Hok' Hf']; [|by apply Hnode].
  apply elem_of_cons in Hin as [->|Hin]; [split; [done|lia]|].
  split; [by apply (proj1 (forallb_forall _ _) Hts), list_elem_of_In|].
  clear -Hf Hin. induction Hin; cbn [sizes] in Hf; [lia|]. apply IHHin. lia.
Qed.

Lemma input_lenses_printed md t :
  ay_lense_get_root md = Some t → lense_ok t = true →
  ay_print_input_lenses lens_info regexp_escape body_pointer md
  = s ← lens_text 0 (visited t); Ok (inr s).
Proof.
  intros Hr Hok. unfold ay_print_input_lenses, ay_print_lens. rewrite Hr. cbn [fmain just_transition].
  assert (prints (Ctx 0 t []) (lens_text 0 (visited t))
    (ay_print_lens_node lens_info regexp_escape body_pointer
      (just_transition (lens_transition (size t))) (Ctx 0 t []) (Some (root_data t)))) as Hp.
  { apply (lens_node_prints (size t) t (Ctx 0 t []) eq_refl).
    intros c'. by apply lens_transition_prints. }
  unfold prints in Hp. destruct (lens_text 0 _); [|by rewrite Hp..]. by destruct Hp as [d ->].
Qed.
End lenses.

(** ** The printer of lnodes *)

Section lnodes.
Context (lm : list lnode).

Abbreviation lnode_transition := (ay_print_lnode_transition lens_info regexp_escape body_pointer lm).
Abbreviation lens_at_node := (λ u : tree ldata, tmap lens_of u).

(** The loop over the siblings from [iter]. *)
Definition lnode_siblings (fuel nd : nat) :=
  fix children (k : nat) (iter : option nat) (c : lprinter_ctx nat) : res (lprinter_ctx nat) :=
    match iter with
    | None => Ok c
    | Some i =>
        match k with
        | 0 => Fault OutOfFuel
        | S k' =>
            it ← fetch lm i;
            _ ← c_assert (bool_decide (parent it = Some nd));
            c' ← ay_print_lens_node lens_info regexp_escape body_pointer
                   (just_transition (lnode_transition fuel)) (set_cdata i c) (Some (lens_of (data it)));
            children k' (next it) c'
        end
    end.

Lemma lnode_transition_S fuel c :
  lnode_transition (S fuel) c
  = n ← fetch lm (cdata c); lnode_siblings fuel (cdata c) (length lm) (child n) c.
Proof. done. Qed.

Lemma lnode_siblings_S fuel nd k i c :
  lnode_siblings fuel nd (S k) (Some i) c
  = it ← fetch lm i;
    _ ← c_assert (bool_decide (parent it = Some nd));
    c' ← ay_print_lens_node lens_info regexp_escape body_pointer
           (just_transition (lnode_transition fuel)) (set_cdata i c) (Some (lens_of (data it)));
    lnode_siblings fuel nd k (next it) c'.
Proof. done. Qed.

(** [us] are siblings whose first one has the index [b]. *)
Lemma lnode_siblings_print fuel us : ∀ b nd pre post k c,
  (sizes us <= fuel)%nat → (sizes us <= k)%nat →
  lm = pre ++ encf b (Some nd) None us ++ post → length pre = b →
  prints c (lens_texts (cspace c) (map lens_at_node us)) (lnode_siblings fuel nd k (after us b None) c).
Proof.
  revert us. induction fuel as [|fuel IHf]; intros us.
  { intros b nd pre post k c Hf _ _ _. rewrite (sizes_0 us) by lia. destruct k; apply prints_nothing. }
  induction us as [|[d cs] us IH]; intros b nd pre post k c Hf Hk Hlm Hb;
    [destruct k; apply prints_nothing|].
  cbn [sizes] in Hf, Hk. rewrite size_T in Hf, Hk. destruct k as [|k]; [lia|].
  cbn [after map]. rewrite lnode_siblings_S. rewrite encf_cons in Hlm.
  rewrite (fetch_Some lm b _) by (rewrite Hlm; by apply lookup_app_mid).
  rewrite bind_Ok. cbn [parent next data]. rewrite (c_assert_true (bool_decide _)) by by apply bool_decide_true.
  rewrite bind_Ok.
  change (lens_texts (cspace c) (lens_at_node (T d cs) :: map lens_at_node us))
    with (a ← lens_text (cspace c) (lens_at_node (T d cs)); r ← lens_texts (cspace c) (map lens_at_node us);
          Ok (a ++ r)).
  apply prints_seq.
  - apply (prints_node (lnode_transition (S fuel)) (set_cdata b c) (lens_of d)).
    intros c' Hd' _. rewrite lnode_transition_S, Hd'. cbn [cdata set_cdata].
    rewrite (fetch_Some lm b _) by (rewrite Hlm; by apply lookup_app_mid). rewrite bind_Ok. cbn [child].
    replace (first_index (S b) cs) with (after cs (S b) None) by by destruct cs.
    assert (length lm = length pre + S (sizes cs + sizes us) + length post)%nat as Hl.
    { rewrite Hlm, !length_app. cbn [length]. rewrite length_app, !length_encf. lia. }
    set (n := Node _ _ _ _ d) in Hlm.
    apply (IHf cs (S b) b (pre ++ [n]) (encf (b + S (sizes cs)) (Some nd) None us ++ post));
      [lia|lia| |].
    + by rewrite Hlm, <- !app_assoc, <- app_comm_cons, <- app_assoc.
    + rewrite length_app, Hb. cbn. lia.
  - intros c' <-. set (n := Node _ _ _ _ d) in Hlm.
    apply (IH (b + S (sizes cs))%nat nd (pre ++ n :: encf (S b) (Some b) None cs) post); [lia|lia| |].
    + by rewrite Hlm, <- !app_assoc, <- !app_comm_cons, <- !app_assoc.
    + rewrite length_app, Hb. cbn [length]. rewrite length_encf. lia.
Qed.


Lemma lnode_tree_printed u :
  lm = enc 0 None None u →
  (n ← fetch lm 0;
   ay_print_lens lens_info regexp_escape body_pointer 0 (just_transition (lnode_transition (length lm)))
     (Some (lens_of (data n))))
  = lens_text 0 (tmap lens_of u).
Proof.
  destruct u as [d cs]. rewrite enc_T. intros Hlm. rewrite (fetch_Some lm 0 _) by by rewrite Hlm.
  rewrite bind_Ok. cbn [data]. unfold ay_print_lens. cbn [fmain just_transition].
  assert (prints (Ctx 0 0 []) (lens_text 0 (lens_at_node (T d cs)))
    (ay_print_lens_node lens_info regexp_escape body_pointer
      (just_transition (lnode_transition (length lm))) (Ctx 0 0 []) (Some (lens_of d)))) as Hp.
  { apply (prints_node (lnode_transition (length lm)) (Ctx 0 0 []) (lens_of d)). intros c' Hd _.
    assert (length lm = S (sizes cs)) as Hl by (rewrite Hlm; cbn [length]; by rewrite length_encf).
    rewrite Hl, lnode_transition_S, Hd. cbn [cdata].
    rewrite (fetch_Some lm 0 _) by by rewrite Hlm. rewrite bind_Ok. cbn [child].
    replace (first_index 1 cs) with (after cs 1 None) by by destruct cs.
    eapply (lnode_siblings_print _ cs 1 0 [_] []); [lia|lia| |done].
    rewrite app_nil_r. exact Hlm. }
  unfold prints in Hp. destruct (lens_text 0 _); [|by rewrite Hp..]. by destruct Hp as [d' ->].
Qed.
End lnodes.

Lemma lens_of_mk module_by_lens (t : tree lens) :
  tmap lens_of (tmap (mk module_by_lens) t) = t.
Proof.
  induction t as [l ts IH] using tree_nested_ind. cbn. f_equal.
  induction IH as [|t ts Ht _ IHl]; [done|]. cbn. by rewrite Ht, IHl.
Qed.

(** ** Names of files *)

Definition named (l : lens) : Prop := ∃ r, ay_get_filename (filename (lens_info l)) = Ok r.

Lemma lens_lines_named l sp :
  named l → ∃ s, print_lens_lines lens_info regexp_escape body_pointer l sp = Ok s.
Proof.
  intros [[name len] Hr]. unfold print_lens_lines, ay_print_lens_node_header. rewrite Hr.
  destruct (tag l); rewrite ?bind_Ok; eauto.
Qed.

Lemma lens_text_named t : ∀ sp, Forall named (preorder t) → ∃ s, lens_text sp t = Ok s.
Proof.
  induction t as [l ts IH] using tree_nested_ind. intros sp. rewrite preorder_T. intros [Hl Hts]%Forall_cons.
  rewrite lens_text_T. destruct (lens_lines_named l (sp + SPACE_INDENT) Hl) as [lines ->]. rewrite bind_Ok.
  enough (∃ s, lens_texts (sp + SPACE_INDENT) ts = Ok s) as [s ->] by eauto.
  induction IH as [|t ts Ht _ IHl]; [by exists []|]. cbn in Hts. apply Forall_app in Hts as [H1 H2].
  destruct (Ht (sp + SPACE_INDENT)%Z H1) as [a Ha], (IHl H2) as [b Hb]. exists (a ++ b).
  change (lens_texts (sp + SPACE_INDENT) (t :: ts))
    with (a ← lens_text (sp + SPACE_INDENT) t; b ← lens_texts (sp + SPACE_INDENT) ts; Ok (a ++ b)).
  by rewrite Ha, Hb.
Qed.
End text.

(** ** Claims *)

(** C31: The comparison of [ay_test_lnode_tree] never finds a difference: the tree
    of lnodes that [ay_lnode_create_tree] makes of the lenses of a module is
    printed, by following its links, as the same text as the lenses themselves,
    provided that the name of every file has an extension.  That text is the
    visited lenses, each between braces and indented below its parent, and goes
    to the standard output if the bit for it is set. *)
Theorem lnode_tree_agrees `{LensTagOrder} lens_info regexp_escape body_pointer module_by_lens l0
    (md : amodule) (t : tree lens) (vercode : Z) :
  ay_lense_get_root md = Some t → lense_ok t = true → (Z.of_nat (size (visited t)) < 2 ^ 32)%Z →
  Forall (named lens_info) (preorder (visited t)) →
  ∃ lt str,
    ay_lnode_create_tree module_by_lens t (LTree (blanks l0 (size (visited t))) 0) 0 = Ok lt ∧
    lens_text lens_info regexp_escape body_pointer 0 (visited t) = Ok str ∧
    ay_test_lnode_tree lens_info regexp_escape body_pointer (lmem lt) vercode md 0
    = Ok (0%Z, if verbose vercode AYV_LTREE then str ++ [LF] else []).
Proof.
  intros Hr Hok Hlt Hn. destruct (lens_text_named lens_info regexp_escape body_pointer _ 0 Hn) as [str Hs].
  eexists _, str. split; [by apply create_tree_alone|]. split; [done|]. cbn [lmem].
  unfold ay_test_lnode_tree. destruct (vercode =? 0)%Z eqn:Hv.
  { apply Z.eqb_eq in Hv. by subst vercode. }
  rewrite (input_lenses_printed _ _ _ md t Hr Hok), Hs, !bind_Ok.
  pose proof (lnode_tree_printed lens_info regexp_escape body_pointer _ (lnodes module_by_lens t) eq_refl) as Hp.
  unfold lnodes in Hp at 4. rewrite lens_of_mk, Hs in Hp. revert Hp.
  destruct (fetch _ 0) as [n| |]; [|done..]. rewrite !bind_Ok. intros ->. rewrite bind_Ok.
  unfold ay_test_compare, streq. rewrite bool_decide_true by done. cbn.
  by destruct (verbose vercode AYV_LTREE).
Qed.

(** ** Witnesses *)

Definition example_info (l : lens) : info := Info 1 2 1 9 (lit "/usr/share/augeas/lenses/hosts.aug").
Definition example_module : amodule := AModule 0 (lit "Hosts") (Some example_lense) [].

Theorem lnode_tree_agrees_witness :
  ∃ lt str,
    ay_lnode_create_tree (λ _, None) example_lense
      (LTree (blanks (leaf_lens L_DEL []) (size (visited example_lense))) 0) 0 = Ok lt ∧
    lens_text example_info re_pattern (λ _, []) 0 (visited example_lense) = Ok str ∧
    ay_test_lnode_tree example_info re_pattern (λ _, []) (lmem lt) 1 example_module 0
    = Ok (0%Z, if verbose 1 AYV_LTREE then str ++ [LF] else []).
Proof.
  apply (lnode_tree_agrees example_info re_pattern (λ _, []) (λ _, None) (leaf_lens L_DEL []) example_module
    example_lense 1); [reflexivity|reflexivity|reflexivity|].
  repeat constructor; eexists; reflexivity.
Defined.

(** The head of the text. *)
Example printed_lenses :
  (s ← lens_text example_info re_pattern (λ _, []) 0 (visited example_lense); Ok (take 76 s))
  = Ok (lit " {" ++ [LF] ++ lit "   lens_tag: L_UNION" ++ [LF] ++ lit "   location: hosts.aug, 1, 2" ++ [LF]
        ++ lit "   {" ++ [LF] ++ lit "     lens_tag: L_S").
Proof. vm_compute. reflexivity. Qed.
