(* ===== verification/Augyang.v ===== *)
(** [augyang_print_yang] of [src/augyang.c]: from a module to the printed YANG.  The
    first half creates the trees; its last step ignores the code of
    [ay_ynode_create_tree], so that the second half is defined for the root that a
    successful creation gives.  Both also return what goes to the standard output. *)
From S2P Require Import Prelude CString Common ParseRegex Preorder Lnode Ynode Forest YnodeQuery YnodeRules YnodeMandatory Dnode TransBase TransGroup Pnode Ident Regex Names Idents TransIdent PrintTypes Printer Debug.

Definition UINT32_MAX : Z := 2 ^ 32 - 1.

Section augyang.
Context `{LensTags} `{LensPointers} `{PointerBytes nat}.
Context (modules : list amodule) (module_by_lens : lens → option amodule) (lens_info : lens → info)
  (regexp_literal : cstr → cstr) (regexp_filename : lens → cstr).
(** What the debug output uses. *)
Context (regexp_escape : regexp → cstr) (body_pointer : lens → cstr) (lnode_pointer : option nat → cstr)
  (term_at : tdata → tree tdata) (vercode : Z).
(** The arrays that are allocated, the local buffers, [realloc], [augl_parse_file]. *)
Context (new_lnodes : nat → list lnode) (buffer : buf)
  (fresh : ytree → Z → list ynode) (moved : ytree → Z → option (nat → nat)) (parse_file : cstr → option term).

(** The file of the lens, from its [info]. *)
Definition lens_file (l : lens) : cstr := filename (lens_info l).

(** The output, the code that is ignored, the root, the lnodes and pnodes.  The result
    of the comparison of the lnodes is ignored as well. *)
Definition create_trees (md : option amodule) : res (cstr * Z * yroot * list lnode * list pnode) :=
  match md with
  | None => Err AYE_LENSE_NOT_FOUND
  | Some md =>
      match ay_lense_get_root md with
      | None => Err AYE_LENSE_NOT_FOUND
      | Some t =>
          c ← ay_lense_summary t (Counters 0 0 0);
          if (UINT32_MAX <? u64 (yforest_size c + 1))%Z then Err AYE_MEMORY
          else
            lt ← ay_lnode_create_tree module_by_lens t (LTree (new_lnodes (Z.to_nat (ltree_size c))) 0) 0;
            let ret := ay_lnode_tree_check (lcount lt) md in
            if negb (ret =? 0)%Z then Err ret
            else
              '(_, out1) ← ay_test_lnode_tree lens_info regexp_escape body_pointer (lmem lt) vercode md 0;
              '(lm, pm) ← ay_pnode_create modules lens_info (parse_file (lens_file (root_data t))) (lmem lt) (lcount lt);
              out2 ← ay_pnode_print_verbose regexp_escape term_at pm lm [] vercode (Some 0);
              '(code, root, lm') ←
                ay_ynode_create_tree buffer lm (Z.to_nat (tpatt_size c))
                  (replicate (Z.to_nat (yforest_size c + 1)) zero_node);
              Ok (out1 ++ out2, code, root, lm', pm)
      end
  end.

(** An empty dictionary of the allocated size. *)
Definition new_dict (n : nat) : dict nat := Dict (replicate n (DNode 0 None)) 0.

Definition state_of_root (root : yroot) (lm : list lnode) (pm : list pnode) : pipeline :=
  State (yr_tree root) lm pm (new_dict (yr_labels root)) (new_dict (yr_values root)).

Definition debug_ynodes (vermask : Z) (lm : list lnode) (m : list ynode) : res cstr :=
  ay_debug_ynode_tree lens_info regexp_escape body_pointer lm lnode_pointer m vercode vermask 0.

(** The transformations and the printing: the output, the text and the code. *)
Definition transform_and_print (md : amodule) (root : yroot) (lm : list lnode) (pm : list pnode)
  : res (cstr * (cstr * Z)) :=
  out1 ← debug_ynodes AYV_YTREE lm (mem (yr_tree root));
  st ← ay_ynode_transformations modules md (yr_patt_table root) buffer fresh moved (state_of_root root lm pm);
  out2 ← debug_ynodes AYV_YTREE_AFTER_TRANS (st_lnodes st) (mem (st_tree st));
  text ← ay_print_yang modules md regexp_literal regexp_filename (st_lnodes st)
    (mem (st_tree st)) (yr_patt_table root) (st_labels st) (st_values st)
    (verbose vercode AYV_YNODE_ID_IN_YANG) buffer
    (count (st_tree st)) (st_pnodes st);
  Ok (out1 ++ out2, text).
End augyang.
