(* ===== verification/Edits.v ===== *)
(** Edits of a tree whose result is known only as far as the invariant goes: the
    array, which keeps its size, represents a tree.  The statements are in the form
    [runs], for the passes that edit at many places. *)
From S2P Require Import Prelude CString Common ParseRegex Preorder PreorderFacts Runs Lnode Ynode YnodeFacts YnodeSpec YnodeTheorems Forest YnodeQuery YnodeRules YnodeMandatory QueryFacts MandatoryTheorems TransBase.

(** The array of [L] elements represents a tree. *)
Definition tree_state (L : nat) (s : ytree) : Prop := (∃ t, repr s t) ∧ length (mem s) = L.

(** The index of a node, and of a node that is not the root. *)
Definition valid (s : ytree) (i : nat) : Prop := (i < count s)%nat.
Definition inner (s : ytree) (i : nat) : Prop := (0 < i < count s)%nat.
Definition valid_opt (s : ytree) (o : option nat) : Prop := ∀ i, o = Some i → valid s i.

Section edits.
Context (L : nat).
Implicit Types (s : ytree) (i j : nat).

Lemma state_forward s : tree_state L s → forward (count s) (mem s).
Proof. intros [[t Hr] _]. by eapply repr_forward. Qed.

Lemma state_length s : tree_state L s → (count s <= L)%nat.
Proof. intros H. pose proof (forward_length (state_forward s H)). destruct H as [_ HL]. lia. Qed.

(** ** Places *)

(** A place of the tree for an index. *)
Lemma state_place s i :
  tree_state L s → valid s i →
  ∃ c d cs, repr_in s c [T d cs] ∧ hole c = i.
Proof.
  intros [[t Hr] _] Hi. destruct (Hr) as (_ & Hc & _).
  destruct (locate_node t i) as (c & d & cs & Hp & Hh); [unfold valid in Hi; lia|].
  exists c, d, cs. split; [by exists t|done].
Qed.

Lemma inner_place s i :
  tree_state L s → inner s i →
  ∃ pd ls rs c d cs, repr_in s (Frame pd ls rs :: c) [T d cs] ∧ hole (Frame pd ls rs :: c) = i.
Proof.
  intros Hs Hi. destruct (state_place s i Hs) as (c & d & cs & Hr & Hh); [unfold inner, valid in *; lia|].
  destruct c as [|[pd ls rs] c]; [cbn in Hh; unfold inner in Hi; lia|]. by exists pd, ls, rs, c, d, cs.
Qed.

Lemma state_of_place s s' c f :
  tree_state L s → repr_in s' c f → arrsize s' = arrsize s → tree_state L s'.
Proof.
  intros [[t Hr] HL] (t' & _ & Hr') Ha. split; [by exists t'|].
  destruct Hr as (_ & _ & Hl & _), Hr' as (_ & _ & Hl' & _). lia.
Qed.

Lemma place_count s c f : repr_in s c f → count s = (hole c + sizes f + length (cpost c))%nat.
Proof.
  intros (t & Ht & _ & -> & _). pose proof (sizes_plug c f) as H. rewrite Ht in H. cbn in H. lia.
Qed.

(** ** Links *)

Lemma links_valid s i n : tree_state L s → valid s i → mem s !! i = Some n →
  valid_opt s (next n) ∧ valid_opt s (child n) ∧ valid_opt s (parent n) ∧
  (∀ j, next n = Some j → i < j)%nat ∧ (∀ j, child n = Some j → i < j)%nat.
Proof.
  intros Hs%state_forward Hi Hn.
  destruct (forward_lookup Hs i n Hi Hn) as (Hp & Hx & Hc & _). unfold valid_opt, valid in *.
  split_and!; intros j Hj.
  - by apply Hx.
  - by apply Hc.
  - specialize (Hp j Hj). lia.
  - by apply Hx.
  - by apply Hc.
Qed.

(** ** Edits *)

(** The number of nodes after an edit. *)
Definition edited (k : nat) (s' : ytree) : Prop := tree_state L s' ∧ count s' = k.

Lemma on_node_state s i f :
  tree_state L s → valid s i → runs (edited (count s)) (on_node s i f).
Proof.
  intros Hs Hi. destruct (state_place s i Hs Hi) as (c & d & cs & Hr & <-).
  unfold on_node. destruct (modify_data_ok s c f d cs [] Hr) as (s' & -> & Hr' & [Ha _] & Hc).
  split; [by eapply state_of_place|done].
Qed.

(** An operation that asks for space and that is known to insert one node when there
    is some. *)
Lemma inserted_runs s c f f' op k :
  op = (_ ← space_for s 1; k) →
  tree_state L s → repr_in s c f → sizes f' = S (sizes f) →
  (has_space s 1 → ∃ s', op = Ok s' ∧ YnodeSpec.inserted c s s' f') →
  runs (λ s', edited (S (count s)) s' ∧ repr_in s' c f') op.
Proof.
  intros Hop Hs Hr Hsz Hok. destruct (decide (Z.of_nat 1 + Z.of_nat (count s) ≤ arrsize s)%Z) as [Hsp|Hsp].
  - destruct (Hok Hsp) as (s' & -> & Hr' & Ha & _). split; [|done]. split; [by eapply state_of_place|].
    rewrite (place_count _ _ _ Hr), (place_count _ _ _ Hr'). lia.
  - rewrite Hop. unfold space_for. replace (_ <=? _)%Z with false; [done|].
    symmetry. apply Z.leb_gt. lia.
Qed.

Lemma inserted_state s c f f' op k :
  op = (_ ← space_for s 1; k) →
  tree_state L s → repr_in s c f → sizes f' = S (sizes f) →
  (has_space s 1 → ∃ s', op = Ok s' ∧ YnodeSpec.inserted c s s' f') →
  runs (edited (S (count s))) op.
Proof. intros. eapply runs_mono; [by eapply inserted_runs|]. by intros ? []. Qed.

Lemma insert_child_place s c d cs :
  tree_state L s → repr_in s c [T d cs] →
  runs (λ s', edited (S (count s)) s' ∧ repr_in s' c [T d (T (new_data (idcnt s)) [] :: cs)])
    (ay_ynode_insert_child s (hole c)).
Proof.
  intros Hs Hr. eapply (inserted_runs s c [T d cs]); [done|done|done| |].
  - cbn [sizes]. rewrite !size_T. cbn [sizes]. rewrite size_T. cbn. lia.
  - intros Hsp. by apply insert_child_ok.
Qed.

Lemma insert_child_state s i :
  tree_state L s → valid s i → runs (edited (S (count s))) (ay_ynode_insert_child s i).
Proof.
  intros Hs Hi. destruct (state_place s i Hs Hi) as (c & d & cs & Hr & <-).
  eapply runs_mono; [by eapply insert_child_place|]. by intros ? [].
Qed.

Lemma insert_sibling_place s pd ls rs c d cs :
  tree_state L s → repr_in s (Frame pd ls rs :: c) [T d cs] →
  runs (λ s', edited (S (count s)) s' ∧ repr_in s' (Frame pd ls rs :: c) [T d cs; T (new_data (idcnt s)) []])
    (ay_ynode_insert_sibling s (hole (Frame pd ls rs :: c))).
Proof.
  intros Hs Hr. eapply (inserted_runs s (Frame pd ls rs :: c) [T d cs]); [done|done|done| |].
  - cbn [sizes]. rewrite !size_T. cbn. lia.
  - intros Hsp. by eapply insert_sibling_ok.
Qed.

Lemma insert_sibling_state s i :
  tree_state L s → inner s i → runs (edited (S (count s))) (ay_ynode_insert_sibling s i).
Proof.
  intros Hs Hi. destruct (inner_place s i Hs Hi) as (pd & ls & rs & c & d & cs & Hr & <-).
  eapply runs_mono; [by eapply insert_sibling_place|]. by intros ? [].
Qed.

Lemma insert_wrapper_state s i :
  tree_state L s → inner s i → runs (edited (S (count s))) (ay_ynode_insert_wrapper s i).
Proof.
  intros Hs Hi. destruct (inner_place s i Hs Hi) as (pd & ls & rs & c & d & cs & Hr & <-).
  eapply (inserted_state s (Frame pd ls rs :: c) [T d cs] [T (new_data (idcnt s)) [T d cs]]); [done|done|done| |].
  - cbn [sizes]. rewrite !size_T. cbn [sizes]. rewrite size_T. lia.
  - intros Hsp. by apply insert_wrapper_ok.
Qed.

Lemma insert_parent_state s i :
  tree_state L s → inner s i → runs (edited (S (count s))) (ay_ynode_insert_parent s i).
Proof.
  intros Hs Hi. destruct (inner_place s i Hs Hi) as (pd & ls & rs & c & d & cs & Hr & Hh).
  assert (repr_in s c [T pd (ls ++ T d cs :: rs)]) as Hr'.
  { destruct Hr as (t & Ht & Hrep). exists t. by split. }
  eapply (inserted_state s c [T pd (ls ++ T d cs :: rs)] [T pd [T (new_data (idcnt s)) (ls ++ T d cs :: rs)]]);
    [done|done|done| |].
  - cbn [sizes]. rewrite !size_T. cbn [sizes]. rewrite size_T. lia.
  - intros Hsp. eapply insert_parent_ok; [done|done|by rewrite <- Hh|done].
Qed.

(** ** The weight of the nodes behind an index *)

Section weights.
(** It depends on the data and on whether there are descendants; a new node has none. *)
Context (w : Z * ydata → nat).
Context (Hsize : ∀ k k' d, (k =? 0)%Z = (k' =? 0)%Z → w (k, d) = w (k', d)).
Context (Hnew : ∀ k x, w (k, new_data x) = 0).

Definition weights s : list nat := w <$> (strip <$> take (count s) (mem s)).
Definition weight_from s (i : nat) : nat := sum_list (drop i (weights s)).

Lemma weights_place s c f :
  repr_in s c f → weights s = (w <$> cpre c (sizes f)) ++ (w <$> flats f) ++ (w <$> cpost c).
Proof.
  intros (t & Ht & [sp Hm] & Hc & _). unfold weights.
  assert (length (enc 0 None None t) = size t) as Hlen by (rewrite <- (length_fmap strip), strip_enc; apply length_flat).
  rewrite Hm, Hc, take_app_length', strip_enc by done. pose proof (flats_plug c f) as Hp. rewrite Ht in Hp.
  cbn [flats] in Hp. rewrite app_nil_r in Hp. by rewrite Hp, !fmap_app.
Qed.

Lemma weight_from_step s i n :
  valid s i → mem s !! i = Some n → weight_from s i = (w (strip n) + weight_from s (S i))%nat.
Proof.
  intros Hi Hn. unfold weight_from. rewrite (drop_S (weights s) (w (strip n)) i); [done|].
  unfold weights. rewrite !list_lookup_fmap, lookup_take_lt by apply Hi. by rewrite Hn.
Qed.

Lemma weight_from_end s i : (count s <= i)%nat → weight_from s i = 0.
Proof. intros Hi. unfold weight_from. rewrite drop_ge; [done|]. unfold weights. rewrite !length_fmap, length_take. lia. Qed.

Lemma cpre_weights c n n' : (0 < n)%nat → (0 < n')%nat → w <$> cpre c n = w <$> cpre c n'.
Proof.
  revert n n'. induction c as [|[d ls rs] c IH]; intros n n' Hn Hn'; [done|]. cbn [cpre].
  rewrite !fmap_app, !fmap_cons. f_equal; [apply IH; lia|]. f_equal. apply Hsize.
  rewrite !(proj2 (Z.eqb_neq _ _)) by lia. done.
Qed.

Lemma insert_child_weight s i :
  tree_state L s → valid s i →
  runs (λ s', edited (S (count s)) s' ∧ weight_from s' (S i) = weight_from s (S i)) (ay_ynode_insert_child s i).
Proof.
  intros Hs Hi. destruct (state_place s i Hs Hi) as (c & d & cs & Hr & <-).
  eapply runs_mono; [by eapply insert_child_place|]. intros s' [He Hr']. split; [done|].
  unfold weight_from. rewrite (weights_place _ _ _ Hr), (weights_place _ _ _ Hr').
  cbn [flats]. rewrite !flat_T. cbn [flats]. rewrite flat_T. cbn [sizes flats app].
  rewrite !fmap_cons, !app_nil_r. cbn [app].
  rewrite !drop_app_ge by (rewrite length_fmap, length_cpre; lia). rewrite !length_fmap, !length_cpre.
  replace (S (hole c) - hole c)%nat with 1 by lia. cbn [drop sum_list sum_list_with foldr]. by rewrite Hnew.
Qed.

Lemma insert_sibling_weight s i j :
  tree_state L s → inner s j → (i <= j)%nat →
  runs (λ s', edited (S (count s)) s' ∧ weight_from s' (S i) = weight_from s (S i)) (ay_ynode_insert_sibling s j).
Proof.
  intros Hs Hj Hij. destruct (inner_place s j Hs Hj) as (pd & ls & rs & c & d & cs & Hr & Hh). rewrite <- Hh.
  eapply runs_mono; [by eapply insert_sibling_place|]. intros s' [He Hr']. split; [done|].
  unfold weight_from. rewrite (weights_place _ _ _ Hr), (weights_place _ _ _ Hr').
  set (g := Frame pd ls rs :: c) in *. cbn [flats sizes]. rewrite !app_nil_r.
  rewrite (cpre_weights g _ (size (T d cs) + 0)) by (rewrite size_T; lia).
  rewrite (flat_T (new_data _)). cbn [sizes flats]. rewrite fmap_app, fmap_cons, Hnew, <- app_assoc. cbn [fmap list_fmap app].
  set (A := w <$> cpre g _). set (B := w <$> flat _). set (C := w <$> cpost g).
  assert (S i <= length (A ++ B))%nat as Hlen.
  { unfold A, B. rewrite length_app, !length_fmap, length_cpre, length_flat, size_T. lia. }
  rewrite !app_assoc. rewrite !(drop_app_le (A ++ B)) by done. rewrite !sum_list_with_app. done.
Qed.

Lemma sum_list_le l l' i : Forall2 le l' l → (sum_list (drop i l') <= sum_list (drop i l))%nat.
Proof.
  intros H%(Forall2_drop _ _ _ i). induction H as [|x y l1 l2 Hxy H IH]; [done|]. by apply Nat.add_le_mono.
Qed.

(** An assignment that does not make the node heavier. *)
Lemma on_node_weight s i j f :
  tree_state L s → valid s i → (∀ k d, w (k, f d) <= w (k, d))%nat →
  runs (λ s', edited (count s) s' ∧ (weight_from s' j <= weight_from s j)%nat) (on_node s i f).
Proof.
  intros Hs Hi Hf. destruct (state_place s i Hs Hi) as (c & d & cs & Hr & <-).
  unfold on_node. destruct (modify_data_ok s c f d cs [] Hr) as (s' & -> & Hr' & [Ha _] & Hc).
  split; [split; [by eapply state_of_place|done]|]. apply sum_list_le.
  rewrite (weights_place _ _ _ Hr), (weights_place _ _ _ Hr'). apply Forall2_app; [done|]. apply Forall2_app; [|done].
  cbn [flats]. rewrite !app_nil_r, !flat_T, !fmap_cons. constructor; [apply Hf|done].
Qed.
End weights.

(** ** Reading members *)

Lemma dget_runs s i : runs any (dget s i).
Proof. unfold dget. runs. Qed.

Definition behind (s : ytree) (i j : nat) : Prop := (i < j < count s)%nat.

Lemma next_of_state s i :
  tree_state L s → valid s i → runs (λ o, ∀ j, o = Some j → behind s i j) (next_of s i).
Proof.
  intros Hs Hi. unfold next_of. eapply runs_bind; [apply runs_fetch|]. intros n Hn. apply runs_Ok.
  destruct (links_valid s i n Hs Hi Hn) as (Hv & _ & _ & Hx & _). intros j Hj.
  split; [by apply Hx|by apply Hv].
Qed.

Lemma child_of_state s i :
  tree_state L s → valid s i → runs (λ o, ∀ j, o = Some j → behind s i j) (child_of s i).
Proof.
  intros Hs Hi. unfold child_of. eapply runs_bind; [apply runs_fetch|]. intros n Hn. apply runs_Ok.
  destruct (links_valid s i n Hs Hi Hn) as (_ & Hv & _ & _ & Hx). intros j Hj.
  split; [by apply Hx|by apply Hv].
Qed.

Lemma parent_of_state s i :
  tree_state L s → valid s i → runs (valid_opt s) (parent_of s i).
Proof.
  intros Hs Hi. unfold parent_of. eapply runs_bind; [apply runs_fetch|]. intros n Hn. apply runs_Ok.
  apply (links_valid s i n Hs Hi Hn).
Qed.

Lemma next_node_state s i : tree_state L s → valid s i → runs (behind s i) (next_node s i).
Proof.
  intros Hs Hi. unfold next_node. eapply runs_bind; [by apply next_of_state|]. intros o Ho.
  eapply runs_mono; [apply runs_deref|]. done.
Qed.

Lemma child_node_state s i : tree_state L s → valid s i → runs (behind s i) (child_node s i).
Proof.
  intros Hs Hi. unfold child_node. eapply runs_bind; [by apply child_of_state|]. intros o Ho.
  eapply runs_mono; [apply runs_deref|]. done.
Qed.

Lemma parent_node_state s i : tree_state L s → valid s i → runs (valid s) (parent_node s i).
Proof.
  intros Hs Hi. unfold parent_node. eapply runs_bind; [by apply parent_of_state|]. intros o Ho.
  eapply runs_mono; [apply runs_deref|]. done.
Qed.

Lemma behind_valid s i j : behind s i j → valid s j.
Proof. unfold behind, valid. lia. Qed.
Lemma behind_inner s i j : behind s i j → inner s j.
Proof. unfold behind, inner. lia. Qed.
Lemma inner_valid s i : inner s i → valid s i.
Proof. unfold inner, valid. lia. Qed.

Lemma valid_count s s' i : (count s <= count s')%nat → valid s i → valid s' i.
Proof. unfold valid. lia. Qed.
Lemma inner_count s s' i : (count s <= count s')%nat → inner s i → inner s' i.
Proof. unfold inner. lia. Qed.

(** ** Loops *)

(** A loop along [next]: the body may insert nodes in front of the one it gives, but
    leaves no more nodes behind it. *)
Lemma walk_state {St} (tree : St → ytree) (P : St → Prop) body :
  (∀ x, P x → tree_state L (tree x)) →
  (∀ x i, P x → valid (tree x) i →
    runs (λ r, P r.1 ∧ ∀ j, r.2 = Some j → valid (tree r.1) j ∧
      (count (tree r.1) - j <= count (tree x) - i)%nat) (body x i)) →
  ∀ iter x, P x → valid_opt (tree x) iter → runs P (walk tree L body iter x).
Proof.
  intros HP Hb. enough (∀ fuel iter x, P x →
    (∀ i, iter = Some i → valid (tree x) i ∧ (count (tree x) - i <= fuel)%nat) →
    runs P (walk tree fuel body iter x)) as H.
  { intros iter x Hx Hi. apply H; [done|]. intros i ->. specialize (Hi i eq_refl).
    split; [done|]. pose proof (state_length _ (HP x Hx)). lia. }
  induction fuel as [|fuel IH]; intros [i|] x Hx Hi; try done; destruct (Hi i eq_refl) as [Hv Hf].
  - unfold valid in Hv. lia.
  - cbn [walk]. eapply runs_bind; [by apply Hb|]. intros [x' o] [Hx' Ho]. cbn [fst snd] in *.
    destruct o as [j|]; [|done]. destruct (Ho j eq_refl) as [Hj Hcj].
    eapply runs_bind; [by apply next_of_state; [apply HP|]|]. intros nx Hnx. apply IH; [done|].
    intros j' ->. specialize (Hnx j' eq_refl). unfold behind, valid in *. lia.
Qed.

(** A loop over the array: the body may insert nodes and go on behind them. *)
Lemma sweep_up {St} (tree : St → ytree) (P : St → Prop) lo body :
  (∀ x, P x → tree_state L (tree x)) →
  (∀ x i, P x → (lo <= i < count (tree x))%nat → runs (λ r, P r.1 ∧ (i <= r.2)%nat) (body x i)) →
  ∀ fuel i x, P x → (lo <= i)%nat → (L <= fuel + i)%nat → runs P (sweep tree fuel body i x).
Proof.
  intros HP Hb fuel. induction fuel as [|fuel IH]; intros i x Hx Hi Hf;
    pose proof (state_length _ (HP x Hx)) as HL; cbn [sweep].
  - by rewrite (proj2 (Nat.leb_le _ _)) by lia.
  - destruct (Nat.leb_spec (count (tree x)) i); [done|].
    eapply runs_bind; [by apply Hb|]. intros [x' i'] [Hx' Hi']. cbn [fst snd] in *.
    apply IH; [done|lia|lia].
Qed.

Lemma sweep_state {St} (tree : St → ytree) (P : St → Prop) body :
  (∀ x, P x → tree_state L (tree x)) →
  (∀ x i, P x → valid (tree x) i → (0 < i)%nat → runs (λ r, P r.1 ∧ (i <= r.2)%nat) (body x i)) →
  ∀ fuel i x, P x → (0 < i)%nat → (L <= fuel)%nat → runs P (sweep tree fuel body i x).
Proof.
  intros HP Hb fuel i x Hx Hi Hf. apply (sweep_up tree P 1); [done| |done|done|lia].
  intros y j Hy Hj. apply Hb; [done|unfold valid; lia|lia].
Qed.

Lemma sweep_nodes_state (P : ytree → Prop) body s :
  (∀ s, P s → tree_state L s) →
  (∀ s i, P s → inner s i → runs P (body s i)) → P s → runs P (sweep_nodes body s).
Proof.
  intros HP Hb Hs. unfold sweep_nodes, sweep_tree.
  apply (sweep_state (λ s, s) P); [done| |done|lia|].
  - intros x i Hx Hi H0. eapply runs_bind; [apply Hb; [done|unfold inner, valid in *; lia]|].
    intros s' Hs'. apply runs_Ok. done.
  - destruct (HP s Hs) as [_ ->]. lia.
Qed.

(** The same with a measure that may change with the index. *)
Lemma sweep_nodes_measure (μ : ytree → nat → nat) body s :
  (∀ s i, tree_state L s → inner s i →
    runs (λ s', tree_state L s' ∧ μ s' (S i) <= μ s i)%nat (body s i)) →
  tree_state L s →
  runs (λ s', tree_state L s' ∧ ∃ i, count s' <= i ∧ μ s' i <= μ s 1)%nat (sweep_nodes body s).
Proof.
  intros Hb Hs. unfold sweep_nodes, sweep_tree.
  enough (∀ fuel i s0, tree_state L s0 → (0 < i)%nat → (L <= fuel + i)%nat → (μ s0 i <= μ s 1)%nat →
    runs (λ s', tree_state L s' ∧ ∃ i, count s' <= i ∧ μ s' i <= μ s 1)%nat
      (sweep (λ s, s) fuel (λ s i, s' ← body s i; Ok (s', i)) i s0)) as H.
  { apply H; [done|lia| |done]. destruct Hs as [_ ->]. lia. }
  induction fuel as [|fuel IH]; intros i s0 Hs0 Hi Hf Hm; pose proof (state_length _ Hs0) as HL; cbn [sweep].
  - rewrite (proj2 (Nat.leb_le _ _)) by lia. split; [done|]. exists i. split; [lia|done].
  - destruct (Nat.leb_spec (count s0) i); [split; [done|by exists i]|].
    eapply (runs_bind (λ r, (tree_state L r.1 ∧ μ r.1 (S i) <= μ s0 i)%nat ∧ r.2 = i)).
    + eapply runs_bind; [apply Hb; [done|unfold inner; lia]|]. intros s' Hs'. by apply runs_Ok.
    + intros [s' i'] [[Hs' Hm'] Hi']. cbn [fst snd] in *. subst i'. apply IH; [done|lia|lia|lia].
Qed.

Lemma times_state (P : ytree → Prop) n body s :
  (∀ s, P s → runs P (body s)) → P s → runs P (times n body s).
Proof.
  intros Hb. revert s. induction n as [|n IH]; intros s Hs; [done|]. cbn [times].
  eapply runs_bind; [by apply Hb|]. exact IH.
Qed.

(** Loops that only assign members. *)
Lemma walk_all_state s f o :
  tree_state L s → valid_opt s o → runs (edited (count s)) (walk_all f o s).
Proof.
  intros Hs Ho. unfold walk_all, walk_tree. destruct (Hs) as [_ HL]. rewrite HL.
  apply (walk_state (λ s, s) (edited (count s))); [by intros x []| |done|done].
  intros x i [Hx Hc] Hi. eapply runs_bind; [by apply on_node_state|]. intros s' [Hs' Hc'].
  apply runs_Ok. cbn. split; [split; [done|congruence]|]. intros j [= <-]. unfold valid in *. lia.
Qed.

Lemma walk_choice_state s c f o :
  tree_state L s → valid_opt s o → runs (edited (count s)) (walk_choice c f o s).
Proof.
  intros Hs Ho. unfold walk_choice, walk_tree. destruct (Hs) as [_ HL]. rewrite HL.
  apply (walk_state (λ s, s) (edited (count s))); [by intros x []| |done|done].
  intros x i [Hx Hc] Hi. eapply runs_bind; [apply dget_runs|]. intros d _.
  destruct (bool_decide _); [|done]. eapply runs_bind; [by apply on_node_state|]. intros s' [Hs' Hc'].
  apply runs_Ok. cbn. split; [split; [done|congruence]|]. intros j [= <-]. unfold valid in *. lia.
Qed.
End edits.
