(* ===== verification/Shape.v ===== *)
(** The shape of the array of ynodes: the numbers of descendants without the data.  On
    this level the array is a sequence of nested intervals, the ancestors of a node are
    the nodes whose interval contains it, and an operation of [Ynode] is a change of the
    intervals; the correction of the pointers gives a tree when they are nested. *)
From S2P Require Import Prelude CString Preorder PreorderFacts Runs Ynode YnodeFacts YnodeSpec YnodeMove Edits.

(** ** Intervals *)

(** The node [i] of [n] has the descendants from [S i] up to [i + N i]. *)
Definition nest (n : nat) (N : nat → nat) : Prop :=
  ∀ i, (i < n)%nat → (i + N i < n)%nat ∧ ∀ j, (i < j <= i + N i)%nat → (j + N j <= i + N i)%nat.

Lemma nest_ext n N N' : (∀ i, (i < n)%nat → N' i = N i) → nest n N → nest n N'.
Proof.
  intros HN Hn i Hi. destruct (Hn i Hi) as [H1 H2]. rewrite HN by done. split; [done|].
  intros j Hj. rewrite HN by lia. by apply H2.
Qed.

(** Without the node [p] and its descendants. *)
Definition taken_out (N : nat → nat) (p i : nat) : nat :=
  if decide (i < p)%nat then (if decide (p <= i + N i)%nat then N i - S (N p) else N i)%nat
  else N (i + S (N p))%nat.

Lemma nest_remove n N p :
  nest n N → (p < n)%nat → nest (n - S (N p)) (taken_out N p).
Proof.
  intros Hn Hp i Hi. unfold taken_out. destruct (Hn p Hp) as [Hp1 Hp2].
  assert (∀ j, (j < p)%nat → (p <= j + N j)%nat → (p + N p <= j + N j)%nat) as Hup.
  { intros j Hj Hjp. destruct (Hn j) as [_ H]; [lia|]. apply H. lia. }
  case_decide as Hip.
  - destruct (Hn i ltac:(lia)) as [Hi1 Hi2]. pose proof (Hup i Hip). case_decide as Hin.
    + split; [lia|]. intros j Hj. case_decide as Hjp.
      * specialize (Hi2 j ltac:(lia)). pose proof (Hup j Hjp). case_decide; lia.
      * specialize (Hi2 (j + S (N p))%nat ltac:(lia)). lia.
    + split; [lia|]. intros j Hj. specialize (Hi2 j ltac:(lia)). rewrite decide_True by lia.
      rewrite decide_False by lia. lia.
  - destruct (Hn (i + S (N p))%nat ltac:(lia)) as [Hi1 Hi2]. split; [lia|].
    intros j Hj. rewrite decide_False by lia. specialize (Hi2 (j + S (N p))%nat ltac:(lia)). lia.
Qed.

(** With [m] nodes in front of the node [q]; the nodes of [G] contain them. *)
Definition put_in (N : nat → nat) (m : nat) (M : nat → nat) (q : nat) (G : nat → Prop) `{∀ i, Decision (G i)}
    (i : nat) : nat :=
  if decide (i < q)%nat then (if decide (G i) then N i + m else N i)%nat
  else if decide (i < q + m)%nat then M (i - q)%nat else N (i - m)%nat.

Lemma nest_insert n N m M q G `{∀ i, Decision (G i)} :
  nest n N → nest m M → (q <= n)%nat →
  (∀ i, (i < q)%nat → (q <= i + N i)%nat → G i) →
  (∀ i, (i < q)%nat → G i → (q <= S (i + N i))%nat) →
  (∀ i j, (i < j < q)%nat → (j <= i + N i)%nat → G j → G i) →
  nest (n + m) (put_in N m M q G).
Proof.
  intros Hn Hm Hq Hin Hend Hup i Hi. unfold put_in. case_decide as Hiq.
  - destruct (Hn i ltac:(lia)) as [Hi1 Hi2]. pose proof (Hin i Hiq) as Hini. pose proof (Hend i Hiq) as Hendi.
    case_decide as HG.
    + specialize (Hendi HG). split; [lia|]. intros j Hj. case_decide as Hjq.
      * pose proof (Hend j Hjq). destruct (decide (j <= i + N i)%nat) as [Hji|Hji]; [|lia].
        specialize (Hi2 j ltac:(lia)). case_decide; lia.
      * case_decide as Hjm; [destruct (Hm (j - q)%nat ltac:(lia)); lia|].
        specialize (Hi2 (j - m)%nat ltac:(lia)). lia.
    + assert (¬ (q <= i + N i)%nat) as Hni by tauto. split; [lia|]. intros j Hj.
      rewrite decide_True by lia. rewrite decide_False; [by apply Hi2|].
      intros HGj. apply HG, (Hup i j); [lia|lia|done].
  - case_decide as Him.
    + destruct (Hm (i - q)%nat ltac:(lia)) as [Hi1 Hi2]. split; [lia|]. intros j Hj.
      rewrite decide_False by lia. rewrite decide_True by lia. specialize (Hi2 (j - q)%nat ltac:(lia)). lia.
    + destruct (Hn (i - m)%nat ltac:(lia)) as [Hi1 Hi2]. split; [lia|]. intros j Hj.
      rewrite !decide_False by lia. specialize (Hi2 (j - m)%nat ltac:(lia)). lia.
Qed.

(** *** Places *)

(** A place [q] for new nodes: the nodes of [G], which contain it, are those above a
    node or a parent. *)
Record target (n : nat) (N : nat → nat) (G : nat → Prop) (q : nat) : Prop := {
  target_pos : (0 < q <= n)%nat;
  target_root : G 0;
  target_before i : G i → (i < q)%nat;
  target_inside i : (i < q)%nat → (q <= i + N i)%nat → G i;
  target_end i : G i → (q <= S (i + N i))%nat;
  target_up i j : (i < j < q)%nat → (j <= i + N i)%nat → G j → G i
}.

Lemma target_insert n N m M q G `{∀ i, Decision (G i)} :
  nest n N → nest m M → target n N G q →
  nest (n + m) (put_in N m M q G) ∧ put_in N m M q G 0 = (N 0 + m)%nat.
Proof.
  intros Hn Hm [Hq H0 Hb Hi He Hu]. split; [by apply nest_insert; auto; lia|].
  unfold put_in. rewrite decide_True by lia. by rewrite decide_True.
Qed.

(** Behind the root of a subtree, at its end, behind a subtree. *)
Lemma target_child n N p :
  nest n N → S (N 0) = n → (p < n)%nat → target n N (λ x, x <= p <= x + N x)%nat (S p).
Proof.
  intros Hn H0 Hp. split; [lia|lia|lia|lia|lia|]. intros i j Hij Hji HG. destruct (Hn i ltac:(lia)) as [_ H].
  specialize (H j ltac:(lia)). lia.
Qed.

Lemma target_last n N p :
  nest n N → S (N 0) = n → (p < n)%nat → target n N (λ x, x <= p <= x + N x)%nat (S (p + N p)).
Proof.
  intros Hn H0 Hp. destruct (Hn p Hp) as [Hp1 Hp2].
  assert (∀ i, (i <= p <= i + N i)%nat → (p + N p <= i + N i)%nat) as Hup.
  { intros i Hi. destruct (decide (i = p)) as [->|Hne]; [done|]. destruct (Hn i ltac:(lia)) as [_ H]. apply H. lia. }
  split; [lia|lia|lia| | |].
  - intros i Hi Hq. destruct (decide (i <= p)%nat); [lia|]. specialize (Hp2 i ltac:(lia)). lia.
  - intros i Hi. specialize (Hup i Hi). lia.
  - intros i j Hij Hji HG. cbv beta in *. destruct (Hn i ltac:(lia)) as [_ H]. specialize (H j ltac:(lia)). lia.
Qed.

Lemma target_sibling n N p :
  nest n N → S (N 0) = n → (0 < p < n)%nat → target n N (λ x, x < p <= x + N x)%nat (S (p + N p)).
Proof.
  intros Hn H0 Hp. destruct (Hn p) as [Hp1 Hp2]; [lia|].
  assert (∀ i, (i < p <= i + N i)%nat → (p + N p <= i + N i)%nat) as Hup.
  { intros i Hi. destruct (Hn i ltac:(lia)) as [_ H]. apply H. lia. }
  split; [lia|lia|lia| | |].
  - intros i Hi Hq. destruct (decide (i < p)%nat); [lia|].
    destruct (decide (i = p)) as [->|Hne]; [lia|]. specialize (Hp2 i ltac:(lia)). lia.
  - intros i Hi. specialize (Hup i Hi). lia.
  - intros i j Hij Hji HG. cbv beta in *. destruct (Hn i ltac:(lia)) as [_ H]. specialize (H j ltac:(lia)). lia.
Qed.

(** The place is not inside the subtree of [p]. *)
Definition outside (N : nat → nat) (G : nat → Prop) (q p : nat) : Prop :=
  (q <= p ∨ p + N p < q)%nat ∧ ∀ x, (p <= x <= p + N p)%nat → ¬ G x.

Definition old_index (N : nat → nat) (p i : nat) : nat := if decide (i < p)%nat then i else (i + S (N p))%nat.
Definition new_place (N : nat → nat) (p q : nat) : nat := if decide (p < q)%nat then (q - S (N p))%nat else q.

(** The same place when the subtree of [p] is taken out. *)
Lemma target_taken_out n N G q p :
  nest n N → (0 < p < n)%nat → target n N G q → outside N G q p →
  target (n - S (N p)) (taken_out N p) (λ i, G (old_index N p i)) (new_place N p q).
Proof.
  intros Hn Hp [Hq H0 Hb Hi He Hu] [Hqp Hout]. destruct (Hn p) as [Hp1 Hp2]; [lia|].
  assert (∀ j, (j < p)%nat → (p <= j + N j)%nat → (p + N p <= j + N j)%nat) as Hup.
  { intros j Hj Hjp. destruct (Hn j) as [_ H]; [lia|]. apply H. lia. }
  unfold new_place, old_index, taken_out. split.
  - case_decide; lia.
  - by rewrite decide_True by lia.
  - intros i HG. apply Hb in HG. repeat case_decide; lia.
  - intros i Hiq Hin. destruct (decide (i < p)%nat) as [Hip|Hip].
    + apply Hi; [case_decide; lia|]. pose proof (Hup i Hip). repeat case_decide; lia.
    + apply Hi; case_decide; lia.
  - intros i HG. pose proof (Hb _ HG) as Hlt. pose proof (He _ HG) as Hle.
    destruct (decide (i < p)%nat) as [Hip|Hip]; [|case_decide; lia].
    pose proof (Hup i Hip). repeat case_decide; lia.
  - intros i j Hij Hji HG. pose proof (Hb _ HG) as Hlt. destruct (decide (i < p)%nat) as [Hip|Hip].
    + pose proof (Hup i Hip). apply (Hu i _) in HG; [done|repeat case_decide; lia..].
    + rewrite !decide_False in * by lia. apply (Hu _ (j + S (N p))%nat); [lia|lia|done].
Qed.

(** ** Lists *)

Section lists.
Context {P : Type}.
Implicit Types (l k : list (Z * P)) (ts : list (tree P)).

Definition desc l (i : nat) : nat := match l !! i with Some x => Z.to_nat x.1 | None => 0 end.

Definition nested l : Prop := Forall (λ x, 0 <= x.1)%Z l ∧ nest (length l) (desc l).

Lemma desc_app_l l k i : (i < length l)%nat → desc (l ++ k) i = desc l i.
Proof. intros Hi. unfold desc. by rewrite lookup_app_l. Qed.

Lemma desc_app_r l k i : (length l <= i)%nat → desc (l ++ k) i = desc k (i - length l).
Proof. intros Hi. unfold desc. by rewrite lookup_app_r. Qed.

Lemma desc_cons_S x l i : desc (x :: l) (S i) = desc l i.
Proof. done. Qed.

Lemma nested_app l k : nested l → nested k → nested (l ++ k).
Proof.
  intros [Hl1 Hl2] [Hk1 Hk2]. split; [by apply Forall_app|]. rewrite length_app. intros i Hi.
  destruct (decide (i < length l)%nat) as [Hil|Hil].
  - destruct (Hl2 i Hil) as [H1 H2]. rewrite desc_app_l by done. split; [lia|]. intros j Hj.
    rewrite desc_app_l by lia. by apply H2.
  - destruct (Hk2 (i - length l)%nat) as [H1 H2]; [lia|]. rewrite desc_app_r by lia. split; [lia|].
    intros j Hj. rewrite desc_app_r by lia. specialize (H2 (j - length l)%nat). lia.
Qed.

Lemma nested_cons l (d : P) : nested l → nested ((Z.of_nat (length l), d) :: l).
Proof.
  intros [Hl1 Hl2]. split; [constructor; [cbn; lia|done]|]. cbn [length]. intros [|i] Hi.
  - unfold desc at 1 2 4. cbn [lookup list_lookup fst]. rewrite Nat2Z.id. split; [lia|].
    intros [|j] Hj; [lia|]. rewrite desc_cons_S. destruct (Hl2 j); lia.
  - destruct (Hl2 i) as [H1 H2]; [lia|]. rewrite desc_cons_S. split; [lia|]. intros [|j] Hj; [lia|].
    rewrite desc_cons_S. specialize (H2 j). lia.
Qed.

Lemma nested_flats ts : nested (flats ts).
Proof.
  enough (∀ n, (sizes ts < n)%nat → nested (flats ts)) by eauto.
  intros n. revert ts. induction n as [|n IH]; intros [|[d cs] ts] Hn; [lia..| |].
  - split; [constructor|]. intros i Hi. cbn in Hi. lia.
  - cbn [sizes] in Hn. rewrite size_T in Hn. cbn [flats]. rewrite flat_T. apply nested_app; [|apply IH; lia].
    rewrite <- (length_flats cs). apply nested_cons, IH. lia.
Qed.

Lemma nested_take l i : nested l → (i < length l)%nat → nested (take (desc l i) (drop (S i) l)).
Proof.
  intros [H1 H2] Hi. destruct (H2 i Hi) as [Hi1 Hi2].
  assert (∀ j, (j < desc l i)%nat → desc (take (desc l i) (drop (S i) l)) j = desc l (S i + j)) as Hd.
  { intros j Hj. unfold desc at 1. rewrite lookup_take_lt, lookup_drop by done. done. }
  split; [by apply Forall_take, Forall_drop|]. rewrite length_take, length_drop.
  intros j Hj. rewrite Hd by lia. destruct (H2 (S i + j)%nat ltac:(lia)) as [Hj1 Hj2].
  specialize (Hi2 (S i + j)%nat ltac:(lia)). split; [lia|]. intros k Hk. rewrite Hd by lia.
  specialize (Hj2 (S i + k)%nat ltac:(lia)). lia.
Qed.

Lemma nested_drop l i : nested l → nested (drop i l).
Proof.
  intros [H1 H2]. split; [by apply Forall_drop|]. rewrite length_drop. intros j Hj.
  assert (∀ j, desc (drop i l) j = desc l (i + j)) as Hd by (intros; unfold desc; by rewrite lookup_drop).
  rewrite Hd. destruct (H2 (i + j)%nat ltac:(lia)) as [Hj1 Hj2]. split; [lia|]. intros k Hk. rewrite Hd.
  specialize (Hj2 (i + k)%nat ltac:(lia)). lia.
Qed.

(** Every list of nested intervals is the preorder of a forest. *)
Lemma nested_forest l : nested l → ∃ ts, flats ts = l.
Proof.
  enough (∀ n, (length l < n)%nat → nested l → ∃ ts, flats ts = l) by eauto.
  intros n. revert l. induction n as [|n IH]; intros [|[z d] l] Hn Hl; [cbn in Hn; lia..|by exists []|].
  cbn [length] in Hn. pose proof (nested_take _ 0 Hl ltac:(cbn; lia)) as Ht.
  pose proof (nested_drop _ (S (Z.to_nat z)) Hl) as Hd. cbn [drop] in Ht, Hd.
  assert (desc ((z, d) :: l) 0 = Z.to_nat z) as Hz by done. rewrite Hz in Ht.
  destruct Hl as [Hpos Hnest]. destruct (Hnest 0 ltac:(cbn; lia)) as [H0 _]. rewrite Hz in H0. cbn in H0.
  destruct (IH (take (Z.to_nat z) l)) as [cs Hcs]; [rewrite length_take; lia|done|].
  destruct (IH (drop (Z.to_nat z) l)) as [ts Hts]; [rewrite length_drop; lia|done|].
  exists (T d cs :: ts). cbn [flats]. rewrite flat_T, Hcs, Hts. cbn [app]. rewrite take_drop. do 2 f_equal.
  rewrite <- length_flats, Hcs, length_take. apply Forall_cons in Hpos as [Hpos _]. cbn in Hpos. lia.
Qed.

(** A tree when the first interval covers all. *)
Lemma nested_tree l : nested l → (0 < length l)%nat → S (desc l 0) = length l → ∃ t, flat t = l.
Proof.
  intros Hl H0 Hd. destruct (nested_forest l Hl) as [[|[d cs] ts] <-]; [cbn in H0; lia|].
  assert (ts = []) as ->; [|exists (T d cs); cbn; by rewrite app_nil_r].
  cbn [flats] in Hd. rewrite flat_T in Hd. cbn [app length] in Hd. rewrite length_app, !length_flats in Hd.
  unfold desc in Hd. cbn in Hd. rewrite Nat2Z.id in Hd. apply sizes_0. lia.
Qed.
End lists.

(** ** Ancestors as intervals *)

(** [x] is an ancestor of [i], and an ancestor or [i] itself. *)
Definition encl (N : nat → nat) (x i : nat) : Prop := (x < i <= x + N x)%nat.
Definition around (N : nat → nat) (x i : nat) : Prop := (x <= i <= x + N x)%nat.

#[export] Instance encl_dec N x i : Decision (encl N x i).
Proof. unfold encl. apply _. Defined.
#[export] Instance around_dec N x i : Decision (around N x i).
Proof. unfold around. apply _. Defined.

Section kin.
Context {P : Type}.
Implicit Types (m : list (node P)) (ts : list (tree P)).

Definition dn m (i : nat) : nat := match m !! i with Some n => below n | None => 0 end.

(** The parents of the first [n] nodes. *)
Definition kin (n : nat) (N : nat → nat) m : Prop :=
  ∀ i nd, (i < n)%nat → m !! i = Some nd →
    below_index i (parent nd) ∧
    ∀ x, encl N x i ↔ match parent nd with Some p => around N x p | None => False end.

Lemma desc_flats_cons d cs ts x :
  desc (flats (T d cs :: ts)) x
  = if decide (x = 0) then sizes cs
    else if decide (x <= sizes cs)%nat then desc (flats cs) (x - 1)
    else desc (flats ts) (x - S (sizes cs)).
Proof.
  cbn [flats]. rewrite flat_T. destruct x as [|x]; [unfold desc; cbn [lookup list_lookup app fst]; by rewrite Nat2Z.id|].
  change (desc (((Z.of_nat (sizes cs), d) :: flats cs) ++ flats ts) (S x)) with (desc (flats cs ++ flats ts) x).
  rewrite (decide_False (P := S x = 0)) by lia. case_decide.
  - rewrite desc_app_l by (rewrite length_flats; lia). f_equal. lia.
  - rewrite desc_app_r by (rewrite length_flats; lia). rewrite length_flats. f_equal.
Qed.

Lemma desc_inside ts x : (x < sizes ts)%nat → (x + desc (flats ts) x < sizes ts)%nat.
Proof.
  destruct (nested_flats ts) as [_ H]. rewrite length_flats in H. intros Hx. by apply H.
Qed.

Lemma encf_parent ts b p nx i nd :
  encf b p nx ts !! i = Some nd →
  (parent nd = p ∧ ∀ x, ¬ encl (desc (flats ts)) x i) ∨
  (∃ q, (q < i)%nat ∧ parent nd = Some (b + q)%nat ∧
     ∀ x, encl (desc (flats ts)) x i ↔ around (desc (flats ts)) x q).
Proof.
  enough (∀ n, (sizes ts < n)%nat → ∀ b p nx i nd, encf b p nx ts !! i = Some nd →
    (parent nd = p ∧ ∀ x, ¬ encl (desc (flats ts)) x i) ∨
    (∃ q, (q < i)%nat ∧ parent nd = Some (b + q)%nat ∧
       ∀ x, encl (desc (flats ts)) x i ↔ around (desc (flats ts)) x q)) by eauto.
  clear b p nx i nd. intros n. revert ts. induction n as [|n IH]; intros [|[d cs] ts] Hn b p nx i nd Hi; [lia..|done|].
  cbn [sizes] in Hn. rewrite size_T in Hn. rewrite encf_cons in Hi. destruct i as [|i].
  { injection Hi as <-. left. split; [done|]. unfold encl. lia. }
  cbn [lookup list_lookup] in Hi. rewrite lookup_app_Some, length_encf in Hi. unfold encl, around in *.
  destruct Hi as [Hi|[Hsz Hi]].
  - pose proof (lookup_lt_Some _ _ _ Hi) as Hlt. rewrite length_encf in Hlt. right.
    assert (∀ x, (x <= i)%nat → desc (flats (T d cs :: ts)) (S x) = desc (flats cs) x) as HN.
    { intros x Hx. rewrite desc_flats_cons, decide_False, decide_True by lia. f_equal. lia. }
    assert (desc (flats (T d cs :: ts)) 0 = sizes cs) as H0 by (by rewrite desc_flats_cons).
    destruct (IH cs ltac:(lia) _ _ _ _ _ Hi) as [[-> Hx]|(q & Hq & -> & Hx)].
    + exists 0. split_and!; [lia|f_equal; lia|]. intros [|x]; [rewrite H0; lia|].
      destruct (decide (x < i)%nat) as [Hxi|Hxi]; [|lia]. rewrite HN by lia. specialize (Hx x). lia.
    + exists (S q). split_and!; [lia|f_equal; lia|]. intros [|x]; [rewrite H0; lia|].
      destruct (decide (x <= q)%nat); [|split; [intros [? ?]|lia]].
      * rewrite HN by lia. specialize (Hx x). lia.
      * rewrite HN in * by lia. specialize (Hx x). lia.
  - assert (∀ x, (sizes cs < x)%nat → desc (flats (T d cs :: ts)) x = desc (flats ts) (x - S (sizes cs))) as HN.
    { intros x Hx. by rewrite desc_flats_cons, !decide_False by lia. }
    assert (∀ x, (x <= sizes cs)%nat → (x + desc (flats (T d cs :: ts)) x <= sizes cs)%nat) as Hleft.
    { intros x Hx. rewrite desc_flats_cons. case_decide; [lia|]. rewrite decide_True by done.
      pose proof (desc_inside cs (x - 1)). lia. }
    destruct (IH ts ltac:(lia) _ _ _ _ _ Hi) as [[-> Hx]|(q & Hq & -> & Hx)].
    + left. split; [done|]. intros x [Hx1 Hx2]. destruct (decide (x <= sizes cs)%nat) as [Hxs|Hxs].
      * specialize (Hleft x Hxs). lia.
      * apply (Hx (x - S (sizes cs))%nat). rewrite HN in Hx2 by lia. lia.
    + right. exists (S (sizes cs) + q)%nat. split_and!; [lia|f_equal; lia|]. intros x.
      destruct (decide (x <= sizes cs)%nat) as [Hxs|Hxs].
      * specialize (Hleft x Hxs). lia.
      * rewrite HN by lia. specialize (Hx (x - S (sizes cs))%nat). lia.
Qed.

(** *** Adding to the ancestors *)

(** [p] and its ancestors. *)
Definition upto (N : nat → nat) (p : option nat) (x : nat) : Prop :=
  match p with Some i => around N x i | None => False end.

#[export] Instance upto_dec N p x : Decision (upto N p x).
Proof. destruct p; cbn; apply _. Defined.

Definition grow (G : nat → Prop) `{∀ x, Decision (G x)} (k : Z) m : list (node P) :=
  imap (λ x nd, if decide (G x) then set_descendants (u32 (descendants nd + k)) nd else nd) m.

Lemma grow_lookup G `{∀ x, Decision (G x)} k m x :
  grow G k m !! x
  = (λ nd, if decide (G x) then set_descendants (u32 (descendants nd + k)) nd else nd) <$> m !! x.
Proof. apply list_lookup_imap. Qed.

Lemma grow_length G `{∀ x, Decision (G x)} k m : length (grow G k m) = length m.
Proof. apply length_imap. Qed.

Lemma kin_same n N m m' :
  (∀ i, (i < n)%nat → parent <$> m' !! i = parent <$> m !! i) → kin n N m → kin n N m'.
Proof.
  intros Hs Hk i nd' Hi Hnd'. specialize (Hs i Hi). rewrite Hnd' in Hs.
  destruct (m !! i) as [nd|] eqn:Hnd; [|done]. injection Hs as ->. by apply (Hk i nd).
Qed.

Lemma grow_parent G `{∀ x, Decision (G x)} k m i : parent <$> grow G k m !! i = parent <$> m !! i.
Proof. rewrite grow_lookup. destruct (m !! i); [|done]. cbn. by case_decide. Qed.

Lemma add_descendants_kin n N fuel m p k :
  kin n N m → (n <= length m)%nat → (∀ i, p = Some i → i < n ∧ i < fuel)%nat →
  add_descendants fuel m p k = Ok (grow (upto N p) k m).
Proof.
  assert (∀ m, grow (upto N None) k m = m) as Hnone.
  { intros m'. apply list_eq. intros x. rewrite grow_lookup. by destruct (m' !! x). }
  revert m p. induction fuel as [|fuel IH]; intros m [i|] Hk Hn Hp.
  { specialize (Hp i eq_refl). lia. }
  { cbn [add_descendants]. by rewrite Hnone. }
  2: { cbn [add_descendants]. by rewrite Hnone. }
  destruct (Hp i eq_refl) as [Hi Hf]. cbn [add_descendants].
  destruct (lookup_lt_is_Some_2 m i) as [nd Hnd]; [lia|]. rewrite (fetch_Some _ _ _ Hnd), bind_Ok.
  rewrite store_Ok, bind_Ok by lia. destruct (Hk i nd Hi Hnd) as [Hb Hx].
  rewrite IH.
  - f_equal. apply list_eq. intros x. rewrite !grow_lookup. destruct (decide (x = i)) as [->|Hne].
    + rewrite list_lookup_insert_eq, Hnd by lia. cbn. rewrite decide_False.
      * rewrite decide_True; [done|]. unfold around. lia.
      * unfold upto. rewrite <- Hx. unfold encl. lia.
    + rewrite list_lookup_insert_ne by done. destruct (m !! x); [|done]. cbn. f_equal.
      apply decide_ext. unfold upto. rewrite <- Hx. unfold encl, around. lia.
  - eapply kin_same; [|exact Hk]. intros j Hj. destruct (decide (i = j)) as [<-|Hne].
    + by rewrite list_lookup_insert_eq, Hnd by lia.
    + by rewrite list_lookup_insert_ne.
  - by rewrite length_insert.
  - intros j Hj. specialize (Hb j Hj). lia.
Qed.
End kin.

(** ** Blocks of memory by their elements *)

Section blocks.
Context {A : Type}.
Implicit Types (m b : list A).

Lemma mread_runs m i n :
  runs (λ b, length b = n ∧ ∀ j, (j < n)%nat → b !! j = m !! (i + j)%nat) (mread m i n).
Proof.
  unfold mread. case_decide as Hl; [|done]. split; [rewrite length_take, length_drop; lia|].
  intros j Hj. by rewrite lookup_take_lt, lookup_drop.
Qed.

Lemma mwrite_runs m i b :
  runs (λ m', length m' = length m ∧
    ∀ j, m' !! j = if decide (i <= j < i + length b)%nat then b !! (j - i)%nat else m !! j) (mwrite m i b).
Proof.
  unfold mwrite. case_decide as Hl; [|done].
  assert (length (take i m) = i) as Ht by (rewrite length_take; lia).
  split; [rewrite !length_app, Ht, length_drop; lia|]. intros j.
  destruct (decide (j < i)%nat) as [Hji|Hji].
  - rewrite decide_False by lia. rewrite lookup_app_l by lia. by rewrite lookup_take_lt.
  - rewrite lookup_app_r by lia. rewrite Ht. case_decide.
    + by rewrite lookup_app_l by lia.
    + rewrite lookup_app_r by lia. rewrite lookup_drop. f_equal. lia.
Qed.

Lemma memmove_runs m dst src n :
  runs (λ m', length m' = length m ∧
    ∀ j, m' !! j = if decide (dst <= j < dst + n)%nat then m !! (src + (j - dst))%nat else m !! j)
    (memmove m dst src n).
Proof.
  unfold memmove. eapply runs_bind; [apply mread_runs|]. intros b [Hb Hlook].
  eapply runs_mono; [apply mwrite_runs|]. cbn. intros m' [Hl Hm']. split; [done|]. intros j.
  rewrite Hm', Hb. case_decide; [|done]. apply Hlook. lia.
Qed.
End blocks.

(** The identifiers are assigned inside the gap. *)
Lemma fresh_ids_runs n index (s : ytree) :
  runs (λ s', count s' = count s ∧ arrsize s' = arrsize s ∧ length (mem s') = length (mem s) ∧
    ∀ j, (j < index ∨ index + n <= j)%nat → mem s' !! j = mem s !! j) (fresh_ids n index s).
Proof.
  revert index s. induction n as [|n IH]; intros index s; [done|]. cbn [fresh_ids].
  eapply (runs_bind (λ m, length m = length (mem s) ∧ ∀ j, j ≠ index → m !! j = mem s !! j)).
  { unfold fresh_id, modify. eapply runs_bind; [apply runs_fetch|]. intros nd Hnd. unfold store.
    case_decide; [|done]. split; [apply length_insert|]. intros j Hj. by apply list_lookup_insert_ne. }
  intros m [Hl Hm]. eapply runs_mono; [apply IH|]. cbn. intros s' (Hc & Ha & Hl' & Hs').
  split_and!; [done|done|congruence|]. intros j Hj. rewrite Hs' by lia. apply Hm. lia.
Qed.

Lemma insert_gap_range_runs (s : ytree) index items :
  runs (λ s', count s' = (count s + items)%nat ∧ arrsize s' = arrsize s ∧ length (mem s') = length (mem s) ∧
    (∀ j, (j < index)%nat → mem s' !! j = mem s !! j) ∧
    ∀ j, (index + items <= j < count s + items)%nat → mem s' !! j = mem s !! (j - items)%nat)
    (ay_ynode_insert_gap_range s index items).
Proof.
  unfold ay_ynode_insert_gap_range. eapply runs_bind; [apply runs_assert|]. intros _ _.
  unfold nat_sub. destruct (Nat.leb_spec index (count s)) as [Hle|]; [|done]. rewrite bind_Ok.
  eapply runs_bind; [apply memmove_runs|]. intros m [Hl Hm].
  eapply runs_mono; [apply fresh_ids_runs|]. cbn. intros s' (Hc & Ha & Hl' & Hs').
  split_and!; [done|done|congruence| |].
  - intros j Hj. rewrite Hs' by lia. rewrite Hm. by rewrite decide_False by lia.
  - intros j Hj. rewrite Hs' by lia. rewrite Hm. rewrite decide_True by lia. f_equal. lia.
Qed.

(** The copy of a subtree that the place [dst] does not divide. *)
Lemma copy_subtree_runs (s : ytree) dst src n k :
  mem s !! src = Some n → descendants n = Z.of_nat k → (Z.of_nat k + 1 < 2 ^ 32)%Z →
  (dst <= src ∨ src + k < dst)%nat → (src + k < count s)%nat →
  runs (λ s', count s' = (count s + S k)%nat ∧ arrsize s' = arrsize s ∧ length (mem s') = length (mem s) ∧
    (∀ j, (j < dst)%nat → mem s' !! j = mem s !! j) ∧
    (∀ j, (dst <= j < dst + S k)%nat → mem s' !! j = mem s !! (src + (j - dst))%nat) ∧
    ∀ j, (dst + S k <= j < count s + S k)%nat → mem s' !! j = mem s !! (j - S k)%nat)
    (ay_ynode_copy_subtree s dst src).
Proof.
  intros Hn Hd Hk Hds Hsc. unfold ay_ynode_copy_subtree. rewrite (fetch_Some _ _ _ Hn), bind_Ok. cbv zeta.
  rewrite Hd, u32_small by lia. replace (Z.to_nat _) with (S k) by lia.
  eapply runs_bind; [apply insert_gap_range_runs|]. intros s1 (Hc1 & Ha1 & Hl1 & Hlo1 & Hhi1).
  eapply runs_bind; [apply mread_runs|]. intros b [Hb Hlook].
  eapply runs_bind; [apply mwrite_runs|]. intros m [Hl Hm]. rewrite Hb in Hm.
  apply runs_Ok. cbn. split_and!; [done|done|congruence| | |].
  - intros j Hj. rewrite Hm, decide_False by lia. by apply Hlo1.
  - intros j Hj. rewrite Hm, decide_True by lia. rewrite Hlook by lia.
    destruct (Nat.leb_spec dst src).
    + rewrite Hhi1 by lia. f_equal. lia.
    + apply Hlo1. lia.
  - intros j Hj. rewrite Hm, decide_False by lia. apply Hhi1. lia.
Qed.

(** *** The move of a subtree *)

Lemma split_block {A} (l : list A) i k n :
  (i + k <= n)%nat → (n <= length l)%nat →
  ∃ a b sp, l = a ++ take k (drop i l) ++ b ++ sp ∧ length a = i ∧ length b = (n - i - k)%nat ∧
    ∀ j, (j < n - k)%nat → (a ++ b) !! j = l !! (if decide (j < i)%nat then j else (j + k)%nat).
Proof.
  intros Hk Hn. exists (take i l), (take (n - i - k) (drop (i + k) l)), (drop n l). split_and!.
  - rewrite <- (take_drop i l) at 1. f_equal. rewrite <- (take_drop k (drop i l)) at 1. f_equal.
    rewrite drop_drop. rewrite <- (take_drop (n - i - k) (drop (i + k) l)) at 1. f_equal.
    rewrite drop_drop. f_equal. lia.
  - rewrite length_take. lia.
  - rewrite length_take, length_drop. lia.
  - intros j Hj. case_decide as Hji.
    + rewrite lookup_app_l by (rewrite length_take; lia). by apply lookup_take_lt.
    + rewrite lookup_app_r by (rewrite length_take; lia). rewrite length_take, lookup_take_lt by lia.
      rewrite lookup_drop. f_equal. lia.
Qed.

Lemma relocated_lookup (a sub b : list ynode) d i :
  (d <= length (a ++ b))%nat →
  relocated a sub b d !! i
  = if decide (i < d)%nat then (a ++ b) !! i
    else if decide (i < d + length sub)%nat then sub !! (i - d)%nat else (a ++ b) !! (i - length sub)%nat.
Proof.
  intros Hd. unfold relocated.
  assert (length (take d (a ++ b)) = d) as Ht by (rewrite length_take; lia).
  case_decide; [rewrite lookup_app_l by lia; by apply lookup_take_lt|]. rewrite lookup_app_r by lia. rewrite Ht.
  case_decide; [by rewrite lookup_app_l by lia|]. rewrite lookup_app_r by lia. rewrite lookup_drop. f_equal. lia.
Qed.

Lemma move_subtree_lookup (s : ytree) src n k q :
  mem s !! src = Some n → descendants n = Z.of_nat k → (src + k < count s)%nat →
  (q <= src ∨ src + k < q)%nat → (q <= count s <= length (mem s))%nat →
  arrsize s = Z.of_nat (length (mem s)) → (arrsize s < 2 ^ 32)%Z →
  let q' := if decide (src < q)%nat then (q - S k)%nat else q in
  let old j := if decide (j < src)%nat then j else (j + S k)%nat in
  ∃ s', ay_ynode_move_subtree s q src = Ok s' ∧ count s' = count s ∧ arrsize s' = arrsize s ∧
    length (mem s') = length (mem s) ∧
    ∀ i, (i < count s)%nat → mem s' !! i = mem s !!
      (if decide (i < q')%nat then old i else if decide (i < q' + S k)%nat then (src + (i - q'))%nat else old (i - S k)%nat).
Proof.
  intros Hn Hd Hsrc Hq Hc Ha Hb q' old. destruct (decide (q = src)) as [->|Hne].
  { unfold ay_ynode_move_subtree. rewrite Nat.eqb_refl. exists s. split_and!; [done..|].
    intros i Hi. f_equal. unfold q', old. repeat case_decide; lia. }
  destruct (split_block (mem s) src (S k) (count s)) as (a & b & sp & Hm & Hla & Hlb & Hab); [lia|lia|].
  assert (take (S k) (drop src (mem s)) = n :: take k (drop (S src) (mem s))) as Hsub.
  { rewrite (drop_S _ n) by done. done. }
  assert (length (take k (drop (S src) (mem s))) = k) as Hlk by (rewrite length_take, length_drop; lia).
  set (sub := take k (drop (S src) (mem s))) in *. rewrite Hsub in Hm.
  destruct (move_subtree_spec s a n sub b sp q) as (sp' & Hsp & Heq); [done|lia|done|done|by rewrite Hlk|lia|].
  rewrite Hla, Hlk in Heq. rewrite Heq. eexists. split; [done|]. cbn [count arrsize mem].
  split_and!; [done|done|rewrite length_app, relocated_length, Hm, !length_app; cbn [length]; lia|].
  intros i Hi. set (d := if (src <? q)%nat then (q - S k)%nat else q).
  assert (d = q') as Hdq by (unfold d, q'; destruct (Nat.ltb_spec src q); case_decide; lia).
  assert (d <= length (a ++ b))%nat as Hdl by (rewrite length_app, Hdq; unfold q'; case_decide; lia).
  rewrite lookup_app_l by (rewrite relocated_length; cbn [length]; lia).
  rewrite relocated_lookup by done. cbn [length]. rewrite Hlk, Hdq. rewrite Hdq, length_app in Hdl.
  case_decide; [rewrite Hab by lia; done|]. case_decide; [|rewrite Hab by lia; done].
  rewrite <- Hsub, lookup_take_lt, lookup_drop by lia. done.
Qed.

(** ** The shape of a state *)

Section shape.
Context (L : nat).
Implicit Types (s : ytree) (n i p q : nat) (N : nat → nat).

(** An array of [L] elements with [n] in use, whose descendants are [N]. *)
Record shape n N s : Prop := {
  shape_count : count s = n;
  shape_size : arrsize s = Z.of_nat L;
  shape_length : length (mem s) = L;
  shape_bound : (Z.of_nat L < 2 ^ 32)%Z;
  shape_root : ∃ r, mem s !! 0 = Some r ∧ parent r = None ∧ next r = None;
  shape_desc : ∀ i, (i < n)%nat → ∃ nd, mem s !! i = Some nd ∧ descendants nd = Z.of_nat (N i)
}.

Lemma shape_nested n N s :
  shape n N s → nest n N → (0 < n)%nat → S (N 0) = n →
  ∃ t, flat t = take n (strip <$> mem s) ∧ (n <= L)%nat.
Proof.
  intros Hs Hn H0 HN. assert (n <= L)%nat as HL.
  { destruct (shape_desc _ _ _ Hs (n - 1)) as (nd & Hnd%lookup_lt_Some & _); [lia|].
    rewrite (shape_length _ _ _ Hs) in Hnd. lia. }
  set (l := take n (strip <$> mem s)).
  assert (length l = n) as Hl.
  { unfold l. rewrite length_take, length_fmap, (shape_length _ _ _ Hs). lia. }
  assert (∀ i, (i < n)%nat → ∃ d, l !! i = Some (Z.of_nat (N i), d)) as Hlook.
  { intros i Hi. destruct (shape_desc _ _ _ Hs i Hi) as (nd & Hnd & Hd). exists (data nd).
    unfold l. rewrite lookup_take_lt, list_lookup_fmap, Hnd by done. cbn. unfold strip. by rewrite Hd. }
  assert (∀ i, (i < n)%nat → desc l i = N i) as Hdesc.
  { intros i Hi. destruct (Hlook i Hi) as [d Hd]. unfold desc. rewrite Hd. cbn. lia. }
  destruct (nested_tree l) as [t Ht].
  - split; [|rewrite Hl; by eapply nest_ext; [|exact Hn]].
    apply Forall_lookup. intros i x Hx. pose proof (lookup_lt_Some _ _ _ Hx).
    destruct (Hlook i) as [d Hd]; [lia|]. rewrite Hd in Hx. injection Hx as <-. cbn. lia.
  - lia.
  - by rewrite Hl, Hdesc.
  - by exists t.
Qed.

(** A tree with given numbers of descendants. *)
Definition sized n N s : Prop := edited L n s ∧ ∀ i, (i < n)%nat → dn (mem s) i = N i.

(** The correction of nested intervals gives a tree. *)
Lemma shape_correction n N s :
  shape n N s → nest n N → (0 < n)%nat → S (N 0) = n → runs (sized n N) (ay_ynode_tree_correction s).
Proof.
  intros Hs Hn H0 HN. destruct (shape_nested n N s Hs Hn H0 HN) as (t & Ht & HL).
  destruct (correction_repr s t) as (s' & -> & Hr & Ha & Hi).
  - destruct Hs as [Hc Hsz Hl Hb Hr _]. split_and!; [|rewrite Ht, length_take, length_fmap; lia|congruence|lia|done].
    exists (drop n (strip <$> mem s)). by rewrite Ht, take_drop.
  - assert (length (flat t) = n) as Hlen.
    { rewrite Ht, length_take, length_fmap, (shape_length _ _ _ Hs). lia. }
    rewrite length_flat in Hlen. split; [split; [split; [by exists t|]|]|].
    + destruct Hr as (_ & _ & Ha' & _). rewrite Ha, (shape_size _ _ _ Hs) in Ha'. lia.
    + destruct Hr as (_ & -> & _). done.
    + intros i Hp. destruct Hr as ([sp Hm] & _). destruct (shape_desc _ _ _ Hs i Hp) as (nd & Hnd & Hd).
      pose proof (f_equal (λ l, strip <$> l) Hm) as Hst. rewrite fmap_app, strip_enc, Ht in Hst.
      apply (f_equal (λ l, l !! i)) in Hst. rewrite list_lookup_fmap, lookup_app_l in Hst
        by (rewrite length_take, length_fmap, (shape_length _ _ _ Hs); lia).
      rewrite lookup_take_lt, list_lookup_fmap, Hnd in Hst by done. unfold dn.
      destruct (mem s' !! i) as [nd'|]; [|done]. injection Hst as Hd' _. unfold below. rewrite Hd', Hd. lia.
Qed.

(** Conversely, a tree has nested intervals, which say where the parents are. *)
Record intervals N s : Prop := {
  int_shape : shape (count s) N s;
  int_nest : nest (count s) N;
  int_root : S (N 0) = count s;
  int_kin : kin (count s) N (mem s)
}.

Lemma tree_intervals s : tree_state L s → ∃ N, intervals N s.
Proof.
  intros [[t Hr] HL]. pose proof Hr as ([spare Hm] & Hc & Ha & Hlt). exists (desc (flat t)).
  assert (flat t = flats [t]) as Hf by (cbn; by rewrite app_nil_r).
  assert (encf 0 None None [t] = enc 0 None None t) as He by (cbn; by rewrite app_nil_r).
  assert (length (enc 0 None None t) = size t) as Hlen by (rewrite <- (length_fmap strip), strip_enc; apply length_flat).
  assert (∀ i nd, (i < count s)%nat → mem s !! i = Some nd → encf 0 None None [t] !! i = Some nd) as Hlook.
  { intros i nd Hi. rewrite Hm, He, lookup_app_l by lia. done. }
  split.
  - split; [done|by rewrite Ha, HL|done|lia| |].
    + rewrite Hm, enc_head. by eexists.
    + intros i Hi. destruct (lookup_lt_is_Some_2 (enc 0 None None t) i) as [nd Hnd]; [lia|].
      exists nd. split; [rewrite Hm; by apply lookup_app_l_Some|].
      pose proof (strip_encf 0 None None [t]) as Hst. rewrite He in Hst.
      assert (flat t !! i = Some (strip nd)) as Hfl by (rewrite Hf, <- Hst, list_lookup_fmap, Hnd; done).
      destruct (nested_flats [t]) as [Hpos _]. rewrite <- Hf in Hpos.
      pose proof (Forall_lookup_1 _ _ _ _ Hpos Hfl) as Hz. unfold desc. rewrite Hfl. cbn in Hz |- *. lia.
  - rewrite Hc, <- length_flat, Hf. apply nested_flats.
  - rewrite Hc. destruct t as [d cs]. rewrite flat_T, size_T. unfold desc. cbn. lia.
  - intros i nd Hi Hnd. apply Hlook in Hnd; [|done]. rewrite Hf.
    destruct (encf_parent [t] _ _ _ _ _ Hnd) as [[-> Hx]|(q & Hq & -> & Hx)].
    + split; [by intros j|]. intros x. split; [intros H; by apply (Hx x)|done].
    + split; [by intros j [= <-]|]. exact Hx.
Qed.

(** ** Links as intervals *)

Section links.
Context (s : ytree) (N : nat → nat) (Hs : tree_state L s) (HN : intervals N s).

Lemma interval_fetch i nd : mem s !! i = Some nd → (i < count s)%nat → descendants nd = Z.of_nat (N i) ∧ below nd = N i.
Proof.
  intros Hnd Hi. destruct (shape_desc _ _ _ (int_shape _ _ HN) i Hi) as (nd' & Hnd' & Hd).
  rewrite Hnd in Hnd'. injection Hnd' as <-. split; [done|]. unfold below. rewrite Hd. lia.
Qed.

Lemma interval_parent i j nd nd' :
  (i < count s)%nat → (j < count s)%nat → mem s !! i = Some nd → mem s !! j = Some nd' →
  parent nd = parent nd' → ∀ x, encl N x i ↔ encl N x j.
Proof.
  intros Hi Hj Hnd Hnd' Hp x. destruct (int_kin _ _ HN i nd Hi Hnd) as [_ ->].
  destruct (int_kin _ _ HN j nd' Hj Hnd') as [_ ->]. by rewrite Hp.
Qed.

Lemma next_interval i nd j :
  mem s !! i = Some nd → (i < count s)%nat → next nd = Some j →
  j = S (i + N i) ∧ (j < count s)%nat ∧ ∃ nd', mem s !! j = Some nd' ∧ parent nd' = parent nd.
Proof.
  intros Hnd Hi Hj. destruct (state_place L s i Hs Hi) as (c & d & cs & Hr & <-).
  destruct (repr_in_fetch s c _ [] Hr) as (n & Hn & Hp & Hx & _ & Hd & _).
  rewrite (fetch_Some _ _ _ Hnd) in Hn. injection Hn as <-.
  destruct (interval_fetch _ _ Hnd Hi) as [Hdn _]. rewrite Hd in Hdn. cbn [subtrees] in Hdn.
  destruct c as [|[pd ls [|v rs]] c]; cbn [after hole_next] in Hx; try congruence.
  rewrite Hx in Hj.
  assert (j = hole (Frame pd ls (v :: rs) :: c) + S (sizes cs))%nat as ->.
  { apply (inj Some) in Hj as <-. cbn [sizes]. rewrite size_T. lia. }
  assert (repr_in s (Frame pd (ls ++ [T d cs]) rs :: c) [v]) as Hv.
  { revert Hr. apply repr_in_view. cbn. by rewrite <- app_assoc. }
  destruct (repr_in_fetch s _ v [] Hv) as (n' & Hn' & Hp' & _).
  assert (hole (Frame pd (ls ++ [T d cs]) rs :: c) = hole (Frame pd ls (v :: rs) :: c) + S (sizes cs))%nat as Hh.
  { cbn [hole]. rewrite sizes_app. cbn [sizes]. rewrite size_T. lia. }
  rewrite Hh in Hn'. split; [cbn [hole] in *; lia|]. split.
  - rewrite <- Hh, (place_count _ _ _ Hv). cbn [sizes]. pose proof (size_pos v). lia.
  - exists n'. apply fetch_Ok in Hn'. split; [done|]. by rewrite Hp, Hp'.
Qed.

Lemma last_interval i nd :
  mem s !! i = Some nd → (i < count s)%nat → next nd = None →
  ∀ p, parent nd = Some p → (i + N i = p + N p)%nat.
Proof.
  intros Hnd Hi Hx p Hp. destruct (state_place L s i Hs Hi) as (c & d & cs & Hr & <-).
  destruct (repr_in_fetch s c _ [] Hr) as (n & Hn & Hp' & Hx' & _ & Hd & _).
  rewrite (fetch_Some _ _ _ Hnd) in Hn. injection Hn as <-.
  destruct (interval_fetch _ _ Hnd Hi) as [Hdn _]. rewrite Hd in Hdn. cbn [subtrees] in Hdn.
  destruct c as [|[pd ls rs] c]; cbn [after hole_next hole_parent] in *; [congruence|].
  destruct rs as [|v rs]; [|cbn in Hx'; congruence].
  rewrite Hp' in Hp. injection Hp as <-.
  assert (repr_in s c [T pd (ls ++ [T d cs])]) as Hv by exact Hr.
  destruct (repr_in_fetch s c _ [] Hv) as (n' & Hn' & _ & _ & _ & Hd' & _).
  apply fetch_Ok in Hn'. destruct (interval_fetch _ _ Hn') as [Hdn' _]; [cbn [hole] in Hi; lia|].
  rewrite Hd' in Hdn'. cbn [subtrees hole] in *. rewrite sizes_app in Hdn'. cbn [sizes] in Hdn'.
  rewrite size_T in Hdn'. lia.
Qed.

Lemma child_interval i nd :
  mem s !! i = Some nd → (i < count s)%nat →
  match child nd with
  | None => N i = 0
  | Some j => j = S i ∧ (j < count s)%nat ∧ ∃ nd', mem s !! j = Some nd' ∧ parent nd' = Some i
  end.
Proof.
  intros Hnd Hi. destruct (state_place L s i Hs Hi) as (c & d & cs & Hr & <-).
  destruct (repr_in_fetch s c _ [] Hr) as (n & Hn & _ & _ & Hc & Hd & _).
  rewrite (fetch_Some _ _ _ Hnd) in Hn. injection Hn as <-.
  destruct (interval_fetch _ _ Hnd Hi) as [Hdn _]. rewrite Hd in Hdn. cbn [subtrees] in *.
  rewrite Hc. destruct cs as [|v cs]; cbn [first_index]; [cbn in Hdn; lia|].
  assert (repr_in s (Frame d [] [] :: c) (v :: cs)) as Hv.
  { revert Hr. apply repr_in_view. cbn. by rewrite app_nil_r. }
  destruct (repr_in_fetch s _ v cs Hv) as (n' & Hn' & Hp' & _). rewrite hole_children in Hn'.
  apply fetch_Ok in Hn'.
  split; [done|]. split; [|by exists n'].
  rewrite <- (hole_children c d), (place_count _ _ _ Hv). cbn [sizes]. pose proof (size_pos v). lia.
Qed.

(** The last sibling ends where the parent ends. *)
Lemma last_from_interval fuel i nd p :
  mem s !! i = Some nd → (i < count s)%nat → parent nd = Some p → (count s <= i + fuel)%nat →
  runs (λ l, i <= l < count s ∧ l + N l = p + N p ∧ ∃ nd', mem s !! l = Some nd' ∧ parent nd' = Some p)%nat
    (last_from fuel (mem s) i).
Proof.
  revert i nd. induction fuel as [|fuel IH]; intros i nd Hnd Hi Hp Hf; [lia|]. cbn [last_from].
  rewrite (fetch_Some _ _ _ Hnd), bind_Ok. destruct (next nd) as [j|] eqn:Hj.
  - destruct (next_interval i nd j Hnd Hi Hj) as (-> & Hjc & nd' & Hnd' & Hp').
    eapply runs_mono; [apply (IH _ nd' Hnd'); [done|congruence|lia]|]. cbn. intros l Hl.
    split; [lia|]. apply Hl.
  - apply runs_Ok. split; [lia|]. split; [by eapply last_interval|by exists nd].
Qed.
End links.

(** ** Copies *)

(** The root keeps its links when the first elements stay. *)
Lemma grown_root N s G `{∀ x, Decision (G x)} k :
  intervals N s → ∃ r, grow G k (mem s) !! 0 = Some r ∧ parent r = None ∧ next r = None.
Proof.
  intros HN. destruct (shape_root _ _ _ (int_shape _ _ HN)) as (r & Hr & Hp & Hx).
  rewrite grow_lookup, Hr. cbn. case_decide; by eexists.
Qed.

Lemma grown_lookup N s G `{∀ x, Decision (G x)} k i :
  intervals N s → (i < count s)%nat → (Z.of_nat (N i) + k < 2 ^ 32)%Z → (0 ≤ Z.of_nat (N i) + k)%Z →
  ∃ nd, grow G k (mem s) !! i = Some nd ∧ descendants nd = (if decide (G i) then Z.of_nat (N i) + k else Z.of_nat (N i))%Z.
Proof.
  intros HN Hi Hk H0. destruct (shape_desc _ _ _ (int_shape _ _ HN) i Hi) as (nd & Hnd & Hd).
  rewrite grow_lookup, Hnd. cbn. eexists. split; [done|]. case_decide; [|done]. cbn. rewrite Hd. by apply u32_small.
Qed.

Lemma ancestors_add_grow N s o k :
  intervals N s → (∀ i, o = Some i → i < count s)%nat →
  ancestors_add s o k = Ok (set_mem (grow (upto N o) k (mem s)) s).
Proof.
  intros HN Hp. unfold ancestors_add.
  assert (count s <= length (mem s))%nat as Hl.
  { destruct (int_shape _ _ HN) as [_ _ Hl _ _ Hd]. destruct (decide (count s = 0)); [lia|].
    destruct (Hd (count s - 1)) as (nd & Hnd%lookup_lt_Some & _); lia. }
  rewrite (add_descendants_kin (count s) N); [done|apply HN|done|]. intros i Hi. specialize (Hp i Hi). lia.
Qed.

Lemma copied_state N s o q src :
  intervals N s → target (count s) N (upto N o) q → outside N (upto N o) q src → (src < count s)%nat →
  (count s + S (N src) <= L)%nat →
  runs (sized (count s + S (N src)) (put_in N (S (N src)) (λ j, N (src + j)%nat) q (upto N o)))
    (s2 ← ay_ynode_copy_subtree (set_mem (grow (upto N o) (Z.of_nat (S (N src))) (mem s)) s) q src;
     ay_ynode_tree_correction s2).
Proof.
  intros HN Ht [Hq Hout] Hsrc HL. destruct (int_shape _ _ HN) as [_ Hsz Hlen Hb _ Hd].
  pose proof (int_nest _ _ HN) as Hnest. destruct (Hnest src Hsrc) as [Hsrc1 Hsrc2].
  destruct (Hd src Hsrc) as (n & Hn & Hdn).
  assert (∀ i, (i < count s)%nat → ∃ nd, grow (upto N o) (Z.of_nat (S (N src))) (mem s) !! i = Some nd ∧
    descendants nd = Z.of_nat (if decide (upto N o i) then N i + S (N src) else N i)) as Hgrown.
  { intros i Hi. destruct (Hnest i Hi) as [Hi1 _].
    destruct (grown_lookup N s (upto N o) (Z.of_nat (S (N src))) i HN Hi) as (nd & Hnd & Hdd); [lia|lia|].
    exists nd. split; [done|]. rewrite Hdd. case_decide; lia. }
  assert (grow (upto N o) (Z.of_nat (S (N src))) (mem s) !! src = Some n) as Hn'.
  { rewrite grow_lookup, Hn. cbn. rewrite decide_False; [done|]. apply Hout. lia. }
  eapply runs_bind; [apply (copy_subtree_runs _ _ _ n (N src)); [done|done|lia|lia|exact Hsrc1]|].
  intros s2 (Hc2 & Ha2 & Hl2 & Hlo & Hin & Hhi). cbn [mem set_mem count arrsize] in *.
  rewrite grow_length in Hl2.
  destruct (target_insert (count s) N (S (N src)) (λ j, N (src + j)%nat) q (upto N o)) as [Hn2 H02];
    [done| |done|].
  { intros i Hi. destruct (Hnest (src + i)%nat) as [_ H]; [lia|]. split.
    - destruct (decide (i = 0)) as [->|]; [rewrite Nat.add_0_r in *; lia|]. specialize (Hsrc2 (src + i)%nat). lia.
    - intros j Hj. specialize (H (src + j)%nat). lia. }
  pose proof (target_pos _ _ _ _ Ht) as Hq0.
  eapply shape_correction; [|exact Hn2|lia|rewrite H02, <- (int_root _ _ HN); lia].
  split; [done|by rewrite Ha2|congruence|done| |].
  - rewrite Hlo by lia. by apply (grown_root N s).
  - intros i Hi. unfold put_in. destruct (decide (i < q)%nat) as [Hiq|Hiq]; [|destruct (decide (i < q + S (N src))%nat)].
    + rewrite Hlo by lia. apply Hgrown. lia.
    + rewrite Hin by lia. destruct (Hgrown (src + (i - q))%nat) as (nd & Hnd & Hdd); [lia|].
      exists nd. split; [done|]. rewrite Hdd, decide_False; [done|]. apply Hout. lia.
    + rewrite Hhi by lia. destruct (Hgrown (i - S (N src))%nat) as (nd & Hnd & Hdd); [lia|].
      exists nd. split; [done|]. rewrite Hdd, decide_False; [done|].
      intros HG%(target_before _ _ _ _ Ht). lia.
Qed.

(** ** Moves *)

Lemma subtree_nest n N src :
  nest n N → (src < n)%nat → nest (S (N src)) (λ j, N (src + j)%nat).
Proof.
  intros Hn Hsrc i Hi. destruct (Hn src Hsrc) as [H1 H2]. destruct (Hn (src + i)%nat) as [_ H]; [lia|]. split.
  - destruct (decide (i = 0)) as [->|]; [rewrite Nat.add_0_r in *; lia|]. specialize (H2 (src + i)%nat). lia.
  - intros j Hj. specialize (H (src + j)%nat). lia.
Qed.

Lemma moved_state N s o q src (nd0 : ynode) :
  intervals N s → target (count s) N (upto N o) q → outside N (upto N o) q src → (0 < src < count s)%nat →
  mem s !! src = Some nd0 → (∀ i, o = Some i → i < count s)%nat →
  runs (sized (count s) (put_in (taken_out N src) (S (N src)) (λ j, N (src + j)%nat) (new_place N src q)
      (λ i, upto N o (old_index N src i))))
    (s1 ← ancestors_add s (parent nd0) (- Z.of_nat (S (N src)));
     s2 ← ancestors_add s1 o (Z.of_nat (S (N src)));
     s3 ← ay_ynode_move_subtree s2 q src;
     ay_ynode_tree_correction s3).
Proof.
  intros HN Ht Hout Hsrc Hn Ho. destruct (int_shape _ _ HN) as [_ Hsz Hlen Hb _ Hd].
  pose proof (int_nest _ _ HN) as Hnest. destruct (Hnest src) as [Hsrc1 Hsrc2]; [lia|].
  destruct (int_kin _ _ HN src nd0) as [Hpar Hup]; [lia|done|].
  assert (count s <= L)%nat as HL.
  { destruct (Hd (count s - 1)) as (nd & Hnd%lookup_lt_Some & _); lia. }
  set (k := Z.of_nat (S (N src))).
  rewrite (ancestors_add_grow N) by (done || intros i Hi; specialize (Hpar i Hi); lia). rewrite bind_Ok.
  set (s1 := set_mem _ s).
  assert (kin (count s) N (mem s1)) as Hk1.
  { eapply kin_same; [|apply HN]. intros i _. apply grow_parent. }
  unfold ancestors_add at 1. rewrite (add_descendants_kin (count s) N); [|exact Hk1| |].
  2: { cbn. rewrite grow_length. lia. }
  2: { intros i Hi. cbn. rewrite grow_length. specialize (Ho i Hi). lia. }
  rewrite !bind_Ok. set (s2 := set_mem _ s1).
  (* The counts before the move. *)
  assert (∀ x, (x < count s)%nat → ∃ nd, mem s2 !! x = Some nd ∧ descendants nd = Z.of_nat
    (if decide (upto N o x) then (if decide (encl N x src) then N x else N x + S (N src))
     else if decide (encl N x src) then N x - S (N src) else N x)%nat) as Hcounts.
  { intros x Hx. destruct (Hd x Hx) as (nd & Hnd & Hdx). destruct (Hnest x Hx) as [Hx1 Hx2].
    unfold s2. cbn [mem set_mem]. rewrite grow_lookup. cbn [s1 mem set_mem]. rewrite grow_lookup, Hnd. cbn [fmap option_fmap option_map].
    eexists. split; [done|].
    assert (upto N (parent nd0) x ↔ encl N x src) as Hiff by (rewrite Hup; done).
    rewrite (decide_ext (upto N (parent nd0) x) (encl N x src)) by exact Hiff.
    assert (encl N x src → S (N src) <= N x)%nat as Hbig.
    { unfold encl. intros He. specialize (Hx2 src He). lia. }
    assert (upto N o x → ¬ encl N x src → N x + S (N src) <= count s)%nat as Hsmall.
    { intros HG He. destruct (decide (src <= x <= src + N src)%nat) as [Hin|Hin].
      - destruct Hout as [_ Hout]. by destruct (Hout x Hin).
      - unfold encl in He. lia. }
    unfold k. destruct (decide (encl N x src)) as [He|He], (decide (upto N o x)) as [HG|HG];
      cbn [descendants set_descendants]; rewrite Hdx; try specialize (Hbig He); try specialize (Hsmall HG He);
      rewrite ?u32_small by (rewrite ?u32_small by lia; lia); rewrite ?u32_small by lia; lia. }
  destruct (Hcounts src) as (nd & Hnd & Hdd); [lia|].
  rewrite decide_False, decide_False in Hdd; [|unfold encl; lia|apply Hout; lia].
  pose proof (target_pos _ _ _ _ Ht) as Hq.
  assert (count s2 = count s) as Hc2 by done. assert (arrsize s2 = Z.of_nat L) as Ha2 by done.
  assert (length (mem s2) = L) as Hl2.
  { unfold s2. cbn [mem set_mem]. rewrite grow_length. unfold s1. cbn [mem set_mem]. by rewrite grow_length. }
  destruct (move_subtree_lookup s2 src nd (N src) q) as (s3 & -> & Hc3 & Ha3 & Hl3 & Hlook);
    [done|done|lia|apply Hout|lia|lia|lia|].
  rewrite bind_Ok. rewrite Hc2 in Hc3, Hlook.
  destruct (target_insert (count s - S (N src)) (taken_out N src) (S (N src)) (λ j, N (src + j)%nat) (new_place N src q)
    (λ i, upto N o (old_index N src i))) as [Hn2 H02].
  { apply nest_remove; [done|lia]. }
  { eapply subtree_nest; [done|lia]. }
  { by apply target_taken_out. }
  replace (count s - S (N src) + S (N src))%nat with (count s) in Hn2 by lia.
  eapply shape_correction; [|exact Hn2|lia|].
  2: { rewrite H02. unfold taken_out. rewrite !decide_True; [|pose proof (int_root _ _ HN); lia|lia].
       pose proof (int_root _ _ HN). lia. }
  pose proof (target_taken_out _ _ _ _ _ Hnest Hsrc Ht Hout) as Ht'.
  split; [done|congruence|congruence|done| |].
  - rewrite Hlook by lia. fold (new_place N src q). rewrite decide_True by (apply (target_pos _ _ _ _ Ht')). rewrite decide_True by lia.
    destruct (shape_root _ _ _ (int_shape _ _ HN)) as (r & Hr & Hp & Hx).
    unfold s2. cbn [mem set_mem]. rewrite grow_lookup. unfold s1. cbn [mem set_mem]. rewrite grow_lookup, Hr.
    cbn. repeat case_decide; by eexists.
  - intros i Hi. rewrite Hlook by done. fold (new_place N src q). unfold put_in, taken_out, old_index.
    destruct (decide (i < new_place N src q)%nat) as [Hiq|Hiq].
    + destruct (decide (i < src)%nat) as [His|His].
      * destruct (Hcounts i) as (x & Hx & Hdx); [lia|]. exists x. split; [done|]. rewrite Hdx.
        pose proof (Hnest i ltac:(lia)) as [_ H]. specialize (H src).
        repeat case_decide; unfold encl in *; lia.
      * assert (i + S (N src) < count s)%nat.
        { pose proof (target_pos _ _ _ _ Ht') as Hq'. lia. }
        destruct (Hcounts (i + S (N src))%nat) as (x & Hx & Hdx); [lia|]. exists x. split; [done|]. rewrite Hdx.
        rewrite !(decide_False (P := encl _ _ _)) by (unfold encl; lia). done.
    + destruct (decide (i < new_place N src q + S (N src))%nat) as [Hib|Hib].
      * destruct (Hcounts (src + (i - new_place N src q))%nat) as (x & Hx & Hdx); [lia|]. exists x. split; [done|].
        rewrite Hdx, decide_False, decide_False; [done|unfold encl; lia|apply Hout; lia].
      * destruct (decide (i - S (N src) < src)%nat) as [His|His].
        -- destruct (Hcounts (i - S (N src))%nat) as (x & Hx & Hdx); [lia|]. exists x. split; [done|]. rewrite Hdx.
           rewrite decide_False.
           ++ repeat case_decide; unfold encl in *; lia.
           ++ intros HG. apply (target_before _ _ _ _ Ht) in HG. destruct Hout as [Hqs _]. unfold new_place in *. destruct (decide (src < q)%nat); lia.
        -- replace (i - S (N src) + S (N src))%nat with i by lia.
           destruct (Hcounts i) as (x & Hx & Hdx); [lia|]. exists x. split; [done|]. rewrite Hdx.
           rewrite !(decide_False (P := encl _ _ _)) by (unfold encl; lia).
           rewrite decide_False; [done|]. intros HG. apply (target_before _ _ _ _ Ht) in HG.
           destruct Hout as [Hqs _]. unfold new_place in *. destruct (decide (src < q)%nat); lia.
Qed.

Lemma moved_edited N s o q src (nd0 : ynode) :
  intervals N s → target (count s) N (upto N o) q → outside N (upto N o) q src → (0 < src < count s)%nat →
  mem s !! src = Some nd0 → (∀ i, o = Some i → i < count s)%nat →
  runs (edited L (count s))
    (s1 ← ancestors_add s (parent nd0) (- Z.of_nat (S (N src)));
     s2 ← ancestors_add s1 o (Z.of_nat (S (N src)));
     s3 ← ay_ynode_move_subtree s2 q src;
     ay_ynode_tree_correction s3).
Proof. intros. eapply runs_mono; [by apply (moved_state N)|]. by intros ? []. Qed.

(** An assignment to the data of any element. *)
Lemma assign_sized s i f :
  tree_state L s → runs (sized (count s) (dn (mem s))) (modify_node s i (on_data f)).
Proof.
  intros Hs. enough (runs (edited L (count s)) (modify_node s i (on_data f))) as H.
  { unfold modify_node, modify in *. destruct (fetch (mem s) i) as [nd| |] eqn:Hn; [|done..].
    rewrite bind_Ok in *. unfold store in *. case_decide as Hi; [|done]. rewrite bind_Ok in *. split; [exact H|].
    intros j _. cbn. unfold dn. destruct (decide (i = j)) as [<-|Hne]; [|by rewrite list_lookup_insert_ne].
    apply fetch_Ok in Hn. by rewrite list_lookup_insert_eq, Hn. }
  destruct (decide (i < count s)%nat) as [Hi|Hi]; [by apply on_node_state|].
  destruct (Hs) as [[t ([spare Hm] & Hc & Ha & Hb)] HL]. unfold modify_node, modify.
  destruct (fetch (mem s) i) as [nd| |] eqn:Hnd; [|done|unfold fetch in Hnd; destruct (mem s !! i); by simplify_eq].
  rewrite bind_Ok. unfold store. case_decide as Hi'; [|done]. cbn.
  assert (length (enc 0 None None t) = size t) as Hlen by (rewrite <- (length_fmap strip), strip_enc; apply length_flat).
  split; [|done]. split; [exists t; split_and!; cbn|cbn; by rewrite length_insert].
  - rewrite Hm, insert_app_r_alt by lia. by eexists.
  - done.
  - by rewrite length_insert.
  - done.
Qed.

Lemma assign_state s i f : tree_state L s → runs (edited L (count s)) (modify_node s i (on_data f)).
Proof. intros Hs. eapply runs_mono; [by apply assign_sized|]. by intros ? []. Qed.

Lemma sized_state n N s : sized n N s → tree_state L s ∧ count s = n.
Proof. by intros [[? ?] _]. Qed.

Lemma sized_trans n N s s' : sized n N s → sized (count s) (dn (mem s)) s' → sized n N s'.
Proof. intros [[Hs <-] HN] [[Hs' Hc'] HN']. split; [by split|]. intros i Hi. rewrite HN' by done. by apply HN. Qed.

Lemma sized_refl s : tree_state L s → sized (count s) (dn (mem s)) s.
Proof. by intros Hs. Qed.
End shape.
