(* ===== verification/TreeEdits.v ===== *)
(** The contracts of the moves, the copies, the deletions and the other insertions of
    [Ynode] for an array that represents a tree: they end, and the array represents a
    tree with the expected number of nodes.  The node that receives a subtree must not
    be in it. *)
From S2P Require Import Prelude CString Common ParseRegex Preorder PreorderFacts Runs Lnode Ynode YnodeFacts YnodeSpec YnodeTheorems YnodeMove Forest YnodeQuery YnodeRules YnodeMandatory QueryFacts MandatoryTheorems TransBase Edits Shape.

(** Two steps together. *)
Lemma runs_seq {A B C} (R : B → Prop) (Q : C → Prop) (r : res A) (k : A → res B) (k' : B → res C) :
  runs R (a ← r; k a) → (∀ b, R b → runs Q (k' b)) → runs Q (a ← r; b ← k a; k' b).
Proof. destruct r; cbn; [apply runs_bind|done..]. Qed.

Section contracts.
Context (L : nat).
Implicit Types (s : ytree) (i j dst src : nat).

(** [dst] is not in the subtree of [src]. *)
Definition apart s dst src : Prop :=
  ∀ n, mem s !! src = Some n → (dst < src ∨ src + below n < dst)%nat.

Lemma apart_before s dst src : (dst < src)%nat → apart s dst src.
Proof. intros H n _. by left. Qed.

(** The size of a subtree as the code computes it. *)
Lemma subtree_size s N i n :
  intervals L N s → mem s !! i = Some n → (i < count s)%nat →
  u32 (descendants n + 1) = Z.of_nat (S (N i)) ∧ below n = N i.
Proof.
  intros HN Hn Hi. destruct (interval_fetch L s N HN i n Hn Hi) as [Hd Hb].
  destruct (int_nest _ _ _ HN i Hi) as [H1 _]. destruct (int_shape _ _ _ HN) as [_ _ Hl Hlt _ Hdesc].
  destruct (Hdesc (count s - 1)) as (nd & Hnd%lookup_lt_Some & _); [lia|].
  split; [|done]. rewrite Hd, u32_small; lia.
Qed.

Lemma outside_last s N dst src :
  intervals L N s → (dst < count s)%nat → (src < count s)%nat →
  (dst < src ∨ src + N src < dst)%nat → outside N (λ x, around N x dst) (S (dst + N dst)) src.
Proof.
  intros HN Hd Hs Hap. destruct (int_nest _ _ _ HN src Hs) as [_ H2]. split.
  - destruct (int_nest _ _ _ HN dst Hd) as [_ H]. specialize (H src). lia.
  - unfold around. intros x Hx Hx'. destruct (decide (x = src)) as [->|]; [lia|]. specialize (H2 x). lia.
Qed.

Lemma outside_child s N dst src :
  intervals L N s → (src < count s)%nat →
  (dst < src ∨ src + N src < dst)%nat → outside N (λ x, around N x dst) (S dst) src.
Proof.
  intros HN Hs Hap. destruct (int_nest _ _ _ HN src Hs) as [_ H2]. split; [lia|].
  unfold around. intros x Hx Hx'. destruct (decide (x = src)) as [->|]; [lia|]. specialize (H2 x). lia.
Qed.

Lemma outside_sibling s N dst src :
  intervals L N s → (dst < count s)%nat → (src < count s)%nat →
  (dst = src ∨ dst < src ∨ src + N src < dst)%nat → outside N (λ x, encl N x dst) (S (dst + N dst)) src.
Proof.
  intros HN Hd Hs Hap. destruct (int_nest _ _ _ HN src Hs) as [_ H2]. split.
  - destruct (int_nest _ _ _ HN dst Hd) as [_ H]. specialize (H src).
    destruct Hap as [->|Hap]; lia.
  - unfold encl. intros x Hx Hx'. destruct (decide (x = src)) as [->|]; [lia|]. specialize (H2 x). lia.
Qed.

(** Places by the predicate of the ancestors that the code changes. *)
Lemma target_ext n N (G G' : nat → Prop) q : (∀ x, G x ↔ G' x) → target n N G q → target n N G' q.
Proof. intros HG [H1 H2 H3 H4 H5 H6]. split; [done|by apply HG|intros i Hi%HG; auto|intros; apply HG; auto|intros i Hi%HG; auto|]. intros i j Hi Hj Hx%HG. apply HG. eauto. Qed.

Lemma outside_ext N (G G' : nat → Prop) q p : (∀ x, G x ↔ G' x) → outside N G q p → outside N G' q p.
Proof. intros HG [H1 H2]. split; [done|]. intros x Hx Hx'%HG. by apply (H2 x). Qed.

Lemma upto_parent s N i n :
  intervals L N s → mem s !! i = Some n → (i < count s)%nat → ∀ x, encl N x i ↔ upto N (parent n) x.
Proof. intros HN Hn Hi x. apply (int_kin _ _ _ HN i n Hi Hn). Qed.

Lemma parent_valid s N i n :
  intervals L N s → mem s !! i = Some n → (i < count s)%nat → ∀ p, parent n = Some p → (p < count s)%nat.
Proof. intros HN Hn Hi p Hp. destruct (int_kin _ _ _ HN i n Hi Hn) as [H _]. specialize (H p Hp). lia. Qed.

(** ** Moves *)

Lemma move_as_sibling_state s dst src :
  tree_state L s → inner s dst → inner s src → apart s dst src →
  runs (edited L (count s)) (ay_ynode_move_subtree_as_sibling s dst src).
Proof.
  intros Hs Hd Hsrc Hap. destruct (tree_intervals L s Hs) as [N HN]. unfold inner in *.
  unfold ay_ynode_move_subtree_as_sibling. eapply runs_bind; [apply runs_fetch|]. intros d Hdn.
  case_bool_decide; [by split|]. eapply runs_bind; [apply runs_fetch|]. intros n Hn. cbv zeta.
  destruct (subtree_size s N src n HN Hn) as [-> Hb]; [lia|]. specialize (Hap n Hn). rewrite Hb in Hap.
  destruct (subtree_size s N dst d HN Hdn) as [_ ->]; [lia|].
  pose proof (upto_parent s N dst d HN Hdn ltac:(lia)) as Hup. rewrite Nat.add_1_r.
  apply (moved_edited L N s (parent d) (S (dst + N dst)) src n HN); [| |lia|done|].
  - eapply target_ext; [exact Hup|]. apply target_sibling; [apply HN|apply HN|lia].
  - eapply outside_ext; [exact Hup|]. apply (outside_sibling s); [done|lia|lia|by right].
  - exact (parent_valid s N dst d HN Hdn ltac:(lia)).
Qed.

Lemma move_as_child_state s dst src :
  tree_state L s → valid s dst → inner s src → apart s dst src →
  runs (edited L (count s)) (ay_ynode_move_subtree_as_child s dst src).
Proof.
  intros Hs Hd Hsrc Hap. destruct (tree_intervals L s Hs) as [N HN]. unfold inner, valid in *.
  unfold ay_ynode_move_subtree_as_child. eapply runs_bind; [apply runs_fetch|]. intros d Hdn.
  case_bool_decide; [by split|]. eapply runs_bind; [apply runs_fetch|]. intros n Hn. cbv zeta.
  destruct (subtree_size s N src n HN Hn) as [-> Hb]; [lia|]. specialize (Hap n Hn). rewrite Hb in Hap.
  rewrite Nat.add_1_r. apply (moved_edited L N s (Some dst) (S dst) src n HN); [| |lia|done|].
  - apply target_child; [apply HN|apply HN|lia].
  - apply (outside_child s); [done|lia|done].
  - by intros i [= <-].
Qed.

(** The last child of [dst]. *)
Lemma get_last_state s N dst d :
  tree_state L s → intervals L N s → mem s !! dst = Some d → (dst < count s)%nat →
  runs (λ o, match o with
      | Some l => (dst < l < count s)%nat ∧ (l + N l = dst + N dst)%nat ∧
                  ∃ nd, mem s !! l = Some nd ∧ parent nd = Some dst
      | None => N dst = 0
      end) (ay_ynode_get_last (mem s) (child d)).
Proof.
  intros Hs HN Hd Hi. pose proof (child_interval L s N Hs HN dst d Hd Hi) as Hc.
  unfold ay_ynode_get_last. destruct (child d) as [c|]; [|done].
  destruct Hc as (-> & Hcc & nd & Hnd & Hp). eapply runs_bind.
  - apply (last_from_interval L s N Hs HN (length (mem s)) (S dst) nd dst); [done|done|done|].
    pose proof (state_length L s Hs). destruct Hs as [_ HL]. lia.
  - intros l (Hl & He & Hx). apply runs_Ok. split; [lia|]. split; [done|exact Hx].
Qed.

Lemma move_as_last_child_state s dst src :
  tree_state L s → valid s dst → inner s src → apart s dst src →
  runs (edited L (count s)) (ay_ynode_move_subtree_as_last_child s dst src).
Proof.
  intros Hs Hd Hsrc Hap. destruct (tree_intervals L s Hs) as [N HN]. unfold inner, valid in *.
  unfold ay_ynode_move_subtree_as_last_child. case_match; [by split|].
  eapply runs_bind; [apply runs_fetch|]. intros d Hdn. eapply runs_bind; [exact (get_last_state s N dst d Hs HN Hdn Hd)|].
  intros [l|] Hl; [|by apply move_as_child_state].
  destruct Hl as (Hll & Hle & Hlp).
  destruct (decide (l = src)) as [->|Hne].
  { (* The subtree is already the last child. *)
    destruct (shape_desc _ _ _ _ (int_shape _ _ _ HN) src) as (n & Hn & _); [lia|].
    destruct Hlp as (nd & Hnd & Hp). simplify_eq.
    unfold ay_ynode_move_subtree_as_sibling. rewrite (fetch_Some _ _ _ Hnd), bind_Ok.
    case_bool_decide as Hnx; [by split|]. rewrite bind_Ok. cbv zeta.
    destruct (subtree_size s N src nd HN Hnd) as [-> Hb]; [lia|]. rewrite Hb, Nat.add_1_r.
    pose proof (upto_parent s N src nd HN Hnd ltac:(lia)) as Hup.
    apply (moved_edited L N s (parent nd) (S (src + N src)) src nd HN); [| |lia|done|].
    - eapply target_ext; [exact Hup|]. apply target_sibling; [apply HN|apply HN|lia].
    - eapply outside_ext; [exact Hup|]. apply (outside_sibling s); [done|lia|lia|by left].
    - exact (parent_valid s N src nd HN Hnd ltac:(lia)). }
  apply move_as_sibling_state; [done|unfold inner; lia|done|].
  intros n Hn. specialize (Hap n Hn). destruct (subtree_size s N src n HN Hn) as [_ Hb]; [lia|]. rewrite Hb in *.
  (* [l] is not in the subtree of [src] because [dst] is not. *)
  destruct (decide (src <= l <= src + N src)%nat) as [Hin|]; [|lia].
  destruct Hlp as (nd & Hnd & Hp). destruct (int_kin _ _ _ HN l nd ltac:(lia) Hnd) as [_ Hk].
  specialize (Hk src). rewrite Hp in Hk. unfold encl, around in Hk. lia.
Qed.

(** ** Copies *)

Lemma when_target_any n j m o wr : runs any (when_target_offset n j m o wr).
Proof. revert j. induction n as [|n IH]; intros j; cbn [when_target_offset]; runs. Qed.

Lemma when_ref_loop_sized n i s c o size :
  tree_state L s → runs (sized L (count s) (dn (mem s))) (when_ref_correction_loop n i s c o size).
Proof.
  revert i s. induction n as [|n IH]; intros i s Hs; [by apply sized_refl|]. cbn [when_ref_correction_loop].
  eapply runs_bind; [apply runs_fetch|]. intros nd _. eapply (runs_bind (sized L (count s) (dn (mem s)))).
  { runs_step; [by apply runs_Ok, sized_refl|]. eapply (runs_bind any); [apply when_target_any|]. intros t _.
    eapply runs_bind; [apply runs_fetch|]. intros src _. by apply assign_sized. }
  intros s' Hs'. eapply runs_mono; [apply IH, Hs'|]. intros s2. by apply sized_trans.
Qed.

Lemma when_ref_sized s o o' :
  tree_state L s → runs (sized L (count s) (dn (mem s))) (ay_ynode_copy_subtree_when_ref_correction s o o').
Proof.
  intros Hs. unfold ay_ynode_copy_subtree_when_ref_correction. do 4 runs_step. by apply when_ref_loop_sized.
Qed.

Lemma space_runs s k : runs (λ _, k + Z.of_nat (count s) ≤ arrsize s)%Z (space_for s k).
Proof. unfold space_for. eapply runs_mono; [apply runs_assert|]. intros [] H. by apply Z.leb_le. Qed.


(** The last child or nothing, without the place. *)
Lemma get_last_any s i n : tree_state L s → valid s i → mem s !! i = Some n → runs any (ay_ynode_get_last (mem s) (child n)).
Proof.
  intros Hs Hi Hn. destruct (tree_intervals L s Hs) as [N HN].
  eapply runs_any, (get_last_state s N i n Hs HN Hn Hi).
Qed.

(** The result of a copy of [src] into [dst]: [dst] has the new nodes, or its last child
    is [src]. *)
Definition copied_into s dst src s' : Prop :=
  tree_state L s' ∧
  (s' = s ∧ (src + dn (mem s) src = dst + dn (mem s) dst)%nat ∨
   count s' = (count s + S (dn (mem s) src))%nat ∧ dn (mem s') dst = (dn (mem s) dst + S (dn (mem s) src))%nat).

Lemma copy_as_last_child_state s dst src n :
  tree_state L s → valid s dst → mem s !! src = Some n → valid s src → apart s dst src →
  runs (copied_into s dst src) (ay_ynode_copy_subtree_as_last_child s dst src).
Proof.
  intros Hs Hd Hn Hsrc Hap. destruct (tree_intervals L s Hs) as [N HN]. unfold valid in *.
  unfold ay_ynode_copy_subtree_as_last_child. rewrite (fetch_Some _ _ _ Hn), bind_Ok.
  destruct (subtree_size s N src n HN Hn Hsrc) as [-> Hb]. specialize (Hap n Hn). rewrite Hb in *.
  eapply runs_bind; [apply space_runs|]. intros [] Hsp. eapply runs_bind; [apply runs_fetch|]. intros d Hdn.
  eapply runs_bind; [exact (get_last_state s N dst d Hs HN Hdn Hd)|]. intros last Hlast.
  assert (dn (mem s) src = N src) as Hdns by (unfold dn; by rewrite Hn).
  assert (dn (mem s) dst = N dst) as Hdnd.
  { unfold dn. rewrite Hdn. by destruct (subtree_size s N dst d HN Hdn Hd) as [_ ->]. }
  case_bool_decide as Hls.
  { split; [done|]. left. split; [done|]. subst last. rewrite Hdns, Hdnd. apply Hlast. }
  cbv zeta. rewrite (ancestors_add_grow L N) by (done || by intros i [= <-]). rewrite bind_Ok.
  set (s1 := set_mem _ s).
  eapply (runs_bind (λ q, q = S (dst + N dst))).
  { destruct last as [l|].
    - destruct Hlast as (Hll & Hle & nd & Hnd & Hp).
      unfold s1. cbn [mem set_mem]. eapply runs_bind; [apply runs_fetch|]. intros ln Hln. apply runs_Ok.
      rewrite grow_lookup, Hnd in Hln. cbn in Hln. rewrite decide_False in Hln by (unfold around; lia).
      simplify_eq. destruct (subtree_size s N l ln HN Hnd) as [_ ->]; lia.
    - apply runs_Ok. lia. }
  intros q ->. pose proof (shape_size _ _ _ _ (int_shape _ _ _ HN)) as Hsz.
  eapply runs_seq.
  { apply (copied_state L N s (Some dst) (S (dst + N dst)) src HN);
      [apply target_last; [apply HN|apply HN|done]|by apply (outside_last s)|done|lia]. }
  intros s3 Hs3. destruct (sized_state _ _ _ _ Hs3) as [Ht3 Hc3].
  eapply runs_bind; [apply runs_fetch|]. intros d' Hd'. eapply (runs_bind any).
  { apply (get_last_any s3 dst); [done|unfold valid; lia|done]. }
  intros copied _. eapply runs_mono; [by apply when_ref_sized|]. intros s4 Hs4.
  pose proof (sized_trans _ _ _ _ _ Hs3 Hs4) as [[Ht4 Hc4] HN4]. split; [done|]. right. rewrite Hdns, Hdnd. split; [done|].
  rewrite HN4 by lia. unfold put_in. by rewrite !decide_True by (unfold upto, around; lia).
Qed.

Lemma copy_as_sibling_state s dst src n :
  tree_state L s → inner s dst → mem s !! src = Some n → valid s src → dst = src ∨ apart s dst src →
  runs (edited L (count s + S (below n))) (ay_ynode_copy_subtree_as_sibling s dst src).
Proof.
  intros Hs Hd Hn Hsrc Hap. destruct (tree_intervals L s Hs) as [N HN]. unfold valid, inner in *.
  unfold ay_ynode_copy_subtree_as_sibling. rewrite (fetch_Some _ _ _ Hn), bind_Ok.
  destruct (subtree_size s N src n HN Hn Hsrc) as [-> Hb]. rewrite Hb.
  eapply runs_bind; [apply space_runs|]. intros [] Hsp. eapply runs_bind; [apply runs_fetch|]. intros d Hdn. cbv zeta.
  destruct (subtree_size s N dst d HN Hdn) as [_ ->]; [lia|]. rewrite Nat.add_1_r.
  rewrite (ancestors_add_grow L N) by (done || exact (parent_valid s N dst d HN Hdn ltac:(lia))).
  rewrite bind_Ok. set (s1 := set_mem _ s).
  pose proof (upto_parent s N dst d HN Hdn ltac:(lia)) as Hup.
  pose proof (shape_size _ _ _ _ (int_shape _ _ _ HN)) as Hsz.
  eapply runs_seq.
  { apply (copied_state L N s (parent d) (S (dst + N dst)) src HN); [| |done|lia].
    - eapply target_ext; [exact Hup|]. apply target_sibling; [apply HN|apply HN|lia].
    - eapply outside_ext; [exact Hup|]. apply (outside_sibling s); [done|lia|lia|].
      destruct Hap as [->|Hap]; [by left|]. specialize (Hap n Hn). lia. }
  intros s3 Hs3. destruct (sized_state _ _ _ _ Hs3) as [Ht3 Hc3].
  eapply runs_bind; [apply runs_fetch|]. intros d' Hd'.
  eapply runs_mono; [by apply when_ref_sized|]. intros s4 Hs4.
  by destruct (sized_trans _ _ _ _ _ Hs3 Hs4).
Qed.

(** ** Deletions *)

Lemma delete_subtree_state s i n :
  tree_state L s → inner s i → mem s !! i = Some n →
  runs (λ s', edited L (count s - S (below n)) s' ∧ cleared s s') (ay_ynode_delete_subtree s i).
Proof.
  intros Hs Hi Hn. destruct (inner_place L s i Hs Hi) as (pd & ls & rs & c & d & cs & Hr & <-).
  destruct (delete_subtree_clears (Frame pd ls rs :: c) s (T d cs)) as (s' & -> & Hr' & [Ha _] & Hz); [done|done|].
  destruct (repr_in_fetch s _ _ [] Hr) as (n' & Hn'%fetch_Ok & _ & _ & _ & Hd & _). simplify_eq.
  split; [|done]. split; [by eapply state_of_place|]. rewrite (place_count _ _ _ Hr), (place_count _ _ _ Hr').
  unfold below. rewrite Hd, Nat2Z.id. cbn [sizes subtrees]. rewrite size_T. lia.
Qed.

(** What [ay_ynode_inner_nodes] finds is a part of the children up to the last one. *)
Lemma inner_nodes_state s c d cs :
  repr_in s c [T d cs] →
  runs (λ o, ∀ f, o = Some f → ∃ vs us, cs = vs ++ us ∧ us ≠ [] ∧ f = (S (hole c) + sizes vs)%nat)
    (ay_ynode_inner_nodes (mem s) (hole c)).
Proof.
  intros H. unfold ay_ynode_inner_nodes. destruct (repr_in_fetch s c _ [] H) as (n & -> & _ & _ & Hch & _).
  rewrite bind_Ok, Hch. cbn [subtrees]. pose proof (proj1 (children_at_end s c d cs) H) as He.
  assert (∀ vs us, cs = vs ++ us → at_end s c d vs us → runs (λ o, ∀ f, o = Some f →
    ∃ vs us, cs = vs ++ us ∧ us ≠ [] ∧ f = (S (hole c) + sizes vs)%nat)
    (match first_index (S (hole c) + sizes vs) us with
     | None => Ok None
     | Some i => n ← fetch (mem s) i; Ok (if bool_decide (type (data n) = YN_VALUE) then next n else Some i)
     end)) as Hvalue.
  { intros vs [|u us] Hcs Hend; [done|]. cbn [first_index].
    destruct (at_end_step s c d vs u us Hend) as (_ & x & -> & Hx & _). rewrite bind_Ok. apply runs_Ok.
    rewrite Hx. case_bool_decide.
    - destruct us as [|v us]; [done|]. intros f [= <-]. exists (vs ++ [u]), (v :: us).
      split_and!; [by rewrite <- app_assoc|done|]. rewrite !sizes_app. done.
    - intros f [= <-]. by exists vs, (u :: us). }
  destruct cs as [|u us]; cbn [first_index]; [done|].
  destruct (at_end_step s c d [] u us He) as (He' & x & Hx & Hnx & _).
  cbn [sizes] in Hx. rewrite Nat.add_0_r in Hx. rewrite Hx, bind_Ok.
  case_bool_decide.
  - destruct (bool_decide (label _ = label _)); [|by cbn]. cbn [c_assert]. rewrite !bind_Ok, Hnx.
    by apply (Hvalue [u] us).
  - rewrite bind_Ok. pose proof (Hvalue [] (u :: us) eq_refl He) as Hv.
    cbn [first_index sizes] in Hv. rewrite Nat.add_0_r in Hv. exact Hv.
Qed.

Lemma delete_children_state s i b :
  tree_state L s → valid s i → runs (λ s', tree_state L s' ∧ i < count s' <= count s)%nat (ay_ynode_delete_children s i b).
Proof.
  intros Hs Hi. destruct (state_place L s i Hs Hi) as (c & d & cs & Hr & <-).
  pose proof (place_count _ _ _ Hr) as Hcount. cbn [sizes] in Hcount. rewrite size_T in Hcount.
  destruct b.
  - unfold ay_ynode_delete_children. eapply runs_bind; [apply runs_fetch|]. intros n Hn.
    pose proof (inner_nodes_state s c d cs Hr) as Hin. unfold ay_ynode_inner_nodes_descendants.
    destruct (ay_ynode_inner_nodes (mem s) (hole c)) as [[f|]| |] eqn:Hinner; [|by cbn..|by cbn in *].
    rewrite !bind_Ok.
    destruct (Hin f eq_refl) as (vs & us & -> & Hus & ->). rewrite (fetch_Some _ _ _ Hn), !bind_Ok.
    destruct (repr_in_fetch s c _ [] Hr) as (n' & Hn' & _ & _ & _ & Hd & _).
    rewrite (fetch_Some _ _ _ Hn) in Hn'. injection Hn' as <-. cbn [subtrees] in Hd. rewrite sizes_app in *.
    pose proof (state_length L s Hs) as HL. destruct (Hs) as [[t (_ & _ & Ha & Hlt)] HLm].
    assert (u32 (u64 (descendants n - (Z.of_nat (S (hole c) + sizes vs) - 1 - Z.of_nat (hole c)))) = Z.of_nat (sizes us)) as ->.
    { rewrite Hd. replace (_ - _)%Z with (Z.of_nat (sizes us)) by lia. rewrite u64_small by lia. apply u32_small. lia. }
    assert (sizes us ≠ 0) as Hpos by (intros H0; by apply Hus, sizes_0).
    rewrite (proj2 (Z.eqb_neq _ _)) by lia. cbn [deref]. rewrite bind_Ok.
    assert (repr_in s (Frame d vs [] :: c) (us ++ [])) as Hu.
    { revert Hr. apply repr_in_view. cbn. by rewrite !app_nil_r. }
    destruct us as [|u us]; [done|].
    destruct (repr_in_fetch s _ u (us ++ []) Hu) as (fn & Hfn & Hp & _). cbn [hole] in Hfn.
    rewrite Hfn, bind_Ok, Hp, Nat2Z.id.
    destruct (delete_forest_spec (Frame d vs [] :: c) s (u :: us) [] ltac:(done) Hu) as (s' & Heq & Hr' & [Ha' _] & _).
    cbn [hole hole_parent] in Heq |- *. rewrite Heq.
    split; [by eapply state_of_place|]. pose proof (place_count _ _ _ Hr') as Hc'.
    cbn [hole cpost sizes flats app] in *. lia.
  - destruct (delete_children_ok c s d cs Hr) as (s' & -> & Hr' & [Ha _]).
    split; [by eapply state_of_place|]. rewrite (place_count _ _ _ Hr'). cbn [sizes]. rewrite size_T. cbn. lia.
Qed.

(** The elements that are not in use stay when members of nodes are assigned. *)
Lemma modify_tail s i f : (i < count s)%nat → runs (same_tail s) (modify_node s i f).
Proof.
  intros Hi. destruct (modify_node s i f) as [s'| |] eqn:Heq; [|done|].
  - intros j Hj. apply (modify_lookup_ne _ _ _ _ j Heq). lia.
  - unfold modify_node, modify, fetch, store in Heq. repeat (case_match || simplify_eq/= || case_decide); done.
Qed.

Lemma mapM_nofuel s l f : runs any (mapM_nodes s l f).
Proof.
  unfold mapM_nodes. assert (∀ r : res ytree, runs any r → runs any (foldl (λ r i, s' ← r; modify_node s' i (on_data f)) r l)) as H.
  { induction l as [|i l IH]; intros r Hr; [done|]. apply IH. eapply (runs_bind any); [done|]. intros s' _.
    unfold modify_node, modify, store. runs. }
  by apply H.
Qed.

Lemma mapM_tail s l f : Forall (λ i, i < count s)%nat l → runs (same_tail s) (mapM_nodes s l f).
Proof.
  intros Hl. pose proof (mapM_nofuel s l f) as Hm.
  destruct (mapM_nodes s l f) as [s'| |f'] eqn:Heq; [|done|].
  - intros j Hj. apply (mapM_lookup_ne _ _ _ _ j Heq). intros i Hi. rewrite Forall_forall in Hl. specialize (Hl i Hi). lia.
  - exact Hm.
Qed.

Lemma delete_node_choice_tail s i n :
  tree_state L s → inner s i → mem s !! i = Some n → runs (λ r, same_tail s r.1) (delete_node_choice s i n).
Proof.
  intros Hs Hi Hn. pose proof (state_forward L s Hs) as Hf. unfold delete_node_choice.
  destruct (links_valid L s i n Hs (inner_valid _ _ Hi) Hn) as (_ & Hc & _).
  runs_step; [|eapply (runs_bind any); [apply (alone_in_choice_runs (count s)); [done|apply Hi]|]; intros a _; by runs].
  runs_step; [|done]. runs_step; [|done]. runs_step. runs_step.
  - eapply runs_bind; [apply (siblings_from_runs (count s)); [done|by intros j [= <-]; apply Hc]|]. intros l Hl.
    runs_step.
    + eapply runs_bind; [by apply modify_tail, Hi|]. intros s' Hs'. by apply runs_Ok.
    + eapply runs_bind; [by apply mapM_tail|]. intros s' Hs'. by apply runs_Ok.
  - eapply runs_bind; [by apply modify_tail, Hc|]. intros s' Hs'. by apply runs_Ok.
Qed.

(** The number of nodes after [ay_ynode_delete_node]; the element that is not in use
    any more is zeroed. *)
Definition removed (s : ytree) (r : ytree * bool) : Prop :=
  tree_state L r.1 ∧ count r.1 = (if r.2 then count s else (count s - 1)%nat) ∧ cleared s r.1.

Lemma delete_node_rest_state s s1 c pd ls rs d cs n :
  tree_state L s → count s1 = count s → arrsize s1 = arrsize s → same_tail s s1 →
  repr_in s1 (Frame pd ls rs :: c) [T d cs] →
  parent n = Some (hole c) → child n = first_index (S (hole (Frame pd ls rs :: c))) cs → data n = d →
  runs (removed s) (delete_node_rest s1 (hole (Frame pd ls rs :: c)) n).
Proof.
  intros Hs Hc1 Ha1 Htl Hr Hp Hch Hd.
  destruct (delete_node_rest_ok c pd ls rs s1 d cs n Hr Hd Hp Hch) as (s' & -> & Hr' & [Ha' _] & Hz).
  split; [eapply state_of_place; [done|done|cbn; congruence]|].
  split; [|by apply (cleared_from s s1)]. cbn [fst snd].
  pose proof (place_count _ _ _ Hr) as Hc. cbn [hole cpost sizes] in Hc. rewrite size_T, length_app, length_flats in Hc.
  rewrite (place_count _ _ _ Hr'). cbn [sizes]. rewrite size_T, only_child_sizes, !sizes_app.
  assert (sizes (inherit_optional d cs) = sizes cs) as ->.
  { unfold inherit_optional. case_match; [apply map_root_sizes|done]. }
  lia.
Qed.

Lemma delete_node_state s i : tree_state L s → inner s i → runs (removed s) (ay_ynode_delete_node s i).
Proof.
  intros Hs Hi. destruct (inner_place L s i Hs Hi) as (pd & ls & rs & c & d & cs & Hr & <-).
  unfold ay_ynode_delete_node. destruct (repr_in_fetch s _ _ [] Hr) as (n & Hn & Hp & _ & Hch & _ & Hd).
  rewrite Hn, bind_Ok. cbn [root_data subtrees] in *.
  destruct (decide (type d = YN_CASE)) as [Hty|Hty].
  - unfold delete_node_choice. rewrite Hd, bool_decide_false by (intros H; by apply H).
    destruct (ay_ynode_alone_in_choice (mem s) _) as [[]| |f] eqn:Ha; [|by cbn..|].
    2: { pose proof (alone_in_choice_runs (count s) (mem s) (state_forward L s Hs) _ (proj2 Hi)) as H. by rewrite Ha in H. }
    rewrite !bind_Ok. cbn [c_assert]. rewrite !bind_Ok, <- Hd. by apply (delete_node_rest_state s s c pd ls rs d cs).
  - pose proof (delete_node_choice_tail s _ n Hs Hi (proj1 (fetch_Ok _ _ _) Hn)) as Htl.
    pose proof (delete_node_choice_ok s _ d cs n Hty Hr Hn) as (s1 & Heq & [Ha1 Hi1] & Hc1 & Hr1).
    rewrite Heq in Htl |- *. cbn [runs fst] in Htl. rewrite bind_Ok. destruct (becomes_case d cs) eqn:Hb.
    + split; [eapply state_of_place; [done|exact Hr1|done]|]. split; [done|]. split; [|done].
      intros j Hj. cbn [fst] in Hj. lia.
    + apply (delete_node_rest_state s s1 c pd ls rs d (inherit_choice d cs)); try done.
      rewrite Hch. unfold inherit_choice. destruct (choice d); [|done]. by destruct cs.
Qed.

(** ** Insertions *)

Lemma insert_child_last_state s i :
  tree_state L s → valid s i →
  runs (λ r, edited L (S (count s)) r.1 ∧ ∀ j, r.2 = Some j → inner r.1 j) (ay_ynode_insert_child_last s i).
Proof.
  intros Hs Hi. destruct (state_place L s i Hs Hi) as (c & d & cs & Hr & <-).
  destruct (decide (Z.of_nat 1 + Z.of_nat (count s) ≤ arrsize s)%Z) as [Hsp|Hsp].
  - destruct (insert_child_last_ok c s d cs Hsp Hr) as (s' & -> & Hr' & Ha & _).
    pose proof (place_count _ _ _ Hr) as Hc. pose proof (place_count _ _ _ Hr') as Hc'.
    cbn [sizes] in Hc, Hc'. rewrite size_T in Hc, Hc'. rewrite sizes_app in Hc'. cbn [sizes] in Hc'. rewrite size_T in Hc'. cbn [sizes] in Hc'.
    split; [split; [by eapply state_of_place|cbn; lia]|]. intros j [= <-]. unfold inner. cbn [fst]. lia.
  - unfold ay_ynode_insert_child_last, space_for. replace (_ <=? _)%Z with false; [done|].
    symmetry. apply Z.leb_gt. lia.
Qed.

Lemma insert_parent_for_rest_state s i :
  tree_state L s → inner s i → runs (edited L (S (count s))) (ay_ynode_insert_parent_for_rest s i).
Proof.
  intros Hs Hi. destruct (inner_place L s i Hs Hi) as (pd & ls & rs & c & d & cs & Hr & Hh).
  assert (repr_in s (Frame pd ls [] :: c) (T d cs :: rs)) as Hr'.
  { revert Hr. apply repr_in_view. cbn. by rewrite app_nil_r. }
  assert (hole (Frame pd ls [] :: c) = i) as <- by exact Hh.
  eapply (inserted_state L s (Frame pd ls [] :: c) (T d cs :: rs) [T (new_data (idcnt s)) (T d cs :: rs)]); [done|done|done| |].
  - cbn [sizes]. rewrite (size_T (new_data _)). cbn [sizes]. lia.
  - intros Hsp. exact (insert_parent_for_rest_ok _ s Hsp pd ls (T d cs) rs c eq_refl Hr').
Qed.

(** ** Data *)

Lemma dget_data s i d : dget s i = Ok d → ∃ n, mem s !! i = Some n ∧ data n = d.
Proof. unfold dget. destruct (fetch (mem s) i) eqn:Hn; [|done..]. intros [= <-]. apply fetch_Ok in Hn. eauto. Qed.

Lemma modify_keeps_links s i (f : ynode → ynode) g :
  (∀ n, mem s !! i = Some n → f n = on_data g n) → modify_node s i f = modify_node s i (on_data g).
Proof.
  intros Hf. unfold modify_node, modify, fetch. destruct (mem s !! i) eqn:Hn; [|done]. cbn. by rewrite Hf.
Qed.

Lemma swap_state s i j : tree_state L s → runs (edited L (count s)) (ay_ynode_swap s i j).
Proof.
  intros Hs. unfold ay_ynode_swap. eapply runs_bind; [apply runs_fetch|]. intros n1 Hn1.
  eapply runs_bind; [apply runs_fetch|]. intros n2 Hn2.
  rewrite (modify_keeps_links s i _ (λ _, with_choice (choice (data n1)) (data n2)))
    by (intros n Hn; rewrite Hn1 in Hn; by injection Hn as <-).
  eapply runs_bind; [by apply assign_state|]. intros s1 [Hs1 <-].
  eapply runs_bind; [apply runs_fetch|]. intros n2' Hn2'.
  rewrite (modify_keeps_links s1 j _ (λ _, with_choice (choice (data n2')) (data n1)))
    by (intros n Hn; rewrite Hn2' in Hn; by injection Hn as <-).
  by apply assign_state.
Qed.

(** ** Siblings *)

Lemma prev_from_runs k m prev nd :
  forward k m → (prev < k)%nat → runs (λ p, prev <= p < k ∧ p <= nd)%nat (prev_from (length m) m prev nd).
Proof.
  intros Hf Hp. enough (∀ fuel p, (prev <= p)%nat → (p < k <= p + fuel)%nat →
    runs (λ p, prev <= p < k ∧ p <= nd)%nat (prev_from fuel m p nd)) as H.
  { apply H; [done|]. pose proof (forward_length Hf). lia. }
  induction fuel as [|fuel IH]; intros p Hge Hk; [lia|]. cbn [prev_from]. destruct (Nat.eqb_spec p nd) as [->|].
  { apply runs_Ok. lia. }
  runs_step. destruct (forward_lookup Hf p a) as (_ & Hn & _); [lia|done|]. case_bool_decide as Hnd.
  { specialize (Hn nd Hnd). apply runs_Ok. lia. }
  eapply runs_bind; [apply runs_deref|]. intros nx Hnx. specialize (Hn nx Hnx). apply IH; lia.
Qed.

Lemma get_prev_state s i :
  tree_state L s → valid s i → runs (λ o, ∀ p, o = Some p → 0 < p < i)%nat (ay_ynode_get_prev (mem s) i).
Proof.
  intros Hs Hi. pose proof (state_forward L s Hs) as Hf. unfold ay_ynode_get_prev, valid in *. runs_step. runs_step.
  eapply runs_bind; [apply runs_deref|]. intros p Hp. eapply runs_bind; [apply runs_fetch|]. intros pn Hpn.
  eapply runs_bind; [apply runs_deref|]. intros first Hfirst.
  assert (p < count s)%nat as Hpc by (by apply (parent_below (count s) (mem s) Hf i a)).
  destruct (forward_lookup Hf p pn Hpc Hpn) as (_ & _ & Hc & _). specialize (Hc first Hfirst).
  eapply runs_bind; [apply (prev_from_runs (count s)); [done|lia]|]. intros prev Hprev. apply runs_Ok.
  cbv beta in Hprev. destruct (Nat.eqb_spec prev i); [done|]. intros q [= <-]. lia.
Qed.

(** ** Loops *)

Lemma next_of_fetch s i : runs (λ o, ∃ n, mem s !! i = Some n ∧ o = next n) (next_of s i).
Proof. unfold next_of, fetch. destruct (mem s !! i) as [n|]; [by exists n|done]. Qed.

Lemma size_of_fetch s i : runs (λ k, ∃ n, mem s !! i = Some n ∧ k = below n ∧ k = dn (mem s) i) (size_of s i).
Proof.
  unfold size_of, fetch. destruct (mem s !! i) as [n|] eqn:Hn; [|done]. exists n. unfold dn. by rewrite Hn.
Qed.

(** The end of a list of siblings. *)
Definition dead s (j : nat) : Prop := ∀ n, mem s !! j = Some n → next n = None.

(** Where a loop goes on: not in front of [i], or at an element that is not a node
    any more. *)
Definition goes_on s (i : nat) (o : option nat) : Prop :=
  ∀ j, o = Some j → dead s j ∨ (i <= j < count s)%nat.

(** A loop along [next] from a node that is not in front of [lo] goes up in the
    array. *)
Lemma walk_up {St} (tree : St → ytree) (P : St → Prop) lo body :
  (∀ x, P x → tree_state L (tree x)) →
  (∀ x i, P x → (lo <= i < count (tree x))%nat →
    runs (λ r, P r.1 ∧ goes_on (tree r.1) i r.2) (body x i)) →
  ∀ iter x, P x → (∀ i, iter = Some i → lo <= i < count (tree x))%nat → runs P (walk tree L body iter x).
Proof.
  intros HP Hb. enough (∀ fuel iter x, P x →
    (∀ i, iter = Some i → lo <= i < count (tree x) ∧ L <= i + fuel)%nat →
    runs P (walk tree fuel body iter x)) as H.
  { intros iter x Hx Hi. apply H; [done|]. intros i ->. specialize (Hi i eq_refl). split; [done|lia]. }
  induction fuel as [|fuel IH]; intros [i|] x Hx Hi; try done; destruct (Hi i eq_refl) as [Hv Hf].
  - pose proof (state_length L _ (HP x Hx)). lia.
  - cbn [walk]. eapply runs_bind; [by apply Hb|]. intros [x' o] [Hx' Ho]. cbn [fst snd] in *.
    destruct o as [j|]; [|done]. destruct (Ho j eq_refl) as [Hend|Hj].
    + unfold next_of. eapply (runs_bind (λ nx, nx = None)).
      { eapply (runs_bind (λ n, next n = None)); [eapply runs_mono; [apply runs_fetch|]; exact Hend|].
        intros n Hn. by apply runs_Ok. }
      intros nx ->. by destruct fuel.
    + eapply runs_bind; [apply (next_of_state L); [by apply HP|apply Hj]|]. intros nx Hnx. apply IH; [done|].
      intros j' ->. specialize (Hnx j' eq_refl). unfold behind in *. lia.
Qed.

(** The same with the fuel that the model takes. *)
Lemma walk_tree_up (P : ytree → Prop) lo body iter s :
  (∀ s, P s → tree_state L s) →
  (∀ s i, P s → (lo <= i < count s)%nat → runs (λ r, P r.1 ∧ goes_on r.1 i r.2) (body s i)) →
  P s → (∀ i, iter = Some i → lo <= i < count s)%nat → runs P (walk_tree body iter s).
Proof.
  intros HP Hb Hs Hi. unfold walk_tree. destruct (HP s Hs) as [_ ->].
  by apply (walk_up (λ s, s) P lo).
Qed.

(** The same element, also after a deletion there. *)
Lemma goes_on_same s i : (i < count s)%nat → goes_on s i (Some i).
Proof. intros Hi j [= <-]. right. lia. Qed.

Lemma goes_on_deleted s s' i : cleared s s' → (i < count s)%nat → goes_on s' i (Some i).
Proof.
  intros [Hz _] Hi j [= <-]. destruct (decide (i < count s')%nat) as [Hlt|Hge]; [right; lia|].
  left. intros n Hn. rewrite Hz in Hn by lia. by injection Hn as <-.
Qed.

(** After two deletions. *)
Lemma goes_on_deleted_twice s s1 s2 i :
  cleared s s1 → cleared s1 s2 → (i < count s)%nat → goes_on s2 i (Some i).
Proof.
  intros [H1 _] [H2 H3] Hi j [= <-]. destruct (decide (i < count s2)%nat) as [Hlt|Hge]; [right; lia|].
  left. intros n Hn. destruct (decide (i < count s1)%nat).
  - rewrite H2 in Hn by lia. by injection Hn as <-.
  - rewrite H3, H1 in Hn by lia. by injection Hn as <-.
Qed.

Lemma cleared_refl s : cleared s s.
Proof. split; [|done]. intros j Hj. lia. Qed.
End contracts.
