(* ===== verification/PassTheorems.v ===== *)
(** The passes over the tree that assign members, those that insert nodes for lists, keys
    and values, the dictionaries of labels and values, the conditions that depend on a
    value, and the deletion of the recursive nodes: each of them ends, and the array
    represents a tree afterwards. *)
From S2P Require Import Prelude CString Common ParseRegex Preorder PreorderFacts Runs Ynode YnodeFacts YnodeSpec YnodeTheorems Lnode Forest ForestTheorems YnodeQuery YnodeRules YnodeMandatory QueryFacts MandatoryTheorems QueryTheorems RuleTheorems Dnode TransBase TransChoice TransCase TransMerge TransForm TransGroup Edits Shape TreeEdits.

#[local] Hint Resolve dget_runs inner_valid behind_valid behind_inner : runs.
#[local] Hint Extern 1 (runs any (c_assert _)) => exact (runs_any _ _ (runs_assert _)) : runs.

(** ** Queries *)

Section queries.
Context (lm : list lnode) (Hlm : lnode_array lm).
Context (k : nat) (m : list ynode) (Hm : forward k m).

Lemma label_lens_runs n : runs any (label_lens lm n).
Proof. unfold label_lens. runs. Qed.
Lemma value_lens_runs n : runs any (value_lens lm n).
Proof. unfold value_lens. runs. Qed.
Lemma snode_lens_runs n : runs any (snode_lens lm n).
Proof. unfold snode_lens. runs. Qed.
#[local] Hint Resolve label_lens_runs value_lens_runs snode_lens_runs : runs.

Lemma inner_nodes_runs i : runs any (ay_ynode_inner_nodes m i).
Proof. unfold ay_ynode_inner_nodes. runs. Qed.
Lemma inner_nodes_descendants_runs i : runs any (ay_ynode_inner_nodes_descendants m i).
Proof. pose proof (inner_nodes_runs i). unfold ay_ynode_inner_nodes_descendants. runs. Qed.
Lemma inner_node_alone_runs i : runs any (ay_ynode_inner_node_alone m i).
Proof. pose proof inner_nodes_runs. unfold ay_ynode_inner_node_alone. runs. Qed.

Lemma node_equal_runs i j b b' : runs any (ay_ynode_equal lm m i j b b').
Proof. unfold ay_ynode_equal, alone, lnodes_equal. runs. Qed.

Lemma equal_range_runs n i j b : runs any (equal_range lm m n i j b).
Proof.
  revert i j. pose proof node_equal_runs. induction n as [|n IH]; intros i j; [done|].
  cbn [equal_range]. runs.
Qed.

Lemma subtree_equal_runs i j b b' : runs any (ay_ynode_subtree_equal lm m i j b b').
Proof.
  pose proof node_equal_runs. pose proof equal_range_runs. pose proof inner_nodes_runs.
  pose proof inner_nodes_descendants_runs. unfold ay_ynode_subtree_equal. runs.
Qed.

Lemma when_found_runs o stop wr : below_index k o → runs any (when_found m (length m) o stop wr).
Proof.
  intros Ho. apply (ancestors_induction k m Hm (λ fuel o, runs any (when_found m fuel o stop wr)));
    [|intros fuel i Hi IH|done|apply (forward_length Hm)].
  - intros []; cbn [when_found]; (runs_step; [done|]); done.
  - cbn [when_found]. runs_step; [done|]. cbn [deref]. rewrite bind_Ok. runs_step. runs_step; [done|].
    eapply (runs_bind any); [|intros [] _; [done|by apply IH]].
    apply (over_siblings_runs k m Hm); [by eapply child_below|done|by intros].
Qed.

Lemma when_paths_runs i b : (i < k)%nat → runs any (ay_ynode_when_paths_are_valid m i b).
Proof.
  intros Hi. unfold ay_ynode_when_paths_are_valid. runs_step.
  pose proof (block_below k m Hm i a Hi H) as Hb.
  enough (∀ n j stop x y, (j + n <= k)%nat → runs any (when_paths_loop m n j stop x y)) as He by (apply He; lia).
  induction n as [|n IH]; intros j stop x y Hj; [done|]. cbn [when_paths_loop]. runs_step.
  runs_step; [apply IH; lia|]. eapply runs_bind.
  - apply when_found_runs. apply (parent_below k m Hm j a0); [lia|done].
  - intros b0 _. runs_step; [apply IH; lia|done].
Qed.
End queries.
#[local] Hint Resolve label_lens_runs value_lens_runs snode_lens_runs inner_nodes_runs
  inner_node_alone_runs subtree_equal_runs splittable_runs : runs.

(** ** The passes *)

Section passes.
Context `{LP : LensPointers} `{PB : PointerBytes nat} (lm : list lnode) (Hlm : lnode_array lm) (L k : nat).
Implicit Types (s : ytree).

Abbreviation kept := (edited L k) (only parsing).

Lemma kept_state s : kept s → tree_state L s.
Proof. by intros []. Qed.
Lemma kept_forward s : kept s → forward k (mem s).
Proof. intros [Hs <-]. by apply (state_forward L). Qed.
Lemma kept_valid s i : kept s → (i < k)%nat → valid s i.
Proof. intros [_ <-]. done. Qed.

Lemma on_node_kept s i f : kept s → (i < k)%nat → runs kept (on_node s i f).
Proof.
  intros Hs Hi. destruct (Hs) as [Ht Hc]. rewrite <- Hc.
  apply on_node_state; [done|by apply (kept_valid s)].
Qed.

Lemma walk_all_kept s f o : kept s → below_index k o → runs kept (walk_all f o s).
Proof.
  intros Hs Ho. destruct (Hs) as [Ht Hc]. rewrite <- Hc. apply walk_all_state; [done|].
  intros j Hj. apply (kept_valid s); [done|by apply Ho].
Qed.

Lemma walk_choice_kept s c f o : kept s → below_index k o → runs kept (walk_choice c f o s).
Proof.
  intros Hs Ho. destruct (Hs) as [Ht Hc]. rewrite <- Hc. apply walk_choice_state; [done|].
  intros j Hj. apply (kept_valid s); [done|by apply Ho].
Qed.

Lemma sweep_kept body s :
  (∀ s i, kept s → (0 < i < k)%nat → runs kept (body s i)) → kept s → runs kept (sweep_nodes body s).
Proof.
  intros Hb Hs. apply (sweep_nodes_state L kept); [by intros ? []| |done].
  intros s' i Hs' Hi. apply Hb; [done|]. destruct Hs' as [_ <-]. exact Hi.
Qed.

(** *** Types *)

Lemma set_type_node_kept s i : kept s → (0 < i < k)%nat → runs kept (set_type_node lm s i).
Proof.
  intros Hs Hi. pose proof (kept_forward s Hs) as Hf.
  pose proof (get_repetition_runs lm Hlm k _ Hf i ltac:(lia)) as Hrep.
  pose proof (λ f, on_node_kept s i f Hs ltac:(lia)) as Hon.
  assert (∀ n st, runs any (stars_implicit_list lm (mem s) n st)) as Hst.
  { intros n st. unfold stars_implicit_list, AY_YNODE_IS_IMPLICIT_LIST. runs. }
  unfold set_type_node. eapply runs_bind; [apply dget_runs|]. intros d _.
  runs_step; [runs; done|]. runs_step; [done|].
  eapply (runs_bind any). { unfold ay_ynode_rule_list, has_key_value, label_flag. runs. }
  intros l _. eapply (runs_bind any). { unfold ay_ynode_rule_leaflist. runs. }
  intros ll _. runs_step; [apply Hon|].
  eapply (runs_bind any). { unfold ay_ynode_rule_container, has_key_value. runs. }
  intros c _. runs_step; [apply Hon|].
  eapply (runs_bind any). { unfold ay_ynode_rule_leaf. runs. }
  intros f _. runs_step; [apply Hon|done].
Qed.

(** *** Choices of siblings *)

Lemma choice_above_runs ln ch : runs any (choice_above lm ln ch).
Proof.
  pose proof (λ o f, climb_lm_runs lm Hlm (A := unit) o f) as Hc. unfold choice_above. runs.
Qed.

Lemma unite_pair_kept s i :
  kept s → (i < k)%nat → runs (λ r, kept r.1 ∧ ∀ j, r.2 = Some j → j = i) (unite_pair lm s i).
Proof.
  intros Hs Hi. pose proof (kept_forward s Hs) as Hf. pose proof choice_above_runs as Hca.
  unfold unite_pair. runs_step. destruct (next a) as [nx|] eqn:Hnx; [|done].
  assert (nx < k)%nat as Hnxk by (by eapply (next_below k _ Hf i a)).
  eapply (runs_bind any); [apply dget_runs|]. intros dn _.
  destruct (choice (data a)) as [c1|], (choice dn) as [c2|]; try (split; [done|by intros j [= <-]]).
  eapply runs_bind; [apply (parent_node_state L); [by apply kept_state|by apply kept_valid]|]. intros par Hpar.
  assert (par < k)%nat as Hpk by (destruct Hs as [_ <-]; exact Hpar).
  eapply (runs_bind any); [apply dget_runs|]. intros pd _. cbv zeta.
  eapply (runs_bind any); [runs|]. intros b _. eapply (runs_bind kept).
  { destruct b; [|done]. eapply runs_bind; [apply (first_in_choice_runs k _ Hf)|].
    { by intros j [= <-]. }
    intros f Hfst. by apply walk_choice_kept. }
  intros s1 Hs1. eapply (runs_bind any); [apply dget_runs|]. intros d1 _.
  eapply (runs_bind any); [apply dget_runs|]. intros dn1 _. do 2 runs_step.
  eapply (runs_bind any); [runs|]. intros b' _. eapply (runs_bind kept).
  { destruct b'; [|done]. apply walk_choice_kept; [done|]. by intros j [= <-]. }
  intros s2 Hs2. split; [done|by intros j [= <-]].
Qed.

Lemma unite_siblings_kept s i : kept s → (0 < i < k)%nat → runs kept (unite_siblings lm s i).
Proof.
  intros Hs Hi. pose proof (kept_forward s Hs) as Hf. unfold unite_siblings. runs_step.
  destruct (parent a) as [p|]; [|done].
  eapply (runs_bind any); [unfold child_of; runs|]. intros c _. runs_step; [|done].
  unfold walk_tree. destruct (Hs) as [[_ HL] _]. rewrite HL.
  apply (walk_state L (λ s, s) kept); [by intros ? []| |done|].
  - intros x j Hx Hj. assert (j < k)%nat as Hjk by (destruct Hx as [_ <-]; exact Hj).
    eapply runs_mono; [by apply unite_pair_kept|]. intros [x' o] [Hx' Ho]. split; [done|].
    intros j' Hj'. rewrite (Ho j' Hj'). cbn. destruct Hx as [_ Hc], Hx' as [_ Hc'].
    unfold valid in *. cbn in *. rewrite Hc, Hc'. lia.
  - intros j [= <-]. apply kept_valid; [done|lia].
Qed.

(** *** References *)

Lemma contains_rec_any m o b : runs any (ay_ynode_subtree_contains_rec lm m o b).
Proof.
  unfold ay_ynode_subtree_contains_rec. destruct o as [i|]; [|done]. runs_step.
  generalize (below a) (S i) 0%Z. intros n. induction n as [|n IH]; intros j ret; [done|].
  cbn [count_rec]. unfold is_recursive. runs.
Qed.

Lemma skip_rec_runs m check i :
  forward k m → (i < k)%nat →
  runs (λ o, ∀ j, o = Some j → (i <= j < k)%nat) (skip_rec lm (length m) m check (Some i)).
Proof.
  intros Hf Hi. enough (∀ fuel j, (i <= j)%nat → (j < k <= j + fuel)%nat →
    runs (λ o, ∀ j, o = Some j → (i <= j < k)%nat) (skip_rec lm fuel m check (Some j))) as H.
  { apply H; [done|]. pose proof (forward_length Hf). lia. }
  induction fuel as [|fuel IH]; intros j Hij Hj; [lia|]. cbn [skip_rec].
  eapply (runs_bind any); [destruct check; [apply contains_rec_any|done]|]. intros c _.
  runs_step; [intros j' [= <-]; lia|]. runs_step.
  destruct (forward_lookup Hf j a) as (_ & Hn & _); [lia|done|].
  destruct (next a) as [j'|]; [|by destruct fuel]. specialize (Hn j' eq_refl). apply IH; lia.
Qed.

Lemma in_group_runs m c o : runs any (in_group m c o).
Proof. unfold in_group. destruct o; runs. Qed.

Lemma group_loop_runs m c1 c2 lf1 lf2 it1 it2 :
  forward k m → below_index k it1 → below_index k it2 →
  runs any (group_loop lm (length m) m c1 c2 lf1 lf2 it1 it2).
Proof.
  intros Hf H1 H2. enough (∀ fuel it1 it2, below_index k it2 → (∀ i, it1 = Some i → (i < k <= i + fuel)%nat) →
    runs any (group_loop lm fuel m c1 c2 lf1 lf2 it1 it2)) as H.
  { apply H; [done|]. intros i Hi. specialize (H1 i Hi). pose proof (forward_length Hf). lia. }
  clear it1 it2 H1 H2. induction fuel as [|fuel IH]; intros it1 it2 H2 H1.
  - destruct it1 as [i|]; [specialize (H1 i eq_refl); lia|]. cbn [group_loop in_group]. rewrite bind_Ok.
    eapply runs_bind; [apply in_group_runs|]. by intros.
  - cbn [group_loop]. eapply runs_bind; [apply in_group_runs|]. intros b1 _.
    eapply runs_bind; [apply in_group_runs|]. intros b2 _. runs_step; [done|].
    eapply (runs_bind (λ o, ∀ j, o = Some j → (j < k <= j + S fuel)%nat)).
    { destruct it1 as [i|]; [|by destruct (length m)]. specialize (H1 i eq_refl).
      eapply runs_mono; [apply skip_rec_runs; [done|lia]|]. intros o Ho j Hj. specialize (Ho j Hj). lia. }
    intros it1' H1'. eapply (runs_bind (below_index k)).
    { destruct it2 as [i|]; [|by destruct (length m)].
      eapply runs_mono; [apply skip_rec_runs; [done|by apply H2]|]. intros o Ho j Hj. by apply Ho. }
    intros it2' H2'. eapply runs_bind; [apply in_group_runs|]. intros b1' _.
    eapply runs_bind; [apply in_group_runs|]. intros b2' _. runs_step; [done|].
    eapply runs_bind; [apply runs_deref|]. intros i Hi. eapply runs_bind; [apply runs_deref|]. intros j Hj.
    eapply runs_bind; [apply subtree_equal_runs|]. intros eq _. runs_step; [|done].
    eapply runs_bind; [apply runs_fetch|]. intros n1 Hn1. eapply runs_bind; [apply runs_fetch|]. intros n2 Hn2.
    specialize (H1' i Hi). specialize (H2' j Hj). apply IH.
    + by eapply (next_below k m Hf j n2).
    + intros i' Hi'. destruct (forward_lookup Hf i n1) as (_ & Hn & _); [lia|done|].
      specialize (Hn i' Hi'). lia.
Qed.

Lemma choice_group_runs m i j b :
  forward k m → (i < k)%nat → (j < k)%nat → runs any (ay_ynode_choice_group_equal lm m i j b).
Proof.
  intros Hf Hi Hj. unfold ay_ynode_choice_group_equal. do 2 runs_step. cbv zeta.
  eapply (runs_bind any); [apply group_loop_runs; [done|by intros ? [= <-]..]|].
  intros [[eq it1] it2] _. runs.
Qed.

Lemma last_in_group_runs m c i : forward k m → (i < k)%nat → runs (λ j, j < k)%nat (last_in_group (length m) m c i).
Proof.
  intros Hf Hi. enough (∀ fuel j, (j < k <= j + fuel)%nat →
    runs (λ j, j < k)%nat (last_in_group fuel m c j)) as H.
  { apply H. pose proof (forward_length Hf). lia. }
  induction fuel as [|fuel IH]; intros j Hj; [lia|]. cbn [last_in_group]. runs_step.
  destruct (forward_lookup Hf j a) as (_ & Hn & _); [lia|done|].
  destruct (next a) as [j'|]; [|apply Hj]. specialize (Hn j' eq_refl). runs_step. runs_step; [apply IH; lia|apply Hj].
Qed.

(** A loop over the array whose body keeps the nodes and may skip some. *)
Lemma sweep_kept_from body i n s :
  (∀ s i, kept s → (0 < i < k)%nat → runs (λ r, kept r.1 ∧ (i <= r.2)%nat) (body s i)) →
  (0 < i)%nat → (L <= n)%nat → kept s → runs kept (sweep (λ s, s) n body i s).
Proof.
  intros Hb Hi Hn Hs. apply (sweep_state L (λ s, s) kept); [by intros ? []| |done..].
  intros x j Hx Hj H0. apply Hb; [done|]. destruct Hx as [_ <-]. done.
Qed.

Lemma set_ref_recursive_kept s i : kept s → (0 < i < k)%nat → runs kept (set_ref_recursive_node lm s i).
Proof.
  intros Hs Hi. unfold set_ref_recursive_node. eapply (runs_bind any); [apply dget_runs|]. intros d _.
  runs_step; [done|]. eapply runs_bind; [apply on_node_kept; [done|lia]|]. intros s1 Hs1.
  eapply runs_bind; [apply last_in_group_runs; [by apply kept_forward|lia]|]. intros ch Hch.
  eapply (runs_bind any); [unfold size_of; runs|]. intros desc _.
  apply sweep_kept_from; [|lia|destruct Hs as [[_ ->] _]; done|done].
  intros x j Hx Hj. unfold set_ref_group. runs_step. runs_step; [by split|].
  eapply runs_bind; [apply choice_group_runs; [by apply kept_forward|lia..]|]. intros eq _.
  eapply (runs_bind any); [apply dget_runs|]. intros g _.
  eapply (runs_bind kept); [destruct eq; [apply on_node_kept; [done|lia]|done]|]. intros x' Hx'.
  split; [done|]. cbn. lia.
Qed.

(** *** Equal subtrees *)

Lemma restriction_runs m i :
  forward k m → (i < k)%nat → runs any (ay_ynode_set_ref_leafref_restriction lm m i).
Proof.
  intros Hf Hi. unfold ay_ynode_set_ref_leafref_restriction. runs_step.
  eapply (runs_bind any).
  { apply (climb_runs k m Hf); [by eapply (parent_below k m Hf i a)|done..]. }
  intros ext _. destruct ext as [nd|]; [|done]. runs. unfold leafref_to.
  eapply (runs_bind any); [|intros; runs]. apply find_node_runs. intros nd'. runs.
Qed.

Lemma no_grouping_runs m i : forward k m → (i < k)%nat → runs any (no_grouping lm m i).
Proof.
  intros Hf Hi. pose proof (restriction_runs m i Hf Hi). pose proof (when_paths_runs k m Hf i true Hi).
  unfold no_grouping. runs.
Qed.

Lemma whole_equal_runs m i j b : runs any (whole_equal lm m i j b).
Proof. unfold whole_equal. runs. Qed.

Lemma set_ref_match_kept pt i only inn st j :
  kept (mtree st) → (i < k)%nat → (0 < j < k)%nat →
  runs (λ r, kept (mtree r.1) ∧ (j <= r.2)%nat) (set_ref_match pt lm i only inn st j).
Proof.
  intros Hs Hi Hj. pose proof (kept_forward _ Hs) as Hf. unfold set_ref_match. runs_step.
  runs_step; [split; [done|cbn; lia]|].
  eapply (runs_bind any); [runs_step; [done|apply when_paths_runs with k; [done|lia]]|]. intros v _.
  runs_step; [by split|]. eapply (runs_bind any); [apply dget_runs|]. intros di _.
  eapply (runs_bind any); [apply whole_equal_runs|]. intros eq _. runs_step.
  { eapply runs_bind; [apply on_node_kept; [done|lia]|]. intros s' Hs'. split; [done|cbn; lia]. }
  eapply (runs_bind any); [runs|]. intros ceq _. runs_step; [by split|].
  eapply (runs_bind any); [runs|]. intros x _. cbv zeta. eapply (runs_bind any); [runs|]. intros inn' _.
  eapply (runs_bind any); [unfold next_of; runs|]. intros nx _. runs_step; [by split|].
  eapply runs_bind; [apply on_node_kept; [done|lia]|]. intros s' Hs'. split; [done|cbn; lia].
Qed.

Lemma set_ref_step_kept pt s i :
  kept s → (0 < i < k)%nat → runs (λ r, kept r.1 ∧ (i <= r.2)%nat) (set_ref_step pt lm s i).
Proof.
  intros Hs Hi. pose proof (kept_forward _ Hs) as Hf. unfold set_ref_step. runs_step.
  eapply (runs_bind any); [runs|]. intros rec _. runs_step; [split; [done|cbn; lia]|].
  eapply (runs_bind any); [apply no_grouping_runs; [done|lia]|]. intros no _. runs_step; [by split|].
  eapply (runs_bind any); [runs|]. intros only _. eapply (runs_bind any); [runs|]. intros inn _.
  eapply (runs_bind (λ st, kept (mtree st))).
  { apply (sweep_state L mtree (λ st, kept (mtree st))); [by intros ? []| |exact Hs|lia|by destruct Hs as [[_ ->] _]].
    intros x j Hx Hj H0. apply set_ref_match_kept; [done|lia|]. destruct Hx as [_ <-]. done. }
  intros st Hst. eapply (runs_bind kept).
  { runs_step; [apply on_node_kept; [done|lia]|]. runs_step; [apply on_node_kept; [done|lia]|done]. }
  intros s' Hs'. by split.
Qed.

Lemma member_passes_kept pt s :
  kept s →
  runs kept (ay_ynode_set_type lm s) ∧ runs kept (ay_ynode_unite_choice lm s) ∧
  runs kept (ay_ynode_set_ref_recursive_form lm s) ∧ runs kept (ay_ynode_set_ref pt lm s).
Proof.
  intros Hs. split_and!.
  - apply sweep_kept; [|done]. intros. by apply set_type_node_kept.
  - apply sweep_kept; [|done]. intros. by apply unite_siblings_kept.
  - apply sweep_kept; [|done]. intros. by apply set_ref_recursive_kept.
  - apply sweep_kept_from; [|lia|destruct Hs as [[_ ->] _]; lia|done]. intros. by apply set_ref_step_kept.
Qed.
End passes.

(** *** Keys and values *)

(** The number that the rule gives for a node. *)
Section weight.
Context (lm : list lnode).

Definition key_weight (x : Z * ydata) : nat :=
  match ay_ynode_rule_node_key_and_value lm [Node None None None x.1 x.2] 0 with Ok k => Z.to_nat k | _ => 0 end.

Lemma key_rule_weight m i n k :
  m !! i = Some n → ay_ynode_rule_node_key_and_value lm m i = Ok k →
  (0 <= k <= 2)%Z ∧ k = Z.of_nat (key_weight (strip n)).
Proof.
  intros Hn Hk. assert (ay_ynode_rule_node_key_and_value lm [Node None None None (descendants n) (data n)] 0 = Ok k) as Hk'.
  { rewrite <- Hk. unfold ay_ynode_rule_node_key_and_value. by rewrite (fetch_Some _ _ _ Hn). }
  unfold key_weight, strip. cbn [fst snd]. rewrite Hk'. unfold ay_ynode_rule_node_key_and_value in Hk.
  inv_res. repeat (case_match; inv_res); lia.
Qed.

Lemma key_value_rule_runs m i : runs any (ay_ynode_rule_node_key_and_value lm m i).
Proof.
  unfold ay_ynode_rule_node_key_and_value, AY_YNODE_IS_IMPLICIT_LIST, AY_YNODE_IS_SEQ_LIST,
    AY_LABEL_LENS_IS_IDENT, AY_LABEL_LENS_NOCASE, label_flag. runs.
Qed.

(** A list or container whose name is in the label gets one node for its value. *)
Lemma ident_value_rule m i n sq cnt :
  m !! i = Some n → AY_LABEL_LENS_IS_IDENT lm n = Ok true → AY_YNODE_IS_SEQ_LIST lm n = Ok sq →
  bool_decide (type (data n) ≠ YN_CONTAINER) && negb sq = false → is_Some (value (data n)) →
  ay_ynode_rule_node_key_and_value lm m i = Ok cnt → cnt = 1%Z.
Proof.
  intros Hn Hid Hsq Hkind Hv Hr. unfold ay_ynode_rule_node_key_and_value in Hr.
  rewrite (fetch_Some _ _ _ Hn), bind_Ok, Hsq, Hid in Hr. inv_res. simplify_eq.
  rewrite (bool_decide_true (is_Some _)), Hkind in Hr by done. clear Hn Hv.
  unfold AY_LABEL_LENS_IS_IDENT, AY_LABEL_LENS_NOCASE, label_flag, AY_YNODE_IS_SEQ_LIST, AY_YNODE_IS_IMPLICIT_LIST,
    label_lens, lens_at in *.
  destruct (label (data n)) as [x|]; [|by inv_res]. inv_res. simplify_eq. set (l := lens_of _) in *.
  rewrite (bool_decide_false (Some _ = None)), orb_false_r, orb_false_l in Hr by done.
  rewrite (fetch_Some _ _ _ Ha8), !bind_Ok in Hsq, Ha0. fold l in Hsq, Ha0. cbn [tag_is] in *.
  destruct (bool_decide_reflect (type (data n) = YN_LIST)) as [Hty|]; cbn [andb] in *.
  2: { injection Ha0 as <-. by inv_res. }
  rewrite Hty in Hkind. destruct a1; [|done].
  destruct (bool_decide_reflect (tag l = L_SEQ)) as [Hseq|]; [|done].
  rewrite Hseq in Ha0. destruct a0; [|by inv_res]. by destruct (bool_decide (is_Some _)), (bool_decide (_ = snode _)).
Qed.

Lemma key_weight_kind k d : type d ≠ YN_CONTAINER → type d ≠ YN_LIST → key_weight (k, d) = 0.
Proof.
  intros Hc Hl. unfold key_weight. destruct (ay_ynode_rule_node_key_and_value _ _ _) as [r| |] eqn:Hr; [|done..].
  unfold ay_ynode_rule_node_key_and_value, AY_YNODE_IS_SEQ_LIST in Hr. inv_res. injection Ha as <-.
  cbn [data snd] in *. rewrite (bool_decide_true (type d ≠ YN_CONTAINER)) in Hr by done.
  match goal with H : (if bool_decide (type d = YN_LIST) then _ else _) = _ |- _ =>
    rewrite bool_decide_false in H by done; injection H as <- end.
  cbn [andb negb] in Hr. rewrite !orb_true_r in Hr. by inv_res.
Qed.

Lemma key_weight_size k k' d : (k =? 0)%Z = (k' =? 0)%Z → key_weight (k, d) = key_weight (k', d).
Proof.
  intros Hk. unfold key_weight, ay_ynode_rule_node_key_and_value, fetch. cbn [lookup list_lookup fst snd].
  rewrite !bind_Ok. cbn [descendants]. by rewrite Hk.
Qed.

Lemma key_weight_new k x : key_weight (k, new_data x) = 0.
Proof. by apply key_weight_kind. Qed.
End weight.

Section insertions.
Context `{LP : LensPointers} `{PB : PointerBytes nat} (lm : list lnode) (Hlm : lnode_array lm) (L : nat).
Implicit Types (s : ytree) (i j : nat).

Abbreviation state := (tree_state L) (only parsing).
(** What the rule reserves for the nodes from an index on. *)
Abbreviation reserved := (weight_from (key_weight lm)) (only parsing).

Lemma edited_state k s : edited L k s → state s.
Proof. by intros []. Qed.

(** The result of an insertion of [k] nodes that need no space themselves, behind [i]. *)
Definition grown_behind i k s s' : Prop :=
  edited L (k + count s) s' ∧ (reserved s' (S i) <= reserved s (S i))%nat.

Lemma grown_then i k k' s s' s'' : grown_behind i k s s' → grown_behind i k' s' s'' → grown_behind i (k' + k) s s''.
Proof. intros [[_ Hc] Hw] [[Hs' Hc'] Hw']. split; [split; [done|lia]|lia]. Qed.

Lemma assign i s j f :
  (∀ k d, key_weight lm (k, f d) <= key_weight lm (k, d))%nat →
  state s → valid s j → runs (grown_behind i 0 s) (on_node s j f).
Proof. intros. by apply on_node_weight. Qed.

(** An assignment that gives the type of a node for which nothing is inserted. *)
Lemma assign_kind i s j f :
  (∀ d, type (f d) ≠ YN_CONTAINER ∧ type (f d) ≠ YN_LIST) →
  state s → valid s j → runs (grown_behind i 0 s) (on_node s j f).
Proof. intros Hf. apply assign. intros k d. rewrite key_weight_kind by apply Hf. lia. Qed.

Lemma insert_child_behind s i : state s → valid s i → runs (grown_behind i 1 s) (ay_ynode_insert_child s i).
Proof.
  intros Hs Hi. eapply runs_mono.
  - by apply (insert_child_weight L (key_weight lm) (key_weight_new lm)).
  - intros s' [He Hw]. split; [done|lia].
Qed.

Lemma insert_sibling_behind s i j :
  state s → inner s j → (i <= j)%nat → runs (grown_behind i 1 s) (ay_ynode_insert_sibling s j).
Proof.
  intros Hs Hj Hij. eapply runs_mono.
  - by apply (insert_sibling_weight L (key_weight lm) (key_weight_size lm) (key_weight_new lm) s i j).
  - intros s' [He Hw]. split; [done|lia].
Qed.

(** A new node and the node of the tree next to it. *)
Definition placed i (s0 : ytree) (r : ytree * nat) : Prop := grown_behind i 1 s0 r.1 ∧ inner r.1 r.2.

Lemma insert_key_state s i : state s → valid s i → runs (grown_behind i 1 s) (insert_key s i).
Proof.
  intros Hs Hi. unfold insert_key. eapply runs_bind; [by apply insert_child_behind|]. intros s1 H1.
  destruct (H1) as [[Hs1 Hc1] _]. eapply (runs_bind any); [apply dget_runs|]. intros d _.
  eapply runs_bind; [apply (child_node_state L); [done|unfold valid in *; lia]|]. intros c Hc.
  eapply runs_mono; [apply (assign_kind i); [done|done|by apply (behind_valid _ i)]|].
  intros s2 H2. exact (grown_then i 1 0 s s1 s2 H1 H2).
Qed.

Lemma place_as_usual_state s i : state s → valid s i → runs (placed i s) (ay_ynode_place_value_as_usual s i).
Proof.
  intros Hs Hi. unfold ay_ynode_place_value_as_usual. eapply runs_bind; [apply runs_fetch|]. intros n Hn.
  destruct (links_valid L s i n Hs Hi Hn) as (_ & Hv & _ & _ & Hlt).
  eapply (runs_bind (λ o, ∀ c, o = Some c → behind s i c)).
  { destruct (snode (data n)); [|done]. destruct (child n) as [c|]; [|done].
    eapply (runs_bind any); [apply dget_runs|]. intros d _. apply runs_Ok. case_match; [|done].
    intros c' [= <-]. specialize (Hv c eq_refl). specialize (Hlt c eq_refl). unfold behind, valid in *. lia. }
  intros [c|] Hc.
  - specialize (Hc c eq_refl). unfold behind in Hc.
    eapply runs_bind; [apply (insert_sibling_behind s i c); [done|unfold inner; lia|lia]|].
    intros s1 H1. destruct (H1) as [[Hs1 Hc1] _].
    eapply runs_bind; [apply (next_node_state L); [done|unfold valid, inner in *; lia]|]. intros v Hv'.
    split; [done|by apply (behind_inner _ c)].
  - eapply runs_bind; [by apply insert_child_behind|]. intros s1 H1. destruct (H1) as [[Hs1 Hc1] _].
    eapply runs_bind; [apply (child_node_state L); [done|unfold valid in *; lia]|]. intros v Hv'.
    split; [done|by apply (behind_inner _ i)].
Qed.

Lemma child_by_snode_runs lo k m o sn b :
  forward k m → (∀ i, o = Some i → (lo <= i < k)%nat) →
  runs (λ r, ∀ j, r = Some j → (lo <= j < k)%nat) (child_by_snode lm (length m) m o sn b).
Proof.
  intros Hf Ho. enough (∀ fuel o b, (∀ i, o = Some i → (lo <= i < k ∧ k <= i + fuel)%nat) →
    runs (λ r, ∀ j, r = Some j → (lo <= j < k)%nat) (child_by_snode lm fuel m o sn b)) as H.
  { apply H. intros i Hi. specialize (Ho i Hi). pose proof (forward_length Hf). lia. }
  clear o b Ho. induction fuel as [|fuel IH]; intros [i|] b Ho; try done; specialize (Ho i eq_refl); [lia|].
  cbn [child_by_snode]. eapply runs_bind; [apply runs_fetch|]. intros n Hn.
  destruct (forward_lookup Hf i n) as (_ & Hx & Hc & _); [lia|done|]. cbv zeta.
  assert (∀ o, between i k o → ∀ j, o = Some j → (lo <= j < k ∧ k <= j + fuel)%nat) as Hnext.
  { intros o Hbo j Hj. specialize (Hbo j Hj). lia. }
  eapply (runs_bind any).
  { runs_step; [|done]. eapply runs_bind; [apply IH, Hnext, Hc|]. by intros. }
  intros in_case _. unfold lens_is, same_lens. eapply (runs_bind any); [runs|]. intros here _.
  eapply (runs_bind any); [runs|]. intros inn _. destruct inn; [|apply IH, Hnext, Hx].
  intros j [= <-]. lia.
Qed.

Lemma place_before_state s nd n i :
  state s → valid s nd → runs (λ r, ∀ j, r = Some j → behind s nd j) (place_before lm n (mem s) nd i).
Proof.
  intros Hs Hnd. pose proof (state_forward L s Hs) as Hf. revert i. induction n as [|n IH]; intros i; [done|].
  cbn [place_before]. runs_step. eapply (runs_bind (λ r, ∀ j, r = Some j → behind s nd j)).
  - runs_step; [done|]. unfold ay_ynode_get_child_by_snode. eapply runs_bind; [apply runs_fetch|]. intros nn Hn.
    eapply runs_mono; [apply (child_by_snode_runs (S nd) (count s)); [done|]|].
    + intros j Hj. destruct (forward_lookup Hf nd nn Hnd Hn) as (_ & _ & Hc & _). specialize (Hc j Hj). lia.
    + intros r Hr j Hj. specialize (Hr j Hj). unfold behind. lia.
  - intros [j|] Hj; [done|apply IH].
Qed.

Lemma place_value_state s i : state s → valid s i → runs (placed i s) (ay_ynode_place_value lm s i).
Proof.
  intros Hs Hi. unfold ay_ynode_place_value. eapply (runs_bind any); [apply dget_runs|]. intros d _.
  eapply (runs_bind any); [runs|]. intros [] _. eapply (runs_bind any); [runs|]. intros v _.
  runs_step; [by apply place_as_usual_state|].
  eapply (runs_bind any); [by apply climb_lm_runs|]. intros vp _. eapply (runs_bind any); [runs|]. intros vparent _.
  eapply runs_bind; [by apply place_before_state|]. intros [j|] Hj; [|by apply place_as_usual_state].
  specialize (Hj j eq_refl). unfold behind in Hj.
  eapply runs_bind; [apply (insert_sibling_behind s i j); [done|unfold inner; lia|lia]|].
  intros s1 H1. destruct (H1) as [[Hs1 Hc1] _].
  eapply (runs_bind any); [apply dget_runs|]. intros dj _.
  eapply runs_bind; [apply (next_node_state L); [done|unfold valid; lia]|]. intros val Hval.
  assert (placed i s (s1, val)) as Hpl by (split; [done|by apply (behind_inner _ j)]).
  eapply (runs_bind any); [unfold next_of; runs|]. intros after _.
  eapply (runs_bind any).
  { destruct (choice dj); [done|]. destruct after; [|done].
    eapply (runs_bind any); [apply dget_runs|]. by intros. }
  intros wanted _. runs_step; [done|].
  eapply (runs_bind any).
  { unfold choice_on_path. eapply (runs_bind any); [by apply climb_lm_runs|]. intros [r|] _; done. }
  intros b _. eapply runs_bind; [apply (assign i); [done|done|apply Hval]|]. intros s2 H2. apply runs_Ok.
  split; [exact (grown_then i 1 0 s s1 s2 H1 H2)|]. destruct H2 as [[_ Hc2] _]. unfold behind, inner in *. cbn in *. lia.
Qed.

Lemma set_choice_for_value_state pt values s i j :
  state s → valid s j → runs (grown_behind i 0 s) (ay_ynode_set_choice_for_value lm pt values s j).
Proof.
  intros Hs Hj. assert (grown_behind i 0 s s) as Hsame by done.
  assert (∀ c, runs (grown_behind i 0 s) (on_node s j (with_choice c))) as Hon by (intros; by apply assign).
  unfold ay_ynode_set_choice_for_value. runs_step. cbv zeta. do 2 runs_step.
  eapply (runs_bind any); [apply dget_runs|]. intros pd _. runs_step.
  eapply (runs_bind any); [by apply has_attribute_runs|]. intros ch _.
  eapply (runs_bind any); [unfold seq_list_at, AY_YNODE_IS_SEQ_LIST; runs|]. intros sq _.
  destruct (next a) as [nx|].
  - runs_step; [done|]. eapply (runs_bind any); [apply dget_runs|]. intros nd _.
    destruct (choice nd); [case_match; [apply Hon|done]|].
    eapply (runs_bind any); [apply splittable_runs|]. intros x _. case_match; [by apply assign|done].
  - destruct sq; [|done]. eapply (runs_bind any); [by apply climb_lm_runs|]. intros [sn|] _; [|done].
    eapply (runs_bind any); [by apply has_attribute_runs|]. intros c _. apply Hon.
Qed.

Lemma insert_value_state pt values s i :
  state s → valid s i → runs (grown_behind i 1 s) (insert_value lm pt values s i).
Proof.
  intros Hs Hi. unfold insert_value. eapply runs_bind; [by apply place_value_state|]. intros [s1 v] [H1 Hv].
  cbn [fst snd] in *. destruct (H1) as [[Hs1 Hc1] _]. eapply (runs_bind any); [apply dget_runs|]. intros d _.
  eapply runs_bind; [apply (assign_kind i); [done|done|by apply inner_valid]|]. intros s2 H2.
  destruct (H2) as [[Hs2 Hc2] _]. eapply runs_mono.
  - apply (set_choice_for_value_state pt values s2 i); [done|]. unfold inner, valid in *. lia.
  - intros s3 H3. exact (grown_then i 1 0 s s2 s3 (grown_then i 1 0 s s1 s2 H1 H2) H3).
Qed.

(** The nodes that the step inserts are those that the rule counts for the node. *)
Lemma key_and_value_state pt values s i :
  state s → inner s i →
  runs (λ s', state s' ∧ count s' + reserved s' (S i) <= count s + reserved s i)%nat
    (key_and_value_node lm pt values s i).
Proof.
  intros Hs Hi. pose proof (inner_valid _ _ Hi) as Hv. unfold key_and_value_node.
  eapply runs_bind; [apply runs_fetch|]. intros n Hn. cbv zeta.
  assert (reserved s i = key_weight lm (strip n) + reserved s (S i))%nat as Hsplit. by (by apply weight_from_step).
  assert (∀ k s', grown_behind i k s s' → (k <= key_weight lm (strip n))%nat →
    state s' ∧ count s' + reserved s' (S i) <= count s + reserved s i)%nat as Hdone.
  { intros k s' [[Hs' Hc] Hw] Hk. split; [done|lia]. }
  assert (grown_behind i 0 s s) as Hsame by done.
  assert (runs (λ s', state s' ∧ count s' + reserved s' (S i) <= count s + reserved s i)%nat
    (on_node s i (with_type YN_LEAF))) as Hleaf.
  { eapply runs_mono; [by apply (assign_kind i)|]. intros s' H. apply (Hdone 0); [done|lia]. }
  destruct (AY_YNODE_IS_SEQ_LIST lm n) as [sq| |] eqn:Hsq; [|done|].
  2: { assert (runs any (AY_YNODE_IS_SEQ_LIST lm n)) as H by (unfold AY_YNODE_IS_SEQ_LIST; runs). by rewrite Hsq in H. }
  rewrite bind_Ok. destruct (bool_decide _ && negb sq) eqn:Hkind; [apply (Hdone 0); [done|lia]|].
  destruct (ay_ynode_rule_node_key_and_value lm (mem s) i) as [cnt| |] eqn:Hrule; [|done|].
  2: { pose proof (key_value_rule_runs lm (mem s) i) as H. by rewrite Hrule in H. }
  destruct (key_rule_weight lm (mem s) i n cnt Hn Hrule) as [Hcnt Hw]. rewrite bind_Ok.
  destruct (AY_LABEL_LENS_IS_IDENT lm n) as [id| |] eqn:Hid; [|done|].
  2: { assert (runs any (AY_LABEL_LENS_IS_IDENT lm n)) as H
         by (unfold AY_LABEL_LENS_IS_IDENT, AY_LABEL_LENS_NOCASE, label_flag; runs). by rewrite Hid in H. }
  rewrite bind_Ok. destruct id.
  - runs_step; [done|]. runs_step; [|apply (Hdone 0); [done|lia]].
    eapply runs_mono; [by apply insert_value_state|]. intros s' H. apply (Hdone 1); [done|].
    enough (cnt = 1)%Z by lia. eapply (ident_value_rule lm (mem s) i n); try done. by eapply bool_decide_eq_true_1.
  - runs_step; [done|]. eapply (runs_bind any); [runs|]. intros _ _.
    eapply runs_bind; [by apply insert_key_state|]. intros s1 H1. destruct (H1) as [[Hs1 Hc1] _].
    destruct (Z.eqb_spec cnt 0); [done|].
    destruct (Z.eqb_spec cnt 1); [apply (Hdone 1); [done|lia]|].
    eapply (runs_bind any); [runs|]. intros _ _.
    eapply runs_mono; [apply insert_value_state; [done|unfold valid in *; lia]|].
    intros s2 H2. apply (Hdone 2); [exact (grown_then i 1 1 s s1 s2 H1 H2)|lia].
Qed.

Lemma list_files_state s t : repr s t → state s → runs state (ay_insert_list_files s).
Proof.
  intros Hr Hs. unfold ay_insert_list_files. eapply runs_bind; [apply runs_fetch|]. intros n Hn.
  assert (valid s 0) as H0.
  { destruct Hr as (_ & Hc & _). unfold valid. rewrite Hc. apply size_pos. }
  eapply (runs_bind (λ s1, state s1 ∧ (1 < count s1)%nat)).
  { destruct (negb (descendants n =? 0)%Z) eqn:Hd.
    - apply negb_true_iff, Z.eqb_neq in Hd.
      assert (1 < count s)%nat as H1.
      { destruct (locate_node t 0) as (c & d & cs & Hp & Hh); [apply size_pos|].
        destruct (repr_in_fetch s c (T d cs) []) as (n' & Hn' & _ & _ & _ & Hdn & _); [by exists t|].
        rewrite Hh in Hn'. rewrite (fetch_Some _ _ _ Hn) in Hn'. injection Hn' as <-.
        destruct Hr as (_ & -> & _). destruct c as [|x c]; [|cbn in Hh; destruct x; cbn in Hh; lia].
        cbn in Hp. injection Hp as <-. cbn [subtrees] in Hdn. rewrite size_T. lia. }
      eapply runs_mono; [apply insert_parent_state; [done|unfold inner; lia]|]. intros s1 [Hs1 Hc1]. split; [done|lia].
    - eapply runs_mono; [by apply insert_child_state|]. intros s1 [Hs1 Hc1]. unfold valid in H0. split; [done|lia]. }
  intros s1 [Hs1 Hc1]. eapply runs_mono; [by apply (on_node_state L)|]. by intros ? [].
Qed.

Lemma key_and_value_pass pt values s :
  state s →
  runs (λ s', state s' ∧ count s' <= count s + reserved s 1)%nat (ay_insert_node_key_and_value lm pt values s).
Proof.
  intros Hs. eapply runs_mono.
  - apply (sweep_nodes_measure L (λ s i, count s + reserved s i)%nat); [|done].
    intros s' i Hs' Hi. by apply key_and_value_state.
  - cbn beta. intros s' (Hs' & i & _ & Hi). split; [done|]. lia.
Qed.

(** The sum of the rule does not wrap around. *)
Lemma key_rule_sum s n i acc k :
  state s → (i + n = count s)%nat → (0 <= acc)%Z → (acc + 2 * Z.of_nat n < 2 ^ 32)%Z →
  sum_nodes u32 n i (ay_ynode_rule_node_key_and_value lm (mem s)) acc = Ok k →
  k = (acc + Z.of_nat (reserved s i))%Z.
Proof.
  intros Hs. assert (count s <= length (mem s))%nat as Hlen.
  { pose proof (state_length L s Hs). destruct Hs as [_ ->]. lia. }
  revert i acc. induction n as [|n IH]; intros i acc Hi Ha Hb; cbn [sum_nodes].
  - intros [= <-]. rewrite weight_from_end; lia.
  - intros (x & Hx & H)%bind_Ok_inv. destruct (lookup_lt_is_Some_2 (mem s) i) as [nd Hnd]; [lia|].
    destruct (key_rule_weight lm (mem s) i nd x Hnd Hx) as [Hx2 Hxw].
    rewrite u32_small in H by lia. apply IH in H; [|lia..]. rewrite H.
    rewrite (weight_from_step _ s i nd) by (done || unfold valid; lia). lia.
Qed.
End insertions.

Definition is_tree (s : ytree) : Prop := ∃ t, repr s t.

(** On every tree these passes end, and what they return is a tree again: the
    types of nodes, the choices of siblings and the references for groupings are
    assigned, the list of files and the nodes for keys and values are inserted.  The
    first four keep the number of nodes. *)
Theorem passes_keep_tree `{LensPointers} lm pt values s t :
  lnode_array lm → repr s t →
  (∀ pass, pass ∈ [ay_ynode_set_type lm; ay_ynode_unite_choice lm; ay_ynode_set_ref_recursive_form lm;
                   ay_ynode_set_ref pt lm] →
     runs (λ s', is_tree s' ∧ count s' = count s) (pass s)) ∧
  runs is_tree (ay_insert_list_files s) ∧
  runs is_tree (ay_insert_node_key_and_value lm pt values s).
Proof.
  intros Hlm Hr. assert (tree_state (length (mem s)) s) as Hs by (split; [by exists t|done]).
  split_and!.
  - intros pass Hpass.
    destruct (member_passes_kept lm Hlm (length (mem s)) (count s) pt s) as (H1 & H2 & H3 & H4); [by split|].
    apply (runs_mono (edited (length (mem s)) (count s))); [|by intros ? [[? _] ?]].
    set_solver.
  - eapply runs_mono; [by apply (list_files_state (length (mem s)) s t)|]. by intros ? [].
  - eapply runs_mono; [by apply (key_and_value_pass lm Hlm (length (mem s)))|]. by intros ? [[] _].
Qed.

Theorem passes_keep_tree_witness :
  let _ : LensPointers := Build_LensPointers lens_id lens_id in
  let lm := enc 0 None None example_ltree in
  let s := state_of twin_tree 0 6 in
  runs (λ s', is_tree s' ∧ count s' = count s) (ay_ynode_set_ref [] lm s) ∧
  runs is_tree (ay_insert_list_files s).
Proof.
  intros P lm s. destruct (passes_keep_tree lm [] (Dict [] 0) s twin_tree) as (H1 & H2 & _);
    [by eexists|by apply state_of_repr|].
  split; [|done]. apply H1. set_solver.
Defined.

(** C25: The pass that inserts the nodes for keys and values ends on every tree and never
    inserts more nodes than its rule has counted before it started, although the rule is
    applied to nodes that the pass has not changed yet and the inserted nodes are visited
    too: the space that is reserved for it is enough. *)
Theorem keys_and_values_fit `{PointerBytes nat} lm pt values s t k :
  lnode_array lm → repr s t → (2 * Z.of_nat (count s) < 2 ^ 32)%Z →
  ay_ynode_summary (count s) (ay_ynode_rule_node_key_and_value lm (mem s)) = Ok k →
  let r := ay_insert_node_key_and_value lm pt values s in
  r ≠ Fault OutOfFuel ∧
  ∀ s', r = Ok s' → is_tree s' ∧ (Z.of_nat (count s') ≤ Z.of_nat (count s) + k)%Z.
Proof.
  intros Hlm Hr Hlt Hk r. assert (tree_state (length (mem s)) s) as Hs by (split; [by exists t|done]).
  assert (0 < count s)%nat as H0 by (destruct Hr as (_ & -> & _); apply size_pos).
  pose proof (key_rule_sum lm (length (mem s)) s (count s - 1) 1 0 k Hs ltac:(lia) ltac:(lia) ltac:(lia) Hk) as ->.
  pose proof (key_and_value_pass lm Hlm (length (mem s)) pt values s Hs) as H'. split; [by eapply runs_nofuel|].
  intros s' Heq. unfold r in Heq. rewrite Heq in H'. destruct H' as [[Ht _] Hc]. split; [done|lia].
Qed.

(** [[ key /[a-z]+/ . store /x/ ]]: a container gets a key and a value. *)
Definition key_ltree : tree ldata :=
  T (lnode_of L_SUBTREE []) [T (lnode_of L_CONCAT [])
    [T (lnode_of L_KEY (lit "[a-z]+")) []; T (lnode_of L_STORE (lit "x")) []]].
Definition key_tree : tree ydata :=
  T (with_type YN_ROOT (nd 1)) [T (YData YN_CONTAINER (Some 0) (Some 2) (Some 3) None None 0 2 0 0 0 None) []].

Theorem keys_and_values_fit_witness :
  let _ : PointerBytes nat := λ _ a _, a in
  let lm := enc 0 None None key_ltree in
  let s := state_of key_tree 2 3 in
  ∃ s', ay_insert_node_key_and_value lm [] (Dict [] 0) s = Ok s' ∧ count s' = 4 ∧
    is_tree s' ∧ (Z.of_nat (count s') ≤ Z.of_nat (count s) + 2)%Z.
Proof.
  intros P lm s. destruct (keys_and_values_fit lm [] (Dict [] 0) s key_tree 2) as [_ H];
    [by eexists|by apply state_of_repr|done|done|].
  destruct (ay_insert_node_key_and_value lm [] (Dict [] 0) s) as [s'| |] eqn:E; [|vm_compute in E; discriminate..].
  exists s'. split; [done|]. split; [|by apply H]. vm_compute in E. by injection E as <-.
Defined.

#[local] Hint Resolve dget_runs inner_valid behind_valid behind_inner label_lens_runs value_lens_runs
  snode_lens_runs inner_nodes_runs inner_node_alone_runs subtree_equal_runs splittable_runs : runs.

(** ** Searches *)

(** The result of a search along the ancestors lies before the bound of its start. *)
Lemma climb_below {P A} (m : list (node P)) k b o (body : nat → node P → option A) (Q : option A → Prop) :
  forward k m → (b <= k)%nat → below_index b o → Q None →
  (∀ i n r, (i < b)%nat → m !! i = Some n → body i n = Some r → Q (Some r)) →
  runs Q (climb (length m) m o body).
Proof.
  intros Hm Hb Ho HN HQ. enough (∀ fuel o, (∀ i, o = Some i → i < b ∧ i < fuel)%nat → runs Q (climb fuel m o body)) as H.
  { apply H. intros i Hi. specialize (Ho i Hi). pose proof (forward_length Hm). lia. }
  clear o Ho. induction fuel as [|fuel IH]; intros [i|] Ho; try exact HN; destruct (Ho i eq_refl) as [Hi Hf]; [lia|].
  cbn [climb]. runs_step. destruct (body i a) as [r|] eqn:Hr; [by apply runs_Ok, (HQ i a)|].
  apply IH. intros j Hj. destruct (forward_lookup Hm i a) as (Hp & _); [lia|done|]. specialize (Hp j Hj). lia.
Qed.

Lemma over_siblings_above {A} m k (body : nat → ynode → res (option A)) (Q : option A → Prop) o lo :
  forward k m → (∀ i, o = Some i → lo <= i < k)%nat → Q None →
  (∀ i n, (lo <= i < k)%nat → m !! i = Some n → runs (λ r, r ≠ None → Q r) (body i n)) →
  runs Q (over_siblings (length m) m o body).
Proof.
  intros Hf Ho HN HQ. enough (∀ fuel o, (∀ i, o = Some i → lo <= i < k ∧ k <= i + fuel)%nat →
    runs Q (over_siblings fuel m o body)) as H.
  { apply H. intros i Hi. specialize (Ho i Hi). pose proof (forward_length Hf). lia. }
  clear o Ho. induction fuel as [|fuel IH]; intros [i|] Ho; try done; destruct (Ho i eq_refl) as [Hi Hfu]; [lia|].
  cbn [over_siblings]. runs_step. eapply runs_bind; [by apply HQ|]. intros [r|] Hr; [by apply runs_Ok, Hr|].
  apply IH. intros j Hj. destruct (forward_lookup Hf i a) as (_ & Hn & _); [lia|done|]. specialize (Hn j Hj). lia.
Qed.

Section form.
Context `{LP : LensPointers} `{PB : PointerBytes nat} (lm : list lnode) (Hlm : lnode_array lm) (L : nat).
Implicit Types (s : ytree) (i j : nat).

Abbreviation state := (tree_state L) (only parsing).

Lemma has_attribute_below i tg :
  runs (λ r, ∀ j, r = Some j → j < i < length lm)%nat (ay_lnode_has_attribute lm (Some i) tg).
Proof.
  destruct (lnode_array_forward lm Hlm) as [Hf _]. unfold ay_lnode_has_attribute. runs_step.
  assert (i < length lm)%nat as Hi by (by eapply lookup_lt_Some).
  destruct (forward_lookup Hf i a Hi H) as (Hp & _).
  eapply (runs_bind (λ r, match r with Some (Some j) => j < i | _ => True end)%nat).
  - apply (climb_below lm (length lm) i); [done|lia|done|done|].
    intros j n r Hj Hn Hr. repeat case_bool_decide; by simplify_eq.
  - intros [[j|]|] Hr; apply runs_Ok; cbn; intros j' Hj'; by simplify_eq.
Qed.

Lemma reaches_star_runs star star2 :
  (∀ i, star = Some i → i < length lm)%nat → runs any (reaches_star lm (length lm) star star2).
Proof.
  enough (∀ fuel star, (∀ i, star = Some i → i < fuel)%nat → runs any (reaches_star lm fuel star star2)) as H by apply H.
  clear star. induction fuel as [|fuel IH]; intros [i|] Hs; cbn [reaches_star]; try done.
  - specialize (Hs i eq_refl). lia.
  - runs_step; [done|]. eapply runs_bind; [apply has_attribute_below|]. intros st Hst. apply IH.
    intros j Hj. specialize (Hst j Hj). specialize (Hs i eq_refl). lia.
Qed.

Lemma attribute_index nd tg : runs (λ r, ∀ j, r = Some j → j < length lm)%nat (ay_lnode_has_attribute lm nd tg).
Proof.
  destruct nd as [i|]; [|done]. eapply runs_mono; [apply has_attribute_below|]. intros r Hr j Hj.
  specialize (Hr j Hj). lia.
Qed.

(** Members that [sweep_state] and the loops of moves need. *)
Lemma implicit_flag_runs s i : runs any (implicit_list_at lm s i).
Proof. unfold implicit_list_at. runs_step. apply flags_runs. Qed.
Lemma seq_flag_runs s i : runs any (seq_list_at lm s i).
Proof. unfold seq_list_at. runs_step. apply flags_runs. Qed.

(** The next siblings of [f] become its last children. *)
Lemma absorb_state n f k s :
  edited L k s → (f < k)%nat →
  runs (edited L k) (times n (λ s', nx ← next_node s' f; ay_ynode_move_subtree_as_last_child s' f nx) s).
Proof.
  intros Hs Hf. apply (times_state (edited L k)); [|done]. clear s Hs. intros s [Hs <-].
  eapply runs_bind; [by apply (next_node_state L)|]. intros nx Hnx. unfold behind in Hnx.
  apply move_as_last_child_state; [done|done|unfold inner; lia|apply apart_before; lia].
Qed.

(** ** Implicit lists *)

Lemma implicit_members_runs s o star2 first cnt :
  state s → (∀ i, o = Some i → inner s i) → (∀ i, first = Some i → inner s i) →
  runs (λ r, ∀ i, r.1 = Some i → inner s i) (implicit_members lm (length (mem s)) (mem s) o star2 first cnt).
Proof.
  intros Hs Ho Hfirst. pose proof (state_forward L s Hs) as Hf.
  enough (∀ fuel o first cnt, (∀ i, o = Some i → 0 < i < count s ∧ count s <= i + fuel)%nat →
    (∀ i, first = Some i → inner s i) →
    runs (λ r, ∀ i, r.1 = Some i → inner s i) (implicit_members lm fuel (mem s) o star2 first cnt)) as H.
  { apply H; [|done]. intros i Hi. specialize (Ho i Hi). pose proof (forward_length Hf). unfold inner in *. lia. }
  clear o first cnt Ho Hfirst. induction fuel as [|fuel IH]; intros [i|] first cnt Ho Hfirst; cbn [implicit_members]; try done.
  { specialize (Ho i eq_refl). lia. }
  destruct (Ho i eq_refl) as [Hi Hfu]. runs_step. eapply runs_bind; [apply attribute_index|]. intros st Hst.
  eapply (runs_bind any); [by apply reaches_star_runs|]. intros r _. runs_step; [done|]. apply IH.
  - intros j Hj. destruct (forward_lookup Hf i a) as (_ & Hn & _); [lia|done|]. specialize (Hn j Hj). lia.
  - intros j. destruct (bool_decide (first = None)); [intros [= <-]; unfold inner; lia|apply Hfirst].
Qed.

Lemma implicit_list_step_state s i :
  state s → inner s i → runs (λ r, state r.1 ∧ (i <= r.2)%nat) (implicit_list_step lm s i).
Proof.
  intros Hs Hi. assert (state s ∧ (i <= i)%nat) as Hsame by done.
  unfold implicit_list_step. runs_step. eapply runs_bind; [apply runs_deref|]. intros p Hp.
  eapply (runs_bind any); [apply implicit_flag_runs|]. intros impl _. runs_step; [done|].
  eapply (runs_bind any); [runs|]. intros star _. eapply (runs_bind any); [runs|]. intros star2 _.
  runs_step; [done|].
  destruct (links_valid L s i a Hs (inner_valid _ _ Hi) H) as (_ & _ & Hpv & _).
  eapply runs_bind; [apply (child_of_state L); [done|by apply Hpv]|]. intros c Hc.
  eapply runs_bind; [apply implicit_members_runs; [done| |done]|].
  { intros j Hj. by eapply behind_inner, Hc. }
  intros [first cnt] Hfirst. cbn [fst] in Hfirst. runs_step; [done|].
  eapply runs_bind; [apply runs_deref|]. intros f Hf. specialize (Hfirst f Hf).
  eapply runs_bind; [by apply insert_wrapper_state|]. intros s1 [Hs1 Hc1].
  assert (f < count s)%nat as Hfc by apply Hfirst.
  eapply runs_bind; [by apply (on_node_state L); [|unfold valid; lia]|]. intros s2 Hs2.
  eapply runs_bind; [apply absorb_state; [exact Hs2|lia]|]. intros s3 [Hs3 Hc3].
  eapply runs_bind; [apply (child_node_state L); [done|unfold valid; lia]|]. intros ch _.
  eapply (runs_bind any); [apply dget_runs|]. intros dc _.
  eapply runs_bind; [apply (on_node_state L); [done|unfold valid; lia]|]. intros s4 [Hs4 _].
  apply runs_Ok. split; [done|cbn; lia].
Qed.

(** A loop over the array, with the fuel that [sweep_tree] takes. *)
Lemma sweep_tree_state body s :
  (∀ s i, state s → inner s i → runs (λ r, state r.1 ∧ (i <= r.2)%nat) (body s i)) →
  state s → runs state (sweep_tree body s).
Proof.
  intros Hb Hs. apply (sweep_state L (λ s, s) state); [done| |done|lia|].
  - intros x i Hx Hi H0. apply Hb; [done|]. unfold inner, valid in *. lia.
  - destruct Hs as [_ ->]. lia.
Qed.

Lemma implicit_list_state s : state s → runs state (ay_ynode_insert_implicit_list lm s).
Proof. apply sweep_tree_state. intros. by apply implicit_list_step_state. Qed.

(** ** Ordered entries *)

Lemma list_members_runs s n star o cnt :
  state s → valid_opt s o → runs any (list_members lm (length (mem s)) (mem s) n star o cnt).
Proof.
  intros Hs Ho. pose proof (state_forward L s Hs) as Hf. revert cnt.
  apply (siblings_induction (count s) (mem s) Hf (λ fuel o, ∀ cnt, runs any (list_members lm fuel (mem s) n star o cnt)));
    [by intros []| |exact Ho|apply (forward_length Hf)].
  intros fuel i Hi IH cnt. cbn [list_members]. runs_step. cbv zeta.
  pose proof (get_repetition_runs lm Hlm (count s) (mem s) Hf i Hi) as Hr.
  eapply (runs_bind any); [runs|]. intros same _. runs_step; [done|]. runs_step. by apply IH.
Qed.

Lemma init_order_state s i ch : state s → valid s i → runs (edited L (count s)) (init_order_list s i ch).
Proof.
  intros Hs Hi. unfold init_order_list. eapply runs_bind; [by apply (child_node_state L)|]. intros c Hc.
  eapply (runs_bind any); [apply dget_runs|]. intros dc _. cbv zeta.
  eapply runs_bind; [by apply assign_state|]. intros s1 [Hs1 <-]. by apply assign_state.
Qed.

Lemma entry_child_state s i c :
  state s → (i < c < count s)%nat →
  runs (λ r, (state r.1 ∧ i < count r.1)%nat ∧ goes_on r.1 c r.2) (entry_child lm s c).
Proof.
  intros Hs Hc. unfold entry_child. eapply (runs_bind any); [apply implicit_flag_runs|]. intros impl _.
  eapply (runs_bind (λ s', (state s' ∧ i < count s')%nat ∧ goes_on s' c (Some c))).
  - destruct impl.
    + eapply runs_bind; [apply (delete_node_state L); [done|unfold inner; lia]|]. intros [s1 b] (Hs1 & Hc1 & Hz).
      cbn [fst snd] in *. apply runs_Ok. split; [split; [done|destruct b; lia]|]. eapply goes_on_deleted; [done|lia].
    + eapply (runs_bind any); [apply dget_runs|]. intros d _.
      runs_step; [|apply runs_Ok; split; [split; [done|lia]|apply goes_on_same; lia]].
      eapply runs_mono; [by apply (assign_state L)|]. intros s' [Hs' Hc']. rewrite <- Hc' in Hc.
      split; [split; [done|lia]|apply goes_on_same; lia].
  - intros s' [Hs' Hd]. by apply runs_Ok.
Qed.

Lemma ordered_entry_state par s i :
  state s → (0 < i < count s)%nat →
  runs (λ r, state r.1 ∧ goes_on r.1 i r.2) (ordered_entry lm par s i).
Proof.
  intros Hs Hi. pose proof (state_forward L s Hs) as Hf.
  pose proof (proj2 Hi) as Hic. pose proof (conj Hs (goes_on_same s i Hic)) as Hsame.
  unfold ordered_entry. eapply runs_bind; [apply runs_fetch|]. intros n Hn.
  eapply (runs_bind any); [apply dget_runs|]. intros pd _. eapply (runs_bind any); [apply flags_runs|]. intros sq _.
  eapply (runs_bind any); [apply flags_runs|]. intros impl _. cbv zeta.
  eapply (runs_bind any); [unfold parent_node, parent_of; runs|]. intros irec _. runs_step; [exact Hsame|].
  eapply (runs_bind any); [by apply (get_repetition_runs lm Hlm (count s))|]. intros star _. runs_step; [exact Hsame|].
  eapply (runs_bind any).
  { apply list_members_runs; [done|]. apply (links_valid L s i n Hs (proj2 Hi) Hn). }
  intros cnt _. eapply runs_bind; [by apply (insert_wrapper_state L)|]. intros s1 [Hs1 Hc1].
  eapply runs_bind; [apply init_order_state; [done|unfold valid; lia]|]. intros s2 Hs2.
  eapply runs_bind; [apply absorb_state; [exact Hs2|lia]|]. intros s3 [Hs3 Hc3].
  eapply runs_bind; [apply (child_of_state L); [done|unfold valid; lia]|]. intros c Hc.
  eapply (runs_bind (λ s4, state s4 ∧ i < count s4)%nat).
  { apply (walk_tree_up L _ (S i)); [by intros ? []| |split; [done|lia]|].
    - intros x j [Hx _] Hj. apply entry_child_state; [done|lia].
    - intros j Hj. specialize (Hc j Hj). unfold behind in Hc. lia. }
  intros s4 [Hs4 Hc4]. eapply runs_bind; [by apply (assign_state L)|]. intros s5 [Hs5 Hc5].
  apply runs_Ok. split; [done|]. apply goes_on_same. cbn. lia.
Qed.

Lemma ordered_entries_node_state s i : state s → inner s i → runs state (ordered_entries_node lm s i).
Proof.
  intros Hs Hi. unfold ordered_entries_node. eapply (runs_bind any); [apply implicit_flag_runs|]. intros impl _.
  runs_step; [done|]. eapply runs_bind; [apply (child_of_state L); [done|apply Hi]|]. intros c Hc.
  apply (walk_tree_up L state 1); [done| |done|].
  - intros x j Hx Hj. apply ordered_entry_state; [done|lia].
  - intros j Hj. specialize (Hc j Hj). unfold behind in Hc. lia.
Qed.

Lemma ordered_entries_state s : state s → runs state (ay_ynode_ordered_entries lm s).
Proof. apply (sweep_nodes_state L state); [done|]. intros. by apply ordered_entries_node_state. Qed.
End form.

Section values.
Context `{PB : PointerBytes nat} (lm : list lnode) (Hlm : lnode_array lm) (L : nat).
Implicit Types (s : ytree) (i j : nat).

Abbreviation state := (tree_state L) (only parsing).

(** ** Dictionaries *)

Lemma copy_others_runs fuel (l : list (dnode nat)) cnt i k1 k2 :
  (cnt <= i + fuel)%nat → runs any (copy_others fuel l cnt i k1 k2).
Proof.
  revert i. induction fuel as [|fuel IH]; intros i Hf; cbn [copy_others];
    destruct (Nat.leb_spec cnt i); try done; [lia|].
  runs_step. runs_step; [apply IH; lia|]. eapply (runs_bind any); [apply IH; lia|]. intros r _. runs.
Qed.

Lemma others_end_runs fuel (l : list (dnode nat)) cnt i k1 k2 :
  (cnt <= i + fuel)%nat → runs any (others_end fuel l cnt i k1 k2).
Proof.
  revert i. induction fuel as [|fuel IH]; intros i Hf; cbn [others_end];
    destruct (Nat.leb_spec cnt i); try done; [lia|].
  runs_step. runs_step; apply IH; lia.
Qed.

Lemma merge_keys_runs (d : dict nat) k1 k2 : runs any (ay_dnode_merge_keys d k1 k2).
Proof.
  unfold ay_dnode_merge_keys. eapply (runs_bind any); [runs|]. intros k _.
  do 2 (eapply (runs_bind any); [unfold keyval; runs|]; intros ? _). runs_step.
  eapply (runs_bind any); [runs|]. intros _ _. eapply (runs_bind any); [apply copy_others_runs; lia|]. intros o _.
  eapply (runs_bind any); [apply others_end_runs; lia|]. intros e _. cbv zeta. runs_step; [|done].
  eapply (runs_bind any); [runs|]. done.
Qed.

Lemma dnode_insert_runs eq (d : dict nat) key v :
  (∀ a b, runs any (eq a b)) → runs any (ay_dnode_insert (Some eq) d key v).
Proof.
  intros Heq. assert (∀ l v, runs any (none_equal eq l v)) as Hne.
  { intros l v'. induction l as [|x l IH]; [done|]. cbn [none_equal]. eapply (runs_bind any); [apply Heq|]. intros b _. runs. }
  unfold ay_dnode_insert. cbv zeta. eapply (runs_bind any).
  { runs_step; [|done]. runs_step. runs_step; [done|]. eapply (runs_bind any); [|by intros].
    unfold ay_dnode_value_is_unique. eapply (runs_bind any); [unfold keyval; runs|]. intros l _. apply Hne. }
  intros stop _. eapply (runs_bind any). { repeat case_match; done. }
  intros stop' _. runs_step; [done|]. eapply (runs_bind any); [runs|]. intros b _.
  pose proof merge_keys_runs as Hm. unfold store, nat_sub, memmove_gap. runs.
Qed.

Lemma next_lv_runs i ty :
  runs (λ r, ∀ j, r = Some j → i < j < length lm)%nat (ay_lnode_next_lv lm (Some i) ty).
Proof.
  destruct (lnode_array_forward lm Hlm) as [Hf _]. unfold ay_lnode_next_lv. runs_step.
  eapply (runs_bind (λ r, ∀ p, r = Some p → p < length lm)%nat).
  { apply (climb_runs (length lm) lm Hf); [|done|].
    - apply (parent_below _ lm Hf i a); [by eapply lookup_lt_Some|done].
    - intros j n r Hj Hn Hr. case_bool_decide; [|done]. injection Hr as <-. by intros p [= <-]. }
  intros [p|] Hp; [|done]. specialize (Hp p eq_refl). eapply runs_bind; [apply runs_fetch|]. intros sn Hsn.
  pose proof (block_below _ lm Hf p sn Hp Hsn). eapply runs_mono; [apply (scan_lnodes_above lm); lia|].
  intros r Hr j Hj. specialize (Hr j Hj). lia.
Qed.

Lemma lnode_insert_runs d key v : runs any (lnode_insert lm d key v).
Proof. apply dnode_insert_runs. intros a b. unfold ay_dnode_lnode_equal. runs. Qed.

Lemma insert_next_lv_runs d key nx ty : runs any (insert_next_lv lm (length lm) d key nx ty).
Proof.
  enough (∀ fuel d nx, (∀ i, nx = Some i → length lm <= S (i + fuel))%nat →
    runs any (insert_next_lv lm fuel d key nx ty)) as H by (apply H; lia).
  clear d nx. induction fuel as [|fuel IH]; intros d nx Hi; cbn [insert_next_lv].
  all: eapply (runs_bind (λ r, ∀ j, r = Some j → ∃ i, nx = Some i ∧ i < j < length lm)%nat);
    [destruct nx as [i|]; [eapply runs_mono; [apply next_lv_runs|]; naive_solver|done]|].
  all: intros [j|] Hj; [|done]; destruct (Hj j eq_refl) as (i & -> & Hij); specialize (Hi i eq_refl).
  { lia. }
  eapply (runs_bind any); [apply lnode_insert_runs|]. intros d' _. apply IH. intros j' [= <-]. lia.
Qed.

Lemma set_lv_runs s labels vals : runs any (ay_ynode_set_lv lm s labels vals).
Proof.
  enough (∀ n i labels vals, runs any (set_lv_from lm n i (mem s) labels vals)) as H by apply H. clear labels vals.
  pose proof insert_next_lv_runs as H. induction n as [|n IH]; intros i labels vals; [done|]. cbn [set_lv_from].
  runs_step. do 2 (eapply (runs_bind any); [apply H|]; intros ? _). apply IH.
Qed.

(** ** Dependence on a value *)

Lemma value_in_concat_runs keys con uni : runs any (value_in_concat lm keys con uni).
Proof.
  pose proof (get_last_concat_runs lm Hlm) as Hc. induction keys as [|x keys IH]; cbn [value_in_concat]; [done|].
  eapply (runs_bind any); [apply Hc|]. intros c _. runs.
Qed.

Lemma skip_no_choice_above s o lo :
  state s → (∀ i, o = Some i → lo <= i < count s)%nat →
  runs (λ r, ∀ j, r = Some j → lo <= j < count s)%nat (skip_no_choice (mem s) o).
Proof.
  intros Hs Ho. unfold skip_no_choice. apply (over_siblings_above (mem s) (count s) _ _ _ lo); [by apply (state_forward L)|done..|].
  intros i n Hi Hn. apply runs_Ok. intros _ j. case_bool_decide; [|done]. by intros [= <-].
Qed.

Lemma set_when_state k s vnode keys uni sum o :
  edited L k s → (∀ i, o = Some i → i < k)%nat →
  runs (λ r, edited L k r.1) (ay_ynode_dependence_on_value_set_when lm (length (mem s)) s vnode keys uni sum o).
Proof.
  intros Hs Ho. enough (∀ fuel s sum o, edited L k s → (∀ i, o = Some i → i < k <= i + fuel)%nat →
    runs (λ r, edited L k r.1) (ay_ynode_dependence_on_value_set_when lm fuel s vnode keys uni sum o)) as H.
  { apply H; [done|]. intros i Hi. specialize (Ho i Hi). destruct Hs as [Hs <-].
    pose proof (state_length L s Hs). destruct Hs as [_ ->]. lia. }
  clear s sum o Hs Ho. pose proof (get_last_concat_runs lm Hlm) as Hcon. pose proof value_in_concat_runs as Hval.
  induction fuel as [|fuel IH]; intros s sum [i|] Hs Ho; try done; destruct (Ho i eq_refl) as [Hi Hf]; [lia|].
  cbn [ay_ynode_dependence_on_value_set_when]. eapply runs_bind; [apply runs_fetch|]. intros n Hn.
  destruct (Hs) as [Ht Hc]. destruct (links_valid L s i n Ht ltac:(unfold valid; lia) Hn) as (_ & Hv & _ & _ & Hlt).
  eapply (runs_bind (λ r, edited L k r.1)).
  - runs_step.
    { eapply runs_bind; [apply (skip_no_choice_above s _ (S i)); [done|]|].
      { intros j Hj. specialize (Hv j Hj). specialize (Hlt j Hj). unfold valid in Hv. lia. }
      intros ch Hch. apply IH; [done|]. intros j Hj. specialize (Hch j Hj). lia. }
    eapply (runs_bind any); [runs|]. intros start _. eapply (runs_bind any); [apply Hcon|]. intros [con|] _; [|done].
    eapply (runs_bind any); [apply Hval|]. intros [v|] _; [|done]. eapply (runs_bind any); [runs|]. intros _ _.
    eapply (runs_bind any); [apply dget_runs|]. intros dv _.
    eapply runs_bind; [by apply (assign_state L)|]. intros s1 [Hs1 Hc1].
    eapply runs_bind; [by apply (assign_state L)|]. intros s2 [Hs2 Hc2]. apply runs_Ok. split; [done|cbn; lia].
  - intros [s' sum'] [Hs' Hc']. cbn [fst] in *.
    eapply runs_bind; [apply (next_of_state L); [done|unfold valid; lia]|]. intros nx Hnx.
    apply IH; [done|]. intros j Hj. specialize (Hnx j Hj). unfold behind in Hnx. lia.
Qed.

Lemma dependence_node_state values s i :
  state s → inner s i → runs (edited L (count s)) (dependence_node lm values s i).
Proof.
  intros Hs Hi. unfold dependence_node. eapply runs_bind; [apply runs_fetch|]. intros n Hn. runs_step; [done|].
  destruct (ay_dnode_find _ _) as [x|]; [|done]. do 2 runs_step.
  eapply (runs_bind any); [by apply has_attribute_runs|]. intros uni _.
  destruct (links_valid L s i n Hs (inner_valid _ _ Hi) Hn) as (Hv & _).
  eapply (runs_bind (λ r, ∀ j, r = Some j → 0 <= j < count s)%nat).
  { runs_step; [done|]. apply skip_no_choice_above; [done|]. intros j Hj. split; [lia|by apply Hv]. }
  intros [ch|] Hch; [|done]. eapply (runs_bind any); [unfold keyval; runs|]. intros keys _.
  eapply runs_bind; [apply (set_when_state (count s)); [done|]|].
  { intros j Hj. apply (Hch j Hj). }
  intros [s1 sum] Hs1. cbn [fst] in Hs1. cbv zeta. eapply (runs_bind any); [runs|]. intros _ _. runs_step; [|done].
  destruct Hs1 as [Hs1 <-]. by apply (assign_state L).
Qed.

(** A loop over [n] nodes whose body keeps them. *)
Lemma for_tree_kept k (body : ytree → nat → res ytree) n i s :
  (∀ s i, edited L k s → (0 < i < k)%nat → runs (edited L k) (body s i)) →
  edited L k s → (0 < i)%nat → (i + n <= k)%nat → runs (edited L k) (for_tree body n i s).
Proof.
  intros Hb. revert i s. induction n as [|n IH]; intros i s Hs Hi Hn; [done|]. cbn [for_tree].
  eapply runs_bind; [apply Hb; [done|lia]|]. intros s' Hs'. apply IH; [done|lia|lia].
Qed.

Lemma dependence_state values s :
  state s → runs (edited L (count s)) (ay_ynode_dependence_on_value lm values s).
Proof.
  intros Hs. pose proof (state_forward L s Hs) as Hf. unfold ay_ynode_dependence_on_value.
  eapply runs_bind; [apply runs_fetch|]. intros n Hn. runs_step; [done|]. apply for_tree_kept; [|done|lia|].
  - intros x i [Hx Hc] Hi. rewrite <- Hc. apply dependence_node_state; [done|unfold inner; lia].
  - pose proof (Hs) as [[t (_ & Hc & _)] _]. pose proof (size_pos t).
    destruct (forward_lookup Hf 0 n) as (_ & _ & _ & Hb); [lia|done|]. lia.
Qed.

(** ** Recursive nodes *)

Lemma modify_lookup_eq s i f s' n :
  modify_node s i f = Ok s' → mem s' !! i = Some n → ∃ n0, n = f n0.
Proof.
  unfold modify_node, modify, store. intros (m & (n0 & _ & Hm)%bind_Ok_inv & [= <-])%bind_Ok_inv Hn.
  case_decide; [|done]. injection Hm as <-. cbn in Hn. rewrite list_lookup_insert_eq in Hn by done.
  injection Hn as <-. by eexists.
Qed.

(** A node that is not deleted becomes a YN_CASE. *)
Lemma delete_node_casts s i s' n :
  ay_ynode_delete_node s i = Ok (s', true) → mem s' !! i = Some n → type (data n) = YN_CASE.
Proof.
  intros (n0 & _ & ([s1 cast] & Hc & H)%bind_Ok_inv)%bind_Ok_inv Hn. destruct cast.
  - injection H as ->. unfold delete_node_choice in Hc.
    repeat first [progress inv_res|case_match|progress simplify_eq].
    by destruct (modify_lookup_eq s i (on_data cast_to_case) s' n) as [? ->].
  - exfalso. repeat first [progress inv_res|case_match|progress simplify_eq].
Qed.

(** The loop stays at the place of a deleted node, and at that of a new YN_CASE. *)
Definition rec_at s i : nat :=
  match mem s !! i with Some n => if bool_decide (type (data n) = YN_REC) then 1 else 0 | None => 0 end.
Definition steps_left s i : nat := (2 * (count s - i) + rec_at s i)%nat.

Lemma rec_at_le s i : (rec_at s i <= 1)%nat.
Proof. unfold rec_at. repeat case_match; lia. Qed.

Lemma delete_ynrec_step_state s i :
  state s → inner s i →
  runs (λ r, state r.1 ∧ (steps_left r.1 (S r.2) < steps_left s i)%nat) (delete_ynrec_step s i).
Proof.
  intros Hs Hi. unfold delete_ynrec_step. eapply runs_bind; [apply runs_fetch|]. intros n Hn.
  unfold steps_left. case_bool_decide as Hty.
  { split; [done|]. pose proof (rec_at_le s (S i)). unfold inner in Hi. cbn [fst snd]. lia. }
  assert (rec_at s i = 1) as -> by (unfold rec_at; by rewrite Hn, bool_decide_true).
  eapply (runs_bind (edited L (count s))).
  { runs_step; [|done]. apply walk_all_state; [done|]. apply (links_valid L s i n Hs (inner_valid _ _ Hi) Hn). }
  intros s1 [Hs1 Hc1]. assert (inner s1 i) as Hi1 by (unfold inner in *; lia).
  pose proof (delete_node_state L s1 i Hs1 Hi1) as Hd.
  destruct (ay_ynode_delete_node s1 i) as [[s2 b]| |] eqn:Hdel; [|done..].
  destruct Hd as (Hs2 & Hc2 & _). cbn [fst snd] in *. rewrite bind_Ok. split; [done|]. cbn [fst snd].
  unfold inner in Hi. replace (S (i - 1)) with i by lia. pose proof (rec_at_le s2 i). destruct b; [|lia].
  assert (rec_at s2 i = 0) as ->; [|lia]. unfold rec_at. destruct (mem s2 !! i) as [n2|] eqn:Hn2; [|done].
  by rewrite (delete_node_casts s1 i s2 n2 Hdel Hn2), bool_decide_false.
Qed.

Lemma delete_ynrec_state s : state s → runs state (ay_ynode_delete_ynrec s).
Proof.
  intros Hs. enough (∀ fuel i s, state s → (0 < i)%nat → (steps_left s i <= fuel)%nat →
    runs state (sweep (λ s, s) fuel delete_ynrec_step i s)) as H.
  { apply H; [done|lia|]. unfold steps_left. pose proof (rec_at_le s 1). pose proof (state_length L s Hs).
    destruct (Hs) as [[t (_ & Hc & _)] ->]. pose proof (size_pos t). lia. }
  clear s Hs. induction fuel as [|fuel IH]; intros i s Hs Hi Hf; cbn [sweep];
    destruct (Nat.leb_spec (count s) i) as [|Hlt]; try done.
  { unfold steps_left in Hf. lia. }
  eapply runs_bind; [apply delete_ynrec_step_state; [done|unfold inner; lia]|]. intros [s' i'] [Hs' Hm].
  cbn [fst snd] in *. apply IH; [done|lia|lia].
Qed.
End values.
