(* ===== verification/CasePasses.v ===== *)
(** The transformations of [TransCase] that insert and delete nodes, the creation of the
    toplevel groupings and the split of nodes ([TransGroup]) on every tree: they end, and
    what they return is a tree again; the lnodes that lose their term are still the array
    of a lens. *)
From S2P Require Import Prelude CString Common ParseRegex Preorder PreorderFacts Runs Ynode YnodeFacts YnodeSpec YnodeTheorems Lnode Forest ForestTheorems YnodeQuery YnodeRules YnodeMandatory QueryFacts MandatoryTheorems QueryTheorems RuleTheorems Dnode TransBase TransChoice TransCase TransForm TransGroup Edits Shape TreeEdits PassTheorems.

#[local] Hint Resolve dget_runs inner_valid behind_valid behind_inner label_lens_runs value_lens_runs
  snode_lens_runs inner_nodes_runs inner_node_alone_runs subtree_equal_runs splittable_runs : runs.
#[local] Hint Extern 1 (runs any (c_assert _)) => exact (runs_any _ _ (runs_assert _)) : runs.

Section cases.
Context `{PB : PointerBytes nat} (lm : list lnode) (Hlm : lnode_array lm) (L : nat).
Implicit Types (s : ytree) (i j : nat).

Abbreviation state := (tree_state L) (only parsing).

(** ** Searches *)

Lemma meets_runs o stop i : runs any (meets (length lm) lm o stop i).
Proof.
  apply (climbing lm Hlm (λ fuel o, runs any (meets fuel lm o stop i))).
  - intros []; cbn [meets]; runs; naive_solver.
  - intros fuel j IH. cbn [meets deref]. runs_step; [done|]. runs_step; [done|]. rewrite bind_Ok. runs_step. by apply IH.
Qed.

Lemma common_choice_runs n1 n2 stop : runs any (ay_ynode_common_choice lm n1 n2 stop).
Proof.
  assert (∀ o n2, runs any (common_choice_loop (length lm) lm o n2 stop)) as Hloop.
  { intros o n2'. pose proof meets_runs as Hm.
    apply (climbing lm Hlm (λ fuel o, runs any (common_choice_loop fuel lm o n2' stop))).
    - intros []; cbn [common_choice_loop]; runs.
    - intros fuel j IH. cbn [common_choice_loop]. runs_step; [done|]. runs_step. runs_step; [by apply IH|].
      eapply runs_bind; [apply Hm|]. intros [] _; [done|by apply IH]. }
  unfold ay_ynode_common_choice. runs_step; [|done]. runs_step; [|done].
  eapply runs_bind; [apply Hloop|]. intros r _. runs.
Qed.

Lemma common_concat_runs m i j stop : runs any (ay_ynode_common_concat lm m i j stop).
Proof. unfold ay_ynode_common_concat. runs. Qed.

Lemma prerequisite_runs m o o' : runs any (ay_ynode_insert_case_prerequisite m o o').
Proof. unfold ay_ynode_insert_case_prerequisite. runs. Qed.

Lemma reset_choice_runs d stop : runs any (ay_ynode_reset_choice lm d stop).
Proof. unfold ay_ynode_reset_choice. runs. Qed.

Lemma case_members_runs s i o cnt :
  state s → valid_opt s o → runs any (case_members lm (length (mem s)) (mem s) i o cnt).
Proof.
  intros Hs Ho. pose proof (state_forward L s Hs) as Hf. revert cnt.
  pose proof common_choice_runs. pose proof common_concat_runs. pose proof prerequisite_runs.
  apply (siblings_induction (count s) (mem s) Hf (λ fuel o, ∀ cnt, runs any (case_members lm fuel (mem s) i o cnt)));
    [by intros []| |exact Ho|apply (forward_length Hf)].
  intros fuel j Hj IH cnt. cbn [case_members]. eapply runs_bind; [apply prerequisite_runs|]. intros b _.
  runs_step; [done|]. do 2 runs_step. eapply runs_bind; [apply common_choice_runs|]. intros cc _.
  eapply runs_bind; [apply common_concat_runs|]. intros con _. runs_step; [done|]. by apply IH.
Qed.

Lemma make_case_state s i : state s → valid s i → runs (edited L (count s)) (make_case s i).
Proof.
  intros Hs Hi. unfold make_case. eapply runs_bind; [by apply (child_node_state L)|]. intros c Hc.
  eapply (runs_bind any); [apply dget_runs|]. intros d _.
  eapply runs_bind; [by apply (assign_state L)|]. intros s1 [Hs1 <-]. by apply (assign_state L).
Qed.

(** [prev] goes down in the array. *)
Lemma mark_copies_state s i o :
  state s → (∀ j, o = Some j → j < count s)%nat → valid s i → runs (edited L (count s)) (mark_copies lm (length (mem s)) s i o).
Proof.
  intros Hs Ho Hi. enough (∀ fuel s i o, state s → valid s i → (∀ j, o = Some j → j < count s ∧ j < fuel)%nat →
    runs (edited L (count s)) (mark_copies lm fuel s i o)) as H.
  { apply H; [done..|]. intros j Hj. specialize (Ho j Hj). pose proof (state_length L s Hs). destruct Hs as [_ ->]. lia. }
  clear s i o Hs Ho Hi. pose proof common_choice_runs as Hcc. pose proof common_concat_runs as Hcon.
  induction fuel as [|fuel IH]; intros s i [j|] Hs Hi Ho; try done; destruct (Ho j eq_refl) as [Hj Hjf]; [lia|].
  cbn [mark_copies]. eapply (runs_bind any); [apply dget_runs|]. intros dc _.
  eapply runs_bind; [by apply (child_node_state L)|]. intros c Hc. eapply (runs_bind any); [apply dget_runs|]. intros f _.
  eapply (runs_bind any); [apply dget_runs|]. intros n _. eapply (runs_bind any); [apply Hcc|]. intros cc _.
  eapply (runs_bind any); [unfold next_node, next_of; runs|]. intros stop _. runs_step; [done|].
  eapply runs_bind; [by apply (assign_state L)|]. intros s1 [Hs1 Hc1].
  eapply runs_bind; [by apply (assign_state L)|]. intros s2 [Hs2 Hc2]. rewrite Hc1 in Hc2.
  eapply runs_bind; [apply (get_prev_state L); [done|unfold valid; lia]|]. intros prev Hprev. rewrite <- Hc2.
  apply IH; [done|unfold valid in *; lia|]. intros p Hp. specialize (Hprev p Hp). lia.
Qed.

(** Loops that assign members of the siblings. *)
Lemma walk_assign_state (body : ytree → nat → res (ytree * option nat)) o s :
  (∀ s i, state s → valid s i → runs (λ r, edited L (count s) r.1 ∧ r.2 = Some i) (body s i)) →
  state s → valid_opt s o → runs (edited L (count s)) (walk_tree body o s).
Proof.
  intros Hb Hs Ho. apply (walk_tree_up L (edited L (count s)) 0); [by intros ? []| |done|].
  - intros x i [Hx Hc] Hi. eapply runs_mono; [apply Hb; [done|apply Hi]|]. intros [x' o'] [[Hx' Hc'] ->].
    cbn [fst snd] in *. split; [split; [done|lia]|]. apply goes_on_same. lia.
  - intros i Hi. specialize (Ho i Hi). unfold valid in Ho. lia.
Qed.

(** ** YN_CASE nodes *)

Lemma insert_case_step_state s i :
  state s → inner s i → runs (λ r, state r.1 ∧ (i <= r.2)%nat) (insert_case_step lm s i).
Proof.
  intros Hs Hi. pose proof (proj2 Hi) as Hic. unfold insert_case_step. eapply runs_bind; [apply runs_fetch|]. intros n Hn.
  eapply (runs_bind any); [runs|]. intros _ _. eapply (runs_bind any).
  { apply case_members_runs; [done|]. apply (links_valid L s i n Hs Hic Hn). }
  intros cnt _. runs_step; [by split|].
  eapply runs_bind; [by apply (insert_wrapper_state L)|]. intros s1 [Hs1 Hc1].
  eapply runs_bind; [apply make_case_state; [done|unfold valid; lia]|]. intros s2 Hs2.
  eapply runs_bind; [apply (absorb_state L); [exact Hs2|lia]|]. intros s3 [Hs3 Hc3].
  eapply (runs_bind any); [apply dget_runs|]. intros dc _.
  eapply runs_bind; [apply (child_node_state L); [done|unfold valid; lia]|]. intros c Hc.
  eapply runs_bind; [apply (next_of_state L); [done|apply Hc]|]. intros rest Hrest.
  assert (valid_opt s3 rest) as Hrv by (intros j Hj; apply (Hrest j Hj)).
  eapply runs_bind.
  { apply walk_assign_state; [|done|exact Hrv]. intros x j Hx Hj. eapply (runs_bind any); [apply dget_runs|]. intros d _.
    eapply (runs_bind any); [apply reset_choice_runs|]. intros d' _.
    eapply runs_bind; [by apply (assign_state L)|]. intros x' Hx'. by apply runs_Ok. }
  intros s4 [Hs4 Hc4]. eapply runs_bind.
  { apply walk_assign_state; [|done|intros j Hj; unfold valid; rewrite Hc4; by apply Hrv].
    intros x j Hx Hj. eapply (runs_bind any).
    { apply (alone_in_choice_runs (count x)); [by apply (state_forward L)|done]. }
    intros a _. eapply (runs_bind (edited L (count x))); [destruct a; [by apply (assign_state L)|done]|].
    intros x' Hx'. by apply runs_Ok. }
  intros s5 [Hs5 Hc5]. assert (inner s5 i) as Hi5 by (unfold inner in *; lia).
  eapply (runs_bind any).
  { apply (alone_in_choice_runs (count s5)); [by apply (state_forward L)|apply Hi5]. }
  intros alone _. eapply (runs_bind any); [unfold parent_node, parent_of; runs|]. intros useless _. destruct useless.
  - eapply runs_bind; [by apply (delete_node_state L)|]. intros [s6 b] (Hs6 & _). by apply runs_Ok.
  - eapply runs_bind; [apply (get_prev_state L); [done|apply Hi5]|]. intros prev Hprev.
    eapply runs_bind; [apply mark_copies_state; [done| |apply Hi5]|].
    { intros j Hj. specialize (Hprev j Hj). destruct Hi5. lia. }
    intros s6 [Hs6 _]. apply runs_Ok. split; [done|cbn; lia].
Qed.

Lemma insert_case_state s : state s → runs state (ay_ynode_insert_case lm s).
Proof.
  intros Hs. unfold ay_ynode_insert_case. eapply (runs_bind any); [apply dget_runs|]. intros r _.
  eapply (runs_bind any); [runs|]. intros _ _. apply (sweep_tree_state L); [|done]. intros. by apply insert_case_step_state.
Qed.

(** *** Copies into a case *)

(** There are nodes behind the subtree of [i]. *)
Definition followed i s : Prop := state s ∧ (S (i + dn (mem s) i) < count s)%nat.

Lemma next_followed s i n j :
  state s → valid s i → mem s !! i = Some n → next n = Some j → followed i s ∧ (i < j)%nat.
Proof.
  intros Hs Hi Hn Hj. destruct (tree_intervals L s Hs) as [N HN].
  destruct (next_interval L s N Hs HN i n j Hn Hi Hj) as (-> & Hc & _).
  destruct (interval_fetch L s N HN i n Hn Hi) as [_ Hb]. split; [split; [done|]|lia].
  unfold dn. by rewrite Hn, Hb.
Qed.

Lemma copy_step_state i s j :
  followed i s → (i < j < count s)%nat →
  runs (λ r, followed i r.1 ∧ goes_on r.1 j r.2)
    (sz ← size_of s j; s' ← ay_ynode_copy_subtree_as_last_child s i j; Ok (s', Some (j + S sz)%nat)).
Proof.
  intros [Hs Hfo] Hj. eapply runs_bind; [apply size_of_fetch|]. intros sz (n & Hn & -> & Hdn).
  destruct (tree_intervals L s Hs) as [N HN].
  destruct (interval_fetch L s N HN j n Hn) as [_ Hb]; [lia|]. destruct (int_nest _ _ _ HN j) as [Hjn _]; [lia|].
  eapply runs_bind.
  { apply (copy_as_last_child_state L s i j n Hs); [unfold valid; lia|done|unfold valid; lia|apply apart_before; lia]. }
  intros s' [Hs' [[-> Hend]|[Hc Hd]]]; apply runs_Ok; cbn [fst snd].
  - split; [by split|]. intros j' [= <-]. right. lia.
  - split; [split; [done|rewrite Hc, Hd; lia]|]. intros j' [= <-]. right. lia.
Qed.

Lemma sibling_by_id_runs s i x :
  state s → valid s i → runs (λ r, ∀ j, r = Some j → i <= j < count s)%nat (sibling_by_id s (Some i) x).
Proof.
  intros Hs Hi. unfold sibling_by_id.
  apply (over_siblings_above (mem s) (count s) _ _ _ i); [by apply (state_forward L)| |done|].
  - by intros j [= <-].
  - intros j n Hj Hn. apply runs_Ok. intros _ j'. case_match; [|done]. by intros [= <-].
Qed.

Lemma copy_case_step_state s i :
  state s → inner s i → runs (λ r, state r.1 ∧ (i <= r.2)%nat) (copy_case_step s i).
Proof.
  intros Hs Hi. pose proof (proj2 Hi) as Hic. unfold copy_case_step. eapply (runs_bind any); [apply dget_runs|]. intros d _.
  runs_step; [by split|]. eapply runs_bind; [by apply (insert_wrapper_state L)|]. intros s1 [Hs1 Hc1].
  eapply runs_bind; [apply make_case_state; [done|unfold valid; lia]|]. intros s2 [Hs2 Hc2].
  assert (valid s2 i) as Hi2 by (unfold valid; lia).
  eapply runs_bind; [by apply (child_node_state L)|]. intros c Hc. eapply (runs_bind any); [apply dget_runs|]. intros dc _.
  eapply runs_bind; [apply next_of_fetch|]. intros nx (n & Hn & ->).
  destruct (next n) as [j|] eqn:Hj.
  2: { assert (sibling_by_id s2 None (ref dc) = Ok None) as ->.
       { unfold sibling_by_id. by destruct (length (mem s2)). }
       rewrite bind_Ok, bool_decide_false by (by intros [? ?]). done. }
  pose proof (next_followed s2 i n j Hs2 Hi2 Hn Hj) as [[_ Hfo] Hij].
  destruct (links_valid L s2 i n Hs2 Hi2 Hn) as (Hjv & _).
  eapply runs_bind; [apply sibling_by_id_runs; [done|by apply Hjv]|]. intros src Hsrc.
  eapply (runs_bind any); [runs|]. intros _ _. eapply runs_bind; [apply runs_deref|]. intros cas Hcas.
  specialize (Hsrc cas Hcas). eapply runs_bind; [by apply (assign_sized L)|]. intros s3 [[Hs3 Hc3] Hd3].
  eapply runs_bind; [apply (child_node_state L); [done|unfold valid; lia]|]. intros sc Hsc. unfold behind in Hsc.
  eapply runs_bind; [apply (next_of_state L); [done|unfold valid; lia]|]. intros first Hfirst.
  eapply (runs_bind any); [runs|]. intros _ _. eapply (runs_bind (followed i)).
  { apply (walk_tree_up L (followed i) (S i)); [by intros ? []| |split; [done|rewrite Hd3 by done; lia]|].
    - intros x k Hx Hk. apply copy_step_state; [done|lia].
    - intros k Hk. specialize (Hfirst k Hk). unfold behind in Hfirst. lia. }
  intros s4 [Hs4 _]. by apply runs_Ok.
Qed.

Lemma copy_case_state s : state s → runs state (ay_ynode_copy_case_nodes s).
Proof.
  intros Hs. unfold ay_ynode_copy_case_nodes. eapply (runs_bind any); [apply dget_runs|]. intros r _.
  eapply (runs_bind any); [runs|]. intros _ _. eapply runs_bind; [by apply (assign_state L)|]. intros s1 [Hs1 _].
  apply (sweep_tree_state L); [|done]. intros. by apply copy_case_step_state.
Qed.

(** ** Equal branches *)

Lemma same_choice_runs s c i : runs any (same_choice s c i).
Proof. unfold same_choice. runs. Qed.

(** The first branch is deleted when it is a case that is left alone. *)
Lemma delete_if_equal_state c br1 s br2 :
  state s → (0 < br1 < br2)%nat → (br2 < count s)%nat →
  runs (λ r, (state r.1 ∧ goes_on r.1 br1 (Some br1)) ∧ goes_on r.1 br2 r.2) (delete_if_equal lm c br1 s br2).
Proof.
  intros Hs H12 H2. assert ((state s ∧ goes_on s br1 (Some br1)) ∧ goes_on s br2 (Some br2)) as Hsame.
  { split; [split; [done|]|]; apply goes_on_same; lia. }
  unfold delete_if_equal. eapply (runs_bind any); [apply dget_runs|]. intros dc _.
  eapply (runs_bind any); [apply same_choice_runs|]. intros same _. runs_step; [split; [apply Hsame|done]|].
  eapply (runs_bind any); [apply subtree_equal_runs|]. intros b _. runs_step; [exact Hsame|].
  destruct (lookup_lt_is_Some_2 (mem s) br2) as [n Hn].
  { pose proof (state_length L s Hs). destruct Hs as [_ ->]. lia. }
  eapply runs_bind; [apply (delete_subtree_state L s br2 n); [done|unfold inner; lia|done]|].
  intros s1 [[Hs1 Hc1] Hz1].
  destruct (tree_intervals L s Hs) as [N HN]. destruct (interval_fetch L s N HN br2 n Hn H2) as [_ Hb].
  destruct (int_nest _ _ _ HN br2 H2) as [Hend _].
  assert (br1 < count s1)%nat as H1c by lia.
  eapply (runs_bind any). { apply (alone_in_choice_runs (count s1)); [by apply (state_forward L)|done]. }
  intros a _. eapply (runs_bind any); [apply dget_runs|]. intros d1 _.
  eapply (runs_bind (λ s2, state s2 ∧ cleared s1 s2)).
  { runs_step; [|by split; [|apply cleared_refl]].
    eapply runs_bind; [apply (delete_node_state L); [done|unfold inner; lia]|]. intros [s2 b'] (Hs2 & _ & Hz2).
    by apply runs_Ok. }
  intros s2 [Hs2 Hz2]. apply runs_Ok. split; [split; [done|]|].
  - apply (goes_on_deleted_twice s s1 s2); [done|done|lia].
  - by apply (goes_on_deleted_twice s s1 s2).
Qed.

Lemma equal_cases_node_state s i : state s → inner s i → runs state (equal_cases_node lm s i).
Proof.
  intros Hs Hi. unfold equal_cases_node. eapply (runs_bind any); [apply dget_runs|]. intros d _.
  runs_step; [done|]. apply (walk_tree_up L state 1); [done| |done|].
  - intros x br1 Hx H1. pose proof (conj Hx (goes_on_same x br1 (proj2 H1))) as Hsame.
    eapply (runs_bind any); [apply dget_runs|]. intros di _.
    eapply (runs_bind any); [apply same_choice_runs|]. intros same _. runs_step; [by split|].
    eapply runs_bind; [apply (next_of_state L); [done|apply H1]|]. intros nx Hnx.
    eapply (runs_bind (λ x', state x' ∧ goes_on x' br1 (Some br1))).
    { apply (walk_tree_up L _ (S br1)); [by intros ? []| |done|].
      - intros y br2 [Hy _] H2. apply delete_if_equal_state; [done|lia|lia].
      - intros j Hj. specialize (Hnx j Hj). unfold behind in Hnx. lia. }
    intros x' Hx'. by apply runs_Ok.
  - intros j [= <-]. exact Hi.
Qed.

Lemma delete_equal_cases_state s : state s → runs state (ay_ynode_delete_equal_cases lm s).
Proof. apply (sweep_nodes_state L state); [done|]. intros. by apply equal_cases_node_state. Qed.
End cases.

(** ** Data of an array of a tree *)

Section data.
Context {P : Type}.

Lemma plug_one (c : list (frame P)) u : ∃ t, plug c [u] = [t].
Proof. revert u. induction c as [|[d ls rs] c IH]; intros u; [by exists u|]. apply IH. Qed.

Lemma place_of (t : tree P) i : (i < size t)%nat → ∃ c d cs, plug c [T d cs] = [t] ∧ hole c = i.
Proof.
  intros Hi. destruct t as [d ts]. rewrite size_T in Hi. destruct i as [|i]; [by exists [], d, ts|].
  destruct (locate ts i d [] [] []) as (c & [e cs] & Hp & Hh & _); [lia|].
  exists c, e, cs. split; [|cbn in Hh; lia]. rewrite Hp. cbn. by rewrite app_nil_r.
Qed.

Lemma modify_enc (t : tree P) i g :
  runs (λ m, ∃ t', m = enc 0 None None t') (modify (enc 0 None None t) i (λ n, set_data (g (data n)) n)).
Proof.
  assert (∀ t : tree P, enc 0 None None t = encf 0 None None [t]) as He by (intros; cbn; by rewrite app_nil_r).
  unfold modify. eapply runs_bind; [apply runs_fetch|]. intros n Hn.
  assert (i < size t)%nat as Hi.
  { apply lookup_lt_Some in Hn. rewrite He, length_encf in Hn. cbn in Hn. lia. }
  destruct (place_of t i Hi) as (c & d & cs & Hp & <-). destruct (plug_one c (T (g d) cs)) as [t' Hp'].
  destruct (encf_plug_same c [T d cs] [T (g d) cs] eq_refl) as (A & B & HA & H1 & H2).
  rewrite Hp, <- He, encf_cons in H1. rewrite Hp', <- He, encf_cons in H2. cbn [app] in H1, H2.
  rewrite H1 in Hn |- *. rewrite lookup_app_mid in Hn by done. injection Hn as <-.
  rewrite store_Ok by (rewrite length_app; cbn; lia). rewrite insert_app_mid by done. exists t'. by rewrite H2.
Qed.
End data.

Section groups.
Context `{LP : LensPointers} `{PB : PointerBytes nat} (pt : list ay_transl) (L : nat).
Implicit Types (s : ytree) (i j : nat) (lm : list lnode).

Abbreviation state := (tree_state L) (only parsing).

(** ** Terms of the lnodes *)

Lemma clear_pnode_array lm i : lnode_array lm → runs lnode_array (clear_pnode lm i).
Proof. intros [lt ->]. exact (modify_enc lt i (λ d, LData (lens_of d) (lmod d) None (lflags d))). Qed.

Lemma unset_pnodes_array n m i del j lm : lnode_array lm → runs lnode_array (unset_pnodes n m i del j lm).
Proof.
  revert i j lm. induction n as [|n IH]; intros i j lm Hlm; [done|]. cbn [unset_pnodes]. runs_step.
  runs_step; [by apply IH|]. eapply (runs_bind any); [unfold pnode_of; runs|]. intros p _.
  runs_step; [by apply IH|]. do 2 runs_step. eapply (runs_bind any); [runs|]. intros _ _. do 2 runs_step.
  eapply (runs_bind any); [unfold pnode_of; runs|]. intros q _. eapply (runs_bind lnode_array).
  { runs_step; [by apply clear_pnode_array|done]. }
  intros lm' Hlm'. by apply IH.
Qed.

Lemma unset_pnode_array m lm i j b : lnode_array lm → runs lnode_array (ay_ynode_snode_unset_pnode m lm i j b).
Proof.
  intros Hlm. unfold ay_ynode_snode_unset_pnode. runs_step. runs_step; [by apply unset_pnodes_array|].
  eapply (runs_bind any); [runs|]. intros inn _. by apply unset_pnodes_array.
Qed.

(** ** Toplevel groupings *)

Definition gstate_ok (st : ytree * list lnode) : Prop := state st.1 ∧ lnode_array st.2.

Lemma assign_any s i f : state s → runs (edited L (count s)) (on_node s i f).
Proof. apply assign_state. Qed.

Lemma replace_by_uses_state g iti mf st j :
  gstate_ok st → (g < j < count st.1)%nat →
  runs (λ r, (gstate_ok r.1 ∧ g < count r.1.1)%nat ∧ (j <= r.2)%nat) (replace_by_uses g iti mf st j).
Proof.
  intros [Hs Hlm] Hj. destruct st as [s lm]. cbn [fst snd] in *. unfold replace_by_uses.
  eapply (runs_bind any); [runs|]. intros di _. eapply (runs_bind any); [runs|]. intros dj _.
  runs_step; [split; [split; [done|cbn; lia]|done]|]. cbv zeta.
  eapply runs_bind; [by apply unset_pnode_array|]. intros lm' Hlm'.
  eapply runs_bind; [apply (delete_children_state L); [done|apply Hj]|]. intros s1 [Hs1 Hc1].
  eapply (runs_bind (λ r, state r.1 ∧ j < count r.1)%nat).
  { runs_step.
    - eapply runs_bind; [apply (insert_child_last_state L); [done|apply Hc1]|]. intros [s' u] [[Hs' Hc'] _].
      cbn [fst] in *. runs_step. split; [done|cbn; lia].
    - eapply runs_bind; [by apply assign_any|]. intros s' [Hs' Hc']. split; [done|cbn; lia]. }
  intros [s2 uses] [Hs2 Hc2]. cbn [fst] in *.
  eapply runs_bind; [by apply assign_any|]. intros s3 [Hs3 Hc3]. eapply (runs_bind any); [runs|]. intros dg _.
  eapply runs_bind; [by apply assign_any|]. intros s4 [Hs4 Hc4]. apply runs_Ok.
  split; [split; [done|cbn; lia]|done].
Qed.

(** The place of a grouping; behind a new one there is room for a sibling. *)
Definition grouped (r : ytree * nat * nat * bool) : Prop :=
  let '(s, g, _, used) := r in state s ∧ (g < count s)%nat ∧ (used = false → 0 < g)%nat.

(** The first inner node, or the first child. *)
Lemma first_inner_state s i n :
  state s → valid s i → mem s !! i = Some n →
  runs (λ o, ∀ g, o = Some g → inner s g) (ay_ynode_inner_nodes (mem s) i).
Proof.
  intros Hs Hi Hn. destruct (state_place L s i Hs Hi) as (c & d & cs & Hr & <-).
  eapply runs_mono; [by eapply inner_nodes_state|]. intros o Ho g Hg.
  destruct (Ho g Hg) as (vs & us & -> & Hus & ->). pose proof (place_count _ _ _ Hr) as Hc.
  cbn [sizes] in Hc. rewrite size_T, sizes_app in Hc. assert (sizes us ≠ 0) by (intros H0; by apply Hus, sizes_0).
  unfold inner. lia.
Qed.

Lemma place_grouping_state s i : state s → inner s i → runs grouped (place_grouping s i).
Proof.
  intros Hs Hi. unfold place_grouping. eapply runs_bind; [apply runs_fetch|]. intros n Hn. unfold inner in Hi.
  assert (valid s i) as Hv by (unfold valid; lia).
  destruct (links_valid L s i n Hs Hv Hn) as (_ & Hcv & Hpv & _ & Hlt). runs_step.
  - eapply (runs_bind any); [runs|]. intros _ _. eapply runs_bind; [exact (first_inner_state s i n Hs Hv Hn)|]. intros inn Hinn.
    eapply (runs_bind (inner s)).
    { destruct inn as [j|]; [by apply (Hinn j)|]. destruct (child n) as [c|]; [|done].
      specialize (Hcv c eq_refl). specialize (Hlt c eq_refl). unfold valid in Hcv. cbn. unfold inner. lia. }
    intros g Hg. unfold inner in Hg.
    eapply runs_bind; [by apply (insert_parent_for_rest_state L)|]. intros s1 [Hs1 Hc1].
    eapply runs_bind; [by apply assign_any|]. intros s2 [Hs2 Hc2]. apply runs_Ok. split_and!; [done|lia|lia].
  - eapply runs_bind; [apply runs_deref|]. intros p Hp. specialize (Hpv p Hp). runs_step.
    eapply (runs_bind any).
    { runs_step; [|done]. eapply (runs_bind any); [unfold parent_node, parent_of; runs|]. intros pp _. runs. }
    intros shared _. runs_step; [by split_and!|].
    eapply runs_bind; [by apply (insert_wrapper_state L)|]. intros s1 [Hs1 Hc1].
    eapply (runs_bind any); [unfold parent_node, parent_of; runs|]. intros p' _.
    eapply (runs_bind any); [runs|]. intros pd _.
    eapply runs_bind; [by apply assign_any|]. intros s2 [Hs2 Hc2]. apply runs_Ok. split_and!; [done|lia|lia].
Qed.

Lemma uses_behind_state s g iti mf : state s → inner s g → runs state (uses_behind s g iti mf).
Proof.
  intros Hs Hg. unfold uses_behind. eapply runs_bind; [by apply insert_sibling_state|]. intros s1 [Hs1 Hc1].
  eapply (runs_bind any); [unfold next_node, next_of; runs|]. intros u _. runs_step.
  eapply (runs_bind any); [runs|]. intros dg _.
  eapply (runs_bind any); [unfold child_node, child_of; runs|]. intros c _. runs_step. cbv zeta.
  eapply runs_bind; [by apply assign_any|]. intros s2 [Hs2 Hc2]. runs_step; [|done].
  eapply runs_mono; [by apply assign_any|]. by intros ? [].
Qed.

Lemma toplevel_step_state st i :
  gstate_ok st → inner st.1 i → runs (λ r, gstate_ok r.1 ∧ (i <= r.2)%nat) (groupings_toplevel_step st i).
Proof.
  intros [Hs Hlm] Hi. destruct st as [s lm]. cbn [fst snd] in *. unfold groupings_toplevel_step. runs_step. cbv zeta.
  runs_step; [by split|]. runs_step; [split; [done|cbn; lia]|]. eapply (runs_bind any); [runs|]. intros _ _.
  eapply runs_bind; [by apply place_grouping_state|]. intros [[[s1 g] iti] used] (Hs1 & Hg & Hu).
  eapply runs_bind; [by apply assign_any|]. intros s2 [Hs2 Hc2].
  eapply (runs_bind any); [unfold child_node, child_of; runs|]. intros c _.
  eapply (runs_bind any); [runs|]. intros dc _. cbv zeta.
  eapply (runs_bind any); [unfold size_of; runs|]. intros sz _.
  eapply (runs_bind (λ st, gstate_ok st ∧ g < count st.1)%nat).
  { apply (sweep_up L fst (λ st, gstate_ok st ∧ g < count st.1)%nat (S g)); [by intros ? [[] _]| |split; [done|cbn; lia]|lia|].
    - intros x j [Hx _] Hj. by apply replace_by_uses_state; [|lia].
    - destruct Hs as [_ ->]. lia. }
  intros [s3 lm'] [[Hs3 Hlm'] Hg3]. cbn [fst snd] in *.
  eapply runs_bind; [by apply assign_any|]. intros s4 [Hs4 Hc4].
  eapply (runs_bind state).
  { destruct used; [done|]. apply uses_behind_state; [done|]. specialize (Hu eq_refl). unfold inner. lia. }
  intros s5 Hs5. by apply runs_Ok.
Qed.

Lemma toplevel_state st : gstate_ok st → runs gstate_ok (ay_ynode_create_groupings_toplevel st).
Proof.
  intros Hst. unfold ay_ynode_create_groupings_toplevel. apply (sweep_up L fst gstate_ok 1); [by intros ? []| |done|lia|].
  - intros x i Hx Hi. apply toplevel_step_state; [done|unfold inner; lia].
  - destruct Hst as [[_ ->] _]. lia.
Qed.

(** ** Split of nodes *)

Context (lm : list lnode) (Hlm : lnode_array lm).

Lemma seq_index_runs s o nd lab idx :
  state s → valid_opt s o → runs any (seq_index lm (length (mem s)) (mem s) o nd lab idx).
Proof.
  intros Hs Ho. pose proof (state_forward L s Hs) as Hf. revert idx.
  apply (siblings_induction (count s) (mem s) Hf (λ fuel o, ∀ idx, runs any (seq_index lm fuel (mem s) o nd lab idx)));
    [by intros []| |exact Ho|apply (forward_length Hf)].
  intros fuel i Hi IH idx. cbn [seq_index]. runs_step; [done|]. runs_step. eapply (runs_bind any); [runs|]. intros l _.
  eapply (runs_bind any); [runs|]. intros eq _. by apply IH.
Qed.

Lemma splitted_index_runs s i : state s → valid s i → runs any (ay_ynode_splitted_seq_index lm (mem s) i).
Proof.
  intros Hs Hi. unfold ay_ynode_splitted_seq_index. eapply runs_bind; [apply runs_fetch|]. intros n Hn.
  eapply (runs_bind any); [runs|]. intros l _. eapply runs_bind; [apply runs_deref|]. intros p Hp.
  eapply runs_bind; [apply runs_fetch|]. intros pn Hpn. apply seq_index_runs; [done|].
  destruct (links_valid L s i n Hs Hi Hn) as (_ & _ & Hpv & _).
  apply (links_valid L s p pn Hs (Hpv p Hp) Hpn).
Qed.

(** The tree with at least [k] nodes. *)
Definition grown (k : nat) s : Prop := state s ∧ (k <= count s)%nat.

Lemma split_grouping_state s i inn b b' :
  state s → (∀ g, inn = Some g → inner s g) → runs (λ r, grown (count s) r.1) (split_grouping s i inn b b').
Proof.
  intros Hs Hinn. unfold split_grouping. destruct inn as [g|]; [|done]. specialize (Hinn g eq_refl).
  runs_step. cbv zeta. runs_step; [done|]. runs_step; [done|]. runs_step; [|done].
  eapply runs_bind; [by apply (insert_parent_for_rest_state L)|]. intros s1 [Hs1 Hc1].
  eapply (runs_bind any); [unfold parent_node, parent_of; runs|]. intros p _. eapply (runs_bind any); [runs|]. intros pd _.
  eapply runs_bind; [by apply assign_any|]. intros s2 [Hs2 Hc2]. eapply (runs_bind any); [runs|]. intros gd _.
  eapply runs_bind; [apply insert_sibling_state; [done|unfold inner in *; lia]|]. intros s3 [Hs3 Hc3].
  eapply (runs_bind any); [unfold next_node, next_of; runs|]. intros u _.
  eapply runs_bind; [by apply assign_any|]. intros s4 [Hs4 Hc4]. apply runs_Ok. split; [done|cbn; lia].
Qed.

Lemma put_child_state k s par f : grown k s → valid s par → runs (grown k) (put_child s par f).
Proof.
  intros [Hs Hk] Hp. unfold put_child. eapply runs_bind; [by apply insert_child_state|]. intros s1 [Hs1 Hc1].
  eapply (runs_bind any); [unfold child_node, child_of; runs|]. intros c _.
  eapply runs_mono; [by apply assign_any|]. intros s2 [Hs2 Hc2]. split; [done|lia].
Qed.

Lemma copy_child_state k s par src : grown k s → valid s par → runs (grown k) (copy_child s par src).
Proof.
  intros [Hs Hk] Hp. unfold copy_child. destruct src as [x|]; [|done].
  eapply runs_bind; [by apply insert_child_state|]. intros s1 [Hs1 Hc1].
  eapply (runs_bind any); [unfold child_node, child_of; runs|]. intros c _. eapply (runs_bind any); [runs|]. intros d _.
  eapply runs_mono; [by apply assign_any|]. intros s2 [Hs2 Hc2]. split; [done|lia].
Qed.

Lemma split_once_state nd key value gid b s :
  (0 < nd)%nat → grown (S nd) s → runs (grown (S nd)) (split_once nd key value gid b s).
Proof.
  intros H0 [Hs Hk]. assert (inner s nd) as Hin by (unfold inner; lia). unfold split_once. destruct b.
  - destruct (lookup_lt_is_Some_2 (mem s) nd) as [n Hn].
    { pose proof (state_length L s Hs). destruct Hs as [_ ->]. lia. }
    eapply runs_mono; [apply (copy_as_sibling_state L s nd nd n); [done|done|done|by apply inner_valid|by left]|].
    intros s' [Hs' Hc']. split; [done|lia].
  - eapply runs_bind; [by apply insert_sibling_state|]. intros s1 [Hs1 Hc1].
    eapply runs_bind; [apply (next_node_state L); [done|unfold valid; lia]|]. intros new Hnew. unfold behind in Hnew.
    eapply (runs_bind any); [runs|]. intros d _.
    eapply runs_bind; [by apply assign_any|]. intros s2 [Hs2 Hc2].
    assert (∀ x, grown (S new) x → valid x new) as Hv by (unfold grown, valid; intros x []; lia).
    assert (grown (S new) s2) as Hg2 by (split; [done|lia]).
    eapply (runs_bind (grown (S new))). { runs_step; [done|]. apply put_child_state; [done|by apply Hv]. }
    intros s3 Hg3. eapply runs_bind; [apply copy_child_state; [exact Hg3|by apply Hv]|]. intros s4 Hg4.
    eapply runs_mono; [apply copy_child_state; [exact Hg4|by apply Hv]|]. intros s5 [Hs5 Hc5]. split; [done|lia].
Qed.

Lemma parent_has_child_runs s i ty : state s → valid s i → runs any (ay_ynode_parent_has_child (mem s) i ty).
Proof.
  intros Hs Hi. unfold ay_ynode_parent_has_child. eapply runs_bind; [apply runs_fetch|]. intros n Hn.
  pose proof (state_forward L s Hs) as Hf.
  apply (over_siblings_runs (count s) (mem s) Hf); [by eapply child_below|done|by intros].
Qed.

Lemma node_split_node_state s i : state s → inner s i → runs state (node_split_node pt lm s i).
Proof.
  intros Hs Hi. unfold inner in Hi. assert (valid s i) as Hv by (unfold valid; lia). unfold node_split_node.
  eapply (runs_bind any); [runs|]. intros k _. eapply (runs_bind any); [runs_step; [done|by apply splitted_index_runs]|].
  intros idx _. runs_step; [done|]. runs_step. do 2 (eapply (runs_bind any); [runs|]; intros ? _).
  eapply (runs_bind any); [runs|]. intros l _. cbv zeta. eapply (runs_bind any); [runs|]. intros _ _.
  eapply (runs_bind (edited L (count s))); [runs_step; [by apply assign_any|done]|]. intros s1 [Hs1 Hc1].
  assert (valid s1 i) as Hv1 by (unfold valid in *; lia).
  destruct (lookup_lt_is_Some_2 (mem s1) i) as [n1 Hn1].
  { pose proof (state_length L s1 Hs1). destruct Hs1 as [_ ->]. unfold valid in Hv1. lia. }
  eapply runs_bind; [exact (first_inner_state s1 i n1 Hs1 Hv1 Hn1)|]. intros inn Hinn.
  eapply (runs_bind any).
  { unfold ay_ynode_subtree_contains_type. runs_step. apply find_node_runs. by intros. }
  intros lf _. eapply (runs_bind any).
  { apply (when_paths_runs (count s1)); [by apply (state_forward L)|exact Hv1]. }
  intros valid' _. eapply runs_bind; [by apply split_grouping_state|]. intros [s2 gid] [Hs2 Hk2]. cbn [fst] in *.
  assert (valid s2 i) as Hv2 by (unfold valid in *; lia).
  eapply (runs_bind any); [by apply parent_has_child_runs|]. intros key _.
  eapply (runs_bind any); [by apply parent_has_child_runs|]. intros value _.
  eapply runs_mono; [apply (times_state (grown (S i)))|by intros ? []].
  - intros x Hx. apply split_once_state; [lia|done].
  - split; [done|unfold valid in Hv2; lia].
Qed.

Lemma node_split_state s : state s → runs state (ay_ynode_node_split pt lm s).
Proof. apply (sweep_nodes_state L state); [done|]. intros. by apply node_split_node_state. Qed.
End groups.
