(* ===== verification/PipelineTheorems.v ===== *)
(** The transformations in the order of [ay_ynode_transformations], each with the
    reservation of the space that its rule asks for.  Most of them end on every tree, and
    what they return is a tree again, so every run of a part of them ends with a tree. *)
From S2P Require Import Prelude CString Common ParseRegex Preorder PreorderFacts Runs Lnode Ynode YnodeFacts YnodeSpec YnodeTheorems Forest YnodeQuery YnodeRules YnodeMandatory QueryFacts ForestTree ForestTheorems TypeTheorems MandatoryTheorems QueryTheorems RuleTheorems Dnode TransBase TransChoice TransCase TransMerge TransForm TransGroup Pnode Ident Names Idents TransIdent Edits Shape TreeEdits PassTheorems CasePasses.

#[local] Hint Resolve dget_runs : runs.

(** The transformations by the names of their functions. *)
Inductive transformation :=
  | InsertImplicitList | SetType | DeleteTypeUnknown | DeleteBuildList | UniteChoice | SetLv
  | MoreKeysForNode | InsertCase | CopyCaseNodes | DeleteEqualCases | MergeCases
  | DeleteUselessChoice | InsertListFiles | OrderedEntries | RecursiveForm | NodeKeyAndValue
  | DependenceOnValue | SetMandatory | WhenOrnot | RecursiveFormByCopy | SetRefRecursiveForm
  | SetRef | CreateGroupingsRecursiveForm | CreateGroupingsToplevel | DeleteYnrec | NodeSplit
  | GroupingsAhead | SnodeUniquePnode | TransformationsIdent.

Section pipeline.
Context `{LP : LensPointers} `{PB : PointerBytes nat} (modules : list amodule) (md : amodule)
  (patt_table : list ay_transl) (buffer : buf).
Context (fresh : ytree → Z → list ynode) (moved : ytree → Z → option (nat → nat)).
Implicit Types (st : pipeline) (s : ytree).

(** ** The stages *)

(** A transformation, and one that inserts as many nodes as its rule says. *)
Inductive stage :=
  | Pass (p : pass)
  | Space (insert : pass) (req_space : pipeline → res Z).

Definition perform (x : stage) : pass :=
  match x with Pass p => p | Space insert req => TRANSF fresh moved insert req end.

Definition stage_of (t : transformation) : stage :=
  match t with
  | InsertImplicitList =>
      Space (on_tree ay_ynode_insert_implicit_list)
        (λ st, ay_ynode_rule_insert_implicit_list (st_lnodes st))
  | SetType => Pass (on_tree ay_ynode_set_type)
  | DeleteTypeUnknown => Pass (on_tree (λ _, ay_delete_type_unknown))
  | DeleteBuildList => Pass (on_tree ay_ynode_delete_build_list)
  | UniteChoice => Pass (on_tree ay_ynode_unite_choice)
  | SetLv => Pass set_lv
  | MoreKeysForNode =>
      Space (λ st, on_tree (λ lm, ay_ynode_more_keys_for_node lm (st_labels st)) st)
        (λ st, ay_ynode_rule_more_keys_for_node (st_labels st) (st_tree st))
  | InsertCase => Space (on_tree ay_ynode_insert_case) (summary ay_ynode_rule_insert_case)
  | CopyCaseNodes =>
      Space (on_tree (λ _, ay_ynode_copy_case_nodes))
        (λ st, ay_ynode_rule_copy_case_nodes (mem (st_tree st)) (count (st_tree st)))
  | DeleteEqualCases => Pass (on_tree ay_ynode_delete_equal_cases)
  | MergeCases =>
      Space merge_cases
        (λ st, ay_ynode_rule_merge_cases (st_lnodes st) (mem (st_tree st)) (count (st_tree st)))
  | DeleteUselessChoice =>
      Pass (λ st, on_tree (λ lm, ay_ynode_delete_useless_choice lm (st_values st)) st)
  | InsertListFiles => Space (on_tree (λ _, ay_insert_list_files)) (λ _, Ok 1%Z)
  | OrderedEntries =>
      Space (on_tree ay_ynode_ordered_entries)
        (λ st, Ok (ay_ynode_rule_ordered_entries (st_lnodes st)))
  | RecursiveForm =>
      Space (on_tree ay_ynode_recursive_form) (summary ay_ynode_rule_recursive_form)
  | NodeKeyAndValue =>
      Space (λ st, on_tree (λ lm, ay_insert_node_key_and_value lm patt_table (st_values st)) st)
        (ay_ynode_summary2 ay_ynode_rule_node_key_and_value)
  | DependenceOnValue =>
      Pass (λ st, on_tree (λ lm, ay_ynode_dependence_on_value lm (st_values st)) st)
  | SetMandatory => Pass (on_tree ay_ynode_tree_set_mandatory)
  | WhenOrnot => Pass (on_tree ay_ynode_when_ornot)
  | RecursiveFormByCopy =>
      Space (on_tree ay_ynode_recursive_form_by_copy)
        (λ st, ay_ynode_rule_recursive_form_by_copy (st_lnodes st) (mem (st_tree st)) (count (st_tree st)))
  | SetRefRecursiveForm => Pass (on_tree ay_ynode_set_ref_recursive_form)
  | SetRef => Pass (on_tree (ay_ynode_set_ref patt_table))
  | CreateGroupingsRecursiveForm =>
      Space (on_tree ay_ynode_create_groupings_recursive_form)
        (λ st, ay_ynode_rule_create_groupings_recursive_form (mem (st_tree st)) (count (st_tree st)))
  | CreateGroupingsToplevel =>
      Space groupings_toplevel (summary ay_ynode_rule_create_groupings_toplevel)
  | DeleteYnrec => Pass (on_tree (λ _, ay_ynode_delete_ynrec))
  | NodeSplit =>
      Space (on_tree (ay_ynode_node_split patt_table))
        (λ st, ay_ynode_rule_node_split (st_lnodes st) (mem (st_tree st)) (length (mem (st_tree st))) patt_table 0)
  | GroupingsAhead => Pass (on_tree (λ _, ay_ynode_groupings_ahead))
  | SnodeUniquePnode => Pass unique_pnode
  | TransformationsIdent =>
      Pass (ay_ynode_transformations_ident modules md patt_table buffer fresh moved)
  end.

Definition order : list transformation :=
  [InsertImplicitList; SetType; DeleteTypeUnknown; DeleteBuildList; UniteChoice; SetLv;
   MoreKeysForNode; InsertCase; CopyCaseNodes; DeleteEqualCases; MergeCases;
   DeleteUselessChoice; InsertListFiles; OrderedEntries; RecursiveForm; NodeKeyAndValue;
   DependenceOnValue; SetMandatory; WhenOrnot; RecursiveFormByCopy; SetRefRecursiveForm;
   SetRef; CreateGroupingsRecursiveForm; CreateGroupingsToplevel; DeleteYnrec; NodeSplit;
   GroupingsAhead; SnodeUniquePnode; TransformationsIdent].

Lemma transformations_stages st :
  ay_ynode_transformations modules md patt_table buffer fresh moved st
  = (r ← fetch (mem (st_tree st)) 0;
     _ ← c_assert (bool_decide (type (data r) = YN_ROOT));
     run (perform ∘ stage_of <$> order) st).
Proof. reflexivity. Qed.

(** ** What a stage keeps *)

(** The array of ynodes represents a tree, that of the lnodes is that of a lens. *)
Definition trees st : Prop := is_tree (st_tree st) ∧ lnode_array (st_lnodes st).

(** The number of nodes stays in the range of [descendants]. *)
Definition room (x : stage) st : bool :=
  match x with
  | Pass _ => true
  | Space _ req => match req st with Ok k => (Z.of_nat (count (st_tree st)) + u32 k <? 2 ^ 32)%Z | _ => true end
  end.

Definition keeps (x : stage) : Prop := ∀ st, trees st → room x st = true → runs trees (perform x st).

(** [realloc] gives as much memory as it is asked for. *)
Context (Hfresh : ∀ s k, length (fresh s k) = Z.to_nat k).

Lemma state_is_tree L s : tree_state L s → is_tree s.
Proof. by intros []. Qed.

Lemma on_tree_trees f st :
  (tree_state (length (mem (st_tree st))) (st_tree st) →
   runs (tree_state (length (mem (st_tree st)))) (f (st_lnodes st) (st_tree st))) →
  trees st → runs trees (on_tree f st).
Proof.
  intros Hf [Ht Hlm]. unfold on_tree. eapply runs_bind; [by apply Hf|]. intros s [Hs _]. by apply runs_Ok.
Qed.

Lemma space_keeps insert req :
  (∀ st, trees st → runs any (req st)) → (∀ st, trees st → runs trees (insert st)) → keeps (Space insert req).
Proof.
  intros Hreq Hins st [[t Ht] Hlm] Hroom. cbn [room] in Hroom. unfold perform, TRANSF.
  pose proof (Hreq st (conj (ex_intro _ t Ht) Hlm)) as Hr.
  destruct (req st) as [k| |]; [|done..]. rewrite bind_Ok. cbv zeta. apply Z.ltb_lt in Hroom.
  destruct (Z.eqb_spec (u32 k) 0) as [|Hk]; [apply runs_Ok; split; [by exists t|done]|].
  assert (0 <= u32 k)%Z as H0 by (apply Z.mod_pos_bound; lia).
  destruct (reserve_ok (st_tree st) t (Z.to_nat (u32 k)) (fresh (st_tree st) (u32 k)) (moved (st_tree st) (u32 k)))
    as (s' & Heq & Hr' & _); [done|lia|apply Hfresh|lia|].
  rewrite Z2Nat.id in Heq by done. rewrite Heq, bind_Ok. apply Hins. split; [by exists t|done].
Qed.

Lemma summary_runs rule st :
  trees st → (∀ m k i, forward k m → (i < k)%nat → runs any (rule m i)) → runs any (summary rule st).
Proof.
  intros [[t Ht] _] Hr. unfold summary, ay_ynode_summary. apply sum_nodes_runs. intros j Hj.
  apply (Hr _ (count (st_tree st))); [by eapply repr_forward|lia].
Qed.

Lemma tree_forward st : trees st → forward (count (st_tree st)) (mem (st_tree st)) ∧ (0 < count (st_tree st))%nat.
Proof.
  intros [[t Ht] _]. split; [by eapply repr_forward|]. destruct Ht as (_ & -> & _). apply size_pos.
Qed.

(** ** The transformations *)

Definition kept (t : transformation) : bool :=
  match t with
  | DeleteBuildList | MoreKeysForNode | MergeCases | DeleteUselessChoice | RecursiveForm | WhenOrnot
  | RecursiveFormByCopy | CreateGroupingsRecursiveForm | GroupingsAhead | TransformationsIdent => false
  | _ => true
  end.

Lemma member_pass_state f L s :
  (∀ k s, edited L k s → runs (edited L k) (f s)) → tree_state L s → runs (tree_state L) (f s).
Proof. intros Hf Hs. eapply runs_mono; [by apply (Hf (count s))|]. by intros ? []. Qed.

Lemma same_length s s' L : tree_state L s → is_tree s' → same_counters s s' → tree_state L s'.
Proof.
  intros [[t Hr] HL] [t' Hr'] [Ha _]. split; [by exists t'|].
  destruct Hr as (_ & _ & Hl & _), Hr' as (_ & _ & Hl' & _). lia.
Qed.

Lemma types_known_state L s : tree_state L s → runs (tree_state L) (ay_delete_type_unknown s).
Proof.
  intros Hs. pose proof (Hs) as [[t Hr] _].
  destruct (delete_unknown_from (2 * count s) s t 1) as (s' & t' & Heq & Hr' & Hc & _);
    [done|apply known_start|lia|by apply measure_start|].
  unfold ay_delete_type_unknown. rewrite Heq. by apply (same_length s); [|exists t'|].
Qed.

Lemma set_mandatory_state L lm s :
  lnode_array lm → tree_state L s → runs (tree_state L) (ay_ynode_tree_set_mandatory lm s).
Proof.
  intros Hlm Hs. pose proof (Hs) as [[t Hr] _]. eapply runs_mono; [by apply (set_mandatory_runs lm Hlm s t)|].
  intros s' (Hc & _ & t' & Hr' & _). by apply (same_length s); [|exists t'|].
Qed.

Lemma list_files_keeps st : trees st → runs trees (on_tree (λ _, ay_insert_list_files) st).
Proof.
  intros Hst. apply on_tree_trees; [|done]. intros Hs. destruct Hst as [[t Ht] _]. by apply (list_files_state _ _ t).
Qed.

Lemma set_lv_keeps : keeps (Pass set_lv).
Proof.
  intros st [Ht Hlm] _. cbn [perform]. unfold set_lv. eapply (runs_bind any); [by apply set_lv_runs|]. intros [l v] _.
  by apply runs_Ok.
Qed.

Lemma toplevel_keeps st : trees st → runs trees (groupings_toplevel st).
Proof.
  intros [[t Ht] Hlm]. unfold groupings_toplevel. eapply (runs_bind (gstate_ok (length (mem (st_tree st))))).
  { apply toplevel_state. split; [|done]. split; [by exists t|done]. }
  intros [s lm] [[Hs _] Hlm']. by apply runs_Ok.
Qed.

Lemma unique_pnode_keeps : keeps (Pass unique_pnode).
Proof.
  intros st Hst _. cbn [perform]. unfold unique_pnode, ay_ynode_snode_unique_pnode. eapply (runs_bind any).
  - generalize (seq 1 (count (st_tree st) - 1)). intros l.
    enough (∀ r, runs any r → runs any (foldl (unique_pnode_step (st_lnodes st) (mem (st_tree st))) r l)) as H by by apply H.
    induction l as [|i l IH]; intros r Hr; [done|]. apply IH. unfold unique_pnode_step.
    eapply (runs_bind any); [done|]. intros pm _. unfold lnode_pnode, on_pnode, modify, store. runs.
  - intros p _. by apply runs_Ok.
Qed.

(** A transformation of the tree with the lnodes of any lens. *)
Lemma tree_pass f st :
  (∀ L lm s, lnode_array lm → tree_state L s → runs (tree_state L) (f lm s)) →
  trees st → runs trees (on_tree f st).
Proof. intros Hf Hst. apply on_tree_trees; [|done]. intros Hs. apply Hf; [apply Hst|done]. Qed.

(** What the rules need. *)
Lemma required_runs t st :
  kept t = true → trees st → match stage_of t with Pass _ => True | Space _ req => runs any (req st) end.
Proof.
  intros Hk Hst. destruct (tree_forward st Hst) as [Hf H0]. pose proof (proj2 Hst) as Hlm.
  destruct t; try discriminate Hk; cbn [stage_of]; try done.
  - by apply implicit_list_runs.
  - apply summary_runs; [done|]. intros m k i Hm Hi. by apply (rule_insert_case_runs k).
  - by apply copy_case_runs.
  - apply summary_runs; [done|]. intros. apply key_value_rule_runs.
  - apply summary_runs; [done|]. intros. unfold ay_ynode_rule_create_groupings_toplevel. runs.
  - pose proof (forward_length Hf). apply (node_split_runs _ (count (st_tree st))); [done|done|lia].
Qed.

(** Every one of these ends and keeps the trees. *)
Lemma kept_keeps t : kept t = true → keeps (stage_of t).
Proof.
  intros Hk. pose proof (λ st, required_runs t st Hk) as Hreq.
  destruct t; try discriminate Hk; cbn [stage_of] in *.
  all: try (apply space_keeps; [exact Hreq|clear Hreq; intros st Hst]).
  all: try (intros st Hst _; cbn [perform]).
  - apply tree_pass; [|done]. intros. by apply implicit_list_state.
  - apply tree_pass; [|done]. intros L lm s Hlm. apply member_pass_state. intros. by apply member_passes_kept.
  - apply tree_pass; [|done]. intros. by apply types_known_state.
  - apply tree_pass; [|done]. intros L lm s Hlm. apply member_pass_state. intros. by apply member_passes_kept.
  - by apply set_lv_keeps.
  - apply tree_pass; [|done]. intros. by apply insert_case_state.
  - apply tree_pass; [|done]. intros. by apply copy_case_state.
  - apply tree_pass; [|done]. intros. by apply delete_equal_cases_state.
  - by apply list_files_keeps.
  - apply tree_pass; [|done]. intros. by apply ordered_entries_state.
  - apply tree_pass; [|done]. intros L lm s Hlm Hs. eapply runs_mono; [by apply key_and_value_pass|]. by intros ? [].
  - apply tree_pass; [|done]. intros L lm s Hlm Hs. eapply runs_mono; [by apply dependence_state|]. by intros ? [].
  - apply tree_pass; [|done]. intros. by apply set_mandatory_state.
  - apply tree_pass; [|done]. intros L lm s Hlm. apply member_pass_state. intros. by apply member_passes_kept.
  - apply tree_pass; [|done]. intros L lm s Hlm. apply member_pass_state. intros. by apply member_passes_kept.
  - by apply toplevel_keeps.
  - apply tree_pass; [|done]. intros. by apply delete_ynrec_state.
  - apply tree_pass; [|done]. intros. by apply node_split_state.
  - by apply unique_pnode_keeps.
Qed.

(** ** Runs *)

(** There is room for the nodes of every stage. *)
Fixpoint fits (l : list transformation) st : bool :=
  match l with
  | [] => true
  | t :: l' =>
      room (stage_of t) st && match perform (stage_of t) st with Ok st' => fits l' st' | _ => true end
  end.

Lemma run_keeps l st :
  Forall (λ t, kept t = true) l → trees st → fits l st = true → runs trees (run (perform ∘ stage_of <$> l) st).
Proof.
  intros Hl. revert st. induction Hl as [|t l Ht Hl IH]; intros st Hst Hfit; [done|].
  cbn [fits] in Hfit. apply andb_true_iff in Hfit as [Hroom Hfit]. cbn [fmap list_fmap run compose].
  pose proof (kept_keeps t Ht st Hst Hroom) as H.
  destruct (perform (stage_of t) st) as [st'| |]; [|done..]. rewrite bind_Ok. by apply IH.
Qed.
End pipeline.

(** C24: The transformations of [ay_ynode_transformations] for which [kept] holds, 19 of
    29, never loop: nodes are inserted, moved, copied and deleted while their loops go
    over the array, and still every run of them ends, in any order and as often as one
    likes, on every tree and with the lnodes of every lens, when [realloc] gives what it
    is asked for, wherever it moves the array, and the number of nodes stays below 2^32.
    If the run returns without an error, what it returns is a tree again.  It may also
    end with an error or outside of defined C, for example at a failed assertion: the
    theorem does not say that the space which a rule reserves is enough.  For
    [ay_ynode_ordered_entries] it is not ([ordered_entries_lack_a_place]), and
    [ay_ynode_insert_case] can read a dictionary as an lnode
    ([dictionary_read_as_lnode]). *)
Theorem transformations_keep_tree `{LensPointers} `{PointerBytes nat} modules md patt_table buffer fresh moved l st :
  (∀ s k, length (fresh s k) = Z.to_nat k) →
  Forall (λ t, kept t = true) l → trees st → fits modules md patt_table buffer fresh moved l st = true →
  let r := run (perform fresh moved ∘ stage_of modules md patt_table buffer fresh moved <$> l) st in
  r ≠ Fault OutOfFuel ∧ ∀ st', r = Ok st' → trees st'.
Proof.
  intros Hfresh Hl Hst Hfit r. pose proof (run_keeps modules md patt_table buffer fresh moved Hfresh l st Hl Hst Hfit) as Hr.
  split; [by eapply runs_nofuel|]. intros st' Heq. unfold r in Heq. by rewrite Heq in Hr.
Qed.

(** All of them, in the order of the code, on the tree of two equal leaves: one of them
    is deleted, and the list of files is inserted. *)
Definition example_state : pipeline :=
  State (state_of flagged_tree 0 5) (enc 0 None None example_ltree) [] (Dict [] 0) (Dict [] 0).

Theorem transformations_keep_tree_witness :
  let _ : LensPointers := Build_LensPointers lens_id lens_id in
  let _ : PointerBytes nat := λ _ a _, a in
  let fresh s k := replicate (Z.to_nat k) zero_node in
  let moved s k := Some (Nat.add 7) in
  ∃ st', run (perform fresh moved ∘ stage_of [] (AModule 1 [] None []) [] [] fresh moved
                <$> filter (λ t, kept t = true) order) example_state = Ok st' ∧
    trees st' ∧ count (st_tree st') = 4.
Proof.
  intros P B fresh moved.
  destruct (transformations_keep_tree [] (AModule 1 [] None []) [] [] fresh moved
    (filter (λ t, kept t = true) order) example_state) as [_ H].
  - intros. apply length_replicate.
  - vm_compute. repeat constructor.
  - split; [exists flagged_tree; by apply state_of_repr|by eexists].
  - by vm_compute.
  - destruct (run _ _) as [st'| |] eqn:E; [|vm_compute in E; discriminate..].
    exists st'. split; [done|]. split; [by apply H|]. vm_compute in E. by injection E as <-.
Defined.

(** Lenses for the next theorems. *)
Definition lens_leaf (i : nat) (t : lens_tag) (s : String.string) : tree ldata :=
  T (LData (Lens i t (lit s) (CPtr i (lit s)) false false) None None 0) [].
Definition lens_inner (i : nat) (t : lens_tag) (ts : list (tree ldata)) : tree ldata :=
  T (LData (Lens i t [] (CPtr i []) false false) None None 0) ts.
Definition lens_node (i : nat) (s : String.string) : tree ldata :=
  lens_inner i L_SUBTREE [lens_inner (i + 1) L_CONCAT [lens_leaf (i + 2) L_LABEL s; lens_leaf (i + 3) L_STORE "x"]].

(** [([label "a" . store] . ([label "b" . store] | [label "c" . store]))*]. *)
Definition grouped_ltree : tree ldata :=
  lens_inner 1 L_STAR [lens_inner 2 L_CONCAT
    [lens_node 10 "a"; lens_inner 3 L_UNION [lens_node 20 "b"; lens_node 30 "c"]]].

(** [([label "a" . store] . [label "b" . store]) | del "x" ""]. *)
Definition branch_ltree : tree ldata :=
  lens_inner 1 L_UNION [lens_inner 2 L_CONCAT [lens_node 10 "a"; lens_node 20 "b"]; lens_leaf 3 L_DEL "x"].

(** The pipeline's state after [ay_ynode_create_tree]. *)
Definition created (lt : tree ldata) : res pipeline :=
  '(_, root, lm) ← ay_ynode_create_tree (replicate 64 NUL) (enc 0 None None lt) 5
                     (replicate (S (snode_count lt)) zero_node);
  Ok (State (yr_tree root) lm [] (Dict (replicate (yr_labels root) (DNode 0 None)) 0)
        (Dict (replicate (yr_values root) (DNode 0 None)) 0)).

(** The rule of [ay_ynode_ordered_entries] counts one list for each L_STAR, but
    the siblings of a star get one list for each choice they belong to.  The
    lens of [grouped_ltree] has one star with two groups: thirteen
    transformations succeed, the place reserved for the fourteenth is one, and
    the assertion in [ay_ynode_insert_wrapper] fails at the second list. *)
Theorem ordered_entries_lack_a_place :
  let _ : LensPointers := Build_LensPointers lens_id lens_id in
  let _ : PointerBytes nat := λ _ a _, a in
  let fresh (_ : ytree) k := replicate (Z.to_nat k) zero_node in
  let pass t := perform fresh (λ _ _, None)
    (stage_of [] (AModule 1 [] None []) [] [] fresh (λ _ _, None) t) in
  ∃ st, (created grouped_ltree ≫= run (pass <$> take 13 order)) = Ok st ∧
    ay_ynode_rule_ordered_entries (st_lnodes st) = 1%Z ∧
    pass OrderedEntries st = Fault AssertFailed.
Proof.
  intros P B fresh pass.
  destruct (created grouped_ltree ≫= run (pass <$> take 13 order)) as [st| |] eqn:E;
    [|vm_compute in E; discriminate..].
  vm_compute in E. injection E as <-. eexists. split; [done|]. split; by vm_compute.
Qed.

(** [ay_ynode_insert_case] reads [value] of the parent of a case that is alone in its
    choice.  At the top that is the root, where [struct ay_ynode_root] has the pointer to
    the dictionary of values, which is then used as a pointer to an lnode.  The case of
    [branch_ltree] is alone because the other branch of its choice has no node. *)
Theorem dictionary_read_as_lnode :
  let _ : LensPointers := Build_LensPointers lens_id lens_id in
  let _ : PointerBytes nat := λ _ a _, a in
  let fresh (_ : ytree) k := replicate (Z.to_nat k) zero_node in
  let pass t := perform fresh (λ _ _, None)
    (stage_of [] (AModule 1 [] None []) [] [] fresh (λ _ _, None) t) in
  ∃ st, (created branch_ltree ≫= run (pass <$> take 7 order)) = Ok st ∧
    (value ∘ data <$> mem (st_tree st) !! 0) = Some (Some (S (length (st_lnodes st)))) ∧
    pass InsertCase st = Fault OutOfBounds.
Proof.
  intros P B fresh pass.
  destruct (created branch_ltree ≫= run (pass <$> take 7 order)) as [st| |] eqn:E;
    [|vm_compute in E; discriminate..].
  vm_compute in E. injection E as <-. eexists. split; [done|]. split; by vm_compute.
Qed.
