(* ===== verification/SrdsCommon.v ===== *)
(** [src/srds_augeas/srdsa_common.c]: what the parts of the datastore plug-in share.
    The system calls, libaugeas and libyang are parameters: a call that can be
    repeated has the number of the call as an argument, so that it may have another
    result every time; the handle of libaugeas is a state that its functions change.
    Memory for strings is always available. *)
From stdpp Require Import gmap strings.
From S2P Require Import Prelude CString Common.
#[local] Open Scope cstr_scope.

(** The error codes of sysrepo; the code of a success is 0. *)
Class Sysrepo := {
  SR_ERR_INVAL_ARG : Z; SR_ERR_SYS : Z; SR_ERR_INTERNAL : Z; SR_ERR_NOT_FOUND : Z;
  SR_ERR_UNAUTHORIZED : Z; SR_ERR_NO_MEMORY : Z; SR_ERR_OPERATION_FAILED : Z; SR_ERR_LY : Z }.

(** [errno], as far as the code looks at it. *)
Inductive errno := EINTR | ERANGE | ENOENT | EACCES | EPERM | EOTHER.

#[export] Instance errno_eq_dec : EqDecision errno.
Proof. solve_decision. Defined.

(** [int] of 32 bits. *)
Definition to_int (z : Z) : Z := (z + 2 ^ 31) mod 2 ^ 32 - 2 ^ 31.

(** ** Users and groups *)

(** [struct passwd] or [struct group]; what is looked for. *)
Record entry := Entry { entry_id : Z; entry_name : cstr }.
Inductive wanted := ByName (name : cstr) | ById (id : Z).

Section entries.
Context `{Sysrepo}.
(** [sysconf], and [getpwnam_r] with [getpwuid_r]: the returned error and the entry. *)
Context (size : Z) (get_r : wanted → Z → option errno * option entry).

Fixpoint enlarge (fuel : nat) (w : wanted) (buflen : Z) : res (option errno * option entry) :=
  let buflen :=
    if (buflen =? 0)%Z then (if (size =? -1)%Z then 2048 else size)%Z else (buflen + 2048)%Z in
  let r := get_r w buflen in
  if bool_decide (r.1 = Some ERANGE) then
    match fuel with 0 => Fault OutOfFuel | S fuel' => enlarge fuel' w buflen end
  else Ok r.

Definition get_entry (fuel : nat) (id : Z) (name : option cstr) : res (Z * option cstr) :=
  r ← enlarge fuel (match name with Some n => ByName n | None => ById id end) 0;
  match r with
  | (Some _, _) => Err SR_ERR_INTERNAL
  | (None, None) => Err SR_ERR_NOT_FOUND
  | (None, Some e) => Ok (match name with Some _ => (entry_id e, name) | None => (id, Some (entry_name e)) end)
  end.
End entries.

(** ** Files *)

(** [(uid_t)-1], [(gid_t)-1]. *)
Definition UNCHANGED : Z := 2 ^ 32 - 1.

Inductive call := Chown (path : string) (uid gid : Z) | Chmod (path : string) (perm : Z).

Section owner.
Context `{Sysrepo} (passwd_size group_size : Z) (passwd group_ : wanted → Z → option errno * option entry).
Context (fuel : nat) (outcome : call → option errno).

Definition augds_get_pwd : Z → option cstr → res (Z * option cstr) := get_entry passwd_size passwd fuel.
Definition augds_get_grp : Z → option cstr → res (Z * option cstr) := get_entry group_size group_ fuel.

(** A system call; the calls that were made are the state. *)
Definition sys (c : call) : coded (list call) unit := λ done,
  match outcome c with
  | None => Ok (done ++ [c], inr tt)
  | Some e =>
      Ok (done, inl (if bool_decide (e = EACCES) || bool_decide (e = EPERM) then SR_ERR_UNAUTHORIZED
                     else SR_ERR_INTERNAL))
  end.

Definition augds_chmodown (path : string) (owner group : option cstr) (perm : Z) : coded (list call) unit :=
  _ ← lift (if negb (perm =? 0)%Z then
              if (511 <? perm)%Z then Err SR_ERR_INVAL_ARG
              else if negb (Z.land perm 73 =? 0)%Z then Err SR_ERR_INVAL_ARG else Ok tt
            else Ok tt);
  uid ← lift (match owner with Some _ => '(uid, _) ← augds_get_pwd UNCHANGED owner; Ok uid | None => Ok UNCHANGED end);
  gid ← lift (match group with Some _ => '(gid, _) ← augds_get_grp UNCHANGED group; Ok gid | None => Ok UNCHANGED end);
  _ ← sys (Chown path uid gid);
  if negb (perm =? 0)%Z then sys (Chmod path perm) else mret tt.
End owner.

Definition augds_file_exists (access : string → option errno) (path : string) : bool :=
  match access path with Some _ => false | None => true end.

(** The content of files. *)
Abbreviation files := (gmap string (list ascii)).

Section copy.
Context `{Sysrepo}.
(** [open]; the number of bytes that [read] (of 4096) and [write] transfer, or the
    error. *)
Context (open_error : files → string → bool → option errno).
Context (read_result : nat → nat → nat + errno) (write_result : nat → nat → nat + errno).

(** The inner loop: the bytes of the buffer are written to [to]. *)
Fixpoint write_all (fuel : nat) (to : string) (t : nat) (bytes : list ascii) : coded files nat := λ fs,
  match write_result t (length bytes) with
  | inl n =>
      let fs' := <[to := default [] (fs !! to) ++ take n bytes]> fs in
      match drop n bytes with
      | [] => Ok (fs', inr (S t))
      | rest => match fuel with 0 => Fault OutOfFuel | S fuel' => write_all fuel' to (S t) rest fs' end
      end
  | inr EINTR => match fuel with 0 => Fault OutOfFuel | S fuel' => write_all fuel' to (S t) bytes fs end
  | inr _ => Ok (fs, inl SR_ERR_SYS)
  end.

Fixpoint copy_rest (fuel : nat) (to from : string) (t off : nat) : coded files unit := λ fs,
  let rest := drop off (default [] (fs !! from)) in
  match read_result t (length rest) with
  | inr _ => Ok (fs, inl SR_ERR_SYS)
  | inl 0 => Ok (fs, inr tt)
  | inl n =>
      match fuel with
      | 0 => Fault OutOfFuel
      | S fuel' => (t' ← write_all fuel to (S t) (take n rest); copy_rest fuel' to from t' (off + n)) fs
      end
  end.

Definition open_file (path : string) (write : bool) : coded files unit := λ fs,
  match open_error fs path write with
  | Some _ => Ok (fs, inl SR_ERR_SYS)
  | None => Ok (if write then <[path := []]> fs else fs, inr tt)
  end.

Definition augds_cp_path (fuel : nat) (to from : string) : coded files unit :=
  _ ← open_file from false;
  _ ← open_file to true;
  copy_rest fuel to from 0 0.
End copy.

(** ** Labels *)

(** [start[len] != '['], downwards; [start] is at [p] of the label, whose terminator
    can be read. *)
Fixpoint skip_position (label : cstr) (i : nat) : res nat :=
  match label !! i with
  | Some c => if c =c "[" then Ok i else match i with 0 => Fault OutOfBounds | S i' => skip_position label i' end
  | None => match i with 0 => Fault OutOfBounds | S i' => skip_position label i' end
  end.

(** The removal of escapes, with the length that is left. *)
Fixpoint decode (fuel : nat) (b : buf) (len : Z) : res (buf * Z) :=
  s ← cstr_of b;
  match strchr s BSLASH with
  | None => Ok (b, len)
  | Some p =>
      match fuel with
      | 0 => Fault OutOfFuel
      | S fuel' => b' ← bmove b p (p + 1) (length s - (p + 1)); decode fuel' b' (len - 1)
      end
  end.

(** The node of the label and whether it is in new memory. *)
Definition augds_get_label_node (fuel : nat) (label : cstr) (dyn : bool) : res (cstr * bool) :=
  let p := match strrchr label "/" with Some i => S i | None => 0 end in
  let start := drop p label in
  last ← (if (p + length start =? 0)%nat then Fault OutOfBounds else fetch label (p + length start - 1));
  if bool_decide (is_Some (strchr start BSLASH)) || (last =c "]") then
    _ ← c_assert dyn;
    len ← (if last =c "]" then i ← skip_position label (p + length start); Ok (Z.of_nat i - Z.of_nat p)
           else Ok (Z.of_nat (length start)))%Z;
    let copied := if (len <? 0)%Z then start else take (Z.to_nat len) start in
    '(b, len) ← decode fuel (copied ++ [NUL]) len;
    b ← (if (len <? 0)%Z then Fault OutOfBounds else store b (Z.to_nat len) NUL);
    s ← cstr_of b;
    Ok (s, true)
  else Ok (start, false).

(** ** Errors of libaugeas *)

(** A message in allocated memory, and its length. *)
Record message := Message { bytes : buf; msg_len : Z }.

(** [realloc] to [n] bytes. *)
Definition resize (b : buf) (n : Z) : buf := take (Z.to_nat n) b ++ replicate (Z.to_nat n - length b) NUL.

(** [realloc] of the message to [new_len + 1] bytes, and [sprintf] to its end. *)
Definition append_text (msg : message) (new_len : Z) (s : cstr) : res message :=
  b ← strcpy (resize (bytes msg) (to_int (new_len + 1))) (Z.to_nat (msg_len msg)) s;
  Ok (Message b new_len).

Definition augds_erraug_append (item : option (cstr * cstr)) (msg : message) : res message :=
  match item with
  | None => append_text msg (to_int (msg_len msg + 1)) [LF]
  | Some (name, value) =>
      append_text msg (to_int (msg_len msg + 2 + Z.of_nat (length name) + 2 + Z.of_nat (length value)))
        ([LF; TAB] ++ name ++ lit ": " ++ value)
  end.

(** [aug_error]: no error, no memory, another error. *)
Inductive aug_status := AUG_NOERROR | AUG_ENOMEM | AUG_OTHER.

(** The handle of libaugeas: [aug_match] gives the paths that match or -1, [aug_get]
    its result and the value, which may be NULL. *)
Class Augeas (handle : Type) := {
  aug_error : handle → aug_status;
  aug_match : handle → cstr → handle * option (list cstr);
  aug_get : handle → cstr → handle * (Z * option cstr) }.

Section errors.
Context `{Sysrepo} `{Augeas handle} (label_fuel : nat).

(** The state: the handle and the messages that were logged. *)
Abbreviation session := (handle * list cstr)%type.
Abbreviation session_m := (coded session).

Definition matches (path : cstr) : session_m (option (list cstr)) := λ st,
  let '(h, r) := aug_match st.1 path in Ok (h, st.2, inr r).
Definition get (path : cstr) : session_m (Z * option cstr) := λ st,
  let '(h, r) := aug_get st.1 path in Ok (h, st.2, inr r).
Definition log (s : cstr) : session_m unit := λ st, Ok (st.1, st.2 ++ [s], inr tt).

Definition LOG_AUGEAS : cstr := lit "Augeas error".
Definition LOG_INIT : cstr := lit "Augeas init failed.".
Definition LOG_MEMORY : cstr := lit "Memory allocation failed".

(** [AUG_LOG_ERRAUG_GOTO]: the code of [augds_check_erraug], which must be one. *)
Definition raise_augeas {A} (check : session_m unit) : session_m A :=
  r ← attempt check;
  match r with
  | inl e => lift (Err e)
  | inr _ => lift (Fault AssertFailed)
  end.

(** The value at a path that must exist exactly once. *)
Definition get_one (check : session_m unit) (path : cstr) : session_m (option cstr) :=
  '(r, value) ← get path;
  if (r =? 1)%Z then mret value else raise_augeas check.

(** A value for the ["%s"] of a message. *)
Definition text_of (value : option cstr) : session_m cstr := lift (deref value).

Fixpoint error_details (check : session_m unit) (labels : list cstr) (msg : message) : session_m message :=
  match labels with
  | [] => mret msg
  | l :: labels' =>
      value ← get_one check l;
      value ← text_of value;
      '(name, _) ← lift (augds_get_label_node label_fuel l false);
      msg ← lift (augds_erraug_append (Some (name, value)) msg);
      error_details check labels' msg
  end.

Definition augds_erraug_error (check : session_m unit) (aug_err_path : cstr) (msg : message) : session_m message :=
  value ← get_one check aug_err_path;
  value ← text_of value;
  msg ← lift (augds_erraug_append (Some (lit "error", value)) msg);
  let len := length aug_err_path in
  _ ← lift (c_assert (strneq aug_err_path (lit "/augeas/files") 13));
  _ ← lift (c_assert (streq (drop (len - 6) aug_err_path) (lit "/error")));
  msg ← lift (augds_erraug_append (Some (lit "file", take (len - 13 - 6) (drop 13 aug_err_path))) msg);
  labels ← matches (aug_err_path ++ lit "/*");
  match labels with
  | None => raise_augeas check
  | Some labels => error_details check labels msg
  end.

Fixpoint each_error (check : session_m unit) (paths : list cstr) (msg : message) : session_m message :=
  match paths with
  | [] => mret msg
  | p :: paths' =>
      msg ← augds_erraug_error check p msg;
      msg ← lift (augds_erraug_append None msg);
      each_error check paths' msg
  end.

Definition DATA_ERROR : cstr := lit "Augeas data error:".

(** The function calls itself when libaugeas fails on the way. *)
Fixpoint augds_check_erraug (fuel : nat) : session_m unit := λ st,
  match fuel with
  | 0 => Fault OutOfFuel
  | S fuel' =>
      let check := augds_check_erraug fuel' in
      match aug_error st.1 with
      | AUG_ENOMEM => (_ ← log LOG_MEMORY; return_code (inl SR_ERR_NO_MEMORY)) st
      | AUG_OTHER => (_ ← log LOG_AUGEAS; return_code (inl SR_ERR_OPERATION_FAILED)) st
      | AUG_NOERROR =>
          (paths ← matches (lit "/augeas/files//error");
           match paths with
           | None => raise_augeas check
           | Some [] => mret tt
           | Some paths =>
               msg ← each_error check paths (Message (DATA_ERROR ++ [NUL]) (Z.of_nat (length DATA_ERROR)));
               s ← lift (cstr_of (bytes msg));
               _ ← log s;
               return_code (inl SR_ERR_OPERATION_FAILED)
           end) st
      end
  end.

(** A handle that may be NULL. *)
Definition check_handle (fuel : nat) (aug : option handle) (logged : list cstr) : res (list cstr * (Z + unit)) :=
  match aug with
  | None => Ok (logged ++ [LOG_INIT], inl SR_ERR_OPERATION_FAILED)
  | Some h => '(st, r) ← augds_check_erraug fuel (h, logged); Ok (st.2, r)
  end.

(** ** Files of a module *)

(** A statement of an extension: the module and the name of the extension, the
    argument. *)
Record ext_instance := Ext { ext_module : cstr; ext_name : cstr; argument : option cstr }.

Definition is_augeas_ext (e : ext_instance) (name : string) : bool :=
  streq (ext_module e) (lit "augeas-extension") && streq (ext_name e) (lit name).

Fixpoint augds_get_lens (exts : list ext_instance) : res (option cstr) :=
  match exts with
  | [] => Err SR_ERR_INTERNAL
  | e :: exts' => if is_augeas_ext e "augeas-mod-name" then Ok (argument e) else augds_get_lens exts'
  end.

Fixpoint collect_files (check : session_m unit) (fs_path : bool) (labels files : list cstr) : session_m (list cstr) :=
  match labels with
  | [] => mret files
  | l :: labels' =>
      value ← get_one check l;
      value ← text_of value;
      _ ← lift (c_assert (strneq value (lit "/files/") 7));
      collect_files check fs_path labels' (files ++ [if fs_path then drop 6 value else value])
  end.

(** The result of [augds_get_lens] is not looked at: without the extension the name
    is a variable that was not set. *)
Definition augds_get_config_files (fuel : nat) (exts : list ext_instance) (fs_path : bool) : session_m (list cstr) :=
  lens_name ← lift (match augds_get_lens exts with Err _ => Fault Uninitialised | r => r end);
  lens_name ← text_of lens_name;
  labels ← matches (lit "/augeas/files//*[lens='@" ++ lens_name ++ lit "']/path");
  match labels with
  | None => raise_augeas (augds_check_erraug fuel)
  | Some labels => collect_files (augds_check_erraug fuel) fs_path labels []
  end.
End errors.

(** ** Errors of libyang *)

Inductive ly_level := LY_LLERR | LY_LLWRN | LY_LLOTHER.
Inductive logged := LogError (s : cstr) | LogWarning (s : cstr).

Fixpoint log_items (items : list (ly_level * cstr)) : res (list logged) :=
  match items with
  | [] => Ok []
  | (level, msg) :: items' =>
      l ← match level with
          | LY_LLWRN => Ok (LogWarning msg)
          | LY_LLERR => Ok (LogError msg)
          | LY_LLOTHER => Fault AssertFailed
          end;
      r ← log_items items'; Ok (l :: r)
  end.

(** What is logged of the errors of a context, and the errors left there. *)
Definition augds_log_errly (items : list (ly_level * cstr)) : res (list logged * list (ly_level * cstr)) :=
  match items with
  | [] => Ok ([LogError (lit "Unknown libyang error.")], [])
  | _ => l ← log_items items; Ok (l, [])
  end.

(** ** Nodes *)

Inductive augds_ext_node_type :=
  AUGDS_EXT_NODE_NONE | AUGDS_EXT_NODE_VALUE | AUGDS_EXT_NODE_LABEL | AUGDS_EXT_NODE_REC_LIST | AUGDS_EXT_NODE_REC_LREF.

(** What the plug-in reads of a schema node of libyang: its type, with the
    number of its compiled patterns for a string and the path for a leafref; the name of its first child; whether it has a parent; the conditions of
    its [when] statements. *)
Inductive nodetype := LYS_CONTAINER | LYS_LIST | LYS_LEAF | LYS_LEAFLIST | LYS_CHOICE | LYS_CASE | LYS_OTHER.
Inductive basetype :=
  LY_TYPE_EMPTY | LY_TYPE_STRING (compiled : nat) | LY_TYPE_UINT64 | LY_TYPE_LEAFREF (path : cstr) | LY_TYPE_UNION (types : list basetype)
| LY_TYPE_OTHER.
Record schema_node := Schema {
  schema_name : cstr; nodetype_of : nodetype; node_exts : list ext_instance; leaf_type : basetype;
  mandatory : bool; has_parent : bool; first_child : option cstr; whens : list cstr }.

#[export] Instance nodetype_eq_dec : EqDecision nodetype.
Proof. solve_decision. Defined.

(** [nodetype & LYD_NODE_TERM]. *)
Definition is_term (s : schema_node) : bool :=
  bool_decide (nodetype_of s = LYS_LEAF) || bool_decide (nodetype_of s = LYS_LEAFLIST).
Definition is_leafref (t : basetype) : bool := match t with LY_TYPE_LEAFREF _ => true | _ => false end.
Definition is_empty_type (t : basetype) : bool := match t with LY_TYPE_EMPTY => true | _ => false end.

Fixpoint find_paths (exts : list ext_instance) (dpath vpath : option cstr) : option cstr * option cstr :=
  match exts with
  | [] => (dpath, vpath)
  | e :: exts' =>
      if is_augeas_ext e "data-path" then find_paths exts' (argument e) vpath
      else if is_augeas_ext e "value-yang-path" then find_paths exts' dpath (argument e)
      else find_paths exts' dpath vpath
  end.

Definition augds_node_get_type (node : schema_node) : res (augds_ext_node_type * option cstr * option cstr) :=
  let '(dpath, vpath) := find_paths (node_exts node) None None in
  ty ← match dpath with
       | Some d => Ok (if strneq d (lit "$$") 2 then AUGDS_EXT_NODE_LABEL else AUGDS_EXT_NODE_VALUE)
       | None =>
           rec ← (if bool_decide (nodetype_of node = LYS_LIST) then
                    c ← deref (first_child node); Ok (streq c (lit "_r-id"))
                  else Ok false);
           if (rec : bool) then Ok AUGDS_EXT_NODE_REC_LIST
           else if is_term node && is_leafref (leaf_type node) then Ok AUGDS_EXT_NODE_REC_LREF
           else Ok AUGDS_EXT_NODE_NONE
       end;
  Ok (ty, dpath, vpath).

(** A data node: whether it is a term, whether its type is empty, its value. *)
Definition augds_get_term_value (node : option (bool * bool * cstr)) : option cstr :=
  match node with
  | Some (true, false, v) => Some v
  | _ => None
  end.
