(* ===== verification/SrdsTheorems.v ===== *)
(** Theorems on the shared functions of the datastore plug-in: the decoding of
    labels, the copying of files. *)
From stdpp Require Import gmap strings.
From S2P Require Import Prelude CString Common SrdsCommon.
#[local] Open Scope cstr_scope.

(** ** Labels *)

Definition unescaped (s : cstr) : cstr := filter (λ c, c ≠ BSLASH) s.
Definition escapes (s : cstr) : nat := length (filter (λ c, c = BSLASH) s).

Lemma unescaped_app s t : unescaped (s ++ t) = unescaped s ++ unescaped t.
Proof. apply filter_app. Qed.
Lemma unescaped_length s : length s = (length (unescaped s) + escapes s)%nat.
Proof.
  unfold unescaped, escapes. induction s as [|c s IH]; [done|].
  rewrite !filter_cons. repeat case_decide; cbn [length]; done || lia.
Qed.
Lemma unescaped_cstr s : is_cstr s → is_cstr (unescaped s).
Proof. intros H. eapply Forall_sublist; [|exact H]. apply sublist_filter. Qed.

(** One escape: the rest of the string moves, its last character stays, too. *)
Lemma decode_step fuel s r len p q c :
  is_cstr s → s = p ++ BSLASH :: q → BSLASH ∉ p → last s = Some c →
  decode (S fuel) (s ++ NUL :: r) len = decode fuel ((p ++ q ++ [c]) ++ NUL :: r) (len - 1).
Proof.
  intros Hs -> Hp Hl. cbn [decode]. rewrite cstr_of_app, bind_Ok, strchr_app_l by done.
  replace (length (p ++ BSLASH :: q) - (length p + 1))%nat with (length q) by (rewrite length_app; cbn; lia).
  unfold bmove. rewrite decide_True by (rewrite !length_app; cbn; lia).
  assert (drop (length p + 1) ((p ++ BSLASH :: q) ++ NUL :: r) = q ++ NUL :: r) as ->.
  { rewrite <- app_assoc, drop_app_ge by lia. by replace (length p + 1 - length p)%nat with 1%nat by lia. }
  rewrite take_app_length.
  assert ((p ++ BSLASH :: q) ++ NUL :: r = p ++ take (length q) (BSLASH :: q) ++ [c] ++ NUL :: r) as ->.
  { rewrite <- app_assoc. f_equal. rewrite (app_assoc (take _ _)). f_equal.
    rewrite last_app_cons in Hl. destruct (exists_last (l:=BSLASH :: q)) as (q' & c' & E); [done|].
    rewrite E in Hl |- *. rewrite last_snoc in Hl. injection Hl as ->.
    assert (length q = length q') as -> by (apply (f_equal length) in E; rewrite length_app in E; cbn in E; lia).
    by rewrite take_app_length. }
  rewrite bwrite_app; [|done|rewrite length_take; cbn; lia].
  rewrite bind_Ok. by rewrite <- !app_assoc.
Qed.

Lemma last_of_rest p q c : last (p ++ BSLASH :: q) = Some c → c ≠ BSLASH → last q = Some c.
Proof. rewrite last_app_cons. destruct q as [|x q]; [intros [= <-]; done|done]. Qed.

Lemma unescaped_id s : BSLASH ∉ s → unescaped s = s ∧ escapes s = 0.
Proof.
  intros H. unfold unescaped, escapes. split.
  - induction s as [|c s IH]; [done|]. rewrite filter_cons_True by set_solver. f_equal. apply IH. set_solver.
  - induction s as [|c s IH]; [done|]. rewrite filter_cons_False by set_solver. apply IH. set_solver.
Qed.

Lemma unescaped_split p q : unescaped (p ++ BSLASH :: q) = unescaped p ++ unescaped q.
Proof. unfold unescaped. by rewrite filter_app, filter_cons_False by (by intros H; apply H). Qed.
Lemma escapes_split p q : escapes (p ++ BSLASH :: q) = S (escapes p + escapes q).
Proof. unfold escapes. rewrite filter_app, filter_cons_True, length_app by done. cbn. lia. Qed.
Lemma escapes_app p q : escapes (p ++ q) = (escapes p + escapes q)%nat.
Proof. unfold escapes. by rewrite filter_app, length_app. Qed.

Lemma step_cstr p q c : is_cstr (p ++ BSLASH :: q) → last (p ++ BSLASH :: q) = Some c → is_cstr (p ++ q ++ [c]).
Proof.
  intros H [l' Hl]%last_Some. assert (c ≠ NUL).
  { rewrite Hl in H. apply Forall_app in H as [_ H]. by inversion H. }
  apply Forall_app in H as [Hp Hq]. inversion_clear Hq. apply Forall_app; split; [done|].
  apply Forall_app; split; [done|by repeat constructor].
Qed.

Lemma decode_ok fuel s r len c :
  is_cstr s → last s = Some c → c ≠ BSLASH → (escapes s <= fuel)%nat →
  decode fuel (s ++ NUL :: r) len
  = Ok (unescaped s ++ replicate (escapes s) c ++ NUL :: r, (len - Z.of_nat (escapes s))%Z).
Proof.
  revert s len. induction fuel as [|fuel IH]; intros s len Hs Hl Hc Hf.
  all: destruct (strchr s BSLASH) as [i|] eqn:E.
  2,4: cbn [decode]; rewrite cstr_of_app, bind_Ok, E by done; apply strchr_None in E;
    destruct (unescaped_id s E) as [-> ->]; cbn; by rewrite Z.sub_0_r.
  - apply strchr_Some in E as (p & q & -> & _). rewrite escapes_split in Hf. lia.
  - apply strchr_Some in E as (p & q & -> & _ & Hp). rewrite (decode_step fuel _ r len p q c) by done.
    pose proof (last_of_rest _ _ _ Hl Hc) as Hq. rewrite escapes_split in Hf |- *.
    assert (unescaped [c] = [c] ∧ escapes [c] = 0) as [Hc1 Hc0] by (apply unescaped_id; set_solver).
    rewrite unescaped_split, IH; [|by eapply step_cstr|by rewrite !last_app|done|rewrite !escapes_app; lia].
    rewrite !unescaped_app, !escapes_app, Hc1, Hc0, Nat.add_0_r, <- !app_assoc. 
    replace (len - 1 - Z.of_nat (escapes p + escapes q))%Z with (len - Z.of_nat (S (escapes p + escapes q)))%Z by lia.
    done.
Qed.

Lemma decode_diverges fuel s r len :
  is_cstr s → last s = Some BSLASH → decode fuel (s ++ NUL :: r) len = Fault OutOfFuel.
Proof.
  revert s len. induction fuel as [|fuel IH]; intros s len Hs Hl.
  all: destruct (strchr s BSLASH) as [i|] eqn:E.
  2,4: apply strchr_None in E; destruct E; apply last_Some in Hl as [l' ->]; set_solver.
  - cbn [decode]. by rewrite cstr_of_app, bind_Ok, E by done.
  - apply strchr_Some in E as (p & q & -> & _ & Hp). rewrite (decode_step fuel _ r len p q BSLASH) by done.
    apply IH; [by eapply step_cstr|by rewrite !last_app].
Qed.

(** The path in front of a node; a position predicate, or nothing. *)
Definition is_parent (s : cstr) : Prop := s = [] ∨ last s = Some "/"%char.
Definition is_position (s : cstr) : Prop := s = [] ∨ ∃ ds, s = "["%char :: ds ++ ["]"%char] ∧ "["%char ∉ ds.

Lemma segment_start parent seg :
  is_parent parent → "/"%char ∉ seg →
  match strrchr (parent ++ seg) "/" with Some i => S i | None => 0 end = length parent.
Proof.
  intros [->|[p ->]%last_Some] Hs; cbn [app].
  - by rewrite (proj2 (strrchr_None _ _) Hs).
  - rewrite <- app_assoc. cbn [app]. rewrite strrchr_app_r by done. rewrite length_app. cbn. lia.
Qed.

Lemma skip_position_ok pre rest k :
  "["%char ∉ rest →
  skip_position (pre ++ "["%char :: rest) (length pre + k) = Ok (length pre).
Proof.
  intros Hr. induction k as [|k IH].
  - rewrite Nat.add_0_r. destruct (length pre) eqn:E; cbn [skip_position]; by rewrite lookup_app_mid.
  - rewrite Nat.add_succ_r. cbn [skip_position].
    rewrite lookup_app_r by lia. replace (S (length pre + k) - length pre)%nat with (S k) by lia. cbn [lookup list_lookup].
    destruct (rest !! k) as [c|] eqn:E; [|apply IH].
    destruct (Ascii.eqb_spec c "[") as [->|_]; [|apply IH].
    apply list_elem_of_lookup_2 in E. done.
Qed.

Lemma store_mid (s t : list ascii) b i : i = length s → store (s ++ t ++ NUL :: []) i b = Ok (s ++ <[0 := b]> (t ++ [NUL])).
Proof.
  intros ->. rewrite store_Ok by (rewrite !length_app; cbn; lia). f_equal.
  by rewrite insert_app_r_alt, Nat.sub_diag by lia.
Qed.

Definition label_tail (fuel : nat) (copied : cstr) (len : Z) : res (cstr * bool) :=
  '(b, len) ← decode fuel (copied ++ [NUL]) len;
  b ← (if (len <? 0)%Z then Fault OutOfBounds else store b (Z.to_nat len) NUL);
  s ← cstr_of b;
  Ok (s, true).

Lemma label_tail_ok fuel name c :
  is_cstr name → last name = Some c → (escapes name <= fuel)%nat →
  label_tail fuel name (Z.of_nat (length name)) =
    if bool_decide (c = BSLASH) then Fault OutOfFuel else Ok (unescaped name, true).
Proof.
  intros Hs Hl Hf. unfold label_tail. case_bool_decide as Hc.
  - subst. by rewrite decode_diverges.
  - rewrite (decode_ok _ _ _ _ c) by done. rewrite bind_Ok.
    pose proof (unescaped_length name). rewrite (proj2 (Z.ltb_ge _ _)) by lia.
    replace (Z.to_nat _) with (length (unescaped name)) by lia.
    rewrite store_mid, bind_Ok by done. destruct (escapes name); cbn [replicate app insert list_insert].
    all: rewrite cstr_of_app by (by apply unescaped_cstr); done.
Qed.

(** C32: The name of a label is its last segment without the position predicate, with
    the escapes removed, when the segment does not end with a backslash. When it
    does, the decoding never ends: [memmove] does not move the terminator, so the
    last character stays and is found again. *)
Theorem label_node_decoded (fuel : nat) (parent name pos : cstr) (c : ascii) :
  is_parent parent → "/"%char ∉ name ++ pos → is_cstr name → is_position pos →
  last name = Some c → (pos = [] → c ≠ "]"%char) → (escapes name <= fuel)%nat →
  augds_get_label_node fuel (parent ++ name ++ pos) true =
    if bool_decide (c = BSLASH) then Fault OutOfFuel
    else Ok (unescaped name, bool_decide (pos ≠ [] ∨ BSLASH ∈ name)).
Proof.
  intros Hpar Hseg Hs Hpos Hl Hend Hf. unfold augds_get_label_node.
  rewrite segment_start, drop_app_length by done.
  assert (length name ≠ 0) as Hn by (by destruct name).
  rewrite (proj2 (Nat.eqb_neq _ 0)) by (rewrite length_app; lia).
  destruct Hpos as [->|(ds & -> & Hds)].
  - rewrite !app_nil_r in *. specialize (Hend eq_refl). apply last_Some in Hl as Hl'. destruct Hl' as [l' El].
    rewrite (fetch_Some _ _ c).
    2: { rewrite El, app_assoc. apply lookup_app_mid. rewrite !length_app. cbn. lia. }
    rewrite bind_Ok. destruct (Ascii.eqb_spec c "]"); [done|]. rewrite orb_false_r.
    assert (is_Some (strchr name BSLASH) ↔ BSLASH ∈ name) as Hin.
    { rewrite <- not_eq_None_Some, strchr_None. split; [apply dec_stable|by intros ? ?]. }
    rewrite (bool_decide_ext _ _ Hin). case_bool_decide as Hb.
    + rewrite (bool_decide_true (_ ∨ _)) by (by right). cbn [c_assert]. rewrite !bind_Ok.
      rewrite (proj2 (Z.ltb_ge _ _)), Nat2Z.id, take_ge by lia. by apply label_tail_ok.
    + rewrite !bool_decide_false; [|naive_solver|].
      * by destruct (unescaped_id name Hb) as [-> _].
      * intros ->. destruct Hb. rewrite El. set_solver.
  - rewrite (fetch_Some _ _ "]"%char).
    2: { rewrite !app_assoc, app_comm_cons, !app_assoc. apply lookup_app_mid.
      rewrite !length_app. cbn. rewrite ?length_app; cbn; lia. }
    rewrite bind_Ok. rewrite Ascii.eqb_refl, orb_true_r. cbn [c_assert]. rewrite bind_Ok.
    replace (length parent + length (name ++ "["%char :: ds ++ ["]"%char]))%nat
      with (length (parent ++ name) + S (S (length ds)))%nat by (rewrite !length_app; cbn; rewrite length_app; cbn; lia).
    rewrite (app_assoc parent), skip_position_ok, !bind_Ok by set_solver.
    rewrite length_app. replace (_ - _)%Z with (Z.of_nat (length name)) by lia.
    rewrite (proj2 (Z.ltb_ge _ _)), Nat2Z.id, take_app_length by lia.
    rewrite (bool_decide_true (_ ∨ _)) by (by left). by apply label_tail_ok.
Qed.

(** A name with an escape in front of a position predicate, and a label that ends
    with escaped brackets. *)
Theorem label_node_decoded_witness :
  augds_get_label_node 9 (lit "/files/etc/fstab/a\ b[2]") true = Ok (lit "a b", true) ∧
  augds_get_label_node 9 (lit "/files/a\[b\]") true = Fault OutOfFuel.
Proof.
  split.
  - apply (label_node_decoded 9 (lit "/files/etc/fstab/") (lit "a\ b") (lit "[2]") "b"%char);
      [by right|compute_done|compute_done| |done|done|compute_done].
    right. exists (lit "2"). split; [done|compute_done].
  - apply (label_node_decoded 9 (lit "/files/") (lit "a\") (lit "[b\]") BSLASH);
      [by right|compute_done|compute_done| |done|done|compute_done].
    right. exists (lit "b\"). split; [done|compute_done].
Defined.

(** ** The copy of a file *)

Section copy.
Context `{Sysrepo} (open_error : files → string → bool → option errno).
Context (read_result write_result : nat → nat → nat + errno).

(** [read] gives some of the bytes, at most 4096, until the end of the file, and
    [write] takes some of them, or is interrupted. *)
Record reliable : Prop := {
  read_end : ∀ t, read_result t 0 = inl 0;
  read_some : ∀ t n, (0 < n)%nat → ∃ k, read_result t n = inl k ∧ (0 < k <= n)%nat ∧ (k <= 4096)%nat;
  write_some : ∀ t n, (0 < n)%nat → write_result t n = inr EINTR ∨ ∃ k, write_result t n = inl k ∧ (k <= n)%nat
}.

(** There is always another call of [write] that takes something. *)
Definition fair : Prop := ∀ t, ∃ d, ∀ n, (0 < n)%nat → ∃ k, write_result (t + d) n = inl k ∧ (0 < k)%nat.

Context (Hrel : reliable) (Hfair : fair).

(** With enough fuel, all the bytes are appended to [to]. *)
Definition written (to : string) (bytes : list ascii) (t : nat) (fs : files) : Prop :=
  ∃ fuel t', ∀ fuel', (fuel <= fuel')%nat →
    write_all write_result fuel' to t bytes fs = Ok (<[to := default [] (fs !! to) ++ bytes]> fs, inr t').

Lemma write_step to bytes t fs k :
  write_result t (length bytes) = inl k →
  (drop k bytes ≠ [] → written to (drop k bytes) (S t) (<[to := default [] (fs !! to) ++ take k bytes]> fs)) →
  written to bytes t fs.
Proof.
  intros E Hd. destruct (drop k bytes) as [|b rest] eqn:Er.
  - assert (take k bytes = bytes) as Hk by (rewrite <- (take_drop k bytes) at 2; by rewrite Er, app_nil_r).
    exists 0, (S t). intros fuel' _. destruct fuel'; cbn [write_all]; by rewrite E, Er, Hk.
  - destruct Hd as (fuel & t' & Hf); [done|]. exists (S fuel), t'. intros [|fuel'] Hle; [lia|].
    cbn [write_all]. rewrite E, Er, Hf by lia. rewrite lookup_insert_eq, insert_insert_eq. cbn [from_option id].
    by rewrite <- app_assoc, <- Er, take_drop.
Qed.

Lemma write_again to bytes t fs :
  write_result t (length bytes) = inr EINTR → written to bytes (S t) fs → written to bytes t fs.
Proof.
  intros E (fuel & t' & Hf). exists (S fuel), t'. intros [|fuel'] Hle; [lia|].
  cbn [write_all]. rewrite E. apply Hf. lia.
Qed.

Lemma write_all_completes to bytes t fs : bytes ≠ [] → written to bytes t fs.
Proof.
  remember (length bytes) as n eqn:En. revert bytes t fs En.
  induction n as [n IHn] using lt_wf_ind. intros bytes t fs -> Hb.
  assert (0 < length bytes)%nat as Hpos by (destruct bytes; [done|cbn; lia]).
  assert (∀ t fs k, write_result t (length bytes) = inl k → (0 < k)%nat → written to bytes t fs) as Hstep.
  { intros t1 fs1 k E Hk. eapply write_step; [done|]. intros Hd. eapply IHn; [|reflexivity|done].
    rewrite length_drop. lia. }
  destruct (Hfair t) as [d Hd]. revert t Hd fs. induction d as [|d IHd]; intros t Hd fs.
  - destruct (Hd _ Hpos) as (k & Hk & ?). rewrite Nat.add_0_r in Hk. by eapply Hstep.
  - assert (∀ fs, written to bytes (S t) fs) as Hnext.
    { intros fs1. apply IHd. by setoid_rewrite Nat.add_succ_comm. }
    destruct (write_some Hrel t (length bytes) Hpos) as [E|([|k] & E & _)].
    + by apply write_again.
    + apply (write_step _ _ _ _ 0 E). intros _. apply Hnext.
    + eapply Hstep; [done|lia].
Qed.

Lemma copy_rest_completes to from content t off x (fs : files) :
  to ≠ from → fs !! from = Some content → fs !! to = Some x →
  ∃ fuel, ∀ fuel', (fuel <= fuel')%nat →
    copy_rest read_result write_result fuel' to from t off fs = Ok (<[to := x ++ drop off content]> fs, inr tt).
Proof.
  intros Hne. remember (length content - off)%nat as n eqn:En. revert t off x fs En.
  induction n as [n IH] using lt_wf_ind. intros t off x fs -> Hfrom Hto.
  destruct (drop off content) as [|b rest] eqn:Er.
  - exists 0. intros fuel' _. rewrite app_nil_r, insert_id by done.
    destruct fuel'; cbn [copy_rest]; rewrite Hfrom; cbn [from_option id]; by rewrite Er, (read_end Hrel).
  - destruct (read_some Hrel t (length (b :: rest)) ltac:(cbn; lia)) as (k & Ek & Hk & _).
    assert (length (b :: rest) = length content - off)%nat as Hlen by (by rewrite <- Er, length_drop).
    assert (take k (b :: rest) ≠ []) as Hnil by (destruct k; [lia|done]).
    destruct (write_all_completes to _ (S t) fs Hnil) as (f1 & t' & Hw).
    destruct (IH (length content - (off + k))%nat ltac:(lia) t' (off + k)%nat (x ++ take k (b :: rest))
      (<[to := x ++ take k (b :: rest)]> fs) eq_refl) as (f2 & Hc).
    { by rewrite lookup_insert_ne. } { by rewrite lookup_insert_eq. }
    exists (S (f1 + f2)). intros [|fuel'] Hle; [lia|].
    cbn [copy_rest]. rewrite Hfrom. cbn [from_option id]. rewrite Er, Ek. destruct k as [|k]; [lia|].
    unfold mbind, coded_bind. rewrite Hw, Hto by lia. cbn [from_option id]. rewrite Hc by lia.
    rewrite insert_insert_eq, <- app_assoc. do 3 f_equal. rewrite <- Er, <- drop_drop. f_equal. apply take_drop.
Qed.
End copy.

(** Both files can be opened as they are when they are opened. *)
Lemma cp_path_copies `{Sysrepo} open_error read_result write_result to from content x fs :
  to ≠ from → fs !! from = Some content → fs !! to = Some x →
  reliable read_result write_result → fair write_result →
  open_error fs from false = None → open_error fs to true = None →
  ∃ fuel, ∀ fuel', (fuel <= fuel')%nat →
    augds_cp_path open_error read_result write_result fuel' to from fs = Ok (<[to := content]> fs, inr tt).
Proof.
  intros Hne Hfrom Hto Hrel Hfair Hopen Hopen2.
  destruct (copy_rest_completes read_result write_result Hrel Hfair to from content 0 0 [] (<[to := []]> fs)) as (fuel & Hc).
  - done.
  - by rewrite lookup_insert_ne.
  - by rewrite lookup_insert_eq.
  - exists fuel. intros fuel' Hle. unfold augds_cp_path, open_file, mbind, coded_bind.
    rewrite Hopen, Hopen2, Hc by done. by rewrite insert_insert_eq.
Qed.

(** C33: A file is copied completely in the end: when both files can be opened, [read]
    delivers the bytes of the file in portions, and [write] may be interrupted or
    take only a part, but takes something again and again, then the loop ends, and
    the only change is that the target has the content of the source. *)
Theorem cp_path_completes `{Sysrepo} open_error read_result write_result to from content x fs :
  to ≠ from → fs !! from = Some content → fs !! to = Some x →
  reliable read_result write_result → fair write_result →
  (∀ fs path w, open_error fs path w = None) →
  ∃ fuel, ∀ fuel', (fuel <= fuel')%nat →
    augds_cp_path open_error read_result write_result fuel' to from fs = Ok (<[to := content]> fs, inr tt).
Proof. intros. by eapply cp_path_copies. Qed.

(** Every second [write] is interrupted, the others take one byte. *)
Theorem cp_path_completes_witness :
  let sr := Build_Sysrepo 1 2 3 4 5 6 7 8 in
  let reads (_ n : nat) : nat + errno := inl (n `min` 4096) in
  let writes (t n : nat) : nat + errno := if Nat.even t then inr EINTR else inl (1 `min` n) in
  let fs : files := <["a"%string := lit "text"]> (<["b"%string := lit "old"]> ∅) in
  ∃ fuel, ∀ fuel', (fuel <= fuel')%nat →
    augds_cp_path (λ _ _ _, None) reads writes fuel' "b"%string "a"%string fs
    = Ok (<["b"%string := lit "text"]> fs, inr tt).
Proof.
  intros sr reads writes fs.
  apply (cp_path_completes (λ _ _ _, None) reads writes "b"%string "a"%string (lit "text") (lit "old") fs);
    [done|done|done| | |done].
  - split; [done| |].
    + intros t n Hn. exists (n `min` 4096). split; [done|lia].
    + intros t n Hn. unfold writes. destruct (Nat.even t); [by left|right].
      exists (1 `min` n). split; [done|lia].
  - intros t. destruct (Nat.even t) eqn:E; [exists 1|exists 0]; intros n Hn; exists (1 `min` n);
      (split; [|lia]); unfold writes; [rewrite Nat.add_1_r, Nat.even_succ, <- Nat.negb_even, E|rewrite Nat.add_0_r, E]; done.
Defined.
