(* ===== verification/SrdsLoad.v ===== *)
(** [src/srds_augeas/srdsa_load.c]: the data of libaugeas are turned into data of
    YANG.  The augnodes of a module, which [srdsa_init.c] prepares, are an array with
    indices for their children and parents; the data tree of libyang and the patterns
    of PCRE are parameters.  An array of labels is passed in and comes back with the
    used labels gone ([None] is NULL). *)
From stdpp Require Import gmap strings.
From S2P Require Import Prelude CString Common Ident Idents SrdsCommon.
#[local] Open Scope cstr_scope.

(** The data of YANG; nodes have numbers.  A function that can fail gives [None]. *)
Class Libyang (D : Type) := {
  lyd_new_term : D → option nat → cstr → option cstr → option (D * nat);
  lyd_new_list : D → option nat → cstr → option cstr → option (D * nat);
  lyd_new_inner : D → option nat → cstr → option (D * nat);
  lyd_insert_sibling : D → nat → option D;
  lyd_free_tree : D → nat → D;
  lyd_child_no_keys : D → nat → bool;
  lyd_find_xpath : D → nat → cstr → option (list nat);
  lyd_parent : D → nat → option nat;
  lyd_schema : D → nat → nat;
  lyd_eval_xpath : D → nat → cstr → option bool }.

(** The result of [pcre2_match]: 1, no match, an error, another positive number. *)
Inductive pcre_result := PcreMatch | PcreNomatch | PcreError | PcreOther.

Section load.
Context `{Sysrepo} `{Augeas handle} `{Libyang D} {pcode : Type}.
Context (pcre2_match : pcode → cstr → pcre_result) (schema_of : nat → schema_node).

(** [augnode_pattern]: groups of compiled patterns and whether they are inverted. *)
Abbreviation pattern_groups := (list (pcode * bool)).
Record case_node := CaseNode { case_path : cstr; case_patterns : list pattern_groups }.
Record augnode := AugNode {
  data_path : option cstr; value_path : option cstr; case_nodes : list case_node;
  schema : nat; schema2 : option nat; patterns : list pattern_groups; child : list nat; parent : option nat }.

(** What the functions change: the handle and the log, the data, [next_idx] of the
    augnodes. *)
Record load := Load { session : handle * list cstr; yang : D; next_idx : list Z }.
Abbreviation load_m := (coded load).

Context (augnodes : list augnode) (fuel : nat).

Definition augnode_at (i : nat) : load_m augnode := lift (fetch augnodes i).

Definition in_session {A} (m : coded (handle * list cstr) A) : load_m A := λ st,
  match m (session st) with
  | Ok (s, r) => Ok (Load s (yang st) (next_idx st), r)
  | Err e => Err e
  | Fault f => Fault f
  end.
Definition set_yang (d : D) (st : load) : load := Load (session st) d (next_idx st).

(** A call of libyang that creates a node, or changes the data. *)
Definition create (f : D → option (D * nat)) : load_m nat := λ st,
  match f (yang st) with
  | Some (d, n) => Ok (set_yang d st, inr n)
  | None => Ok (st, inl SR_ERR_LY)
  end.
Definition on_yang (f : D → option D) : load_m unit := λ st,
  match f (yang st) with Some d => Ok (set_yang d st, inr tt) | None => Ok (st, inl SR_ERR_LY) end.
Definition free_tree (n : nat) : load_m unit := on_yang (λ d, Some (lyd_free_tree d n)).
Definition has_children (n : nat) : load_m bool := look (λ st, Ok (lyd_child_no_keys (yang st) n)).

Definition check : coded (handle * list cstr) unit := augds_check_erraug fuel fuel.
(** [aug_get] of a label that must exist. *)
Definition label_value (label : cstr) : load_m (option cstr) := in_session (get_one check label).
Definition label_node (label : cstr) : load_m cstr :=
  '(s, _) ← lift (augds_get_label_node fuel label true); mret s.

(** ** Nodes *)

Definition augds_leaf_is_empty (s : schema_node) : bool :=
  match leaf_type s with
  | LY_TYPE_EMPTY => true
  | LY_TYPE_UNION types => existsb is_empty_type types
  | _ => false
  end.

(** The new node, if there is one. *)
Definition augds_aug2yang_augnode_create_node (sid : nat) (val_str : option cstr) (parent : option nat)
    : load_m (option nat) :=
  let s := schema_of sid in
  let name := schema_name s in
  let insert (n : nat) : load_m (option nat) :=
    match parent with
    | None => _ ← on_yang (λ d, lyd_insert_sibling d n); mret (Some n)
    | Some _ => mret (Some n)
    end in
  if is_term s then
    if bool_decide (val_str = None) && negb (mandatory s) && negb (augds_leaf_is_empty s) then mret None
    else n ← create (λ d, lyd_new_term d parent name val_str); insert n
  else if bool_decide (nodetype_of s = LYS_LIST) then
    n ← create (λ d, lyd_new_list d parent name val_str); insert n
  else
    _ ← lift (c_assert (bool_decide (nodetype_of s = LYS_CONTAINER)));
    n ← create (λ d, lyd_new_inner d parent name);
    _ ← match val_str with
        | Some v =>
            c ← lift (deref (first_child s));
            _ ← create (λ d, lyd_new_term d (Some n) c (Some v)); mret tt
        | None => mret tt
        end;
    insert n.

(** ** Labels *)

Definition augds_ext_label_node_equal (ext_node label_node : cstr) : bool * augds_ext_node_type :=
  if strneq ext_node (lit "$$") 2 then (true, AUGDS_EXT_NODE_LABEL)
  else (streq ext_node label_node, AUGDS_EXT_NODE_VALUE).

(** All the patterns of a group. *)
Fixpoint group_match (groups : pattern_groups) (s : cstr) : res bool :=
  match groups with
  | [] => Ok true
  | (code, inverted) :: groups' =>
      match pcre2_match code s with
      | PcreError => Err SR_ERR_SYS
      | PcreMatch => if inverted : bool then Ok false else group_match groups' s
      | PcreNomatch => if inverted then group_match groups' s else Ok false
      | PcreOther => group_match groups' s
      end
  end.

Fixpoint augds_pattern_label_match (pats : list pattern_groups) (s : cstr) : res bool :=
  match pats with
  | [] => Ok false
  | g :: pats' => b ← group_match g s; if (b : bool) then Ok true else augds_pattern_label_match pats' s
  end.

(** ** References *)

(** The augnode above that has the schema of the list. *)
Fixpoint augnode_above (n : nat) (an : option nat) (sid : nat) : res nat :=
  match an with
  | None => Fault AssertFailed
  | Some i =>
      match n with
      | 0 => Fault OutOfFuel
      | S n' => a ← fetch augnodes i; if (schema a =? sid)%nat then Ok i else augnode_above n' (parent a) sid
      end
  end.

Definition augds_aug2yang_augnode_leafref_parent (a : augnode) (dparent : nat) : load_m (nat * option nat) :=
  let s := schema_of (schema a) in
  _ ← lift (c_assert (bool_decide (nodetype_of s = LYS_LEAF)));
  path ← lift (match leaf_type s with LY_TYPE_LEAFREF p => Ok p | _ => Fault AssertFailed end);
  _ ← lift (c_assert (strneq path (lit "../") 3));
  found ← look (λ st, match lyd_find_xpath (yang st) dparent (drop 3 path) with Some l => Ok l | None => Err SR_ERR_LY end);
  target ← lift (match found with t :: _ => Ok t | [] => Fault AssertFailed end);
  lref_list ← look (λ st, deref (lyd_parent (yang st) target));
  sid ← look (λ st, Ok (lyd_schema (yang st) lref_list));
  an ← lift (augnode_above (length augnodes) (parent a) sid);
  up ← look (λ st, Ok (lyd_parent (yang st) lref_list));
  mret (an, up).

(** ** Conversion *)

Abbreviation labels := (list (option cstr)).
Abbreviation create_node := augds_aug2yang_augnode_create_node.

(** The next index of an augnode is used, is set, is given back. *)
Definition take_idx (i : nat) : load_m Z := λ st,
  match next_idx st !! i with
  | Some z => Ok (Load (session st) (yang st) (<[i := u64 (z + 1)]> (next_idx st)), inr z)
  | None => Fault OutOfBounds
  end.
Definition set_idx (i : nat) (z : Z) : load_m unit := λ st,
  Ok (Load (session st) (yang st) (<[i := z]> (next_idx st)), inr tt).
Definition give_back_idx (i : nat) : load_m unit :=
  z ← look (λ st, fetch (next_idx st) i); set_idx i (u64 (z - 1)).

Section bodies.
(** [augds_aug2yang_augnode_labels_r] and [augds_aug2yang_augnode_r] for the levels
    below. *)
Context (labels_r : list nat → cstr → labels → option nat → load_m labels).
Context (augnode_r : list nat → cstr → option nat → load_m unit).

(** The name of a label fits the augnode; the value that comes from it. *)
Definition label_fits (a : augnode) (dpath label name : cstr) : load_m (option (option cstr)) :=
  match augds_ext_label_node_equal dpath name with
  | (false, _) => mret None
  | (true, AUGDS_EXT_NODE_VALUE) =>
      if is_term (schema_of (schema a)) then v ← label_value label; mret (Some v) else mret (Some None)
  | (true, AUGDS_EXT_NODE_LABEL) =>
      b ← lift (augds_pattern_label_match (patterns a) name);
      mret (if (b : bool) then Some (Some name) else None)
  | (true, _) => lift (Fault AssertFailed)
  end.

(** The node for a label, the node of its value and everything below. *)
Definition convert_label (a : augnode) (label : cstr) (value : option cstr) (parent : option nat) : load_m unit :=
  value2 ← (match value_path a with Some _ => label_value label | None => mret (None : option cstr) end);
  new_node ← create_node (schema a) value parent;
  _ ← (match value_path a with
       | Some _ =>
           s2 ← lift (deref (schema2 a));
           _ ← create_node s2 value2 (if is_term (schema_of (schema a)) then parent else new_node);
           mret tt
       | None => mret tt
       end);
  augnode_r (child a) label new_node.

Fixpoint augds_aug2yang_augnode_labels_value_r (a : augnode) (dpath : cstr) (ls : labels) (parent : option nat)
    : load_m labels :=
  match ls with
  | [] => mret []
  | None :: ls' => r ← augds_aug2yang_augnode_labels_value_r a dpath ls' parent; mret (None :: r)
  | Some label :: ls' =>
      name ← label_node label;
      fits ← label_fits a dpath label name;
      match fits with
      | None => mret ls
      | Some value =>
          _ ← convert_label a label value parent;
          if bool_decide (nodetype_of (schema_of (schema a)) = LYS_LEAF) then mret (None :: ls')
          else r ← augds_aug2yang_augnode_labels_value_r a dpath ls' parent; mret (None :: r)
      end
  end.

Definition is_first_child (a : augnode) (name : string) : res bool :=
  c ← deref (first_child (schema_of (schema a))); Ok (streq c (lit name)).

(** The instances of a list, with the index in a variable or in the augnode. *)
Fixpoint list_instances (i : nat) (a : augnode) (local : option Z) (parent_label : cstr) (ls : labels)
    (parent : option nat) : load_m labels :=
  match ls with
  | [] => mret []
  | None :: ls' => r ← list_instances i a local parent_label ls' parent; mret (None :: r)
  | Some label :: ls' =>
      idx ← (match local with Some z => mret z | None => take_idx i end);
      new_node ← create_node (schema a) (Some (decimal idx)) parent;
      one ← labels_r (child a) parent_label [Some label] new_node;
      n ← lift (deref new_node);
      used ← has_children n;
      _ ← (if (used : bool) then mret tt
           else _ ← free_tree n; match local with Some _ => mret tt | None => give_back_idx i end);
      r ← list_instances i a (if (used : bool) then (λ z, u64 (z + 1)) <$> local else local) parent_label ls' parent;
      mret (one ++ r)
  end.

Definition augds_aug2yang_augnode_labels_list_r (i : nat) (a : augnode) (parent_label : cstr) (ls : labels)
    (parent : option nat) : load_m labels :=
  is_id ← lift (is_first_child a "_id");
  if (is_id : bool) then list_instances i a (Some 1%Z) parent_label ls parent
  else
    is_rec ← lift (is_first_child a "_r-id");
    _ ← lift (c_assert is_rec);
    _ ← set_idx i 1;
    list_instances i a None parent_label ls parent.

(** All the conditions are true. *)
Fixpoint eval_whens (conds : list cstr) (node : nat) : load_m bool :=
  match conds with
  | [] => mret true
  | c :: conds' =>
      b ← look (λ st, match lyd_eval_xpath (yang st) node c with Some b => Ok b | None => Err SR_ERR_LY end);
      if (b : bool) then eval_whens conds' node else mret false
  end.
Definition augds_aug2yang_augnode_case_when (node : nat) : load_m bool :=
  sid ← look (λ st, Ok (lyd_schema (yang st) node)); eval_whens (whens (schema_of sid)) node.

(** The case nodes in turn, for the name of the first label. *)
Fixpoint try_cases (i : nat) (a : augnode) (cs : list case_node) (name parent_label : cstr) (ls : labels)
    (parent : option nat) : load_m labels :=
  match cs with
  | [] => mret ls
  | c :: cs' =>
      let '(eq, ty) := augds_ext_label_node_equal (case_path c) name in
      let next := try_cases i a cs' name parent_label ls parent in
      if negb eq then next
      else
        m ← (match ty with
             | AUGDS_EXT_NODE_LABEL => lift (augds_pattern_label_match (case_patterns c) name)
             | _ => mret true
             end);
        if negb m then next
        else
          let nt := nodetype_of (schema_of (schema a)) in
          new_node ← (if bool_decide (nt = LYS_CONTAINER) then create_node (schema a) None parent
                      else
                        _ ← lift (c_assert (bool_decide (nt = LYS_LIST)));
                        is_id ← lift (is_first_child a "_id");
                        _ ← lift (c_assert is_id);
                        create_node (schema a) (Some (lit "1")) parent);
          n ← lift (deref new_node);
          w ← augds_aug2yang_augnode_case_when n;
          if negb w then _ ← free_tree n; next
          else if bool_decide (nt = LYS_LIST) then
            _ ← free_tree n;
            augds_aug2yang_augnode_labels_list_r i a parent_label ls parent
          else labels_r (child a) parent_label ls (Some n)
  end.

Definition augds_aug2yang_augnode_labels_case_r (i : nat) (a : augnode) (parent_label : cstr) (ls : labels)
    (parent : option nat) : load_m labels :=
  match omap id ls with
  | [] => mret ls
  | label :: _ => name ← label_node label; try_cases i a (case_nodes a) name parent_label ls parent
  end.

(** A child of the list has the name. *)
Fixpoint child_matches (cs : list nat) (name : cstr) : res bool :=
  match cs with
  | [] => Ok false
  | c :: cs' =>
      a ← fetch augnodes c;
      d ← match data_path a with Some d => Ok d | None => Fault AssertFailed end;
      if (augds_ext_label_node_equal d name).1 then Ok true else child_matches cs' name
  end.

Fixpoint recursive_instances (a : augnode) (li : nat) (la : augnode) (parent_label : cstr) (ls : labels)
    (dparent : nat) (parent2 : option nat) : load_m labels :=
  match ls with
  | [] => mret []
  | None :: ls' => r ← recursive_instances a li la parent_label ls' dparent parent2; mret (None :: r)
  | Some label :: ls' =>
      name ← label_node label;
      m ← lift (child_matches (child la) name);
      one ← (if negb m then mret [Some label]
             else
               idx ← take_idx li;
               new_node ← create_node (schema la) (Some (decimal idx)) parent2;
               one ← labels_r (child la) parent_label [Some label] new_node;
               n ← lift (deref new_node);
               used ← has_children n;
               if negb used then
                 _ ← lift (c_assert (negb (bool_decide (one = [None]))));
                 _ ← free_tree n; _ ← give_back_idx li; mret one
               else
                 _ ← lift (c_assert (bool_decide (one = [None])));
                 _ ← create_node (schema a) (Some (decimal idx)) (Some dparent);
                 mret one);
      r ← recursive_instances a li la parent_label ls' dparent parent2;
      mret (one ++ r)
  end.

Definition augds_aug2yang_augnode_recursive_labels_r (a : augnode) (parent_label : cstr) (ls : labels)
    (parent : option nat) : load_m labels :=
  dparent ← lift (match parent with Some p => Ok p | None => Fault AssertFailed end);
  _ ← lift (c_assert (is_leafref (leaf_type (schema_of (schema a)))));
  '(li, parent2) ← augds_aug2yang_augnode_leafref_parent a dparent;
  la ← augnode_at li;
  let s := schema_of (schema la) in
  _ ← lift (c_assert (bool_decide (nodetype_of s = LYS_LIST) && has_parent s));
  idx ← look (λ st, fetch (next_idx st) li);
  is_rec ← lift (is_first_child la "_r-id");
  _ ← lift (c_assert (negb (idx =? 0)%Z && is_rec));
  recursive_instances a li la parent_label ls dparent parent2.

(** One augnode with the labels that are left. *)
Definition convert_augnode (i : nat) (parent_label : cstr) (ls : labels) (parent : option nat) : load_m labels :=
  a ← augnode_at i;
  let s := schema_of (schema a) in
  let is_list := bool_decide (nodetype_of s = LYS_LIST) in
  match data_path a with
  | Some d => augds_aug2yang_augnode_labels_value_r a d ls parent
  | None =>
      if is_list && negb (has_parent s) then
        is_file ← lift (is_first_child a "config-file");
        _ ← lift (c_assert is_file);
        _ ← lift (c_assert (strneq parent_label (lit "/files") 6));
        new_node ← create_node (schema a) (Some (drop 6 parent_label)) parent;
        labels_r (child a) parent_label ls new_node
      else if (0 <? length (case_nodes a))%nat then augds_aug2yang_augnode_labels_case_r i a parent_label ls parent
      else if is_list && has_parent s then augds_aug2yang_augnode_labels_list_r i a parent_label ls parent
      else if bool_decide (nodetype_of s = LYS_LEAF) then
        augds_aug2yang_augnode_recursive_labels_r a parent_label ls parent
      else
        _ ← lift (c_assert (bool_decide (nodetype_of s = LYS_CONTAINER)));
        new_node ← create_node (schema a) None parent;
        labels_r (child a) parent_label ls new_node
  end.

Fixpoint convert_augnodes (l : list nat) (parent_label : cstr) (ls : labels) (parent : option nat) : load_m labels :=
  match l with
  | [] => mret ls
  | i :: l' => ls' ← convert_augnode i parent_label ls parent; convert_augnodes l' parent_label ls' parent
  end.

(** The labels at a depth. *)
Fixpoint warn_rest (ls : labels) : load_m unit :=
  match ls with
  | [] => mret tt
  | None :: ls' => warn_rest ls'
  | Some l :: ls' => _ ← in_session (log (lit "Non-processed augeas data " ++ l)); warn_rest ls'
  end.

Definition convert_children (l : list nat) (parent_label : cstr) (parent : option nat) : load_m unit :=
  match l with
  | [] => mret tt
  | _ =>
      found ← in_session (matches (parent_label ++ lit "/*[label() != '#comment' and label() != '#scomment']"));
      match found with
      | None => in_session (raise_augeas check)
      | Some found => ls ← labels_r l parent_label (Some <$> found) parent; warn_rest ls
      end
  end.
End bodies.

(** The recursion of the two functions, through the augnodes and through the labels. *)
Fixpoint augds_aug2yang_augnode_labels_r (depth : nat) (l : list nat) (parent_label : cstr) (ls : labels)
    (parent : option nat) : load_m labels :=
  match depth with
  | 0 => lift (Fault OutOfFuel)
  | S depth' =>
      let rec := augds_aug2yang_augnode_labels_r depth' in
      convert_augnodes rec (convert_children rec) l parent_label ls parent
  end.

Definition augds_aug2yang_augnode_r (depth : nat) : list nat → cstr → option nat → load_m unit :=
  convert_children (augds_aug2yang_augnode_labels_r depth).
End load.
