(* ===== verification/SrdsLoadTheorems.v ===== *)
(** Theorems on the conversion of the data of libaugeas: which labels are used. *)
From stdpp Require Import gmap strings.
From S2P Require Import Prelude CString Common SrdsCommon SrdsLoad.
#[local] Open Scope cstr_scope.

(** Every value that the computation returns has the property. *)
Definition yields {S A} (Q : A → Prop) (p : coded S A) : Prop :=
  ∀ st st' a, p st = Ok (st', inr a) → Q a.

Section yields.
Context {S A B : Type}.

Lemma yields_ret (Q : A → Prop) a : Q a → yields Q (mret (M:=coded S) a).
Proof. by intros ? st st' b [= _ <-]. Qed.

Lemma yields_bind (R : A → Prop) (Q : B → Prop) (p : coded S A) k :
  yields R p → (∀ a, R a → yields Q (k a)) → yields Q (p ≫= k).
Proof.
  intros Hp Hk st st' b. unfold mbind, coded_bind. destruct (p st) as [[st1 [e|a]]| |] eqn:E; [done| |done..].
  apply Hk. by eapply Hp.
Qed.

Lemma yields_lift (r : res A) : yields (λ a, r = Ok a) (lift (S:=S) r).
Proof. intros st st' a. unfold lift. by destruct r; intros [= _ <-]. Qed.

Lemma yields_any (p : coded S A) : yields (λ _, True) p.
Proof. done. Qed.
End yields.

Ltac skip := eapply yields_bind; [apply yields_any|intros ? _].
Ltac yield :=
  repeat match goal with
  | |- yields _ (_ ≫= _) => eapply yields_bind; [apply yields_any|intros ? _]
  | |- yields _ (mret _) => apply yields_ret
  | |- yields _ (lift (Fault _)) => by intros ? ? ?
  | |- yields _ (lift (Err _)) => by intros ? ? ?
  | |- yields _ (let '(_, _) := ?x in _) => destruct x
  | |- yields _ (match ?x with _ => _ end) => destruct x
  end.

(** Labels are only taken away: every one is as it was or NULL. *)
Definition fewer : list (option cstr) → list (option cstr) → Prop := Forall2 (λ old new, new = old ∨ new = None).

Lemma fewer_refl ls : fewer ls ls.
Proof. apply Forall_Forall2_diag, Forall_true. by left. Qed.
Lemma fewer_trans ls ls' ls'' : fewer ls ls' → fewer ls' ls'' → fewer ls ls''.
Proof. intros H H'. eapply Forall2_trans; [|exact H|exact H']. naive_solver. Qed.
Lemma fewer_one l ls one rest : fewer [l] one → fewer ls rest → fewer (l :: ls) (one ++ rest).
Proof. intros H H'. change (l :: ls) with ([l] ++ ls). by apply Forall2_app. Qed.
#[local] Hint Resolve fewer_refl : core.

Section load.
Context `{Sysrepo} `{Augeas handle} `{Libyang D} {pcode : Type}.
Context (pcre2_match : pcode → cstr → pcre_result) (schema_of : nat → schema_node).
Context (augnodes : list (@augnode pcode)) (fuel : nat).
Abbreviation load_m := (coded (@load handle D)).

(** ** Values *)

(** The name of a label fits the data path of an augnode: [$$] stands for every name
    that matches a pattern. *)
Definition fits_name (a : @augnode pcode) (d name : cstr) : Prop :=
  if strneq d (lit "$$") 2 then augds_pattern_label_match pcre2_match (patterns a) name = Ok true else d = name.
Definition named (label name : cstr) : Prop := ∃ dyn, augds_get_label_node fuel label true = Ok (name, dyn).

Lemma label_node_named l : yields (named l) (@label_node handle D fuel l).
Proof.
  unfold label_node. eapply yields_bind; [apply yields_lift|]. intros [s dyn] E. apply yields_ret. by exists dyn.
Qed.

Lemma label_fits_name (a : @augnode pcode) d l name :
  yields (λ o, match o with Some _ => fits_name a d name | None => ¬ fits_name a d name end)
    (label_fits (handle:=handle) (D:=D) pcre2_match schema_of fuel a d l name).
Proof.
  unfold label_fits, augds_ext_label_node_equal, fits_name. destruct (strneq d (lit "$$") 2).
  - eapply yields_bind; [apply yields_lift|]. intros b E. apply yields_ret. destruct b; [done|congruence].
  - destruct (streq d name) eqn:E; unfold streq in E.
    + apply bool_decide_eq_true in E. destruct (is_term _); [skip|]; by apply yields_ret.
    + apply bool_decide_eq_false in E. by apply yields_ret.
Qed.

(** The labels that a node with a data path takes are the first of those that are
    left, up to one that does not fit. *)
Record taken (a : @augnode pcode) (d : cstr) (used rest : list (option cstr)) : Prop := {
  taken_fit : ∀ l, Some l ∈ used → ∃ name, named l name ∧ fits_name a d name;
  taken_leaf : nodetype_of (schema_of (schema a)) = LYS_LEAF → (length (omap id used) <= 1)%nat;
  taken_all : nodetype_of (schema_of (schema a)) ≠ LYS_LEAF ∨ omap id used = [] →
    match rest with
    | [] => True
    | None :: _ => False
    | Some l :: _ => ∃ name, named l name ∧ ¬ fits_name a d name
    end }.

Lemma values_taken augnode_r (a : @augnode pcode) d ls p :
  yields (λ r, ∃ used rest, ls = used ++ rest ∧ r = replicate (length used) None ++ rest ∧ taken a d used rest)
    (augds_aug2yang_augnode_labels_value_r (handle:=handle) (D:=D) pcre2_match schema_of fuel augnode_r a d ls p).
Proof.
  induction ls as [|[l|] ls IH]; cbn [augds_aug2yang_augnode_labels_value_r].
  - apply yields_ret. exists [], []. split_and!; [done..|]. split; [by intros l Hl%elem_of_nil|cbn; lia|done].
  - eapply yields_bind; [apply label_node_named|]. intros name Hname.
    eapply yields_bind; [apply label_fits_name|]. intros [v|] Hfit.
    + skip. case_bool_decide as Hleaf.
      * apply yields_ret. exists [Some l], ls. split_and!; [done..|]. split; [|done|by intros [?|?]].
        intros l' Hl%list_elem_of_singleton. injection Hl as ->. by exists name.
      * eapply yields_bind; [apply IH|]. intros r (used & rest & -> & -> & [T1 T2 T3]). apply yields_ret.
        exists (Some l :: used), rest. split_and!; [done..|]. split; [|done|intros _; apply T3; by left].
        intros l' [Hl|Hl]%elem_of_cons; [injection Hl as ->; by exists name|by apply T1].
    + apply yields_ret. exists [], (Some l :: ls). split_and!; [done..|].
      split; [by intros l' Hl%elem_of_nil|cbn; lia|]. intros _. by exists name.
  - eapply yields_bind; [apply IH|]. intros r (used & rest & -> & -> & [T1 T2 T3]). apply yields_ret.
    exists (None :: used), rest. split_and!; [done..|]. split; [|done|done].
    intros l' [Hl|Hl]%elem_of_cons; [done|by apply T1].
Qed.
(** C35: A node with a data path takes labels in the order of the file: the labels it
    takes are the first ones that are left; each of them has a name that fits, a leaf
    takes at most one, and any other node takes all of them up to the first that does
    not fit. *)
Theorem values_in_order augnode_r (a : @augnode pcode) d ls p :
  yields (λ r, ∃ used rest, ls = used ++ rest ∧ r = replicate (length used) None ++ rest ∧ taken a d used rest)
    (augds_aug2yang_augnode_labels_value_r (handle:=handle) (D:=D) pcre2_match schema_of fuel augnode_r a d ls p).
Proof. apply values_taken. Qed.

(** ** Which labels are converted *)

Abbreviation augnode := (@augnode pcode).
Implicit Types (a la : augnode) (ls one : list (option cstr)).

(** A case node of the augnode fits the first label that is left. *)
Definition case_fits (c : @case_node pcode) (name : cstr) : Prop :=
  let '(eq, ty) := augds_ext_label_node_equal (case_path c) name in
  eq = true ∧ (ty = AUGDS_EXT_NODE_LABEL → augds_pattern_label_match pcre2_match (case_patterns c) name = Ok true).
Definition chosen a ls : Prop :=
  case_nodes a = [] ∨ ∃ label name c, head (omap id ls) = Some label ∧ named label name ∧
    c ∈ case_nodes a ∧ case_fits c name.

Abbreviation type_of a := (nodetype_of (schema_of (schema a))).

(** The labels before and after the conversion for augnodes in turn, for one augnode,
    and for the instances of a list whose nodes are given.  A reference to a list above
    leaves the labels alone that no node of the list matches. *)
Inductive conversion : list nat → list (option cstr) → list (option cstr) → Prop :=
| conversion_nil ls : conversion [] ls ls
| conversion_cons i a l ls ls' ls'' :
    augnodes !! i = Some a → converted a ls ls' → conversion l ls' ls'' → conversion (i :: l) ls ls''
with converted : augnode → list (option cstr) → list (option cstr) → Prop :=
| converted_values a d used rest :
    data_path a = Some d → taken a d used rest →
    converted a (used ++ rest) (replicate (length used) None ++ rest)
| converted_file a ls ls' :
    data_path a = None → type_of a = LYS_LIST → has_parent (schema_of (schema a)) = false →
    conversion (child a) ls ls' → converted a ls ls'
| converted_container a ls ls' :
    data_path a = None → type_of a = LYS_CONTAINER → chosen a ls →
    conversion (child a) ls ls' → converted a ls ls'
| converted_list a ls ls' :
    data_path a = None → type_of a = LYS_LIST → chosen a ls →
    instances false (child a) ls ls' → converted a ls ls'
| converted_reference a la ls ls' :
    data_path a = None → type_of a = LYS_LEAF → case_nodes a = [] → la ∈ augnodes → type_of la = LYS_LIST →
    instances true (child la) ls ls' → converted a ls ls'
| not_chosen a ls : data_path a = None → case_nodes a ≠ [] → converted a ls ls
with instances : bool → list nat → list (option cstr) → list (option cstr) → Prop :=
| instances_nil r c : instances r c [] []
| instances_gone r c ls ls' : instances r c ls ls' → instances r c (None :: ls) (None :: ls')
| instances_other c label name ls ls' :
    named label name → child_matches augnodes c name = Ok false → instances true c ls ls' →
    instances true c (Some label :: ls) (Some label :: ls')
| instances_label r c label one ls ls' :
    conversion c [Some label] one → instances r c ls ls' → instances r c (Some label :: ls) (one ++ ls').

Scheme conversion_mut := Minimality for conversion Sort Prop
  with converted_mut := Minimality for converted Sort Prop
  with instances_mut := Minimality for instances Sort Prop.

(** A conversion only takes labels away. *)
Lemma conversion_fewer l ls ls' : conversion l ls ls' → fewer ls ls'.
Proof.
  apply (conversion_mut (λ _ ls ls', fewer ls ls') (λ _ ls ls', fewer ls ls') (λ _ _ ls ls', fewer ls ls')); try done.
  - intros. by eapply fewer_trans.
  - intros a d used rest _ _. apply Forall2_app; [|apply fewer_refl].
    apply Forall2_replicate_r; [done|]. apply Forall_true. by right.
  - constructor; [by left|done].
  - constructor; [by left|done].
  - intros. by apply fewer_one.
Qed.

Section bodies.
Context (labels_r : list nat → cstr → list (option cstr) → option nat → load_m (list (option cstr))).
Context (augnode_r : list nat → cstr → option nat → load_m unit).
Context (Hrec : ∀ l pl ls p, yields (conversion l ls) (labels_r l pl ls p)).

Lemma instances_converted i a local pl ls p :
  yields (instances false (child a) ls) (list_instances schema_of labels_r i a local pl ls p).
Proof.
  revert local. induction ls as [|[l|] ls IH]; intros local; cbn [list_instances].
  - yield. constructor.
  - eapply yields_bind; [apply yields_any|intros idx _]. eapply yields_bind; [apply yields_any|intros nn _].
    eapply yields_bind; [apply Hrec|intros one Hone]. do 3 skip.
    eapply yields_bind; [apply IH|intros; yield; by constructor].
  - eapply yields_bind; [apply IH|]. intros. yield. by constructor.
Qed.

Lemma list_converted i a pl ls p :
  yields (instances false (child a) ls) (augds_aug2yang_augnode_labels_list_r schema_of labels_r i a pl ls p).
Proof.
  unfold augds_aug2yang_augnode_labels_list_r. eapply yields_bind; [apply yields_any|intros [] _]; [apply instances_converted|].
  do 3 skip. apply instances_converted.
Qed.

Lemma asserted (b : bool) : yields (λ _, b = true) (lift (S:=@load handle D) (c_assert b)).
Proof. intros st st' u [Hb _]%lift_inv. by apply c_assert_inv in Hb. Qed.

Lemma cases_converted i a cs name label pl ls p :
  data_path a = None → head (omap id ls) = Some label → named label name → cs ⊆ case_nodes a → case_nodes a ≠ [] →
  yields (converted a ls) (try_cases pcre2_match schema_of labels_r i a cs name pl ls p).
Proof.
  intros Hd Hl Hn. induction cs as [|c cs IH]; intros Hcs Hne; cbn [try_cases]; [yield; by constructor|].
  assert (yields (converted a ls) (try_cases pcre2_match schema_of labels_r i a cs name pl ls p)) as Hnext
    by (apply IH; [set_solver|done]).
  destruct (augds_ext_label_node_equal _ _) as [eq ty] eqn:E. destruct eq; [cbn [negb]|done].
  apply (yields_bind (λ m : bool, m = true → case_fits c name)).
  { intros st st' m Hm ->. unfold case_fits. rewrite E. split; [done|]. intros ->.
    by apply lift_inv in Hm as [Hm _]. }
  intros m Hfit. destruct m; [cbn [negb]|done].
  assert (chosen a ls) as Hch by (right; exists label, name, c; split_and!; [done..|set_solver|by apply Hfit]).
  apply (yields_bind (λ _, type_of a = LYS_CONTAINER ∨ type_of a = LYS_LIST)).
  { case_bool_decide; [intros ? ? ? _; by left|]. eapply yields_bind; [apply asserted|].
    intros _ Hb%bool_decide_eq_true. intros ? ? ? _. by right. }
  intros nn Hty. do 2 skip. destruct (negb _); [skip; done|].
  case_bool_decide as Hlist.
  - skip. intros st st' r Hr%list_converted. by apply converted_list.
  - intros st st' r Hr%Hrec. apply converted_container; [done| |done..]. by destruct Hty.
Qed.

Lemma reference_converted a li la pl ls dp p2 :
  yields (instances true (child la) ls) (recursive_instances schema_of augnodes fuel labels_r a li la pl ls dp p2).
Proof.
  induction ls as [|[l|] ls IH]; cbn [recursive_instances].
  - yield. constructor.
  - eapply yields_bind; [apply label_node_named|intros name Hname].
    eapply yields_bind; [apply yields_lift|intros m Hm].
    apply (yields_bind (λ one, (m = false ∧ one = [Some l]) ∨ conversion (child la) [Some l] one)).
    + destruct m; cbn [negb]; [|yield; by left]. do 2 skip.
      eapply yields_bind; [apply Hrec|intros one Hone]. do 2 skip.
      destruct (negb _); repeat skip; yield; by right.
    + intros one Hone. eapply yields_bind; [apply IH|intros ls' Hls; yield].
      destruct Hone as [[-> ->]|Hone]; [by eapply instances_other|by constructor].
  - eapply yields_bind; [apply IH|]. intros. yield. by constructor.
Qed.

Lemma augnode_converted i a pl ls p :
  augnodes !! i = Some a →
  yields (converted a ls) (convert_augnode pcre2_match schema_of augnodes fuel labels_r augnode_r i pl ls p).
Proof.
  intros Ha. unfold convert_augnode.
  apply (yields_bind (λ a', a' = a)).
  { intros st st' a' [Ha' _]%lift_inv. apply fetch_Ok in Ha'. congruence. }
  intros ? ->. destruct (data_path a) as [d|] eqn:Hd.
  { intros st st' r Hr%values_taken. destruct Hr as (used & rest & -> & -> & Ht). by eapply converted_values. }
  destruct (bool_decide_reflect (type_of a = LYS_LIST)) as [Hlist|Hlist];
    destruct (has_parent _) eqn:Hp; cbn [andb negb].
  2: { do 4 skip. intros st st' r Hr%Hrec. by apply converted_file. }
  all: destruct (Nat.ltb_spec 0 (length (case_nodes a))) as [Hc|Hc].
  all: try (unfold augds_aug2yang_augnode_labels_case_r; destruct (omap id ls) as [|label] eqn:El;
    [yield; apply not_chosen; [done|by destruct (case_nodes a); [cbn in Hc; lia|]]|];
    eapply yields_bind; [apply label_node_named|intros name Hname];
    eapply cases_converted; [done|by rewrite El|done|done|by destruct (case_nodes a); [cbn in Hc; lia|]]).
  all: assert (case_nodes a = []) as Hcn by (destruct (case_nodes a); [done|cbn in Hc; lia]).
  { intros st st' r Hr%list_converted. apply converted_list; [done..|by left|done]. }
  all: case_bool_decide as Hleaf.
  1,3: unfold augds_aug2yang_augnode_recursive_labels_r; do 2 skip;
    eapply yields_bind; [apply yields_any|intros [li p2] _];
    apply (yields_bind (λ la, la ∈ augnodes));
      [intros st st' la [Hla _]%lift_inv; apply fetch_Ok in Hla; by eapply list_elem_of_lookup_2|];
    intros la Hla; eapply yields_bind; [apply asserted|]; intros _ [Hll _]%andb_true_iff; do 3 skip;
    intros st st' r Hr%reference_converted; apply bool_decide_eq_true in Hll; by eapply converted_reference.
  all: eapply yields_bind; [apply asserted|]; intros _ Hcont%bool_decide_eq_true; skip;
    intros st st' r Hr%Hrec; apply converted_container; [done..|by left|done].
Qed.

Lemma augnodes_converted l pl ls p :
  yields (conversion l ls) (convert_augnodes pcre2_match schema_of augnodes fuel labels_r augnode_r l pl ls p).
Proof.
  revert ls. induction l as [|i l IH]; intros ls; cbn [convert_augnodes]; [yield; constructor|].
  apply (yields_bind (λ ls', ∃ a, augnodes !! i = Some a ∧ converted a ls ls')).
  - intros st st' ls' Hr. destruct (augnodes !! i) as [a|] eqn:Ha.
    + exists a. split; [done|]. by eapply (augnode_converted i a).
    + unfold convert_augnode in Hr. apply coded_bind_inv in Hr as (s1 & a & [Hf _]%lift_inv & _).
      apply fetch_Ok in Hf. congruence.
  - intros ls' (a & Ha & Hls) st st' r Hr%IH. by eapply conversion_cons.
Qed.
End bodies.

(** C34: The labels are converted as [conversion] describes it, augnode by augnode: one
    with a data path takes the first labels that fit ([taken]), each once, and NULL is in
    their place afterwards, so that no later augnode finds them; a container passes all
    labels to its children, a list and a reference to a list pass them one by one, and
    a node of a case takes part only if a case fits the first label.  All other labels
    stay where they are. *)
Theorem labels_converted depth l pl ls p :
  yields (λ r, conversion l ls r ∧ fewer ls r)
    (augds_aug2yang_augnode_labels_r pcre2_match schema_of augnodes fuel depth l pl ls p).
Proof.
  enough (∀ l pl ls p, yields (conversion l ls)
    (augds_aug2yang_augnode_labels_r pcre2_match schema_of augnodes fuel depth l pl ls p)) as Hc
    by (intros st st' r Hr%Hc; split; [done|by eapply conversion_fewer]).
  clear l pl ls p. induction depth as [|depth IH]; intros; cbn [augds_aug2yang_augnode_labels_r].
  - by intros ? ? ?.
  - by apply augnodes_converted.
Qed.
End load.

(** A leaf-list for the label [a], and three labels of which the first two are [a]. *)
Theorem values_in_order_witness :
  let sr := Build_Sysrepo 1 2 3 4 5 6 7 8 in
  let au : Augeas unit := {| aug_error _ := AUG_NOERROR; aug_match h _ := (h, Some []); aug_get h _ := (h, (1%Z, Some (lit "v"))) |} in
  let ly : Libyang nat := {|
    lyd_new_term d _ _ _ := Some (S d, d); lyd_new_list d _ _ _ := Some (S d, d); lyd_new_inner d _ _ := Some (S d, d);
    lyd_insert_sibling d _ := Some d; lyd_free_tree d _ := d; lyd_child_no_keys _ _ := true; lyd_find_xpath _ _ _ := None;
    lyd_parent _ _ := None; lyd_schema _ _ := 0; lyd_eval_xpath _ _ _ := None |} in
  let schema_of (_ : nat) := Schema (lit "a") LYS_LEAFLIST [] (LY_TYPE_STRING 0) false true None [] in
  let a : @augnode unit := AugNode (Some (lit "a")) None [] 0 None [] [] None in
  let ls := [Some (lit "/files/f/a[1]"); Some (lit "/files/f/a[2]"); Some (lit "/files/f/b")] in
  let run := augds_aug2yang_augnode_labels_value_r (λ _ _, PcreMatch) schema_of 5 (λ _ _ _, mret tt) a (lit "a") ls (Some 0) in
  ∃ st' r, run (Load (tt, []) 1 [0%Z]) = Ok (st', inr r) ∧ r = [None; None; Some (lit "/files/f/b")] ∧
    ∃ used rest, ls = used ++ rest ∧ r = replicate (length used) None ++ rest ∧
      taken (λ _ _, PcreMatch) schema_of 5 a (lit "a") used rest.
Proof.
  intros sr au ly schema_of a ls run. eexists _, _. split; [vm_compute; reflexivity|]. split; [done|].
  eapply (values_in_order (λ _ _, PcreMatch) schema_of 5 (λ _ _ _, mret tt) a (lit "a") ls (Some 0) (Load (tt, []) 1 [0%Z])).
  vm_compute. reflexivity.
Defined.

(** A container for the leaf-list, and a leaf for the label [b] that stands before the
    container and finds no label. *)
Theorem labels_converted_witness :
  let sr := Build_Sysrepo 1 2 3 4 5 6 7 8 in
  let au : Augeas unit := {| aug_error _ := AUG_NOERROR; aug_match h _ := (h, Some []); aug_get h _ := (h, (1%Z, Some (lit "v"))) |} in
  let ly : Libyang nat := {|
    lyd_new_term d _ _ _ := Some (S d, d); lyd_new_list d _ _ _ := Some (S d, d); lyd_new_inner d _ _ := Some (S d, d);
    lyd_insert_sibling d _ := Some d; lyd_free_tree d _ := d; lyd_child_no_keys _ _ := true; lyd_find_xpath _ _ _ := None;
    lyd_parent _ _ := None; lyd_schema _ _ := 0; lyd_eval_xpath _ _ _ := None |} in
  let schema_of (i : nat) :=
    Schema (lit "n") (match i with 0 => LYS_LEAF | 1 => LYS_CONTAINER | _ => LYS_LEAFLIST end) [] (LY_TYPE_STRING 0) false true None [] in
  let node d s c : @augnode unit := AugNode d None [] s None [] c None in
  let augnodes := [node (Some (lit "b")) 0 []; node None 1 [2]; node (Some (lit "a")) 2 []] in
  let ls := [Some (lit "/files/f/a[1]"); Some (lit "/files/f/a[2]"); Some (lit "/files/f/b")] in
  let run := augds_aug2yang_augnode_labels_r (λ _ _, PcreMatch) schema_of augnodes 5 3 [0; 1] (lit "/files/f") ls (Some 0) in
  ∃ st' r, run (Load (tt, []) 1 [0%Z; 0%Z; 0%Z]) = Ok (st', inr r) ∧ r = [None; None; Some (lit "/files/f/b")] ∧
    conversion (λ _ _, PcreMatch) schema_of augnodes 5 [0; 1] ls r ∧ fewer ls r.
Proof.
  intros sr au ly schema_of node augnodes ls run. eexists _, _. split; [vm_compute; reflexivity|]. split; [done|].
  eapply (labels_converted (λ _ _, PcreMatch) schema_of augnodes 5 3 [0; 1] (lit "/files/f") ls (Some 0)
    (Load (tt, []) 1 [0%Z; 0%Z; 0%Z])).
  vm_compute. reflexivity.
Defined.
