(* ===== verification/SrdsInit.v ===== *)
(** [src/srds_augeas/srdsa_init.c]: the augnodes of a module are made from its schema.
    The schema of libyang is a parameter; the augnodes of all modules are one growing
    array, the arrays of children are lists of indices.  Memory that is freed is
    forgotten, but for the pattern of numbers, whose pointer stays. *)
From stdpp Require Import gmap strings.
From S2P Require Import Prelude CString Common SrdsCommon SrdsLoad.
#[local] Open Scope cstr_scope.

(** The schema: the children and the next sibling of a node, whether it is a key, the
    target of a leafref, [lys_getnext] after a node (the first one after [None]) below
    a parent or at the top of a module, [lys_find_child]. *)
Class LibyangSchema := {
  lysc_node_child : nat → option nat;
  lysc_next : nat → option nat;
  lysc_parent : nat → option nat;
  lysc_is_key : nat → bool;
  lysc_node_lref_target : nat → option nat;
  lys_getnext : option nat → option nat → option nat → option nat;
  lys_find_child : option nat → nat → cstr → option nat }.

(** The set-up of libaugeas. *)
Class AugeasSetup (handle : Type) := {
  aug_init : option handle;
  aug_rm : handle → cstr → handle;
  aug_set : handle → cstr → cstr → handle * Z;
  aug_load : handle → handle }.

Section init.
Context `{Sysrepo} `{Augeas handle} `{AugeasSetup handle} `{LibyangSchema} {pcode : Type}.
Context (schema_of : nat → schema_node) (string_patterns : nat → list (pcode * bool)).
(** [pcre2_compile] *)
Context (pcre2_compile : cstr → option pcode) (fuel : nat).

Abbreviation augnode := (@augnode pcode).
Abbreviation pattern_groups := (list (pcode * bool)).

(** A module with its top-level augnodes. *)
Record augmod := AugMod { module_of : nat; toplevel : list nat }.

(** The handle, the log, the modules, the compiled pattern of numbers with whether it
    was freed, the augnodes. *)
Record auginfo := AugInfo {
  aug : option handle; logged : list cstr; mods : list augmod; pcode_uint64 : option (pcode * bool);
  augnodes : list augnode }.
Abbreviation init_m := (coded auginfo).

Definition raise {A} (e : Z) : init_m A := lift (Err e).

(** ** Patterns *)

Definition set_pcode (p : option (pcode * bool)) (st : auginfo) : auginfo :=
  AugInfo (aug st) (logged st) (mods st) p (augnodes st).

(** The pattern is compiled once; one that was freed must not be used. *)
Definition augds_init_auginfo_compile_pattern (pattern : cstr) : init_m pcode :=
  lift (match pcre2_compile pattern with Some p => Ok p | None => Err SR_ERR_INTERNAL end).

Definition uint64_pattern : init_m pcode := λ st,
  match pcode_uint64 st with
  | Some (p, true) => Fault OutOfBounds
  | Some (p, false) => Ok (st, inr p)
  | None =>
      (p ← augds_init_auginfo_compile_pattern (lit "[0-9]+");
       _ ← change (λ st, Ok (set_pcode (Some (p, false)) st));
       mret p) st
  end.

(** [augds_init_auginfo_add_pattern] and [augds_init_auginfo_add_pattern2]. *)
Definition augds_init_auginfo_add_pattern (code : pcode) (inverted : bool) (pats : list pattern_groups)
  : list pattern_groups := pats ++ [[(code, inverted)]].
Definition augds_init_auginfo_add_pattern2 (ly_patterns : list (pcode * bool)) (pats : list pattern_groups)
  : list pattern_groups := pats ++ [ly_patterns].

Fixpoint union_patterns (types : list basetype) (pats : list pattern_groups) : list pattern_groups * (Z + unit) :=
  match types with
  | [] => (pats, inr tt)
  | LY_TYPE_STRING n :: types' => union_patterns types' (augds_init_auginfo_add_pattern2 (string_patterns n) pats)
  | _ :: _ => (pats, inl SR_ERR_INTERNAL)
  end.

(** The patterns that were added, also when there is an error. *)
Definition augds_init_auginfo_get_pattern (node : nat) (pats : list pattern_groups)
    : init_m (list pattern_groups * (Z + unit)) :=
  let s := schema_of node in
  type ← (if bool_decide (nodetype_of s = LYS_CONTAINER) || bool_decide (nodetype_of s = LYS_LIST) then
            c ← lift (deref (lysc_node_child node));
            _ ← lift (c_assert (is_term (schema_of c)));
            mret (leaf_type (schema_of c))
          else _ ← lift (c_assert (is_term s)); mret (leaf_type s));
  match type with
  | LY_TYPE_STRING n => mret (augds_init_auginfo_add_pattern2 (string_patterns n) pats, inr tt)
  | LY_TYPE_UINT64 =>
      r ← attempt uint64_pattern;
      match r with
      | inr p => mret (augds_init_auginfo_add_pattern p false pats, inr tt)
      | inl e => mret (pats, inl e)
      end
  | LY_TYPE_UNION types => mret (union_patterns types pats)
  | _ => mret (pats, inl SR_ERR_INTERNAL)
  end.

(** ** Case nodes *)

(** [while (lysc_is_key(node))]; then the node is dereferenced. *)
Fixpoint skip_keys (n : nat) (node : option nat) : res nat :=
  i ← deref node;
  if lysc_is_key i then match n with 0 => Fault OutOfFuel | S n' => skip_keys n' (lysc_next i) end else Ok i.

(** The node is required, or it stands for nodes below it.  The case nodes so far, and
    whether a mandatory one was found, are passed on. *)
Abbreviation cases := (list (@case_node pcode) * bool)%type.

Section case.
Context (case_r : nat → cases → init_m (cases * (Z + unit))).

(** The children, until a mandatory node is found. *)
Fixpoint case_children (n : nat) (child : option nat) (acc : cases)
    : init_m (cases * (Z + unit)) :=
  match child with
  | None => mret (acc, inr tt)
  | Some c =>
      match n with
      | 0 => lift (Fault OutOfFuel)
      | S n' =>
          '(acc', r) ← case_r c acc;
          match r with
          | inl e => mret (acc', inl e)
          | inr _ => if (acc' : cases).2 then mret (acc', inr tt) else case_children n' (lysc_next c) acc'
          end
      end
  end.

(** The first nodes of all cases of a choice. *)
Fixpoint case_branches (n : nat) (child : option nat) (acc : cases)
    : init_m (cases * (Z + unit)) :=
  match child with
  | None => mret (acc, inr tt)
  | Some c =>
      match n with
      | 0 => lift (Fault OutOfFuel)
      | S n' =>
          d ← lift (match lysc_node_child c with Some d => Ok d | None => Fault AssertFailed end);
          '(acc', r) ← case_r d acc;
          match r with
          | inl e => mret (acc', inl e)
          | inr _ => case_branches n' (lysc_next c) acc'
          end
      end
  end.

(** A node with a data path. *)
Definition required_node (node : nat) (ty : augds_ext_node_type) (dpath : cstr) (acc : cases)
    : init_m (cases * (Z + unit)) :=
  let s := schema_of node in
  let '(cs, found) := acc in
  if bool_decide (nodetype_of s = LYS_CONTAINER) then
    match ty with
    | AUGDS_EXT_NODE_LABEL =>
        c ← lift (deref (lys_getnext None (Some node) None));
        '(pats, r) ← augds_init_auginfo_get_pattern c [];
        _ ← (match r with inr _ => lift (c_assert (negb (bool_decide (length pats = 0)))) | inl _ => mret tt end);
        mret (cs ++ [CaseNode dpath pats], true, r)
    | _ =>
        _ ← lift (c_assert (match ty with AUGDS_EXT_NODE_VALUE => true | _ => false end));
        mret (cs ++ [CaseNode dpath []], true, inr tt)
    end
  else
    _ ← lift (c_assert (is_term s && match ty with AUGDS_EXT_NODE_VALUE => true | _ => false end));
    mret (cs ++ [CaseNode dpath []], found || mandatory s, inr tt).

Definition case_body (node : nat) (acc : cases)
    : init_m (cases * (Z + unit)) :=
  node ← lift (skip_keys fuel (Some node));
  '(ty, dpath, _) ← lift (augds_node_get_type (schema_of node));
  match dpath with
  | Some dpath => required_node node ty dpath acc
  | None =>
      match nodetype_of (schema_of node) with
      | LYS_LEAF =>
          match lysc_node_lref_target node with
          | Some t => case_r t acc
          | None => mret (acc, inl SR_ERR_INTERNAL)
          end
      | LYS_LIST | LYS_CONTAINER => case_children fuel (lysc_node_child node) acc
      | LYS_CHOICE => case_branches fuel (lysc_node_child node) acc
      | _ => mret (acc, inl SR_ERR_INTERNAL)
      end
  end.
End case.

Fixpoint augds_init_auginfo_case (depth : nat) (node : nat) (acc : cases)
    : init_m (cases * (Z + unit)) :=
  match depth with
  | 0 => lift (Fault OutOfFuel)
  | S depth' => case_body (augds_init_auginfo_case depth') node acc
  end.

(** ** Augnodes *)

Definition set_augnodes (l : list augnode) (st : auginfo) : auginfo :=
  AugInfo (aug st) (logged st) (mods st) (pcode_uint64 st) l.

Definition new_augnode (a : augnode) : init_m nat := λ st,
  Ok (set_augnodes (augnodes st ++ [a]) st, inr (length (augnodes st))).
Definition update (i : nat) (f : augnode → augnode) : init_m unit :=
  change (λ st, a ← fetch (augnodes st) i; l ← store (augnodes st) i (f a); Ok (set_augnodes l st)).

Definition with_patterns (p : list pattern_groups) (a : augnode) : augnode :=
  AugNode (data_path a) (value_path a) (case_nodes a) (schema a) (schema2 a) p (child a) (parent a).
Definition with_cases (c : list (@case_node pcode)) (a : augnode) : augnode :=
  AugNode (data_path a) (value_path a) c (schema a) (schema2 a) (patterns a) (child a) (parent a).
Definition with_child (c : list nat) (a : augnode) : augnode :=
  AugNode (data_path a) (value_path a) (case_nodes a) (schema a) (schema2 a) (patterns a) c (parent a).
Definition with_parent (p : nat) (a : augnode) : augnode :=
  AugNode (data_path a) (value_path a) (case_nodes a) (schema a) (schema2 a) (patterns a) (child a) (Some p).

Definition is_inner (s : schema_node) : bool :=
  bool_decide (nodetype_of s = LYS_CONTAINER) || bool_decide (nodetype_of s = LYS_LIST).

(** The augnode of a schema node, without its children; the errors of the patterns
    and of the case nodes are not looked at. *)
Definition init_augnode (m : nat) (up : option nat) (node : nat) (ty : augds_ext_node_type) (dpath vpath : option cstr)
    : init_m nat :=
  let s := schema_of node in
  node2 ← lift (match vpath with
                | None => Ok None
                | Some v =>
                    match lys_find_child (if is_inner s then Some node else up) m v with
                    | Some n => Ok (Some n)
                    | None => Err SR_ERR_INTERNAL
                    end
                end);
  i ← new_augnode (AugNode dpath vpath [] node node2 [] [] None);
  _ ← match ty with
      | AUGDS_EXT_NODE_LABEL => '(pats, _) ← augds_init_auginfo_get_pattern node []; update i (with_patterns pats)
      | AUGDS_EXT_NODE_NONE =>
          match lysc_parent node with
          | Some p =>
              if bool_decide (nodetype_of (schema_of p) = LYS_CASE) then
                '(cs, _, _) ← augds_init_auginfo_case fuel node ([], false); update i (with_cases cs)
              else mret tt
          | None => mret tt
          end
      | _ => mret tt
      end;
  mret i.

(** The children get their parent when the array of the parents does not move any more. *)
Fixpoint set_parent_of (p : nat) (cs : list nat) : init_m unit :=
  match cs with
  | [] => mret tt
  | c :: cs' => _ ← update c (with_parent p); set_parent_of p cs'
  end.
Fixpoint set_parents (l : list nat) : init_m unit :=
  match l with
  | [] => mret tt
  | i :: l' => a ← look (λ st, fetch (augnodes st) i); _ ← set_parent_of i (child a); set_parents l'
  end.

Section siblings.
Context (children_r : nat → init_m (list nat)).

(** The nodes behind [last] below the schema node [up]. *)
Fixpoint init_siblings (n : nat) (m : nat) (up last : option nat) : init_m (list nat) :=
  match lys_getnext last up (Some m) with
  | None => mret []
  | Some node =>
      match n with
      | 0 => lift (Fault OutOfFuel)
      | S n' =>
          let s := schema_of node in
          '(ty, dpath, vpath) ← lift (augds_node_get_type s);
          if bool_decide (dpath = None) && is_term s && negb (is_leafref (leaf_type s)) then
            init_siblings n' m up (Some node)
          else
            i ← init_augnode m up node ty dpath vpath;
            cs ← children_r node;
            _ ← update i (with_child cs);
            l ← init_siblings n' m up (Some node);
            mret (i :: l)
      end
  end.
End siblings.

Fixpoint augds_init_auginfo_siblings_r (depth : nat) (m : nat) (up : option nat) : init_m (list nat) :=
  match depth with
  | 0 => lift (Fault OutOfFuel)
  | S depth' =>
      l ← init_siblings (λ node, augds_init_auginfo_siblings_r depth' m (Some node)) fuel m up None;
      _ ← set_parents l;
      mret l
  end.

(** ** Modules *)

Context (module_exts : nat → list ext_instance).

(** [pcre2_code_free] of a pattern that was freed before is an error; the pointer
    stays. *)
Definition augds_destroy : init_m unit :=
  change (λ st, match pcode_uint64 st with
                | Some (_, true) => Fault OutOfBounds
                | Some (p, false) => Ok (AugInfo None (logged st) [] (Some (p, true)) [])
                | None => Ok (AugInfo None (logged st) [] None [])
                end).

(** [augds_check_erraug] of the handle. *)
Definition check_aug : init_m unit := λ st,
  match aug st with
  | None => Ok (AugInfo None (logged st ++ [LOG_INIT]) (mods st) (pcode_uint64 st) (augnodes st), inl SR_ERR_OPERATION_FAILED)
  | Some h =>
      '(h', log, r) ← augds_check_erraug fuel fuel (h, logged st);
      Ok (AugInfo (Some h') log (mods st) (pcode_uint64 st) (augnodes st), r)
  end.
Definition set_aug (f : handle → handle * Z) : init_m Z := λ st,
  h ← deref (aug st);
  let '(h', r) := f h in Ok (AugInfo (Some h') (logged st) (mods st) (pcode_uint64 st) (augnodes st), inr r).

(** The handle is opened when there is none. *)
Definition open_aug : init_m unit := λ st,
  match aug st with
  | Some _ => Ok (st, inr tt)
  | None =>
      (_ ← change (λ st, Ok (AugInfo aug_init (logged st) (mods st) (pcode_uint64 st) (augnodes st)));
       _ ← check_aug;
       _ ← set_aug (λ h, (aug_rm h (lit "/augeas/load/*/lens"), 0%Z));
       mret tt) st
  end.

Fixpoint find_augmod (l : list augmod) (m : nat) (k : nat) : option nat :=
  match l with [] => None | x :: l' => if (module_of x =? m)%nat then Some k else find_augmod l' m (S k) end.

Definition load_module (m : nat) : init_m unit :=
  lens ← lift (augds_get_lens (module_exts m));
  lens ← lift (deref lens);
  r ← set_aug (λ h, aug_set h (lit "/augeas/load/" ++ lens ++ lit "/lens") (lit "@" ++ lens));
  _ ← (if (r =? -1)%Z then
         e ← attempt check_aug;
         match e with inl e => lift (Err e) | inr _ => lift (Fault AssertFailed) end
       else mret tt);
  _ ← set_aug (λ h, (aug_load h, 0%Z));
  check_aug.

Definition add_module (m : nat) : init_m nat :=
  k ← look (λ st, Ok (length (mods st)));
  _ ← change (λ st, Ok (AugInfo (aug st) (logged st) (mods st ++ [AugMod m []]) (pcode_uint64 st) (augnodes st)));
  l ← augds_init_auginfo_siblings_r fuel m None;
  _ ← change (λ st, Ok (AugInfo (aug st) (logged st) (<[k := AugMod m l]> (mods st)) (pcode_uint64 st) (augnodes st)));
  mret k.

(** The index of the module; an error destroys everything. *)
Definition augds_init (m : nat) : init_m nat :=
  r ← attempt (_ ← open_aug;
               known ← look (λ st, Ok (find_augmod (mods st) m 0));
               match known with
               | Some k => mret k
               | None => _ ← load_module m; add_module m
               end);
  match r with
  | inr k => mret k
  | inl e => _ ← augds_destroy; lift (Err e)
  end.
End init.
