(* ===== verification/SrdsInitTheorems.v ===== *)
(** Theorems on the augnodes of a module: they are the tree of its schema. *)
From stdpp Require Import gmap strings.
From S2P Require Import Prelude CString Common SrdsCommon SrdsLoad SrdsInit.
#[local] Open Scope cstr_scope.

Section init.
Context `{SR : Sysrepo} `{AU : Augeas handle} `{AS : AugeasSetup handle} `{LS : LibyangSchema} {pcode : Type}.
Context (schema_of : nat → schema_node) (string_patterns : nat → list (pcode * bool)).
Context (pcre2_compile : cstr → option pcode) (fuel : nat).
Abbreviation augnode := (@augnode pcode).
Abbreviation init_m := (coded (@auginfo handle pcode)).

(** ** Computations that leave the augnodes as they are *)

Definition same_nodes {A} (p : init_m A) : Prop :=
  ∀ st st' r, p st = Ok (st', r) → augnodes st' = augnodes st.

Section same.
Context {A B : Type}.
Lemma same_ret (a : A) : same_nodes (mret a).
Proof. by intros st st' r [= <- _]. Qed.
Lemma same_lift (r : res A) : same_nodes (lift r).
Proof. intros st st' x. unfold lift. by destruct r; intros [= <- _]. Qed.
Lemma same_bind (p : init_m A) (k : A → init_m B) : same_nodes p → (∀ a, same_nodes (k a)) → same_nodes (p ≫= k).
Proof.
  intros Hp Hk st st' r. unfold mbind, coded_bind. destruct (p st) as [[st1 [e|a]]| |] eqn:E; [|..]; try done.
  - intros [= <- _]. by eapply Hp.
  - intros E'. transitivity (augnodes st1); [by eapply Hk|by eapply Hp].
Qed.
Lemma same_attempt (p : init_m A) : same_nodes p → same_nodes (attempt p).
Proof. intros Hp st st' r. unfold attempt. destruct (p st) as [[]| |] eqn:E; [|done..]. intros [= <- _]. by eapply Hp. Qed.
End same.

Create HintDb same discriminated.
#[local] Hint Constants Opaque : same.
Ltac same_step :=
  match goal with
  | |- same_nodes (_ ≫= _) => apply same_bind; [|intros]
  | |- same_nodes (mret _) => apply same_ret
  | |- same_nodes (lift _) => apply same_lift
  | |- same_nodes (attempt _) => apply same_attempt
  | |- same_nodes (let '(_, _) := ?x in _) => destruct x
  | |- same_nodes (match ?x with _ => _ end) => destruct x
  | |- same_nodes _ => solve [auto with same]
  end.
Ltac same := intros; repeat same_step.

Lemma same_uint64 : same_nodes (uint64_pattern (handle:=handle) pcre2_compile).
Proof.
  intros st st' r. unfold uint64_pattern, augds_init_auginfo_compile_pattern.
  destruct (pcode_uint64 st) as [[p []]|]; [done|by intros [= <- _]|].
  unfold mbind, coded_bind, lift. destruct (pcre2_compile _); [|by intros [= <- _]]. cbn. by intros [= <- _].
Qed.
#[local] Hint Resolve same_uint64 : same.

Lemma same_pattern node pats :
  same_nodes (augds_init_auginfo_get_pattern (handle:=handle) schema_of string_patterns pcre2_compile node pats).
Proof. unfold augds_init_auginfo_get_pattern. same. Qed.
#[local] Hint Resolve same_pattern : same.

Lemma same_case depth node acc :
  same_nodes (augds_init_auginfo_case (handle:=handle) schema_of string_patterns pcre2_compile fuel depth node acc).
Proof.
  revert node acc. induction depth as [|depth IH]; intros; cbn [augds_init_auginfo_case]; [same|].
  unfold case_body, required_node.
  assert (∀ n c a, same_nodes (case_children
    (augds_init_auginfo_case (handle:=handle) schema_of string_patterns pcre2_compile fuel depth) n c a)) as Hc.
  { induction n; intros [|] a; cbn [case_children]; same. }
  assert (∀ n c a, same_nodes (case_branches
    (augds_init_auginfo_case (handle:=handle) schema_of string_patterns pcre2_compile fuel depth) n c a)) as Hb.
  { induction n; intros [|] a; cbn [case_branches]; same. }
  same.
Qed.
#[local] Hint Resolve same_case : same.

(** ** The tree of augnodes *)

Abbreviation siblings_r :=
  (augds_init_auginfo_siblings_r (handle:=handle) schema_of string_patterns pcre2_compile fuel).
Abbreviation next_augnode := (init_augnode (handle:=handle) schema_of string_patterns pcre2_compile fuel).

(** The augnode has the paths of the schema node. *)
Definition describes (a : augnode) (node : nat) : Prop :=
  schema a = node ∧ ∃ ty, augds_node_get_type (schema_of node) = Ok (ty, data_path a, value_path a).

(** A node that gets no augnode: a term without data path that is not a leafref. *)
Definition skipped (node : nat) : Prop :=
  ∃ ty vpath, augds_node_get_type (schema_of node) = Ok (ty, None, vpath) ∧
    is_term (schema_of node) = true ∧ is_leafref (leaf_type (schema_of node)) = false.

(** The nodes behind [last] below [up] that get an augnode. *)
Inductive nodes_after (m : nat) (up : option nat) : option nat → list nat → Prop :=
| after_end last : lys_getnext last up (Some m) = None → nodes_after m up last []
| after_skip last node ns :
    lys_getnext last up (Some m) = Some node → skipped node → nodes_after m up (Some node) ns →
    nodes_after m up last ns
| after_node last node ns :
    lys_getnext last up (Some m) = Some node → ¬ skipped node → nodes_after m up (Some node) ns →
    nodes_after m up last (node :: ns).

(** The augnodes [l] from index [b] on are the trees of the schema nodes [ns]: their
    roots are [roots], with the parent [p]; every augnode has the children of its
    schema node, and they have it as parent. *)
Inductive placed (m : nat) : nat → option nat → list nat → list nat → list augnode → Prop :=
| placed_nil b p : placed m b p [] [] []
| placed_cons b p node ns a cs roots sub rest :
    describes a node → parent a = p → nodes_after m (Some node) None cs →
    placed m (S b) (Some b) cs (child a) sub → placed m (S b + length sub) p ns roots rest →
    placed m b p (node :: ns) (b :: roots) (a :: sub ++ rest).

(** The same before the children of the roots get their parent. *)
Inductive loose (m : nat) : nat → list nat → list nat → list augnode → Prop :=
| loose_nil b : loose m b [] [] []
| loose_cons b node ns a cs roots sub rest :
    describes a node → parent a = None → nodes_after m (Some node) None cs →
    placed m (S b) None cs (child a) sub → loose m (S b + length sub) ns roots rest →
    loose m b (node :: ns) (b :: roots) (a :: sub ++ rest).

Lemma update_inv i (f : augnode → augnode) (st st' : @auginfo handle pcode) r pre a post :
  augnodes st = pre ++ a :: post → i = length pre → update i f st = Ok (st', r) →
  augnodes st' = pre ++ f a :: post ∧ r = inr tt.
Proof.
  intros Hl -> Hu. unfold update, change in Hu. rewrite Hl in Hu.
  rewrite (fetch_Some _ _ a), bind_Ok in Hu by (by apply lookup_app_mid).
  rewrite store_Ok in Hu by (rewrite length_app; cbn; lia). cbn in Hu. injection Hu as <- <-. cbn.
  by rewrite insert_app_mid.
Qed.

Lemma augnode_appended m up node ty dpath vpath (st st' : @auginfo handle pcode) i :
  augds_node_get_type (schema_of node) = Ok (ty, dpath, vpath) →
  next_augnode m up node ty dpath vpath st = Ok (st', inr i) →
  i = length (augnodes st) ∧ ∃ a, augnodes st' = augnodes st ++ [a] ∧ describes a node ∧ child a = [] ∧ parent a = None.
Proof.
  intros Hty Hi. unfold init_augnode in Hi. cbv zeta in Hi.
  apply coded_bind_inv in Hi as (st1 & node2 & [_ ->]%lift_inv & Hi).
  apply coded_bind_inv in Hi as (st2 & i' & Hn & Hi). injection Hn as <- <-.
  apply coded_bind_inv in Hi as (st3 & u & Hu & Hi). apply mret_inv in Hi as [-> ->].
  split; [done|]. set (a0 := AugNode _ _ _ _ _ _ _ _) in Hu.
  assert (describes a0 node ∧ child a0 = [] ∧ parent a0 = None) as Ha0 by (split_and!; [split; eauto|done..]).
  set (st2 := set_augnodes _ st) in Hu. assert (augnodes st2 = augnodes st ++ a0 :: []) as Hst2 by done.
  assert (∀ stx f r (st4 : @auginfo handle pcode), augnodes stx = augnodes st2 →
    update (length (augnodes st)) f stx = Ok (st4, r) → augnodes st4 = augnodes st ++ [f a0]) as Hupd.
  { intros stx f r st4 Hx Hf. rewrite Hst2 in Hx. by eapply update_inv in Hf as [? _]. }
  destruct ty.
  - destruct (lysc_parent node) as [p|]; [|by apply mret_inv in Hu as [_ ->]; exists a0; done].
    case_bool_decide; [|by apply mret_inv in Hu as [_ ->]; exists a0; done].
    apply coded_bind_inv in Hu as (st4 & [[cs fd] r] & Hc & Hu). apply same_case in Hc.
    exists (with_cases cs a0). split; [by eapply (Hupd st4 (with_cases cs))|]. exact Ha0.
  - apply mret_inv in Hu as [_ ->]; exists a0; done.
  - apply coded_bind_inv in Hu as (st4 & [pats r] & Hc & Hu). apply same_pattern in Hc.
    exists (with_patterns pats a0). split; [by eapply (Hupd st4 (with_patterns pats))|]. exact Ha0.
  - apply mret_inv in Hu as [_ ->]; exists a0; done.
  - apply mret_inv in Hu as [_ ->]; exists a0; done.
Qed.

Lemma set_parent_of_placed m b q ns roots l :
  placed m b q ns roots l → ∀ p pre post (st st' : @auginfo handle pcode) u,
  augnodes st = pre ++ l ++ post → b = length pre → set_parent_of p roots st = Ok (st', inr u) →
  ∃ l', augnodes st' = pre ++ l' ++ post ∧ length l' = length l ∧ placed m b (Some p) ns roots l'.
Proof.
  induction 1 as [b q|b q node ns a cs roots sub rest Hd Hq Hns Hsub _ Hrest IH]; intros p pre post st st' u Hst Hb Hs.
  - apply mret_inv in Hs as [_ ->]. exists []. split_and!; [done..|constructor].
  - cbn [set_parent_of] in Hs. apply coded_bind_inv in Hs as (st1 & v & Hu & Hs).
    apply (update_inv _ _ _ _ _ pre a (sub ++ rest ++ post)) in Hu as [H1 _];
      [|by rewrite Hst; cbn; rewrite <- app_assoc|done].
    apply (IH p (pre ++ with_parent p a :: sub) post) in Hs as (l' & Hl & Hlen & Hp).
    + exists (with_parent p a :: sub ++ l'). rewrite Hl. split; [by rewrite <- !app_assoc; cbn; rewrite <- app_assoc|].
      split; [cbn; rewrite !length_app; lia|]. by apply (placed_cons m b (Some p) node ns _ cs).
    + rewrite H1, <- app_assoc. done.
    + rewrite length_app. cbn. lia.
Qed.

Lemma set_parents_placed m b ns roots l :
  loose m b ns roots l → ∀ pre post (st st' : @auginfo handle pcode) u,
  augnodes st = pre ++ l ++ post → b = length pre → set_parents roots st = Ok (st', inr u) →
  ∃ l', augnodes st' = pre ++ l' ++ post ∧ length l' = length l ∧ placed m b None ns roots l'.
Proof.
  induction 1 as [b|b node ns a cs roots sub rest Hd Hq Hns Hsub Hrest IH]; intros pre post st st' u Hst Hb Hs.
  - apply mret_inv in Hs as [_ ->]. exists []. split_and!; [done..|constructor].
  - cbn [set_parents] in Hs. apply coded_bind_inv in Hs as (st1 & a' & Ha & Hs).
    unfold look in Ha. apply lift_inv in Ha as [Ha ->]. rewrite Hst in Ha. cbn [app] in Ha.
    rewrite (fetch_Some _ _ a) in Ha by (by apply lookup_app_mid). injection Ha as <-.
    apply coded_bind_inv in Hs as (st1 & v & Hu & Hs).
    destruct (set_parent_of_placed _ _ _ _ _ _ Hsub b (pre ++ [a]) (rest ++ post) st st1 v) as (sub' & H1 & Hlen & Hp).
    { rewrite Hst, <- app_assoc. cbn. by rewrite <- app_assoc. }
    { rewrite length_app. cbn. lia. }
    { done. }
    destruct (IH (pre ++ a :: sub') post st1 st' u) as (l' & Hl & Hlen' & Hp').
    { by rewrite H1, <- !app_assoc. }
    { rewrite length_app. cbn. lia. }
    { done. }
    exists (a :: sub' ++ l'). rewrite Hl. split; [by rewrite <- !app_assoc; cbn; rewrite <- app_assoc|].
    split; [cbn; rewrite !length_app; lia|]. apply (placed_cons m b None node ns a cs); [done..|by rewrite Hlen].
Qed.

(** What the creation of a level gives. *)
Definition creates (P : nat → list nat → list nat → list augnode → Prop) (m : nat) (up last : option nat) (p : init_m (list nat)) : Prop :=
  ∀ st st' l, p st = Ok (st', inr l) →
  ∃ ns seg, nodes_after m up last ns ∧ augnodes st' = augnodes st ++ seg ∧ P (length (augnodes st)) ns l seg.

Lemma siblings_loose m children_r n up last :
  (∀ node, creates (λ b, placed m b None) m (Some node) None (children_r node)) →
  creates (loose m) m up last (init_siblings schema_of string_patterns pcre2_compile fuel children_r n m up last).
Proof.
  intros Hrec. revert last. induction n as [|n IH]; intros last st st' l Hs; cbn [init_siblings] in Hs.
  all: destruct (lys_getnext last up (Some m)) as [node|] eqn:Hnext.
  2,4: apply mret_inv in Hs as [-> ->]; exists [], []; split_and!; [by constructor|by rewrite app_nil_r|constructor].
  - by apply lift_inv in Hs as [].
  - apply coded_bind_inv in Hs as (st0 & [[ty dpath] vpath] & [Hty ->]%lift_inv & Hs).
    destruct (_ && _) eqn:Hskip.
    + apply IH in Hs as (ns & seg & Hns & Hseg & Hl). exists ns, seg. split_and!; [|done|done].
      apply (after_skip _ _ _ node); [done| |done]. rewrite !andb_true_iff, negb_true_iff in Hskip.
      destruct Hskip as [[->%bool_decide_eq_true Ht] Hr]. by exists ty, vpath.
    + apply coded_bind_inv in Hs as (st1 & i & Hi & Hs).
      apply (augnode_appended m up node) in Hi as (-> & a & H1 & Hd & Hch & Hpar); [|done].
      apply coded_bind_inv in Hs as (st2 & cl & Hc & Hs). apply Hrec in Hc as (cs & sub & Hcs & H2' & Hsub).
      apply coded_bind_inv in Hs as (st3 & u & Hu & Hs). rewrite H1 in H2'.
      apply (update_inv _ _ _ _ _ (augnodes st) a sub) in Hu as [H3 _]; [|by rewrite H2', <- app_assoc|done].
      apply coded_bind_inv in Hs as (st4 & l' & Hl & Hs). apply mret_inv in Hs as [-> ->].
      apply IH in Hl as (ns & rest & Hns & H4 & Hl).
      exists (node :: ns), (with_child cl a :: sub ++ rest). split_and!.
      * apply after_node; [done| |done]. intros (ty' & v' & E & Ht & Hr). rewrite Hty in E. injection E as -> -> ->.
        by rewrite bool_decide_true, Ht, Hr in Hskip.
      * rewrite H4, H3, <- app_assoc. done.
      * apply (loose_cons m _ node ns _ cs); [exact Hd|exact Hpar|done| |].
        -- rewrite H1, length_app, Nat.add_1_r in Hsub. exact Hsub.
        -- rewrite H3, length_app in Hl. cbn in Hl.
           by replace (S (length (augnodes st)) + length sub)%nat with (length (augnodes st) + S (length sub))%nat by lia.
Qed.

Lemma siblings_placed depth m up : creates (λ b, placed m b None) m up None (siblings_r depth m up).
Proof.
  revert up. induction depth as [|depth IH]; intros up st st' l Hs; cbn [augds_init_auginfo_siblings_r] in Hs.
  - by apply lift_inv in Hs as [].
  - apply coded_bind_inv in Hs as (st1 & l1 & Hl & Hs).
    apply siblings_loose in Hl as (ns & seg & Hns & Hseg & Hl); [|intros node; apply IH].
    apply coded_bind_inv in Hs as (st2 & u & Hu & Hs). apply mret_inv in Hs as [-> ->].
    apply (set_parents_placed _ _ _ _ _ Hl (augnodes st) []) in Hu as (l' & H' & _ & Hp);
      [|by rewrite app_nil_r|done].
    exists ns, l'. rewrite app_nil_r in H'. done.
Qed.

(** C36: The augnodes that are made for the nodes below a schema node are appended to
    the others, one tree for each node that is not skipped, in the order of the
    schema: every augnode has the paths of its schema node, its children are exactly
    the augnodes of the children of the schema node, and they point back to it. *)
Theorem augnodes_are_schema_tree depth m up st st' l :
  siblings_r depth m up st = Ok (st', inr l) →
  ∃ ns seg, nodes_after m up None ns ∧ augnodes st' = augnodes st ++ seg ∧
    placed m (length (augnodes st)) None ns l seg.
Proof. apply siblings_placed. Qed.
End init.

(** The list of the files of a module, with its key and a container with a leaf. *)
Theorem augnodes_are_schema_tree_witness :
  let sr := Build_Sysrepo 1 2 3 4 5 6 7 8 in
  let setup : AugeasSetup unit := {| aug_init := Some tt; aug_rm h _ := h; aug_set h _ _ := (h, 0%Z); aug_load h := h |} in
  let ly : LibyangSchema := {|
    lysc_node_child n := match n with 0 => Some 1 | 2 => Some 3 | _ => None end;
    lysc_next n := match n with 1 => Some 2 | _ => None end;
    lysc_parent n := match n with 1 | 2 => Some 0 | 3 => Some 2 | _ => None end;
    lysc_is_key n := (n =? 1)%nat; lysc_node_lref_target _ := None;
    lys_getnext last up _ := match up, last with
      | None, None => Some 0 | Some 0, None => Some 1 | Some 0, Some 1 => Some 2 | Some 2, None => Some 3 | _, _ => None end;
    lys_find_child _ _ _ := None |} in
  let ext p := [Ext (lit "augeas-extension") (lit "data-path") (Some (lit p))] in
  let schema_of n := match n with
    | 0 => Schema (lit "m") LYS_LIST [] LY_TYPE_OTHER false false (Some (lit "config-file")) []
    | 1 => Schema (lit "config-file") LYS_LEAF [] (LY_TYPE_STRING 0) false true None []
    | 2 => Schema (lit "c") LYS_CONTAINER (ext "c"%string) LY_TYPE_OTHER false true (Some (lit "v")) []
    | _ => Schema (lit "v") LYS_LEAF (ext "v"%string) (LY_TYPE_STRING 0) false true None [] end in
  let run := augds_init_auginfo_siblings_r schema_of (λ _, []) (λ _, Some tt) 5 4 0 None in
  let st := AugInfo (Some tt) [] [] None [] in
  ∃ st' l, run st = Ok (st', inr l) ∧ l = [0] ∧ (child <$> augnodes st') = [[1]; [2]; []] ∧
    ∃ ns seg, nodes_after schema_of 0 None None ns ∧ augnodes st' = augnodes st ++ seg ∧
      placed schema_of 0 (length (augnodes st)) None ns l seg.
Proof.
  intros sr setup ly ext schema_of run st. eexists _, _. split; [vm_compute; reflexivity|]. split; [done|]. split; [done|].
  apply (augnodes_are_schema_tree schema_of (λ _, []) (λ _, Some tt) 5 4 0 None st).
  vm_compute. reflexivity.
Defined.
