(* ===== verification/SrdsStore.v ===== *)
(** [src/srds_augeas/srdsa_store.c]: a change of YANG data (a diff of libyang) is
    applied to the data of libaugeas.  The trees of libyang, the diff and the data that
    follow it, are one parameter with numbers for the nodes; what libaugeas does with a
    path is a parameter, too. *)
From stdpp Require Import gmap strings.
From S2P Require Import Prelude CString Common Ident Idents SrdsCommon.
#[local] Open Scope cstr_scope.

(** [augds_diff_op] *)
Inductive augds_diff_op :=
  AUGDS_OP_UNKNOWN | AUGDS_OP_INSERT | AUGDS_OP_DELETE | AUGDS_OP_REPLACE | AUGDS_OP_RENAME | AUGDS_OP_MOVE | AUGDS_OP_NONE.

#[export] Instance augds_diff_op_eq_dec : EqDecision augds_diff_op.
Proof. solve_decision. Defined.

(** ** Paths *)

(** The last label of a path without its index. *)
Definition augds_store_diff_path_label (aug_path : cstr) : cstr :=
  let label := match strrchr aug_path "/" with Some p => drop (S p) aug_path | None => aug_path end in
  match strrchr label "[" with Some p => take p label | None => label end.

(** The same path with the next index.  [assert(p[0] = ']')] writes the bracket behind
    the index into the path itself, which comes first. *)
Definition augds_store_diff_path_next_idx (aug_path : cstr) : res (cstr * cstr) :=
  match strrchr aug_path "[" with
  | None => Fault AssertFailed
  | Some p =>
      let '(idx, rest) := strtoul (drop (S p) aug_path) in
      let idx := u32 idx in
      match rest with
      | [] => Fault OutOfBounds
      | _ :: rest' =>
          let written := take (length aug_path - length rest) aug_path ++ "]"%char :: rest' in
          Ok (written, take (S p) aug_path ++ decimal (u32 (idx + 1)) ++ lit "]")
      end
  end.

(** The loop over the path: a comma gets a backslash; [j] is the length of the copy,
    which does not exist before the first comma. *)
Fixpoint encode_loop (path rest : cstr) (i : nat) (path_d : option memory) (j : nat) : res (option memory * nat) :=
  match rest with
  | [] => Ok (path_d, j)
  | c :: rest' =>
      if c =c "," then
        m ← (if (j =? 0)%nat then Ok (malloc (length path + 2))
             else m ← deref path_d; s ← read_string m; Ok (realloc m (length s + 2)));
        '(m, j) ← (if (j =? 0)%nat && (0 <? i)%nat then m ← write_chars m 0 (take i path); Ok (m, i) else Ok (m, j));
        m ← write_char m j BSLASH;
        m ← write_char m (S j) c;
        encode_loop path rest' (S i) (Some m) (S (S j))
      else if (0 <? j)%nat then
        m ← deref path_d;
        m ← write_char m j c;
        encode_loop path rest' (S i) (Some m) (S j)
      else encode_loop path rest' (S i) path_d j
  end.

(** The string that the path is after the preparation; [context] is the value of
    [/augeas/context], which is asked for when the path starts with a digit or [$]. *)
Definition needs_context (aug_path : cstr) : bool := isdigit (at_ aug_path 0) || (at_ aug_path 0 =c "$").

(** [None] when the path can be used as it is. *)
Definition prepare_with (context : option cstr) (aug_path : cstr) : res (option cstr) :=
  '(path_d, j) ← (match context with
                  | Some val =>
                      m ← write_chars (malloc (length val + 1 + length aug_path + 1)) 0 (val ++ lit "/" ++ [NUL]);
                      Ok (Some m, S (length val))
                  | None => Ok (None, 0)
                  end);
  '(path_d, j) ← encode_loop aug_path aug_path 0 path_d j;
  match path_d with
  | None => Ok None
  | Some m => m ← write_char m j NUL; s ← read_string m; Ok (Some s)
  end.

(** ** Trees of libyang *)

(** A list ends with [None]; [lyd_prev] is the node in front, if there is one.  A path
    is found, found up to a node, not found, or an error. *)
Inductive found := Found (n : nat) | Incomplete (n : nat) | NotFound | PathError.

Class DataTree (D : Type) := {
  node_schema : D → nat → nat;
  parent_of : D → nat → option nat;
  child_of : D → nat → option nat;
  next_of : D → nat → option nat;
  prev_of : D → nat → option nat;
  first_sibling : D → nat → nat;
  no_key_child : D → nat → option nat;
  (* the module, the name and the value of an annotation *)
  metas : D → nat → list (cstr * cstr * cstr);
  get_value : D → nat → cstr;
  (* whether the type of the value is empty *)
  empty_value : D → nat → bool;
  std_path : D → nat → cstr;
  no_last_pred_path : D → nat → cstr;
  find_path : D → option nat → cstr → found;
  find_xpath : D → option nat → cstr → option (list nat);
  find_sibling_val : D → nat → nat → option cstr → option nat;
  dup_single : D → nat → option nat → option (D * nat);
  insert_sibling : D → option nat → nat → option D;
  insert_before : D → nat → nat → option D;
  insert_after : D → nat → nat → option D;
  delete_tree : D → nat → D;
  change_term : D → nat → cstr → option D }.

(** The schema besides [schema_node]: the first child, the parent, whether a node is
    ordered by the user, the nodes below in depth-first order, the extensions of the
    module. *)
Class StoreSchema := {
  schema_child : nat → option nat;
  schema_parent : nat → option nat;
  userordered : nat → bool;
  descendants_of : nat → list nat;
  module_exts_of : nat → list ext_instance }.

(** The changes of the data of libaugeas; -1 is an error, [aug_rm] gives the number of
    removed nodes. *)
Class AugeasChanges (handle : Type) := {
  set : handle → cstr → option cstr → handle * Z;
  insert : handle → cstr → cstr → bool → handle * Z;
  rename : handle → cstr → cstr → handle * Z;
  mv : handle → cstr → cstr → handle * Z;
  rm : handle → cstr → handle * Z }.

Section store.
Context `{Sysrepo} `{Augeas handle} `{AugeasChanges handle} `{DataTree D} `{StoreSchema}.
Context (schema_of : nat → schema_node) (fuel : nat).

(** The handle with the log, and the trees. *)
Record store_state := Store { session : handle * list cstr; trees : D }.
Abbreviation store_m := (coded store_state).

Definition on_session {A} (m : coded (handle * list cstr) A) : store_m A := λ st,
  match m (session st) with
  | Ok (s, r) => Ok (Store s (trees st), r)
  | Err e => Err e
  | Fault f => Fault f
  end.
Definition read {A} (f : D → A) : store_m A := look (λ st, Ok (f (trees st))).
Definition on_trees (f : D → option D) : store_m unit := λ st,
  match f (trees st) with
  | Some d => Ok (Store (session st) d, inr tt)
  | None => Ok (st, inl SR_ERR_LY)
  end.
Definition node_of (n : nat) : store_m schema_node := read (λ d, schema_of (node_schema d n)).
Definition type_of (n : nat) : store_m (augds_ext_node_type * option cstr * option cstr) :=
  s ← node_of n; lift (augds_node_get_type s).
Definition name_of (n : nat) : store_m cstr := s ← node_of n; mret (schema_name s).

(** An error of libyang: the context is that of the data, which must not be NULL. *)
Definition errly {A} (data : option nat) : res A := _ ← deref data; Err SR_ERR_LY.

Definition is_label (ty : augds_ext_node_type) : bool := match ty with AUGDS_EXT_NODE_LABEL => true | _ => false end.
Definition has_anchor_type (ty : augds_ext_node_type) : bool :=
  match ty with AUGDS_EXT_NODE_VALUE | AUGDS_EXT_NODE_LABEL => true | _ => false end.

(** ** Operations *)

(** A string without an operation is an internal error, and the operation unknown. *)
Definition augds_diff_str2op (str : cstr) : res augds_diff_op :=
  let checked name op := if streq str (lit name) then Ok op else Fault AssertFailed in
  if at_ str 0 =c "c" then checked "create"%string AUGDS_OP_INSERT
  else if at_ str 0 =c "d" then checked "delete"%string AUGDS_OP_DELETE
  else if at_ str 0 =c "r" then checked "replace"%string AUGDS_OP_REPLACE
  else if at_ str 0 =c "n" then checked "none"%string AUGDS_OP_NONE
  else Ok AUGDS_OP_UNKNOWN.

(** The way up, as long as every node is the first child that is not a key. *)
Fixpoint first_below_list (n : nat) (d : D) (child : nat) (parent : option nat) : res bool :=
  match parent with
  | None => Ok false
  | Some p =>
      if bool_decide (no_key_child d p ≠ Some child) then Ok false
      else if userordered (node_schema d p) then Ok true
      else match n with 0 => Fault OutOfFuel | S n' => first_below_list n' d p (parent_of d p) end
  end.

Definition augds_diff_node_has_move_value (d : D) (n : nat) : res bool :=
  let s := schema_of (node_schema d n) in
  if bool_decide (nodetype_of s = LYS_LEAFLIST) && userordered (node_schema d n) then Ok true
  else if negb (bool_decide (nodetype_of s = LYS_LEAF)) then Ok false
  else first_below_list fuel d n (parent_of d n).

Fixpoint own_op (l : list (cstr * cstr * cstr)) : res augds_diff_op :=
  match l with
  | [] => Ok AUGDS_OP_UNKNOWN
  | (m, name, v) :: l' =>
      if streq name (lit "operation") && streq m (lit "yang") then augds_diff_str2op v else own_op l'
  end.

(** The operation of the node, or the inherited one. *)
Definition get_op (d : D) (n : nat) (parent_op : augds_diff_op) : res augds_diff_op :=
  own ← own_op (metas d n);
  let inherited := bool_decide (own = AUGDS_OP_UNKNOWN) in
  let op := if inherited then if bool_decide (parent_op = AUGDS_OP_MOVE) then AUGDS_OP_NONE else parent_op else own in
  op ← (if inherited && bool_decide (op = AUGDS_OP_REPLACE) then
          has ← augds_diff_node_has_move_value d n;
          if (has : bool) then Ok AUGDS_OP_MOVE
          else if bool_decide (nodetype_of (schema_of (node_schema d n)) = LYS_LEAF) then Ok AUGDS_OP_NONE
          else Ok op
        else Ok op);
  _ ← c_assert (negb (bool_decide (op = AUGDS_OP_UNKNOWN)));
  Ok op.
Definition augds_diff_get_op (n : nat) (parent_op : augds_diff_op) : store_m augds_diff_op :=
  look (λ st, get_op (trees st) n parent_op).

(** ** Values and indices *)

Definition node_term_value (d : D) (n : option nat) : option cstr :=
  augds_get_term_value
    (n ← n; Some (is_term (schema_of (node_schema d n)), empty_value d n, get_value d n)).

(** The value and, for a container or a list, the first child that has it. *)
Definition augds_store_get_value (n : nat) (diff_data : option nat) : store_m (option cstr * option nat) :=
  s ← node_of n;
  if bool_decide (nodetype_of s = LYS_CONTAINER) || bool_decide (nodetype_of s = LYS_LIST) then
    d ← read id;
    schild ← lift (deref (schema_child (node_schema d n)));
    let in_diff := match child_of d n with Some c => (node_schema d c =? schild)%nat | None => false end in
    child ← (if in_diff then mret (child_of d n)
             else
               match find_path d diff_data (std_path d n ++ lit "/" ++ schema_name (schema_of schild)) with
               | Found c => mret (Some c)
               | Incomplete _ | NotFound => mret None
               | PathError => lift (errly diff_data)
               end);
    mret (node_term_value d child, child)
  else
    _ ← lift (c_assert (is_term s));
    d ← read id;
    mret (node_term_value d (Some n), None).

Definition augds_store_find_inst (node : nat) (data : option nat) : store_m nat :=
  d ← read id;
  match find_path d data (std_path d node) with
  | Found n => mret n
  | _ => lift (errly data)
  end.

(** The position among the instances with the label; [None] without the node. *)
Fixpoint count_instances (d : D) (set : list nat) (data_node : nat) (aug_label : option cstr) (idx : Z)
    : res (option Z) :=
  match set with
  | [] => Ok None
  | node :: set' =>
      if (node =? data_node)%nat then Ok (Some idx)
      else
        let s := schema_of (node_schema d node) in
        let differs :=
          match aug_label with
          | None => false
          | Some l =>
              match bool_decide (nodetype_of s = LYS_CONTAINER), child_of d node with
              | true, Some c => negb (streq (get_value d c) l)
              | _, _ => is_term s && negb (streq (get_value d node) l)
              end
          end in
        if differs then count_instances d set' data_node aug_label idx
        else count_instances d set' data_node aug_label (u32 (idx + 1))
  end.

(** The leaf with the label: [nodetype == LYD_NODE_TERM] holds for no node, since the
    right side stands for several types. *)
Definition label_leaf (d : D) (n : nat) (aug_label : option cstr) : res (option nat) :=
  let s := schema_of (node_schema d n) in
  if (bool_decide (nodetype_of s = LYS_CONTAINER) || bool_decide (nodetype_of s = LYS_LIST)) && bool_decide (is_Some aug_label)
  then
    c ← deref (schema_child (node_schema d n));
    _ ← c_assert (bool_decide (nodetype_of (schema_of c) = LYS_LEAF));
    Ok (Some c)
  else Ok None.

(** The instances that are counted. *)
Definition instances_path (d : D) (data_node : nat) : res cstr :=
  match parent_of d data_node with
  | None =>
      c ← deref (child_of d data_node);
      _ ← c_assert (streq (schema_name (schema_of (node_schema d c))) (lit "config-file"));
      Ok (no_last_pred_path d data_node)
  | Some p =>
      let first := schema_name (schema_of (node_schema d (first_sibling d data_node))) in
      if bool_decide (nodetype_of (schema_of (node_schema d p)) = LYS_LIST) && streq first (lit "_id") then
        Ok (no_last_pred_path d p ++ lit "/" ++ schema_name (schema_of (node_schema d data_node)))
      else
        '(_, dpath, _) ← augds_node_get_type (schema_of (node_schema d data_node));
        _ ← c_assert (bool_decide (is_Some dpath));
        Ok (no_last_pred_path d data_node)
  end.

Definition augds_store_label_index (n : nat) (aug_label : option cstr) (diff_data : option nat) : store_m Z :=
  s ← node_of n;
  _ ← lift (c_assert (is_term s || bool_decide (nodetype_of s = LYS_CONTAINER) || bool_decide (nodetype_of s = LYS_LIST)));
  d ← read id;
  _ ← lift (if bool_decide (nodetype_of s = LYS_CONTAINER) && bool_decide (is_Some aug_label) then
              c ← deref (schema_child (node_schema d n)); c_assert (mandatory (schema_of c))
            else Ok tt);
  sleaf ← lift (label_leaf d n aug_label);
  if match sleaf with Some c => match leaf_type (schema_of c) with LY_TYPE_UINT64 => true | _ => false end | None => false end
  then mret 0%Z
  else
    data_node ← augds_store_find_inst n diff_data;
    path ← lift (instances_path d data_node);
    match find_xpath d diff_data path with
    | None => lift (errly diff_data)
    | Some set =>
        r ← lift (count_instances d set data_node aug_label 1);
        match r with Some idx => mret idx | None => lift (Err SR_ERR_INTERNAL) end
    end.

(** ** Paths of nodes *)

Definition index_text (idx : Z) : cstr := if (idx =? 0)%Z then [] else lit "[" ++ decimal idx ++ lit "]".
Definition join_path (parent_path : option cstr) (label : cstr) (idx : Z) : cstr :=
  match parent_path with Some p => p ++ lit "/" | None => [] end ++ label ++ index_text idx.

(** The names from the leafref up to the child of the schema node [top], in a buffer of
    512 bytes that is filled from its end. *)
Fixpoint relative_path (n : nat) (snode : option nat) (top : nat) (acc : cstr) : res cstr :=
  i ← deref snode;
  let s := schema_of i in
  acc ← (if bool_decide (nodetype_of s = LYS_CASE) || bool_decide (nodetype_of s = LYS_CHOICE) then Ok acc
         else
           acc ← (match acc with
                  | [] => Ok []
                  | _ => if (length acc =? 511)%nat then Err SR_ERR_INTERNAL else Ok ("/"%char :: acc)
                  end);
           if (511 - length acc <? length (schema_name s))%nat then Err SR_ERR_INTERNAL
           else Ok (schema_name s ++ acc));
  if bool_decide (schema_parent i = Some top) then Ok acc
  else match n with 0 => Fault OutOfFuel | S n' => relative_path n' (schema_parent i) top acc end.

Definition is_leafref_leaf (i : nat) : bool :=
  bool_decide (nodetype_of (schema_of i) = LYS_LEAF) && is_leafref (leaf_type (schema_of i)).

Section path.
Context (store_path : option nat → option cstr → option cstr → augds_ext_node_type → option nat → store_m (option cstr)).

(** From the node that has the reference up to the next node of the recursive list. *)
Fixpoint path_of_parents (n : nat) (iter : option nat) (top : nat) (diff_data : option nat) (cur aug_path : option cstr)
    : store_m (nat * option cstr * option cstr) :=
  i ← lift (deref iter);
  d ← read id;
  if (node_schema d i =? top)%nat then mret (i, cur, aug_path)
  else
    match n with
    | 0 => lift (Fault OutOfFuel)
    | S n' =>
        '(ty, dpath, _) ← type_of i;
        p ← store_path (Some i) cur dpath ty diff_data;
        d ← read id;
        match p with
        | Some _ => path_of_parents n' (parent_of d i) top diff_data p p
        | None => path_of_parents n' (parent_of d i) top diff_data cur aug_path
        end
    end.

Fixpoint recursive_parents (n : nat) (start : cstr) (iter top : nat) (data_parent : nat) (diff_data : option nat) (cur aug_path : option cstr)
    : store_m (option cstr) :=
  d ← read id;
  c ← lift (deref (child_of d iter));
  match find_xpath d (Some data_parent) (start ++ lit "[.='" ++ get_value d c ++ lit "']") with
  | None => lift (Err SR_ERR_LY)
  | Some [] => mret aug_path
  | Some [t] =>
      match n with
      | 0 => lift (Fault OutOfFuel)
      | S n' =>
          '(iter', cur', aug_path') ← path_of_parents fuel (parent_of d t) top diff_data cur aug_path;
          recursive_parents n' start iter' top data_parent diff_data cur' aug_path'
      end
  | Some _ => lift (Fault AssertFailed)
  end.

Definition augds_store_recursive_path (n : nat) (parent_aug_path : option cstr) (diff_data : option nat) : store_m (option cstr) :=
  d ← read id;
  let top := node_schema d n in
  snode ← lift (match filter is_leafref_leaf (descendants_of top) with i :: _ => Ok i | [] => Fault AssertFailed end);
  p ← lift (deref (parent_of d n));
  start ← lift (relative_path fuel (Some snode) (node_schema d p) []);
  inst ← augds_store_find_inst n diff_data;
  d ← read id;
  data_parent ← lift (deref (parent_of d inst));
  recursive_parents fuel start n top data_parent diff_data parent_aug_path None.

(** The path of a node of a certain type. *)
Definition store_path_body (diff_node : option nat) (parent_aug_path data_path : option cstr) (ty : augds_ext_node_type)
    (diff_data : option nat) : store_m (option cstr) :=
  match diff_node with
  | None => mret None
  | Some n =>
      match ty with
      | AUGDS_EXT_NODE_VALUE =>
          idx ← augds_store_label_index n None diff_data;
          label ← lift (deref data_path);
          mret (Some (join_path parent_aug_path label idx))
      | AUGDS_EXT_NODE_LABEL =>
          '(label, _) ← augds_store_get_value n diff_data;
          idx ← augds_store_label_index n label diff_data;
          label ← lift (deref label);
          mret (Some (join_path parent_aug_path label idx))
      | AUGDS_EXT_NODE_REC_LIST => augds_store_recursive_path n parent_aug_path diff_data
      | AUGDS_EXT_NODE_NONE =>
          d ← read id;
          match parent_of d n with
          | Some _ => mret None
          | None =>
              c ← lift (deref (child_of d n));
              name ← name_of c;
              _ ← lift (c_assert (streq name (lit "config-file")));
              lens ← lift (augds_get_lens (module_exts_of (node_schema d n)));
              lens ← lift (deref lens);
              let label := lit "/augeas/load/" ++ lens ++ lit "/incl" in
              idx ← augds_store_label_index n (Some label) diff_data;
              mret (Some (join_path parent_aug_path label idx))
          end
      | AUGDS_EXT_NODE_REC_LREF => mret None
      end
  end.
End path.

Fixpoint augds_store_path (depth : nat) (diff_node : option nat) (parent_aug_path data_path : option cstr)
    (ty : augds_ext_node_type) (diff_data : option nat) : store_m (option cstr) :=
  match depth with
  | 0 => lift (Fault OutOfFuel)
  | S depth' => store_path_body (augds_store_path depth') diff_node parent_aug_path data_path ty diff_data
  end.

Definition found_node (f : found) : option nat :=
  match f with Found n | Incomplete n => Some n | _ => None end.

Definition is_inner_node (s : schema_node) : bool :=
  bool_decide (nodetype_of s = LYS_CONTAINER) || bool_decide (nodetype_of s = LYS_LIST).

Definition augds_store_value (diff_node : option nat) (value_path : option cstr) (ty : augds_ext_node_type) (diff_data : option nat)
    : store_m (option cstr * option nat) :=
  match diff_node with
  | None => mret (None, None)
  | Some n =>
      s ← node_of n;
      d ← read id;
      match value_path with
      | Some v =>
          from ← lift (if is_inner_node s then Ok n else deref (parent_of d n));
          let n2 := found_node (find_path d (Some from) v) in
          mret (node_term_value d n2, n2)
      | None =>
          if bool_decide (nodetype_of s = LYS_LEAF) && negb (is_label ty) || bool_decide (parent_of d n = None)
          then augds_store_get_value n diff_data
          else mret (None, None)
      end
  end.

(** ** Anchors *)

Definition augds_store_is_userord_list (d : D) (node : option nat) : bool :=
  match node with
  | None => false
  | Some n => bool_decide (nodetype_of (schema_of (node_schema d n)) = LYS_LIST) && userordered (node_schema d n)
  end.

Definition anchor_type (d : D) (n : nat) : res bool :=
  '(ty, _, _) ← augds_node_get_type (schema_of (node_schema d n)); Ok (has_anchor_type ty).

(** The neighbour, or its first child that is not a key; whether it can be an anchor. *)
Definition neighbour (d : D) (anchor_child : bool) (n : option nat) : res (option (nat * bool)) :=
  match n with
  | None => Ok None
  | Some x =>
      if negb anchor_child || augds_store_is_userord_list d (Some x) then
        a ← (if anchor_child then deref (no_key_child d x) else Ok x);
        ok ← anchor_type d a;
        Ok (Some (a, ok))
      else Ok None
  end.

Definition anchor_of (d : D) (n : nat) : res (option nat * bool) :=
  p ← match parent_of d n with Some p => Ok p | None => Fault AssertFailed end;
  let key_name := if augds_store_is_userord_list d (Some p)
                  then schema_name (schema_of (node_schema d (first_sibling d n))) else [] in
  let anchor_child := streq key_name (lit "_id") || streq key_name (lit "_r-id") in
  ok ← (if anchor_child then Ok true else anchor_type d n);
  if negb ok then Ok (None, false)
  else
    let n := if anchor_child then p else n in
    before ← neighbour d anchor_child (prev_of d n);
    match before with
    | Some (a, true) => Ok (Some a, false)
    | _ =>
        behind ← neighbour d anchor_child (next_of d n);
        match behind with
        | Some (a, true) => Ok (Some a, true)
        | Some (_, false) => Ok (None, false)
        | None => Ok (None, true)
        end
    end.
Definition augds_store_anchor (n : nat) : store_m (option nat * bool) := look (λ st, anchor_of (trees st) n).

Definition find_meta (l : list (cstr * cstr * cstr)) (name : string) : option cstr :=
  match filter (λ x, streq x.1.1 (lit "yang") && streq x.1.2 (lit name)) l with x :: _ => Some x.2 | [] => None end.

Definition same_schema (d : D) (a b : nat) : bool := (node_schema d a =? node_schema d b)%nat.

Definition find_anchor (d : D) (diff_node data_sibling : nat) : res (option nat * bool) :=
  _ ← c_assert (same_schema d diff_node data_sibling);
  let s := schema_of (node_schema d diff_node) in
  match find_meta (metas d diff_node) (if bool_decide (nodetype_of s = LYS_LIST) then "key" else "value") with
  | None =>
      Ok (match prev_of d data_sibling, next_of d data_sibling with
          | Some p, nx =>
              if same_schema d p diff_node then (Some p, false)
              else match nx with
                   | Some x => if same_schema d x diff_node then (Some x, true) else (None, false)
                   | None => (None, false)
                   end
          | None, Some x => if same_schema d x diff_node then (Some x, true) else (None, false)
          | None, None => (None, false)
          end)
  | Some v =>
      let first := (length v =? 0)%nat in
      _ ← (if first then c_assert (bool_decide (is_Some (parent_of d data_sibling))) else Ok tt);
      match find_sibling_val d data_sibling (node_schema d diff_node) (if first then None else Some v) with
      | Some a => Ok (Some a, first)
      | None => Err SR_ERR_LY
      end
  end.
Definition augds_store_find_anchor (diff_node data_sibling : nat) : store_m (option nat * bool) :=
  look (λ st, find_anchor (trees st) diff_node data_sibling).

(** The index in the key of the list above. *)
Definition list_index (d : D) (n : nat) : res Z :=
  p ← deref (parent_of d n);
  c ← deref (child_of d p);
  let '(z, rest) := strtoul (get_value d c) in
  _ ← c_assert (bool_decide (rest = []));
  Ok (u32 z).
Definition move_direction (d : D) (n anchor : nat) : res bool :=
  _ ← c_assert (match parent_of d n with Some p => userordered (node_schema d p) | None => false end);
  new_id ← list_index d n;
  anchor_id ← list_index d anchor;
  _ ← c_assert (negb (new_id =? anchor_id)%Z);
  Ok (anchor_id <? new_id)%Z.
Definition augds_store_move_direction (n anchor : nat) : store_m bool := look (λ st, move_direction (trees st) n anchor).
(** ** Changes *)

(** One change of the data of libaugeas. *)
Definition aug_change (f : handle → handle * Z) : store_m Z :=
  on_session (λ st, let '(h, r) := f st.1 in Ok (h, st.2, inr r)).
Definition check_erraug : coded (handle * list cstr) unit := augds_check_erraug fuel fuel.
(** [-1] is an error of libaugeas. *)
Definition changed (m : store_m Z) : store_m unit :=
  r ← m;
  if (r =? -1)%Z then on_session (raise_augeas check_erraug) else mret tt.

Definition augds_store_diff_apply_prepare_path (aug_path : option cstr) : store_m (option cstr) :=
  match aug_path with
  | None => mret None
  | Some p =>
      context ← (if needs_context p then
                   value ← on_session (get_one check_erraug (lit "/augeas/context"));
                   value ← lift (deref value);
                   mret (Some value)
                 else mret None);
      lift (prepare_with context p)
  end.

(** A prepared path, or the path of the caller. *)
Definition prepared (path_d aug_path : option cstr) : option cstr :=
  match path_d with Some p => Some p | None => aug_path end.

(** The insertion of a label at the anchor. *)
Definition insert_label (aug_path : cstr) (anchor : cstr) (before : bool) : store_m unit :=
  changed (aug_change (λ h, insert h anchor (augds_store_diff_path_label aug_path) before)).

(** What is applied to the prepared paths; the path after it, and whether the nodes
    below are done, too. *)
Definition apply_prepared (op : augds_diff_op) (aug_path : cstr) (anchor : option cstr) (before : bool)
    (aug_value : option cstr) (moved_back : bool) : store_m (cstr * bool) :=
  match op with
  | AUGDS_OP_INSERT =>
      _ ← (match anchor with Some a => insert_label aug_path a before | None => mret tt end);
      _ ← changed (aug_change (λ h, set h aug_path aug_value));
      mret (aug_path, false)
  | AUGDS_OP_REPLACE =>
      _ ← changed (aug_change (λ h, set h aug_path aug_value));
      mret (aug_path, false)
  | AUGDS_OP_RENAME =>
      a ← lift (deref anchor);
      _ ← changed (aug_change (λ h, rename h a (augds_store_diff_path_label aug_path)));
      mret (aug_path, false)
  | AUGDS_OP_MOVE =>
      a ← lift (deref anchor);
      _ ← insert_label aug_path a before;
      '(aug_path, aug_path2) ← lift (augds_store_diff_path_next_idx aug_path);
      _ ← changed (aug_change (λ h, if moved_back then mv h aug_path2 aug_path else mv h aug_path aug_path2));
      mret (aug_path, false)
  | AUGDS_OP_DELETE =>
      r ← aug_change (λ h, rm h aug_path);
      if (r =? 0)%Z then lift (Err SR_ERR_INTERNAL) else mret (aug_path, true)
  | AUGDS_OP_NONE => mret (aug_path, false)
  | AUGDS_OP_UNKNOWN => lift (Err SR_ERR_INTERNAL)
  end.

(** The path of the caller after it: it is the one that was written to, when no new
    path was prepared. *)
Definition augds_store_diff_apply (op : augds_diff_op) (aug_path anchor : option cstr) (before : bool)
    (aug_value : option cstr) (moved_back : bool) : store_m (option cstr * bool) :=
  match aug_path with
  | None => mret (None, false)
  | Some p =>
      path_d ← augds_store_diff_apply_prepare_path aug_path;
      anchor_d ← augds_store_diff_apply_prepare_path anchor;
      '(p', applied_r) ← apply_prepared op (default p path_d) (prepared anchor_d anchor) before aug_value moved_back;
      mret (match path_d with Some _ => aug_path | None => Some p' end, applied_r)
  end.

(** The instance is moved to its anchor, unless it is there. *)
Definition move_instance (diff_node data_node : nat) : store_m unit :=
  '(anchor, before) ← augds_store_find_anchor diff_node data_node;
  match anchor with
  | Some a =>
      if (a =? data_node)%nat then mret tt
      else if (before : bool) then on_trees (λ d, insert_before d a data_node)
      else on_trees (λ d, insert_after d a data_node)
  | None => mret tt
  end.

Definition dup (diff_node : nat) (parent : option nat) : store_m nat := λ st,
  match dup_single (trees st) diff_node parent with
  | Some (d, n) => Ok (Store (session st) d, inr n)
  | None => Ok (st, inl SR_ERR_LY)
  end.

Definition update_insert (diff_node : nat) (diff_data : option nat) : store_m nat :=
  d ← read id;
  match parent_of d diff_node with
  | None =>
      data_node ← dup diff_node None;
      _ ← on_trees (λ d, insert_sibling d diff_data data_node);
      mret data_node
  | Some p =>
      data_parent ← augds_store_find_inst p diff_data;
      data_node ← dup diff_node (Some data_parent);
      d ← read id;
      _ ← (if userordered (node_schema d diff_node) then move_instance diff_node data_node else mret tt);
      mret data_node
  end.

Definition update_value (diff_node : nat) (diff_data : option nat) : store_m nat :=
  data_node ← augds_store_find_inst diff_node diff_data;
  d ← read id;
  _ ← (if userordered (node_schema d diff_node) then move_instance diff_node data_node
       else on_trees (λ d, change_term d data_node (get_value d diff_node)));
  mret data_node.

(** The change of the data; the node of the data, when the caller wants it. *)
Definition augds_store_diff_data_update (diff_node : nat) (op : augds_diff_op) (diff_data : option nat) (wanted : bool)
    : store_m (option nat) :=
  _ ← lift (c_assert (negb wanted || bool_decide (op = AUGDS_OP_INSERT)));
  match op with
  | AUGDS_OP_INSERT => n ← update_insert diff_node diff_data; mret (Some n)
  | AUGDS_OP_DELETE =>
      n ← augds_store_find_inst diff_node diff_data;
      _ ← on_trees (λ d, Some (delete_tree d n));
      mret None
  | AUGDS_OP_REPLACE =>
      s ← node_of diff_node;
      if bool_decide (nodetype_of s = LYS_CONTAINER) then mret None
      else n ← update_value diff_node diff_data; mret (Some n)
  | AUGDS_OP_RENAME | AUGDS_OP_MOVE => n ← update_value diff_node diff_data; mret (Some n)
  | AUGDS_OP_NONE =>
      if wanted then n ← augds_store_find_inst diff_node diff_data; mret (Some n) else mret None
  | AUGDS_OP_UNKNOWN => lift (Err SR_ERR_INTERNAL)
  end.

(** The path of the anchor; an equal label means that its index is one too high. *)
Definition augds_store_diff_insert_anchor_path (anchor : nat) (aug_before : bool) (parent_path : option cstr) (diff_data : option nat)
    (aug_path : option cstr) : store_m (option cstr) :=
  '(ty, dpath, _) ← type_of anchor;
  p ← augds_store_path fuel (Some anchor) parent_path dpath ty diff_data;
  if aug_before then
    own ← lift (deref aug_path);
    other ← lift (deref p);
    if streq (augds_store_diff_path_label own) (augds_store_diff_path_label other) then mret aug_path else mret p
  else mret p.
(** ** The diff *)

(** A container is not applied but its first child, when that one is in the diff. *)
Definition mandatory_child (d : D) (n : nat) (op : augds_diff_op) : res bool :=
  let container := bool_decide (nodetype_of (schema_of (node_schema d n)) = LYS_CONTAINER) in
  if bool_decide (op = AUGDS_OP_DELETE) || bool_decide (op = AUGDS_OP_MOVE) || negb container then Ok false
  else
    schild ← deref (schema_child (node_schema d n));
    '(_, dpath2, _) ← augds_node_get_type (schema_of schild);
    if bool_decide (dpath2 = None) && bool_decide (nodetype_of (schema_of schild) = LYS_LEAF)
    then c ← deref (child_of d n); Ok (node_schema d c =? schild)%nat
    else Ok false.

(** The first child of a container has no path of its own. *)
Definition uses_parent (d : D) (n : nat) (data_path : option cstr) : res (option nat) :=
  if bool_decide (nodetype_of (schema_of (node_schema d n)) = LYS_LEAF) && bool_decide (data_path = None) then
    p ← deref (parent_of d n);
    Ok (if bool_decide (nodetype_of (schema_of (node_schema d p)) = LYS_CONTAINER)
           && bool_decide (schema_child (node_schema d p) = Some (node_schema d n))
        then Some p else None)
  else Ok None.

(** What is known of a node of the diff before it is applied. *)
Record change_of := ChangeOf {
  cur_op : augds_diff_op;
  path_node : nat;
  node_type : augds_ext_node_type;
  data_path : option cstr;
  value_path : option cstr }.

(** A replaced label is renamed. *)
Definition learn_change (d : D) (n : nat) (op : augds_diff_op) : res change_of :=
  let s := schema_of (node_schema d n) in
  let replaced := bool_decide (op = AUGDS_OP_REPLACE) in
  '(ty, dp, vp) ← augds_node_get_type s;
  up ← uses_parent d n dp;
  match up with
  | Some p =>
      '(ty, dp, vp) ← augds_node_get_type (schema_of (node_schema d p));
      let op := if replaced && is_label ty then AUGDS_OP_RENAME else op in
      Ok (ChangeOf op p ty dp vp)
  | None =>
      if bool_decide (nodetype_of s = LYS_LEAF) && is_label ty && replaced then
        label ← deref dp;
        _ ← c_assert (streq label (lit "$$"));
        Ok (ChangeOf AUGDS_OP_RENAME n ty dp vp)
      else Ok (ChangeOf op n ty dp vp)
  end.

(** What is applied to the data of libaugeas. *)
Record plan := Plan {
  aug_path : option cstr;
  aug_value : option cstr;
  diff_node2 : option nat;
  aug_anchor_path : option cstr;
  aug_before : bool;
  aug_moved_back : bool }.

Definition path_and_value (c : change_of) (parent_path : option cstr) (diff_data : option nat) : store_m plan :=
  p ← augds_store_path fuel (Some (path_node c)) parent_path (data_path c) (node_type c) diff_data;
  '(v, n2) ← augds_store_value (Some (path_node c)) (value_path c) (node_type c) diff_data;
  mret (Plan p v n2 None false false).

Definition plan_insert (n : nat) (c : change_of) (parent_path : option cstr) (diff_data : option nat) : store_m plan :=
  data_node ← augds_store_diff_data_update n AUGDS_OP_INSERT diff_data true;
  d ← read id;
  data_node ← (if (n =? path_node c)%nat then mret data_node
               else x ← lift (deref data_node); mret (parent_of d x));
  q ← path_and_value c parent_path diff_data;
  d ← read id;
  match data_node, x ← data_node; parent_of d x with
  | Some x, Some _ =>
      '(anchor, before) ← augds_store_anchor x;
      match anchor with
      | None => mret (Plan (aug_path q) (aug_value q) (diff_node2 q) None before false)
      | Some a =>
          anchor_path ← augds_store_diff_insert_anchor_path a before parent_path diff_data (aug_path q);
          mret (Plan (aug_path q) (aug_value q) (diff_node2 q) anchor_path before false)
      end
  | _, _ => mret q
  end.

Definition plan_rename (n : nat) (c : change_of) (parent_path : option cstr) (diff_data : option nat) : store_m plan :=
  data_node ← augds_store_find_inst (path_node c) diff_data;
  '(ty, dpath2, _) ← type_of data_node;
  old ← augds_store_path fuel (Some data_node) parent_path dpath2 ty diff_data;
  _ ← augds_store_diff_data_update n AUGDS_OP_RENAME diff_data false;
  q ← path_and_value c parent_path diff_data;
  mret (Plan (aug_path q) (aug_value q) (diff_node2 q) old false false).

Definition plan_move (c : change_of) (parent_path : option cstr) (diff_data : option nat) : store_m plan :=
  q ← path_and_value c parent_path diff_data;
  data_node ← augds_store_find_inst (path_node c) diff_data;
  '(anchor, before) ← augds_store_anchor data_node;
  match anchor with
  | None => lift (Fault AssertFailed)
  | Some a =>
      anchor_path ← augds_store_diff_insert_anchor_path a before parent_path diff_data (aug_path q);
      back ← augds_store_move_direction data_node a;
      mret (Plan (aug_path q) (aug_value q) (diff_node2 q) anchor_path before back)
  end.

Definition plan_change (n : nat) (c : change_of) (parent_path : option cstr) (diff_data : option nat) : store_m plan :=
  match cur_op c with
  | AUGDS_OP_REPLACE | AUGDS_OP_NONE =>
      _ ← augds_store_diff_data_update n (cur_op c) diff_data false;
      path_and_value c parent_path diff_data
  | AUGDS_OP_INSERT => plan_insert n c parent_path diff_data
  | AUGDS_OP_DELETE => path_and_value c parent_path diff_data
  | AUGDS_OP_RENAME => plan_rename n c parent_path diff_data
  | AUGDS_OP_MOVE => plan_move c parent_path diff_data
  | AUGDS_OP_UNKNOWN => lift (Err SR_ERR_INTERNAL)
  end.

(** The operation for the node with the value, and the value. *)
Definition value_op (op : augds_diff_op) (v : option cstr) : res (augds_diff_op * option cstr) :=
  match op with
  | AUGDS_OP_INSERT => Ok (AUGDS_OP_REPLACE, v)
  | AUGDS_OP_REPLACE | AUGDS_OP_NONE => Ok (op, v)
  | AUGDS_OP_DELETE => Ok (AUGDS_OP_REPLACE, None)
  | AUGDS_OP_RENAME | AUGDS_OP_MOVE | AUGDS_OP_UNKNOWN => Err SR_ERR_INTERNAL
  end.

Definition apply_value (c : change_of) (q : plan) (path : option cstr) (parent_op : augds_diff_op) : store_m (option cstr) :=
  match diff_node2 q with
  | None => mret path
  | Some n2 =>
      op2 ← augds_diff_get_op n2 parent_op;
      if bool_decide (op2 = cur_op c) then mret path
      else
        '(op2, v) ← lift (value_op op2 (aug_value q));
        '(path, _) ← augds_store_diff_apply op2 path (aug_anchor_path q) (aug_before q) v (aug_moved_back q);
        mret path
  end.

(** The path for the nodes below: not that of a config file. *)
Definition children_path (d : D) (n : nat) (path parent_path : option cstr) : res (option cstr) :=
  match parent_of d n with
  | Some _ => Ok (match path with Some _ => path | None => parent_path end)
  | None =>
      c ← deref (child_of d n);
      _ ← c_assert (streq (schema_name (schema_of (node_schema d c))) (lit "config-file"));
      Ok parent_path
  end.

Section diff.
Context (diff_r : nat → option cstr → augds_diff_op → option nat → store_m unit).

(** [LY_LIST_FOR]: the next node is asked for after the node is done. *)
Fixpoint diff_siblings (n : nat) (node : option nat) (path : option cstr) (op : augds_diff_op) (diff_data : option nat) : store_m unit :=
  match node with
  | None => mret tt
  | Some x =>
      match n with
      | 0 => lift (Fault OutOfFuel)
      | S n' =>
          _ ← diff_r x path op diff_data;
          next ← read (λ d, next_of d x);
          diff_siblings n' next path op diff_data
      end
  end.

(** Whether the nodes below are done, and where they start; the path of the change. *)
Definition apply_change (n : nat) (c : change_of) (q : plan) (mand_child : bool) (parent_path : option cstr)
    (parent_op : augds_diff_op) (diff_data : option nat) : store_m (option cstr * bool * option nat) :=
  if mand_child then
    child ← read (λ d, no_key_child d n);
    child ← lift (deref child);
    _ ← diff_r child parent_path parent_op diff_data;
    next ← read (λ d, next_of d child);
    mret (aug_path q, false, next)
  else
    '(path, applied_r) ← augds_store_diff_apply (cur_op c) (aug_path q) (aug_anchor_path q) (aug_before q) (aug_value q)
      (aug_moved_back q);
    path ← apply_value c q path parent_op;
    child ← read (λ d, no_key_child d n);
    mret (path, applied_r, child).

Definition diff_body (n : nat) (parent_path : option cstr) (parent_op : augds_diff_op) (diff_data : option nat) : store_m unit :=
  op ← augds_diff_get_op n parent_op;
  d ← read id;
  mand_child ← lift (mandatory_child d n op);
  c ← lift (learn_change d n op);
  q ← plan_change n c parent_path diff_data;
  '(path, applied_r, child) ← apply_change n c q mand_child parent_path parent_op diff_data;
  path ← look (λ st, children_path (trees st) (path_node c) path parent_path);
  d ← read id;
  _ ← (if bool_decide (cur_op c = AUGDS_OP_REPLACE) && userordered (node_schema d n) then
         anchor ← lift (match found_node (find_path d diff_data (std_path d n)) with
                        | Some a => Ok a | None => Fault AssertFailed end);
         diff_siblings fuel (no_key_child d anchor) path (cur_op c) diff_data
       else mret tt);
  _ ← (if (applied_r : bool) then mret tt else diff_siblings fuel child path (cur_op c) diff_data);
  if bool_decide (cur_op c = AUGDS_OP_DELETE) then
    _ ← augds_store_diff_data_update n AUGDS_OP_DELETE diff_data false;
    mret tt
  else mret tt.
End diff.

(** [depth] bounds the nodes on a branch. *)
Fixpoint augds_store_diff_r (depth : nat) (n : nat) (parent_path : option cstr) (parent_op : augds_diff_op) (diff_data : option nat)
    : store_m unit :=
  match depth with
  | 0 => lift (Fault OutOfFuel)
  | S depth' => diff_body (augds_store_diff_r depth') n parent_path parent_op diff_data
  end.
End store.
