(* ===== verification/SrdsStoreTheorems.v ===== *)
(** Theorems on the storing of changes: the paths of instances and the index behind
    them, the preparation of a path, and the changes for one node of a diff. *)
From stdpp Require Import gmap strings.
From S2P Require Import Prelude CString Common Ident Idents SrdsCommon SrdsStore.
#[local] Open Scope cstr_scope.

(** ** Numbers *)

Lemma digit_code n : (0 <= n < 10)%Z → isdigit (digit n) = true ∧ (code (digit n) - 48 = n)%Z.
Proof.
  intros Hn. assert (n ∈ [0; 1; 2; 3; 4; 5; 6; 7; 8; 9]%Z) as Hin by (rewrite !elem_of_cons; lia).
  repeat (apply elem_of_cons in Hin as [->|Hin]; [by vm_compute|]). by apply not_elem_of_nil in Hin.
Qed.

Lemma decimal_digits_digit f n : (0 <= n)%Z → Forall (λ c, isdigit c = true) (decimal_digits f n).
Proof.
  revert n. induction f as [|f IH]; intros n Hn; [constructor|]. cbn [decimal_digits].
  apply Forall_app. split.
  - case_match; [constructor|]. apply IH. apply Z.div_pos; lia.
  - constructor; [|constructor]. apply digit_code, Z.mod_pos_bound. lia.
Qed.

Lemma digits_decimal f n s acc : (0 <= n < 10 ^ Z.of_nat f)%Z →
  digits (decimal_digits f n ++ s) acc = digits s (acc * 10 ^ Z.of_nat (length (decimal_digits f n)) + n).
Proof.
  revert n s acc. induction f as [|f IH]; intros n s acc Hn.
  { cbn in *. f_equal. lia. }
  cbn [decimal_digits]. pose proof (digit_code (n mod 10) (Z.mod_pos_bound n 10 ltac:(lia))) as [Hd Hc].
  rewrite <- app_assoc, length_app. cbn [length app]. destruct (Z.ltb_spec n 10) as [Hlt|Hge].
  - cbn [app length Nat.add digits]. rewrite Hd, Hc, Z.mod_small by lia. f_equal.
  - rewrite IH. 2: { rewrite Nat2Z.inj_succ, Z.pow_succ_r in Hn by lia. split; [apply Z.div_pos; lia|].
      apply Z.div_lt_upper_bound; lia. }
    cbn [digits]. rewrite Hd, Hc. f_equal.
    rewrite Nat2Z.inj_add, Z.pow_add_r by lia. change (10 ^ Z.of_nat 1)%Z with 10%Z.
    pose proof (Z.div_mod n 10 ltac:(lia)). nia.
Qed.

Lemma decimal_head f n : (0 <= n)%Z → ∃ c s, decimal_digits (S f) n = c :: s ∧ isdigit c = true.
Proof.
  intros Hn. pose proof (decimal_digits_digit (S f) n Hn) as H. cbn [decimal_digits] in *.
  destruct (_ ++ _) as [|c s] eqn:E; [by apply app_nil in E as [_ ?]|]. inversion H; eauto.
Qed.

Lemma digit_not_blank c : isdigit c = true → is_blank c = false ∧ (c =c "-") = false ∧ (c =c "+") = false.
Proof. destruct c as [[] [] [] [] [] [] [] []]; done. Qed.

(** The digits of a number are read back, up to the next character. *)
Lemma strtoul_decimal n c s : (0 <= n < 2 ^ 32)%Z → isdigit c = false →
  strtoul (decimal n ++ c :: s) = (n, c :: s).
Proof.
  intros Hn Hc. unfold strtoul, decimal.
  destruct (decimal_head 19 n) as (d & t & E & Hd); [lia|].
  destruct (digit_not_blank d Hd) as (Hb & Hm & Hp).
  rewrite E. cbn [app skip_blanks]. rewrite Hb.
  change (at_ (d :: t ++ c :: s) 0) with d. rewrite Hm, Hp. cbn [orb]. change (at_ (d :: t ++ c :: s) 0) with d. rewrite Hd.
  replace (d :: t ++ c :: s) with (decimal_digits 20 n ++ c :: s) by (by rewrite E).
  rewrite digits_decimal by (change (Z.of_nat 20) with 20%Z; lia).
  cbn [digits]. rewrite Hc. unfold ULONG_MAX. rewrite (proj2 (Z.ltb_ge _ _)) by lia. by rewrite Z.mul_0_l.
Qed.

Lemma not_in_decimal n c : (0 <= n)%Z → isdigit c = false → c ∉ decimal n.
Proof.
  intros Hn Hc Hin. pose proof (decimal_digits_digit 20 n Hn) as H. rewrite Forall_forall in H.
  rewrite (H c Hin) in Hc. done.
Qed.

Lemma not_in_index n c : (0 <= n)%Z → isdigit c = false → (c =c "]") = false → c ∉ decimal n ++ lit "]".
Proof.
  intros Hn Hc Hb [Hin|Hin]%elem_of_app; [by eapply not_in_decimal|].
  apply list_elem_of_singleton in Hin as ->. done.
Qed.

(** ** Paths of instances *)

Definition plain_label (label : cstr) : Prop := ("/"%char ∉ label) ∧ ("["%char ∉ label).

Lemma path_of_instance (parent : option cstr) label idx : plain_label label → (0 <= idx)%Z →
  augds_store_diff_path_label (join_path parent label idx) = label.
Proof.
  intros [Hs Hb] Hi.
  assert ("/"%char ∉ label ++ index_text idx) as Hn.
  { unfold index_text. destruct (idx =? 0)%Z; rewrite ?app_nil_r; [done|].
    rewrite not_elem_of_app. split; [done|]. apply not_elem_of_cons. split; [done|]. by apply not_in_index. }
  assert (match strrchr (label ++ index_text idx) "[" with
          | Some p => take p (label ++ index_text idx) | None => label ++ index_text idx end = label) as Hl.
  { unfold index_text. destruct (idx =? 0)%Z.
    - rewrite app_nil_r, (proj2 (strrchr_None _ _)); done.
    - change (lit "[" ++ decimal idx ++ lit "]") with ("["%char :: decimal idx ++ lit "]").
      rewrite (strrchr_app_r label "["). { by rewrite take_app_length. }
      by apply not_in_index. }
  unfold augds_store_diff_path_label, join_path. destruct parent as [p|].
  - rewrite <- app_assoc. change (lit "/" ++ label ++ index_text idx) with ("/"%char :: label ++ index_text idx).
    rewrite (strrchr_app_r p "/") by done.
    rewrite drop_app_ge by lia. replace (S (length p) - length p)%nat with 1%nat by lia. by apply Hl.
  - rewrite app_nil_l. apply strrchr_None in Hn as ->. by apply Hl.
Qed.

Lemma next_of_instance (parent : option cstr) label idx : (0 < idx < 2 ^ 32 - 1)%Z →
  augds_store_diff_path_next_idx (join_path parent label idx) =
    Ok (join_path parent label idx, join_path parent label (idx + 1)).
Proof.
  intros Hi. unfold join_path, index_text. rewrite !(proj2 (Z.eqb_neq _ 0)) by lia.
  set (pre := match parent with Some p => p ++ lit "/" | None => [] end).
  change (lit "[" ++ decimal idx ++ lit "]") with ("["%char :: decimal idx ++ lit "]").
  rewrite !(app_assoc pre). set (q := pre ++ label).
  unfold augds_store_diff_path_next_idx. rewrite strrchr_app_r.
  2: { apply not_in_index; done || lia. }
  rewrite drop_app_ge by lia. replace (S (length q) - length q)%nat with 1%nat by lia.
  change (drop 1 ("["%char :: decimal idx ++ lit "]")) with (decimal idx ++ "]"%char :: []).
  rewrite (strtoul_decimal idx) by (done || lia). rewrite (u32_small idx) by lia. rewrite (u32_small (idx + 1)) by lia. f_equal. f_equal.
  - replace (q ++ "["%char :: decimal idx ++ lit "]") with ((q ++ "["%char :: decimal idx) ++ lit "]")
      by (by rewrite <- app_assoc).
    rewrite take_app_length'; [done|]. rewrite (length_app _ (lit "]")). cbn. lia.
  - change (q ++ "["%char :: decimal idx ++ lit "]") with (q ++ (lit "[" ++ (decimal idx ++ lit "]"))).
    rewrite (app_assoc q (lit "[") (decimal idx ++ _)), take_app_length' by (rewrite length_app; cbn; lia).
    by rewrite <- app_assoc.
Qed.

(** ** Preparation of a path *)

Definition written (w : cstr) : memory := Some <$> w.
Lemma written_cons c w : written (c :: w) = Some c :: written w.
Proof. done. Qed.

Lemma written_snoc w c r : written (w ++ [c]) ++ r = written w ++ Some c :: r.
Proof. unfold written. by rewrite fmap_app, <- app_assoc. Qed.

Lemma write_char_at w x r c : write_char (written w ++ x :: r) (length w) c = Ok (written (w ++ [c]) ++ r).
Proof.
  unfold write_char. rewrite store_Ok by (rewrite length_app; unfold written; rewrite length_fmap; cbn; lia).
  rewrite written_snoc, insert_app_mid by (by unfold written; rewrite length_fmap). done.
Qed.

Lemma write_chars_at w s r : (length s <= length r)%nat →
  write_chars (written w ++ r) (length w) s = Ok (written (w ++ s) ++ drop (length s) r).
Proof.
  revert w r. induction s as [|c s IH]; intros w r Hl; cbn [write_chars].
  { by rewrite app_nil_r. }
  destruct r as [|x r]; cbn in Hl; [lia|]. rewrite write_char_at, bind_Ok.
  replace (S (length w)) with (length (w ++ [c])) by (rewrite length_app; cbn; lia).
  rewrite IH by lia. by rewrite <- app_assoc.
Qed.

Lemma read_written w r : is_cstr w → read_string (written w ++ Some NUL :: r) = Ok w.
Proof.
  induction 1 as [|c w Hc _ IH]; [done|]. rewrite written_cons. cbn [app read_string].
  destruct (Ascii.eqb_spec c NUL); [done|]. by rewrite IH.
Qed.

Lemma read_unwritten w r : is_cstr w → read_string (written w ++ None :: r) = Fault Uninitialised.
Proof.
  induction 1 as [|c w Hc _ IH]; [done|]. rewrite written_cons. cbn [app read_string].
  destruct (Ascii.eqb_spec c NUL); [done|]. by rewrite IH.
Qed.

(** Characters before the first comma are not copied, later ones are. *)
Lemma encode_skip path s t i d : ","%char ∉ s → encode_loop path (s ++ t) i d 0 = encode_loop path t (i + length s) d 0.
Proof.
  revert i. induction s as [|c s IH]; intros i Hs; cbn; [by rewrite Nat.add_0_r|].
  apply not_elem_of_cons in Hs as [Hc Hs]. destruct (Ascii.eqb_spec c ","); [done|].
  rewrite IH by done. f_equal. lia.
Qed.

Lemma encode_copy path s t i w r : ","%char ∉ s → (length s <= length r)%nat → w ≠ [] →
  encode_loop path (s ++ t) i (Some (written w ++ r)) (length w) =
    encode_loop path t (i + length s) (Some (written (w ++ s) ++ drop (length s) r)) (length (w ++ s)).
Proof.
  revert i w r. induction s as [|c s IH]; intros i w r Hs Hl Hw.
  { cbn. by rewrite app_nil_r, Nat.add_0_r. }
  apply not_elem_of_cons in Hs as [Hc Hs]. destruct r as [|x r]; cbn in Hl; [lia|].
  cbn [app encode_loop]. destruct (Ascii.eqb_spec c ","); [done|].
  rewrite (proj2 (Nat.ltb_lt 0 (length w))) by (destruct w; cbn; done || lia).
  cbn [deref]. rewrite bind_Ok, write_char_at, bind_Ok.
  replace (S (length w)) with (length (w ++ [c])) by (rewrite length_app; cbn; lia).
  rewrite IH by (done || lia || by destruct w). rewrite <- app_assoc. cbn [app length drop]. f_equal. lia.
Qed.

(** The rest of a path without a comma, and the end of the string. *)
Lemma encode_rest path s i w x r : ","%char ∉ s → is_cstr s → is_cstr w → length s = length r → w ≠ [] →
  ('(path_d, j) ← encode_loop path s i (Some (written w ++ x :: r)) (length w);
   match path_d with
   | None => Ok None
   | Some m => m ← write_char m j NUL; s ← read_string m; Ok (Some s)
   end) = Ok (Some (w ++ s)).
Proof.
  intros Hs Hc Hcw Hl Hw. rewrite <- (app_nil_r s) at 1. rewrite encode_copy by (cbn; done || lia). cbn [encode_loop].
  rewrite bind_Ok. destruct (drop (length s) (x :: r)) as [|y r'] eqn:E.
  { apply (f_equal length) in E. rewrite length_drop in E. cbn in E. lia. }
  rewrite write_char_at, bind_Ok, written_snoc.
  by rewrite read_written by (by apply Forall_app).
Qed.

(** The first comma without the value of the context. *)
Lemma encode_first path s t : path = s ++ ","%char :: t →
  encode_loop path (","%char :: t) (length s) None 0 =
    encode_loop path t (S (length s)) (Some (written (s ++ [BSLASH; ","%char]) ++ replicate (S (length t)) None)) (length s + 2).
Proof.
  intros ->. cbn [encode_loop]. rewrite Nat.eqb_refl, bind_Ok.
  set (p := s ++ ","%char :: t). assert (malloc (length p + 2) = written [] ++ replicate (length s + (2 + S (length t))) None) as ->.
  { unfold malloc, p. cbn. f_equal. rewrite length_app. cbn. lia. }
  assert ((if (0 <? length s)%nat then
      m ← write_chars (written [] ++ replicate (length s + (2 + S (length t))) None) 0 (take (length s) p); Ok (m, length s)
    else Ok (written [] ++ replicate (length s + (2 + S (length t))) None, 0))
    = Ok (written s ++ replicate (2 + S (length t)) None, length s)) as E.
  { destruct s as [|c s]; [done|]. rewrite (proj2 (Nat.ltb_lt _ _)) by (cbn; lia).
    unfold p. rewrite take_app_length. rewrite (write_chars_at [] (c :: s)) by (rewrite length_replicate; lia).
    rewrite bind_Ok, drop_replicate.
    by replace (length (c :: s) + (2 + S (length t)) - length (c :: s))%nat with (2 + S (length t))%nat by lia. }
  cbn [andb]. rewrite E, bind_Ok. change (replicate (2 + S (length t)) None) with (None :: None :: replicate (S (length t)) (@None ascii)).
  rewrite write_char_at, bind_Ok.
  replace (S (length s)) with (length (s ++ [BSLASH])) at 1 by (rewrite length_app; cbn; lia).
  rewrite write_char_at, bind_Ok, <- app_assoc. f_equal. lia.
Qed.

(** Another comma: the string that [strlen] looks at does not end. *)
Lemma encode_again path t i w r : is_cstr w → w ≠ [] →
  encode_loop path (","%char :: t) i (Some (written w ++ None :: r)) (length w) = Fault Uninitialised.
Proof.
  intros Hw Hn. cbn [encode_loop]. destruct w as [|c w]; [done|]. cbn [length Nat.eqb deref].
  rewrite Ascii.eqb_refl, bind_Ok. change (written (c :: w) ++ None :: r) with (written (c :: w) ++ None :: r).
  by rewrite read_unwritten.
Qed.

Definition commas (p : cstr) : nat := length (filter (λ c, c = ","%char) p).

(** The path with a backslash in front of its comma. *)
Definition escaped (p : cstr) : cstr := p ≫= (λ c, if c =c "," then [BSLASH; c] else [c]).

Lemma commas_0 p : commas p = 0 ↔ ","%char ∉ p.
Proof.
  unfold commas. rewrite length_zero_iff_nil. induction p as [|c p IH]; [set_solver|].
  rewrite filter_cons, not_elem_of_cons. case_decide; [by split; [|intros [? _]]|]. rewrite IH. naive_solver.
Qed.

Lemma commas_split p n : commas p = S n → ∃ s t, p = s ++ ","%char :: t ∧ (","%char ∉ s) ∧ commas t = n.
Proof.
  induction p as [|c p IH]; [done|]. unfold commas. rewrite filter_cons. case_decide as Hc.
  - intros [= Hn]. subst c. exists [], p. set_solver.
  - intros (s & t & -> & Hs & Ht)%IH. exists (c :: s), t. set_solver.
Qed.

Lemma escaped_plain p : ","%char ∉ p → escaped p = p.
Proof.
  unfold escaped. induction p as [|c p IH]; [done|]. intros [Hc Hp]%not_elem_of_cons. cbn.
  destruct (Ascii.eqb_spec c ","); [done|]. cbn. by rewrite <- IH at 2.
Qed.

Lemma prepare_no_context p : is_cstr p →
  prepare_with None p = match commas p with
                        | 0 => Ok None
                        | 1 => Ok (Some (escaped p))
                        | _ => Fault Uninitialised
                        end.
Proof.
  intros Hp. unfold prepare_with. rewrite bind_Ok. destruct (commas p) as [|n] eqn:E.
  { apply commas_0 in E. rewrite <- (app_nil_r p) at 2. by rewrite encode_skip. }
  apply commas_split in E as (s & t & -> & Hs & Ht). rewrite encode_skip by done. cbn [Nat.add].
  rewrite encode_first by done.
  apply Forall_app in Hp as [Hcs Hct]. apply Forall_cons in Hct as [_ Hct].
  replace (length s + 2)%nat with (length (s ++ [BSLASH; ","%char])) by (rewrite length_app; cbn; lia).
  assert (s ++ [BSLASH; ","%char] ≠ []) as Hne by (by destruct s).
  assert (is_cstr (s ++ [BSLASH; ","%char])) as Hcw by (apply Forall_app; split; [done|by repeat constructor]).
  destruct n as [|n].
  - apply commas_0 in Ht. cbn [replicate]. rewrite encode_rest by (rewrite ?length_replicate; done). do 2 f_equal.
    unfold escaped. rewrite bind_app, bind_cons. fold (escaped s) (escaped t).
    by rewrite !escaped_plain, <- app_assoc by done.
  - apply commas_split in Ht as (t1 & t2 & -> & Ht1 & _). rewrite encode_copy by (rewrite ?length_replicate, ?length_app; cbn; done || lia).
    rewrite drop_replicate, length_app. cbn [length].
    replace (S (length t1 + S (length t2)) - length t1)%nat with (S (S (length t2))) by lia.
    cbn [replicate]. rewrite encode_again; [done| |by destruct s]. apply Forall_app in Hct as [Hct _]. by apply Forall_app.
Qed.

Lemma prepare_context val p : is_cstr val → is_cstr p → needs_context p = true →
  prepare_with (Some val) p = if (commas p =? 0)%nat then Ok (Some (val ++ lit "/" ++ p)) else Fault Uninitialised.
Proof.
  intros Hv Hp Hn. unfold prepare_with.
  assert (malloc (length val + 1 + length p + 1) = written [] ++ replicate (length (val ++ lit "/" ++ [NUL]) + length p) None) as ->.
  { unfold malloc. cbn. f_equal. rewrite !length_app. cbn. lia. }
  rewrite (write_chars_at []) by (rewrite length_replicate; lia).
  rewrite !bind_Ok, drop_replicate, Nat.add_comm, Nat.add_sub, app_nil_l.
  assert (written (val ++ lit "/" ++ [NUL]) ++ replicate (length p) None
    = written (val ++ lit "/") ++ Some NUL :: replicate (length p) None) as ->.
  { unfold written. by rewrite !fmap_app, <- !app_assoc. }
  replace (S (length val)) with (length (val ++ lit "/")) by (rewrite length_app; cbn; lia).
  assert (val ++ lit "/" ≠ []) as Hne by (by destruct val).
  assert (is_cstr (val ++ lit "/")) as Hcv by (apply Forall_app; split; [done|by repeat constructor]).
  destruct (commas p) as [|n] eqn:E.
  - apply commas_0 in E. by rewrite encode_rest, <- app_assoc by (rewrite ?length_replicate; done).
  - apply commas_split in E as (s & t & -> & Hs & _). apply Forall_app in Hp as [Hcs _].
    destruct s as [|c s]; [done|]. rewrite encode_copy by (cbn; rewrite ?length_replicate, ?length_app; done || cbn; lia).
    cbn [length drop]. rewrite drop_replicate, length_app. cbn [length].
    replace (S (length s) + S (length t) - length s)%nat with (S (S (length t))) by lia.
    cbn [replicate]. rewrite encode_again; [done|by apply Forall_app|by destruct val].
Qed.

(** ** Changes of the data of libaugeas *)

(** The calls of libaugeas that change its data. *)
Inductive aug_call :=
  | CSet (path : cstr) (value : option cstr)
  | CInsert (path label : cstr) (before : bool)
  | CRename (path label : cstr)
  | CMv (src dst : cstr)
  | CRm (path : cstr).

(** What has to be called for a change of the instance [idx] of a label. *)
Definition calls (op : augds_diff_op) (parent : option cstr) (label : cstr) (idx : Z) (anchor : option cstr) (before : bool)
    (v : option cstr) (back : bool) : list aug_call :=
  let path := join_path parent label idx in
  let next := join_path parent label (idx + 1) in
  let inserted := match anchor with Some a => [CInsert a label before] | None => [] end in
  match op with
  | AUGDS_OP_INSERT => inserted ++ [CSet path v]
  | AUGDS_OP_REPLACE => [CSet path v]
  | AUGDS_OP_RENAME => match anchor with Some a => [CRename a label] | None => [] end
  | AUGDS_OP_MOVE => inserted ++ [if back then CMv next path else CMv path next]
  | AUGDS_OP_DELETE => [CRm path]
  | AUGDS_OP_NONE | AUGDS_OP_UNKNOWN => []
  end.

Section changes.
Context `{SR : Sysrepo} `{Au : Augeas handle} `{AC : AugeasChanges handle} {D : Type} (fuel : nat).

Abbreviation state := (store_state (handle:=handle) (D:=D)).

(** The next call, and whether it has failed. *)
Definition call_once (h : handle) (c : aug_call) : handle * bool :=
  match c with
  | CSet p v => let '(h, r) := set h p v in (h, (r =? -1)%Z)
  | CInsert p l b => let '(h, r) := insert h p l b in (h, (r =? -1)%Z)
  | CRename p l => let '(h, r) := rename h p l in (h, (r =? -1)%Z)
  | CMv p q => let '(h, r) := mv h p q in (h, (r =? -1)%Z)
  | CRm p => let '(h, r) := rm h p in (h, (r =? 0)%Z)
  end.

(** The calls up to the first that fails. *)
Fixpoint perform (h : handle) (cs : list aug_call) : handle * option aug_call :=
  match cs with
  | [] => (h, None)
  | c :: cs' => let '(h', failed) := call_once h c in if (failed : bool) then (h', Some c) else perform h' cs'
  end.

(** A removal of nothing is an internal error, the others are errors of libaugeas. *)
Definition failure {A} (c : aug_call) : coded state A :=
  match c with
  | CRm _ => lift (Err SR_ERR_INTERNAL)
  | _ => on_session (raise_augeas (check_erraug fuel))
  end.

Definition outcome {A} (cs : list aug_call) (a : A) (st : state) : res (state * (Z + A)) :=
  let '(h, failed) := perform (session st).1 cs in
  let st' := Store (h, (session st).2) (trees st) in
  match failed with None => Ok (st', inr a) | Some c => failure c st' end.

(** An error of libaugeas ends what follows. *)
Lemma raise_augeas_bind {A B} (k : A → coded state B) st :
  (on_session (raise_augeas (check_erraug fuel)) ≫= k) st = on_session (raise_augeas (check_erraug fuel)) st.
Proof.
  unfold on_session, raise_augeas, attempt, mbind, coded_bind, lift.
  destruct (check_erraug fuel (session st)) as [[s [e|u]]| |]; done.
Qed.

Lemma failure_bind {A B} c (k : A → coded state B) st : (failure c ≫= k) st = failure c st.
Proof. destruct c; [apply raise_augeas_bind..|done]. Qed.

Definition call_m (c : aug_call) : coded state unit :=
  match c with
  | CSet p v => changed fuel (aug_change (λ h, set h p v))
  | CInsert p l b => changed fuel (aug_change (λ h, insert h p l b))
  | CRename p l => changed fuel (aug_change (λ h, rename h p l))
  | CMv p q => changed fuel (aug_change (λ h, mv h p q))
  | CRm p => r ← aug_change (λ h, rm h p); if (r =? 0)%Z then lift (Err SR_ERR_INTERNAL) else mret tt
  end.

Lemma outcome_cons {A} c cs (k : unit → coded state A) a st :
  (∀ st', k tt st' = outcome cs a st') → (call_m c ≫= k) st = outcome (c :: cs) a st.
Proof.
  intros Hk. destruct st as [[h l] d].
  assert (∀ m, m (Store (h, l) d) = (let '(h', failed) := call_once h c in
      let st' := Store (h', l) d in if (failed : bool) then failure c st' else Ok (st', inr tt)) →
    (m ≫= k) (Store (h, l) d) = outcome (c :: cs) a (Store (h, l) d)) as Hm.
  { intros m Hm. unfold mbind, coded_bind at 1. rewrite Hm. unfold outcome. cbn [perform session trees fst snd].
    destruct (call_once h c) as [h' []].
    - pose proof (failure_bind c k (Store (h', l) d)) as Hf. unfold mbind, coded_bind in Hf. by rewrite <- Hf.
    - rewrite Hk. unfold outcome. cbn [session trees fst snd]. done. }
  apply Hm. destruct c; cbn [call_m call_once]; unfold changed, aug_change.
  all: unfold mbind, coded_bind, on_session at 1; cbn [session trees fst snd].
  all: match goal with |- context [let '(_, _) := ?x in _] => destruct x as [h' r] end; cbn.
  1-4: by destruct (r =? -1)%Z.
  by destruct (r =? 0)%Z.
Qed.

Lemma outcome_nil {A} (a : A) st : mret (M:=coded state) a st = outcome [] a st.
Proof. by destruct st as [[h l] d]. Qed.

(** A path that is used as it is. *)
Definition usable (p : cstr) : Prop := is_cstr p ∧ needs_context p = false ∧ commas p = 0.

Lemma usable_prepared p (st : state) : usable p → augds_store_diff_apply_prepare_path fuel (Some p) st = Ok (st, inr None).
Proof.
  intros (Hc & Hn & H0). unfold augds_store_diff_apply_prepare_path. rewrite Hn.
  unfold mbind, coded_bind, mret, coded_ret, lift. by rewrite prepare_no_context, H0 by done.
Qed.

Lemma lift_Ok {A B} (a : A) (k : A → coded state B) st : (lift (Ok a) ≫= k) st = k a st.
Proof. done. Qed.

Lemma outcome_map {A B} cs (a : A) (f : A → B) (m : coded state A) st :
  m st = outcome cs a st → (m ≫= λ x, mret (f x)) st = outcome cs (f a) st.
Proof.
  unfold mbind at 1, coded_bind at 1. intros ->. unfold outcome. destruct (perform _ _) as [h [c|]]; [|done].
  exact (failure_bind c (λ x, mret (f x)) _).
Qed.

Ltac next_call := match goal with |- _ = outcome (?c :: _) _ _ => refine (outcome_cons c _ _ _ _ _); intros ? end.

Lemma prepared_applied op parent label idx anchor before v back (st : state) :
  plain_label label → (0 < idx < 2 ^ 32 - 1)%Z → op ≠ AUGDS_OP_UNKNOWN →
  (op = AUGDS_OP_RENAME ∨ op = AUGDS_OP_MOVE → is_Some anchor) →
  apply_prepared fuel op (join_path parent label idx) anchor before v back st =
    outcome (calls op parent label idx anchor before v back)
      (join_path parent label idx, bool_decide (op = AUGDS_OP_DELETE)) st.
Proof.
  intros Hl Hi Hop Han. pose proof (next_of_instance parent label idx Hi) as HN.
  assert (augds_store_diff_path_label (join_path parent label idx) = label) as HL by (apply path_of_instance; done || lia).
  revert HL HN. set (P := join_path parent label idx). set (Q := join_path parent label (idx + 1)). intros HL HN.
  unfold apply_prepared, insert_label. rewrite HL. destruct op; cbn [calls]; fold P Q.
  - done.
  - destruct anchor as [a|]; cbn [app]; [next_call|]; next_call; apply outcome_nil.
  - destruct st as [[h l] d]. unfold mbind, coded_bind, aug_change, on_session, outcome. cbn [session trees fst snd perform call_once].
    destruct (rm h P) as [h' r]. by destruct (r =? 0)%Z.
  - next_call. apply outcome_nil.
  - destruct Han as [a ->]; [by left|]. cbn [deref]. rewrite lift_Ok. next_call. apply outcome_nil.
  - destruct Han as [a ->]; [by right|]. cbn [deref app]. rewrite lift_Ok. next_call.
    rewrite HN, lift_Ok. destruct back; next_call; apply outcome_nil.
  - apply outcome_nil.
Qed.

(** C37: For paths that need no preparation (the path of the instance and the anchor do
    not start with a digit or a dollar sign and have no comma), a label without slashes
    and brackets and an index from 1 to 2^32 - 2, a change of an instance of the label
    calls libaugeas as its abstract description says: an insertion puts the label at the anchor and sets the value, a move puts
    the label at the anchor and moves the nodes from or to the next index, a renaming
    takes the label without index, a removal removes the path; the first call that
    fails ends it with an error, and the path stays as it is. *)
Theorem changes_applied op parent label idx anchor before v back (st : state) :
  plain_label label → (0 < idx < 2 ^ 32 - 1)%Z → usable (join_path parent label idx) →
  (∀ a, anchor = Some a → usable a) → op ≠ AUGDS_OP_UNKNOWN →
  (op = AUGDS_OP_RENAME ∨ op = AUGDS_OP_MOVE → is_Some anchor) →
  augds_store_diff_apply fuel op (Some (join_path parent label idx)) anchor before v back st =
    outcome (calls op parent label idx anchor before v back)
      (Some (join_path parent label idx), bool_decide (op = AUGDS_OP_DELETE)) st.
Proof.
  intros Hl Hi Hp Ha Hop Han.
  assert (augds_store_diff_apply_prepare_path fuel anchor st = Ok (st, inr None)) as HA.
  { destruct anchor; [by apply usable_prepared, Ha|done]. }
  unfold augds_store_diff_apply. unfold mbind at 1, coded_bind at 1. rewrite usable_prepared by done.
  unfold mbind at 1, coded_bind at 1. rewrite HA. cbn [default prepared].
  pose proof (prepared_applied op parent label idx anchor before v back st Hl Hi Hop Han) as H.
  apply (outcome_map _ _ (λ x, (Some x.1, x.2))) in H. cbn [fst snd] in H. rewrite <- H. unfold mbind, coded_bind.
  by destruct (apply_prepared _ _ _ _ _ _ _ _) as [[? [?|[? ?]]]| |].
Qed.

(** C38: A path that starts with a digit or a dollar sign gets the context in front
    of it, provided that it has no comma; another path is used as it is without a comma,
    and a single comma gets its backslash.  Every path with more commas makes [strlen] read memory that was not written. *)
Theorem prepared_paths p val h h' l (d : D) :
  is_cstr p → is_cstr val → aug_get h (lit "/augeas/context") = (h', (1%Z, Some val)) →
  augds_store_diff_apply_prepare_path fuel (Some p) (Store (h, l) d) =
    match needs_context p, commas p with
    | false, 0 => Ok (Store (h, l) d, inr None)
    | false, 1 => Ok (Store (h, l) d, inr (Some (escaped p)))
    | true, 0 => Ok (Store (h', l) d, inr (Some (val ++ lit "/" ++ p)))
    | _, _ => Fault Uninitialised
    end.
Proof.
  intros Hp Hv Hg. unfold augds_store_diff_apply_prepare_path. destruct (needs_context p) eqn:Hn.
  - unfold mbind, coded_bind, on_session, get_one, get, mbind, coded_bind, mret, coded_ret, lift. cbn [session trees fst snd].
    rewrite Hg. cbn [Z.eqb Pos.eqb deref]. rewrite prepare_context by done. by destruct (commas p).
  - unfold mbind, coded_bind, mret, coded_ret, lift. rewrite prepare_no_context by done.
    by destruct (commas p) as [|[|]].
Qed.
End changes.

(** A handle that records the calls. *)
#[local] Instance codes : Sysrepo := {|
  SR_ERR_INVAL_ARG := 1; SR_ERR_SYS := 2; SR_ERR_INTERNAL := 3; SR_ERR_NOT_FOUND := 4;
  SR_ERR_UNAUTHORIZED := 5; SR_ERR_NO_MEMORY := 6; SR_ERR_OPERATION_FAILED := 7; SR_ERR_LY := 8 |}.
#[local] Instance reads : Augeas (list aug_call) := {|
  aug_error := λ _, AUG_NOERROR;
  aug_match := λ h _, (h, Some []);
  aug_get := λ h _, (h, (1%Z, Some (lit "/files"))) |}.
#[local] Instance records : AugeasChanges (list aug_call) := {|
  set := λ h p v, (h ++ [CSet p v], 0%Z);
  insert := λ h p l b, (h ++ [CInsert p l b], 0%Z);
  rename := λ h p l, (h ++ [CRename p l], 1%Z);
  mv := λ h p q, (h ++ [CMv p q], 0%Z);
  rm := λ h p, (h ++ [CRm p], 1%Z) |}.

Definition session_of (h : list aug_call) : store_state := Store (h, @nil cstr) tt.

Theorem changes_applied_witness :
  augds_store_diff_apply 1 AUGDS_OP_MOVE (Some (lit "/files/etc/hosts/alias[9]")) (Some (lit "/files/etc/hosts/alias[3]")) true
    None true (session_of []) =
  Ok (session_of [CInsert (lit "/files/etc/hosts/alias[3]") (lit "alias") true;
        CMv (lit "/files/etc/hosts/alias[10]") (lit "/files/etc/hosts/alias[9]")],
      inr (Some (lit "/files/etc/hosts/alias[9]"), false)).
Proof.
  refine (changes_applied 1 AUGDS_OP_MOVE (Some (lit "/files/etc/hosts")) (lit "alias") 9 (Some (lit "/files/etc/hosts/alias[3]"))
    true None true (session_of []) _ _ _ _ _ _); try done.
  - split; compute_done.
  - split_and!; [compute_done|reflexivity..].
  - intros a [= <-]. split_and!; [compute_done|reflexivity..].
Defined.

Theorem prepared_paths_witness :
  augds_store_diff_apply_prepare_path 1 (Some (lit "1/alias,2")) (session_of []) = Fault Uninitialised.
Proof. apply (prepared_paths 1 (lit "1/alias,2") (lit "/files") [] []); [compute_done..|reflexivity]. Defined.
