(* ===== verification/SrdsAugeas.v ===== *)
(** [src/srds_augeas/srds_augeas.c]: the callbacks of the datastore plug-in.  They put
    the other parts of it together: the augnodes, the loading and the storing of data.
    The file system is a map of contents; the system calls on it are parameters. *)
From stdpp Require Import gmap strings.
From S2P Require Import Prelude CString Common SrdsCommon SrdsLoad SrdsInit SrdsStore.
#[local] Open Scope cstr_scope.

(** The datastores, and the code for one that is not supported. *)
Inductive sr_datastore := SR_DS_STARTUP | SR_DS_OTHER.
Class Datastores := { SR_ERR_UNSUPPORTED : Z }.

(** [aug_save]: -1 is an error. *)
Class AugeasSave (handle : Type) := { aug_save : handle → handle * Z }.

(** Data as a whole: no data, the first node, the difference to other data, which gets
    nodes of its own, validity. *)
Class DataSets (D : Type) := {
  no_data : D;
  first_node : D → option nat;
  lyd_diff_siblings : D → D → option (D * option nat);
  lyd_validate_module : D → nat → bool }.

(** What [stat] tells: the owner, the group, the mode, the seconds of the last change. *)
Record file_stat := FileStat { st_uid : Z; st_gid : Z; st_mode : Z; st_mtime : Z }.

(** The system. *)
Class FileSystem := {
  access : files → string → option errno;
  unlink : files → string → option errno;
  stat : files → string → file_stat + errno;
  eaccess : files → string → bool → option errno;
  open_errno : files → string → bool → option errno;
  read_bytes : nat → nat → nat + errno;
  write_bytes : nat → nat → nat + errno;
  passwd_max : Z; group_max : Z;
  passwd_entry : wanted → Z → option errno * option entry;
  group_entry : wanted → Z → option errno * option entry;
  owner_outcome : SrdsCommon.call → option errno }.

Definition path_of (s : cstr) : string := String.string_of_list_ascii s.
Definition AUG_FILE_BACKUP_SUFFIX : cstr := lit ".augsave".

Section plugin.
Context `{Sysrepo} `{Datastores} `{FileSystem} {handle : Type} {pcode D : Type}.
Context `{Augeas handle} `{AugeasSetup handle} `{AugeasChanges handle} `{AugeasSave handle}.
Context `{Libyang D} `{DataTree D} `{DataSets D} `{LibyangSchema} `{StoreSchema}.
Context (schema_of : nat → schema_node) (string_patterns : nat → list (pcode * bool)) (module_exts : nat → list ext_instance).
Context (pcre2_compile : cstr → option pcode) (pcre2_match : pcode → cstr → pcre_result) (fuel : nat).

Abbreviation infos := (auginfo (handle:=handle) (pcode:=pcode)).

(** [auginfo] with the [next_idx] of its augnodes, the files, and the changes of owners
    and modes. *)
Record plugin := Plugin {
  info : infos; indices : list Z; disk : files; owner_calls : list SrdsCommon.call }.
Abbreviation plugin_m := (coded plugin).

(** ** The parts *)

(** New augnodes have the index 0. *)
Definition fit (l : list Z) (n : nat) : list Z := take n l ++ replicate (n - length l) 0%Z.
Definition on_info {A} (m : coded infos A) : plugin_m A := λ st,
  match m (info st) with
  | Ok (i, r) => Ok (Plugin i (fit (indices st) (length (augnodes i))) (disk st) (owner_calls st), r)
  | Err e => Err e
  | Fault f => Fault f
  end.
Definition init (m : nat) : plugin_m nat :=
  on_info (augds_init schema_of string_patterns pcre2_compile fuel module_exts m).

Definition with_session (i : infos) (s : handle * list cstr) : infos :=
  AugInfo (Some s.1) s.2 (mods i) (pcode_uint64 i) (augnodes i).
(** What needs the handle and the log. *)
Definition on_handle {A} (m : coded (handle * list cstr) A) : plugin_m A :=
  on_info (λ i,
    h ← deref (aug i);
    '(s, r) ← m (h, logged i);
    Ok (with_session i s, r)).
Definition warn (s : cstr) : plugin_m unit :=
  on_info (λ i, Ok (AugInfo (aug i) (logged i ++ [s]) (mods i) (pcode_uint64 i) (augnodes i), inr tt)).

(** The loading of one file, which adds to the data. *)
Definition load_file (top : list nat) (file : cstr) (d : D) : plugin_m D := λ st,
  h ← deref (aug (info st));
  '(l, r) ← augds_aug2yang_augnode_r pcre2_match schema_of (augnodes (info st)) fuel fuel top file None
              (Load (h, logged (info st)) d (indices st));
  Ok (Plugin (with_session (info st) (SrdsLoad.session l)) (next_idx l) (disk st) (owner_calls st),
      match r with inl e => inl e | inr _ => inr (yang l) end).

(** The storing of the diff of one file. *)
Definition on_store (m : coded (store_state (handle:=handle) (D:=D)) unit) (d : D) : plugin_m D := λ st,
  h ← deref (aug (info st));
  '(s, r) ← m (Store (h, logged (info st)) d);
  Ok (Plugin (with_session (info st) (session s)) (indices st) (disk st) (owner_calls st),
      match r with inl e => inl e | inr _ => inr (trees s) end).

(** A call on the files, or on owners and modes. *)
Definition on_disk {A} (m : coded files A) : plugin_m A := λ st,
  '(fs, r) ← m (disk st); Ok (Plugin (info st) (indices st) fs (owner_calls st), r).
Definition on_owners {A} (m : coded (list SrdsCommon.call) A) : plugin_m A := λ st,
  '(l, r) ← m (owner_calls st); Ok (Plugin (info st) (indices st) (disk st) l, r).

Definition check_aug_error : plugin_m unit := on_handle (augds_check_erraug fuel fuel).
Definition config_files (m : nat) (fs_path : bool) : plugin_m (list cstr) :=
  on_handle (augds_get_config_files fuel fuel (module_exts m) fs_path).

(** ** Callbacks *)

Definition srpds_aug_install (ds : sr_datastore) : plugin_m unit :=
  match ds with SR_DS_STARTUP => mret tt | SR_DS_OTHER => lift (Err SR_ERR_UNSUPPORTED) end.

Definition srpds_aug_uninstall : plugin_m unit := on_info augds_destroy.

Definition srpds_aug_init : plugin_m unit := mret tt.

Fixpoint load_files (top : list nat) (files : list cstr) (d : D) : plugin_m D :=
  match files with
  | [] => mret d
  | f :: files' => d ← load_file top f d; load_files top files' d
  end.

(** The data are reloaded when the files have changed. *)
Definition reload : plugin_m unit :=
  _ ← on_handle (λ s, Ok (aug_load s.1, s.2, inr tt));
  check_aug_error.

(** The data; none after an error. *)
Definition srpds_aug_load (m : nat) : plugin_m D :=
  k ← init m;
  _ ← reload;
  files ← config_files m false;
  augmod ← on_info (λ i, lift (fetch (mods i) k) i);
  d ← load_files (toplevel augmod) files no_data;
  _ ← lift (c_assert (lyd_validate_module d (module_of augmod)));
  mret d.

Definition set_context (file : cstr) : plugin_m unit :=
  r ← on_handle (λ s, let '(h, r) := set s.1 (lit "/augeas/context") (Some file) in Ok (h, s.2, inr r));
  if (r =? -1)%Z then on_handle (raise_augeas (augds_check_erraug fuel fuel)) else mret tt.

(** The changed files, one after the other. *)
Fixpoint store_files (nodes : list nat) (cur_data : option nat) (d : D) : plugin_m D :=
  match nodes with
  | [] => mret d
  | n :: nodes' =>
      _ ← set_context (lit "/files" ++ get_value d n);
      root ← lift (deref (parent_of d n));
      d ← on_store (op ← augds_diff_get_op schema_of fuel root AUGDS_OP_UNKNOWN;
                    augds_store_diff_r schema_of fuel fuel root None op cur_data) d;
      store_files nodes' cur_data d
  end.

Definition save : plugin_m unit :=
  r ← on_handle (λ s, let '(h, r) := aug_save s.1 in Ok (h, s.2, inr r));
  if (r =? -1)%Z then on_handle (raise_augeas (augds_check_erraug fuel fuel)) else mret tt.

Definition srpds_aug_store (m : nat) (mod_data : D) : plugin_m unit :=
  _ ← init m;
  cur_data ← srpds_aug_load m;
  match lyd_diff_siblings cur_data mod_data with
  | None => lift (Err SR_ERR_LY)
  | Some (_, None) => mret tt
  | Some (d, Some diff) =>
      match find_xpath d (Some diff) (lit "/*/config-file") with
      | None => lift (Err SR_ERR_LY)
      | Some nodes =>
          _ ← store_files nodes (first_node cur_data) d;
          save
      end
  end.

(** ** Recovery *)

Definition remove_file (path : string) : coded files unit := λ fs,
  match unlink fs path with
  | Some _ => Ok (fs, inl SR_ERR_SYS)
  | None => Ok (delete path fs, inr tt)
  end.

Definition recover_file (file : cstr) : plugin_m unit :=
  let bck_path := path_of (file ++ AUG_FILE_BACKUP_SUFFIX) in
  exists_ ← on_disk (λ fs, Ok (fs, inr (augds_file_exists (access fs) bck_path)));
  if (exists_ : bool) then
    _ ← warn (lit "Recovering backup file for " ++ [DQUOTE] ++ file ++ [DQUOTE] ++ lit ".");
    _ ← on_disk (augds_cp_path open_errno read_bytes write_bytes fuel (path_of file) bck_path);
    on_disk (remove_file bck_path)
  else warn (lit "No backup for " ++ [DQUOTE] ++ file ++ [DQUOTE] ++ lit " to recover.").

Fixpoint recover_files (files : list cstr) : plugin_m unit :=
  match files with
  | [] => mret tt
  | f :: files' => _ ← recover_file f; recover_files files'
  end.

(** The callback has no result: an error ends it. *)
Definition srpds_aug_recover (m : nat) : plugin_m unit :=
  r ← attempt (_ ← init m;
               r ← attempt (srpds_aug_load m);
               match r with
               | inr _ => mret tt
               | inl _ => files ← config_files m true; recover_files files
               end);
  mret tt.

(** ** The other callbacks *)

Definition srpds_aug_copy : plugin_m unit := lift (Err SR_ERR_INTERNAL).
Definition srpds_aug_candidate_modified : plugin_m unit := lift (Err SR_ERR_INTERNAL).
Definition srpds_aug_candidate_reset : plugin_m unit := lift (Err SR_ERR_INTERNAL).

Fixpoint set_access (files : list cstr) (owner group : option cstr) (perm : Z) : plugin_m unit :=
  match files with
  | [] => mret tt
  | f :: files' =>
      _ ← on_owners (augds_chmodown passwd_max group_max passwd_entry group_entry fuel owner_outcome (path_of f) owner group perm);
      set_access files' owner group perm
  end.

Definition srpds_aug_access_set (m : nat) (owner group : option cstr) (perm : Z) : plugin_m unit :=
  _ ← lift (c_assert (bool_decide (is_Some owner) || bool_decide (is_Some group) || negb (perm =? 0)%Z));
  _ ← init m;
  files ← config_files m true;
  match files with
  | [] => lift (Err SR_ERR_INTERNAL)
  | _ => set_access files owner group perm
  end.

(** The results, of which the caller wants some. *)
Record access_result := Access { owner : option cstr; group : option cstr; perm : option Z }.

Definition on_stat (file : cstr) (failed : errno → Z) : plugin_m file_stat :=
  on_disk (λ fs, match stat fs (path_of file) with inl s => Ok (fs, inr s) | inr e => Ok (fs, inl (failed e)) end).

Definition srpds_aug_access_get (m : nat) (want_owner want_group want_perm : bool) : plugin_m access_result :=
  let only {A} (b : bool) (a : A) := if b then Some a else None in
  _ ← init m;
  files ← config_files m true;
  match files with
  | [] => mret (Access (only want_owner (lit "<unknown>")) (only want_group (lit "<unknown>")) (only want_perm 0%Z))
  | f :: _ =>
      s ← on_stat f (λ e, if bool_decide (e = EACCES) then SR_ERR_UNAUTHORIZED else SR_ERR_SYS);
      o ← (if want_owner then '(_, o) ← lift (augds_get_pwd passwd_max passwd_entry fuel (st_uid s) None); mret o else mret None);
      g ← (if want_group then '(_, g) ← lift (augds_get_grp group_max group_entry fuel (st_gid s) None); mret g else mret None);
      mret (Access o g (only want_perm (Z.land (st_mode s) 4095)))
  end.

(** Whether a file can be read, or written to. *)
Definition can_access (file : cstr) (write : bool) : plugin_m bool :=
  on_disk (λ fs, match eaccess fs (path_of file) write with
                 | None => Ok (fs, inr true)
                 | Some e => Ok (fs, if bool_decide (e = EACCES) then inr false else inl SR_ERR_SYS)
                 end).

Definition srpds_aug_access_check (m : nat) (read write : bool) : plugin_m (option bool * option bool) :=
  let only {A} (b : bool) (a : A) := if b then Some a else None in
  _ ← init m;
  files ← config_files m true;
  match files with
  | [] => mret (only read true, only write true)
  | f :: _ =>
      r ← (if read then x ← can_access f false; mret (Some x) else mret None);
      w ← (if write then x ← can_access f true; mret (Some x) else mret None);
      mret (r, w)
  end.

Fixpoint latest (files : list cstr) (mtime : Z) : plugin_m Z :=
  match files with
  | [] => mret mtime
  | f :: files' =>
      s ← on_stat f (λ _, SR_ERR_SYS);
      latest files' (if (mtime <? st_mtime s)%Z then st_mtime s else mtime)
  end.

Definition srpds_aug_last_modif (m : nat) : plugin_m Z :=
  _ ← init m;
  _ ← reload;
  files ← config_files m false;
  latest files 0.

(** ** [ay_startup] *)

(** The exit status of the program that prints the data of a module; it is given the
    number of arguments, whether there is a context of libyang, the module that was
    loaded, and whether the data could be printed. *)
Definition ay_startup (argc : nat) (ctx : bool) (loaded : option nat) (print : D → bool) : plugin_m Z :=
  if negb (argc =? 2)%nat || negb ctx then mret 1%Z
  else
    match loaded with
    | None => mret 1%Z
    | Some m =>
        r ← attempt (srpds_aug_load m);
        mret match r with
             | inl _ => 1%Z
             | inr data => if print data then 0%Z else 1%Z
             end
    end.
End plugin.
