(* ===== verification/SrdsAugeasTheorems.v ===== *)
(** Theorems on the callbacks of the datastore plug-in: the recovery of files from
    their backups, the time of the last change. *)
From stdpp Require Import gmap strings.
From S2P Require Import Prelude CString Common SrdsCommon SrdsTheorems SrdsLoad SrdsInit SrdsStore SrdsAugeas.
#[local] Open Scope cstr_scope.

(** ** Backups *)

Definition backup_of (f : cstr) : string := path_of (f ++ AUG_FILE_BACKUP_SUFFIX).

Lemma path_of_inj f g : path_of f = path_of g → f = g.
Proof. intros E%(f_equal String.list_ascii_of_string). unfold path_of in E. by rewrite !String.list_ascii_of_string_of_list_ascii in E. Qed.

Lemma backup_of_inj f g : backup_of f = backup_of g → f = g.
Proof. intros E%path_of_inj. by apply app_inj_2 in E as [-> _]. Qed.

(** What becomes of the files. *)
Definition restore (fs : files) (f : cstr) : files :=
  match fs !! backup_of f with
  | Some content => delete (backup_of f) (<[path_of f := content]> fs)
  | None => fs
  end.

(** The files exist, and none is the backup of another. *)
Definition separate (l : list cstr) (fs : files) : Prop :=
  ∀ f, f ∈ l → is_Some (fs !! path_of f) ∧ ∀ g, g ∈ l → path_of f ≠ backup_of g.

Lemma restore_separate l fs f : f ∈ l → separate l fs → separate l (restore fs f).
Proof.
  intros Hf Hs g Hg. destruct (Hs g Hg) as [Hex Hne]. split; [|done].
  unfold restore. destruct (fs !! backup_of f); [|done].
  rewrite lookup_delete_ne by (specialize (Hne f Hf); congruence).
  destruct (decide (path_of f = path_of g)) as [->|?]; [by rewrite lookup_insert_eq|by rewrite lookup_insert_ne].
Qed.

Lemma separate_cons f l fs : separate (f :: l) fs → separate l (restore fs f).
Proof.
  intros Hs. apply (restore_separate (f :: l) fs f) in Hs; [|set_solver].
  intros g Hg. destruct (Hs g) as [Hex Hne]; [set_solver|]. split; [done|]. intros h Hh. apply Hne. set_solver.
Qed.

(** What one restoration leaves as it is. *)
Lemma restore_other fs f p :
  (is_Some (fs !! backup_of f) → p ≠ path_of f ∧ p ≠ backup_of f) → restore fs f !! p = fs !! p.
Proof.
  unfold restore. destruct (fs !! backup_of f); [|done]. intros [H1 H2]; [done|].
  by rewrite lookup_delete_ne, lookup_insert_ne.
Qed.

(** Later restorations keep a file without backup. *)
Lemma restored_kept l f fs :
  (∀ g, g ∈ l → path_of f ≠ backup_of g) → (∀ g, g ∈ l → path_of g ≠ backup_of f) → fs !! backup_of f = None →
  foldl restore fs l !! path_of f = fs !! path_of f ∧ foldl restore fs l !! backup_of f = None.
Proof.
  revert fs. induction l as [|g l IH]; intros fs H1 H2 Hb; [done|]. cbn [foldl].
  assert (∀ p, p = path_of f ∨ p = backup_of f → restore fs g !! p = fs !! p) as Hk.
  { intros p Hp. apply restore_other. intros [c Hc]. assert (g ≠ f) as Hgf by (intros ->; congruence).
    split; destruct Hp as [-> | ->].
    - intros E%path_of_inj. done.
    - intros E. by eapply H2; [left|].
    - apply H1. by left.
    - intros E%backup_of_inj. done. }
  rewrite <- (Hk (path_of f)), <- (Hk (backup_of f)) in * by auto.
  apply IH; [intros; apply H1; by right|intros; apply H2; by right|done].
Qed.

Lemma restored_backup l f fs content :
  separate l fs → f ∈ l → fs !! backup_of f = Some content →
  foldl restore fs l !! path_of f = Some content ∧ foldl restore fs l !! backup_of f = None.
Proof.
  revert fs. induction l as [|g l IH]; intros fs Hs Hf Hb; [by apply not_elem_of_nil in Hf|]. cbn [foldl].
  assert (∀ h, h ∈ g :: l → path_of f ≠ backup_of h) as Hn1 by (intros; by apply (Hs f)).
  assert (∀ h, h ∈ g :: l → path_of h ≠ backup_of f) as Hn2 by (intros h Hh; by apply (Hs h)).
  destruct (decide (f = g)) as [<-|Hne].
  - destruct (restored_kept l f (restore fs f)) as [E1 E2].
    { intros h Hh. apply Hn1. by right. } { intros h Hh. apply Hn2. by right. }
    { unfold restore. rewrite Hb. by rewrite lookup_delete_eq. }
    rewrite E1, E2. unfold restore. rewrite Hb. split; [|done].
    rewrite lookup_delete_ne by (apply not_eq_sym, Hn1; by left). by rewrite lookup_insert_eq.
  - apply elem_of_cons in Hf as [?|Hf]; [done|]. apply IH; [by apply separate_cons|done|].
    rewrite restore_other; [done|]. intros _. split; [apply not_eq_sym, Hn2; by left|]. by intros E%backup_of_inj.
Qed.

Lemma restored_other l p fs :
  separate l fs → (∀ f, f ∈ l → is_Some (fs !! backup_of f) → p ≠ path_of f ∧ p ≠ backup_of f) →
  foldl restore fs l !! p = fs !! p.
Proof.
  revert fs. induction l as [|g l IH]; intros fs Hs Hp; [done|]. cbn [foldl].
  rewrite IH; [apply restore_other, Hp; by left|by apply separate_cons|].
  intros f Hf Hb. apply Hp; [by right|]. destruct (decide (g = f)) as [->|Hne].
  - unfold restore in Hb. destruct (fs !! backup_of f) eqn:E; [done|]. by rewrite E in Hb.
  - revert Hb. rewrite restore_other; [done|]. intros _. split; [|by intros E%backup_of_inj].
    apply not_eq_sym, (Hs g); [by left|by right].
Qed.

Section recovery.
Context `{SR : Sysrepo} `{DS : Datastores} `{FS : FileSystem} {handle pcode D : Type}.
Context `{Au : Augeas handle} `{AS : AugeasSetup handle} `{AC : AugeasChanges handle} `{SV : AugeasSave handle}.
Context `{LY : Libyang D} `{DT : DataTree D} `{DD : DataSets D} `{LS : LibyangSchema} `{ST : StoreSchema}.
Context (schema_of : nat → schema_node) (string_patterns : nat → list (pcode * bool)) (module_exts : nat → list ext_instance).
Context (pcre2_compile : cstr → option pcode) (pcre2_match : pcode → cstr → pcre_result).

Abbreviation plugin := (plugin (handle:=handle) (pcode:=pcode)).

(** The file system works: [access] tells which files exist, these can be opened and
    removed, [read] and [write] transfer bytes. *)
Record working : Prop := {
  access_tells : ∀ fs p, access fs p = None ↔ is_Some (fs !! p);
  open_works : ∀ fs p w, is_Some (fs !! p) → open_errno fs p w = None;
  unlink_works : ∀ fs p, is_Some (fs !! p) → unlink fs p = None;
  transfers : reliable read_bytes write_bytes;
  progresses : fair write_bytes }.
Context (W : working).

Definition with_disk (st : plugin) (fs : files) : plugin := Plugin (info st) (indices st) fs (owner_calls st).

Lemma bind_step {A B} (m : coded plugin A) (k : A → coded plugin B) st st' a :
  m st = Ok (st', inr a) → (m ≫= k) st = k a st'.
Proof. unfold mbind, coded_bind. by intros ->. Qed.

Lemma on_disk_step {A} (m : coded files A) (st : plugin) fs a :
  m (disk st) = Ok (fs, inr a) → on_disk m st = Ok (with_disk st fs, inr a).
Proof. unfold on_disk. by intros ->. Qed.

Lemma warn_step s (st : plugin) : ∃ st', warn s st = Ok (st', inr tt) ∧ disk st' = disk st.
Proof. by eexists. Qed.

Lemma recover_file_restores f fs :
  is_Some (fs !! path_of f) → path_of f ≠ backup_of f →
  ∃ fuel, ∀ fuel', (fuel <= fuel')%nat → ∀ st : plugin, disk st = fs →
    ∃ st', recover_file fuel' f st = Ok (st', inr tt) ∧ disk st' = restore fs f.
Proof.
  intros [x Hx] Hne. unfold restore. destruct (fs !! backup_of f) as [content|] eqn:Hb.
  - destruct (cp_path_copies open_errno read_bytes write_bytes (path_of f) (backup_of f) content x fs) as [fuel Hc];
      [done|done|done|by apply W|by apply W|by apply W|by apply W|].
    exists fuel. intros fuel' Hle st <-. unfold recover_file. fold (backup_of f).
    erewrite bind_step. 2: { apply on_disk_step. unfold augds_file_exists. by rewrite (proj2 (access_tells W _ _)). }
    destruct (warn_step (lit "Recovering backup file for " ++ [DQUOTE] ++ f ++ [DQUOTE] ++ lit ".") (with_disk st (disk st)))
      as (st1 & E & Hd). rewrite (bind_step _ _ _ _ _ E).
    erewrite bind_step. 2: { apply on_disk_step. rewrite Hd. by apply Hc. }
    eexists. split; [apply on_disk_step|reflexivity]. unfold remove_file. cbn [disk with_disk].
    rewrite (unlink_works W); [done|]. by rewrite lookup_insert_ne.
  - exists 0. intros fuel' Hle st <-. unfold recover_file. fold (backup_of f).
    erewrite bind_step. 2: { apply on_disk_step. unfold augds_file_exists.
      destruct (FS.(access) (disk st) (backup_of f)) eqn:E; [done|].
      apply (access_tells W) in E as [? E]. congruence. }
    destruct (warn_step (lit "No backup for " ++ [DQUOTE] ++ f ++ [DQUOTE] ++ lit " to recover.") (with_disk st (disk st)))
      as (st1 & E & Hd). exists st1. split; [done|]. by rewrite Hd.
Qed.

Lemma recover_files_restores l fs : separate l fs →
  ∃ fuel, ∀ fuel', (fuel <= fuel')%nat → ∀ st : plugin, disk st = fs →
    ∃ st', recover_files fuel' l st = Ok (st', inr tt) ∧ disk st' = foldl restore fs l.
Proof.
  revert fs. induction l as [|f l IH]; intros fs Hs; [exists 0; by eauto|].
  destruct (recover_file_restores f fs) as [f1 H1]; [apply Hs; set_solver|apply (Hs f); set_solver|].
  destruct (IH (restore fs f) (separate_cons _ _ _ Hs)) as [f2 H2].
  exists (f1 + f2). intros fuel' Hle st Hd. destruct (H1 fuel' ltac:(lia) st Hd) as (st1 & E1 & Hd1).
  destruct (H2 fuel' ltac:(lia) st1 Hd1) as (st2 & E2 & Hd2).
  exists st2. split; [|done]. cbn [recover_files]. by rewrite (bind_step _ _ _ _ _ E1).
Qed.

(** C39: When the data of a module cannot be loaded, although its initialization and the
    search for its parsed files succeed, the parsed files exist and none of them is the
    backup of another, and the system opens, reads, writes and removes files without an
    error (reads and writes may be partial, writes interrupted), the recovery ends, and then
    every parsed file that has a backup has the content of the backup, whose file is gone;
    all other files are as they were. *)
Theorem recover_restores m l fs : separate l fs →
  ∃ fuel, ∀ fuel', (fuel <= fuel')%nat → ∀ (st st1 st2 st3 : plugin) k e,
    init schema_of string_patterns module_exts pcre2_compile fuel' m st = Ok (st1, inr k) →
    srpds_aug_load schema_of string_patterns module_exts pcre2_compile pcre2_match fuel' m st1 = Ok (st2, inl e) →
    config_files module_exts fuel' m true st2 = Ok (st3, inr l) → disk st3 = fs →
    ∃ st', srpds_aug_recover schema_of string_patterns module_exts pcre2_compile pcre2_match fuel' m st = Ok (st', inr tt) ∧
      (∀ f content, f ∈ l → fs !! backup_of f = Some content →
         disk st' !! path_of f = Some content ∧ disk st' !! backup_of f = None) ∧
      (∀ p, (∀ f, f ∈ l → is_Some (fs !! backup_of f) → p ≠ path_of f ∧ p ≠ backup_of f) → disk st' !! p = fs !! p).
Proof.
  intros Hs. destruct (recover_files_restores l fs Hs) as [fuel Hf]. exists fuel.
  intros fuel' Hle st st1 st2 st3 k e Hi Hl Hc Hd. destruct (Hf fuel' Hle st3 Hd) as (st' & E & Hd').
  exists st'. split; [|split].
  - unfold srpds_aug_recover. unfold attempt at 1, mbind at 1, coded_bind at 1.
    rewrite (bind_step _ _ _ _ _ Hi). unfold attempt, mbind at 1, coded_bind at 1. rewrite Hl.
    rewrite (bind_step _ _ _ _ _ Hc), E. done.
  - intros f content Hin Hb. rewrite Hd'. by apply restored_backup.
  - intros p Hp. rewrite Hd'. by apply restored_other.
Qed.
(** ** The time of the last change *)

(** A path of libaugeas for a file. *)
Definition augeas_path (v : cstr) : Prop := ∃ p, v = lit "/files/" ++ p.

Lemma collect_augeas_paths check labels acc s s' l :
  collect_files check false labels acc s = Ok (s', inr l) → Forall augeas_path acc → Forall augeas_path l.
Proof.
  revert acc s. induction labels as [|x labels IH]; intros acc s; cbn [collect_files].
  { intros [= <- <-]. done. }
  intros (s1 & v & Hv & H)%coded_bind_inv Hacc. apply coded_bind_inv in H as (s2 & w & Hw & H).
  apply coded_bind_inv in H as (s3 & u & Ha & H). revert H Hacc. intros H Hacc. eapply IH; [exact H|].
  apply Forall_app. split; [done|]. constructor; [|done]. apply lift_inv in Ha as [Ha ->].
  apply c_assert_inv in Ha. exists (drop 7 w).
  apply bool_decide_eq_true in Ha. rewrite <- (take_drop 7 w) at 1. by rewrite Ha.
Qed.

Lemma config_files_paths fuel m (st st' : plugin) l :
  config_files module_exts fuel m false st = Ok (st', inr l) → Forall augeas_path l.
Proof.
  unfold config_files, on_handle, on_info. intros H.
  destruct (aug (info st)) as [h|]; [|done]. cbn [deref] in H. rewrite bind_Ok in H.
  destruct (augds_get_config_files fuel fuel (module_exts m) false _) as [[s r]| |] eqn:E; [|done|done].
  rewrite bind_Ok in H. injection H as _ ->. unfold augds_get_config_files in E.
  apply coded_bind_inv in E as (s1 & lens & _ & E). apply coded_bind_inv in E as (s2 & name & _ & E).
  apply coded_bind_inv in E as (s3 & [labels|] & _ & E).
  - eapply collect_augeas_paths; [exact E|constructor].
  - unfold raise_augeas, mbind, coded_bind in E. destruct (attempt _ _) as [[? [?|[?|?]]]| |]; done.
Qed.

(** C40: The time of the last change is asked for with the paths of libaugeas, which
    start with [/files/], instead of those of the file system.  When no such file
    exists, the callback gives the time 0 for a module without files and an error for
    every other module. *)
Theorem last_modif_fails fuel m (st : plugin) :
  (∀ fs p, ∃ e, stat fs (path_of (lit "/files/" ++ p)) = inr e) →
  srpds_aug_last_modif schema_of string_patterns module_exts pcre2_compile fuel m st =
    (_ ← init schema_of string_patterns module_exts pcre2_compile fuel m;
     _ ← reload fuel;
     files ← config_files module_exts fuel m false;
     match files with [] => mret 0%Z | _ => lift (Err SR_ERR_SYS) end) st.
Proof.
  intros Hstat. unfold srpds_aug_last_modif. unfold mbind, coded_bind.
  destruct (init _ _ _ _ _ _ st) as [[st1 [e|k]]| |]; [done| |done|done].
  destruct (reload _ st1) as [[st2 [e|[]]]| |]; [done| |done|done].
  destruct (config_files _ _ _ _ st2) as [[st3 [e|l]]| |] eqn:E; [done| |done|done].
  apply config_files_paths in E. destruct E as [|f l [p ->] _]; [done|].
  cbn [latest]. unfold mbind, coded_bind, on_stat, on_disk. destruct (Hstat (disk st3) p) as [e ->].
  rewrite bind_Ok. by destruct st3.
Qed.
End recovery.

(** ** An example: a module with one file, whose second loading fails *)

#[local] Instance codes : Sysrepo := Build_Sysrepo 1 2 3 4 5 6 7 8.
#[local] Instance stores : Datastores := { SR_ERR_UNSUPPORTED := 9 }.
(** The handle counts the loadings. *)
#[local] Instance counted : Augeas nat := {|
  aug_error := λ h, if (2 <=? h)%nat then AUG_OTHER else AUG_NOERROR;
  aug_match := λ h p, (h, if streq p (lit "/augeas/files//error") then Some [] else Some [lit "label"]);
  aug_get := λ h _, (h, (1%Z, Some (lit "/files/etc/hosts"))) |}.
#[local] Instance counted_setup : AugeasSetup nat := {|
  aug_init := Some 0; aug_rm := λ h _, h; aug_set := λ h _ _, (h, 0%Z); aug_load := S |}.
#[local] Instance counted_changes : AugeasChanges nat := {|
  set := λ h _ _, (h, 0%Z); insert := λ h _ _ _, (h, 0%Z); rename := λ h _ _, (h, 0%Z);
  mv := λ h _ _, (h, 0%Z); rm := λ h _, (h, 1%Z) |}.
#[local] Instance counted_save : AugeasSave nat := {| aug_save := λ h, (h, 0%Z) |}.
(** No data, and a schema without nodes. *)
#[local] Instance no_yang : Libyang unit := {|
  lyd_new_term := λ _ _ _ _, None; lyd_new_list := λ _ _ _ _, None; lyd_new_inner := λ _ _ _, None;
  lyd_insert_sibling := λ _ _, None; lyd_free_tree := λ d _, d; lyd_child_no_keys := λ _ _, false;
  lyd_find_xpath := λ _ _ _, None; lyd_parent := λ _ _, None; lyd_schema := λ _ _, 0; lyd_eval_xpath := λ _ _ _, None |}.
#[local] Instance no_tree : DataTree unit := {|
  node_schema := λ _ _, 0; parent_of := λ _ _, None; child_of := λ _ _, None; next_of := λ _ _, None;
  prev_of := λ _ _, None; first_sibling := λ _ n, n; no_key_child := λ _ _, None; metas := λ _ _, [];
  get_value := λ _ _, []; empty_value := λ _ _, false; std_path := λ _ _, []; no_last_pred_path := λ _ _, [];
  find_path := λ _ _ _, NotFound; find_xpath := λ _ _ _, None; find_sibling_val := λ _ _ _ _, None;
  dup_single := λ _ _ _, None; insert_sibling := λ _ _ _, None; insert_before := λ _ _ _, None;
  insert_after := λ _ _ _, None; delete_tree := λ d _, d; change_term := λ _ _ _, None |}.
#[local] Instance no_sets : DataSets unit := {|
  no_data := tt; first_node := λ _, None; lyd_diff_siblings := λ _ _, None; lyd_validate_module := λ _ _, true |}.
#[local] Instance no_schema : LibyangSchema := {|
  lysc_node_child := λ _, None; lysc_next := λ _, None; lysc_parent := λ _, None; lysc_is_key := λ _, false;
  lysc_node_lref_target := λ _, None; lys_getnext := λ _ _ _, None; lys_find_child := λ _ _ _, None |}.
#[local] Instance no_store_schema : StoreSchema := {|
  schema_child := λ _, None; schema_parent := λ _, None; userordered := λ _, false; descendants_of := λ _, [];
  module_exts_of := λ _, [] |}.
#[local] Instance system : FileSystem := {|
  access := λ fs p, match fs !! p with Some _ => None | None => Some ENOENT end;
  unlink := λ _ _, None; stat := λ _ _, inr ENOENT; eaccess := λ _ _ _, None; open_errno := λ _ _ _, None;
  read_bytes := λ _ n, inl (n `min` 4096); write_bytes := λ _ n, inl n;
  passwd_max := 0; group_max := 0; passwd_entry := λ _ _, (None, None); group_entry := λ _ _, (None, None);
  owner_outcome := λ _, None |}.

Lemma system_works : working.
Proof.
  split; [|done|done|split|].
  - intros fs p. cbn. destruct (fs !! p); split; intros Hp; try done; by destruct Hp.
  - done.
  - intros t n Hn. exists (n `min` 4096). split; [done|lia].
  - intros t n Hn. right. by exists n.
  - intros t. exists 0. intros n Hn. by exists n.
Qed.

Definition hosts : cstr := lit "/etc/hosts".
Definition hosts_files : files := <["/etc/hosts"%string := lit "broken"]> (<["/etc/hosts.augsave"%string := lit "good"]> ∅).
Definition hosts_exts (_ : nat) : list ext_instance := [Ext (lit "augeas-extension") (lit "augeas-mod-name") (Some (lit "Hosts"))].
Definition no_node (_ : nat) : schema_node := Schema [] LYS_OTHER [] LY_TYPE_OTHER false false None [].
Definition fresh : plugin (handle:=nat) (pcode:=unit) := Plugin (AugInfo None [] [] None []) [] hosts_files [].

Theorem recover_restores_witness :
  ∃ fuel st', srpds_aug_recover (D:=unit) no_node (λ _, []) hosts_exts (λ _, None) (λ _ _, PcreMatch) fuel 0 fresh = Ok (st', inr tt) ∧
    disk st' !! "/etc/hosts"%string = Some (lit "good") ∧ disk st' !! "/etc/hosts.augsave"%string = None.
Proof.
  destruct (recover_restores (pcode:=unit) (D:=unit) no_node (λ _, []) hosts_exts (λ _, None) (λ _ _, PcreMatch) system_works 0 [hosts] hosts_files)
    as [fuel H].
  { intros f Hf. apply list_elem_of_singleton in Hf as ->. split; [eexists; vm_compute; reflexivity|].
    intros g Hg. apply list_elem_of_singleton in Hg as ->. vm_compute; discriminate. }
  edestruct (H (10 + fuel)%nat ltac:(lia) fresh) as (st' & E & Hf & _); [vm_compute; reflexivity..|].
  exists (10 + fuel)%nat, st'. split; [done|]. apply (Hf hosts (lit "good")); [by left|by vm_compute].
Defined.

(** The module is known. *)
Definition known : plugin (handle:=nat) (pcode:=unit) :=
  Plugin (AugInfo (Some 0) [] [AugMod 0 []] None []) [] hosts_files [].

Theorem last_modif_fails_witness :
  ∃ st, srpds_aug_last_modif no_node (λ _, []) hosts_exts (λ _, None) 10 0 known = Ok (st, inl SR_ERR_SYS).
Proof.
  rewrite last_modif_fails; [eexists; vm_compute; reflexivity|]. intros fs p. by exists ENOENT.
Defined.
