(* ===== verification/Srplgd.v ===== *)
(** [src/srplgd_augeas/srplgd_augeas.c], [srplgda_common.c]: the plug-in that tells
    programs of a change of their configuration.  It subscribes to the modules of the
    context of libyang; a change of a module runs programs or sends a signal.  What
    was done is the state, so that every program may end in another way. *)
From stdpp Require Import strings.
From S2P Require Import Prelude CString Common SrdsCommon.
#[local] Open Scope string_scope.
#[local] Open Scope list_scope.

Inductive signal := SIGHUP | SIGTERM.

(** What was done: a program was executed with its arguments, a signal was sent. *)
Inductive action := Execv (args : list string) | Kill (pid : Z) (sig : signal).

(** The end of a program; what is found at the path of a PID file: the size is that of
    the file, the content what [read] delivers. *)
Inductive exec_result := ForkFailed | WaitFailed | Abnormal | Exited (code : Z).
Inductive pid_file := NoFile | OpenFailed | SeekFailed | PidFile (size : nat) (content : option cstr).

Class Runtime := {
  execv : list action → list string → exec_result;
  pidfile : list action → string → pid_file;
  kill_fails : list action → Z → signal → bool }.

(** The macros of [srplgda_config.h.in], of which the build defines some. *)
Definition config_macros : list string := [
  "SYSTEMCTL_EXECUTABLE"; "ACTIVEMQ_EXECUTABLE"; "AVAHI_DAEMON_EXECUTABLE"; "CACHEFILESD_EXECUTABLE";
  "CARBON_SERVICES"; "CGCONFIG_SERVICE"; "CHRONY_SERVICE"; "CLAMAV_SERVICES"; "COCKPIT_SERVICE"; "COLLECTD_SERVICE";
  "CRON_SERVICE"; "CUPS_SERVICE"; "CYRUS_IMAPD_SERVICE"; "DARKICE_SERVICE"; "DEVFS_SERVICE"; "DHCPD_EXECUTABLE";
  "DNSMASQ_SERVICE"; "DOVECOT_SERVICE"; "EXPORTFS_EXECUTABLE"; "FAIL2BAN_SERVICE"; "HTTPD_SERVICE"; "ISCSID_SERVICE";
  "KDUMP_SERVICE"; "KEEPALIVED_SERVICE"; "SLAPD_SERVICE"; "LIGHTDM_SERVICE"; "LOGROTATE_SERVICE";
  "MAILSCANNER_SERVICE"; "MCOLLECTIVE_SERVICE"; "MEMCACHED_SERVICE"; "MONGOD_SERVICE"; "MONIT_SERVICE";
  "MULTIPATHD_SERVICE"; "MYSQL_SERVICE"; "NAGIOS_SERVICE"; "NETPLAN_EXECUTABLE"; "NGINX_SERVICE"; "NSLCD_SERVICE";
  "NTPD_SERVICE"; "OPENDKIM_SERVICE"; "OPENVPN_SERVICE"; "PAGEKITE_SERVICE"; "PG_CTL_EXECUTABLE";
  "PGBOUNCER_SERVICE"; "POSTMAP_EXECUTABLE"; "POSTFIX_EXECUTABLE"; "SASLAUTHD_SERVICE"; "PUPPET_SERVICE";
  "QPIDD_SERVICE"; "RABBITMQ_SERVER_SERVICE"; "RADICALE_SERVICE"; "REDIS_SERVICE"; "RSYNCD_SERVICE";
  "RSYSLOG_SERVICE"; "RTADVD_EXECUTABLE"; "SMBCONTROL_EXECUTABLE"; "ASTERISK_SERVICE"; "SPLUNK_SERVICE";
  "SQUID_SERVICE"; "SSHD_SERVICE"; "SSSD_SERVICE"; "STRONGSWAN_SERVICE"; "STUNNEL_SERVICE"; "SYSCTL_EXECUTABLE";
  "SYSLOG_SERVICE"; "THTTPD_SERVICE"; "TINC_SERVICE"; "SYSTEMD_TMPFILES_CLEAN_SERVICE"; "TUNED_SERVICE";
  "VSFTPD_SERVICE"; "WEBMIN_EXECUTABLE"; "XINETD_SERVICE"; "XYMONLAUNCH_SERVICE"].
Class Configuration := { configured : string → option string }.
Definition macro `{Configuration} (m : string) : option string :=
  if bool_decide (m ∈ config_macros) then configured m else None.

(** The callbacks, with their private data. *)
Inductive callback :=
  CbService (service_name : string) | CbActivemq | CbAvahi | CbCachefilesd | CbCarbon | CbClamav | CbDhcpd | CbExports
| CbLdso | CbNetplan | CbPgHba | CbPostmap (file_name : string) | CbPostfix | CbRtadvd | CbSamba | CbSysctl | CbWebmin.

Inductive sr_event :=
  SR_EV_UPDATE | SR_EV_CHANGE | SR_EV_DONE | SR_EV_ABORT | SR_EV_ENABLED | SR_EV_RPC.
#[export] Instance sr_event_eq_dec : EqDecision sr_event.
Proof. solve_decision. Defined.

Section plugin.
Context `{Sysrepo} `{Runtime} `{Configuration}.

Abbreviation action_m := (coded (list action)).

(** ** Programs and signals *)

Definition aug_execl (pathname : string) (rest : list string) : action_m unit := λ before,
  let args := (pathname :: rest : list string) in
  match execv before args with
  | ForkFailed => Ok (before, inl SR_ERR_SYS)
  | WaitFailed => Ok (before ++ [Execv args], inl SR_ERR_SYS)
  | Abnormal => Ok (before ++ [Execv args], inl SR_ERR_OPERATION_FAILED)
  | Exited code => Ok (before ++ [Execv args], if (code =? 0)%Z then inr tt else inl SR_ERR_OPERATION_FAILED)
  end.

(** [atoi]: [strtol] cut to [int]. *)
Definition atoi (s : cstr) : Z := to_int (strtol s).1.1.

(** The PID in a file; 0 when there is none. *)
Definition aug_pidfile (path : string) : action_m Z := λ before,
  match pidfile before path with
  | NoFile => Ok (before, inr 0%Z)
  | OpenFailed | SeekFailed => Ok (before, inl SR_ERR_SYS)
  | PidFile 0 _ => Ok (before, inr 0%Z)
  | PidFile _ None => Ok (before, inl SR_ERR_SYS)
  | PidFile size (Some content) =>
      if (length content =? size)%nat then
        s ← cstr_of (content ++ [NUL]);
        Ok (before, if (atoi s =? 0)%Z then inl SR_ERR_SYS else inr (atoi s))
      else Ok (before, inl SR_ERR_SYS)
  end.

Definition aug_send_sig (pid : Z) (sig : signal) : action_m unit := λ before,
  Ok (before ++ [Kill pid sig], if kill_fails before pid sig then inl SR_ERR_SYS else inr tt).

(** ** Callbacks *)

Definition executable (m : string) : action_m string := lift (deref (macro m)).
Definition run_program (m : string) (args : list string) : action_m unit := path ← executable m; aug_execl path args.
Definition try_restart (service : string) : action_m unit := run_program "SYSTEMCTL_EXECUTABLE" ["try-restart"; service].
(** A running daemon, if there is one. *)
Definition with_daemon (path : string) (f : Z → action_m unit) : action_m unit :=
  pid ← aug_pidfile path;
  if (pid =? 0)%Z then mret tt else f pid.
Definition ignore (m : action_m unit) : action_m unit := _ ← attempt m; mret tt.

Definition aug_service_change (service_name : string) : action_m unit := try_restart service_name.
Definition aug_actimemq_change : action_m unit := run_program "ACTIVEMQ_EXECUTABLE" ["restart"].
Definition aug_avahi_change : action_m unit :=
  _ ← run_program "AVAHI_DAEMON_EXECUTABLE" ["--kill"];
  run_program "AVAHI_DAEMON_EXECUTABLE" ["--syslog"; "--daemonize"].
Definition aug_cachefilesd_change : action_m unit :=
  with_daemon "/var/run/cachefilesd.pid" (λ pid, aug_send_sig pid SIGHUP).
Definition aug_carbon_change : action_m unit :=
  _ ← try_restart "carbon-cache";
  _ ← try_restart "carbon-relay";
  try_restart "carbon-aggregator".
Definition aug_clamav_change : action_m unit :=
  _ ← try_restart "clamav-daemon";
  try_restart "clamav-freshclam".
Definition aug_dhcpd_change : action_m unit :=
  with_daemon "/var/run/dhcpd.pid" (λ pid,
    _ ← aug_send_sig pid SIGTERM;
    run_program "DHCPD_EXECUTABLE" []).
Definition aug_exports_change : action_m unit := run_program "EXPORTFS_EXECUTABLE" ["-ra"].
Definition aug_ldso_change : action_m unit := aug_execl "/sbin/ldconfig" [].
Definition aug_netplan_change : action_m unit := run_program "NETPLAN_EXECUTABLE" ["apply"].
Definition aug_pg_hba_change : action_m unit := run_program "PG_CTL_EXECUTABLE" ["reload"].
Definition aug_postmap_change (file_name : string) : action_m unit :=
  _ ← run_program "POSTMAP_EXECUTABLE" ["/etc/postfix/" +:+ file_name];
  run_program "POSTMAP_EXECUTABLE" ["/usr/local/etc/postfix/" +:+ file_name].
Definition aug_postfix_change : action_m unit := run_program "POSTFIX_EXECUTABLE" ["reload"].
Definition aug_rtadvd_change : action_m unit := with_daemon "/var/run/rtadvd.pid" (λ pid, aug_send_sig pid SIGHUP).
Definition aug_samba_change : action_m unit :=
  _ ← ignore (run_program "SMBCONTROL_EXECUTABLE" ["reload-config"; "nmbd"]);
  _ ← ignore (run_program "SMBCONTROL_EXECUTABLE" ["reload-config"; "smbd"]);
  ignore (run_program "SMBCONTROL_EXECUTABLE" ["reload-config"; "winbindd"]).
Definition aug_sysctl_change : action_m unit := run_program "SYSCTL_EXECUTABLE" ["--load"].
Definition aug_webmin_change : action_m unit := aug_execl "/etc/webmin/restart" [].

Definition callback_change (cb : callback) : action_m unit :=
  match cb with
  | CbService name => aug_service_change name
  | CbActivemq => aug_actimemq_change
  | CbAvahi => aug_avahi_change
  | CbCachefilesd => aug_cachefilesd_change
  | CbCarbon => aug_carbon_change
  | CbClamav => aug_clamav_change
  | CbDhcpd => aug_dhcpd_change
  | CbExports => aug_exports_change
  | CbLdso => aug_ldso_change
  | CbNetplan => aug_netplan_change
  | CbPgHba => aug_pg_hba_change
  | CbPostmap file => aug_postmap_change file
  | CbPostfix => aug_postfix_change
  | CbRtadvd => aug_rtadvd_change
  | CbSamba => aug_samba_change
  | CbSysctl => aug_sysctl_change
  | CbWebmin => aug_webmin_change
  end.

(** Every callback first looks at the event. *)
Definition change_cb (cb : callback) (event : sr_event) : action_m unit :=
  if bool_decide (event = SR_EV_DONE) then callback_change cb else mret tt.

(** ** Subscriptions *)

(** The names of modules, the macro that has to be defined, the callback. *)
Definition handlers_a_k : list (list string * option string * callback) := [
  (["activemq-conf"; "activemq-xml"; "jmxaccess"; "jmxpassword"], Some "ACTIVEMQ_EXECUTABLE", CbActivemq);
  (["avahi"], Some "AVAHI_DAEMON_EXECUTABLE", CbAvahi);
  (["cachefilesd"], Some "CACHEFILESD_EXECUTABLE", CbCachefilesd);
  (["carbon"], Some "CARBON_SERVICES", CbCarbon);
  (["cgconfig"; "cgrules"], Some "CGCONFIG_SERVICE", CbService "cgconfig");
  (["chrony"], Some "CHRONY_SERVICE", CbService "chrony");
  (["clamav"], Some "CLAMAV_SERVICES", CbClamav);
  (["cockpit"], Some "COCKPIT_SERVICE", CbService "cockpit");
  (["collectd"], Some "COLLECTD_SERVICE", CbService "collectd");
  (["cron_user"; "cron"], Some "CRON_SERVICE", CbService "cron");
  (["cups"], Some "CUPS_SERVICE", CbService "cups");
  (["cyrus-imapd"], Some "CYRUS_IMAPD_SERVICE", CbService "cyrus-imapd");
  (["darkice"], Some "DARKICE_SERVICE", CbService "darkice");
  (["devfsrules"], Some "DEVFS_SERVICE", CbService "devfs");
  (["dhcpd"], Some "DHCPD_EXECUTABLE", CbDhcpd);
  (["dnsmasq"], Some "DNSMASQ_SERVICE", CbService "dnsmasq");
  (["dovecot"], Some "DOVECOT_SERVICE", CbService "dovecot");
  (["exports"], Some "EXPORTFS_EXECUTABLE", CbExports);
  (["fail2ban"], Some "FAIL2BAN_SERVICE", CbService "fail2ban");
  (["httpd"], Some "HTTPD_SERVICE", CbService "httpd");
  (["iscsid"], Some "ISCSID_SERVICE", CbService "iscsid");
  (["kdump"], Some "KDUMP_SERVICE", CbService "kdump");
  (["keepalived"], Some "KEEPALIVED_SERVICE", CbService "keepalived")].

Definition handlers_l_p : list (list string * option string * callback) := [
  (["ldif"; "slapd"], Some "SLAPD_SERVICE", CbService "slapd");
  (["ldso"], None, CbLdso);
  (["lightdm"], Some "LIGHTDM_SERVICE", CbService "lightdm");
  (["logrotate"], Some "LOGROTATE_SERVICE", CbService "logrotate");
  (["mailscanner_rules"; "mailscanner"], Some "MAILSCANNER_SERVICE", CbService "MailScanner");
  (["mcollective"], Some "MCOLLECTIVE_SERVICE", CbService "mcollective");
  (["memcached"], Some "MEMCACHED_SERVICE", CbService "memcached");
  (["mongodbserver"], Some "MONGOD_SERVICE", CbService "mongod");
  (["monit"], Some "MONIT_SERVICE", CbService "monit");
  (["multipath"], Some "MULTIPATHD_SERVICE", CbService "multipathd");
  (["mysql"], Some "MYSQL_SERVICE", CbService "mysql");
  (["nagioscfg"; "nagiosobjects"; "nrpe"], Some "NAGIOS_SERVICE", CbService "nagios");
  (["netplan"], Some "NETPLAN_EXECUTABLE", CbNetplan);
  (["nginx"], Some "NGINX_SERVICE", CbService "nginx");
  (["nslcd"], Some "NSLCD_SERVICE", CbService "nslcd");
  (["ntp"; "ntpd"], Some "NTPD_SERVICE", CbService "ntpd");
  (["opendkim"], Some "OPENDKIM_SERVICE", CbService "opendkim");
  (["openvpn"], Some "OPENVPN_SERVICE", CbService "openvpn.target");
  (["pagekite"], Some "PAGEKITE_SERVICE", CbService "pagekite");
  (["pg_hba"; "postgresql"], Some "PG_CTL_EXECUTABLE", CbPgHba);
  (["pgbouncer"], Some "PGBOUNCER_SERVICE", CbService "pgbouncer");
  (["postfix_access"; "postfix_passwordmap"], Some "POSTMAP_EXECUTABLE", CbPostmap "access");
  (["postfix_main"; "postfix_master"], Some "POSTFIX_EXECUTABLE", CbPostfix);
  (["postfix_sasl_smtpd"], Some "SASLAUTHD_SERVICE", CbService "postfix_sasl_smtpd");
  (["postfix_transport"], Some "POSTMAP_EXECUTABLE", CbPostmap "transport");
  (["postfix_virtual"], Some "POSTMAP_EXECUTABLE", CbPostmap "virtual");
  (["puppet_auth"; "puppet"; "puppetfileserver"; "trapperkeeper"], Some "PUPPET_SERVICE", CbService "puppet")].

Definition handlers_q_z : list (list string * option string * callback) := [
  (["qpid"], Some "QPIDD_EXECUTABLE", CbService "qpidd");
  (["rabbitmq"], Some "RABBITMQ_SERVER_EXECUTABLE", CbService "rabbitmq-server");
  (["radicale"], Some "RADICALE_EXECUTABLE", CbService "radicale");
  (["redis"], Some "REDIS_SERVICE", CbService "redis.target");
  (["rsyncd"], Some "RSYNCD_SERVICE", CbService "rsyncd");
  (["rsyslog"], Some "RSYSLOG_SERVICE", CbService "rsyslog");
  (["rtadvd"], Some "RTADVD_EXECUTABLE", CbRtadvd);
  (["samba"; "smbusers"], Some "SMBCONTROL_EXECUTABLE", CbSamba);
  (["sip_conf"], Some "ASTERISK_SERVICE", CbService "asterisk");
  (["splunk"], Some "SPLUNK_SERVICE", CbService "splunk");
  (["squid"], Some "SQUID_SERVICE", CbService "squid");
  (["sshd"], Some "SSHD_SERVICE", CbService "sshd");
  (["sssd"], Some "SSSD_SERVICE", CbService "sssd");
  (["strongswan"], Some "STRONGSWAN_SERVICE", CbService "strongswan");
  (["stunnel"], Some "STUNNEL_SERVICE", CbService "stunnel");
  (["sysctl"], Some "SYSCTL_EXECUTABLE", CbSysctl);
  (["syslog"], Some "SYSLOG_SERVICE", CbService "syslog");
  (["thttpd"], Some "THTTPD_SERVICE", CbService "thttpd");
  (["tinc"], Some "TINC_SERVICE", CbService "tinc");
  (["tmpfiles"], Some "SYSTEMD_TMPFILES_CLEAN_SERVICE", CbService "systemd-tmpfiles-clean");
  (["tuned"], Some "TUNED_SERVICE", CbService "tuned");
  (["vsftpd"], Some "VSFTPD_SERVICE", CbService "vsftpd");
  (["webmin"], Some "WEBMIN_EXECUTABLE", CbWebmin);
  (["xinetd"], Some "XINETD_SERVICE", CbService "xinetd");
  (["xymon"], Some "XYMONLAUNCH_SERVICE", CbService "xymonlaunch")].

(** The first entry with the name. *)
Fixpoint find_handler (l : list (list string * option string * callback)) (name : string) : option (option string * callback) :=
  match l with
  | [] => None
  | (names, guard, cb) :: l' => if bool_decide (name ∈ names) then Some (guard, cb) else find_handler l' name
  end.
Definition handlers := handlers_a_k ++ handlers_l_p ++ handlers_q_z.

(** [sr_module_change_subscribe]: an error or a new subscription. *)
Context (subscribe_fails : list (string * callback) → string → callback → option Z).

Definition subscribe (name : string) (cb : callback) : coded (list (string * callback)) unit := λ subscr,
  match subscribe_fails subscr name cb with
  | Some e => Ok (subscr, inl e)
  | None => Ok (subscr ++ [(name, cb)], inr tt)
  end.

Definition subscribe_module (name : string) : coded (list (string * callback)) unit :=
  match find_handler handlers name with
  | Some (Some m, cb) => match macro m with Some _ => subscribe name cb | None => mret tt end
  | Some (None, cb) => subscribe name cb
  | None => mret tt
  end.

Fixpoint subscribe_modules (modules : list string) : coded (list (string * callback)) unit :=
  match modules with
  | [] => mret tt
  | m :: modules' => _ ← subscribe_module m; subscribe_modules modules'
  end.

(** The subscriptions are private data; an error removes them. *)
Definition sr_plugin_init_cb (modules : list string) : coded (list (string * callback)) unit := λ _,
  '(subscr, r) ← subscribe_modules modules [];
  match r with
  | inl e => Ok ([], inl e)
  | inr _ => Ok (subscr, inr tt)
  end.

Definition sr_plugin_cleanup_cb : coded (list (string * callback)) unit := λ _, Ok ([], inr tt).
End plugin.
