(* ===== verification/SrplgdTheorems.v ===== *)
(** Theorems on the plug-in that tells programs of changes: which modules it subscribes
    to. *)
From stdpp Require Import strings.
From S2P Require Import Prelude CString Common SrdsCommon Srplgd.
#[local] Open Scope string_scope.
#[local] Open Scope list_scope.

Section subscriptions.
Context `{SR : Sysrepo} `{CF : Configuration}.
Context (subscribe_fails : list (string * callback) → string → callback → option Z).

(** The subscription of a module: the first entry with its name counts, when its macro
    is defined. *)
Definition subscription_of (name : string) : option (string * callback) :=
  '(guard, cb) ← find_handler handlers name;
  match guard with
  | None => Some (name, cb)
  | Some m => if bool_decide (is_Some (macro m)) then Some (name, cb) else None
  end.

Lemma subscribe_module_wanted name subs :
  subscribe_module subscribe_fails name subs = Ok (subs ++ option_list (subscription_of name), inr tt) ∨
  ∃ e, subscribe_module subscribe_fails name subs = Ok (subs, inl e).
Proof.
  assert (∀ cb, subscribe subscribe_fails name cb subs = Ok (subs ++ [(name, cb)], inr tt) ∨
    ∃ e, subscribe subscribe_fails name cb subs = Ok (subs, inl e)) as Hs.
  { intros cb. unfold subscribe. destruct (subscribe_fails subs name cb); eauto. }
  unfold subscribe_module, subscription_of. destruct (find_handler handlers name) as [[[m|] cb]|]; cbn [mbind option_bind].
  - destruct (macro m); [rewrite bool_decide_true by done; apply Hs|]. rewrite bool_decide_false by (by intros []).
    left. cbn. by rewrite app_nil_r.
  - apply Hs.
  - left. cbn. by rewrite app_nil_r.
Qed.

(** The plug-in subscribes to the modules of the context that it supports, in their
    order; after an error no subscription is left. *)
Theorem init_subscribes modules st :
  sr_plugin_init_cb subscribe_fails modules st = Ok (omap subscription_of modules, inr tt) ∨
  ∃ e, sr_plugin_init_cb subscribe_fails modules st = Ok ([], inl e).
Proof.
  unfold sr_plugin_init_cb.
  assert (∀ subs, subscribe_modules subscribe_fails modules subs = Ok (subs ++ omap subscription_of modules, inr tt) ∨
    ∃ s e, subscribe_modules subscribe_fails modules subs = Ok (s, inl e)) as H.
  { induction modules as [|m modules IH]; intros subs; [left; cbn; by rewrite app_nil_r|].
    cbn [subscribe_modules]. unfold mbind, coded_bind.
    destruct (subscribe_module_wanted m subs) as [-> |[e ->]]; [|eauto].
    destruct (IH (subs ++ option_list (subscription_of m))) as [-> |H]; [|eauto]. left. rewrite <- app_assoc.
    unfold omap at 2. cbn [list_omap]. by destruct (subscription_of m). }
  destruct (H []) as [-> |(s & e & ->)]; [left|right; exists e]; by rewrite bind_Ok.
Qed.

(** The macros for these modules have other names in the configuration header, so that
    their services are never restarted. *)
Theorem never_subscribed modules st subs name cb :
  name ∈ ["qpid"; "rabbitmq"; "radicale"] →
  sr_plugin_init_cb subscribe_fails modules st = Ok (subs, inr tt) → (name, cb) ∉ subs.
Proof.
  intros Hn Hi. destruct (init_subscribes modules st) as [E|[e E]]; [|congruence]. rewrite E in Hi. injection Hi as <-.
  rewrite list_elem_of_omap. intros (m & _ & Hm).
  assert (m = name) as ->.
  { unfold subscription_of in Hm. destruct (find_handler handlers m) as [[g cb']|]; [|done]. cbn in Hm. repeat case_match; congruence. }
  rewrite !elem_of_cons in Hn. destruct Hn as [-> |[-> |[-> |Hn]]]; [vm_compute in Hm; discriminate..|].
  by apply not_elem_of_nil in Hn.
Qed.
End subscriptions.
