(* ===== verification/Main.v ===== *)
(** [src/main.c]: the command line program.  The arguments are the options as
    [getopt_long] gives them; the file system, libaugeas and the check by libyang are
    parameters, and so is the translation of one module.  The output is a list of
    events. *)
From S2P Require Import Prelude CString Common.
#[local] Open Scope cstr_scope.

Definition PATH_SEP_CHAR : ascii := ":"%char.
Definition AYM_SLASH_LEN : nat := 1.
Definition AYM_SUFF_YANG_LEN : nat := 5.
Definition AYM_SUFF_AUG_LEN : nat := 4.

(** What the program prints and writes. *)
Inductive event :=
| Stderr (s : cstr)
| Usage
| Stdout (s : cstr)
| YangFile (path content : cstr).
Abbreviation output := (list event).

(** ** Modules that are ignored *)

Definition ignored_modules : list cstr :=
  [lit "build.aug"; lit "erlang.aug"; lit "quote.aug"; lit "rx.aug"; lit "sep.aug"; lit "util.aug"].
Definition aym_ignore_module (filename : cstr) : bool := existsb (streq filename) ignored_modules.

(** ** The verbose code *)

Definition hex_value (c : ascii) : option Z :=
  if isdigit c then Some (code c - 48)%Z
  else let l := code (tolower c) in if (97 <=? l)%Z && (l <=? 102)%Z then Some (l - 87)%Z else None.
Fixpoint hex_digits (s : cstr) (acc : Z) : Z * cstr :=
  match s with
  | c :: s' => match hex_value c with Some v => hex_digits s' (acc * 16 + v)%Z | None => (acc, s) end
  | [] => (acc, s)
  end.
(** [strtoull] with base 16: the value with the rest of the string, [None] when it is
    too large. *)
Definition strtoull16 (s : cstr) : option Z * cstr :=
  let t := skip_blanks s in
  let negative := at_ t 0 =c "-" in
  let t := if negative || (at_ t 0 =c "+") then drop 1 t else t in
  let prefixed := (at_ t 0 =c "0") && (tolower (at_ t 1) =c "x") && bool_decide (is_Some (hex_value (at_ t 2))) in
  let t := if prefixed then drop 2 t else t in
  match hex_value (at_ t 0) with
  | None => (Some 0%Z, s)
  | Some _ =>
      let '(z, rest) := hex_digits t 0 in
      (if (ULONG_MAX <? z)%Z then None else Some (if negative then u64 (- z) else z), rest)
  end.

(** The code, or -1 with the messages. *)
Definition aym_get_vercode (optarg : cstr) : output * (Z + Z) :=
  if at_ optarg 0 =c "-" then ([Stderr (lit "ERROR: Verbose code cannot be negative number"); Usage], inl (-1)%Z)
  else
    match strtoull16 optarg with
    | (Some v, []) => ([], inr v)
    | _ => ([Stderr (lit "ERROR: Verbose code conversion error")], inl (-1)%Z)
    end.

(** ** Paths *)

(** The memory with the paths and the length that is recorded. *)
Record load_path := LoadPath { paths : memory; loadpathlen : nat }.

Definition aym_loadpath_add (loadpath : option load_path) (item : cstr) : res load_path :=
  match loadpath with
  | None =>
      m ← write_chars (malloc (S (length item))) 0 (item ++ [NUL]);
      Ok (LoadPath m (length item))
  | Some l =>
      let new_loadpathlen := (loadpathlen l + length item + 3)%nat in
      m ← write_char (realloc (paths l) new_loadpathlen) (loadpathlen l) PATH_SEP_CHAR;
      m ← write_chars m (loadpathlen l + 1) (item ++ [NUL]);
      Ok (LoadPath m new_loadpathlen)
  end.

(** The rest of the paths, from the current item on. *)
Definition aym_loadpath_next (iter : option cstr) : option cstr :=
  i ← iter; p ← strchr i PATH_SEP_CHAR; Some (drop (S p) i).
Definition aym_loadpath_pathlen (item : option cstr) : nat :=
  match item with
  | None => 0
  | Some i => match strchr i PATH_SEP_CHAR with Some p => p | None => length i end
  end.

Fixpoint maxpath_loop (fuel : nat) (iter : option cstr) (ret : nat) : res nat :=
  match iter with
  | None => Ok ret
  | Some i =>
      match fuel with
      | 0 => Fault OutOfFuel
      | S fuel' => maxpath_loop fuel' (aym_loadpath_next iter) (Nat.max (aym_loadpath_pathlen iter) ret)
      end
  end.
(** The number of paths is at most the length of the string and one. *)
Definition path_fuel (loadpath : option cstr) : nat := match loadpath with Some l => length l + 2 | None => 0 end.
Definition aym_loadpath_maxpath (loadpath : option cstr) : res nat := maxpath_loop (path_fuel loadpath) loadpath 0.

(** ** The buffer with the file name *)

(** The path in front of the name; only its first item counts. *)
Definition aym_insert_dirpath (dirpath : cstr) (filename : buf) : res buf :=
  let dirpathlen := aym_loadpath_pathlen (Some dirpath) in
  s ← cstr_of filename;
  b ← store filename (dirpathlen + AYM_SLASH_LEN + length s) NUL;
  s ← cstr_of b;
  b ← bmove b (dirpathlen + AYM_SLASH_LEN) 0 (length s);
  b ← bwrite b 0 (take dirpathlen dirpath);
  store b dirpathlen "/"%char.

Definition aym_remove_dirpath (dirpath : cstr) (filename : buf) : res buf :=
  let dirpathlen := aym_loadpath_pathlen (Some dirpath) in
  s ← cstr_of filename;
  _ ← c_assert (strneq s dirpath dirpathlen);
  new_end ← nat_sub (length s) (dirpathlen + AYM_SLASH_LEN);
  b ← bmove filename 0 (dirpathlen + AYM_SLASH_LEN) new_end;
  store b new_end NUL.

Definition aym_insert_filename (name suffix : cstr) (dash : bool) (filename : buf) : res buf :=
  b ← (if dash then
         b ← bwrite filename 0 ((λ c, if c =c "_" then "-"%char else c) <$> name);
         store b (length name) NUL
       else strcpy filename 0 name);
  strcat b suffix.

Section files.
Context (file_exists : cstr → bool).

(** The first path with the file; the buffer has the name again. *)
Fixpoint find_module (fuel : nat) (iter : option cstr) (filename : buf) : res (option cstr * buf) :=
  match iter with
  | None => Ok (None, filename)
  | Some i =>
      match fuel with
      | 0 => Fault OutOfFuel
      | S fuel' =>
          b ← aym_insert_dirpath i filename;
          path ← cstr_of b;
          let succ := file_exists path in
          b ← aym_remove_dirpath i b;
          if (succ : bool) then Ok (Some i, b) else find_module fuel' (aym_loadpath_next iter) b
      end
  end.
Definition aym_find_aug_module (loadpath : option cstr) (filename : buf) : res (option cstr * buf) :=
  find_module (path_fuel loadpath) loadpath filename.
End files.

(** ** Iterators *)

(** Over the arguments behind the options, or over the files of all directories. *)
Inductive aym_iter :=
| AYI_ARGV (argv : list cstr) (optind index : Z)
| AYI_DIR (loadpath : cstr) (loadpath_iter : option cstr) (dir : option (list cstr)).

(** The loading of one module by libaugeas. *)
Inductive load_result (M : Type) := InitFailed | LoadFailed (messages : list cstr) | Loaded (m : M).
Arguments InitFailed {M}.
Arguments LoadFailed {M} _.
Arguments Loaded {M} _.

(** The system, libaugeas, libyang, and the translation of a module, which gives a code
    or the text. *)
Class System (M : Type) := {
  AUGEAS_LENSES_DIR : cstr;
  dir_exists : cstr → bool;
  file_exists : cstr → bool;
  can_write : cstr → bool;
  opendir : cstr → option (list cstr);
  load_module : cstr → bool → cstr → load_result M;
  augyang_print_yang : M → Z → Z + cstr;
  ly_ctx_new : bool;
  parse_extension : bool;
  parse_yang : cstr → bool }.

Section main.
Context `{System M}.

Definition aym_module_iter_argv_init (argv : list cstr) (optind : Z) : aym_iter :=
  AYI_ARGV argv optind (optind - 1).
Definition aym_module_iter_dir_init (loadpath : cstr) : aym_iter := AYI_DIR loadpath None None.

(** The index behind the options; no directory, and no path to it. *)
Definition aym_module_iter_argv_reset (optind : Z) : Z := optind - 1.
Definition aym_module_iter_dir_reset : option cstr * option (list cstr) := (None, None).

Definition aym_module_iter_reset (it : aym_iter) : aym_iter :=
  match it with
  | AYI_ARGV argv optind _ => AYI_ARGV argv optind (aym_module_iter_argv_reset optind)
  | AYI_DIR loadpath _ _ =>
      let '(loadpath_iter, dir) := aym_module_iter_dir_reset in AYI_DIR loadpath loadpath_iter dir
  end.

Definition is_aug_file (name : cstr) : bool :=
  (4 <? length name)%nat && streq (drop (length name - 4) name) (lit ".aug").
(** [readdir] up to the next file of a module. *)
Fixpoint next_file (dir : list cstr) : option (cstr * list cstr) :=
  match dir with
  | [] => None
  | name :: dir' => if is_aug_file name then Some (name, dir') else next_file dir'
  end.

(** What an iterator gives: the output, the name, the iterator, an error. *)
Abbreviation iteration := (output * option cstr * aym_iter * bool)%type.

Fixpoint dir_loop (fuel : nat) (loadpath : cstr) (iter : option cstr) (dir : option (list cstr)) : res iteration :=
  match iter with
  | None => Ok ([], None, AYI_DIR loadpath None None, false)
  | Some i =>
      match fuel with
      | 0 => Fault OutOfFuel
      | S fuel' =>
          match (match dir with Some d => Some d | None => opendir (take (aym_loadpath_pathlen iter) i) end) with
          | None =>
              Ok ([Stderr (lit "ERROR: cannot open Search DIR " ++ i)], None, AYI_DIR loadpath iter None, true)
          | Some d =>
              match next_file d with
              | Some (name, d') => Ok ([], Some name, AYI_DIR loadpath iter (Some d'), false)
              | None => dir_loop fuel' loadpath (aym_loadpath_next iter) None
              end
          end
      end
  end.

(** The name and the new index. *)
Definition aym_module_iter_argv (argv : list cstr) (index : Z) : option cstr * Z :=
  let index := (index + 1)%Z in
  (if (index <? Z.of_nat (length argv))%Z then argv !! Z.to_nat index else None, index).

Definition aym_module_iter_dir (loadpath : cstr) (loadpath_iter : option cstr) (dir : option (list cstr)) : res iteration :=
  dir_loop (path_fuel (Some loadpath)) loadpath
    (match dir with None => Some loadpath | Some _ => loadpath_iter end) dir.

Definition aym_module_iter (it : aym_iter) : res iteration :=
  match it with
  | AYI_ARGV argv optind index =>
      let '(name, index) := aym_module_iter_argv argv index in Ok ([], name, AYI_ARGV argv optind index, false)
  | AYI_DIR loadpath loadpath_iter dir => aym_module_iter_dir loadpath loadpath_iter dir
  end.

(** [AYM_MODULE_ITER_FOR], without the reset: the body says whether to leave.  The
    error of the iterator is kept from one loop to the next. *)
Fixpoint iter_for {A} (fuel : nat) (it : aym_iter) (err : bool) (a : A) (out : output)
    (body : aym_iter → cstr → A → res (output * A * bool)) : res (output * A * aym_iter * bool) :=
  '(o, name, it', e) ← aym_module_iter it;
  let err := err || e in
  let out := out ++ o in
  match name with
  | None => Ok (out, a, it', err)
  | Some n =>
      if err then Ok (out, a, it', err)
      else
        match fuel with
        | 0 => Fault OutOfFuel
        | S fuel' =>
            '(o, a', leave) ← body it' n a;
            if (leave : bool) then Ok (out ++ o, a', it', err)
            else iter_for fuel' it' err a' (out ++ o) body
        end
  end.

(** The size of the buffer; its bytes have any value. *)
Definition aym_allocate_filename_buffer (fuel : nat) (it : aym_iter) (outdir : cstr) (loadpath : option cstr)
    : res (output * nat * aym_iter * bool) :=
  maxpathlen ← aym_loadpath_maxpath loadpath;
  '(out, maxmodname, it, err) ←
    iter_for fuel (aym_module_iter_reset it) false 0 [] (λ _ modname maxmodname,
      Ok ([], if (maxmodname <? length modname)%nat then length modname else maxmodname, false));
  let maxyang := (length outdir + AYM_SLASH_LEN + maxmodname + AYM_SUFF_YANG_LEN)%nat in
  let maxaug := (maxpathlen + AYM_SLASH_LEN + maxmodname + AYM_SUFF_AUG_LEN)%nat in
  Ok (out, S (if (maxaug <? maxyang)%nat then maxyang else maxaug), it, err).

(** ** Options *)

Record options := Options {
  opt_all : bool; opt_explicit : bool; print_name : bool; outdir : option cstr; quiet : bool; show : bool;
  typecheck : bool; vercode : Z; yanglint : bool; includes : option load_path; ret : Z }.
Definition no_options : options := Options false false false None false false false 0 false None 0.

(** One option; [None] for the help and for what is not an option. *)
Definition parse_option (o : options) (opt : ascii) (optarg : cstr) : res (output * option options) :=
  let '(Options all explicit name outdir quiet show typecheck vercode lint inc ret) := o in
  if opt =c "a" then Ok ([], Some (Options true explicit name outdir quiet show typecheck vercode lint inc ret))
  else if opt =c "e" then Ok ([], Some (Options all true name outdir quiet show typecheck vercode lint inc ret))
  else if opt =c "I" then
    l ← aym_loadpath_add inc optarg;
    Ok ([], Some (Options all explicit name outdir quiet show typecheck vercode lint (Some l) ret))
  else if opt =c "n" then Ok ([], Some (Options all explicit true outdir quiet show typecheck vercode lint inc ret))
  else if opt =c "O" then Ok ([], Some (Options all explicit name (Some optarg) quiet show typecheck vercode lint inc ret))
  else if opt =c "q" then Ok ([], Some (Options all explicit name outdir true show typecheck vercode lint inc ret))
  else if opt =c "s" then Ok ([], Some (Options all explicit name outdir quiet true typecheck vercode lint inc ret))
  else if opt =c "t" then Ok ([], Some (Options all explicit name outdir quiet show true vercode lint inc ret))
  else if opt =c "v" then
    let '(out, r) := aym_get_vercode optarg in
    Ok (out, Some (match r with
                   | inl e => Options all explicit name outdir quiet show typecheck vercode lint inc (Z.lor ret e)
                   | inr v => Options all explicit name outdir quiet show typecheck v lint inc ret
                   end))
  else if opt =c "y" then Ok ([], Some (Options all explicit name outdir quiet show typecheck vercode true inc ret))
  else Ok ([Usage], None).

(** All options, or those before one that ends the program. *)
Fixpoint parse_options (l : list (ascii * cstr)) (o : options) : res (output * options * bool) :=
  match l with
  | [] => Ok ([], o, false)
  | (opt, optarg) :: l' =>
      '(out, r) ← parse_option o opt optarg;
      match r with
      | None => Ok (out, o, true)
      | Some o' => '(out', o'', stop) ← parse_options l' o'; Ok (out ++ out', o'', stop)
      end
  end.

(** The combinations that are refused. *)
Definition refused (o : options) (modules : bool) : option cstr :=
  let out := bool_decide (is_Some (outdir o)) in
  if negb modules && negb (opt_all o) then Some (lit "ERROR: expected .aug file")
  else if modules && opt_all o then Some (lit "ERROR: specifying MODULE and option '-a' is not allowed")
  else if show o && out then Some (lit "ERROR: options '-O' and '-s' should not be entered at the same time.")
  else if show o && quiet o then Some (lit "ERROR: options '-q' and '-s' should not be entered at the same time.")
  else if out && quiet o then Some (lit "ERROR: options '-O' and '-q' should not be entered at the same time.")
  else None.

(** ** Modules *)

(** The value of [ret], and the buffer. *)
Record loop_state := Run { status : Z; filename : buf }.

(** The file of a module: its directory, or a message; nothing for an ignored module. *)
Definition locate (it : aym_iter) (loadpath : option cstr) (modname : cstr) (b : buf)
    : res (option (option cstr) * buf) :=
  match it with
  | AYI_ARGV _ _ _ =>
      b ← aym_insert_filename modname (lit ".aug") false b;
      '(dirpath, b) ← aym_find_aug_module file_exists loadpath b;
      Ok (Some dirpath, b)
  | AYI_DIR _ loadpath_iter _ =>
      if aym_ignore_module modname then Ok (None, b)
      else b ← strcpy b 0 modname; d ← deref loadpath_iter; Ok (Some (Some d), b)
  end.

(** The text is printed or written; the path of the file is made in the buffer. *)
Definition write_yang (o : options) (outdir modname str : cstr) (r : loop_state) : res (output * loop_state * bool) :=
  if show o then Ok ([Stdout str], r, true)
  else if quiet o then Ok ([], r, true)
  else
    b ← aym_insert_filename modname (lit ".yang") true (filename r);
    b ← aym_insert_dirpath outdir b;
    path ← cstr_of b;
    if can_write path then Ok ([YangFile path str], Run (status r) b, true)
    else Ok ([Stderr (lit "ERROR: failed to open " ++ path)], Run (status r) b, false).

Definition validate (o : options) (str : cstr) (r : loop_state) : output * loop_state * bool :=
  if negb (yanglint o) then ([], r, false)
  else if negb ly_ctx_new then ([Stderr (lit "ERROR: Failed to create libyang context")], Run 1 (filename r), true)
  else
    let ok := parse_extension && parse_yang str in
    (if parse_extension then [] else [Stderr (lit "ERROR: Failed to parse augeas_extension_yang.")],
     if ok then r else Run 1 (filename r), false).

(** The body of the loop: the output, the new state, whether the program ends. *)
Definition process_module (o : options) (outdir : cstr) (loadpath : option cstr) (it : aym_iter) (modname : cstr) (r : loop_state)
    : res (output * loop_state * bool) :=
  '(dirpath, b) ← locate it loadpath modname (filename r);
  match dirpath with
  | None => Ok ([], Run (status r) b, false)
  | Some None =>
      s ← cstr_of b;
      Ok ([Stderr (lit "ERROR: file " ++ s ++ lit " not found in any directory")], Run 1 b, false)
  | Some (Some dirpath) =>
      let name := if print_name o then [Stdout (modname ++ [LF])] else [] in
      b ← aym_insert_dirpath dirpath b;
      path ← cstr_of b;
      match load_module (default [] loadpath) (typecheck o) path with
      | InitFailed => Ok (name ++ [Stderr (lit "ERROR: aug_init memory exhausted")], Run 1 b, true)
      | LoadFailed msgs => Ok (name ++ ((λ m, Stderr (lit "ERROR: " ++ m)) <$> msgs), Run 1 b, false)
      | Loaded m =>
          match augyang_print_yang m (vercode o) with
          | inl rv =>
              if opt_all o && (rv =? AYE_LENSE_NOT_FOUND)%Z then Ok (name, Run (status r) b, false)
              else Ok (name ++ [Stderr (augyang_get_error_message rv)], Run 1 b, false)
          | inr str =>
              '(out, r', written) ← write_yang o outdir modname str (Run (status r) b);
              if (written : bool) then
                let '(out', r'', leave) := validate o str r' in Ok (name ++ out ++ out', r'', leave)
              else Ok (name ++ out, r', false)
          end
      end
  end.

(** ** The program *)

(** The loop over the modules; [fill] gives the bytes of the buffer. *)
Definition run_modules (fuel : nat) (fill : nat → buf) (o : options) (argv : list cstr) (optind : nat) (loadpath : option cstr)
    (outdir : cstr) : res (output * Z) :=
  it ← (if opt_all o then
          match loadpath with Some l => Ok (aym_module_iter_dir_init l) | None => Fault AssertFailed end
        else Ok (aym_module_iter_argv_init argv (Z.of_nat optind)));
  '(out, size, it, err) ← aym_allocate_filename_buffer fuel it outdir loadpath;
  '(out, r, _, _) ← iter_for fuel (aym_module_iter_reset it) err (Run 0 (fill size)) out (process_module o outdir loadpath);
  Ok (out, status r).

(** The paths and the directory for the output. *)
Definition with_options (fuel : nat) (fill : nat → buf) (o : options) (argv : list cstr) (optind : nat) : res (output * Z) :=
  inc ← (if opt_explicit o then Ok (includes o)
         else l ← aym_loadpath_add (includes o) AUGEAS_LENSES_DIR; Ok (Some l));
  loadpath ← (match inc with Some l => s ← read_string (paths l); Ok (Some s) | None => Ok None end);
  match outdir o with
  | Some d =>
      if dir_exists d then run_modules fuel fill o argv optind loadpath d
      else Ok ([Stderr (lit "ERROR: cannot open output directory " ++ d)], 1%Z)
  | None => run_modules fuel fill o argv optind loadpath (lit ".")
  end.

(** The options, the arguments, the index of the first module; the exit status. *)
Definition main (fuel : nat) (fill : nat → buf) (opts : list (ascii * cstr)) (argv : list cstr) (optind : nat)
    : res (output * Z) :=
  '(out, o, stop) ← parse_options opts no_options;
  if stop || negb (ret o =? 0)%Z then Ok (out, ret o)
  else
    match refused o (optind <? length argv)%nat with
    | Some msg => Ok (out ++ [Stderr msg; Usage], ret o)
    | None => '(out', z) ← with_options fuel fill o argv optind; Ok (out ++ out', z)
    end.
End main.
