(* ===== verification/MainTheorems.v ===== *)
(** Theorems on the command line program: the paths that are searched, the buffer for
    file names and its size. *)
From S2P Require Import Prelude CString Common Main.
#[local] Open Scope cstr_scope.

(** ** The paths *)

(** Strings at the start of memory, followed by their terminator. *)
Definition string_at (m : memory) (s : cstr) : Prop := ∃ r, m = (Some <$> s) ++ Some NUL :: r.

Lemma read_string_at m s : is_cstr s → string_at m s → read_string m = Ok s.
Proof.
  intros Hs [r ->]. induction Hs as [|c s Hc _ IH]; [done|]. cbn [fmap list_fmap app read_string].
  destruct (Ascii.eqb_spec c NUL); [done|]. fold (fmap (M:=list) Some s). by rewrite IH.
Qed.

Lemma write_char_length m i c m' : write_char m i c = Ok m' → length m' = length m ∧ take i m' = take i m ∧ (i < length m)%nat.
Proof.
  unfold write_char, store. case_decide; intros [= <-]. rewrite length_insert. by rewrite take_insert_ge by lia.
Qed.

Lemma write_char_fits m i c : (i < length m)%nat → write_char m i c = Ok (<[i := Some c]> m).
Proof. intros. unfold write_char. by rewrite store_Ok. Qed.

Lemma write_chars_fits m i s : (i + length s <= length m)%nat →
  ∃ m', write_chars m i s = Ok m' ∧ length m' = length m ∧ take i m' = take i m ∧ take (length s) (drop i m') = Some <$> s.
Proof.
  revert m i. induction s as [|c s IH]; intros m i Hl; cbn [length] in Hl; [by exists m|].
  cbn [write_chars]. rewrite write_char_fits, bind_Ok by lia.
  destruct (IH (<[i := Some c]> m) (S i)) as (m' & E & Hlm & Ht & Hd); [rewrite length_insert; lia|].
  exists m'. rewrite length_insert in Hlm. split_and!; [done|done| |].
  - apply (f_equal (take i)) in Ht. rewrite !take_take, !Nat.min_l in Ht by lia. by rewrite Ht, take_insert_ge by lia.
  - assert (m' !! i = Some (Some c)) as Hi.
    { rewrite <- (lookup_take_lt m' (S i)) by lia. rewrite Ht, lookup_take_lt by lia. by rewrite list_lookup_insert_eq by lia. }
    rewrite (drop_S m' (Some c) i) by done. cbn [length take fmap list_fmap]. by rewrite Hd.
Qed.

(** What the code should do, and does for two paths. *)
Lemma first_path p : is_cstr p → ∃ l, aym_loadpath_add None p = Ok l ∧ string_at (paths l) p ∧
  loadpathlen l = length p ∧ length (paths l) = S (length p).
Proof.
  intros Hp. unfold aym_loadpath_add. destruct (write_chars_fits (malloc (S (length p))) 0 (p ++ [NUL])) as (m & E & Hl & _ & Hd).
  { unfold malloc. rewrite length_replicate, length_app. cbn. lia. }
  rewrite E, bind_Ok. eexists. split; [reflexivity|]. unfold malloc in Hl. rewrite length_replicate in Hl.
  cbn [paths loadpathlen]. split_and!; [|done|done]. exists [].
  rewrite drop_0, take_ge in Hd by (rewrite Hl, length_app; cbn; lia). by rewrite Hd, fmap_app.
Qed.

(** A path behind what is recorded: what is before the recorded length stays. *)
Lemma next_path l p : (loadpathlen l <= length (paths l))%nat → ∃ l', aym_loadpath_add (Some l) p = Ok l' ∧
  loadpathlen l' = (loadpathlen l + length p + 3)%nat ∧ length (paths l') = loadpathlen l' ∧
  take (loadpathlen l) (paths l') = take (loadpathlen l) (paths l) ∧
  take (length p + 2) (drop (loadpathlen l) (paths l')) = Some PATH_SEP_CHAR :: (Some <$> p) ++ [Some NUL].
Proof.
  intros Hl. unfold aym_loadpath_add. set (n := (loadpathlen l + length p + 3)%nat).
  assert (length (realloc (paths l) n) = n) as Hr.
  { unfold realloc. rewrite length_app, length_take, length_replicate. lia. }
  rewrite write_char_fits, bind_Ok by lia.
  destruct (write_chars_fits (<[loadpathlen l := Some PATH_SEP_CHAR]> (realloc (paths l) n)) (loadpathlen l + 1) (p ++ [NUL]))
    as (m & E & Hm & Ht & Hd).
  { rewrite length_insert, Hr, length_app. cbn. lia. }
  rewrite E, bind_Ok. rewrite length_insert, Hr in Hm. eexists. split; [reflexivity|]. cbn [paths loadpathlen].
  split_and!; [done|done| |].
  - apply (f_equal (take (loadpathlen l))) in Ht. rewrite !take_take, !Nat.min_l, take_insert_ge in Ht by lia.
    rewrite Ht. unfold realloc. rewrite take_app_le, take_take, Nat.min_l by (rewrite ?length_take; lia). done.
  - assert (m !! loadpathlen l = Some (Some PATH_SEP_CHAR)) as Hi.
    { rewrite <- (lookup_take_lt m (loadpathlen l + 1)) by lia. rewrite Ht, lookup_take_lt by lia.
      by rewrite list_lookup_insert_eq by lia. }
    rewrite (drop_S _ _ _ Hi). rewrite Nat.add_1_r in Hd. replace (length p + 2)%nat with (S (length (p ++ [NUL])))
      by (rewrite length_app; cbn; lia).
    cbn [take]. rewrite Hd. by rewrite fmap_app.
Qed.

Fixpoint add_paths (l : option load_path) (ps : list cstr) : res (option load_path) :=
  match ps with [] => Ok l | p :: ps' => l' ← aym_loadpath_add l p; add_paths (Some l') ps' end.

(** The memory starts with a string whose terminator lies before the recorded end. *)
Definition settled (s : cstr) (l : load_path) : Prop :=
  (length s < loadpathlen l)%nat ∧ (loadpathlen l <= length (paths l))%nat ∧
  take (S (length s)) (paths l) = (Some <$> s) ++ [Some NUL].

Lemma settled_string s l : settled s l → string_at (paths l) s.
Proof. intros (_ & _ & H). exists (drop (S (length s)) (paths l)). rewrite <- (take_drop (S (length s)) (paths l)) at 1. by rewrite H, <- app_assoc. Qed.

Lemma settled_next s l p : settled s l → ∃ l', aym_loadpath_add (Some l) p = Ok l' ∧ settled s l'.
Proof.
  intros (H1 & H2 & H3). destruct (next_path l p H2) as (l' & E & Hl & Hm & Ht & _). exists l'. split; [done|].
  split_and!; [lia|lia|]. rewrite <- H3. apply (f_equal (take (S (length s)))) in Ht.
  rewrite !take_take, !Nat.min_l in Ht by lia. done.
Qed.

Lemma second_path p q : is_cstr p → ∃ l, add_paths None [p; q] = Ok (Some l) ∧ settled (p ++ PATH_SEP_CHAR :: q) l.
Proof.
  intros Hp. destruct (first_path p Hp) as (l1 & E1 & [r Hr] & Hn & Hm). cbn [add_paths]. rewrite E1, bind_Ok.
  destruct (next_path l1 q) as (l & E & Hl & Hlm & Ht & Hd); [lia|]. rewrite E, bind_Ok. exists l. split; [done|].
  rewrite Hn in *. split_and!; [rewrite length_app; cbn; lia|lia|].
  replace (S (length (p ++ PATH_SEP_CHAR :: q))) with (length p + (length q + 2))%nat by (rewrite length_app; cbn; lia).
  rewrite <- (take_drop (length p) (paths l)). rewrite take_app_ge by (rewrite length_take; lia).
  rewrite length_take, Nat.min_l by lia. replace (length p + (length q + 2) - length p)%nat with (length q + 2)%nat by lia.
  rewrite Hd, Ht, Hr, take_app_length' by (by rewrite length_fmap). by rewrite fmap_app, <- app_assoc.
Qed.

(** C29: The search path keeps the first two directories: the length that is recorded
    after the second one is too large by two, so that every later directory is written
    behind the end of the string and is lost, also the default directory after two
    directories of the command line. *)
Theorem later_paths_lost p q ps :
  is_cstr p → is_cstr q →
  ∃ l, add_paths None (p :: q :: ps) = Ok (Some l) ∧ read_string (paths l) = Ok (p ++ PATH_SEP_CHAR :: q).
Proof.
  intros Hp Hq. destruct (second_path p q Hp) as (l & E & Hs).
  assert (∀ ps l, settled (p ++ PATH_SEP_CHAR :: q) l → ∃ l', add_paths (Some l) ps = Ok (Some l') ∧
    settled (p ++ PATH_SEP_CHAR :: q) l') as Hall.
  { clear. induction ps as [|x ps IH]; intros l Hs; [by exists l|]. cbn [add_paths].
    destruct (settled_next _ l x Hs) as (l1 & -> & H1). rewrite bind_Ok. by apply IH. }
  destruct (Hall ps l Hs) as (l' & E' & Hs'). exists l'. split.
  - cbn [add_paths] in *. destruct (aym_loadpath_add None p) as [l1| |]; [|done|done]. rewrite bind_Ok in *.
    destruct (aym_loadpath_add (Some l1) q) as [l2| |]; [|done|done]. rewrite bind_Ok in *. by injection E as ->.
  - apply read_string_at; [|by apply settled_string]. apply Forall_app. split; [done|]. by constructor.
Qed.

Theorem later_paths_lost_witness :
  ∃ l, add_paths None [lit "a"; lit "b"; lit "/usr/share/augeas/lenses"] = Ok (Some l) ∧ read_string (paths l) = Ok (lit "a:b").
Proof. apply (later_paths_lost (lit "a") (lit "b")); compute_done. Defined.

(** ** The buffer *)

(** A buffer of a size with a string. *)
Definition holds (n : nat) (b : buf) (s : cstr) : Prop := length b = n ∧ is_cstr s ∧ ∃ r, b = s ++ NUL :: r.

(** The first item of the paths. *)
Definition item (d : cstr) : cstr := take (aym_loadpath_pathlen (Some d)) d.

Lemma pathlen_le d : (aym_loadpath_pathlen (Some d) <= length d)%nat.
Proof.
  unfold aym_loadpath_pathlen. destruct (strchr d PATH_SEP_CHAR) as [p|] eqn:E; [|done].
  apply strchr_Some in E as (s1 & s2 & -> & <- & _). rewrite length_app. lia.
Qed.
Lemma item_length d : length (item d) = aym_loadpath_pathlen (Some d).
Proof. unfold item. rewrite length_take. pose proof (pathlen_le d). lia. Qed.
Lemma item_cstr d : is_cstr d → is_cstr (item d).
Proof. intros H. by apply Forall_take. Qed.

Lemma bwrite_fits b i s : (i + length s <= length b)%nat → bwrite b i s = Ok (take i b ++ s ++ drop (i + length s) b).
Proof. intros H. unfold bwrite. by rewrite decide_True. Qed.

Lemma insert_dirpath_holds n b s d :
  holds n b s → is_cstr d → (length (item d) + 1 + length s < n)%nat →
  ∃ b', aym_insert_dirpath d b = Ok b' ∧ holds n b' (item d ++ "/"%char :: s).
Proof.
  intros (Hn & Hs & r & ->) Hd Hl. rewrite item_length in Hl. pose proof (pathlen_le d) as Hdd.
  pose proof (item_cstr d Hd) as Hcd. unfold aym_insert_dirpath, AYM_SLASH_LEN. unfold item in *.
  revert Hl Hdd Hcd. generalize (aym_loadpath_pathlen (Some d)) as dl. intros dl Hl Hdd Hcd.
  rewrite cstr_of_app, bind_Ok by done. rewrite length_app in Hn. cbn in Hn.
  rewrite store_Ok, bind_Ok by (rewrite length_app; cbn; lia).
  set (b1 := <[(dl + 1 + length s)%nat := NUL]> (s ++ NUL :: r)).
  assert (length b1 = n) as Hb1 by (unfold b1; rewrite length_insert, length_app; cbn; lia).
  assert (b1 = s ++ NUL :: <[dl := NUL]> r) as E1.
  { unfold b1. rewrite insert_app_r_alt by lia. replace (dl + 1 + length s - length s)%nat with (S dl) by lia. done. }
  assert (cstr_of b1 = Ok s) as Ec by (rewrite E1; by apply cstr_of_app).
  assert (take (length s) b1 = s) as Et by (by rewrite E1, take_app_length).
  rewrite Ec, bind_Ok. unfold bmove. rewrite decide_True by lia. rewrite drop_0, Et.
  rewrite bwrite_fits, bind_Ok by lia.
  set (tail := drop (dl + 1 + length s) b1).
  assert (∃ r', tail = NUL :: r') as [r' Er].
  { exists (drop (S dl) r). unfold tail, b1. rewrite (drop_S _ NUL) by (rewrite list_lookup_insert_eq; [done|rewrite length_app; cbn; lia]).
    f_equal. rewrite drop_insert_lt by lia. rewrite drop_app_ge by lia.
    by replace (S (dl + 1 + length s) - length s)%nat with (S (S dl)) by lia. }
  assert (length tail = n - (dl + 1 + length s))%nat as Htl by (unfold tail; rewrite length_drop; lia).
  destruct (lookup_lt_is_Some_2 b1 dl ltac:(lia)) as [x Hx].
  replace (dl + 1)%nat with (S dl) by lia. rewrite (take_S_r b1 dl x Hx), <- app_assoc.
  assert (length (take dl d) = dl) as Hdl by (rewrite length_take; lia).
  assert (length (take dl b1) = dl) as Hdb by (rewrite length_take; lia).
  rewrite bwrite_fits, bind_Ok by (rewrite length_app, Hdl, Hdb; cbn; lia).
  rewrite Hdl, Nat.add_0_l, (drop_app_length' (take dl b1)), take_0 by done. cbn [app].
  rewrite store_Ok by (rewrite !length_app; cbn; lia). eexists. split; [reflexivity|].
  rewrite insert_app_mid by done. rewrite Er. split_and!.
  - rewrite Er in Htl. rewrite !length_app. cbn [length] in *. rewrite length_app, Hdl. cbn [length]. lia.
  - apply Forall_app. split; [done|by constructor].
  - exists r'. by rewrite <- app_assoc.
Qed.

Lemma remove_dirpath_holds n b s d :
  holds n b (item d ++ "/"%char :: s) → ∃ b', aym_remove_dirpath d b = Ok b' ∧ holds n b' s.
Proof.
  intros (Hn & Hs & r & ->). pose proof (item_length d) as Hi. unfold aym_remove_dirpath, AYM_SLASH_LEN.
  rewrite cstr_of_app, bind_Ok by done.
  assert (strneq (item d ++ "/"%char :: s) d (aym_loadpath_pathlen (Some d)) = true) as ->.
  { apply bool_decide_eq_true. by rewrite take_app_length' by done. }
  revert Hi. generalize (aym_loadpath_pathlen (Some d)) as dl. intros dl Hi. cbn [c_assert]. rewrite bind_Ok.
  assert (length (item d ++ "/"%char :: s) = dl + 1 + length s)%nat as Hl by (rewrite length_app; cbn [length]; lia).
  unfold nat_sub. rewrite (proj2 (Nat.leb_le _ _)), bind_Ok by lia.
  rewrite Hl. replace (dl + 1 + length s - (dl + 1))%nat with (length s) by lia.
  rewrite length_app in Hn. cbn [length] in Hn. unfold bmove.
  rewrite decide_True by (rewrite length_app; cbn [length]; lia).
  assert (take (length s) (drop (dl + 1) ((item d ++ "/"%char :: s) ++ NUL :: r)) = s) as ->.
  { rewrite <- app_assoc, drop_app_ge by lia. replace (dl + 1 - length (item d))%nat with 1%nat by lia.
    cbn [app drop]. by rewrite drop_0, take_app_length. }
  rewrite bwrite_fits, bind_Ok by (rewrite length_app; lia). rewrite take_0. cbn [app Nat.add].
  destruct (drop (length s) ((item d ++ "/"%char :: s) ++ NUL :: r)) as [|y t] eqn:E.
  { apply (f_equal length) in E. rewrite length_drop, !length_app in E. cbn [length] in E. lia. }
  assert (length s + S (length t) = n)%nat as Ht.
  { apply (f_equal length) in E. rewrite length_drop, length_app in E. cbn [length] in E. lia. }
  rewrite store_Ok by (rewrite length_app; cbn [length]; lia). rewrite insert_app_mid by done.
  eexists. split; [reflexivity|]. apply Forall_app in Hs as [_ Hs]. apply Forall_cons in Hs as [_ Hs].
  split_and!; [rewrite length_app; cbn [length]; lia|done|by eexists].
Qed.

Definition dashes (dash : bool) (name : cstr) : cstr :=
  if dash then (λ c, if c =c "_" then "-"%char else c) <$> name else name.

Lemma dashes_cstr dash name : is_cstr name → is_cstr (dashes dash name).
Proof.
  destruct dash; [|done]. intros H. apply Forall_fmap. eapply Forall_impl; [exact H|].
  intros c Hc. cbn. by destruct (c =c "_").
Qed.
Lemma dashes_length dash name : length (dashes dash name) = length name.
Proof. destruct dash; [apply length_fmap|done]. Qed.

Lemma strcpy_holds n b s : length b = n → is_cstr s → (length s < n)%nat → ∃ b', strcpy b 0 s = Ok b' ∧ holds n b' s.
Proof.
  intros Hn Hs Hl. unfold strcpy. rewrite bwrite_fits by (rewrite length_app; cbn [length]; lia).
  eexists. split; [reflexivity|]. rewrite take_0. cbn [app]. split_and!; [|done|].
  - rewrite !length_app, length_drop. cbn. lia.
  - eexists. by rewrite <- app_assoc.
Qed.

Lemma strcat_holds n b s t : holds n b s → is_cstr t → (length s + length t < n)%nat →
  ∃ b', strcat b t = Ok b' ∧ holds n b' (s ++ t).
Proof.
  intros (Hn & Hs & r & ->) Ht Hl. unfold strcat. rewrite cstr_of_app, bind_Ok by done. unfold strcpy.
  rewrite bwrite_fits by (rewrite Hn, length_app; cbn [length]; lia). eexists. split; [reflexivity|].
  rewrite take_app_length. split_and!; [|by apply Forall_app|].
  - rewrite !length_app, length_drop, Hn. cbn. lia.
  - eexists. rewrite <- !app_assoc. done.
Qed.

Lemma insert_filename_holds n b name suffix dash :
  length b = n → is_cstr name → is_cstr suffix → (length name + length suffix < n)%nat →
  ∃ b', aym_insert_filename name suffix dash b = Ok b' ∧ holds n b' (dashes dash name ++ suffix).
Proof.
  intros Hn Hc Hs Hl. unfold aym_insert_filename.
  assert (∃ b1, (if dash then b ← bwrite b 0 ((λ c, if c =c "_" then "-"%char else c) <$> name); store b (length name) NUL
    else strcpy b 0 name) = Ok b1 ∧ holds n b1 (dashes dash name)) as (b1 & -> & H1).
  { pose proof (dashes_length dash name) as Hd. pose proof (dashes_cstr dash name Hc) as Hdc. destruct dash.
    - cbn [dashes] in *. revert Hd Hdc. generalize ((λ c, if c =c "_" then "-"%char else c) <$> name). intros s Hd Hdc. rewrite bwrite_fits, bind_Ok by lia.
      rewrite take_0. cbn [app Nat.add]. destruct (drop (length s) b) as [|y t] eqn:E.
      { apply (f_equal length) in E. rewrite length_drop in E. cbn [length] in E. lia. }
      assert (length s + S (length t) = n)%nat as Ht by (apply (f_equal length) in E; rewrite length_drop in E; cbn [length] in E; lia).
      rewrite store_Ok by (rewrite length_app; cbn [length]; lia). rewrite insert_app_mid by lia. eexists. split; [reflexivity|].
      split_and!; [rewrite length_app; cbn [length]; lia|done|by eexists].
    - cbn [dashes]. apply strcpy_holds; [done|done|lia]. }
  rewrite bind_Ok. apply strcat_holds; [done|done|]. rewrite dashes_length. lia.
Qed.

(** ** The search *)

(** The rests of the paths that start with an item. *)
Fixpoint later_items (s : cstr) : list cstr :=
  match s with [] => [] | c :: s' => if c =c PATH_SEP_CHAR then s' :: later_items s' else later_items s' end.
Definition items (loadpath : option cstr) : list cstr :=
  match loadpath with Some s => s :: later_items s | None => [] end.

Lemma later_items_app s t : PATH_SEP_CHAR ∉ s → later_items (s ++ t) = later_items t.
Proof.
  induction s as [|c s IH]; [done|]. intros [Hc Hs]%not_elem_of_cons. cbn.
  destruct (Ascii.eqb_spec c PATH_SEP_CHAR); [done|]. by apply IH.
Qed.

Lemma items_next s : items (Some s) = s :: items (aym_loadpath_next (Some s)).
Proof.
  unfold aym_loadpath_next. cbn [mbind option_bind items]. destruct (strchr s PATH_SEP_CHAR) as [p|] eqn:E.
  - apply strchr_Some in E as (s1 & s2 & -> & <- & Hn). rewrite later_items_app by done. cbn [later_items].
    unfold mbind, option_bind, items. rewrite Ascii.eqb_refl, drop_app_ge by lia. replace (S (length s1) - length s1)%nat with 1%nat by lia. cbn [drop]. by rewrite drop_0.
  - apply strchr_None in E. rewrite <- (app_nil_r s) at 2. by rewrite later_items_app.
Qed.

Lemma next_shorter s t : aym_loadpath_next (Some s) = Some t → (length t < length s)%nat ∧ ∃ u, s = u ++ t.
Proof.
  unfold aym_loadpath_next. cbn. destruct (strchr s PATH_SEP_CHAR) as [p|] eqn:E; [|done]. intros [= <-].
  apply strchr_Some in E as (s1 & s2 & -> & <- & _). rewrite drop_app_ge by lia.
  replace (S (length s1) - length s1)%nat with 1%nat by lia. cbn [drop]. rewrite drop_0, length_app. cbn. split; [lia|].
  exists (s1 ++ [PATH_SEP_CHAR]). by rewrite <- app_assoc.
Qed.

(** Paths in which every item is short enough. *)
Definition short (n : nat) (loadpath : option cstr) : Prop := Forall (λ i, length (item i) + 1 < n)%nat (items loadpath).

Definition enough (fuel : nat) (loadpath : option cstr) : Prop :=
  match loadpath with Some s => length s < fuel | None => True end%nat.

Lemma enough_next fuel s : enough (S fuel) (Some s) → enough fuel (aym_loadpath_next (Some s)).
Proof.
  intros H. cbn in H. destruct (aym_loadpath_next (Some s)) as [t|] eqn:E; [|done].
  apply next_shorter in E as [E _]. cbn. lia.
Qed.

Lemma find_module_first file_exists fuel iter n b s :
  enough fuel iter → holds n b s → Forall is_cstr (items iter) →
  Forall (λ i, length (item i) + 1 + length s < n)%nat (items iter) →
  ∃ b', find_module file_exists fuel iter b =
          Ok (List.find (λ i, file_exists (item i ++ "/"%char :: s)) (items iter), b') ∧ holds n b' s.
Proof.
  revert iter b. induction fuel as [|fuel IH]; intros [i|] b He Hb Hc Hl;
    [cbn in He; lia|by exists b| |by exists b].
  rewrite items_next in Hc, Hl |- *. apply Forall_cons in Hc as [Hci Hc]. apply Forall_cons in Hl as [Hli Hl].
  destruct (insert_dirpath_holds n b s i Hb Hci Hli) as (b1 & E1 & H1).
  destruct (remove_dirpath_holds n b1 s i H1) as (b2 & E2 & H2).
  assert (cstr_of b1 = Ok (item i ++ "/"%char :: s)) as Ep.
  { destruct H1 as (_ & Hs1 & r & ->). by apply cstr_of_app. }
  cbn [find_module List.find]. rewrite E1, bind_Ok, Ep, bind_Ok, E2, bind_Ok.
  destruct (file_exists (item i ++ "/"%char :: s)); [by exists b2|].
  apply IH; [by apply enough_next|done..].
Qed.

Lemma maxpath_bounds fuel iter ret : enough fuel iter →
  ∃ m, maxpath_loop fuel iter ret = Ok m ∧ (ret <= m)%nat ∧ Forall (λ i, length (item i) <= m)%nat (items iter).
Proof.
  revert iter ret. induction fuel as [|fuel IH]; intros [i|] ret He; [cbn in He; lia|by exists ret| |by exists ret].
  cbn [maxpath_loop]. destruct (IH (aym_loadpath_next (Some i)) (Nat.max (aym_loadpath_pathlen (Some i)) ret)) as (m & E & Hm & Hf).
  { by apply enough_next. }
  exists m. split; [done|]. split; [lia|]. rewrite items_next. constructor; [rewrite item_length; lia|done].
Qed.

Lemma items_cstr s : is_cstr s → Forall is_cstr (items (Some s)).
Proof.
  intros Hs. constructor; [done|]. induction Hs as [|c s Hc Hs IH]; [constructor|]. cbn.
  destruct (c =c PATH_SEP_CHAR); [by constructor|done].
Qed.

Lemma path_fuel_enough lp : enough (path_fuel lp) lp.
Proof. destruct lp; cbn; [lia|done]. Qed.

(** ** The loop over the arguments *)

Section loop.
Context `{SY : System M}.

Lemma iter_argv argv o k :
  aym_module_iter (AYI_ARGV argv o (Z.of_nat k - 1)) = Ok ([], argv !! k, AYI_ARGV argv o (Z.of_nat k), false).
Proof.
  cbn [aym_module_iter]. unfold aym_module_iter_argv. replace (Z.of_nat k - 1 + 1)%Z with (Z.of_nat k) by lia. rewrite Nat2Z.id.
  destruct (Z.ltb_spec (Z.of_nat k) (Z.of_nat (length argv))) as [|Hge]; [done|].
  by rewrite lookup_ge_None_2 by lia.
Qed.

(** What holds in every round, also of the names that come. *)
Lemma for_argv {A} (Q : cstr → Prop) (P : A → Prop) body argv o fuel k a out :
  (∀ index name a, Q name → P a → ∃ out' a' leave, body (AYI_ARGV argv o index) name a = Ok (out', a', leave) ∧ P a') →
  Forall Q (drop k argv) → P a → (length argv <= k + fuel)%nat →
  ∃ out' a' index, iter_for fuel (AYI_ARGV argv o (Z.of_nat k - 1)) false a out body =
    Ok (out', a', AYI_ARGV argv o index, false) ∧ P a'.
Proof.
  intros Hbody. revert k a out. induction fuel as [|fuel IH]; intros k a out HQ HP Hl; cbn [iter_for]; rewrite iter_argv, bind_Ok.
  - rewrite lookup_ge_None_2 by lia. cbn [orb]. eauto.
  - destruct (argv !! k) as [name|] eqn:Ek; [|cbn [orb]; eauto]. cbn [orb].
    rewrite (drop_S _ _ _ Ek) in HQ. apply Forall_cons in HQ as [Hn HQ].
    destruct (Hbody (Z.of_nat k) name a Hn HP) as (o1 & a1 & leave & E & HP1). rewrite E, bind_Ok.
    destruct leave; [eauto|]. replace (Z.of_nat k) with (Z.of_nat (S k) - 1)%Z by lia. apply IH; [done|done|lia].
Qed.

Lemma longest_argv argv o fuel k m out : (length argv <= k + fuel)%nat →
  ∃ m' index, iter_for fuel (AYI_ARGV argv o (Z.of_nat k - 1)) false m out (λ _ modname maxmodname,
      Ok ([], if (maxmodname <? length modname)%nat then length modname else maxmodname, false)) =
    Ok (out, m', AYI_ARGV argv o index, false) ∧ (m <= m')%nat ∧ Forall (λ n, length n <= m')%nat (drop k argv).
Proof.
  revert k m out. induction fuel as [|fuel IH]; intros k m out Hl; cbn [iter_for]; rewrite iter_argv, bind_Ok, app_nil_r.
  - rewrite lookup_ge_None_2 by lia. cbn [orb]. do 2 eexists. split; [done|]. rewrite drop_ge by lia. by split.
  - destruct (argv !! k) as [name|] eqn:Ek.
    + cbn [orb]. rewrite bind_Ok, app_nil_r. replace (Z.of_nat k) with (Z.of_nat (S k) - 1)%Z by lia.
      destruct (IH (S k) (if (m <? length name)%nat then length name else m) out ltac:(lia)) as (m' & index & E & Hm & Hf).
      exists m', index. split; [done|]. rewrite (drop_S _ _ _ Ek).
      destruct (Nat.ltb_spec m (length name)); (split; [lia|constructor; [lia|done]]).
    + cbn [orb]. do 2 eexists. split; [done|]. rewrite drop_ge by (by apply lookup_ge_None). by split.
Qed.

(** The directory and the name of every file that is made fit into [n] bytes. *)
Definition fits (n : nat) (outdir : cstr) (loadpath : option cstr) (modname : cstr) : Prop :=
  is_cstr modname ∧ (length outdir + 1 + length modname + 5 < n)%nat ∧ (length modname + 4 < n)%nat ∧
  Forall (λ i, is_cstr i ∧ length (item i) + 1 + (length modname + 4) < n)%nat (items loadpath).

Lemma holds_text n b s : holds n b s → cstr_of b = Ok s.
Proof. intros (_ & Hs & r & ->). by apply cstr_of_app. Qed.

Lemma write_yang_safe o n outdir loadpath modname str r :
  fits n outdir loadpath modname → is_cstr outdir → length (filename r) = n →
  ∃ out r' w, write_yang o outdir modname str r = Ok (out, r', w) ∧ length (filename r') = n.
Proof.
  intros (Hm & Hl & _) Ho Hn. unfold write_yang. destruct (show o); [eauto|]. destruct (quiet o); [eauto|].
  destruct (insert_filename_holds n (filename r) modname (lit ".yang") true Hn Hm) as (b1 & -> & H1);
    [by repeat constructor|cbn [lit String.list_ascii_of_string length]; lia|]. rewrite bind_Ok.
  destruct (insert_dirpath_holds n b1 _ outdir H1 Ho) as (b2 & -> & H2).
  { rewrite length_app, dashes_length. pose proof (pathlen_le outdir). rewrite item_length.
    cbn [lit String.list_ascii_of_string length]. lia. }
  rewrite bind_Ok, (holds_text _ _ _ H2), bind_Ok. destruct H2 as [H2 _]. case_match; eauto.
Qed.

Lemma process_module_safe o n outdir loadpath argv optind index modname r :
  fits n outdir loadpath modname → is_cstr outdir → length (filename r) = n →
  ∃ out r' leave, process_module o outdir loadpath (AYI_ARGV argv optind index) modname r = Ok (out, r', leave) ∧
    length (filename r') = n.
Proof.
  intros Hf Ho Hn. pose proof Hf as (Hm & Hl & Hl4 & Hi). unfold process_module, locate.
  destruct (insert_filename_holds n (filename r) modname (lit ".aug") false Hn Hm) as (b1 & -> & H1);
    [by repeat constructor|cbn [lit String.list_ascii_of_string length]; lia|]. rewrite bind_Ok. cbn [dashes] in H1.
  assert (length (modname ++ lit ".aug") = length modname + 4)%nat as Hlm by (rewrite length_app; done).
  destruct (find_module_first file_exists (path_fuel loadpath) loadpath n b1 _ (path_fuel_enough loadpath) H1)
    as (b2 & E2 & H2).
  { eapply Forall_impl; [exact Hi|]. by intros ? []. }
  { rewrite Hlm. eapply Forall_impl; [exact Hi|]. by intros ? []. }
  unfold aym_find_aug_module. rewrite E2, !bind_Ok.
  destruct (List.find _ (items loadpath)) as [i|] eqn:Ef.
  2: { rewrite (holds_text _ _ _ H2), bind_Ok. destruct H2 as [H2 _]. eauto. }
  apply List.find_some in Ef as [Hin _]. apply list_elem_of_In in Hin. rewrite Forall_forall in Hi. apply Hi in Hin as [Hci Hli].
  destruct (insert_dirpath_holds n b2 _ i H2 Hci) as (b3 & -> & H3); [lia|].
  rewrite bind_Ok, (holds_text _ _ _ H3), bind_Ok. destruct H3 as [H3 _].
  destruct (load_module _ _ _) as [|msgs|m]; [eauto..|].
  destruct (augyang_print_yang m (vercode o)) as [rv|str]; [case_match; eauto|].
  destruct (write_yang_safe o n outdir loadpath modname str (Run (status r) b3) Hf Ho H3) as (o1 & r1 & w & -> & Hr1).
  rewrite bind_Ok. destruct w; [|eauto]. unfold validate. repeat case_match; simplify_eq; eauto.
Qed.

(** C30: The buffer for the file names is always large enough: for modules that are
    named by arguments the loop over them ends, and no name of a file, neither that of
    a module in any directory of the search path nor that of the output, is written
    past the end of the buffer, whatever it contained before. *)
Theorem file_names_fit fuel fill o argv optind loadpath outdir :
  opt_all o = false → (∀ n, length (fill n) = n) → Forall is_cstr argv → is_cstr outdir →
  (∀ s, loadpath = Some s → is_cstr s) → (length argv <= optind + fuel)%nat →
  ∃ out z, run_modules fuel fill o argv optind loadpath outdir = Ok (out, z).
Proof.
  intros Ha Hfill Hargv Ho Hlp Hfuel. unfold run_modules. rewrite Ha, bind_Ok. unfold aym_allocate_filename_buffer.
  destruct (maxpath_bounds (path_fuel loadpath) loadpath 0 (path_fuel_enough loadpath)) as (mp & Emp & _ & Hmp).
  unfold aym_loadpath_maxpath, aym_module_iter_argv_init. rewrite Emp, bind_Ok. cbn [aym_module_iter_reset].
  unfold aym_module_iter_argv_reset at 1.
  destruct (longest_argv argv (Z.of_nat optind) fuel optind 0 [] Hfuel) as (mm & index & -> & _ & Hmm).
  rewrite !bind_Ok. cbn [aym_module_iter_reset]. unfold aym_module_iter_argv_reset, AYM_SLASH_LEN, AYM_SUFF_AUG_LEN, AYM_SUFF_YANG_LEN.
  set (n := S _).
  assert (mp + 1 + mm + 4 < n ∧ length outdir + 1 + mm + 5 < n)%nat as [Hn1 Hn2].
  { unfold n. destruct (Nat.ltb_spec (mp + 1 + mm + 4) (length outdir + 1 + mm + 5)); lia. }
  clearbody n.
  assert (Forall (fits n outdir loadpath) (drop optind argv)) as Hfits.
  { rewrite Forall_forall in Hmm, Hmp. apply Forall_forall. intros x Hx. specialize (Hmm x Hx).
    split_and!; [|lia|lia|].
    - rewrite Forall_forall in Hargv. apply Hargv. rewrite <- (take_drop optind argv). apply elem_of_app. by right.
    - apply Forall_forall. intros i Hi. specialize (Hmp i Hi). split; [|lia].
      destruct loadpath as [s|]; [|by apply not_elem_of_nil in Hi].
      pose proof (items_cstr s (Hlp s eq_refl)) as Hc. rewrite Forall_forall in Hc. by apply Hc. }
  destruct (for_argv (fits n outdir loadpath) (λ r, length (filename r) = n) (process_module o outdir loadpath) argv
    (Z.of_nat optind) fuel optind (Run 0 (fill n)) []) as (out & r & index' & E & _).
  - intros idx name r Hf Hr. by apply process_module_safe.
  - done.
  - apply Hfill.
  - done.
  - rewrite E, bind_Ok. eauto.
Qed.
End loop.

#[local] Instance example : System unit := {|
  AUGEAS_LENSES_DIR := lit "/usr/share/augeas/lenses"; dir_exists := λ _, true;
  file_exists := λ p, streq p (lit "lenses/hosts_access.aug"); can_write := λ _, true; opendir := λ _, None;
  load_module := λ _ _ _, Loaded tt; augyang_print_yang := λ _ _, inr (lit "module hosts-access"); ly_ctx_new := true;
  parse_extension := true; parse_yang := λ _, true |}.

Theorem file_names_fit_witness :
  ∃ out z, run_modules (M:=unit) 5 (λ n, replicate n "?"%char) no_options [lit "augyang"; lit "hosts_access"; lit "none"] 1
    (Some (lit "/tmp:lenses")) (lit "out") = Ok (out, z).
Proof.
  apply (file_names_fit (M:=unit) 5 (λ n, replicate n "?"%char) no_options); [done|by intros n; rewrite length_replicate| | | |].
  - by repeat constructor.
  - by repeat constructor.
  - intros s [= <-]. by repeat constructor.
  - cbn. lia.
Defined.

(** What the program does there. *)
Example run_modules_example :
  run_modules (M:=unit) 5 (λ n, replicate n "?"%char) no_options [lit "augyang"; lit "hosts_access"; lit "none"] 1
    (Some (lit "/tmp:lenses")) (lit "out")
  = Ok ([YangFile (lit "out/hosts-access.yang") (lit "module hosts-access");
         Stderr (lit "ERROR: file none.aug not found in any directory")], 1%Z).
Proof. vm_compute. reflexivity. Qed.
